(* ===== verification/_CoqProject ===== *)
-Q . S2P
Prelude.v
Tailq.v
Queues.v
Words.v
Slist.v
Stailq.v
Dlist.v
TailqAll.v
Rbtree.v
RbShape.v
RbInsert.v
RbRemove.v
RbSpec.v
RbIter.v
Splay.v
SplaySpec.v
State.v
SchedOps.v
Exec.v
SleepSpec.v
Csp.v
BuildTree.v
CspSpec.v
Proc.v
ProcSpec.v
AltCore.v
Chan.v
CopySpec.v
ChanSpec.v
ChanFifo.v
Alt.v
AltSpec.v
AltSelect.v
Context.v
ContextSpec.v
Context386Spec.v
UContext.v
Tls.v
Sched.v
SchedSpec.v
Proxc.v
ProxcSpec.v
System.v
AltGuards.v
AltAdd.v
AltWhole.v
Keeps.v
SystemSpec.v
ChanInv.v
World.v
WorldSched.v
WorldEnd.v
WorldCalls.v
WorldComm.v
WorldTrees.v
Safety.v
ExitFault.v
