(* ===== verification/Prelude.v ===== *)
(** * libproxc: verification library

    libproxc runs CSP processes as coroutines on one scheduler: PROC, PAR and SEQ
    describe processes, RUN and GO start them, channels and ALT let them
    communicate, SLEEP and time guards let them wait.  This library translates
    the runtime (the files of src/src) to Rocq and proves what makes it correct.

    ** The model

    A C function becomes a computation of the monad [M S A] below: it returns a
    value and a new store ([Ok]), fails an ASSERT or panics ([Abort]), has
    undefined behaviour ([Undef]: a NULL or dangling pointer, a broken contract
    of a container) or runs out of the fuel of a loop ([Diverge]).  [wp m Q s]
    says that [m] returns from [s] with [Q]: total correctness.

    The store [State.St] has one finite map per struct type, from addresses to
    records of fields, the scheduler, byte-addressed memory for messages, and
    errno.  [free] deletes, so that every use after free is [Undef].  Integers
    are [Z] with the wrap-around of their C type written out ([u64]).  What comes
    from outside is the class [State.Env]: the clock, rand(), which allocations
    succeed, the addresses of stacks, the stack pointers of switched-out
    processes, what madvise returns, and NDEBUG.

    The queues and trees of the runtime are lists and [SleepTree]s with the contract
    of the macros: removing an element that is not there, or inserting one that is
    (which corrupts the links, so that no list describes the result), is [Undef].
    Tailq relates the lists to the links, and shows that the links after such an
    insertion represent no list ([tailq_insert_queued]).  Safety proves that well-behaved programs
    never break the contract: it shows every step to succeed, and does not assume it.

    A call that may switch to the scheduler is cut at the switch: it returns
    [CRet r], or [CYield k] where the frame [k] says how it goes on
    ([SchedOps.frame], [Proxc.resume]).

    ** The files

    - Prelude: the monad, its rules, addresses and integers.
    - Tailq (util/queue.h): the TAILQ macros on heads and entries with their
      pointers to pointers, and module [Q], the list operations with their
      contract, which the rest of the model calls.
    - Queues: what the four families of util/queue.h promise.  [op_spec] says what
      an operation does to a sequence, [Queue] what a family provides,
      [QueueLaws] what its macros satisfy one head at a time; scripts of
      operations over many heads are handled once, from the laws.  Words is the
      memory of Slist, Stailq and Dlist (SLIST, STAILQ, LIST); TailqAll completes
      TAILQ and shows that it is the fourth instance.
    - Rbtree (util/tree.h): RB_INSERT, RB_REMOVE and the searches on nodes with
      parent pointers.  RbShape relates the nodes to trees with a hole
      (zippers), RbInsert and RbRemove prove the two operations, RbSpec gives the
      interface [SleepTree]: a sorted sequence ([SL]) with insertion, removal and
      minimum.  The runtime is proved against the interface; the red-black trees
      ([rb_SleepTree]) and plain sorted lists ([sl_SleepTree]) are instances.
      RbIter: RB_NFIND, RB_NEXT, RB_PREV and the loops.
    - Splay, SplaySpec (util/tree.h): the splay trees, against the same sequences.
    - State (internal.h and the struct headers), SchedOps (the queue and tree
      operations of scheduler.c), Exec (symbolic execution: the tactic [steps]).
    - Csp (csp.c): the builders.  BuildTree is its specification: a tree of PAR,
      SEQ and processes, which processes run ([active]) and what the end of one
      starts ([complete]).  CspSpec shows that csp.c implements it.
    - Proc (proc.c), AltCore and Alt (alt.c), Chan (chan.c), Context (context.c:
      the assembly as instructions of a small machine), Sched (the loop of
      scheduler_run, cut at its context switch), Proxc (proxc.c and the macros of
      proxc.h), System (the interleaving of process bodies, given by the class
      [Client], with the scheduler).
    - SleepSpec, ProcSpec, CopySpec, ChanSpec, ChanFifo, AltSpec, AltSelect,
      AltGuards, ContextSpec, SchedSpec, ProxcSpec: the theorems, by component.
      AltAdd is the set-up of an ALT for any arguments: [gather] says what they
      become.  AltWhole follows one proxc_alt from its call to the return of
      alt_select; the clean-up after it is undefined (AltGuards).
    - Context386Spec: the i386 half of the assembly, with the lemmas on contexts
      that ContextSpec shares with it.  UContext: the variant of context.c without
      assembly, on the documented laws of getcontext, makecontext and swapcontext
      ([UContextLaws]); makecontext promises to pass on ints only, so its lemma is
      about processes whose address is one.  Tls: the pthread key of scheduler.c, on a table of keys
      and threads; its state is its own, since the rest of the model has one
      thread and one scheduler.
    - Keeps, SystemSpec, ChanInv: whole runs.  [Stable], [Channels] and [Lifecycle]
      are what a relation between stores must admit for every call, and every
      step of [sys_step], to preserve it; the relations of SystemSpec ([grows],
      [registers]) and ChanInv ([tidy]) are instances.
    - World: the invariant of a running program ([world]): where every process is
      ([places], [census]), with the invariants of the components, and what a body
      may do ([Discipline], a typing of bodies by the channels, arguments and trees
      they hold).  WorldSched, WorldEnd, WorldCalls, WorldComm and WorldTrees show
      that the scheduler, the end of a process, and every call keep it; Safety puts
      them together for [sys_step] and for runs from proxc_start.  ExitFault shows
      that the condition Safety puts on the end of a program is needed.

    ** What is proved

    - Whole program: a program whose bodies keep to the interface (any number of
      processes up to MAX_TRIES, any interleaving; all calls but ALT and CHCLOSE)
      never aborts, never has undefined behaviour and never diverges, every process
      is always in exactly one place, the ready queue is first come, first served
      and without duplicates, and no process, builder or channel end is left when
      the runtime has stopped, as long as no allocation or madvise fails and EXIT is
      not called while processes belong to trees (Safety).  For any bodies at all,
      as far as a run is defined, totalQ lists exactly the processes that exist and
      none is left when the runtime has stopped (SystemSpec; without assertions only
      if no allocation fails); a writer and a reader never both wait on one channel, and its
      queue holds only its own blocked calls (ChanInv).  RUN starts every process
      of a tree exactly once and gives the caller back after the last has ended,
      with the tree freed (ProxcSpec, CspSpec); PAR and SEQ build such trees
      (ProxcSpec).
    - Communication: chan_write and chan_read implement a rendezvous, and any
      history of calls delivers messages first in, first out (ChanSpec,
      ChanFifo), byte for byte (CopySpec).  An ALT chooses a ready guard, or
      waits and is won exactly once, and withdraws its other guards; alt_select
      returns the position of the guard that won (AltSelect, AltGuards, AltWhole).
    - Time: sleepers and guards are filed under the first free microsecond
      (SleepSpec, ProxcSpec), woken exactly when due and in order, and an idle
      scheduler sleeps until the earliest deadline (SchedSpec).
    - Context switches save and restore what the ABI asks for, a new process is
      entered as a call, and only dead stack is given back (ContextSpec); the
      same for i386 and, for addresses that are ints, for ucontext (Context386Spec,
      UContext).  A thread finds the scheduler it created, and none when it has
      none, whatever other threads create, free and end (Tls).
    - Containers: the macros implement list and sorted-sequence operations, on
      their pointers, with the red-black invariants (RbSpec, RbIter) or through
      every splay (SplaySpec).  Any script of the macros of a queue family, over
      any number of heads, does what the sequences do (Slist, Stailq, Dlist,
      TailqAll).
    - Faults: second removal of a timed-out guard, the dangling second time
      guard, the read of a freed guard, lost sleepers without assertions, a free
      of a process that stays in use (AltGuards, AltAdd, SleepSpec, ProcSpec), a scheduler
      freed twice at the end of its thread (Tls), a caller of RUN freed before its
      tree when the program stops (ExitFault), and the stack alignment of a new
      process on i386 (Context386Spec).

    ** Fuel

    Loops whose end is not structural take fuel computed from the store, and the
    theorems prove it sufficient: [build_fuel], one more than the number of
    builders, bounds the height of a tree and the chain of parents; [tries_fuel],
    MAX_TRIES + 2, bounds the collision loops; the wake-up loops have one more
    than the number of processes or guards; the tree loops have two
    more than the number of nodes ([rb_fuel]); a loop over a queue has one more
    than the words or entries of the memory ([q_fuel], [tq_fuel]).

    ** Not modelled

    PDEBUG and PERROR (they print), the tracing of QUEUE_MACRO_DEBUG and the
    checks of _KERNEL in queue.h (compiled out), the static initialisers of heads,
    the tests and examples.  A process body is a
    transition function; its stack is represented by the objects on it that the
    runtime reaches (channel ends and the struct Alt). *)
From stdpp Require Import base tactics list gmap.
From Stdlib Require Import ZArith Lia.

(** ** Addresses and machine integers *)

(** Addresses of heap or stack objects; NULL is [None] of [option loc]. *)
Abbreviation loc := positive.

(** [uint64_t] and [size_t] are 64 bits wide: arithmetic wraps modulo 2^64. *)
Definition U64 : Z := 2 ^ 64.
Definition u64 (z : Z) : Z := z `mod` U64.

(** ** A state monad with the ways a C call can go wrong

    [Abort]: a failed ASSERT or a PANIC; [Undef]: undefined behaviour (a NULL
    or dangling dereference, a broken container contract); [Diverge]: the fuel
    of a loop ran out. *)
Inductive outcome (S A : Type) :=
| Ok (a : A) (s : S)
| Abort
| Undef
| Diverge.
Arguments Ok {S A} a s.
Arguments Abort {S A}.
Arguments Undef {S A}.
Arguments Diverge {S A}.

Definition M (S A : Type) : Type := S → outcome S A.

#[export] Instance M_ret S : MRet (M S) := λ A a s, Ok a s.
#[export] Instance M_bind S : MBind (M S) := λ A B k m s,
  match m s with
  | Ok a s' => k a s'
  | Abort => Abort
  | Undef => Undef
  | Diverge => Diverge
  end.

Definition get {S A} (f : S → A) : M S A := λ s, Ok (f s) s.
Definition modify {S} (f : S → S) : M S () := λ s, Ok () (f s).
Definition abort {S A} : M S A := λ _, Abort.
Definition undef {S A} : M S A := λ _, Undef.
Definition diverge {S A} : M S A := λ _, Diverge.

(** Dereferencing: [None] is NULL or a dangling address. *)
Definition deref {S A} (o : option A) : M S A :=
  match o with Some a => mret a | None => undef end.

Definition when {S} (b : bool) (m : M S ()) : M S () := if b then m else mret ().

Fixpoint for_each {S A} (body : A → M S ()) (l : list A) : M S () :=
  match l with
  | [] => mret ()
  | x :: l => body x ;; for_each body l
  end.

(** ** Weakest preconditions: total correctness, no abort, no undefined behaviour *)
Definition wp {S A} (m : M S A) (Q : A → S → Prop) (s : S) : Prop :=
  match m s with
  | Ok a s' => Q a s'
  | _ => False
  end.

Section wp_rules.
Context {S : Type}.

Lemma wp_ret {A} (a : A) Q (s : S) : wp (mret a) Q s ↔ Q a s.
Proof. done. Qed.

Lemma wp_bind {A B} (m : M S A) (k : A → M S B) Q s :
  wp (m ≫= k) Q s ↔ wp m (λ a s', wp (k a) Q s') s.
Proof. unfold wp, mbind, M_bind. by destruct (m s). Qed.

Lemma wp_mono {A} (m : M S A) (Q Q' : A → S → Prop) s :
  wp m Q s → (∀ a s', Q a s' → Q' a s') → wp m Q' s.
Proof. unfold wp. destruct (m s); auto. Qed.

Lemma wp_get {A} (f : S → A) Q s : wp (get f) Q s ↔ Q (f s) s.
Proof. done. Qed.

Lemma wp_modify (f : S → S) Q s : wp (modify f) Q s ↔ Q () (f s).
Proof. done. Qed.

Lemma wp_deref {A} (o : option A) a Q (s : S) :
  o = Some a → Q a s → wp (deref o) Q s.
Proof. by intros ->. Qed.

Lemma wp_when (b : bool) m Q (s : S) :
  (b = true → wp m Q s) → (b = false → Q () s) → wp (when b m) Q s.
Proof. destruct b; naive_solver. Qed.

(** A [wp] with any post-condition says that the computation returns. *)
Lemma wp_ok {A} (m : M S A) Q s :
  wp m Q s ↔ ∃ a s', m s = Ok a s' ∧ Q a s'.
Proof.
  unfold wp. destruct (m s) as [a s'| | |]; split; try done.
  - eauto.
  - by intros (? & ? & [= -> ->] & ?).
  - by intros (? & ? & ? & ?).
  - by intros (? & ? & ? & ?).
  - by intros (? & ? & ? & ?).
Qed.

Lemma bind_ok {A B} (m : M S A) (k : A → M S B) s a s' :
  m s = Ok a s' → (m ≫= k) s = k a s'.
Proof. unfold mbind, M_bind. by intros ->. Qed.

Lemma bind_inv {A B} (m : M S A) (k : A → M S B) s b s' :
  (m ≫= k) s = Ok b s' → ∃ a s1, m s = Ok a s1 ∧ k a s1 = Ok b s'.
Proof. unfold mbind, M_bind. destruct (m s) as [a s1| | |]; try done. eauto. Qed.

Lemma wp_intro {A} (m : M S A) (Q : A → S → Prop) s a s' :
  m s = Ok a s' → Q a s' → wp m Q s.
Proof. unfold wp. by intros ->. Qed.

(** The loop rule: an invariant indexed by the elements already handled. *)
Lemma wp_for_each {A} (body : A → M S ()) (I : list A → S → Prop) l s :
  (∀ done x rest s, l = done ++ x :: rest → I done s →
     wp (body x) (λ _, I (done ++ [x])) s) →
  I [] s → wp (for_each body l) (λ _, I l) s.
Proof.
  intros Hbody H0.
  assert (∀ rest pre s, l = pre ++ rest → I pre s →
    wp (for_each body rest) (λ _, I l) s) as H; [|by apply (H l [])].
  induction rest as [|x rest IH]; intros pre s' -> HI.
  - by rewrite app_nil_r.
  - simpl. apply wp_bind. eapply wp_mono; [by eapply Hbody|].
    intros [] s1 HI1. apply (IH (pre ++ [x])); [by rewrite <-app_assoc|done].
Qed.
End wp_rules.

#[global] Arguments M_bind : simpl never.
#[global] Arguments M_ret : simpl never.
#[global] Arguments wp : simpl never.
#[global] Arguments deref : simpl never.

Create HintDb proxc.
