(* ===== verification/Tailq.v ===== *)
(** * Tail queues of [src/util/queue.h], at the level of their pointers

    A TAILQ head holds the first element and the address of the last element's
    next field; an entry holds the next element and the address of the previous
    next field.  The macros are translated over a store of heads and entries;
    [tq_rep] relates a head to the list of its elements, and every macro is
    shown to implement the corresponding list operation of module [Q]. *)
From stdpp Require Import base tactics list gmap.
From Stdlib Require Import Lia.
From S2P Require Import Prelude.

(** ** Lists with the contract of the macros

    The runtime's queues are lists of element addresses.  [live] tells which
    addresses may still be dereferenced: an insertion writes through the last
    element, a removal through both neighbours.  [None] is a broken contract:
    inserting an element that is already queued, removing one that is not, or
    touching freed memory. *)
Module Q.
Section list_ops.
Context (live : loc → bool).

Definition insert_tail (q : list loc) (e : loc) : option (list loc) :=
  if bool_decide (e ∉ q) && live e && from_option live true (last q)
  then Some (q ++ [e]) else None.

(** The element of [q] just before [e], and just after it. *)
Fixpoint before (q : list loc) (e : loc) : option loc :=
  match q with
  | x :: q' => if bool_decide (head q' = Some e) then Some x else before q' e
  | [] => None
  end.

Fixpoint next (q : list loc) (e : loc) : option loc :=
  match q with
  | x :: q' => if bool_decide (x = e) then head q' else next q' e
  | [] => None
  end.

Definition without (q : list loc) (e : loc) : list loc := filter (.≠ e) q.

Definition remove (q : list loc) (e : loc) : option (list loc) :=
  if bool_decide (e ∈ q) && live e && from_option live true (before q e)
     && from_option live true (next q e)
  then Some (without q e) else None.
End list_ops.
End Q.

(** ** The pointer structures *)

(** The address of a [next] field: a head's [tqh_first] or an entry's [tqe_next]. *)
Inductive naddr :=
| HeadFirst (h : loc)
| EntryNext (e : loc).

#[export] Instance naddr_eq_dec : EqDecision naddr.
Proof. solve_decision. Defined.

Record tq_head := TqHead { tqh_first : option loc; tqh_last : naddr }.
Record tq_entry := TqEntry { tqe_next : option loc; tqe_prev : naddr }.
Record tq_store := TqStore { tq_heads : gmap loc tq_head; tq_entries : gmap loc tq_entry }.

Definition head_of (h : loc) : M tq_store tq_head :=
  o ← get (λ s, tq_heads s !! h); deref o.

Definition entry_of (e : loc) : M tq_store tq_entry :=
  o ← get (λ s, tq_entries s !! e); deref o.

Definition put_head (h : loc) (v : tq_head) : M tq_store () :=
  modify (λ s, TqStore (<[h := v]> (tq_heads s)) (tq_entries s)).

Definition put_entry (e : loc) (v : tq_entry) : M tq_store () :=
  modify (λ s, TqStore (tq_heads s) (<[e := v]> (tq_entries s))).

(** [*a] and [*a = v] for the address [a] of a next field. *)
Definition load_next (a : naddr) : M tq_store (option loc) :=
  match a with
  | HeadFirst h => v ← head_of h; mret (tqh_first v)
  | EntryNext e => v ← entry_of e; mret (tqe_next v)
  end.

Definition store_next (a : naddr) (x : option loc) : M tq_store () :=
  match a with
  | HeadFirst h => v ← head_of h; put_head h (TqHead x (tqh_last v))
  | EntryNext e => v ← entry_of e; put_entry e (TqEntry x (tqe_prev v))
  end.

(** [((struct headname * )a)->tqh_last]: the word after the next field, which is
    [tqh_last] in a head and [tqe_prev] in an entry. *)
Definition load_last (a : naddr) : M tq_store naddr :=
  match a with
  | HeadFirst h => v ← head_of h; mret (tqh_last v)
  | EntryNext e => v ← entry_of e; mret (tqe_prev v)
  end.

Definition set_prev (e : loc) (a : naddr) : M tq_store () :=
  v ← entry_of e; put_entry e (TqEntry (tqe_next v) a).

Definition set_last (h : loc) (a : naddr) : M tq_store () :=
  v ← head_of h; put_head h (TqHead (tqh_first v) a).

(** ** The macros *)

Definition TAILQ_INIT (h : loc) : M tq_store () :=
  put_head h (TqHead None (HeadFirst h)).

Definition TAILQ_FIRST (h : loc) : M tq_store (option loc) := load_next (HeadFirst h).

Definition TAILQ_NEXT (e : loc) : M tq_store (option loc) := load_next (EntryNext e).

Definition TAILQ_EMPTY (h : loc) : M tq_store bool :=
  x ← TAILQ_FIRST h; mret (bool_decide (x = None)).

Definition TAILQ_LAST (h : loc) : M tq_store (option loc) :=
  a ← load_last (HeadFirst h); b ← load_last a; load_next b.

Definition TAILQ_PREV (e : loc) : M tq_store (option loc) :=
  a ← load_last (EntryNext e); b ← load_last a; load_next b.

Definition TAILQ_INSERT_TAIL (h e : loc) : M tq_store () :=
  store_next (EntryNext e) None ;;
  a ← load_last (HeadFirst h);
  set_prev e a ;;
  store_next a (Some e) ;;
  set_last h (EntryNext e).

Definition TAILQ_INSERT_HEAD (h e : loc) : M tq_store () :=
  x ← TAILQ_FIRST h;
  store_next (EntryNext e) x ;;
  match x with
  | Some f => set_prev f (EntryNext e)
  | None => set_last h (EntryNext e)
  end ;;
  store_next (HeadFirst h) (Some e) ;;
  set_prev e (HeadFirst h).

Definition TAILQ_REMOVE (h e : loc) : M tq_store () :=
  x ← TAILQ_NEXT e;
  a ← load_last (EntryNext e);
  match x with
  | Some y => set_prev y a
  | None => set_last h a
  end ;;
  x' ← TAILQ_NEXT e;
  a' ← load_last (EntryNext e);
  store_next a' x'.

Definition TAILQ_CONCAT (h1 h2 : loc) : M tq_store () :=
  b ← TAILQ_EMPTY h2;
  when (negb b) (
    a ← load_last (HeadFirst h1);
    x ← TAILQ_FIRST h2;
    store_next a x ;;
    f ← (y ← TAILQ_FIRST h2; deref y);
    a' ← load_last (HeadFirst h1);
    set_prev f a' ;;
    l ← load_last (HeadFirst h2);
    set_last h1 l ;;
    TAILQ_INIT h2).

(** The [for] loops of TAILQ_FOREACH and TAILQ_FOREACH_REVERSE; [step] is the
    macro that moves [var], [acc] is what the body computes. *)
Fixpoint foreach_loop {T A} (fuel : nat) (step : loc → M T (option loc))
    (body : loc → A → M T A) (var : option loc) (acc : A) : M T A :=
  match fuel with
  | O => diverge
  | S fuel =>
    match var with
    | None => mret acc
    | Some x => acc ← body x acc; y ← step x; foreach_loop fuel step body y acc
    end
  end.

(** [for (var = first; var && (tvar = step(var), 1); var = tvar)], the loop of the
    SAFE variants: the next element is read before the body runs. *)
Fixpoint foreach_safe_loop {T A} (fuel : nat) (step : loc → M T (option loc))
    (body : loc → A → M T A) (var : option loc) (acc : A) : M T A :=
  match fuel with
  | O => diverge
  | S fuel =>
    match var with
    | None => mret acc
    | Some x => tvar ← step x; acc ← body x acc; foreach_safe_loop fuel step body tvar acc
    end
  end.

Definition TAILQ_FOREACH {A} (fuel : nat) (h : loc)
    (body : loc → A → M tq_store A) (acc : A) : M tq_store A :=
  x ← TAILQ_FIRST h; foreach_loop fuel TAILQ_NEXT body x acc.

Definition TAILQ_FOREACH_REVERSE {A} (fuel : nat) (h : loc)
    (body : loc → A → M tq_store A) (acc : A) : M tq_store A :=
  x ← TAILQ_LAST h; foreach_loop fuel TAILQ_PREV body x acc.

(** ** Representation *)

Definition head_or (l : list loc) (n : option loc) : option loc :=
  match l with [] => n | x :: _ => Some x end.

(** The address of the next field that follows the list [l] entered at [a]. *)
Definition last_addr (a : naddr) (l : list loc) : naddr :=
  match last l with Some z => EntryNext z | None => a end.

(** [l] is a chain of entries, reached through the next field at [a] and
    continued by [n]. *)
Fixpoint tq_seg (es : gmap loc tq_entry) (a : naddr) (l : list loc) (n : option loc) : Prop :=
  match l with
  | [] => True
  | e :: l' => es !! e = Some (TqEntry (head_or l' n) a) ∧ tq_seg es (EntryNext e) l' n
  end.

(** A head whose chain is [l], continued by [n], with [tqh_last = a]. *)
Definition tq_open (s : tq_store) (h : loc) (l : list loc) (n : option loc) (a : naddr) : Prop :=
  tq_heads s !! h = Some (TqHead (head_or l n) a) ∧ tq_seg (tq_entries s) (HeadFirst h) l n.

Definition tq_rep (s : tq_store) (h : loc) (l : list loc) : Prop :=
  NoDup l ∧ tq_open s h l None (last_addr (HeadFirst h) l).

(** [s'] differs from [s] at most in the head [h] and the entries [xs]. *)
Definition tq_touch (h : loc) (xs : list loc) (s s' : tq_store) : Prop :=
  (∀ h', h' ≠ h → tq_heads s' !! h' = tq_heads s !! h') ∧
  (∀ e, e ∉ xs → tq_entries s' !! e = tq_entries s !! e) ∧
  dom (tq_entries s') = dom (tq_entries s).

(** Entries as [malloc] leaves them, and a queue with head 1 built by the macros. *)
Definition tq_blank (es : list loc) : tq_store :=
  TqStore ∅ (list_to_map ((λ e, (e, TqEntry None (HeadFirst 99))) <$> es)).

Definition tq_demo : tq_store :=
  match (TAILQ_INIT 1 ;; for_each (TAILQ_INSERT_TAIL 1) [7; 8; 9]%positive) (tq_blank [7; 8; 9; 5]%positive) with
  | Ok _ s => s
  | _ => TqStore ∅ ∅
  end.

(** ** Lemmas on segments *)

Lemma last_addr_app a l1 l2 : last_addr a (l1 ++ l2) = last_addr (last_addr a l1) l2.
Proof. unfold last_addr. rewrite last_app. by destruct (last l2). Qed.

Lemma last_addr_cons a e l : last_addr a (e :: l) = last_addr (EntryNext e) l.
Proof. apply (last_addr_app a [e] l). Qed.

Lemma head_or_app l1 l2 n : head_or (l1 ++ l2) n = head_or l1 (head_or l2 n).
Proof. by destruct l1. Qed.

Lemma head_or_None l : head_or l None = head l.
Proof. by destruct l. Qed.

Lemma tq_seg_app es a l1 l2 n :
  tq_seg es a (l1 ++ l2) n ↔
  tq_seg es a l1 (head_or l2 n) ∧ tq_seg es (last_addr a l1) l2 n.
Proof.
  revert a. induction l1 as [|e l1 IH]; intros a; simpl.
  - tauto.
  - rewrite last_addr_cons, IH, head_or_app. tauto.
Qed.

Lemma tq_seg_ext es es' a l n :
  (∀ e, e ∈ l → es' !! e = es !! e) → tq_seg es a l n → tq_seg es' a l n.
Proof.
  revert a. induction l as [|e l IH]; intros a Hes; simpl; [done|].
  intros [He Hl]. split.
  - rewrite Hes; [done|by left].
  - apply IH; [|done]. intros e' ?. apply Hes. by right.
Qed.

Lemma tq_seg_insert es a l n e v :
  e ∉ l → tq_seg es a l n → tq_seg (<[e := v]> es) a l n.
Proof.
  intros He. apply tq_seg_ext. intros e' He'. rewrite lookup_insert_ne; [done|].
  by intros ->.
Qed.

Lemma tq_seg_lookup es a l1 e l2 n :
  tq_seg es a (l1 ++ e :: l2) n →
  es !! e = Some (TqEntry (head_or l2 n) (last_addr a l1)).
Proof. rewrite tq_seg_app. simpl. tauto. Qed.

Lemma tq_touch_refl h xs s : tq_touch h xs s s.
Proof. done. Qed.

Lemma tq_touch_trans h xs s1 s2 s3 :
  tq_touch h xs s1 s2 → tq_touch h xs s2 s3 → tq_touch h xs s1 s3.
Proof.
  intros (Hh & He & Hd) (Hh' & He' & Hd'). repeat split; intros.
  - rewrite Hh', Hh; done.
  - rewrite He', He; done.
  - congruence.
Qed.

Lemma tq_touch_entry h xs s e v :
  e ∈ xs → is_Some (tq_entries s !! e) →
  tq_touch h xs s (TqStore (tq_heads s) (<[e := v]> (tq_entries s))).
Proof.
  intros Hin Hsome. repeat split; simpl; intros.
  - rewrite lookup_insert_ne; [done|]. by intros ->.
  - rewrite dom_insert_lookup_L; done.
Qed.

Lemma tq_touch_head h xs s v :
  tq_touch h xs s (TqStore (<[h := v]> (tq_heads s)) (tq_entries s)).
Proof. repeat split; simpl; intros. by rewrite lookup_insert_ne. Qed.

(** A queue is not affected by operations on another head and other entries. *)
Lemma tq_rep_touch s s' h h' xs l :
  tq_touch h xs s s' → h' ≠ h → (∀ e, e ∈ l → e ∉ xs) →
  tq_rep s h' l → tq_rep s' h' l.
Proof.
  intros (Hh & He & _) Hne Hdisj (Hnd & Hhd & Hseg). split; [done|]. split.
  - by rewrite Hh.
  - eapply tq_seg_ext; [|done]. intros e ?. apply He. auto.
Qed.

(** ** Single writes *)

Lemma set_prev_ok s e v a Q :
  tq_entries s !! e = Some v →
  Q () (TqStore (tq_heads s) (<[e := TqEntry (tqe_next v) a]> (tq_entries s))) →
  wp (set_prev e a) Q s.
Proof. intros He HQ. unfold wp, set_prev, entry_of, mbind, M_bind, get. rewrite He. done. Qed.

Lemma store_entry_ok s e v x Q :
  tq_entries s !! e = Some v →
  Q () (TqStore (tq_heads s) (<[e := TqEntry x (tqe_prev v)]> (tq_entries s))) →
  wp (store_next (EntryNext e) x) Q s.
Proof. intros He HQ. unfold wp, store_next, entry_of, mbind, M_bind, get. rewrite He. done. Qed.

Lemma load_entry_ok s e v Q :
  tq_entries s !! e = Some v → Q (tqe_next v) s → wp (load_next (EntryNext e)) Q s.
Proof. intros He HQ. unfold wp, load_next, entry_of, mbind, M_bind, get. rewrite He. done. Qed.

Lemma load_prev_ok s e v Q :
  tq_entries s !! e = Some v → Q (tqe_prev v) s → wp (load_last (EntryNext e)) Q s.
Proof. intros He HQ. unfold wp, load_last, entry_of, mbind, M_bind, get. rewrite He. done. Qed.

Lemma load_first_ok s h l n a Q :
  tq_open s h l n a → Q (head_or l n) s → wp (TAILQ_FIRST h) Q s.
Proof.
  intros [Hh _] HQ. unfold wp, TAILQ_FIRST, load_next, head_of, mbind, M_bind, get.
  rewrite Hh. done.
Qed.

Lemma load_tqh_last_ok s h l n a Q :
  tq_open s h l n a → Q a s → wp (load_last (HeadFirst h)) Q s.
Proof.
  intros [Hh _] HQ. unfold wp, load_last, head_of, mbind, M_bind, get. rewrite Hh. done.
Qed.

Lemma set_last_ok s h l n a a' :
  tq_open s h l n a →
  wp (set_last h a') (λ _ s', tq_open s' h l n a' ∧ tq_entries s' = tq_entries s
                              ∧ tq_touch h [] s s') s.
Proof.
  intros [Hh Hseg]. unfold wp, set_last, head_of, mbind, M_bind, get. rewrite Hh. simpl.
  split; [|split; [done|apply tq_touch_head]]. split; [|done]. simpl. by rewrite lookup_insert_eq.
Qed.

(** Writing the next field that ends the chain [l] changes its continuation. *)
Lemma store_end_ok s h l n x a :
  NoDup l → tq_open s h l n a →
  wp (store_next (last_addr (HeadFirst h) l) x)
     (λ _ s', tq_open s' h l x a ∧ tq_touch h l s s') s.
Proof.
  intros Hnd [Hh Hseg]. destruct l as [|z l' _] using rev_ind.
  - simpl. unfold wp, last_addr, store_next, head_of, mbind, M_bind, get; simpl.
    rewrite Hh. simpl. split; [|apply tq_touch_head].
    split; simpl; [by rewrite lookup_insert_eq|done].
  - rewrite last_addr_app. change (last_addr ?a [z]) with (EntryNext z).
    pose proof (tq_seg_lookup _ _ _ _ _ _ Hseg) as Hz.
    apply NoDup_app in Hnd as (Hnd & Hz' & _).
    assert (z ∉ l') as Hzl by (intros ?; apply (Hz' z); [done|by left]).
    eapply store_entry_ok; [exact Hz|]. split.
    + split; simpl.
      * rewrite Hh. by rewrite !head_or_app.
      * apply tq_seg_app in Hseg as [Hl _]. apply tq_seg_app; split.
        -- by apply tq_seg_insert.
        -- simpl. by rewrite lookup_insert_eq.
    + apply tq_touch_entry; [apply elem_of_app; right; by left|eauto].
Qed.

Lemma tq_open_insert s h l n a e v :
  e ∉ l → tq_open s h l n a →
  tq_open (TqStore (tq_heads s) (<[e := v]> (tq_entries s))) h l n a.
Proof. intros He [Hh Hs]. split; [done|]. by apply tq_seg_insert. Qed.

Lemma tq_touch_mono h xs ys s s' :
  (∀ x, x ∈ xs → x ∈ ys) → tq_touch h xs s s' → tq_touch h ys s s'.
Proof. intros Hsub (? & He & ?). repeat split; auto. Qed.

(** ** The macros implement the list operations *)

Lemma tailq_init_ok s h :
  wp (TAILQ_INIT h) (λ _ s', tq_rep s' h [] ∧ tq_touch h [] s s') s.
Proof.
  simpl. split; [|apply tq_touch_head].
  split; [constructor|]. split; simpl; [by rewrite lookup_insert_eq|done].
Qed.

Lemma tailq_first_ok s h l : tq_rep s h l → wp (TAILQ_FIRST h) (λ x s', x = head l ∧ s' = s) s.
Proof. intros [_ Ho]. eapply load_first_ok; [done|]. by rewrite head_or_None. Qed.

Lemma tailq_insert_tail_ok s h l e :
  tq_rep s h l → e ∉ l → is_Some (tq_entries s !! e) →
  wp (TAILQ_INSERT_TAIL h e)
     (λ _ s', tq_rep s' h (l ++ [e]) ∧ tq_touch h (e :: l) s s') s.
Proof.
  intros [Hnd Ho] Hel [v Hv]. unfold TAILQ_INSERT_TAIL.
  apply wp_bind. eapply store_entry_ok; [done|].
  set (s1 := TqStore _ _).
  assert (tq_touch h (e :: l) s s1) as T1 by (apply tq_touch_entry; [by left|eauto]).
  apply (tq_open_insert _ _ _ _ _ e (TqEntry None (tqe_prev v)) Hel) in Ho.
  change (tq_open s1 h l None (last_addr (HeadFirst h) l)) in Ho.
  apply wp_bind. eapply load_tqh_last_ok; [done|].
  apply wp_bind. eapply set_prev_ok; [apply lookup_insert_eq|]. simpl.
  set (s2 := TqStore _ _). set (a := last_addr (HeadFirst h) l).
  assert (tq_touch h (e :: l) s1 s2) as T2
    by (apply (tq_touch_entry h (e :: l) s1); [by left|simpl; rewrite lookup_insert_eq; eauto]).
  pose proof (tq_open_insert s1 _ _ _ _ e (TqEntry None a) Hel Ho) as Ho2.
  change (tq_open s2 h l None a) in Ho2.
  apply wp_bind. eapply wp_mono; [by eapply (store_end_ok s2)|].
  intros [] s3 [Ho3 T3].
  assert (tq_entries s3 !! e = Some (TqEntry None a)) as He3.
  { destruct T3 as (_ & He & _). rewrite He; [|done]. simpl. by rewrite lookup_insert_eq. }
  eapply wp_mono; [by eapply set_last_ok|].
  intros [] s4 (Ho4 & He4 & T4). split.
  - split.
    + apply NoDup_app. repeat split; [done| |apply NoDup_singleton].
      intros x Hx ->%list_elem_of_singleton. done.
    + destruct Ho4 as [Hh4 Hs4]. split.
      * rewrite Hh4, head_or_app, last_addr_app. done.
      * apply tq_seg_app; split; [done|]. simpl. split; [|done]. by rewrite He4, He3.
  - eapply tq_touch_trans; [exact T1|]. eapply tq_touch_trans; [exact T2|].
    eapply tq_touch_trans; eapply tq_touch_mono; [|exact T3| |exact T4].
    + intros x ?. by right.
    + intros x Hx. by apply not_elem_of_nil in Hx.
Qed.

(** *** The contract of the insertion is needed *)

Lemma last_addr_end h l e : last_addr (HeadFirst h) l = EntryNext e → ∃ m, l = m ++ [e].
Proof.
  unfold last_addr. destruct l as [|z l _] using rev_ind; [done|]. rewrite last_snoc.
  intros [= ->]. by exists l.
Qed.

(** A chain is known from its end: the words before the entries lead back. *)
Lemma tq_seg_back es h l e c :
  tq_seg es (HeadFirst h) l None → last_addr (HeadFirst h) l = EntryNext e →
  (∀ c1 x y c2, c ++ [e] = c1 ++ x :: y :: c2 → tqe_prev <$> es !! y = Some (EntryNext x)) →
  ∃ m, l = m ++ c ++ [e].
Proof.
  intros Hseg Hlast. induction c as [|x c IH]; intros Hprev; [by apply (last_addr_end h)|].
  destruct IH as [m Hm]. { intros c1 x' y c2 Hc. apply (Hprev (x :: c1) x' y c2). simpl. by rewrite Hc. }
  destruct (c ++ [e]) as [|y c2] eqn:Hc; [by destruct c|].
  rewrite Hm in Hseg. apply tq_seg_lookup in Hseg.
  specialize (Hprev [] x y c2). simpl in Hprev. rewrite Hc, Hseg in Hprev.
  injection (Hprev eq_refl) as [m' ->]%last_addr_end. exists m'.
  rewrite Hm. simpl. by rewrite Hc, <-app_assoc.
Qed.

(** Inserting an element that is queued already leaves links that belong to no list:
    from the end they lead from [e] back to [e]. *)
Lemma tailq_insert_queued s h l e :
  tq_rep s h l → e ∈ l → wp (TAILQ_INSERT_TAIL h e) (λ _ s', ∀ l', ¬ tq_rep s' h l') s.
Proof.
  intros [Hnd [Hh Hseg]] (l1 & l2 & ->)%list_elem_of_split.
  assert (∃ c z, e :: l2 = c ++ [z]) as (c & z & Hz).
  { destruct (exists_last (l := e :: l2)) as (c & z & ?); [done|by exists c, z]. }
  assert (last_addr (HeadFirst h) (l1 ++ e :: l2) = EntryNext z) as Hlast.
  { rewrite Hz, app_assoc. unfold last_addr. by rewrite last_snoc. }
  assert (∃ vz, tq_entries s !! z = Some vz) as [vz Hvz].
  { rewrite Hz, app_assoc in Hseg. apply tq_seg_lookup in Hseg. by eexists. }
  pose proof (tq_seg_lookup _ _ _ _ _ _ Hseg) as He. rewrite Hlast in Hh.
  set (es := <[e := TqEntry None (EntryNext z)]> (<[e := TqEntry None (last_addr (HeadFirst h) l1)]> (tq_entries s))).
  assert (∃ v, es !! z = Some v ∧ (z ≠ e → v = vz) ∧ (z = e → tqe_prev v = EntryNext z)) as (v & Hv & Hv1 & Hv2).
  { unfold es. destruct (decide (z = e)) as [->|Hne].
    - eexists. by rewrite lookup_insert_eq.
    - exists vz. rewrite !lookup_insert_ne by done. by split_and!. }
  unfold TAILQ_INSERT_TAIL. apply wp_bind. eapply store_entry_ok; [done|]. simpl tqe_prev.
  apply wp_bind. unfold load_last, head_of. apply wp_bind. apply wp_bind, wp_get. simpl. rewrite Hh.
  apply wp_ret, wp_ret. simpl. apply wp_bind. eapply set_prev_ok; [apply lookup_insert_eq|]. simpl. fold es.
  apply wp_bind. eapply store_entry_ok; [done|]. simpl.
  unfold wp, set_last, head_of, put_head, mbind, M_bind, get, modify. simpl. rewrite Hh. simpl.
  intros l' [Hnd' [Hh' Hseg']]. simpl in Hh', Hseg'. rewrite lookup_insert_eq in Hh'. injection Hh' as Hf Hl'.
  destruct (tq_seg_back _ h l' e (e :: l2) Hseg' (eq_sym Hl')) as [m ->].
  - intros c1 x y c2 Heq. destruct c2 as [|w c2 _] using rev_ind.
    + assert (c ++ [z; e] = c1 ++ [x; y]) as Heq2.
      { rewrite <-Heq, Hz, <-app_assoc. done. }
      apply (app_inj_2 _ _ [z; e] [x; y]) in Heq2 as [_ [= <- <-]]; [|done].
      destruct (decide (z = e)) as [->|Hne]; [rewrite lookup_insert_eq; simpl; by rewrite Hv2|].
      rewrite lookup_insert_ne by done. unfold es. by rewrite lookup_insert_eq.
    + replace (c1 ++ x :: y :: c2 ++ [w]) with ((c1 ++ x :: y :: c2) ++ [w]) in Heq by (by rewrite <-app_assoc).
      apply app_inj_tail in Heq as [Heq _].
      assert (y ≠ e) as Hye.
      { apply NoDup_app in Hnd as (_ & _ & [Hn _]%NoDup_cons).
        destruct c1 as [|? c1]; simplify_eq/=; intros ->; apply Hn; [by left|].
        apply elem_of_app. right. right. by left. }
      rewrite Heq in Hseg. replace (l1 ++ c1 ++ x :: y :: c2) with ((l1 ++ c1 ++ [x]) ++ y :: c2) in Hseg
        by (by rewrite <-!app_assoc).
      apply tq_seg_lookup in Hseg. rewrite app_assoc in Hseg.
      unfold last_addr in Hseg. rewrite last_snoc in Hseg.
      destruct (decide (y = z)) as [->|Hyz].
      * rewrite lookup_insert_eq. simpl. rewrite Hv1 by done. rewrite Hvz in Hseg. by simplify_eq.
      * rewrite lookup_insert_ne by done. unfold es. rewrite !lookup_insert_ne by done. by rewrite Hseg.
  - rewrite <-app_comm_cons in Hnd'. apply NoDup_app in Hnd' as (_ & _ & [Hn _]%NoDup_cons).
    apply Hn. apply elem_of_app. right. by left.
Qed.

(** The write that makes [l2], the end of the queue, follow the next field at
    [a]: to its first element, or to the head when there is none. *)
Definition relead (h : loc) (x : option loc) (a : naddr) : M tq_store () :=
  match x with Some y => set_prev y a | None => set_last h a end.

Lemma relead_ok s h l1 n l2 a0 a :
  NoDup (l1 ++ l2) → tq_open s h l1 n (last_addr a0 l2) → tq_seg (tq_entries s) a0 l2 None →
  wp (relead h (head_or l2 None) a)
    (λ _ s1, tq_open s1 h l1 n (last_addr a l2) ∧ tq_seg (tq_entries s1) a l2 None ∧
      (∀ e, e ∉ l2 → tq_entries s1 !! e = tq_entries s !! e) ∧ tq_touch h l2 s s1) s.
Proof.
  intros (Hn1 & Hn12 & Hn2)%NoDup_app [Hh Hs1] Hs2. destruct l2 as [|y l2]; simpl.
  - eapply wp_mono; [eapply (set_last_ok s h l1 n); by split|].
    intros [] s1 (Ho1 & Hes & T1). split; [exact Ho1|]. split; [done|]. split; [|done].
    intros e _. by rewrite Hes.
  - simpl in Hs2. destruct Hs2 as [Hy Hs2].
    assert (y ∉ l1) as Hy1 by (intros ?; apply (Hn12 y); [done|by left]).
    apply NoDup_cons in Hn2 as [Hy2 _].
    eapply set_prev_ok; [done|]. simpl. rewrite last_addr_cons in Hh. rewrite last_addr_cons.
    split; [|split; [|split]].
    + split; [done|]. by apply tq_seg_insert.
    + rewrite lookup_insert_eq. split; [done|]. by apply tq_seg_insert.
    + intros e He. rewrite lookup_insert_ne; [done|]. intros ->. apply He. by left.
    + apply tq_touch_entry; [by left|eauto].
Qed.

Lemma tailq_remove_ok s h l1 e l2 :
  tq_rep s h (l1 ++ e :: l2) →
  wp (TAILQ_REMOVE h e)
     (λ _ s', tq_rep s' h (l1 ++ l2) ∧ tq_touch h (l1 ++ l2) s s') s.
Proof.
  intros [Hnd Ho]. pose proof (tq_seg_lookup _ _ _ _ _ _ (proj2 Ho)) as He.
  set (a := last_addr (HeadFirst h) l1) in *.
  assert (NoDup (l1 ++ l2) ∧ e ∉ l1 ++ l2) as [Hnd' Hel].
  { rewrite <-Permutation_middle in Hnd. by apply NoDup_cons in Hnd as [??]. }
  apply NoDup_app in Hnd' as Hnd12. destruct Hnd12 as (Hn1 & Hn12 & Hn2).
  destruct Ho as [Hh Hs]. apply tq_seg_app in Hs as (Hs1 & _ & Hs2).
  rewrite last_addr_app, last_addr_cons in Hh. rewrite head_or_app in Hh.
  unfold TAILQ_REMOVE. apply wp_bind. eapply load_entry_ok; [done|].
  apply wp_bind. eapply load_prev_ok; [done|]. apply wp_bind. cbv beta.
  simpl tqe_next. simpl tqe_prev.
  eapply wp_mono; [by apply (relead_ok s h l1 (Some e) l2 (EntryNext e) a)|].
  intros [] s1 (Ho1 & Hseg2 & Hes & T1).
  assert (tq_entries s1 !! e = Some (TqEntry (head_or l2 None) a)) as He1.
  { rewrite Hes; [done|]. intros ?. apply Hel, elem_of_app. by right. }
  apply wp_bind. eapply load_entry_ok; [done|].
  apply wp_bind. eapply load_prev_ok; [done|]. simpl.
  eapply wp_mono; [by eapply store_end_ok|]. intros [] s2 [[Hh2 Hseg1] T2]. split.
  - split; [done|]. split.
    + rewrite Hh2, head_or_app, last_addr_app. done.
    + apply tq_seg_app. split; [done|]. eapply tq_seg_ext; [|done].
      intros x Hx. destruct T2 as (_ & -> & _); [done|]. intros Hx1. by apply (Hn12 x).
  - eapply tq_touch_trans; eapply tq_touch_mono; [|exact T1| |exact T2];
      intros x ?; apply elem_of_app; auto.
Qed.

(** Reading the next field after the prefix [l1], and the word after it. *)
Lemma load_next_at s h l1 l2 Q :
  tq_rep s h (l1 ++ l2) → Q (head l2) s →
  wp (load_next (last_addr (HeadFirst h) l1)) Q s.
Proof.
  intros [_ Ho] HQ. rewrite <-head_or_None in HQ.
  destruct l1 as [|z l1 _] using rev_ind.
  - by eapply (load_first_ok s h).
  - rewrite last_addr_app. rewrite <-app_assoc in Ho. simpl in Ho.
    eapply load_entry_ok; [by eapply tq_seg_lookup, Ho|done].
Qed.

Lemma tailq_next_ok s h l1 e l2 :
  tq_rep s h (l1 ++ e :: l2) → wp (TAILQ_NEXT e) (λ x s', x = head l2 ∧ s' = s) s.
Proof.
  intros [_ [_ Hs]]. eapply load_entry_ok; [by eapply tq_seg_lookup|].
  simpl. by rewrite head_or_None.
Qed.

Lemma tailq_last_ok s h l : tq_rep s h l → wp (TAILQ_LAST h) (λ x s', x = last l ∧ s' = s) s.
Proof.
  intros Hrep. unfold TAILQ_LAST. apply wp_bind.
  eapply load_tqh_last_ok; [apply Hrep|]. apply wp_bind.
  destruct l as [|z l _] using rev_ind.
  - eapply load_tqh_last_ok; [apply Hrep|]. by apply (load_next_at s h [] []).
  - rewrite last_addr_app. eapply load_prev_ok; [by eapply tq_seg_lookup, Hrep|].
    eapply load_next_at; [apply Hrep|]. by rewrite last_snoc.
Qed.

Lemma tailq_prev_ok s h l1 e l2 :
  tq_rep s h (l1 ++ e :: l2) → wp (TAILQ_PREV e) (λ x s', x = last l1 ∧ s' = s) s.
Proof.
  intros Hrep. unfold TAILQ_PREV. apply wp_bind.
  eapply load_prev_ok; [by eapply tq_seg_lookup, Hrep|]. simpl. apply wp_bind.
  destruct l1 as [|z l1 _] using rev_ind.
  - eapply load_tqh_last_ok; [apply Hrep|]. rewrite app_nil_l.
    apply (load_next_at s h (e :: l2) []); [by rewrite app_nil_r|done].
  - rewrite last_addr_app. rewrite <-app_assoc in Hrep. simpl in Hrep.
    eapply load_prev_ok; [by eapply tq_seg_lookup, Hrep|].
    eapply load_next_at; [apply Hrep|]. by rewrite last_snoc.
Qed.

Section foreach.
Context {A : Type} (h : loc) (l : list loc) (body : loc → A → M tq_store A).
(** An invariant of the loop, indexed by the elements already visited. *)
Context (I : list loc → A → tq_store → Prop).

Lemma tailq_foreach_ok fuel acc s :
  (∀ done x acc s, done ++ [x] `prefix_of` l → tq_rep s h l → I done acc s →
     wp (body x acc) (λ acc' s', tq_rep s' h l ∧ I (done ++ [x]) acc' s') s) →
  length l < fuel → tq_rep s h l → I [] acc s →
  wp (TAILQ_FOREACH fuel h body acc) (λ acc' s', tq_rep s' h l ∧ I l acc' s') s.
Proof.
  intros Hbody. unfold TAILQ_FOREACH. intros Hfuel Hrep HI.
  apply wp_bind. eapply wp_mono; [by apply tailq_first_ok|]. intros ? ? [-> ->].
  assert (∀ l2 l1 fuel acc s, l = l1 ++ l2 → length l2 < fuel →
    tq_rep s h l → I l1 acc s →
    wp (foreach_loop fuel TAILQ_NEXT body (head l2) acc)
      (λ acc' s', tq_rep s' h l ∧ I l acc' s') s) as H.
  2: { by apply (H l []). }
  clear fuel Hfuel HI Hrep s acc.
  induction l2 as [|x l2 IH]; intros l1 [|fuel] acc s Hl Hfuel Hrep HI; simpl in *; try lia.
  - rewrite app_nil_r in Hl. by subst l1.
  - apply wp_bind. eapply wp_mono.
    { apply Hbody; [|done|done]. rewrite Hl. exists l2. by rewrite <-app_assoc. }
    intros acc' s' [Hrep' HI']. apply wp_bind.
    eapply wp_mono; [eapply tailq_next_ok; rewrite <-Hl; done|]. intros ? ? [-> ->].
    eapply IH; [|lia|done|done]. rewrite Hl. by rewrite <-app_assoc.
Qed.

Lemma tailq_foreach_reverse_ok fuel acc s :
  (∀ done x acc s, done ++ [x] `prefix_of` reverse l → tq_rep s h l → I done acc s →
     wp (body x acc) (λ acc' s', tq_rep s' h l ∧ I (done ++ [x]) acc' s') s) →
  length l < fuel → tq_rep s h l → I [] acc s →
  wp (TAILQ_FOREACH_REVERSE fuel h body acc)
    (λ acc' s', tq_rep s' h l ∧ I (reverse l) acc' s') s.
Proof.
  intros Hbody. unfold TAILQ_FOREACH_REVERSE. intros Hfuel Hrep HI.
  apply wp_bind. eapply wp_mono; [by apply tailq_last_ok|]. intros ? ? [-> ->].
  assert (∀ l2 l1 fuel acc s, l = l2 ++ l1 → length l2 < fuel →
    tq_rep s h l → I (reverse l1) acc s →
    wp (foreach_loop fuel TAILQ_PREV body (last l2) acc)
      (λ acc' s', tq_rep s' h l ∧ I (reverse l) acc' s') s) as H.
  2: { apply (H l []); [by rewrite app_nil_r|done..]. }
  clear fuel Hfuel HI Hrep s acc.
  induction l2 as [|x l2 IH] using rev_ind; intros l1 fuel acc s Hl Hfuel Hrep HI.
  - destruct fuel; simpl in *; [lia|]. by subst l1.
  - rewrite length_app in Hfuel. simpl in Hfuel. destruct fuel as [|fuel]; [lia|].
    rewrite last_snoc. simpl. rewrite <-app_assoc in Hl. simpl in Hl.
    apply wp_bind. eapply wp_mono.
    { apply Hbody; [|done|done]. rewrite Hl. exists (reverse l2).
      by rewrite reverse_app, reverse_cons. }
    intros acc' s' [Hrep' HI']. apply wp_bind.
    eapply wp_mono; [eapply tailq_prev_ok; rewrite <-Hl; done|]. intros ? ? [-> ->].
    eapply (IH (x :: l1)); [done|lia|done|]. by rewrite reverse_cons.
Qed.
End foreach.

(** ** The list operations of [Q] are what the macros do *)

Lemma Q_without_app l1 e l2 :
  NoDup (l1 ++ e :: l2) → Q.without (l1 ++ e :: l2) e = l1 ++ l2.
Proof.
  intros Hnd. rewrite <-Permutation_middle in Hnd. apply NoDup_cons in Hnd as [He _].
  unfold Q.without. rewrite filter_app, filter_cons_False by (intros H; by apply H).
  assert (∀ k : list loc, e ∉ k → filter (.≠ e) k = k) as Hk.
  { clear. induction k as [|x k IH]; intros Hk; [done|].
    rewrite filter_cons_True by (intros ->; apply Hk; by left).
    f_equal. apply IH. intros ?. apply Hk. by right. }
  rewrite !Hk; [done|..]; intros ?; apply He, elem_of_app; auto.
Qed.

(** TAILQ_INSERT_TAIL on the pointer structures appends at the tail of the
    represented queue whenever the contract checked by the runtime's list
    operation holds, and leaves every other queue alone. *)
Theorem tailq_insert_tail_refines s h l e l' live :
  tq_rep s h l → is_Some (tq_entries s !! e) → Q.insert_tail live l e = Some l' →
  ∃ s', TAILQ_INSERT_TAIL h e s = Ok () s' ∧ tq_rep s' h l' ∧
    ∀ h2 l2, h2 ≠ h → (∀ x, x ∈ l2 → x ∉ e :: l) → tq_rep s h2 l2 → tq_rep s' h2 l2.
Proof.
  unfold Q.insert_tail. intros Hrep He Hq. case_match eqn:Hc; [|done].
  simplify_eq. rewrite !andb_true_iff, bool_decide_eq_true in Hc. destruct Hc as [[Hc _] _].
  pose proof (tailq_insert_tail_ok _ _ _ _ Hrep Hc He) as Hwp.
  apply wp_ok in Hwp as ([] & s' & Hs' & Hrep' & Ht).
  exists s'. split; [done|]. split; [exact Hrep'|].
  intros. by eapply tq_rep_touch.
Qed.

(** TAILQ_REMOVE on the pointer structures removes exactly the given element,
    wherever it stands in the queue, and leaves every other queue alone. *)
Theorem tailq_remove_refines s h l e l' live :
  tq_rep s h l → Q.remove live l e = Some l' →
  ∃ s', TAILQ_REMOVE h e s = Ok () s' ∧ tq_rep s' h l' ∧
    ∀ h2 l2, h2 ≠ h → (∀ x, x ∈ l2 → x ∉ l) → tq_rep s h2 l2 → tq_rep s' h2 l2.
Proof.
  unfold Q.remove. intros Hrep Hq. case_match eqn:Hc; [|done].
  simplify_eq. rewrite !andb_true_iff, bool_decide_eq_true in Hc. destruct Hc as [[[Hc _] _] _].
  apply list_elem_of_split in Hc as (l1 & l2 & ->).
  rewrite Q_without_app by apply Hrep.
  pose proof (tailq_remove_ok _ _ _ _ _ Hrep) as Hwp.
  apply wp_ok in Hwp as ([] & s' & Hs' & Hrep' & Ht).
  exists s'. split; [done|]. split; [exact Hrep'|].
  intros h2 k Hne Hk. eapply tq_rep_touch; [done..|].
  intros x Hx Hin. apply (Hk x Hx). apply elem_of_app in Hin as [?|?];
    apply elem_of_app; [by left|right; by right].
Qed.

(** TAILQ_FOREACH visits the elements of the queue from first to last, and
    TAILQ_FOREACH_REVERSE (with its cast of a next field to a head) from last to
    first; both loops end within one iteration more than the queue's length. *)
Theorem tailq_foreach_order s h l :
  tq_rep s h l →
  TAILQ_FOREACH (S (length l)) h (λ x acc, mret (acc ++ [x])) [] s = Ok l s ∧
  TAILQ_FOREACH_REVERSE (S (length l)) h (λ x acc, mret (acc ++ [x])) [] s = Ok (reverse l) s.
Proof.
  intros Hrep.
  pose proof (tailq_foreach_ok h l (λ x acc, mret (acc ++ [x]))
    (λ seen acc s', acc = seen ∧ s' = s) (S (length l)) [] s) as H1.
  pose proof (tailq_foreach_reverse_ok h l (λ x acc, mret (acc ++ [x]))
    (λ seen acc s', acc = seen ∧ s' = s) (S (length l)) [] s) as H2.
  apply wp_ok in H1 as (? & ? & Hf & _ & -> & ->);
    [|by intros ? ? ? ? _ ? [-> ->]|lia|done|done].
  apply wp_ok in H2 as (? & ? & Hr & _ & -> & ->);
    [|by intros ? ? ? ? _ ? [-> ->]|lia|done|done].
  done.
Qed.

(** ** Witnesses: a queue built by the macros themselves *)

Lemma tq_demo_rep : tq_rep tq_demo 1 [7; 8; 9]%positive.
Proof.
  split; [by apply (bool_decide_unpack _); vm_compute|].
  split; [by vm_compute|]. repeat split; by vm_compute.
Qed.

Lemma tailq_insert_tail_refines_witness :
  ∃ s', TAILQ_INSERT_TAIL 1 5 tq_demo = Ok () s' ∧ tq_rep s' 1 [7; 8; 9; 5]%positive ∧
    ∀ h2 l2, h2 ≠ 1%positive → (∀ x, x ∈ l2 → x ∉ [5; 7; 8; 9]%positive) →
      tq_rep tq_demo h2 l2 → tq_rep s' h2 l2.
Proof.
  apply (tailq_insert_tail_refines tq_demo 1 [7; 8; 9]%positive 5 _ (λ _, true));
    [exact tq_demo_rep|by vm_compute; eauto|by vm_compute].
Defined.

Lemma tailq_remove_refines_witness :
  ∃ s', TAILQ_REMOVE 1 8 tq_demo = Ok () s' ∧ tq_rep s' 1 [7; 9]%positive ∧
    ∀ h2 l2, h2 ≠ 1%positive → (∀ x, x ∈ l2 → x ∉ [7; 8; 9]%positive) →
      tq_rep tq_demo h2 l2 → tq_rep s' h2 l2.
Proof.
  apply (tailq_remove_refines tq_demo 1 [7; 8; 9]%positive 8 _ (λ _, true));
    [exact tq_demo_rep|by vm_compute].
Defined.

Lemma tailq_foreach_order_witness :
  TAILQ_FOREACH 4 1 (λ x acc, mret (acc ++ [x])) [] tq_demo = Ok [7; 8; 9]%positive tq_demo ∧
  TAILQ_FOREACH_REVERSE 4 1 (λ x acc, mret (acc ++ [x])) [] tq_demo
    = Ok [9; 8; 7]%positive tq_demo.
Proof. apply (tailq_foreach_order tq_demo 1 [7; 8; 9]%positive). exact tq_demo_rep. Defined.
