(* ===== verification/Queues.v ===== *)
(** * The queue macros of [src/util/queue.h]: what the four families promise

    The header offers one interface, four times: SLIST, STAILQ, LIST and TAILQ,
    each with some of the operations.  [op_spec] and [qspec] say what an
    operation does to the sequences held by a set of heads; [Queue] is what a
    family provides, [QueueLaws] what its macros must satisfy, one head at a
    time.  Everything about scripts of operations over many heads is proved here
    from the laws, once for all families. *)
From stdpp Require Import base tactics list gmap.
From Stdlib Require Import Lia.
From S2P Require Import Prelude Tailq.

(** ** Operations on one head, and on heads *)
Inductive qop :=
| OInsertHead (e : loc) | OInsertTail (e : loc)
| OInsertAfter (p e : loc) | OInsertBefore (p e : loc)
| ORemoveHead | ORemoveAfter (p : loc) | ORemove (e : loc)
| OEmpty | OFirst | ONext (e : loc) | OLast | OPrev (e : loc)
| OForeach | OForeachReverse | OForeachPrevptr
| OForeachSafe (keep : loc → bool) | OForeachReverseSafe (keep : loc → bool).

Inductive qcmd :=
| QInit (h : loc)
| QOn (h : loc) (op : qop)
| QConcat (h1 h2 : loc)
| QSwap (h1 h2 : loc).

Inductive answer := AUnit | ABool (b : bool) | APtr (x : option loc) | AList (l : list loc).

(** The parts of [l] before and after [p]. *)
Fixpoint split_at (p : loc) (l : list loc) : option (list loc * list loc) :=
  match l with
  | [] => None
  | x :: l =>
    if bool_decide (x = p) then Some ([], l)
    else '(l1, l2) ← split_at p l; Some (x :: l1, l2)
  end.

(** [None]: the caller broke the contract (NULL or a foreign element). *)
Definition op_spec (op : qop) (l : list loc) : option (answer * list loc) :=
  match op with
  | OInsertHead e => Some (AUnit, e :: l)
  | OInsertTail e => Some (AUnit, l ++ [e])
  | OInsertAfter p e => '(l1, l2) ← split_at p l; Some (AUnit, l1 ++ p :: e :: l2)
  | OInsertBefore p e => '(l1, l2) ← split_at p l; Some (AUnit, l1 ++ e :: p :: l2)
  | ORemoveHead => match l with x :: l => Some (AUnit, l) | [] => None end
  | ORemoveAfter p =>
    '(l1, l2) ← split_at p l;
    match l2 with _ :: l2 => Some (AUnit, l1 ++ p :: l2) | [] => None end
  | ORemove e => '(l1, l2) ← split_at e l; Some (AUnit, l1 ++ l2)
  | OEmpty => Some (ABool (bool_decide (l = [])), l)
  | OFirst => Some (APtr (head l), l)
  | ONext e => '(l1, l2) ← split_at e l; Some (APtr (head l2), l)
  | OLast => Some (APtr (last l), l)
  | OPrev e => '(l1, l2) ← split_at e l; Some (APtr (last l1), l)
  | OForeach | OForeachPrevptr => Some (AList l, l)
  | OForeachReverse => Some (AList (reverse l), l)
  | OForeachSafe keep => Some (AList l, filter (λ x, keep x) l)
  | OForeachReverseSafe keep => Some (AList (reverse l), filter (λ x, keep x) l)
  end.

(** The element an operation brings into the queue. *)
Definition new_elem (op : qop) : option loc :=
  match op with
  | OInsertHead e | OInsertTail e | OInsertAfter _ e | OInsertBefore _ e => Some e
  | _ => None
  end.

(** The sequences behind the heads [qs_heads] and elements [qs_elems]. *)
Record qstate := QState { qs_heads : gset loc; qs_elems : gset loc; qs_lists : gmap loc (list loc) }.

Definition set_list (h : loc) (l : list loc) (A : qstate) : qstate :=
  QState (qs_heads A) (qs_elems A) (<[h := l]> (qs_lists A)).

(** [e] is an element that no queue holds. *)
Definition is_free (A : qstate) (e : loc) : Prop :=
  e ∈ qs_elems A ∧ map_Forall (λ _ l, e ∉ l) (qs_lists A).

#[export] Instance is_free_dec A e : Decision (is_free A e).
Proof. unfold is_free. apply _. Defined.

(** What an operation inserts is free. *)
Definition fits (A : qstate) (op : qop) : Prop :=
  match new_elem op with Some e => is_free A e | None => True end.

#[export] Instance fits_dec A op : Decision (fits A op).
Proof. unfold fits. destruct (new_elem op); apply _. Defined.

Definition qspec (c : qcmd) (A : qstate) : option (answer * qstate) :=
  match c with
  | QInit h => if bool_decide (h ∈ qs_heads A) then Some (AUnit, set_list h [] A) else None
  | QOn h op =>
    l ← qs_lists A !! h;
    if bool_decide (fits A op)
    then '(a, l') ← op_spec op l; Some (a, set_list h l' A) else None
  | QConcat h1 h2 =>
    l1 ← qs_lists A !! h1; l2 ← qs_lists A !! h2;
    if bool_decide (h1 = h2) then None
    else Some (AUnit, set_list h2 [] (set_list h1 (l1 ++ l2) A))
  | QSwap h1 h2 =>
    l1 ← qs_lists A !! h1; l2 ← qs_lists A !! h2;
    if bool_decide (h1 = h2) then None
    else Some (AUnit, set_list h2 l1 (set_list h1 l2 A))
  end.

Fixpoint script_spec (cs : list qcmd) (A : qstate) : option (list answer * qstate) :=
  match cs with
  | [] => Some ([], A)
  | c :: cs => '(a, A) ← qspec c A; '(r, A) ← script_spec cs A; Some (a :: r, A)
  end.

(** ** What a family provides *)
Class Queue (S : Type) := {
  q_init : loc → M S ();
  q_op : qop → loc → option (M S answer);
  q_concat : option (loc → loc → M S ());
  q_swap : option (loc → loc → M S ());
  (** the head [h] holds the sequence [l] *)
  q_rep : S → loc → list loc → Prop;
  q_head_at : S → loc → Prop;
  q_elem_at : S → loc → Prop;
  (** the two states differ at most in the heads [hs] and the elements [xs] *)
  q_touch : list loc → list loc → S → S → Prop;
}.

Definition q_run `{Queue T} (c : qcmd) : option (M T answer) :=
  match c with
  | QInit h => Some (q_init h ;; mret AUnit)
  | QOn h op => q_op op h
  | QConcat h1 h2 => (λ f : loc → loc → M T (), f h1 h2 ;; mret AUnit) <$> q_concat
  | QSwap h1 h2 => (λ f : loc → loc → M T (), f h1 h2 ;; mret AUnit) <$> q_swap
  end.

(** A script, or [None] when the family lacks one of its operations. *)
Fixpoint q_script `{Queue T} (cs : list qcmd) : option (M T (list answer)) :=
  match cs with
  | [] => Some (mret [])
  | c :: cs =>
    m ← q_run c; k ← q_script cs;
    Some (a ← m; r ← k; mret (a :: r))
  end.

Class QueueLaws (S : Type) `{Queue S} := {
  q_rep_touch s s' hs xs h l :
    q_touch hs xs s s' → h ∉ hs → (∀ e, e ∈ l → e ∉ xs) → q_rep s h l → q_rep s' h l;
  q_touch_head s s' hs xs h : q_touch hs xs s s' → q_head_at s h → q_head_at s' h;
  q_touch_elem s s' hs xs e : q_touch hs xs s s' → q_elem_at s e → q_elem_at s' e;
  q_init_ok s h : q_head_at s h → wp (q_init h) (λ _ s', q_rep s' h [] ∧ q_touch [h] [] s s') s;
  q_op_ok s h l op m a l' :
    q_op op h = Some m → NoDup l → q_rep s h l → op_spec op l = Some (a, l') →
    (∀ e, new_elem op = Some e → e ∉ l ∧ q_elem_at s e) →
    wp m (λ b s', b = a ∧ q_rep s' h l' ∧ q_touch [h] (option_list (new_elem op) ++ l) s s') s;
  q_concat_ok s f h1 h2 l1 l2 :
    q_concat = Some f → h1 ≠ h2 → NoDup (l1 ++ l2) → q_rep s h1 l1 → q_rep s h2 l2 →
    wp (f h1 h2) (λ _ s', q_rep s' h1 (l1 ++ l2) ∧ q_rep s' h2 [] ∧
                          q_touch [h1; h2] (l1 ++ l2) s s') s;
  q_swap_ok s f h1 h2 l1 l2 :
    q_swap = Some f → h1 ≠ h2 → NoDup (l1 ++ l2) → q_rep s h1 l1 → q_rep s h2 l2 →
    wp (f h1 h2) (λ _ s', q_rep s' h1 l2 ∧ q_rep s' h2 l1 ∧
                          q_touch [h1; h2] (l1 ++ l2) s s') s;
}.

(** ** Sequences *)

Lemma split_at_app p l l1 l2 : split_at p l = Some (l1, l2) → l = l1 ++ p :: l2.
Proof.
  revert l1. induction l as [|x l IH]; intros l1 H; simpl in H; [done|].
  case_bool_decide; simplify_eq; [done|].
  destruct (split_at p l) as [[k1 k2]|]; simplify_eq/=. by rewrite (IH k1).
Qed.

(** A list without duplicates splits at an element in one way. *)
Lemma NoDup_split_eq (e : loc) l1 l2 k1 k2 :
  NoDup (l1 ++ e :: l2) → l1 ++ e :: l2 = k1 ++ e :: k2 → l1 = k1 ∧ l2 = k2.
Proof.
  revert k1. induction l1 as [|x l1 IH]; intros [|y k1] Hn E; simplify_eq/=; [done| | |].
  - apply NoDup_cons in Hn as [Hx _]. set_solver.
  - apply NoDup_cons in Hn as [Hx _]. set_solver.
  - apply NoDup_cons in Hn as [_ Hn]. by destruct (IH k1) as [-> ->].
Qed.

(** Rewrite the hypotheses on [split_at] and compute the result of [op_spec]. *)
Ltac split_op :=
  repeat (match goal with
    | H : context [split_at ?p ?l] |- _ =>
      let l1 := fresh "l1" in let l2 := fresh "l2" in let E := fresh "E" in
      destruct (split_at p l) as [[l1 l2]|] eqn:E; [apply split_at_app in E; subst l|]
    | H : (match ?l with [] => None | _ :: _ => _ end) = Some _ |- _ =>
      let x := fresh "x" in let k := fresh "k" in destruct l as [|x k]
    end; simplify_eq/=).

Lemma op_spec_incl op l a l' x :
  op_spec op l = Some (a, l') → x ∈ l' → x ∈ option_list (new_elem op) ++ l.
Proof.
  intros H. destruct op; simplify_eq/=; split_op; rewrite ?list_elem_of_filter; set_solver.
Qed.

Lemma op_spec_nodup op l a l' :
  op_spec op l = Some (a, l') → NoDup l → (∀ e, new_elem op = Some e → e ∉ l) → NoDup l'.
Proof.
  intros H Hl He.
  assert (NoDup (option_list (new_elem op) ++ l)) as Hn.
  { destruct (new_elem op); simpl; [apply NoDup_cons; auto|done]. }
  clear He. destruct op; simplify_eq/=; split_op; try done; try by apply NoDup_filter.
  - by rewrite Permutation_app_comm.
  - by rewrite <-!Permutation_middle, (Permutation_swap p e), Permutation_middle in *.
  - by rewrite <-!Permutation_middle in *.
  - by apply NoDup_cons in Hl as [??].
  - rewrite <-!Permutation_middle in *. apply NoDup_cons in Hl as [Hp Hl].
    apply NoDup_cons in Hl as [_ Hl]. apply NoDup_cons. set_solver.
  - rewrite <-Permutation_middle in Hl. by apply NoDup_cons in Hl as [??].
Qed.

(** ** Loops over a queue *)

Definition visit {T} (x : loc) (acc : list loc) : M T (list loc) := mret (acc ++ [x]).

(** A body that removes the elements that [keep] rejects. *)
Definition sweep {T} (remove : loc → M T ()) (keep : loc → bool) (x : loc) (acc : list loc)
  : M T (list loc) := when (negb (keep x)) (remove x) ;; mret (acc ++ [x]).

Section loops.
Context {T : Type} (step : loc → M T (option loc)).
(** [R l s]: the queue holds [l], in the order of the loop. *)
Context (R : list loc → T → Prop).
Context (step_ok : ∀ l1 x l2 s, R (l1 ++ x :: l2) s → wp (step x) (λ y s', y = head l2 ∧ s' = s) s).

Lemma visit_ok l fuel s :
  R l s → length l < fuel →
  wp (foreach_loop fuel step visit (head l) []) (λ acc s', acc = l ∧ s' = s) s.
Proof.
  intros HR. enough (∀ l2 l1 fuel, l = l1 ++ l2 → length l2 < fuel →
    wp (foreach_loop fuel step visit (head l2) l1) (λ acc s', acc = l ∧ s' = s) s) as H.
  { by apply (H l []). }
  induction l2 as [|x l2 IH]; intros l1 [|n] -> Hn; cbn [length] in Hn; try lia.
  - split; [by rewrite app_nil_r|done].
  - cbn [head foreach_loop]. apply wp_bind, wp_ret, wp_bind.
    eapply wp_mono; [by eapply step_ok|]. intros ? ? [-> ->].
    apply IH; [by rewrite <-app_assoc|lia].
Qed.

Lemma sweep_ok (E : T → T → Prop) `{!Reflexive E, !Transitive E} remove keep l fuel s :
  (∀ l1 x l2 s, (∀ y, y ∈ l1 ++ x :: l2 → y ∈ l) → NoDup (l1 ++ x :: l2) → R (l1 ++ x :: l2) s →
     wp (remove x) (λ _ s', R (l1 ++ l2) s' ∧ E s s') s) →
  NoDup l → R l s → length l < fuel →
  wp (foreach_safe_loop fuel step (sweep remove keep) (head l) [])
    (λ acc s', acc = l ∧ R (filter (λ x, keep x) l) s' ∧ E s s') s.
Proof.
  intros Hremove Hnd HR. set (ft := filter (λ x, keep x)).
  enough (∀ l2 l1 fuel s1, l = l1 ++ l2 → length l2 < fuel → R (ft l1 ++ l2) s1 → E s s1 →
    wp (foreach_safe_loop fuel step (sweep remove keep) (head l2) l1)
      (λ acc s', acc = l ∧ R (ft l) s' ∧ E s s') s1) as H.
  { intros Hf. by apply (H l [] fuel s). }
  induction l2 as [|x l2 IH]; intros l1 [|n] s1 Hl Hn HR1 HE; cbn [length] in Hn; try lia.
  - rewrite app_nil_r in Hl, HR1. by subst l1.
  - cbn [head foreach_safe_loop]. apply wp_bind.
    eapply wp_mono; [by eapply step_ok|]. intros ? ? [-> ->]. unfold sweep. apply wp_bind, wp_bind.
    assert (ft (l1 ++ [x]) = ft l1 ++ if keep x then [x] else []) as Hft.
    { unfold ft. rewrite filter_app. f_equal.
      destruct (keep x) eqn:Hk; cbn; case_decide as Hd; try done; by rewrite Hk in Hd. }
    assert (l = (l1 ++ [x]) ++ l2) as Hl' by (by rewrite <-app_assoc).
    apply wp_when; intros Hk; rewrite ?negb_true_iff, ?negb_false_iff in Hk; rewrite Hk in Hft.
    + eapply wp_mono; [eapply Hremove; [| |done]|].
      * intros y Hy. subst l. apply elem_of_app in Hy as [[_ ?]%list_elem_of_filter|?]; set_solver.
      * subst l. eapply (sublist_NoDup _ (l1 ++ x :: l2)); [done|].
        apply sublist_app; [apply sublist_filter|done].
      * intros [] s2 [HR2 HE2]. apply wp_ret. apply IH; [done|lia| |by etrans].
        by rewrite Hft, app_nil_r.
    + apply wp_ret. apply IH; [done|lia| |done]. rewrite Hft. by rewrite <-app_assoc.
Qed.
End loops.

(** ** Many heads *)

(** The queues share no element, and stand on heads and elements that exist. *)
Record qs_wf (A : qstate) : Prop := {
  wf_nodup h l : qs_lists A !! h = Some l → NoDup l;
  wf_apart h1 h2 l1 l2 e :
    qs_lists A !! h1 = Some l1 → qs_lists A !! h2 = Some l2 → h1 ≠ h2 → e ∈ l1 → e ∉ l2;
}.

Lemma set_list_wf A h l :
  qs_wf A → NoDup l → (∀ h' l' e, h' ≠ h → qs_lists A !! h' = Some l' → e ∈ l → e ∉ l') →
  qs_wf (set_list h l A).
Proof.
  intros HA Hl Hap. split; simpl.
  - intros h' l' [[<- <-]|[Hne Hh]]%lookup_insert_Some; [done|by eapply wf_nodup].
  - intros h1 h2 l1 l2 e [[<- <-]|[Hn1 H1]]%lookup_insert_Some
      [[<- <-]|[Hn2 H2]]%lookup_insert_Some Hne He1; [done| | |].
    + by eapply Hap.
    + intros He2. by eapply (Hap h1 l1 e).
    + by eapply (wf_apart _ HA h1 h2).
Qed.

Section scripts.
Context `{QueueLaws T}.

(** The state [s] holds the queues of [A]. *)
Record q_holds (s : T) (A : qstate) : Prop := {
  holds_wf : qs_wf A;
  holds_heads h : h ∈ qs_heads A → q_head_at s h;
  holds_elems e : e ∈ qs_elems A → q_elem_at s e;
  holds_lists h l : qs_lists A !! h = Some l → q_rep s h l;
}.

(** One head changes. *)
Lemma holds_set s s' A h l xs :
  q_holds s A → qs_wf (set_list h l A) → q_rep s' h l → q_touch [h] xs s s' →
  (∀ h' l' e, h' ≠ h → qs_lists A !! h' = Some l' → e ∈ l' → e ∉ xs) →
  q_holds s' (set_list h l A).
Proof.
  intros HA Hwf Hrep Ht Hap. split; simpl; [done| | |].
  - intros h' ?. eapply q_touch_head; [done|]. by eapply holds_heads.
  - intros e ?. eapply q_touch_elem; [done|]. by eapply holds_elems.
  - intros h' l' [[<- <-]|[Hne Hh]]%lookup_insert_Some; [done|].
    eapply q_rep_touch; [done| | |by eapply holds_lists].
    + set_solver.
    + intros e He. by eapply Hap.
Qed.

(** Two heads exchange elements. *)
Lemma holds_set2 s s' A h1 h2 l1 l2 k1 k2 :
  q_holds s A → h1 ≠ h2 → qs_lists A !! h1 = Some l1 → qs_lists A !! h2 = Some l2 →
  k1 ++ k2 ≡ₚ l1 ++ l2 → q_rep s' h1 k1 → q_rep s' h2 k2 → q_touch [h1; h2] (l1 ++ l2) s s' →
  q_holds s' (set_list h2 k2 (set_list h1 k1 A)).
Proof.
  intros HA Hne H1 H2 Hp R1 R2 Ht.
  assert (∀ h' l' e, h' ≠ h1 → h' ≠ h2 → qs_lists A !! h' = Some l' → e ∈ l' → e ∉ l1 ++ l2) as Hap.
  { intros h' l' e N1 N2 Hl He Hin. pose proof (wf_apart _ (holds_wf _ _ HA)) as Hw.
    apply elem_of_app in Hin as [Hi|Hi]; [by eapply (Hw h' h1)|by eapply (Hw h' h2)]. }
  assert (NoDup (k1 ++ k2)) as (Hk1 & Hk12 & Hk2)%NoDup_app.
  { rewrite Hp. pose proof (holds_wf _ _ HA) as Hw. apply NoDup_app.
    split; [by eapply wf_nodup|]. split; [|by eapply wf_nodup]. intros x Hx. by eapply (wf_apart _ Hw h1 h2). }
  assert (∀ x, x ∈ k1 ++ k2 → x ∈ l1 ++ l2) as Hin by (intros x; by rewrite Hp).
  split; simpl.
  - split; simpl.
    + intros h l [[<- <-]|[? [[<- <-]|[? Hl]]%lookup_insert_Some]]%lookup_insert_Some; [done|done|].
      eapply wf_nodup; [by eapply holds_wf|done].
    + intros g1 g2 m1 m2 e
        [[<- <-]|[? [[<- <-]|[? G1]]%lookup_insert_Some]]%lookup_insert_Some
        [[<- <-]|[? [[<- <-]|[? G2]]%lookup_insert_Some]]%lookup_insert_Some Hg He He';
        try done.
      * by eapply Hk12.
      * eapply (Hap g2 m2 e); try done. apply Hin. set_solver.
      * by eapply Hk12.
      * eapply (Hap g2 m2 e); try done. apply Hin. set_solver.
      * eapply (Hap g1 m1 e); try done. apply Hin. set_solver.
      * eapply (Hap g1 m1 e); try done. apply Hin. set_solver.
      * by eapply (wf_apart _ (holds_wf _ _ HA) g1 g2).
  - intros h' ?. eapply q_touch_head; [done|]. by eapply holds_heads.
  - intros e ?. eapply q_touch_elem; [done|]. by eapply holds_elems.
  - intros h' l' [[<- <-]|[? [[<- <-]|[? Hl]]%lookup_insert_Some]]%lookup_insert_Some; [done|done|].
    eapply q_rep_touch; [done| | |by eapply holds_lists].
    + set_solver.
    + intros e He. by eapply (Hap h').
Qed.

Lemma on_ok s A h op m a A' :
  q_holds s A → q_op op h = Some m → qspec (QOn h op) A = Some (a, A') →
  wp m (λ b s', b = a ∧ q_holds s' A') s.
Proof.
  intros HA Hm Hs. simpl in Hs. destruct (qs_lists A !! h) as [l|] eqn:Hl; simplify_eq/=.
  case_bool_decide as Hfit; [|done].
  destruct (op_spec op l) as [[b l']|] eqn:Hop; simplify_eq/=.
  assert (∀ e, new_elem op = Some e → e ∉ l ∧ q_elem_at s e ∧
            ∀ h' k, qs_lists A !! h' = Some k → e ∉ k) as Hnew.
  { intros e He. unfold fits in Hfit. rewrite He in Hfit. destruct Hfit as [Hin Hmap].
    split; [by eapply Hmap|]. split; [by eapply holds_elems|]. intros h' k Hk. by eapply Hmap. }
  assert (∀ h' k e, h' ≠ h → qs_lists A !! h' = Some k → e ∈ k →
            e ∉ option_list (new_elem op) ++ l) as Hap.
  { intros h' k e Hne Hk He [Hi|Hi]%elem_of_app.
    - destruct (new_elem op) as [e'|]; [|set_solver]. apply list_elem_of_singleton in Hi as ->.
      by eapply (Hnew e').
    - by eapply (wf_apart _ (holds_wf _ _ HA) h' h). }
  eapply wp_mono.
  { eapply q_op_ok; [done|by eapply wf_nodup, Hl; eapply holds_wf|by eapply holds_lists|done|].
    intros e He. destruct (Hnew e He) as (?&?&?). done. }
  intros b' s' (-> & Hrep & Ht). split; [done|].
  eapply holds_set; [done| |done|done|done].
  apply set_list_wf; [by eapply holds_wf| |].
  - eapply op_spec_nodup; [done|by eapply wf_nodup, Hl; eapply holds_wf|]. intros e He. by eapply Hnew.
  - intros h' k e Hne Hk He He'. eapply (Hap h' k e); [done..|]. by eapply op_spec_incl.
Qed.

Lemma run_ok s A c m a A' :
  q_holds s A → q_run c = Some m → qspec c A = Some (a, A') →
  wp m (λ b s', b = a ∧ q_holds s' A') s.
Proof.
  intros HA Hm Hs. destruct c as [h|h op|h1 h2|h1 h2]; simpl in Hm.
  - simpl in Hs. case_bool_decide as Hh; simplify_eq. apply wp_bind.
    eapply wp_mono; [by eapply q_init_ok, holds_heads|]. intros [] s' [Hrep Ht].
    split; [done|]. eapply holds_set; [done| |done|done|set_solver].
    apply set_list_wf; [by eapply holds_wf|constructor|set_solver].
  - by eapply on_ok.
  - destruct q_concat as [f|] eqn:Hf; simplify_eq/=.
    destruct (qs_lists A !! h1) as [l1|] eqn:H1; simplify_eq/=.
    destruct (qs_lists A !! h2) as [l2|] eqn:H2; simplify_eq/=. case_bool_decide; simplify_eq.
    apply wp_bind. eapply wp_mono; [eapply q_concat_ok; try done; [|by eapply holds_lists..]|].
    + apply NoDup_app. pose proof (holds_wf _ _ HA) as Hw. split; [by eapply wf_nodup|].
      split; [|by eapply wf_nodup]. intros x. by eapply (wf_apart _ Hw h1 h2).
    + intros [] s' (R1 & R2 & Ht). split; [done|].
      eapply holds_set2; try done. by rewrite app_nil_r.
  - destruct q_swap as [f|] eqn:Hf; simplify_eq/=.
    destruct (qs_lists A !! h1) as [l1|] eqn:H1; simplify_eq/=.
    destruct (qs_lists A !! h2) as [l2|] eqn:H2; simplify_eq/=. case_bool_decide; simplify_eq.
    apply wp_bind. eapply wp_mono; [eapply q_swap_ok; try done; [|by eapply holds_lists..]|].
    + apply NoDup_app. pose proof (holds_wf _ _ HA) as Hw. split; [by eapply wf_nodup|].
      split; [|by eapply wf_nodup]. intros x. by eapply (wf_apart _ Hw h1 h2).
    + intros [] s' (R1 & R2 & Ht). split; [done|].
      eapply holds_set2; try done. apply Permutation_app_comm.
Qed.

(** Every script that respects the contract runs, gives the answers of the
    sequences, and leaves what they say. *)
Lemma script_ok cs : ∀ s A m r A',
  q_holds s A → q_script cs = Some m → script_spec cs A = Some (r, A') →
  ∃ s', m s = Ok r s' ∧ q_holds s' A'.
Proof.
  intros s A m r A' HA Hm Hs. enough (wp m (λ b s', b = r ∧ q_holds s' A') s) as Hw.
  { apply wp_ok in Hw as (? & s' & ? & -> & ?). eauto. }
  revert s A m r HA Hm Hs. induction cs as [|c cs IH]; intros s A m r HA Hm Hs; simplify_eq/=; [done|].
  destruct (q_run c) as [m1|] eqn:H1; simplify_eq/=.
  destruct (q_script cs) as [m2|]; simplify_eq/=.
  destruct (qspec c A) as [[a A1]|] eqn:Hc; simplify_eq/=.
  destruct (script_spec cs A1) as [[r1 A2]|] eqn:Hcs; simplify_eq/=.
  apply wp_bind. eapply wp_mono; [by eapply run_ok|]. intros ? s1 [-> HA1].
  apply wp_bind. eapply wp_mono; [by eapply IH|]. intros ? s2 [-> HA2]. done.
Qed.
End scripts.
