(* ===== verification/Words.v ===== *)
(** * The words of the singly-linked queues and of LIST

    SLIST, STAILQ and LIST share the shape of their links: a head's first field
    and the next field of an entry are words that hold a pointer to an element.
    [qmem] holds those words by their address, the [stqh_last] word of the heads
    and the [le_prev] word of the entries.  [chain] is a list laid out in them;
    an insertion or a removal is one or two writes, and two lemmas say what they
    do to a chain. *)
From stdpp Require Import base tactics list gmap.
From Stdlib Require Import Lia.
From S2P Require Import Prelude Tailq Queues.

#[export] Instance naddr_countable : Countable naddr.
Proof.
  apply (inj_countable'
    (λ a, match a with HeadFirst h => inl h | EntryNext e => inr e end)
    (λ x, match x with inl h => HeadFirst h | inr e => EntryNext e end)).
  by intros [].
Defined.

Record qmem := QMem {
  m_next : gmap naddr (option loc);  (** [slh_first], [sle_next] and the like *)
  m_last : gmap loc naddr;           (** [stqh_last], by head *)
  m_prev : gmap loc naddr;           (** [le_prev], by entry *)
}.

Definition word_at (a : naddr) : M qmem (option loc) := o ← get (λ s, m_next s !! a); deref o.
Definition last_at (h : loc) : M qmem naddr := o ← get (λ s, m_last s !! h); deref o.
Definition prev_at (e : loc) : M qmem naddr := o ← get (λ s, m_prev s !! e); deref o.

Definition put_word (a : naddr) (x : option loc) : M qmem () :=
  _ ← word_at a; modify (λ s, QMem (<[a := x]> (m_next s)) (m_last s) (m_prev s)).
Definition put_last (h : loc) (a : naddr) : M qmem () :=
  _ ← last_at h; modify (λ s, QMem (m_next s) (<[h := a]> (m_last s)) (m_prev s)).
Definition put_prev (e : loc) (a : naddr) : M qmem () :=
  _ ← prev_at e; modify (λ s, QMem (m_next s) (m_last s) (<[e := a]> (m_prev s))).

(** [x->field.next] of a pointer that may be NULL. *)
Definition next_of (x : option loc) : M qmem (option loc) := e ← deref x; word_at (EntryNext e).

(** Turns of a loop over a queue: its words are more than its elements. *)
Definition q_fuel : M qmem nat := get (λ s, S (size (m_next s))).

(** [while (NEXT(curelm) != elm) curelm = NEXT(curelm);] *)
Fixpoint seek_loop (fuel : nat) (curelm : option loc) (elm : loc) : M qmem loc :=
  match fuel with
  | O => diverge
  | S fuel =>
    c ← deref curelm;
    x ← word_at (EntryNext c);
    if bool_decide (x = Some elm) then mret c
    else y ← word_at (EntryNext c); seek_loop fuel y elm
  end.

(** ** Chains *)

(** The list [l], entered at [a] and followed by [n]. *)
Fixpoint chain (m : gmap naddr (option loc)) (a : naddr) (l : list loc) (n : option loc) : Prop :=
  m !! a = Some (head_or l n) ∧
  match l with [] => True | e :: l => chain m (EntryNext e) l n end.

(** The previous words of the elements of [l]. *)
Fixpoint back (p : gmap loc naddr) (a : naddr) (l : list loc) : Prop :=
  match l with [] => True | e :: l => p !! e = Some a ∧ back p (EntryNext e) l end.

Definition head_lasts (h : loc) (l : list loc) : naddr := last_addr (HeadFirst h) l.

(** The words that belong to the heads [hs] and the elements [xs]. *)
Definition in_addr (hs xs : list loc) (a : naddr) : Prop :=
  match a with HeadFirst h => h ∈ hs | EntryNext e => e ∈ xs end.

Record w_touch (hs xs : list loc) (s s' : qmem) : Prop := {
  t_next a : ¬ in_addr hs xs a → m_next s' !! a = m_next s !! a;
  t_last h : h ∉ hs → m_last s' !! h = m_last s !! h;
  t_prev e : e ∉ xs → m_prev s' !! e = m_prev s !! e;
  t_dom_next a : is_Some (m_next s !! a) → is_Some (m_next s' !! a);
  t_dom_last h : is_Some (m_last s !! h) → is_Some (m_last s' !! h);
  t_dom_prev e : is_Some (m_prev s !! e) → is_Some (m_prev s' !! e);
}.

Lemma chain_at m a l n : chain m a l n → m !! a = Some (head_or l n).
Proof. by destruct l as [|? ?]; intros [? ?]. Qed.

Lemma chain_app m a l1 l2 n :
  chain m a (l1 ++ l2) n ↔ chain m a l1 (head_or l2 n) ∧ chain m (last_addr a l1) l2 n.
Proof.
  revert a. induction l1 as [|e l1 IH]; intros a.
  - rewrite app_nil_l. unfold last_addr. simpl.
    split; [intros H|by intros [_ H]]. split; [split; [by apply chain_at|done]|done].
  - rewrite last_addr_cons. simpl. rewrite IH. tauto.
Qed.

Lemma chain_next m a l1 l2 n :
  chain m a (l1 ++ l2) n → m !! last_addr a l1 = Some (head_or l2 n).
Proof. rewrite chain_app. intros [_ H]. by apply chain_at. Qed.

Lemma chain_elem m a l1 e l2 n :
  chain m a (l1 ++ e :: l2) n → m !! EntryNext e = Some (head_or l2 n).
Proof. intros [_ [_ H]]%chain_app. by apply chain_at. Qed.

Lemma last_addr_in h l : in_addr [h] l (last_addr (HeadFirst h) l).
Proof.
  destruct l as [|z l _] using rev_ind; [by left|].
  rewrite last_addr_app. simpl. apply elem_of_app. right. by left.
Qed.

(** The same elements reached through another word. *)
Lemma chain_move m m' a a' l n :
  m' !! a' = Some (head_or l n) → (∀ e, e ∈ l → m' !! EntryNext e = m !! EntryNext e) →
  chain m a l n → chain m' a' l n.
Proof.
  revert a a'. induction l as [|e l IH]; intros a a' Ha Hl; simpl; [done|].
  intros [_ Hc]. split; [done|]. apply (IH (EntryNext e)); [| |done].
  - rewrite Hl by (by left). by apply chain_at.
  - intros. apply Hl. by right.
Qed.

Lemma chain_ext m m' a l n :
  m' !! a = m !! a → (∀ e, e ∈ l → m' !! EntryNext e = m !! EntryNext e) →
  chain m a l n → chain m' a l n.
Proof. intros Ha Hl Hc. eapply chain_move; [|done|done]. rewrite Ha. by apply chain_at. Qed.

Lemma back_ext p p' a l : (∀ e, e ∈ l → p' !! e = p !! e) → back p a l → back p' a l.
Proof.
  revert a. induction l as [|e l IH]; intros a Hl; simpl; [done|].
  intros [? ?]. split; [by rewrite Hl by left|]. apply IH; [|done]. intros. apply Hl. by right.
Qed.

Lemma back_app p a l1 l2 : back p a (l1 ++ l2) ↔ back p a l1 ∧ back p (last_addr a l1) l2.
Proof.
  revert a. induction l1 as [|e l1 IH]; intros a; simpl; [tauto|].
  rewrite last_addr_cons, IH. tauto.
Qed.

(** Writing the last word of a chain redirects it. *)
Lemma chain_redirect m h l n x :
  NoDup l → chain m (HeadFirst h) l n → chain (<[last_addr (HeadFirst h) l := x]> m) (HeadFirst h) l x.
Proof.
  intros Hl Hc. destruct l as [|z l _] using rev_ind.
  - simpl. by rewrite lookup_insert_eq.
  - rewrite last_addr_app. simpl. apply chain_app in Hc as [Hc Hz]. simpl in Hz.
    apply NoDup_app in Hl as (_ & Hz' & _).
    apply chain_app. simpl. split.
    + eapply chain_ext; [by rewrite lookup_insert_ne| |exact Hc].
      intros e He. rewrite lookup_insert_ne; [done|]. intros [= ->]. apply (Hz' e); [done|by left].
    + rewrite lookup_insert_ne.
      2: { intros E. pose proof (last_addr_in h l) as Hi. rewrite <-E in Hi.
           apply (Hz' z); [exact Hi|by left]. }
      rewrite lookup_insert_eq. split; [by apply Hz|done].
Qed.

(** The two writes of an insertion after [l1]. *)
Lemma chain_insert m h l1 e l2 :
  NoDup (l1 ++ l2) → e ∉ l1 ++ l2 → chain m (HeadFirst h) (l1 ++ l2) None →
  chain (<[last_addr (HeadFirst h) l1 := Some e]> (<[EntryNext e := head_or l2 None]> m))
    (HeadFirst h) (l1 ++ e :: l2) None.
Proof.
  intros (Hn1 & Hn12 & _)%NoDup_app He Hc. apply chain_app in Hc as [H1 H2].
  pose proof (last_addr_in h l1) as Hlast.
  assert (∀ x, x ∉ l1 → last_addr (HeadFirst h) l1 ≠ EntryNext x) as Hne.
  { intros x Hx E. rewrite E in Hlast. done. }
  apply chain_app. split.
  - eapply chain_redirect; [done|]. eapply chain_ext, H1; [by rewrite lookup_insert_ne|].
    intros x Hx. rewrite lookup_insert_ne; [done|]. intros [= ->]. set_solver.
  - simpl. rewrite lookup_insert_eq. split; [done|]. eapply chain_move, H2.
    + rewrite lookup_insert_ne by (apply Hne; set_solver). by rewrite lookup_insert_eq.
    + intros x Hx. rewrite lookup_insert_ne by (apply Hne; intros ?; by apply (Hn12 x)).
      rewrite lookup_insert_ne; [done|]. intros [= ->]. set_solver.
Qed.

(** The write of a removal after [l1]. *)
Lemma chain_remove m h l1 e l2 :
  NoDup (l1 ++ e :: l2) → chain m (HeadFirst h) (l1 ++ e :: l2) None →
  chain (<[last_addr (HeadFirst h) l1 := head_or l2 None]> m) (HeadFirst h) (l1 ++ l2) None.
Proof.
  intros (Hn1 & Hn12 & _)%NoDup_app Hc. apply chain_app in Hc as [H1 H2].
  apply chain_app. split; [by eapply chain_redirect|]. simpl in H2. destruct H2 as [_ H2].
  eapply chain_move, H2; [by rewrite lookup_insert_eq|].
  intros x Hx. rewrite lookup_insert_ne; [done|]. intros E.
  pose proof (last_addr_in h l1) as Hlast. rewrite E in Hlast. apply (Hn12 x); [done|by right].
Qed.

(** The two chains of a concatenation: the first goes on, the second is empty. *)
Lemma chain_concat m h1 h2 l1 l2 :
  h1 ≠ h2 → NoDup (l1 ++ l2) → chain m (HeadFirst h1) l1 None → chain m (HeadFirst h2) l2 None →
  chain (<[HeadFirst h2 := None]> (<[last_addr (HeadFirst h1) l1 := head_or l2 None]> m))
    (HeadFirst h1) (l1 ++ l2) None.
Proof.
  intros Hne (Hn1 & Hn12 & _)%NoDup_app C1 C2.
  pose proof (last_addr_in h1 l1) as Hlast.
  assert (last_addr (HeadFirst h1) l1 ≠ HeadFirst h2) as Hb.
  { intros E. rewrite E in Hlast. simpl in Hlast. set_solver. }
  apply chain_app. split.
  - eapply chain_ext; [by rewrite lookup_insert_ne by congruence|by intros; rewrite lookup_insert_ne|].
    by eapply chain_redirect.
  - eapply chain_move; [rewrite lookup_insert_ne by done; apply lookup_insert_eq| |exact C2].
    intros e He. rewrite lookup_insert_ne by done. rewrite lookup_insert_ne; [done|].
    intros E. rewrite E in Hlast. by apply (Hn12 e).
Qed.

(** ** What a write may touch *)

#[export] Instance w_touch_refl hs xs : Reflexive (w_touch hs xs).
Proof. by split. Qed.

#[export] Instance w_touch_trans hs xs : Transitive (w_touch hs xs).
Proof.
  intros s1 s2 s3 T1 T2. split; intros.
  - by rewrite (t_next _ _ _ _ T2), (t_next _ _ _ _ T1).
  - by rewrite (t_last _ _ _ _ T2), (t_last _ _ _ _ T1).
  - by rewrite (t_prev _ _ _ _ T2), (t_prev _ _ _ _ T1).
  - by eapply t_dom_next, t_dom_next.
  - by eapply t_dom_last, t_dom_last.
  - by eapply t_dom_prev, t_dom_prev.
Qed.

Lemma w_touch_mono hs xs ys s s' :
  (∀ e, e ∈ xs → e ∈ ys) → w_touch hs xs s s' → w_touch hs ys s s'.
Proof.
  intros Hsub T. split; try by apply T.
  - intros a Ha. apply (t_next _ _ _ _ T). intros Hin. apply Ha. destruct a; simpl in *; auto.
  - intros e He. apply (t_prev _ _ _ _ T). auto.
Qed.

Lemma chain_touch hs xs s s' h l :
  w_touch hs xs s s' → h ∉ hs → (∀ e, e ∈ l → e ∉ xs) →
  chain (m_next s) (HeadFirst h) l None → chain (m_next s') (HeadFirst h) l None.
Proof.
  intros T Hh Hl. apply chain_ext; [by apply (t_next _ _ _ _ T)|].
  intros e He. apply (t_next _ _ _ _ T). by apply Hl.
Qed.

(** ** Reads and writes *)
Section access.
Context (s : qmem).

Lemma word_at_ok a x Q : m_next s !! a = Some x → Q x s → wp (word_at a) Q s.
Proof. intros Ha HQ. unfold word_at. apply wp_bind, wp_get. by rewrite Ha. Qed.

Lemma last_at_ok h a Q : m_last s !! h = Some a → Q a s → wp (last_at h) Q s.
Proof. intros Ha HQ. unfold last_at. apply wp_bind, wp_get. by rewrite Ha. Qed.

Lemma prev_at_ok e a Q : m_prev s !! e = Some a → Q a s → wp (prev_at e) Q s.
Proof. intros Ha HQ. unfold prev_at. apply wp_bind, wp_get. by rewrite Ha. Qed.

Lemma put_word_ok a x Q :
  is_Some (m_next s !! a) → Q () (QMem (<[a := x]> (m_next s)) (m_last s) (m_prev s)) →
  wp (put_word a x) Q s.
Proof. intros [y Hy] HQ. unfold put_word. apply wp_bind. by eapply word_at_ok. Qed.

Lemma put_last_ok h a Q :
  is_Some (m_last s !! h) → Q () (QMem (m_next s) (<[h := a]> (m_last s)) (m_prev s)) →
  wp (put_last h a) Q s.
Proof. intros [y Hy] HQ. unfold put_last. apply wp_bind. by eapply last_at_ok. Qed.

Lemma put_prev_ok e a Q :
  is_Some (m_prev s !! e) → Q () (QMem (m_next s) (m_last s) (<[e := a]> (m_prev s))) →
  wp (put_prev e a) Q s.
Proof. intros [y Hy] HQ. unfold put_prev. apply wp_bind. by eapply prev_at_ok. Qed.

Lemma touch_word hs xs a x : in_addr hs xs a →
  w_touch hs xs s (QMem (<[a := x]> (m_next s)) (m_last s) (m_prev s)).
Proof.
  intros Ha. split; simpl; try done.
  - intros b Hb. rewrite lookup_insert_ne; [done|]. by intros ->.
  - intros b Hb. by apply lookup_insert_is_Some'; right.
Qed.

Lemma touch_last hs xs h a : h ∈ hs →
  w_touch hs xs s (QMem (m_next s) (<[h := a]> (m_last s)) (m_prev s)).
Proof.
  intros Ha. split; simpl; try done.
  - intros b Hb. rewrite lookup_insert_ne; [done|]. by intros ->.
  - intros b Hb. by apply lookup_insert_is_Some'; right.
Qed.

Lemma touch_prev hs xs e a : e ∈ xs →
  w_touch hs xs s (QMem (m_next s) (m_last s) (<[e := a]> (m_prev s))).
Proof.
  intros Ha. split; simpl; try done.
  - intros b Hb. rewrite lookup_insert_ne; [done|]. by intros ->.
  - intros b Hb. by apply lookup_insert_is_Some'; right.
Qed.
End access.

(** A chain of distinct elements is shorter than the memory it lies in. *)
Lemma chain_length m h l n : NoDup l → chain m (HeadFirst h) l n → length l < S (size m).
Proof.
  intros Hl Hc. enough (length l ≤ size m) by lia.
  rewrite <-(length_fmap EntryNext l), <-size_dom.
  rewrite <-(size_list_to_set (C := gset naddr)) by (apply NoDup_fmap_2; [by intros ?? [=]|done]).
  apply subseteq_size. intros ? (e & -> & He)%elem_of_list_to_set%list_elem_of_fmap.
  apply list_elem_of_split in He as (l1 & l2 & ->).
  apply chain_app in Hc as [_ Hc]. simpl in Hc. destruct Hc as [_ Hc%chain_at].
  apply elem_of_dom. eauto.
Qed.

(** ** The two moves of the macros without a previous pointer *)

(** [NEXT(e) = *b; *b = e] *)
Definition link (b : naddr) (e : loc) : M qmem () :=
  x ← word_at b; put_word (EntryNext e) x ;; put_word b (Some e).

(** [*b = NEXT( *b)] *)
Definition unlink (b : naddr) : M qmem () := x ← word_at b; y ← next_of x; put_word b y.

Section moves.
Context (s : qmem) (h : loc) (l1 l2 : list loc) (e : loc).
Let b := last_addr (HeadFirst h) l1.

Lemma link_ok :
  NoDup (l1 ++ l2) → e ∉ l1 ++ l2 → chain (m_next s) (HeadFirst h) (l1 ++ l2) None →
  is_Some (m_next s !! EntryNext e) →
  wp (link b e) (λ _ s', chain (m_next s') (HeadFirst h) (l1 ++ e :: l2) None ∧
    m_last s' = m_last s ∧ m_prev s' = m_prev s ∧ w_touch [h] (e :: l1 ++ l2) s s') s.
Proof.
  intros Hnd He Hc Hs. unfold link. apply wp_bind. eapply word_at_ok; [by eapply chain_next|].
  apply wp_bind, put_word_ok; [done|]. apply put_word_ok; simpl.
  { apply lookup_insert_is_Some'. right. unfold b. rewrite (chain_next _ _ _ _ _ Hc). eauto. }
  split; [by apply chain_insert|]. split; [done|]. split; [done|].
  etrans; [apply (touch_word s _ _ (EntryNext e)); by left|].
  eapply (touch_word (QMem _ _ _)). pose proof (last_addr_in h l1) as Hl.
  fold b in Hl. destruct b; simpl in *; [done|]. set_solver.
Qed.

Lemma unlink_ok :
  NoDup (l1 ++ e :: l2) → chain (m_next s) (HeadFirst h) (l1 ++ e :: l2) None →
  wp (unlink b) (λ _ s', chain (m_next s') (HeadFirst h) (l1 ++ l2) None ∧
    m_last s' = m_last s ∧ m_prev s' = m_prev s ∧ w_touch [h] (l1 ++ e :: l2) s s') s.
Proof.
  intros Hnd Hc. unfold unlink. apply wp_bind. eapply word_at_ok; [by eapply chain_next|].
  apply wp_bind. unfold next_of. apply wp_bind. eapply wp_deref; [done|].
  eapply word_at_ok.
  { by eapply chain_elem. }
  apply put_word_ok; [unfold b; rewrite (chain_next _ _ _ _ _ Hc); eauto|].
  split; [by eapply chain_remove|]. split; [done|]. split; [done|].
  apply touch_word. pose proof (last_addr_in h l1) as Hl.
  fold b in Hl |- *. destruct b; simpl in *; [done|]. set_solver.
Qed.
End moves.

(** The search for the element before [e]. *)
Lemma seek_ok s h l2 : ∀ l1 c e fuel,
  NoDup (l1 ++ c :: l2) → e ∈ l2 → length l2 < fuel →
  chain (m_next s) (HeadFirst h) (l1 ++ c :: l2) None →
  wp (seek_loop fuel (Some c) e)
    (λ d s', s' = s ∧ ∃ k1 k2, l1 ++ c :: l2 = k1 ++ d :: e :: k2) s.
Proof.
  induction l2 as [|x l2 IH]; intros l1 c e fuel Hnd He Hf Hc; [set_solver|].
  cbn [length] in Hf. destruct fuel as [|fuel]; [lia|]. cbn [seek_loop].
  assert (m_next s !! EntryNext c = Some (Some x)) as Hx.
  { by apply chain_elem in Hc. }
  apply wp_bind. eapply wp_deref; [done|]. apply wp_bind. eapply word_at_ok; [done|].
  case_bool_decide as Hxe; simplify_eq.
  - apply wp_ret. split; [done|]. by exists l1, l2.
  - apply wp_bind. eapply word_at_ok; [done|].
    change (c :: x :: l2) with ([c] ++ x :: l2) in Hnd, Hc |- *. rewrite app_assoc in Hnd, Hc |- *.
    apply IH; [done| |lia|done]. set_solver.
Qed.

(** ** Memory as it is before any INIT: heads [hs], elements [es], no queue *)

Definition raw_mem (hs es : list loc) : qmem :=
  QMem (gset_to_gmap (Some 1%positive) (list_to_set ((HeadFirst <$> hs) ++ (EntryNext <$> es))))
    (gset_to_gmap (HeadFirst 1) (list_to_set hs)) (gset_to_gmap (HeadFirst 1) (list_to_set es)).

Definition raw_state (hs es : list loc) : qstate :=
  QState (list_to_set hs) (list_to_set es) ∅.

Section raw.
Context (hs es : list loc).

Lemma raw_wf : qs_wf (raw_state hs es).
Proof. by split. Qed.

Lemma raw_head h : h ∈ qs_heads (raw_state hs es) → is_Some (m_next (raw_mem hs es) !! HeadFirst h).
Proof.
  simpl. intros Hh%elem_of_list_to_set. exists (Some 1%positive).
  apply lookup_gset_to_gmap_Some. split; [|done].
  apply elem_of_list_to_set, elem_of_app. left. apply list_elem_of_fmap. eauto.
Qed.

Lemma raw_elem e : e ∈ qs_elems (raw_state hs es) → is_Some (m_next (raw_mem hs es) !! EntryNext e).
Proof.
  simpl. intros Hh%elem_of_list_to_set. exists (Some 1%positive).
  apply lookup_gset_to_gmap_Some. split; [|done].
  apply elem_of_list_to_set, elem_of_app. right. apply list_elem_of_fmap. eauto.
Qed.

Lemma raw_last h : h ∈ qs_heads (raw_state hs es) → is_Some (m_last (raw_mem hs es) !! h).
Proof.
  simpl. intros Hh. exists (HeadFirst 1). by apply lookup_gset_to_gmap_Some.
Qed.

Lemma raw_prev e : e ∈ qs_elems (raw_state hs es) → is_Some (m_prev (raw_mem hs es) !! e).
Proof.
  simpl. intros Hh. exists (HeadFirst 1). by apply lookup_gset_to_gmap_Some.
Qed.
End raw.
