(* ===== verification/Slist.v ===== *)
(** * SLIST of [src/util/queue.h]: singly-linked lists

    A head is its [slh_first] word, an entry its [sle_next] word. *)
From stdpp Require Import base tactics list gmap.
From Stdlib Require Import Lia.
From S2P Require Import Prelude Tailq Queues Words.

Definition SLIST_FIRST (h : loc) : M qmem (option loc) := word_at (HeadFirst h).
Definition SLIST_NEXT (e : loc) : M qmem (option loc) := word_at (EntryNext e).
Definition SLIST_EMPTY (h : loc) : M qmem bool := x ← SLIST_FIRST h; mret (bool_decide (x = None)).
Definition SLIST_INIT (h : loc) : M qmem () := put_word (HeadFirst h) None.

Definition SLIST_INSERT_AFTER (slistelm elm : loc) : M qmem () :=
  x ← SLIST_NEXT slistelm; put_word (EntryNext elm) x ;; put_word (EntryNext slistelm) (Some elm).

Definition SLIST_INSERT_HEAD (h elm : loc) : M qmem () :=
  x ← SLIST_FIRST h; put_word (EntryNext elm) x ;; put_word (HeadFirst h) (Some elm).

Definition SLIST_REMOVE_AFTER (elm : loc) : M qmem () :=
  x ← SLIST_NEXT elm; y ← next_of x; put_word (EntryNext elm) y.

Definition SLIST_REMOVE_HEAD (h : loc) : M qmem () :=
  x ← SLIST_FIRST h; y ← next_of x; put_word (HeadFirst h) y.

Definition SLIST_REMOVE (h elm : loc) : M qmem () :=
  x ← SLIST_FIRST h;
  if bool_decide (x = Some elm) then SLIST_REMOVE_HEAD h
  else
    curelm ← SLIST_FIRST h;
    fuel ← q_fuel;
    curelm ← seek_loop fuel curelm elm;
    SLIST_REMOVE_AFTER curelm.

Definition SLIST_FOREACH {A} (h : loc) (body : loc → A → M qmem A) (acc : A) : M qmem A :=
  fuel ← q_fuel; x ← SLIST_FIRST h; foreach_loop fuel SLIST_NEXT body x acc.

Definition SLIST_FOREACH_SAFE {A} (h : loc) (body : loc → A → M qmem A) (acc : A) : M qmem A :=
  fuel ← q_fuel; x ← SLIST_FIRST h; foreach_safe_loop fuel SLIST_NEXT body x acc.

(** The loop that keeps the address [varp] of the word that led to [var]. *)
Fixpoint prevptr_loop {A} (fuel : nat) (body : loc → naddr → A → M qmem A) (varp : naddr) (acc : A)
  : M qmem A :=
  match fuel with
  | O => diverge
  | S fuel =>
    x ← word_at varp;
    match x with
    | None => mret acc
    | Some var => acc ← body var varp acc; prevptr_loop fuel body (EntryNext var) acc
    end
  end.

Definition SLIST_FOREACH_PREVPTR {A} (h : loc) (body : loc → naddr → A → M qmem A) (acc : A)
  : M qmem A := fuel ← q_fuel; prevptr_loop fuel body (HeadFirst h) acc.

#[local] Instance slist : Queue qmem := {
  q_init := SLIST_INIT;
  q_op op h :=
    match op with
    | OInsertHead e => Some (SLIST_INSERT_HEAD h e ;; mret AUnit)
    | OInsertAfter p e => Some (SLIST_INSERT_AFTER p e ;; mret AUnit)
    | ORemoveHead => Some (SLIST_REMOVE_HEAD h ;; mret AUnit)
    | ORemoveAfter p => Some (SLIST_REMOVE_AFTER p ;; mret AUnit)
    | ORemove e => Some (SLIST_REMOVE h e ;; mret AUnit)
    | OEmpty => Some (b ← SLIST_EMPTY h; mret (ABool b))
    | OFirst => Some (x ← SLIST_FIRST h; mret (APtr x))
    | ONext e => Some (x ← SLIST_NEXT e; mret (APtr x))
    | OForeach => Some (l ← SLIST_FOREACH h visit []; mret (AList l))
    | OForeachPrevptr => Some (l ← SLIST_FOREACH_PREVPTR h (λ x _, visit x) []; mret (AList l))
    | OForeachSafe keep => Some (l ← SLIST_FOREACH_SAFE h (sweep (SLIST_REMOVE h) keep) []; mret (AList l))
    | _ => None
    end;
  q_concat := None;
  q_swap := None;
  q_rep s h l := chain (m_next s) (HeadFirst h) l None;
  q_head_at s h := is_Some (m_next s !! HeadFirst h);
  q_elem_at s e := is_Some (m_next s !! EntryNext e);
  q_touch := w_touch;
}.

Section ops.
Context (s : qmem) (h : loc).
Let rep (l : list loc) (s : qmem) : Prop := chain (m_next s) (HeadFirst h) l None.

Lemma snext_ok l1 x l2 s1 :
  rep (l1 ++ x :: l2) s1 → wp (SLIST_NEXT x) (λ y s', y = head l2 ∧ s' = s1) s1.
Proof.
  intros Hc. eapply word_at_ok; [by eapply chain_elem|]. by rewrite head_or_None.
Qed.

Lemma sfirst_ok l s1 : rep l s1 → wp (SLIST_FIRST h) (λ y s', y = head l ∧ s' = s1) s1.
Proof. intros Hc. eapply word_at_ok; [by eapply chain_at|]. by rewrite head_or_None. Qed.

Lemma sremove_ok l1 e l2 s1 :
  NoDup (l1 ++ e :: l2) → rep (l1 ++ e :: l2) s1 →
  wp (SLIST_REMOVE h e) (λ _ s', rep (l1 ++ l2) s' ∧ w_touch [h] (l1 ++ e :: l2) s1 s') s1.
Proof.
  intros Hnd Hc. unfold SLIST_REMOVE. apply wp_bind.
  eapply wp_mono; [by eapply sfirst_ok|]. intros ? ? [-> ->]. case_bool_decide as Hh.
  - assert (l1 = []) as ->.
    { destruct l1 as [|x l1]; [done|]. simplify_eq/=. apply NoDup_cons in Hnd. set_solver. }
    eapply wp_mono; [by apply (unlink_ok s1 h [] l2 e)|]. intros [] s2 (? & _ & _ & ?). done.
  - destruct l1 as [|c l1]; [done|]. apply wp_bind.
    eapply wp_mono; [by eapply sfirst_ok|]. intros ? ? [-> ->].
    apply wp_bind, wp_get, wp_bind.
    eapply wp_mono; [eapply (seek_ok s1 h (l1 ++ e :: l2) []); [done|set_solver| |done]|].
    { apply chain_length in Hc; [cbn [app length] in Hc |- *; lia|done]. }
    intros d s2 (-> & k1 & k2 & Hk). rewrite app_nil_l in Hk.
    assert (c :: l1 = k1 ++ [d] ∧ l2 = k2) as [Hk1 ->].
    { apply (NoDup_split_eq e); [done|]. by rewrite <-app_assoc. }
    change (rep ((c :: l1) ++ e :: k2) s1) in Hc. rewrite Hk1 in Hc, Hnd |- *.
    pose proof (unlink_ok s1 h (k1 ++ [d]) k2 e Hnd Hc) as Hu. rewrite last_addr_app in Hu.
    eapply wp_mono; [exact Hu|]. intros [] s2 (? & _ & _ & ?). done.
Qed.

Lemma prevptr_ok l1 l2 fuel s1 :
  rep (l1 ++ l2) s1 → length l2 < fuel →
  wp (prevptr_loop fuel (λ x _, visit x) (last_addr (HeadFirst h) l1) l1)
    (λ acc s', acc = l1 ++ l2 ∧ s' = s1) s1.
Proof.
  revert l1 fuel. induction l2 as [|x l2 IH]; intros l1 [|fuel] Hc Hf; cbn [length] in Hf; try lia;
    cbn [prevptr_loop]; apply wp_bind; (eapply word_at_ok; [by eapply chain_next|]).
  - by rewrite app_nil_r.
  - apply wp_bind, wp_ret. change (x :: l2) with ([x] ++ l2). rewrite app_assoc.
    replace (EntryNext x) with (last_addr (HeadFirst h) (l1 ++ [x])) by (by rewrite last_addr_app).
    apply IH; [by rewrite <-app_assoc|lia].
Qed.

(** An insertion or a removal at a word, as an operation on the queue. *)
Lemma sinsert_ok l1 e l2 :
  NoDup (l1 ++ l2) → e ∉ l1 ++ l2 → rep (l1 ++ l2) s → is_Some (m_next s !! EntryNext e) →
  wp (link (last_addr (HeadFirst h) l1) e)
    (λ _ s', rep (l1 ++ e :: l2) s' ∧ w_touch [h] (e :: l1 ++ l2) s s') s.
Proof.
  intros. eapply wp_mono; [by apply (link_ok s h l1 l2 e)|]. intros [] s2 (? & _ & _ & ?). done.
Qed.

Lemma sunlink_ok l1 e l2 :
  NoDup (l1 ++ e :: l2) → rep (l1 ++ e :: l2) s →
  wp (unlink (last_addr (HeadFirst h) l1))
    (λ _ s', rep (l1 ++ l2) s' ∧ w_touch [h] (l1 ++ e :: l2) s s') s.
Proof.
  intros. eapply wp_mono; [by apply (unlink_ok s h l1 l2 e)|]. intros [] s2 (? & _ & _ & ?). done.
Qed.

Lemma sforeach_ok l :
  NoDup l → rep l s → wp (SLIST_FOREACH h visit []) (λ acc s', acc = l ∧ s' = s) s.
Proof.
  intros Hn Hc. apply wp_bind, wp_get, wp_bind. eapply wp_mono; [by eapply sfirst_ok|].
  intros ? ? [-> ->]. eapply visit_ok; [apply snext_ok|done|by eapply chain_length].
Qed.

Lemma ssweep_ok keep l :
  NoDup l → rep l s → wp (SLIST_FOREACH_SAFE h (sweep (SLIST_REMOVE h) keep) [])
    (λ acc s', acc = l ∧ rep (filter (λ x, keep x) l) s' ∧ w_touch [h] l s s') s.
Proof.
  intros Hn Hc. apply wp_bind, wp_get, wp_bind. eapply wp_mono; [by eapply sfirst_ok|].
  intros ? ? [-> ->]. eapply (sweep_ok SLIST_NEXT rep snext_ok (w_touch [h] l)); [|done|done|by eapply chain_length].
  intros l1 x l2 s1 Hin Hn1 Hc1. eapply wp_mono; [by apply sremove_ok|].
  intros [] s2 [? Ht]. split; [done|]. eapply w_touch_mono; [exact Hin|exact Ht].
Qed.
End ops.

(** ** SLIST keeps the promise *)

Lemma slist_op_ok s h l op m a l' :
  q_op op h = Some m → NoDup l → q_rep s h l → op_spec op l = Some (a, l') →
  (∀ e, new_elem op = Some e → e ∉ l ∧ q_elem_at s e) →
  wp m (λ b s', b = a ∧ q_rep s' h l' ∧ q_touch [h] (option_list (new_elem op) ++ l) s s') s.
Proof.
  intros Hm Hnd Hc Hop Hnew. cbn in Hc.
  destruct op; simplify_eq/=; split_op; cbn [option_list app] in *; apply wp_bind.
  - destruct (Hnew e eq_refl). eapply wp_mono; [by apply (sinsert_ok s h [] e l)|].
    intros [] s' [??]. done.
  - destruct (Hnew e eq_refl) as [He ?].
    pose proof (sinsert_ok s h (l1 ++ [p]) e l2) as Hi. rewrite last_addr_app, <-!app_assoc in Hi.
    eapply wp_mono; [by apply Hi|]. intros [] s' [??]. done.
  - eapply wp_mono; [by apply (sunlink_ok s h [] x l')|]. intros [] s' [??]. done.
  - pose proof (sunlink_ok s h (l1 ++ [p]) x k) as Hi. rewrite last_addr_app, <-!app_assoc in Hi.
    eapply wp_mono; [by apply Hi|]. intros [] s' [??]. done.
  - eapply wp_mono; [by apply sremove_ok|]. intros [] s' [??]. done.
  - apply wp_bind. eapply wp_mono; [by apply (sfirst_ok h l' s)|]. intros ? ? [-> ->].
    split; [by destruct l'|done].
  - eapply wp_mono; [by apply (sfirst_ok h l' s)|]. intros ? ? [-> ->]. done.
  - eapply wp_mono; [by eapply (snext_ok h l1)|]. intros ? ? [-> ->]. done.
  - eapply wp_mono; [by apply (sforeach_ok s h l')|]. intros ? ? [-> ->]. done.
  - apply wp_bind, wp_get. eapply wp_mono; [apply (prevptr_ok h [] l'); [done|by eapply chain_length]|].
    intros ? ? [-> ->]. done.
  - eapply wp_mono; [by apply (ssweep_ok s h keep l)|]. intros ? ? (-> & ? & ?). done.
Qed.

#[local] Instance slist_laws : QueueLaws qmem.
Proof.
  split.
  - intros s s' hs xs h l Ht Hh Hl. by apply chain_touch with hs xs.
  - intros s s' hs xs h Ht. apply Ht.
  - intros s s' hs xs e Ht. apply Ht.
  - intros s h Hh. apply put_word_ok; [done|]. simpl. rewrite lookup_insert_eq.
    split; [done|]. apply touch_word. by left.
  - apply slist_op_ok.
  - done.
  - done.
Qed.

(** A script for the witness: two heads, a loop that keeps one element. *)
Definition slist_script : list qcmd :=
  [QInit 1; QInit 2; QOn 1 (OInsertHead 12); QOn 1 (OInsertHead 11);
   QOn 1 (OInsertAfter 12 13); QOn 2 (OInsertHead 21); QOn 1 OForeachPrevptr;
   QOn 1 (OForeachSafe (λ x, bool_decide (x = 12%positive))); QOn 1 OForeach;
   QOn 1 (ORemove 12); QOn 1 OEmpty; QOn 2 (ONext 21); QOn 2 ORemoveHead]%positive.

(** C33: SLIST implements sequences: any script of its macros over any number of
    heads that inserts free elements and names elements that are there runs to
    its end, gives the answers the sequences give, and leaves every head with
    its sequence, whatever elements the loops keep or remove on their way. *)
Theorem slist_refines cs s A m r A' :
  q_holds (H := slist) s A → q_script (H := slist) cs = Some m → script_spec cs A = Some (r, A') →
  ∃ s', m s = Ok r s' ∧ q_holds (H := slist) s' A'.
Proof. apply script_ok. Qed.

Lemma slist_refines_witness :
  let r := [AUnit; AUnit; AUnit; AUnit; AUnit; AUnit; AList [11; 12; 13]; AList [11; 12; 13];
            AList [12]; AUnit; ABool true; APtr None; AUnit]%positive in
  ∃ m A', q_script slist_script = Some m ∧
    script_spec slist_script (raw_state [1; 2] [11; 12; 13; 21])%positive = Some (r, A') ∧
    ∃ s', m (raw_mem [1; 2] [11; 12; 13; 21])%positive = Ok r s' ∧ q_holds s' A'.
Proof.
  cbv zeta. eexists _, _. split; [reflexivity|]. split; [vm_compute; reflexivity|].
  eapply (slist_refines slist_script _ (raw_state [1; 2] [11; 12; 13; 21])%positive); [|reflexivity|vm_compute; reflexivity].
  split; [apply raw_wf|apply raw_head|apply raw_elem|done].
Defined.
