(* ===== verification/Stailq.v ===== *)
(** * STAILQ of [src/util/queue.h]: singly-linked tail queues

    A head is its [stqh_first] word and [stqh_last], the address of the last next
    word; an entry is its [stqe_next] word. *)
From stdpp Require Import base tactics list gmap.
From Stdlib Require Import Lia.
From S2P Require Import Prelude Tailq Queues Words.

Definition STAILQ_FIRST (h : loc) : M qmem (option loc) := word_at (HeadFirst h).
Definition STAILQ_NEXT (e : loc) : M qmem (option loc) := word_at (EntryNext e).
Definition STAILQ_EMPTY (h : loc) : M qmem bool := x ← STAILQ_FIRST h; mret (bool_decide (x = None)).

Definition STAILQ_INIT (h : loc) : M qmem () :=
  put_word (HeadFirst h) None ;; put_last h (HeadFirst h).

Definition STAILQ_CONCAT (h1 h2 : loc) : M qmem () :=
  b ← STAILQ_EMPTY h2;
  when (negb b) (
    a ← last_at h1; x ← STAILQ_FIRST h2; put_word a x ;;
    l ← last_at h2; put_last h1 l ;;
    STAILQ_INIT h2).

Definition STAILQ_INSERT_AFTER (h tqelm elm : loc) : M qmem () :=
  x ← STAILQ_NEXT tqelm; put_word (EntryNext elm) x ;;
  when (bool_decide (x = None)) (put_last h (EntryNext elm)) ;;
  put_word (EntryNext tqelm) (Some elm).

Definition STAILQ_INSERT_HEAD (h elm : loc) : M qmem () :=
  x ← STAILQ_FIRST h; put_word (EntryNext elm) x ;;
  when (bool_decide (x = None)) (put_last h (EntryNext elm)) ;;
  put_word (HeadFirst h) (Some elm).

Definition STAILQ_INSERT_TAIL (h elm : loc) : M qmem () :=
  put_word (EntryNext elm) None ;;
  a ← last_at h; put_word a (Some elm) ;;
  put_last h (EntryNext elm).

(** The element around the last next word, found by the offset of the field; a
    head has no element around it. *)
Definition STAILQ_LAST (h : loc) : M qmem (option loc) :=
  b ← STAILQ_EMPTY h;
  if b : bool then mret None
  else a ← last_at h; match a with EntryNext e => mret (Some e) | HeadFirst _ => undef end.

Definition STAILQ_REMOVE_HEAD (h : loc) : M qmem () :=
  x ← STAILQ_FIRST h; y ← next_of x; put_word (HeadFirst h) y ;;
  when (bool_decide (y = None)) (put_last h (HeadFirst h)).

Definition STAILQ_REMOVE_AFTER (h elm : loc) : M qmem () :=
  x ← STAILQ_NEXT elm; y ← next_of x; put_word (EntryNext elm) y ;;
  when (bool_decide (y = None)) (put_last h (EntryNext elm)).

Definition STAILQ_REMOVE (h elm : loc) : M qmem () :=
  x ← STAILQ_FIRST h;
  if bool_decide (x = Some elm) then STAILQ_REMOVE_HEAD h
  else
    curelm ← STAILQ_FIRST h;
    fuel ← q_fuel;
    curelm ← seek_loop fuel curelm elm;
    STAILQ_REMOVE_AFTER h curelm.

Definition STAILQ_SWAP (h1 h2 : loc) : M qmem () :=
  swap_first ← STAILQ_FIRST h1;
  swap_last ← last_at h1;
  x ← STAILQ_FIRST h2; put_word (HeadFirst h1) x ;;
  a ← last_at h2; put_last h1 a ;;
  put_word (HeadFirst h2) swap_first ;;
  put_last h2 swap_last ;;
  (b ← STAILQ_EMPTY h1; when b (put_last h1 (HeadFirst h1))) ;;
  (b ← STAILQ_EMPTY h2; when b (put_last h2 (HeadFirst h2))).

Definition STAILQ_FOREACH {A} (h : loc) (body : loc → A → M qmem A) (acc : A) : M qmem A :=
  fuel ← q_fuel; x ← STAILQ_FIRST h; foreach_loop fuel STAILQ_NEXT body x acc.

Definition STAILQ_FOREACH_SAFE {A} (h : loc) (body : loc → A → M qmem A) (acc : A) : M qmem A :=
  fuel ← q_fuel; x ← STAILQ_FIRST h; foreach_safe_loop fuel STAILQ_NEXT body x acc.

(** The sequence of [h], and [stqh_last] at its end. *)
Definition st_rep (s : qmem) (h : loc) (l : list loc) : Prop :=
  chain (m_next s) (HeadFirst h) l None ∧ m_last s !! h = Some (last_addr (HeadFirst h) l).

#[local] Instance stailq : Queue qmem := {
  q_init := STAILQ_INIT;
  q_op op h :=
    match op with
    | OInsertHead e => Some (STAILQ_INSERT_HEAD h e ;; mret AUnit)
    | OInsertTail e => Some (STAILQ_INSERT_TAIL h e ;; mret AUnit)
    | OInsertAfter p e => Some (STAILQ_INSERT_AFTER h p e ;; mret AUnit)
    | ORemoveHead => Some (STAILQ_REMOVE_HEAD h ;; mret AUnit)
    | ORemoveAfter p => Some (STAILQ_REMOVE_AFTER h p ;; mret AUnit)
    | ORemove e => Some (STAILQ_REMOVE h e ;; mret AUnit)
    | OEmpty => Some (b ← STAILQ_EMPTY h; mret (ABool b))
    | OFirst => Some (x ← STAILQ_FIRST h; mret (APtr x))
    | ONext e => Some (x ← STAILQ_NEXT e; mret (APtr x))
    | OLast => Some (x ← STAILQ_LAST h; mret (APtr x))
    | OForeach => Some (l ← STAILQ_FOREACH h visit []; mret (AList l))
    | OForeachSafe keep => Some (l ← STAILQ_FOREACH_SAFE h (sweep (STAILQ_REMOVE h) keep) []; mret (AList l))
    | _ => None
    end;
  q_concat := Some STAILQ_CONCAT;
  q_swap := Some STAILQ_SWAP;
  q_rep := st_rep;
  q_head_at s h := is_Some (m_next s !! HeadFirst h) ∧ is_Some (m_last s !! h);
  q_elem_at s e := is_Some (m_next s !! EntryNext e);
  q_touch := w_touch;
}.

(** The insertion and the removal at a word, shared by the macros. *)
Definition st_link (h : loc) (b : naddr) (e : loc) : M qmem () :=
  x ← word_at b; put_word (EntryNext e) x ;;
  when (bool_decide (x = None)) (put_last h (EntryNext e)) ;;
  put_word b (Some e).

Definition st_unlink (h : loc) (b : naddr) : M qmem () :=
  x ← word_at b; y ← next_of x; put_word b y ;;
  when (bool_decide (y = None)) (put_last h b).

Section ops.
Context (h : loc).

Lemma st_next_ok l1 x l2 s :
  st_rep s h (l1 ++ x :: l2) → wp (STAILQ_NEXT x) (λ y s', y = head l2 ∧ s' = s) s.
Proof. intros [Hc _]. eapply word_at_ok; [by eapply chain_elem|]. by rewrite head_or_None. Qed.

Lemma st_first_ok l s : st_rep s h l → wp (STAILQ_FIRST h) (λ y s', y = head l ∧ s' = s) s.
Proof. intros [Hc _]. eapply word_at_ok; [by eapply chain_at|]. by rewrite head_or_None. Qed.

Lemma st_empty_ok l s :
  st_rep s h l → wp (STAILQ_EMPTY h) (λ b s', b = bool_decide (l = []) ∧ s' = s) s.
Proof.
  intros Hr. apply wp_bind. eapply wp_mono; [by apply st_first_ok|]. intros ? ? [-> ->].
  apply wp_ret. split; [by destruct l|done].
Qed.

Lemma st_link_ok l1 e l2 s :
  NoDup (l1 ++ l2) → e ∉ l1 ++ l2 → st_rep s h (l1 ++ l2) → is_Some (m_next s !! EntryNext e) →
  wp (st_link h (last_addr (HeadFirst h) l1) e)
    (λ _ s', st_rep s' h (l1 ++ e :: l2) ∧ w_touch [h] (e :: l1 ++ l2) s s') s.
Proof.
  intros Hnd He [Hc Hl] Hs. unfold st_link. apply wp_bind. eapply word_at_ok; [by eapply chain_next|].
  apply wp_bind, put_word_ok; [done|]. set (b := last_addr (HeadFirst h) l1).
  set (xs := e :: l1 ++ l2). set (s1 := QMem _ _ _).
  assert (w_touch [h] xs s s1) as T1 by (apply touch_word; by left).
  assert (wp (when (bool_decide (head_or l2 None = None)) (put_last h (EntryNext e)))
    (λ _ s2, m_next s2 = m_next s1 ∧ m_last s2 !! h = Some (last_addr (HeadFirst h) (l1 ++ e :: l2))
       ∧ w_touch [h] xs s1 s2) s1) as Hw.
  { rewrite last_addr_app, last_addr_cons. destruct l2 as [|y l2]; simpl.
    - apply put_last_ok; simpl; [eauto|]. rewrite lookup_insert_eq. split; [done|]. split; [done|].
      apply (touch_last s1). by left.
    - apply wp_ret. split; [done|]. split; [|done]. change (m_last s1) with (m_last s).
      by rewrite Hl, last_addr_app, !last_addr_cons. }
  apply wp_bind. eapply wp_mono; [exact Hw|]. intros [] s2 (Hn2 & Hl2 & T2).
  apply put_word_ok.
  { rewrite Hn2. simpl. apply lookup_insert_is_Some'. right. unfold b.
    rewrite (chain_next _ _ _ _ _ Hc). eauto. }
  split; [split; [|done]|].
  - simpl. rewrite Hn2. by apply chain_insert.
  - etrans; [exact T1|]. etrans; [exact T2|]. apply touch_word.
    pose proof (last_addr_in h l1) as Hi. fold b in Hi. destruct b; simpl in *; [done|]. set_solver.
Qed.

Lemma st_unlink_ok l1 e l2 s :
  NoDup (l1 ++ e :: l2) → st_rep s h (l1 ++ e :: l2) →
  wp (st_unlink h (last_addr (HeadFirst h) l1))
    (λ _ s', st_rep s' h (l1 ++ l2) ∧ w_touch [h] (l1 ++ e :: l2) s s') s.
Proof.
  intros Hnd [Hc Hl]. unfold st_unlink. set (b := last_addr (HeadFirst h) l1).
  apply wp_bind. eapply word_at_ok; [by eapply chain_next|].
  apply wp_bind. unfold next_of. apply wp_bind. eapply wp_deref; [done|].
  eapply word_at_ok; [by eapply chain_elem|].
  apply wp_bind, put_word_ok; [unfold b; rewrite (chain_next _ _ _ _ _ Hc); eauto|].
  set (s1 := QMem _ _ _).
  assert (w_touch [h] (l1 ++ e :: l2) s s1) as T1.
  { apply touch_word. pose proof (last_addr_in h l1) as Hi. fold b in Hi.
    destruct b; simpl in *; [done|]. set_solver. }
  assert (chain (m_next s1) (HeadFirst h) (l1 ++ l2) None) as Hc1 by (by eapply chain_remove).
  rewrite last_addr_app, last_addr_cons in Hl. unfold st_rep. rewrite last_addr_app.
  destruct l2 as [|y l2]; simpl.
  - apply put_last_ok; simpl; [eauto|]. rewrite lookup_insert_eq. split; [done|].
    etrans; [exact T1|]. apply (touch_last s1). by left.
  - rewrite last_addr_cons in *. done.
Qed.
End ops.

(** ** The macros, one by one *)
Section macros.
Context (h : loc).

Lemma st_tail_ok l e s :
  NoDup l → e ∉ l → st_rep s h l → is_Some (m_next s !! EntryNext e) →
  wp (STAILQ_INSERT_TAIL h e) (λ _ s', st_rep s' h (l ++ [e]) ∧ w_touch [h] (e :: l) s s') s.
Proof.
  intros Hnd He [Hc Hl] Hs. unfold STAILQ_INSERT_TAIL.
  apply wp_bind, put_word_ok; [done|]. apply wp_bind. eapply last_at_ok; [done|].
  set (b := last_addr (HeadFirst h) l). apply wp_bind, put_word_ok; simpl.
  { apply lookup_insert_is_Some'. right. unfold b. rewrite <-(app_nil_r l) in Hc.
    rewrite (chain_next _ _ _ _ _ Hc). eauto. }
  apply put_last_ok; simpl; [eauto|]. split; [split; simpl|].
  - apply (chain_insert _ h l e []); by rewrite app_nil_r.
  - rewrite lookup_insert_eq. by rewrite last_addr_app.
  - etrans; [apply (touch_word s _ _ (EntryNext e)); by left|].
    etrans; [apply (touch_word (QMem _ _ _) _ _ b)|apply (touch_last (QMem _ _ _)); by left].
    pose proof (last_addr_in h l) as Hi. fold b in Hi. destruct b; simpl in *; [done|]. by right.
Qed.

Lemma st_remove_ok l1 e l2 s :
  NoDup (l1 ++ e :: l2) → st_rep s h (l1 ++ e :: l2) →
  wp (STAILQ_REMOVE h e) (λ _ s', st_rep s' h (l1 ++ l2) ∧ w_touch [h] (l1 ++ e :: l2) s s') s.
Proof.
  intros Hnd Hr. unfold STAILQ_REMOVE. apply wp_bind.
  eapply wp_mono; [by eapply st_first_ok|]. intros ? ? [-> ->]. case_bool_decide as Hh.
  - assert (l1 = []) as ->.
    { destruct l1 as [|x l1]; [done|]. simplify_eq/=. apply NoDup_cons in Hnd. set_solver. }
    by apply (st_unlink_ok h [] e l2).
  - destruct l1 as [|c l1]; [done|]. apply wp_bind.
    eapply wp_mono; [by eapply st_first_ok|]. intros ? ? [-> ->].
    apply wp_bind, wp_get, wp_bind.
    eapply wp_mono; [eapply (seek_ok s h (l1 ++ e :: l2) []); [done|set_solver| |apply Hr]|].
    { destruct Hr as [Hc _]. apply chain_length in Hc; [cbn [app length] in Hc |- *; lia|done]. }
    intros d s2 (-> & k1 & k2 & Hk). rewrite app_nil_l in Hk.
    assert (c :: l1 = k1 ++ [d] ∧ l2 = k2) as [Hk1 ->].
    { apply (NoDup_split_eq e); [done|]. by rewrite <-app_assoc. }
    change (st_rep s h ((c :: l1) ++ e :: k2)) in Hr. rewrite Hk1 in Hr, Hnd |- *.
    pose proof (st_unlink_ok h (k1 ++ [d]) e k2 s Hnd Hr) as Hu. by rewrite last_addr_app in Hu.
Qed.

Lemma st_last_ok l s : st_rep s h l → wp (STAILQ_LAST h) (λ x s', x = last l ∧ s' = s) s.
Proof.
  intros Hr. apply wp_bind. eapply wp_mono; [by apply st_empty_ok|]. intros ? ? [-> ->].
  case_bool_decide as Hl; [by subst l|]. apply wp_bind. eapply last_at_ok; [apply Hr|].
  unfold last_addr. destruct (last l) eqn:E; [done|]. by apply last_None in E.
Qed.

Lemma st_foreach_ok l s :
  NoDup l → st_rep s h l → wp (STAILQ_FOREACH h visit []) (λ acc s', acc = l ∧ s' = s) s.
Proof.
  intros Hn Hc. apply wp_bind, wp_get, wp_bind. eapply wp_mono; [by eapply st_first_ok|].
  intros ? ? [-> ->]. eapply (visit_ok _ (λ l s, st_rep s h l)); [apply st_next_ok|done|].
  by eapply chain_length, Hc.
Qed.

Lemma st_sweep_ok keep l s :
  NoDup l → st_rep s h l → wp (STAILQ_FOREACH_SAFE h (sweep (STAILQ_REMOVE h) keep) [])
    (λ acc s', acc = l ∧ st_rep s' h (filter (λ x, keep x) l) ∧ w_touch [h] l s s') s.
Proof.
  intros Hn Hc. apply wp_bind, wp_get, wp_bind. eapply wp_mono; [by eapply st_first_ok|].
  intros ? ? [-> ->].
  eapply (sweep_ok STAILQ_NEXT (λ l s, st_rep s h l) (st_next_ok h) (w_touch [h] l));
    [|done|done|by eapply chain_length, Hc].
  intros l1 x l2 s1 Hin Hn1 Hc1. eapply wp_mono; [by apply st_remove_ok|].
  intros [] s2 [? Ht]. split; [done|]. eapply w_touch_mono; [exact Hin|exact Ht].
Qed.
End macros.

Lemma st_op_ok s h l op m a l' :
  q_op op h = Some m → NoDup l → q_rep s h l → op_spec op l = Some (a, l') →
  (∀ e, new_elem op = Some e → e ∉ l ∧ q_elem_at s e) →
  wp m (λ b s', b = a ∧ q_rep s' h l' ∧ q_touch [h] (option_list (new_elem op) ++ l) s s') s.
Proof.
  intros Hm Hnd Hr Hop Hnew. cbn in Hr.
  destruct op; simplify_eq/=; split_op; cbn [option_list app] in *; apply wp_bind.
  - destruct (Hnew e eq_refl). eapply wp_mono; [by apply (st_link_ok h [] e l)|].
    intros [] s' [??]. done.
  - destruct (Hnew e eq_refl). eapply wp_mono; [by apply st_tail_ok|]. intros [] s' [??]. done.
  - destruct (Hnew e eq_refl) as [He ?].
    pose proof (st_link_ok h (l1 ++ [p]) e l2 s) as Hi. rewrite last_addr_app, <-!app_assoc in Hi.
    eapply wp_mono; [by apply Hi|]. intros [] s' [??]. done.
  - eapply wp_mono; [by apply (st_unlink_ok h [] x l')|]. intros [] s' [??]. done.
  - pose proof (st_unlink_ok h (l1 ++ [p]) x k s) as Hi. rewrite last_addr_app, <-!app_assoc in Hi.
    eapply wp_mono; [by apply Hi|]. intros [] s' [??]. done.
  - eapply wp_mono; [by apply st_remove_ok|]. intros [] s' [??]. done.
  - eapply wp_mono; [by apply (st_empty_ok h l')|]. intros ? ? [-> ->]. done.
  - eapply wp_mono; [by apply (st_first_ok h l')|]. intros ? ? [-> ->]. done.
  - eapply wp_mono; [by eapply (st_next_ok h l1)|]. intros ? ? [-> ->]. done.
  - eapply wp_mono; [by apply (st_last_ok h l')|]. intros ? ? [-> ->]. done.
  - eapply wp_mono; [by apply (st_foreach_ok h l')|]. intros ? ? [-> ->]. done.
  - eapply wp_mono; [by apply (st_sweep_ok h keep l)|]. intros ? ? (-> & ? & ?). done.
Qed.

Lemma st_init_ok h s :
  is_Some (m_next s !! HeadFirst h) → is_Some (m_last s !! h) →
  wp (STAILQ_INIT h) (λ _ s', st_rep s' h [] ∧ w_touch [h] [] s s') s.
Proof.
  intros Hn Hl. apply wp_bind, put_word_ok; [done|]. apply put_last_ok; [done|].
  split; [split; simpl; by rewrite lookup_insert_eq|].
  etrans; [apply (touch_word s _ _ (HeadFirst h)); by left|]. apply (touch_last (QMem _ _ _)). by left.
Qed.

Lemma st_concat_ok h1 h2 l1 l2 s :
  h1 ≠ h2 → NoDup (l1 ++ l2) → st_rep s h1 l1 → st_rep s h2 l2 →
  wp (STAILQ_CONCAT h1 h2) (λ _ s', st_rep s' h1 (l1 ++ l2) ∧ st_rep s' h2 [] ∧
    w_touch [h1; h2] (l1 ++ l2) s s') s.
Proof.
  intros Hne (Hn1 & Hn12 & Hn2)%NoDup_app R1 R2. unfold STAILQ_CONCAT. apply wp_bind.
  eapply wp_mono; [by apply st_empty_ok|]. intros ? ? [-> ->].
  apply wp_when; rewrite ?negb_true_iff, ?negb_false_iff, ?bool_decide_eq_true, ?bool_decide_eq_false.
  2: { intros ->. by rewrite app_nil_r. }
  intros Hl2. destruct R1 as [C1 L1]. apply wp_bind. eapply last_at_ok; [exact L1|].
  apply wp_bind. eapply wp_mono; [by apply st_first_ok|]. intros ? ? [-> ->].
  destruct R2 as [C2 L2]. rewrite <-head_or_None. set (b := last_addr (HeadFirst h1) l1).
  assert (in_addr [h1; h2] (l1 ++ l2) b) as Hb.
  { pose proof (last_addr_in h1 l1) as Hi. fold b in Hi. destruct b; simpl in *; set_solver. }
  apply wp_bind, put_word_ok.
  { pose proof C1 as C. rewrite <-(app_nil_r l1) in C. unfold b. rewrite (chain_next _ _ _ _ _ C). eauto. }
  apply wp_bind. eapply last_at_ok; [exact L2|]. apply wp_bind, put_last_ok; [simpl; eauto|].
  apply wp_bind, put_word_ok; simpl.
  { apply lookup_insert_is_Some'. right. rewrite (chain_at _ _ _ _ C2). eauto. }
  apply put_last_ok; simpl; [apply lookup_insert_is_Some'; right; eauto|].
  split; [|split]; [split; simpl|split; simpl; by rewrite lookup_insert_eq|].
  - apply chain_concat; [done|by apply NoDup_app|done|done].
  - rewrite lookup_insert_ne, lookup_insert_eq by done. rewrite last_addr_app.
    unfold last_addr. destruct (last l2) eqn:E; [done|]. by apply last_None in E.
  - etrans; [apply (touch_word s _ _ b); exact Hb|].
    etrans; [apply (touch_last (QMem _ _ _) _ _ h1); by left|].
    etrans; [apply (touch_word (QMem _ _ _) _ _ (HeadFirst h2)); right; by left|].
    apply (touch_last (QMem _ _ _)). right; by left.
Qed.

(** The last tests of SWAP: [stqh_last] of a head that got the chain of another. *)
Lemma st_fix_ok h a l Q s :
  m_next s !! HeadFirst h = Some (head l) → m_last s !! h = Some (last_addr a l) →
  Q () (QMem (m_next s) (<[h := last_addr (HeadFirst h) l]> (m_last s)) (m_prev s)) →
  wp (b ← STAILQ_EMPTY h; when b (put_last h (HeadFirst h))) Q s.
Proof.
  intros Hn Hl Hk. apply wp_bind, wp_bind. eapply word_at_ok; [done|]. apply wp_ret.
  destruct l as [|x l]; simpl.
  - by apply put_last_ok.
  - apply wp_ret. rewrite last_addr_cons in *. rewrite insert_id in Hk by done. by destruct s.
Qed.

Lemma st_swap_ok h1 h2 l1 l2 s :
  h1 ≠ h2 → NoDup (l1 ++ l2) → st_rep s h1 l1 → st_rep s h2 l2 →
  wp (STAILQ_SWAP h1 h2) (λ _ s', st_rep s' h1 l2 ∧ st_rep s' h2 l1 ∧
    w_touch [h1; h2] (l1 ++ l2) s s') s.
Proof.
  intros Hne Hnd [C1 L1] [C2 L2]. assert (HeadFirst h2 ≠ HeadFirst h1) as Hf by (by intros [= ->]).
  pose proof (chain_at _ _ _ _ C1) as F1.
  pose proof (chain_at _ _ _ _ C2) as F2. rewrite !head_or_None in *. unfold STAILQ_SWAP.
  apply wp_bind. eapply word_at_ok; [exact F1|]. apply wp_bind. eapply last_at_ok; [exact L1|].
  apply wp_bind. eapply word_at_ok; [exact F2|]. apply wp_bind, put_word_ok; [eauto|].
  apply wp_bind. eapply last_at_ok; [exact L2|]. apply wp_bind, put_last_ok; [simpl; eauto|].
  apply wp_bind, put_word_ok; [simpl; apply lookup_insert_is_Some'; eauto|].
  apply wp_bind, put_last_ok; [simpl; apply lookup_insert_is_Some'; eauto|]. simpl.
  apply wp_bind. eapply st_fix_ok; simpl.
  { rewrite (lookup_insert_ne _ _ _ _ Hf). apply lookup_insert_eq. }
  { rewrite lookup_insert_ne by done. apply lookup_insert_eq. }
  eapply st_fix_ok; simpl.
  { apply lookup_insert_eq. }
  { rewrite lookup_insert_ne by done. apply lookup_insert_eq. }
  split; [|split]; [split; simpl|split; simpl|].
  - eapply (chain_move (m_next s)); [|by intros; rewrite !lookup_insert_ne|exact C2].
    rewrite (lookup_insert_ne _ _ _ _ Hf), lookup_insert_eq. by rewrite head_or_None.
  - by rewrite lookup_insert_ne, lookup_insert_eq by done.
  - eapply (chain_move (m_next s)); [|by intros; rewrite !lookup_insert_ne|exact C1].
    by rewrite lookup_insert_eq, head_or_None.
  - by rewrite lookup_insert_eq.
  - etrans; [apply (touch_word s _ _ (HeadFirst h1)); by left|].
    etrans; [apply (touch_last (QMem _ _ _) _ _ h1); by left|].
    etrans; [apply (touch_word (QMem _ _ _) _ _ (HeadFirst h2)); right; by left|].
    etrans; [apply (touch_last (QMem _ _ _) _ _ h2); right; by left|].
    etrans; [apply (touch_last (QMem _ _ _) _ _ h1); by left|].
    apply (touch_last (QMem _ _ _)). right; by left.
Qed.

#[local] Instance stailq_laws : QueueLaws qmem.
Proof.
  split.
  - intros s s' hs xs h l Ht Hh Hl [Hc Hla]. split; [by apply (chain_touch hs xs s)|].
    by rewrite (t_last _ _ _ _ Ht).
  - intros s s' hs xs h Ht [??]. split; by apply Ht.
  - intros s s' hs xs e Ht. apply Ht.
  - intros s h [??]. by apply st_init_ok.
  - apply st_op_ok.
  - intros s f h1 h2 l1 l2 [= <-]. apply st_concat_ok.
  - intros s f h1 h2 l1 l2 [= <-]. apply st_swap_ok.
Qed.

(** A script for the witness: a queue, its concatenation and a swap. *)
Definition stailq_script : list qcmd :=
  [QInit 1; QInit 2; QOn 1 (OInsertTail 11); QOn 1 (OInsertTail 12); QOn 2 (OInsertHead 21);
   QConcat 1 2; QOn 1 OLast; QOn 2 OLast; QOn 1 (OInsertAfter 21 22); QSwap 1 2;
   QOn 2 (OForeachSafe (λ x, bool_decide (x ≠ 22%positive))); QOn 2 (OInsertTail 13);
   QOn 2 ORemoveHead; QOn 2 OForeach; QOn 1 OEmpty]%positive.

(** C31: STAILQ implements sequences: any script of its macros over any number of
    heads, concatenations and swaps included, runs to its end, gives the answers
    the sequences give, and leaves every head with its sequence and the address
    of its last word. *)
Theorem stailq_refines cs s A m r A' :
  q_holds (H := stailq) s A → q_script (H := stailq) cs = Some m → script_spec cs A = Some (r, A') →
  ∃ s', m s = Ok r s' ∧ q_holds (H := stailq) s' A'.
Proof. apply script_ok. Qed.

Lemma stailq_refines_witness :
  let r := [AUnit; AUnit; AUnit; AUnit; AUnit; AUnit; APtr (Some 21); APtr None; AUnit; AUnit;
            AList [11; 12; 21; 22]; AUnit; AUnit; AList [12; 21; 13]; ABool true]%positive in
  ∃ m A', q_script stailq_script = Some m ∧
    script_spec stailq_script (raw_state [1; 2] [11; 12; 13; 21; 22])%positive = Some (r, A') ∧
    ∃ s', m (raw_mem [1; 2] [11; 12; 13; 21; 22])%positive = Ok r s' ∧ q_holds s' A'.
Proof.
  cbv zeta. eexists _, _. split; [reflexivity|]. split; [vm_compute; reflexivity|].
  eapply (stailq_refines stailq_script _ (raw_state [1; 2] [11; 12; 13; 21; 22])%positive);
    [|reflexivity|vm_compute; reflexivity].
  split; [apply raw_wf| |apply raw_elem|done].
  intros h Hh. split; [by apply raw_head|by apply raw_last].
Defined.
