(* ===== verification/Dlist.v ===== *)
(** * LIST of [src/util/queue.h]: doubly-linked lists

    A head is its [lh_first] word; an entry is its [le_next] word and [le_prev],
    the address of the word that leads to it. *)
From stdpp Require Import base tactics list gmap.
From Stdlib Require Import Lia.
From S2P Require Import Prelude Tailq Queues Words.

Definition LIST_FIRST (h : loc) : M qmem (option loc) := word_at (HeadFirst h).
Definition LIST_NEXT (e : loc) : M qmem (option loc) := word_at (EntryNext e).
Definition LIST_EMPTY (h : loc) : M qmem bool := x ← LIST_FIRST h; mret (bool_decide (x = None)).
Definition LIST_INIT (h : loc) : M qmem () := put_word (HeadFirst h) None.

Definition LIST_INSERT_AFTER (listelm elm : loc) : M qmem () :=
  x ← LIST_NEXT listelm; put_word (EntryNext elm) x ;;
  when (bool_decide (x ≠ None)) (
    y ← LIST_NEXT listelm; y ← deref y; put_prev y (EntryNext elm)) ;;
  put_word (EntryNext listelm) (Some elm) ;;
  put_prev elm (EntryNext listelm).

Definition LIST_INSERT_BEFORE (listelm elm : loc) : M qmem () :=
  a ← prev_at listelm; put_prev elm a ;;
  put_word (EntryNext elm) (Some listelm) ;;
  a ← prev_at listelm; put_word a (Some elm) ;;
  put_prev listelm (EntryNext elm).

Definition LIST_INSERT_HEAD (h elm : loc) : M qmem () :=
  x ← LIST_FIRST h; put_word (EntryNext elm) x ;;
  when (bool_decide (x ≠ None)) (
    y ← LIST_FIRST h; y ← deref y; put_prev y (EntryNext elm)) ;;
  put_word (HeadFirst h) (Some elm) ;;
  put_prev elm (HeadFirst h).

Definition LIST_REMOVE (elm : loc) : M qmem () :=
  x ← LIST_NEXT elm;
  when (bool_decide (x ≠ None)) (
    y ← LIST_NEXT elm; y ← deref y; a ← prev_at elm; put_prev y a) ;;
  a ← prev_at elm; x ← LIST_NEXT elm; put_word a x.

(** [if ((swap_tmp = LIST_FIRST(head)) != NULL) swap_tmp->le_prev = &LIST_FIRST(head);] *)
Definition list_swap_fix (h : loc) : M qmem () :=
  swap_tmp ← LIST_FIRST h;
  match swap_tmp with Some e => put_prev e (HeadFirst h) | None => mret () end.

Definition LIST_SWAP (h1 h2 : loc) : M qmem () :=
  swap_tmp ← LIST_FIRST h1;
  x ← LIST_FIRST h2; put_word (HeadFirst h1) x ;;
  put_word (HeadFirst h2) swap_tmp ;;
  list_swap_fix h1 ;;
  list_swap_fix h2.

Definition LIST_FOREACH {A} (h : loc) (body : loc → A → M qmem A) (acc : A) : M qmem A :=
  fuel ← q_fuel; x ← LIST_FIRST h; foreach_loop fuel LIST_NEXT body x acc.

Definition LIST_FOREACH_SAFE {A} (h : loc) (body : loc → A → M qmem A) (acc : A) : M qmem A :=
  fuel ← q_fuel; x ← LIST_FIRST h; foreach_safe_loop fuel LIST_NEXT body x acc.

(** The sequence of [h], every element with the word that leads to it. *)
Definition dl_rep (s : qmem) (h : loc) (l : list loc) : Prop :=
  chain (m_next s) (HeadFirst h) l None ∧ back (m_prev s) (HeadFirst h) l.

#[local] Instance dlist : Queue qmem := {
  q_init := LIST_INIT;
  q_op op h :=
    match op with
    | OInsertHead e => Some (LIST_INSERT_HEAD h e ;; mret AUnit)
    | OInsertAfter p e => Some (LIST_INSERT_AFTER p e ;; mret AUnit)
    | OInsertBefore p e => Some (LIST_INSERT_BEFORE p e ;; mret AUnit)
    | ORemove e => Some (LIST_REMOVE e ;; mret AUnit)
    | OEmpty => Some (b ← LIST_EMPTY h; mret (ABool b))
    | OFirst => Some (x ← LIST_FIRST h; mret (APtr x))
    | ONext e => Some (x ← LIST_NEXT e; mret (APtr x))
    | OForeach => Some (l ← LIST_FOREACH h visit []; mret (AList l))
    | OForeachSafe keep => Some (l ← LIST_FOREACH_SAFE h (sweep LIST_REMOVE keep) []; mret (AList l))
    | _ => None
    end;
  q_concat := None;
  q_swap := Some LIST_SWAP;
  q_rep := dl_rep;
  q_head_at s h := is_Some (m_next s !! HeadFirst h);
  q_elem_at s e := is_Some (m_next s !! EntryNext e) ∧ is_Some (m_prev s !! e);
  q_touch := w_touch;
}.

(** ** Previous words *)

(** The previous word of the first element of [l] becomes [a]. *)
Definition lead (l : list loc) (a : naddr) (p : gmap loc naddr) : gmap loc naddr :=
  match l with [] => p | y :: _ => <[y := a]> p end.

Lemma back_move p a a' l : NoDup l → back p a l → back (lead l a' p) a' l.
Proof.
  destruct l as [|y l]; simpl; [done|]. intros [Hy _]%NoDup_cons [_ Hb].
  rewrite lookup_insert_eq. split; [done|]. eapply back_ext, Hb.
  intros e He. rewrite lookup_insert_ne; [done|]. by intros ->.
Qed.

Lemma lead_other l a p x : x ∉ l → lead l a p !! x = p !! x.
Proof.
  destruct l as [|y l]; simpl; [done|]. intros Hx. rewrite lookup_insert_ne; [done|].
  intros ->. apply Hx. by left.
Qed.

Lemma back_insert p a l1 e l2 :
  NoDup (l1 ++ l2) → e ∉ l1 ++ l2 → back p a (l1 ++ l2) →
  back (<[e := last_addr a l1]> (lead l2 (EntryNext e) p)) a (l1 ++ e :: l2).
Proof.
  intros (_ & H12 & Hn2)%NoDup_app He [B1 B2]%back_app. apply back_app. simpl.
  rewrite lookup_insert_eq. split; [|split; [done|]].
  - eapply back_ext, B1. intros x Hx. rewrite lookup_insert_ne by (intros ->; set_solver).
    apply lead_other. auto.
  - eapply back_ext; [|by eapply back_move, B2].
    intros x Hx. rewrite lookup_insert_ne; [done|]. intros ->. set_solver.
Qed.

Lemma back_remove p a l1 e l2 :
  NoDup (l1 ++ e :: l2) → back p a (l1 ++ e :: l2) →
  back (lead l2 (last_addr a l1) p) a (l1 ++ l2).
Proof.
  intros (_ & H12 & [_ Hn2]%NoDup_cons)%NoDup_app [B1 [_ B2]]%back_app. apply back_app. split.
  - eapply back_ext, B1. intros x Hx. apply lead_other. intros ?. apply (H12 x); [done|by right].
  - by eapply back_move, B2.
Qed.

Lemma back_lookup p a l1 e l2 : back p a (l1 ++ e :: l2) → p !! e = Some (last_addr a l1).
Proof. by intros [_ [? _]]%back_app. Qed.

(** The insertion after a word, shared by INSERT_HEAD and INSERT_AFTER. *)
Definition dl_link (b : naddr) (e : loc) : M qmem () :=
  x ← word_at b; put_word (EntryNext e) x ;;
  when (bool_decide (x ≠ None)) (y ← word_at b; y ← deref y; put_prev y (EntryNext e)) ;;
  put_word b (Some e) ;;
  put_prev e b.

(** The step on the element that follows a word: its previous word becomes [a]. *)
Lemma dl_lead_ok (b a : naddr) l2 s Q :
  m_next s !! b = Some (head_or l2 None) → (∀ y, y ∈ l2 → is_Some (m_prev s !! y)) →
  Q () (QMem (m_next s) (m_last s) (lead l2 a (m_prev s))) →
  wp (when (bool_decide (head_or l2 None ≠ None)) (y ← word_at b; y ← deref y; put_prev y a)) Q s.
Proof.
  intros Hb Hp HQ. destruct l2 as [|y l2]; simpl in *.
  - apply wp_ret. by destruct s.
  - apply wp_bind. eapply word_at_ok; [done|]. apply wp_bind. eapply wp_deref; [done|].
    apply put_prev_ok; [|done]. apply Hp. by left.
Qed.

Lemma touch_lead l a s hs xs :
  (∀ y, y ∈ l → y ∈ xs) → w_touch hs xs s (QMem (m_next s) (m_last s) (lead l a (m_prev s))).
Proof.
  intros Hl. destruct l as [|y l]; simpl; [by destruct s|]. apply touch_prev, Hl. by left.
Qed.

Section ops.
Context (h : loc).

Lemma back_in l s : dl_rep s h l → ∀ y, y ∈ l → is_Some (m_prev s !! y).
Proof.
  intros [_ Hb] y Hy. apply list_elem_of_split in Hy as (k1 & k2 & ->).
  rewrite (back_lookup _ _ _ _ _ Hb). eauto.
Qed.

Lemma word_in l1 l2 s xs :
  (∀ x, x ∈ l1 → x ∈ xs) → dl_rep s h (l1 ++ l2) →
  in_addr [h] xs (last_addr (HeadFirst h) l1) ∧
  m_next s !! last_addr (HeadFirst h) l1 = Some (head_or l2 None).
Proof.
  intros Hxs [Hc _]. split; [|by eapply chain_next].
  pose proof (last_addr_in h l1) as Hi. destruct (last_addr _ _); simpl in *; auto.
Qed.

Lemma dl_link_ok l1 e l2 s :
  NoDup (l1 ++ l2) → e ∉ l1 ++ l2 → dl_rep s h (l1 ++ l2) →
  is_Some (m_next s !! EntryNext e) → is_Some (m_prev s !! e) →
  wp (dl_link (last_addr (HeadFirst h) l1) e)
    (λ _ s', dl_rep s' h (l1 ++ e :: l2) ∧ w_touch [h] (e :: l1 ++ l2) s s') s.
Proof.
  intros Hnd He Hr Hs Hp. pose proof (back_in _ _ Hr) as Hin.
  destruct (word_in l1 l2 s (e :: l1 ++ l2)) as [Hb Hw]; [set_solver|done|].
  unfold dl_link. set (b := last_addr (HeadFirst h) l1) in *.
  assert (EntryNext e ≠ b) as Hne.
  { intros E. pose proof (last_addr_in h l1) as Hi. fold b in Hi. rewrite <-E in Hi. simpl in Hi. set_solver. }
  apply wp_bind. eapply word_at_ok; [done|]. apply wp_bind, put_word_ok; [done|].
  apply wp_bind, dl_lead_ok; simpl.
  { by rewrite lookup_insert_ne. }
  { intros y Hy. apply Hin. set_solver. }
  apply wp_bind, put_word_ok; simpl.
  { apply lookup_insert_is_Some'. right. rewrite Hw. eauto. }
  apply put_prev_ok; simpl.
  { rewrite lead_other; [done|set_solver]. }
  split; [split; simpl|].
  - apply chain_insert; [done|done|apply Hr].
  - apply back_insert; [done|done|apply Hr].
  - etrans; [apply (touch_word s _ _ (EntryNext e)); by left|].
    etrans; [apply (touch_lead l2 (EntryNext e) (QMem _ _ _)); set_solver|].
    etrans; [apply (touch_word (QMem _ _ _) _ _ b); exact Hb|].
    apply (touch_prev (QMem _ _ _)). by left.
Qed.

Lemma dl_before_ok l1 e p l2 s :
  NoDup (l1 ++ p :: l2) → e ∉ l1 ++ p :: l2 → dl_rep s h (l1 ++ p :: l2) →
  is_Some (m_next s !! EntryNext e) → is_Some (m_prev s !! e) →
  wp (LIST_INSERT_BEFORE p e)
    (λ _ s', dl_rep s' h (l1 ++ e :: p :: l2) ∧ w_touch [h] (e :: l1 ++ p :: l2) s s') s.
Proof.
  intros Hnd He Hr Hs Hp. pose proof (back_lookup _ _ _ _ _ (proj2 Hr)) as Hpp.
  destruct (word_in l1 (p :: l2) s (e :: l1 ++ p :: l2)) as [Hb Hw]; [set_solver|done|].
  unfold LIST_INSERT_BEFORE. set (b := last_addr (HeadFirst h) l1) in *.
  assert (e ≠ p) as Hep by set_solver.
  apply wp_bind. eapply prev_at_ok; [done|]. apply wp_bind, put_prev_ok; [done|].
  apply wp_bind, put_word_ok; [done|]. apply wp_bind. eapply prev_at_ok; simpl.
  { by rewrite lookup_insert_ne. }
  apply wp_bind, put_word_ok; simpl.
  { apply lookup_insert_is_Some'. right. rewrite Hw. eauto. }
  apply put_prev_ok; simpl.
  { apply lookup_insert_is_Some'. right. eauto. }
  split; [split; simpl|].
  - apply (chain_insert (m_next s) h l1 e (p :: l2)); [done|done|apply Hr].
  - rewrite insert_insert_ne by done.
    apply (back_insert (m_prev s) (HeadFirst h) l1 e (p :: l2)); [done|done|apply Hr].
  - etrans; [apply (touch_prev s _ _ e); by left|].
    etrans; [apply (touch_word (QMem _ _ _) _ _ (EntryNext e)); by left|].
    etrans; [apply (touch_word (QMem _ _ _) _ _ b); exact Hb|].
    apply (touch_prev (QMem _ _ _)). set_solver.
Qed.

Lemma dl_remove_ok l1 e l2 s :
  NoDup (l1 ++ e :: l2) → dl_rep s h (l1 ++ e :: l2) →
  wp (LIST_REMOVE e)
    (λ _ s', dl_rep s' h (l1 ++ l2) ∧ w_touch [h] (l1 ++ e :: l2) s s') s.
Proof.
  intros Hnd Hr. pose proof (back_lookup _ _ _ _ _ (proj2 Hr)) as Hp.
  pose proof (chain_elem _ _ _ _ _ _ (proj1 Hr)) as Hn. pose proof (back_in _ _ Hr) as Hin.
  destruct (word_in l1 (e :: l2) s (l1 ++ e :: l2)) as [Hb Hw]; [set_solver|done|].
  unfold LIST_REMOVE. set (b := last_addr (HeadFirst h) l1) in *.
  assert (e ∉ l2) as Hel by (apply NoDup_app in Hnd as (_ & _ & [??]%NoDup_cons); done).
  apply wp_bind. eapply word_at_ok; [done|]. apply wp_bind.
  assert (wp (when (bool_decide (head_or l2 None ≠ None))
      (y ← LIST_NEXT e; y ← deref y; a ← prev_at e; put_prev y a))
    (λ _ s1, s1 = QMem (m_next s) (m_last s) (lead l2 b (m_prev s))) s) as Hlead.
  { destruct l2 as [|y l2]; simpl in *; [apply wp_ret; by destruct s|].
    apply wp_bind. eapply word_at_ok; [done|]. apply wp_bind. eapply wp_deref; [done|].
    apply wp_bind. eapply prev_at_ok; [done|]. apply put_prev_ok; [|done]. apply Hin. set_solver. }
  eapply wp_mono; [exact Hlead|]. intros [] ? ->.
  apply wp_bind. eapply prev_at_ok; simpl; [by rewrite lead_other|].
  apply wp_bind. eapply word_at_ok; simpl; [done|]. apply put_word_ok; simpl; [rewrite Hw; eauto|].
  split; [split; simpl|].
  - eapply chain_remove; [done|apply Hr].
  - eapply back_remove; [done|apply Hr].
  - etrans; [apply (touch_lead l2 b); set_solver|]. by apply (touch_word (QMem _ _ _)).
Qed.
End ops.

Section reads.
Context (h : loc).

Lemma dl_next_ok l1 x l2 s :
  dl_rep s h (l1 ++ x :: l2) → wp (LIST_NEXT x) (λ y s', y = head l2 ∧ s' = s) s.
Proof. intros [Hc _]. eapply word_at_ok; [by eapply chain_elem|]. by rewrite head_or_None. Qed.

Lemma dl_first_ok l s : dl_rep s h l → wp (LIST_FIRST h) (λ y s', y = head l ∧ s' = s) s.
Proof. intros [Hc _]. eapply word_at_ok; [by eapply chain_at|]. by rewrite head_or_None. Qed.

Lemma dl_foreach_ok l s :
  NoDup l → dl_rep s h l → wp (LIST_FOREACH h visit []) (λ acc s', acc = l ∧ s' = s) s.
Proof.
  intros Hn Hc. apply wp_bind, wp_get, wp_bind. eapply wp_mono; [by eapply dl_first_ok|].
  intros ? ? [-> ->]. eapply (visit_ok _ (λ l s, dl_rep s h l)); [apply dl_next_ok|done|].
  by eapply chain_length, Hc.
Qed.

Lemma dl_sweep_ok keep l s :
  NoDup l → dl_rep s h l → wp (LIST_FOREACH_SAFE h (sweep LIST_REMOVE keep) [])
    (λ acc s', acc = l ∧ dl_rep s' h (filter (λ x, keep x) l) ∧ w_touch [h] l s s') s.
Proof.
  intros Hn Hc. apply wp_bind, wp_get, wp_bind. eapply wp_mono; [by eapply dl_first_ok|].
  intros ? ? [-> ->].
  eapply (sweep_ok LIST_NEXT (λ l s, dl_rep s h l) dl_next_ok (w_touch [h] l));
    [|done|done|by eapply chain_length, Hc].
  intros l1 x l2 s1 Hin Hn1 Hc1. eapply wp_mono; [by apply (dl_remove_ok h)|].
  intros [] s2 [? Ht]. split; [done|]. eapply w_touch_mono; [exact Hin|exact Ht].
Qed.
End reads.

(** ** LIST keeps the promise *)

Lemma dl_op_ok s h l op m a l' :
  q_op op h = Some m → NoDup l → q_rep s h l → op_spec op l = Some (a, l') →
  (∀ e, new_elem op = Some e → e ∉ l ∧ q_elem_at s e) →
  wp m (λ b s', b = a ∧ q_rep s' h l' ∧ q_touch [h] (option_list (new_elem op) ++ l) s s') s.
Proof.
  intros Hm Hnd Hr Hop Hnew. cbn in Hr.
  destruct op; simplify_eq/=; split_op; cbn [option_list app] in *; apply wp_bind.
  - destruct (Hnew e eq_refl) as (? & ? & ?).
    eapply wp_mono; [by apply (dl_link_ok h [] e l)|]. intros [] s' [??]. done.
  - destruct (Hnew e eq_refl) as (He & ? & ?).
    pose proof (dl_link_ok h (l1 ++ [p]) e l2 s) as Hi. rewrite last_addr_app, <-!app_assoc in Hi.
    eapply wp_mono; [by apply Hi|]. intros [] s' [??]. done.
  - destruct (Hnew e eq_refl) as (? & ? & ?).
    eapply wp_mono; [by apply (dl_before_ok h l1 e p l2)|]. intros [] s' [??]. done.
  - eapply wp_mono; [by apply (dl_remove_ok h)|]. intros [] s' [??]. done.
  - apply wp_bind. eapply wp_mono; [by apply (dl_first_ok h l' s)|]. intros ? ? [-> ->].
    split; [by destruct l'|done].
  - eapply wp_mono; [by apply (dl_first_ok h l' s)|]. intros ? ? [-> ->]. done.
  - eapply wp_mono; [by eapply (dl_next_ok h l1)|]. intros ? ? [-> ->]. done.
  - eapply wp_mono; [by apply (dl_foreach_ok h l')|]. intros ? ? [-> ->]. done.
  - eapply wp_mono; [by apply (dl_sweep_ok h keep l)|]. intros ? ? (-> & ? & ?). done.
Qed.

Lemma dl_fix_ok h l s Q :
  m_next s !! HeadFirst h = Some (head_or l None) → (∀ y, y ∈ l → is_Some (m_prev s !! y)) →
  Q () (QMem (m_next s) (m_last s) (lead l (HeadFirst h) (m_prev s))) → wp (list_swap_fix h) Q s.
Proof.
  intros Hh Hl HQ. apply wp_bind. eapply word_at_ok; [done|].
  destruct l as [|y l]; simpl in *; [apply wp_ret; by destruct s|].
  apply put_prev_ok; [|done]. apply Hl. by left.
Qed.

Lemma dl_swap_ok h1 h2 l1 l2 s :
  h1 ≠ h2 → NoDup (l1 ++ l2) → dl_rep s h1 l1 → dl_rep s h2 l2 →
  wp (LIST_SWAP h1 h2) (λ _ s', dl_rep s' h1 l2 ∧ dl_rep s' h2 l1 ∧
    w_touch [h1; h2] (l1 ++ l2) s s') s.
Proof.
  intros Hne (Hn1 & H12 & Hn2)%NoDup_app R1 R2.
  assert (HeadFirst h2 ≠ HeadFirst h1) as Hf by (by intros [= ->]).
  pose proof (back_in _ _ _ R1) as I1. pose proof (back_in _ _ _ R2) as I2.
  destruct R1 as [C1 B1], R2 as [C2 B2].
  pose proof (chain_at _ _ _ _ C1) as F1. pose proof (chain_at _ _ _ _ C2) as F2.
  assert (∀ y, y ∈ l1 → y ∉ l2) as H21 by done.
  apply wp_bind. eapply word_at_ok; [exact F1|]. apply wp_bind. eapply word_at_ok; [exact F2|].
  apply wp_bind, put_word_ok; [eauto|].
  apply wp_bind, put_word_ok; [simpl; apply lookup_insert_is_Some'; eauto|]. simpl.
  apply wp_bind. apply (dl_fix_ok h1 l2); simpl.
  { by rewrite (lookup_insert_ne _ _ _ _ Hf), lookup_insert_eq. }
  { exact I2. }
  apply (dl_fix_ok h2 l1); simpl.
  { apply lookup_insert_eq. }
  { intros y Hy. rewrite lead_other by auto. auto. }
  split; [split; simpl|split; [split; simpl|]].
  - eapply (chain_move (m_next s)); [|by intros; rewrite !lookup_insert_ne|exact C2].
    by rewrite (lookup_insert_ne _ _ _ _ Hf), lookup_insert_eq.
  - eapply back_ext; [|by eapply back_move, B2]. intros e He. apply lead_other.
    intros ?. by apply (H12 e).
  - eapply (chain_move (m_next s)); [|by intros; rewrite !lookup_insert_ne|exact C1].
    by rewrite lookup_insert_eq.
  - apply (back_move _ (HeadFirst h1)); [done|]. eapply back_ext, B1.
    intros e He. apply lead_other. auto.
  - etrans; [apply (touch_word s _ _ (HeadFirst h1)); by left|].
    etrans; [apply (touch_word (QMem _ _ _) _ _ (HeadFirst h2)); right; by left|].
    etrans; [apply (touch_lead l2 (HeadFirst h1) (QMem _ _ _)); set_solver|].
    apply (touch_lead l1 (HeadFirst h2) (QMem _ _ _)). set_solver.
Qed.

#[local] Instance dlist_laws : QueueLaws qmem.
Proof.
  split.
  - intros s s' hs xs h l Ht Hh Hl [Hc Hb]. split; [by apply (chain_touch hs xs s)|].
    eapply back_ext, Hb. intros e He. apply (t_prev _ _ _ _ Ht). auto.
  - intros s s' hs xs h Ht. apply Ht.
  - intros s s' hs xs e Ht [??]. split; by apply Ht.
  - intros s h Hh. apply put_word_ok; [done|]. split; [split; simpl; [by rewrite lookup_insert_eq|done]|].
    apply touch_word. by left.
  - apply dl_op_ok.
  - done.
  - intros s f h1 h2 l1 l2 [= <-]. apply dl_swap_ok.
Qed.

(** A script for the witness: insertions on both sides, a removal without the
    head and a swap. *)
Definition dlist_script : list qcmd :=
  [QInit 1; QInit 2; QOn 1 (OInsertHead 12); QOn 1 (OInsertBefore 12 11); QOn 1 (OInsertAfter 12 14);
   QOn 1 (OInsertBefore 14 13); QOn 1 OForeach; QOn 1 (ORemove 12); QSwap 1 2;
   QOn 2 (OForeachSafe (λ x, bool_decide (x ≠ 13%positive))); QOn 2 (ONext 11); QOn 2 OFirst;
   QOn 1 OEmpty; QOn 1 (OInsertHead 13); QOn 1 OForeach]%positive.

(** C32: LIST implements sequences: any script of its macros over any number of
    heads runs to its end, gives the answers the sequences give, and leaves
    every head with its sequence and every element with the word that leads to
    it, so that it can be removed without its head. *)
Theorem list_refines cs s A m r A' :
  q_holds (H := dlist) s A → q_script (H := dlist) cs = Some m → script_spec cs A = Some (r, A') →
  ∃ s', m s = Ok r s' ∧ q_holds (H := dlist) s' A'.
Proof. apply script_ok. Qed.

Lemma list_refines_witness :
  let r := [AUnit; AUnit; AUnit; AUnit; AUnit; AUnit; AList [11; 12; 13; 14]; AUnit; AUnit;
            AList [11; 13; 14]; APtr (Some 14); APtr (Some 11); ABool true; AUnit; AList [13]]%positive in
  ∃ m A', q_script dlist_script = Some m ∧
    script_spec dlist_script (raw_state [1; 2] [11; 12; 13; 14])%positive = Some (r, A') ∧
    ∃ s', m (raw_mem [1; 2] [11; 12; 13; 14])%positive = Ok r s' ∧ q_holds s' A'.
Proof.
  cbv zeta. eexists _, _. split; [reflexivity|]. split; [vm_compute; reflexivity|].
  eapply (list_refines dlist_script _ (raw_state [1; 2] [11; 12; 13; 14])%positive);
    [|reflexivity|vm_compute; reflexivity].
  split; [apply raw_wf|apply raw_head| |done].
  intros e He. split; [by apply raw_elem|by apply raw_prev].
Defined.
