(* ===== verification/TailqAll.v ===== *)
(** * TAILQ of [src/util/queue.h], the whole family

    The macros of [Tailq] that the runtime does not use are proved here, those it
    has not are added, and the family is shown to keep the promise of [Queues]. *)
From stdpp Require Import base tactics list gmap.
From Stdlib Require Import Lia.
From S2P Require Import Prelude Tailq Queues.

Definition TAILQ_INSERT_AFTER (h listelm elm : loc) : M tq_store () :=
  x ← TAILQ_NEXT listelm;
  store_next (EntryNext elm) x ;;
  match x with
  | Some f => set_prev f (EntryNext elm)
  | None => set_last h (EntryNext elm)
  end ;;
  store_next (EntryNext listelm) (Some elm) ;;
  set_prev elm (EntryNext listelm).

Definition TAILQ_INSERT_BEFORE (listelm elm : loc) : M tq_store () :=
  a ← load_last (EntryNext listelm);
  set_prev elm a ;;
  store_next (EntryNext elm) (Some listelm) ;;
  a ← load_last (EntryNext listelm);
  store_next a (Some elm) ;;
  set_prev listelm (EntryNext elm).

(** The two tests at the end of SWAP. *)
Definition tailq_swap_fix (h : loc) : M tq_store () :=
  x ← TAILQ_FIRST h;
  match x with
  | Some f => set_prev f (HeadFirst h)
  | None => set_last h (HeadFirst h)
  end.

Definition TAILQ_SWAP (h1 h2 : loc) : M tq_store () :=
  swap_first ← TAILQ_FIRST h1;
  swap_last ← load_last (HeadFirst h1);
  x ← TAILQ_FIRST h2; store_next (HeadFirst h1) x ;;
  a ← load_last (HeadFirst h2); set_last h1 a ;;
  store_next (HeadFirst h2) swap_first ;;
  set_last h2 swap_last ;;
  tailq_swap_fix h1 ;;
  tailq_swap_fix h2.

Definition TAILQ_FOREACH_SAFE {A} (fuel : nat) (h : loc)
    (body : loc → A → M tq_store A) (acc : A) : M tq_store A :=
  x ← TAILQ_FIRST h; foreach_safe_loop fuel TAILQ_NEXT body x acc.

Definition TAILQ_FOREACH_REVERSE_SAFE {A} (fuel : nat) (h : loc)
    (body : loc → A → M tq_store A) (acc : A) : M tq_store A :=
  x ← TAILQ_LAST h; foreach_safe_loop fuel TAILQ_PREV body x acc.

(** Turns of a loop: a queue is no longer than the entries there are. *)
Definition tq_fuel : M tq_store nat := get (λ s, S (size (tq_entries s))).

(** [s'] differs from [s] at most in the heads [hs] and the entries [xs]. *)
Record tq_frame (hs xs : list loc) (s s' : tq_store) : Prop := {
  f_heads h : h ∉ hs → tq_heads s' !! h = tq_heads s !! h;
  f_entries e : e ∉ xs → tq_entries s' !! e = tq_entries s !! e;
  f_dom : dom (tq_entries s') = dom (tq_entries s);
}.

#[local] Instance tailq : Queue tq_store := {
  q_init := TAILQ_INIT;
  q_op op h :=
    match op with
    | OInsertHead e => Some (TAILQ_INSERT_HEAD h e ;; mret AUnit)
    | OInsertTail e => Some (TAILQ_INSERT_TAIL h e ;; mret AUnit)
    | OInsertAfter p e => Some (TAILQ_INSERT_AFTER h p e ;; mret AUnit)
    | OInsertBefore p e => Some (TAILQ_INSERT_BEFORE p e ;; mret AUnit)
    | ORemove e => Some (TAILQ_REMOVE h e ;; mret AUnit)
    | OEmpty => Some (b ← TAILQ_EMPTY h; mret (ABool b))
    | OFirst => Some (x ← TAILQ_FIRST h; mret (APtr x))
    | ONext e => Some (x ← TAILQ_NEXT e; mret (APtr x))
    | OLast => Some (x ← TAILQ_LAST h; mret (APtr x))
    | OPrev e => Some (x ← TAILQ_PREV e; mret (APtr x))
    | OForeach => Some (fuel ← tq_fuel; l ← TAILQ_FOREACH fuel h visit []; mret (AList l))
    | OForeachReverse =>
      Some (fuel ← tq_fuel; l ← TAILQ_FOREACH_REVERSE fuel h visit []; mret (AList l))
    | OForeachSafe keep =>
      Some (fuel ← tq_fuel; l ← TAILQ_FOREACH_SAFE fuel h (sweep (TAILQ_REMOVE h) keep) []; mret (AList l))
    | OForeachReverseSafe keep =>
      Some (fuel ← tq_fuel; l ← TAILQ_FOREACH_REVERSE_SAFE fuel h (sweep (TAILQ_REMOVE h) keep) [];
            mret (AList l))
    | _ => None
    end;
  q_concat := Some TAILQ_CONCAT;
  q_swap := Some TAILQ_SWAP;
  q_rep := tq_rep;
  q_head_at _ _ := True;
  q_elem_at s e := is_Some (tq_entries s !! e);
  q_touch := tq_frame;
}.

(** ** Frames *)

#[export] Instance tq_frame_refl hs xs : Reflexive (tq_frame hs xs).
Proof. by split. Qed.

#[export] Instance tq_frame_trans hs xs : Transitive (tq_frame hs xs).
Proof.
  intros s1 s2 s3 F1 F2. split; intros.
  - by rewrite (f_heads _ _ _ _ F2), (f_heads _ _ _ _ F1).
  - by rewrite (f_entries _ _ _ _ F2), (f_entries _ _ _ _ F1).
  - by rewrite (f_dom _ _ _ _ F2), (f_dom _ _ _ _ F1).
Qed.

Lemma frame_touch h xs hs ys s s' :
  tq_touch h xs s s' → h ∈ hs → (∀ x, x ∈ xs → x ∈ ys) → tq_frame hs ys s s'.
Proof.
  intros (Hh & He & Hd) Hin Hsub. split; [|auto|done]. intros h' Hh'. apply Hh. by intros ->.
Qed.

Lemma frame_mono hs xs ys s s' :
  (∀ x, x ∈ xs → x ∈ ys) → tq_frame hs xs s s' → tq_frame hs ys s s'.
Proof. intros Hsub [Hh He Hd]. split; auto. Qed.

Lemma frame_entry hs xs s e v :
  e ∈ xs → is_Some (tq_entries s !! e) →
  tq_frame hs xs s (TqStore (tq_heads s) (<[e := v]> (tq_entries s))).
Proof.
  intros Hin Hs. split; simpl; [done| |by rewrite dom_insert_lookup_L].
  intros e' He'. rewrite lookup_insert_ne; [done|]. by intros ->.
Qed.

Lemma frame_head hs xs s h v :
  h ∈ hs → tq_frame hs xs s (TqStore (<[h := v]> (tq_heads s)) (tq_entries s)).
Proof.
  intros Hin. split; simpl; [|done|done].
  intros h' Hh'. rewrite lookup_insert_ne; [done|]. by intros ->.
Qed.

Lemma tq_length s h l : tq_rep s h l → length l < S (size (tq_entries s)).
Proof.
  intros (Hn & _ & Hs). enough (length l ≤ size (tq_entries s)) by lia.
  rewrite <-size_dom, <-(size_list_to_set (C := gset loc) l) by done.
  apply subseteq_size. intros e He%elem_of_list_to_set.
  apply list_elem_of_split in He as (l1 & l2 & ->). apply elem_of_dom.
  rewrite (tq_seg_lookup _ _ _ _ _ _ Hs). eauto.
Qed.

(** ** Insertions *)

(** The insertion after a next field, shared by INSERT_HEAD and INSERT_AFTER. *)
Definition tq_link (h : loc) (b : naddr) (e : loc) : M tq_store () :=
  x ← load_next b;
  store_next (EntryNext e) x ;;
  relead h x (EntryNext e) ;;
  store_next b (Some e) ;;
  set_prev e b.

Lemma tq_link_ok s h l1 e l2 v :
  tq_rep s h (l1 ++ l2) → e ∉ l1 ++ l2 → tq_entries s !! e = Some v →
  wp (tq_link h (last_addr (HeadFirst h) l1) e)
    (λ _ s', tq_rep s' h (l1 ++ e :: l2) ∧ tq_touch h (e :: l1 ++ l2) s s') s.
Proof.
  intros Hrep He Hv. unfold tq_link. set (b := last_addr (HeadFirst h) l1).
  apply wp_bind. eapply load_next_at; [exact Hrep|]. rewrite <-head_or_None.
  destruct Hrep as [Hnd Ho]. pose proof (proj1 (NoDup_app _ _) Hnd) as (Hn1 & H12 & Hn2).
  apply wp_bind. eapply store_entry_ok; [exact Hv|]. set (s1 := TqStore _ _).
  assert (tq_touch h (e :: l1 ++ l2) s s1) as T1 by (apply tq_touch_entry; [by left|eauto]).
  eapply tq_open_insert in Ho as [Hh1 Hs1]; [|exact He].
  rewrite head_or_app, last_addr_app in Hh1. apply tq_seg_app in Hs1 as [Ha Hb].
  apply wp_bind. eapply wp_mono.
  { by apply (relead_ok s1 h l1 (head_or l2 None) l2 b (EntryNext e)). }
  intros [] s2 (Ho2 & Hs2 & E2 & T2). apply wp_bind.
  eapply wp_mono; [by eapply store_end_ok|]. intros [] s3 [[Hh3 Hs3] T3].
  assert (tq_entries s3 !! e = Some (TqEntry (head_or l2 None) (tqe_prev v))) as He3.
  { destruct T3 as (_ & -> & _); [|set_solver]. rewrite E2 by set_solver.
    unfold s1. simpl. by rewrite lookup_insert_eq. }
  eapply set_prev_ok; [exact He3|]. simpl. split.
  - split; [|split]; simpl.
    + rewrite <-Permutation_middle. by apply NoDup_cons.
    + by rewrite Hh3, head_or_app, last_addr_app, last_addr_cons.
    + apply tq_seg_app. simpl. rewrite lookup_insert_eq.
      split; [apply tq_seg_insert; [set_solver|done]|]. split; [done|].
      apply tq_seg_insert; [set_solver|]. eapply tq_seg_ext; [|exact Hs2].
      intros x Hx. destruct T3 as (_ & -> & _); [done|]. intros ?. by apply (H12 x).
  - eapply tq_touch_trans; [exact T1|]. eapply tq_touch_trans; [eapply tq_touch_mono, T2; set_solver|].
    eapply tq_touch_trans; [eapply tq_touch_mono, T3; set_solver|].
    apply tq_touch_entry; [by left|eauto].
Qed.

Lemma tq_before_ok s h l1 p l2 e v :
  tq_rep s h (l1 ++ p :: l2) → e ∉ l1 ++ p :: l2 → tq_entries s !! e = Some v →
  wp (TAILQ_INSERT_BEFORE p e)
    (λ _ s', tq_rep s' h (l1 ++ e :: p :: l2) ∧ tq_touch h (e :: l1 ++ p :: l2) s s') s.
Proof.
  intros [Hnd Ho] He Hv. pose proof (tq_seg_lookup _ _ _ _ _ _ (proj2 Ho)) as Hp.
  pose proof (proj1 (NoDup_app _ _) Hnd) as (Hn1 & H12 & [Hp2 Hn2]%NoDup_cons).
  assert (p ∉ l1) as Hp1 by (intros ?; apply (H12 p); [done|by left]).
  assert (p ≠ e) as Hpe by set_solver.
  unfold TAILQ_INSERT_BEFORE. set (a := last_addr (HeadFirst h) l1) in *.
  apply wp_bind. eapply load_prev_ok; [exact Hp|]. apply wp_bind. eapply set_prev_ok; [exact Hv|].
  apply wp_bind. eapply store_entry_ok; [apply lookup_insert_eq|]. simpl. rewrite insert_insert_eq.
  set (s1 := TqStore _ _).
  assert (tq_touch h (e :: l1 ++ p :: l2) s s1) as T1 by (apply tq_touch_entry; [by left|eauto]).
  eapply tq_open_insert in Ho as [Hh1 Hs1]; [|exact He]. simpl in Hs1.
  apply wp_bind. eapply load_prev_ok; [unfold s1; simpl; by rewrite lookup_insert_ne|]. simpl.
  apply tq_seg_app in Hs1 as [Ha [_ Hb]]. rewrite head_or_app in Hh1.
  apply wp_bind. eapply wp_mono; [by eapply (store_end_ok s1 h l1 (Some p))|].
  intros [] s3 [[Hh3 Hs3] T3]. pose proof T3 as (_ & E3 & _).
  eapply set_prev_ok.
  { rewrite E3 by done. unfold s1. simpl. by rewrite lookup_insert_ne. }
  simpl. split.
  - split; [|split]; simpl.
    + rewrite <-Permutation_middle. by apply NoDup_cons.
    + rewrite Hh3, head_or_app, !last_addr_app, !last_addr_cons. done.
    + apply tq_seg_app. simpl. rewrite lookup_insert_eq, lookup_insert_ne by done.
      rewrite E3 by set_solver. unfold s1. simpl. rewrite lookup_insert_eq.
      split; [by apply tq_seg_insert|]. split; [done|]. split; [done|].
      apply tq_seg_insert; [done|]. eapply tq_seg_ext; [|exact Hb].
      intros x Hx. apply E3. intros ?. apply (H12 x); [done|by right].
  - eapply tq_touch_trans; [exact T1|]. eapply tq_touch_trans; [eapply tq_touch_mono, T3; set_solver|].
    apply tq_touch_entry; [set_solver|]. rewrite E3 by done. unfold s1. simpl.
    rewrite lookup_insert_ne by done. eauto.
Qed.

(** ** Two queues *)
Section heads.
Context (s : tq_store) (h : loc) (v : tq_head) (Hv : tq_heads s !! h = Some v).

Lemma load_head_ok Q : Q (tqh_first v) s → wp (TAILQ_FIRST h) Q s.
Proof. intros HQ. unfold wp, TAILQ_FIRST, load_next, head_of, mbind, M_bind, get. by rewrite Hv. Qed.

Lemma load_hlast_ok Q : Q (tqh_last v) s → wp (load_last (HeadFirst h)) Q s.
Proof. intros HQ. unfold wp, load_last, head_of, mbind, M_bind, get. by rewrite Hv. Qed.

Lemma store_head_ok x Q :
  Q () (TqStore (<[h := TqHead x (tqh_last v)]> (tq_heads s)) (tq_entries s)) →
  wp (store_next (HeadFirst h) x) Q s.
Proof. intros HQ. unfold wp, store_next, head_of, mbind, M_bind, get. by rewrite Hv. Qed.

Lemma set_hlast_ok a Q :
  Q () (TqStore (<[h := TqHead (tqh_first v) a]> (tq_heads s)) (tq_entries s)) →
  wp (set_last h a) Q s.
Proof. intros HQ. unfold wp, set_last, head_of, mbind, M_bind, get. by rewrite Hv. Qed.
End heads.

(** A head that got the chain of [h], before and after the test of SWAP. *)
Lemma tq_move es s' h h' l :
  NoDup l → tq_seg es (HeadFirst h) l None →
  tq_heads s' !! h' = Some (TqHead (head l) (last_addr (HeadFirst h) l)) →
  (∀ e, e ∈ l → tq_entries s' !! e = es !! e) →
  wp (tailq_swap_fix h') (λ _ s2, tq_rep s2 h' l ∧ tq_touch h' l s' s2) s'.
Proof.
  intros Hn Hs Hh He. apply wp_bind. eapply load_head_ok; [done|]. simpl.
  rewrite <-head_or_None. eapply wp_mono.
  { apply (relead_ok s' h' [] (head l) l (HeadFirst h) (HeadFirst h')); [done|by split|].
    by eapply tq_seg_ext. }
  intros [] s2 ([Hh2 _] & Hs2 & _ & T). split; [|done]. split; [done|]. split; [|done].
  by rewrite Hh2, head_or_None.
Qed.

Lemma tq_swap_ok s h1 h2 l1 l2 :
  h1 ≠ h2 → NoDup (l1 ++ l2) → tq_rep s h1 l1 → tq_rep s h2 l2 →
  wp (TAILQ_SWAP h1 h2) (λ _ s', tq_rep s' h1 l2 ∧ tq_rep s' h2 l1 ∧
    tq_frame [h1; h2] (l1 ++ l2) s s') s.
Proof.
  intros Hne (_ & H12 & _)%NoDup_app (N1 & Ho1 & S1) (N2 & Ho2 & S2).
  rewrite head_or_None in Ho1, Ho2. unfold TAILQ_SWAP.
  apply wp_bind. eapply load_head_ok; [exact Ho1|]. apply wp_bind. eapply load_hlast_ok; [exact Ho1|].
  apply wp_bind. eapply load_head_ok; [exact Ho2|]. apply wp_bind. eapply store_head_ok; [exact Ho1|].
  apply wp_bind. eapply load_hlast_ok; [simpl; by rewrite lookup_insert_ne|].
  apply wp_bind. eapply set_hlast_ok; [simpl; apply lookup_insert_eq|]. simpl. rewrite insert_insert_eq.
  apply wp_bind. eapply store_head_ok; [simpl; by rewrite lookup_insert_ne|].
  apply wp_bind. eapply set_hlast_ok; [simpl; apply lookup_insert_eq|]. simpl. rewrite insert_insert_eq.
  set (s1 := TqStore _ _).
  assert (tq_frame [h1; h2] (l1 ++ l2) s s1) as F1.
  { etrans; [apply (frame_head _ _ s h1); by left|]. apply (frame_head _ _ (TqStore _ _) h2).
    right. by left. }
  apply wp_bind. eapply wp_mono.
  { apply (tq_move (tq_entries s) s1 h2 h1 l2); [done|done| |done].
    simpl. by rewrite lookup_insert_ne, lookup_insert_eq. }
  intros [] s2 (R2 & T2). pose proof T2 as (Hh2 & He2 & _).
  eapply wp_mono.
  { apply (tq_move (tq_entries s) s2 h1 h2 l1); [done|done| |].
    - rewrite Hh2 by done. simpl. by rewrite lookup_insert_eq.
    - intros e He. rewrite He2 by auto. done. }
  intros [] s3 (R3 & T3). split; [|split; [done|]].
  - eapply tq_rep_touch; [exact T3|done| |exact R2]. intros e He ?. by apply (H12 e).
  - etrans; [exact F1|]. etrans; eapply frame_touch; [exact T2|by left|set_solver|exact T3|right; by left|set_solver].
Qed.

Lemma tq_concat_ok s h1 h2 l1 l2 :
  h1 ≠ h2 → NoDup (l1 ++ l2) → tq_rep s h1 l1 → tq_rep s h2 l2 →
  wp (TAILQ_CONCAT h1 h2) (λ _ s', tq_rep s' h1 (l1 ++ l2) ∧ tq_rep s' h2 [] ∧
    tq_frame [h1; h2] (l1 ++ l2) s s') s.
Proof.
  intros Hne Hnd (N1 & Ho1) (N2 & Ho2 & S2). pose proof (proj1 (NoDup_app _ _) Hnd) as (_ & H12 & _).
  unfold TAILQ_CONCAT. apply wp_bind, wp_bind. eapply load_head_ok; [exact Ho2|]. apply wp_ret.
  destruct l2 as [|y l2]; simpl.
  { apply wp_ret. rewrite app_nil_r. split; [by split|]. split; [by split|done]. }
  destruct S2 as [Hy S2]. apply wp_bind. eapply load_hlast_ok; [apply Ho1|].
  apply wp_bind. eapply load_head_ok; [exact Ho2|]. simpl.
  apply wp_bind. eapply wp_mono; [by apply (store_end_ok s h1 l1 None (Some y))|].
  intros [] s1 [[Hh1 Hs1] T1]. pose proof T1 as (Hh & He & _).
  apply wp_bind, wp_bind. eapply load_head_ok; [rewrite Hh by done; exact Ho2|]. simpl.
  eapply wp_deref; [done|]. apply wp_bind. eapply load_hlast_ok; [exact Hh1|].
  assert (∀ x, x ∈ y :: l2 → x ∉ l1) as H21 by (intros x Hx ?; by apply (H12 x)).
  assert (tq_entries s1 !! y = tq_entries s !! y) as Hy1 by (apply He, H21; by left).
  apply wp_bind. eapply set_prev_ok; [by rewrite Hy1|]. simpl.
  apply wp_bind. eapply load_hlast_ok; [simpl; rewrite Hh by done; exact Ho2|].
  apply wp_bind. eapply set_hlast_ok; [exact Hh1|]. simpl. apply wp_modify. simpl.
  apply NoDup_cons in N2 as [Hy2 N2].
  split; [|split].
  - split; [done|]. split; simpl.
    + rewrite lookup_insert_ne, lookup_insert_eq by done.
      by rewrite head_or_app, last_addr_app, !last_addr_cons.
    + apply tq_seg_app. simpl. rewrite lookup_insert_eq.
      split; [apply tq_seg_insert; [apply H21; by left|done]|]. split; [done|].
      apply tq_seg_insert; [done|]. eapply tq_seg_ext; [|exact S2].
      intros x Hx. apply He, H21. by right.
  - split; [constructor|]. split; simpl; [by rewrite lookup_insert_eq|done].
  - etrans; [eapply frame_touch; [exact T1|by left|set_solver]|].
    etrans; [apply (frame_entry _ _ s1 y); [set_solver|rewrite Hy1; eauto]|].
    etrans; [apply (frame_head _ _ (TqStore _ _) h1); by left|].
    apply (frame_head _ _ (TqStore _ _) h2). right. by left.
Qed.

(** ** TAILQ keeps the promise *)
Section loops.
Context (h : loc).

Lemma tq_remove_frame l l1 x l2 s :
  (∀ y, y ∈ l1 ++ x :: l2 → y ∈ l) → tq_rep s h (l1 ++ x :: l2) →
  wp (TAILQ_REMOVE h x) (λ _ s', tq_rep s' h (l1 ++ l2) ∧ tq_frame [h] l s s') s.
Proof.
  intros Hin Hr. eapply wp_mono; [by apply tailq_remove_ok|]. intros [] s2 [? T].
  split; [done|]. eapply frame_touch; [exact T|by left|]. intros y Hy. apply Hin. set_solver.
Qed.

Lemma next_step l1 x l2 s :
  tq_rep s h (l1 ++ x :: l2) → wp (TAILQ_NEXT x) (λ y s', y = head l2 ∧ s' = s) s.
Proof. apply tailq_next_ok. Qed.

Lemma prev_step l1 x l2 s :
  tq_rep s h (reverse (l1 ++ x :: l2)) → wp (TAILQ_PREV x) (λ y s', y = head l2 ∧ s' = s) s.
Proof.
  rewrite reverse_app, reverse_cons, <-app_assoc. intros Hr. rewrite <-last_reverse.
  by eapply tailq_prev_ok.
Qed.

Lemma tq_visit_ok l fuel s :
  tq_rep s h l → length l < fuel →
  wp (TAILQ_FOREACH fuel h visit []) (λ acc s', acc = l ∧ s' = s) s.
Proof.
  intros Hr Hf. apply wp_bind. eapply wp_mono; [by eapply tailq_first_ok|]. intros ? ? [-> ->].
  by apply (visit_ok _ (λ l s, tq_rep s h l) next_step).
Qed.

Lemma tq_visit_reverse_ok l fuel s :
  tq_rep s h l → length l < fuel →
  wp (TAILQ_FOREACH_REVERSE fuel h visit []) (λ acc s', acc = reverse l ∧ s' = s) s.
Proof.
  intros Hr Hf. apply wp_bind. eapply wp_mono; [by eapply tailq_last_ok|]. intros ? ? [-> ->].
  rewrite <-head_reverse. apply (visit_ok _ (λ l s, tq_rep s h (reverse l)) prev_step).
  - by rewrite reverse_involutive.
  - by rewrite length_reverse.
Qed.

Context (keep : loc → bool).

Lemma tq_sweep_ok l fuel s :
  tq_rep s h l → length l < fuel →
  wp (TAILQ_FOREACH_SAFE fuel h (sweep (TAILQ_REMOVE h) keep) [])
    (λ acc s', acc = l ∧ tq_rep s' h (filter (λ x, keep x) l) ∧ tq_frame [h] l s s') s.
Proof.
  intros Hr Hf. apply wp_bind. eapply wp_mono; [by eapply tailq_first_ok|]. intros ? ? [-> ->].
  apply (sweep_ok _ (λ l s, tq_rep s h l) next_step (tq_frame [h] l)); [|apply Hr|done|done].
  intros. by apply tq_remove_frame.
Qed.

Lemma tq_sweep_reverse_ok l fuel s :
  tq_rep s h l → length l < fuel →
  wp (TAILQ_FOREACH_REVERSE_SAFE fuel h (sweep (TAILQ_REMOVE h) keep) [])
    (λ acc s', acc = reverse l ∧ tq_rep s' h (filter (λ x, keep x) l) ∧ tq_frame [h] l s s') s.
Proof.
  intros Hr Hf. apply wp_bind. eapply wp_mono; [by eapply tailq_last_ok|]. intros ? ? [-> ->].
  rewrite <-head_reverse. eapply wp_mono.
  { apply (sweep_ok _ (λ l s, tq_rep s h (reverse l)) prev_step (tq_frame [h] l) (TAILQ_REMOVE h) keep
      (reverse l)).
    - intros l1 x l2 s1 Hin _. rewrite !reverse_app, reverse_cons, <-app_assoc.
      apply tq_remove_frame. intros y Hy. apply elem_of_reverse, Hin. revert Hy.
      rewrite !elem_of_app, !elem_of_reverse, !elem_of_cons. set_solver.
    - rewrite reverse_Permutation. apply Hr.
    - by rewrite reverse_involutive.
    - by rewrite length_reverse. }
  intros acc s' (-> & Hr' & HF). split; [done|]. split; [|done].
  by rewrite filter_reverse, reverse_involutive in Hr'.
Qed.
End loops.

Lemma tq_op_ok s h l op m a l' :
  q_op op h = Some m → NoDup l → q_rep s h l → op_spec op l = Some (a, l') →
  (∀ e, new_elem op = Some e → e ∉ l ∧ q_elem_at s e) →
  wp m (λ b s', b = a ∧ q_rep s' h l' ∧ q_touch [h] (option_list (new_elem op) ++ l) s s') s.
Proof.
  intros Hm Hnd Hr Hop Hnew. cbn in Hr. pose proof (tq_length _ _ _ Hr) as Hf.
  destruct op; simplify_eq/=; split_op; cbn [option_list app] in *; apply wp_bind.
  - destruct (Hnew e eq_refl) as [He [v Hv]].
    eapply wp_mono; [by apply (tq_link_ok s h [] e l v)|]. intros [] s' [? T].
    split; [done|]. split; [done|]. eapply frame_touch; [exact T|by left|done].
  - destruct (Hnew e eq_refl).
    eapply wp_mono; [by apply (tailq_insert_tail_ok s h l e)|]. intros [] s' [? T].
    split; [done|]. split; [done|]. eapply frame_touch; [exact T|by left|done].
  - destruct (Hnew e eq_refl) as [He [v Hv]].
    pose proof (tq_link_ok s h (l1 ++ [p]) e l2 v) as Hi. rewrite last_addr_app, <-!app_assoc in Hi.
    eapply wp_mono; [by apply Hi|]. intros [] s' [? T].
    split; [done|]. split; [done|]. eapply frame_touch; [exact T|by left|done].
  - destruct (Hnew e eq_refl) as [He [v Hv]].
    eapply wp_mono; [by apply (tq_before_ok s h l1 p l2 e v)|]. intros [] s' [? T].
    split; [done|]. split; [done|]. eapply frame_touch; [exact T|by left|done].
  - eapply wp_mono; [eapply (tq_remove_frame h (l1 ++ e :: l2)); [done|exact Hr]|]. intros [] s' [??]. done.
  - apply wp_bind. eapply wp_mono; [by apply tailq_first_ok|]. intros ? ? [-> ->].
    split; [by destruct l'|done].
  - eapply wp_mono; [by apply tailq_first_ok|]. intros ? ? [-> ->]. done.
  - eapply wp_mono; [by eapply next_step|]. intros ? ? [-> ->]. done.
  - eapply wp_mono; [by apply tailq_last_ok|]. intros ? ? [-> ->]. done.
  - eapply wp_mono; [by eapply tailq_prev_ok|]. intros ? ? [-> ->]. done.
  - apply wp_get, wp_bind. eapply wp_mono; [by apply tq_visit_ok|]. intros ? ? [-> ->]. done.
  - apply wp_get, wp_bind. eapply wp_mono; [by apply tq_visit_reverse_ok|]. intros ? ? [-> ->]. done.
  - apply wp_get, wp_bind. eapply wp_mono; [by apply tq_sweep_ok|]. intros ? ? (-> & ? & ?). done.
  - apply wp_get, wp_bind. eapply wp_mono; [by apply tq_sweep_reverse_ok|]. intros ? ? (-> & ? & ?). done.
Qed.

#[local] Instance tailq_laws : QueueLaws tq_store.
Proof.
  split.
  - intros s s' hs xs h l F Hh Hl (Hn & Ho & Hs). split; [done|]. split.
    + by rewrite (f_heads _ _ _ _ F).
    + eapply tq_seg_ext; [|exact Hs]. intros e He. apply (f_entries _ _ _ _ F). auto.
  - done.
  - intros s s' hs xs e F. simpl. by rewrite <-!elem_of_dom, (f_dom _ _ _ _ F).
  - intros s h _. eapply wp_mono; [apply tailq_init_ok|]. intros [] s' [? T].
    split; [done|]. eapply frame_touch; [exact T|by left|done].
  - apply tq_op_ok.
  - intros s f h1 h2 l1 l2 [= <-]. apply tq_concat_ok.
  - intros s f h1 h2 l1 l2 [= <-]. apply tq_swap_ok.
Qed.

(** A script for the witness: every kind of insertion, loops in both directions
    that remove elements, a concatenation and a swap. *)
Definition tailq_script : list qcmd :=
  [QInit 1; QInit 2; QOn 1 (OInsertTail 12); QOn 1 (OInsertBefore 12 11); QOn 1 (OInsertAfter 12 13);
   QOn 2 (OInsertHead 21); QConcat 1 2; QOn 1 OForeachReverse; QOn 1 (OPrev 21); QOn 2 OEmpty;
   QSwap 1 2; QOn 2 (OForeachReverseSafe (λ x, bool_decide (x ≠ 12%positive)));
   QOn 2 (OForeachSafe (λ x, bool_decide (x ≠ 11%positive))); QOn 2 (ORemove 13);
   QOn 2 OLast; QOn 1 OFirst]%positive.

(** C30: TAILQ implements sequences: any script of its macros over any number of
    heads, concatenations, swaps and loops that remove elements in either
    direction included, runs to its end, gives the answers the sequences give,
    and leaves every head with its sequence. *)
Theorem tailq_refines cs s A m r A' :
  q_holds (H := tailq) s A → q_script (H := tailq) cs = Some m → script_spec cs A = Some (r, A') →
  ∃ s', m s = Ok r s' ∧ q_holds (H := tailq) s' A'.
Proof. apply script_ok. Qed.

Lemma tailq_refines_witness :
  let r := [AUnit; AUnit; AUnit; AUnit; AUnit; AUnit; AUnit; AList [21; 13; 12; 11]; APtr (Some 13);
            ABool true; AUnit; AList [21; 13; 12; 11]; AList [11; 13; 21]; AUnit;
            APtr (Some 21); APtr None]%positive in
  ∃ m A', q_script tailq_script = Some m ∧
    script_spec tailq_script (QState {[1; 2]} {[11; 12; 13; 21]} ∅)%positive = Some (r, A') ∧
    ∃ s', m (tq_blank [11; 12; 13; 21])%positive = Ok r s' ∧ q_holds s' A'.
Proof.
  cbv zeta. eexists _, _. split; [reflexivity|]. split; [vm_compute; reflexivity|].
  eapply (tailq_refines tailq_script _ (QState {[1; 2]} {[11; 12; 13; 21]} ∅)%positive);
    [|reflexivity|vm_compute; reflexivity].
  split; [by split|done| |done].
  intros e He. simpl in He. rewrite !elem_of_union, !elem_of_singleton in He.
  destruct He as [[[->| ->]| ->]| ->]; by vm_compute; eauto.
Defined.
