(* ===== verification/Rbtree.v ===== *)
(** * Red-black trees of [src/util/tree.h], at the level of their pointers

    [RB_GENERATE_INTERNAL] is translated over a store of intrusive entries
    (left, right and parent pointers, and a colour), macro by macro.  The
    comparison function is [_sleep_cmp] of two keys, read from the elements by
    [key]. Loops carry fuel; [rb_fuel] is what the callers give them. *)
From stdpp Require Import base tactics list gmap.
From Stdlib Require Import ZArith Lia.
From S2P Require Import Prelude.

Inductive rb_color := RB_BLACK | RB_RED.

#[export] Instance rb_color_eq_dec : EqDecision rb_color.
Proof. solve_decision. Defined.

(** [RB_ENTRY] and [RB_HEAD]. *)
Record rb_entry := RbEntry {
  rbe_left : option loc;
  rbe_right : option loc;
  rbe_parent : option loc;
  rbe_color : rb_color
}.

Record rb_tree := RbTree { rbh_root : option loc; rb_nodes : gmap loc rb_entry }.

(** [_sleep_cmp] and [_altsleep_cmp]: three-way comparison of unsigned keys. *)
Definition sleep_cmp (k1 k2 : Z) : Z :=
  if (k1 <? k2)%Z then -1 else if (k1 =? k2)%Z then 0 else 1.

(** ** Field access *)

Definition rb_get (x : loc) : M rb_tree rb_entry :=
  o ← get (λ t, rb_nodes t !! x); deref o.

Definition rb_put (x : loc) (v : rb_entry) : M rb_tree () :=
  modify (λ t, RbTree (rbh_root t) (<[x := v]> (rb_nodes t))).

Definition RB_LEFT (x : loc) : M rb_tree (option loc) := v ← rb_get x; mret (rbe_left v).
Definition RB_RIGHT (x : loc) : M rb_tree (option loc) := v ← rb_get x; mret (rbe_right v).
Definition RB_PARENT (x : loc) : M rb_tree (option loc) := v ← rb_get x; mret (rbe_parent v).
Definition RB_COLOR (x : loc) : M rb_tree rb_color := v ← rb_get x; mret (rbe_color v).
Definition RB_ROOT : M rb_tree (option loc) := get rbh_root.
Definition RB_EMPTY : M rb_tree bool := r ← RB_ROOT; mret (bool_decide (r = None)).

Definition set_left (x : loc) (p : option loc) : M rb_tree () :=
  v ← rb_get x; rb_put x (RbEntry p (rbe_right v) (rbe_parent v) (rbe_color v)).
Definition set_right (x : loc) (p : option loc) : M rb_tree () :=
  v ← rb_get x; rb_put x (RbEntry (rbe_left v) p (rbe_parent v) (rbe_color v)).
Definition set_parent (x : loc) (p : option loc) : M rb_tree () :=
  v ← rb_get x; rb_put x (RbEntry (rbe_left v) (rbe_right v) p (rbe_color v)).
Definition set_color (x : loc) (c : rb_color) : M rb_tree () :=
  v ← rb_get x; rb_put x (RbEntry (rbe_left v) (rbe_right v) (rbe_parent v) c).
Definition set_root (p : option loc) : M rb_tree () :=
  modify (λ t, RbTree p (rb_nodes t)).

Definition RB_INIT : M rb_tree () := set_root None.

(** [RB_SET]: entries are written in whatever state the element has them. *)
Definition RB_SET (elm : loc) (parent : option loc) : M rb_tree () :=
  rb_put elm (RbEntry None None parent RB_RED).

Definition RB_SET_BLACKRED (black red : loc) : M rb_tree () :=
  set_color black RB_BLACK ;; set_color red RB_RED.

(** A colour test on a possibly NULL child: NULL counts as black, as in
    [x == NULL || RB_COLOR(x) == RB_BLACK]. *)
Definition is_black (x : option loc) : M rb_tree bool :=
  match x with
  | None => mret true
  | Some x => c ← RB_COLOR x; mret (bool_decide (c = RB_BLACK))
  end.

(** [tmp && RB_COLOR(tmp) == RB_RED] *)
Definition is_red (x : option loc) : M rb_tree bool :=
  b ← is_black x; mret (negb b).

(** ** Rotations *)

(** The part both rotations share: [tmp] takes the place of [elm] under the
    parent of [elm]. *)
Definition rb_replace (elm tmp : loc) : M rb_tree () :=
  p ← RB_PARENT elm;
  set_parent tmp p ;;
  match p with
  | Some p =>
    l ← RB_LEFT p;
    if bool_decide (Some elm = l) then set_left p (Some tmp) else set_right p (Some tmp)
  | None => set_root (Some tmp)
  end.

Definition RB_ROTATE_LEFT (elm : loc) : M rb_tree () :=
  tmp ← (r ← RB_RIGHT elm; deref r);
  l ← RB_LEFT tmp;
  set_right elm l ;;
  match l with Some l => set_parent l (Some elm) | None => mret () end ;;
  rb_replace elm tmp ;;
  set_left tmp (Some elm) ;;
  set_parent elm (Some tmp).

Definition RB_ROTATE_RIGHT (elm : loc) : M rb_tree () :=
  tmp ← (l ← RB_LEFT elm; deref l);
  r ← RB_RIGHT tmp;
  set_left elm r ;;
  match r with Some r => set_parent r (Some elm) | None => mret () end ;;
  rb_replace elm tmp ;;
  set_right tmp (Some elm) ;;
  set_parent elm (Some tmp).

(** ** Insertion *)

Fixpoint RB_INSERT_COLOR_loop (fuel : nat) (elm : loc) : M rb_tree () :=
  match fuel with
  | O => diverge
  | S fuel =>
    op ← RB_PARENT elm;
    match op with
    | None => mret ()
    | Some parent =>
      c ← RB_COLOR parent;
      if bool_decide (c = RB_RED) then
        gparent ← (g ← RB_PARENT parent; deref g);
        gl ← RB_LEFT gparent;
        if bool_decide (Some parent = gl) then
          tmp ← RB_RIGHT gparent;
          red ← is_red tmp;
          if red : bool then
            tmp ← deref tmp;
            set_color tmp RB_BLACK ;;
            RB_SET_BLACKRED parent gparent ;;
            RB_INSERT_COLOR_loop fuel gparent
          else
            pr ← RB_RIGHT parent;
            if bool_decide (pr = Some elm) then
              RB_ROTATE_LEFT parent ;;
              (* [parent] and [elm] are swapped *)
              RB_SET_BLACKRED elm gparent ;;
              RB_ROTATE_RIGHT gparent ;;
              RB_INSERT_COLOR_loop fuel parent
            else
              RB_SET_BLACKRED parent gparent ;;
              RB_ROTATE_RIGHT gparent ;;
              RB_INSERT_COLOR_loop fuel elm
        else
          tmp ← RB_LEFT gparent;
          red ← is_red tmp;
          if red : bool then
            tmp ← deref tmp;
            set_color tmp RB_BLACK ;;
            RB_SET_BLACKRED parent gparent ;;
            RB_INSERT_COLOR_loop fuel gparent
          else
            pl ← RB_LEFT parent;
            if bool_decide (pl = Some elm) then
              RB_ROTATE_RIGHT parent ;;
              RB_SET_BLACKRED elm gparent ;;
              RB_ROTATE_LEFT gparent ;;
              RB_INSERT_COLOR_loop fuel parent
            else
              RB_SET_BLACKRED parent gparent ;;
              RB_ROTATE_LEFT gparent ;;
              RB_INSERT_COLOR_loop fuel elm
      else mret ()
    end
  end.

Definition RB_INSERT_COLOR (fuel : nat) (elm : loc) : M rb_tree () :=
  RB_INSERT_COLOR_loop fuel elm ;;
  r ← (r ← RB_ROOT; deref r);
  set_color r RB_BLACK.

(** Fuel for every loop: no path is longer than the number of entries. *)
Definition rb_fuel : M rb_tree nat := get (λ t, S (S (size (rb_nodes t)))).

Section keyed.
Context (key : loc → Z).

(** The descent of [RB_INSERT]: the colliding element, or the parent to attach
    to and the last comparison. *)
Fixpoint rb_descend (fuel : nat) (elm : loc) (tmp parent : option loc) (comp : Z) :
    M rb_tree (loc + option loc * Z) :=
  match fuel with
  | O => diverge
  | S fuel =>
    match tmp with
    | None => mret (inr (parent, comp))
    | Some x =>
      let comp := sleep_cmp (key elm) (key x) in
      if (comp <? 0)%Z then l ← RB_LEFT x; rb_descend fuel elm l (Some x) comp
      else if (0 <? comp)%Z then r ← RB_RIGHT x; rb_descend fuel elm r (Some x) comp
      else mret (inl x)
    end
  end.

(** [RB_INSERT]: NULL when inserted, else the element with the same key. *)
Definition RB_INSERT (elm : loc) : M rb_tree (option loc) :=
  fuel ← rb_fuel;
  root ← RB_ROOT;
  d ← rb_descend fuel elm root None 0;
  match d with
  | inl x => mret (Some x)
  | inr (parent, comp) =>
    RB_SET elm parent ;;
    match parent with
    | Some p =>
      if (comp <? 0)%Z then set_left p (Some elm) else set_right p (Some elm)
    | None => set_root (Some elm)
    end ;;
    RB_INSERT_COLOR fuel elm ;;
    mret None
  end.
End keyed.

(** ** Removal *)

(** The black child of [x] on the far side, blackened: the local [oleft]/[oright]. *)
Definition blacken (x : option loc) : M rb_tree () :=
  match x with Some x => set_color x RB_BLACK | None => mret () end.

Fixpoint RB_REMOVE_COLOR_loop (fuel : nat) (parent elm : option loc) :
    M rb_tree (option loc) :=
  match fuel with
  | O => diverge
  | S fuel =>
    b ← is_black elm;
    root ← RB_ROOT;
    if b && negb (bool_decide (elm = root)) then
      parent ← deref parent;
      pl ← RB_LEFT parent;
      if bool_decide (pl = elm) then
        tmp ← (r ← RB_RIGHT parent; deref r);
        c ← RB_COLOR tmp;
        tmp ← (if bool_decide (c = RB_RED) then
                 RB_SET_BLACKRED tmp parent ;;
                 RB_ROTATE_LEFT parent ;;
                 r ← RB_RIGHT parent; deref r
               else mret tmp);
        lb ← (l ← RB_LEFT tmp; is_black l);
        rb ← (r ← RB_RIGHT tmp; is_black r);
        if lb && rb then
          set_color tmp RB_RED ;;
          pp ← RB_PARENT parent;
          RB_REMOVE_COLOR_loop fuel pp (Some parent)
        else
          tmp ← (if rb : bool then
                   oleft ← RB_LEFT tmp;
                   blacken oleft ;;
                   set_color tmp RB_RED ;;
                   RB_ROTATE_RIGHT tmp ;;
                   r ← RB_RIGHT parent; deref r
                 else mret tmp);
          pc ← RB_COLOR parent;
          set_color tmp pc ;;
          set_color parent RB_BLACK ;;
          r ← RB_RIGHT tmp;
          blacken r ;;
          RB_ROTATE_LEFT parent ;;
          RB_ROOT
      else
        tmp ← (l ← RB_LEFT parent; deref l);
        c ← RB_COLOR tmp;
        tmp ← (if bool_decide (c = RB_RED) then
                 RB_SET_BLACKRED tmp parent ;;
                 RB_ROTATE_RIGHT parent ;;
                 l ← RB_LEFT parent; deref l
               else mret tmp);
        lb ← (l ← RB_LEFT tmp; is_black l);
        rb ← (r ← RB_RIGHT tmp; is_black r);
        if lb && rb then
          set_color tmp RB_RED ;;
          pp ← RB_PARENT parent;
          RB_REMOVE_COLOR_loop fuel pp (Some parent)
        else
          tmp ← (if lb : bool then
                   oright ← RB_RIGHT tmp;
                   blacken oright ;;
                   set_color tmp RB_RED ;;
                   RB_ROTATE_LEFT tmp ;;
                   l ← RB_LEFT parent; deref l
                 else mret tmp);
          pc ← RB_COLOR parent;
          set_color tmp pc ;;
          set_color parent RB_BLACK ;;
          l ← RB_LEFT tmp;
          blacken l ;;
          RB_ROTATE_RIGHT parent ;;
          RB_ROOT
    else mret elm
  end.

(** The loop's final [elm] is blackened when it is not NULL. *)
Definition RB_REMOVE_COLOR (fuel : nat) (parent elm : option loc) : M rb_tree () :=
  elm ← RB_REMOVE_COLOR_loop fuel parent elm;
  blacken elm.

(** [child] takes the place of [elm] under [parent]. *)
Definition rb_splice (elm : loc) (parent child : option loc) : M rb_tree () :=
  match child with Some c => set_parent c parent | None => mret () end ;;
  match parent with
  | Some p =>
    l ← RB_LEFT p;
    if bool_decide (l = Some elm) then set_left p child else set_right p child
  | None => set_root child
  end.

(** [while ((left = RB_LEFT(elm)) != NULL) elm = left;] *)
Fixpoint rb_leftmost (fuel : nat) (elm : loc) : M rb_tree loc :=
  match fuel with
  | O => diverge
  | S fuel =>
    l ← RB_LEFT elm;
    match l with Some l => rb_leftmost fuel l | None => mret elm end
  end.

(** The successor [elm] takes over the entry of [old] and its neighbours' links. *)
Definition rb_take_place (old elm : loc) : M rb_tree () :=
  v ← rb_get old;
  rb_put elm v ;;
  op ← RB_PARENT old;
  match op with
  | Some p =>
    l ← RB_LEFT p;
    if bool_decide (l = Some old) then set_left p (Some elm) else set_right p (Some elm)
  | None => set_root (Some elm)
  end ;;
  ol ← (l ← RB_LEFT old; deref l);
  set_parent ol (Some elm) ;;
  orr ← RB_RIGHT old;
  match orr with Some r => set_parent r (Some elm) | None => mret () end.

(** The two-children branch: the successor [elm] leaves its place and takes over
    the entry of [old]; the result is what the [color:] label reads. *)
Definition rb_remove_successor (fuel : nat) (old : loc) :
    M rb_tree (rb_color * option loc * option loc) :=
  elm ← (r ← RB_RIGHT old; deref r);
  elm ← rb_leftmost fuel elm;
  child ← RB_RIGHT elm;
  parent ← RB_PARENT elm;
  color ← RB_COLOR elm;
  rb_splice elm parent child ;;
  ep ← RB_PARENT elm;
  let parent := if bool_decide (ep = Some old) then Some elm else parent in
  rb_take_place old elm ;;
  mret (color, parent, child).

(** The branch for an element with at most one child. *)
Definition rb_remove_here (elm : loc) (child : option loc) :
    M rb_tree (rb_color * option loc * option loc) :=
  parent ← RB_PARENT elm;
  color ← RB_COLOR elm;
  rb_splice elm parent child ;;
  mret (color, parent, child).

Definition RB_REMOVE (elm : loc) : M rb_tree loc :=
  fuel ← rb_fuel;
  l ← RB_LEFT elm;
  r ← RB_RIGHT elm;
  d ← (match l, r with
       | None, _ => rb_remove_here elm r
       | Some _, None => rb_remove_here elm l
       | Some _, Some _ => rb_remove_successor fuel elm
       end);
  let '(color, parent, child) := d in
  when (bool_decide (color = RB_BLACK)) (RB_REMOVE_COLOR fuel parent child) ;;
  mret elm.

(** ** Searches *)

(** [RB_MINMAX]: [RB_MIN] goes left, [RB_MAX] right. *)
Fixpoint rb_minmax_loop (fuel : nat) (val : Z) (tmp parent : option loc) :
    M rb_tree (option loc) :=
  match fuel with
  | O => diverge
  | S fuel =>
    match tmp with
    | None => mret parent
    | Some x =>
      y ← (if (val <? 0)%Z then RB_LEFT x else RB_RIGHT x);
      rb_minmax_loop fuel val y (Some x)
    end
  end.

Definition RB_MINMAX (val : Z) : M rb_tree (option loc) :=
  fuel ← rb_fuel; root ← RB_ROOT; rb_minmax_loop fuel val root None.

Definition RB_MIN : M rb_tree (option loc) := RB_MINMAX (-1).
Definition RB_MAX : M rb_tree (option loc) := RB_MINMAX 1.

(** [RB_FIND] for the key [k]. *)
Fixpoint rb_find_loop (fuel : nat) (key : loc → Z) (k : Z) (tmp : option loc) :
    M rb_tree (option loc) :=
  match fuel with
  | O => diverge
  | S fuel =>
    match tmp with
    | None => mret None
    | Some x =>
      let comp := sleep_cmp k (key x) in
      if (comp <? 0)%Z then l ← RB_LEFT x; rb_find_loop fuel key k l
      else if (0 <? comp)%Z then r ← RB_RIGHT x; rb_find_loop fuel key k r
      else mret (Some x)
    end
  end.

Definition RB_FIND (key : loc → Z) (k : Z) : M rb_tree (option loc) :=
  fuel ← rb_fuel; root ← RB_ROOT; rb_find_loop fuel key k root.
