(* ===== verification/RbShape.v ===== *)
(** * The shape of a pointer tree: trees, paths and the heap they describe

    A state of [Rbtree] is described by the tree it spells out, seen from any of
    its nodes: a path to the root and the subtree below ([zrep]).  Rotations and
    colour changes are shown once, for a subtree under an arbitrary path. *)
From stdpp Require Import base tactics list gmap sorting.
From Stdlib Require Import ZArith Lia.
From S2P Require Import Prelude Rbtree.

Inductive rbt :=
| Lf
| Nd (c : rb_color) (l : rbt) (x : loc) (r : rbt).

(** One step up: the hole is the left child of [x], or its right child. *)
Inductive rbframe :=
| FL (c : rb_color) (x : loc) (r : rbt)
| FR (c : rb_color) (l : rbt) (x : loc).

(** Innermost frame first. *)
Abbreviation path := (list rbframe).

Definition root_of (t : rbt) : option loc :=
  match t with Lf => None | Nd _ _ x _ => Some x end.

Definition frame_elm (f : rbframe) : loc :=
  match f with FL _ x _ => x | FR _ _ x => x end.

Definition parent_of (π : path) : option loc := frame_elm <$> head π.

Definition fill (f : rbframe) (t : rbt) : rbt :=
  match f with FL c x r => Nd c t x r | FR c l x => Nd c l x t end.

Fixpoint plug (π : path) (t : rbt) : rbt :=
  match π with [] => t | f :: π => plug π (fill f t) end.

(** In-order elements. *)
Fixpoint elems (t : rbt) : list loc :=
  match t with Lf => [] | Nd _ l x r => elems l ++ x :: elems r end.

Fixpoint lefts (π : path) : list loc :=
  match π with
  | [] => []
  | FL _ _ _ :: π => lefts π
  | FR _ l x :: π => lefts π ++ elems l ++ [x]
  end.

Fixpoint rights (π : path) : list loc :=
  match π with
  | [] => []
  | FL _ x r :: π => (x :: elems r) ++ rights π
  | FR _ _ _ :: π => rights π
  end.

(** All elements of a path, scalars first. *)
Fixpoint plocs (π : path) : list loc :=
  match π with
  | [] => []
  | FL _ x r :: π => x :: elems r ++ plocs π
  | FR _ l x :: π => x :: elems l ++ plocs π
  end.

(** The root pointer of a path whose hole has the root [h]. *)
Fixpoint top (π : path) (h : option loc) : option loc :=
  match π with [] => h | f :: π => top π (Some (frame_elm f)) end.

Fixpoint trep (N : gmap loc rb_entry) (par : option loc) (t : rbt) : Prop :=
  match t with
  | Lf => True
  | Nd c l x r =>
    N !! x = Some (RbEntry (root_of l) (root_of r) par c) ∧
    trep N (Some x) l ∧ trep N (Some x) r
  end.

Fixpoint crep (N : gmap loc rb_entry) (π : path) (h : option loc) : Prop :=
  match π with
  | [] => True
  | FL c x r :: π' =>
    N !! x = Some (RbEntry h (root_of r) (parent_of π') c) ∧
    trep N (Some x) r ∧ crep N π' (Some x)
  | FR c l x :: π' =>
    N !! x = Some (RbEntry (root_of l) h (parent_of π') c) ∧
    trep N (Some x) l ∧ crep N π' (Some x)
  end.

(** The state [T] spells out the subtree [t] under the path [π]. *)
Record zrep (T : rb_tree) (π : path) (t : rbt) : Prop := Zrep {
  zrep_root : rbh_root T = top π (root_of t);
  zrep_tree : trep (rb_nodes T) (parent_of π) t;
  zrep_path : crep (rb_nodes T) π (root_of t);
  zrep_nodup : NoDup (elems (plug π t))
}.

(** [T'] has the entries of [T] outside the elements of [xs]. *)
Definition rb_frame (xs : list loc) (T T' : rb_tree) : Prop :=
  (∀ x, x ∉ xs → rb_nodes T' !! x = rb_nodes T !! x) ∧
  (∀ x, is_Some (rb_nodes T !! x) → is_Some (rb_nodes T' !! x)).

Definition color_of (t : rbt) : rb_color :=
  match t with Lf => RB_BLACK | Nd c _ _ _ => c end.

(** The heap after the parent of the root [o] has been set, and after the child
    pointer (or the root pointer) that leads to the hole of [π] has been. *)
Definition reparent (o q : option loc) (N : gmap loc rb_entry) : gmap loc rb_entry :=
  match o with
  | Some z => alter (λ v, RbEntry (rbe_left v) (rbe_right v) q (rbe_color v)) z N
  | None => N
  end.

Definition rehole (π : path) (h : option loc) (N : gmap loc rb_entry) : gmap loc rb_entry :=
  match π with
  | [] => N
  | FL _ x _ :: _ =>
    alter (λ v, RbEntry h (rbe_right v) (rbe_parent v) (rbe_color v)) x N
  | FR _ _ x :: _ =>
    alter (λ v, RbEntry (rbe_left v) h (rbe_parent v) (rbe_color v)) x N
  end.

(** ** Elements *)

Lemma plug_elems π t : elems (plug π t) = lefts π ++ elems t ++ rights π.
Proof.
  revert t. induction π as [|[c x r|c l x] π IH]; intros t; simpl.
  - by rewrite app_nil_r.
  - rewrite IH. simpl. by rewrite <-!app_assoc.
  - rewrite IH. simpl. by rewrite <-!app_assoc.
Qed.

Lemma plocs_perm π : plocs π ≡ₚ lefts π ++ rights π.
Proof.
  induction π as [|[c x r|c l x] π IH]; simpl; [done|..].
  - rewrite IH. rewrite <-Permutation_middle. constructor.
    rewrite !(assoc_L (++)), (comm (++) (elems r)). done.
  - rewrite IH. rewrite <-!(assoc_L (++)). simpl.
    rewrite !(assoc_L (++)), <-Permutation_middle. constructor.
    by rewrite (comm (++) (elems l)).
Qed.

Lemma plug_elems_perm π t : elems (plug π t) ≡ₚ elems t ++ plocs π.
Proof.
  rewrite plug_elems, plocs_perm. rewrite !(assoc_L (++)). f_equiv. apply (comm (++)).
Qed.

Lemma root_of_elem t x : root_of t = Some x → x ∈ elems t.
Proof. destruct t; intros [= ->]. simpl. apply elem_of_app. right. by left. Qed.

Lemma parent_of_elem π x : parent_of π = Some x → x ∈ plocs π.
Proof. destruct π as [|[]]; intros [= ->]; simpl; by left. Qed.

Lemma top_nonempty f π h h' : top (f :: π) h = top (f :: π) h'.
Proof. done. Qed.

(** ** Framing: an update outside a tree or a path is not seen there *)

Lemma trep_ext N N' p t :
  (∀ x, x ∈ elems t → N' !! x = N !! x) → trep N p t → trep N' p t.
Proof.
  revert p. induction t as [|c l IHl x r IHr]; intros p H; simpl in *; [done|].
  intros (Hx & Hl & Hr). rewrite H by set_solver. split; [done|].
  split; [apply IHl|apply IHr]; auto; intros; apply H; set_solver.
Qed.

Lemma crep_ext N N' π h :
  (∀ x, x ∈ plocs π → N' !! x = N !! x) → crep N π h → crep N' π h.
Proof.
  revert h. induction π as [|[c x r|c l x] π IH]; intros h H; simpl in *; [done|..];
    intros (Hx & Ht & Hπ); rewrite H by set_solver; (split; [done|]);
    (split; [eapply trep_ext; [|done]|apply IH; [|done]]); intros; apply H; set_solver.
Qed.

Lemma trep_insert N p t x v : x ∉ elems t → trep N p t → trep (<[x := v]> N) p t.
Proof. intros Hx. apply trep_ext. intros y Hy. rewrite lookup_insert_ne; [done|]. by intros ->. Qed.

Lemma crep_insert N π h x v : x ∉ plocs π → crep N π h → crep (<[x := v]> N) π h.
Proof. intros Hx. apply crep_ext. intros y Hy. rewrite lookup_insert_ne; [done|]. by intros ->. Qed.

Lemma trep_alter N p t x f : x ∉ elems t → trep N p t → trep (alter f x N) p t.
Proof. intros Hx. apply trep_ext. intros y Hy. rewrite lookup_alter_ne; [done|]. by intros ->. Qed.

Lemma crep_alter N π h x f : x ∉ plocs π → crep N π h → crep (alter f x N) π h.
Proof. intros Hx. apply crep_ext. intros y Hy. rewrite lookup_alter_ne; [done|]. by intros ->. Qed.

(** ** Moving the focus *)

Lemma zrep_up T f π t : zrep T (f :: π) t ↔ zrep T π (fill f t).
Proof.
  split; intros [Hr Ht Hc Hn]; destruct f as [c x r|c l x]; simpl in *;
    destruct_and?; constructor; simpl; auto.
Qed.

Lemma zrep_plug T π t : zrep T π t ↔ zrep T [] (plug π t).
Proof. revert t. induction π as [|f π IH]; intros t; [done|]. by rewrite zrep_up, IH. Qed.

Lemma zrep_nodup_split T π t : zrep T π t → NoDup (elems t ++ plocs π).
Proof. intros []. by rewrite <-plug_elems_perm. Qed.

Lemma zrep_lookup T π c l x r :
  zrep T π (Nd c l x r) →
  rb_nodes T !! x = Some (RbEntry (root_of l) (root_of r) (parent_of π) c).
Proof. by intros [_ [? _] _ _]. Qed.

(** Every element of the tree is an entry of the store. *)
Lemma trep_lookup N p t x : trep N p t → x ∈ elems t → is_Some (N !! x).
Proof.
  revert p. induction t as [|c l IHl y r IHr]; intros p; simpl; [set_solver|].
  intros (Hy & Hl & Hr) [?|[->|?]%elem_of_cons]%elem_of_app; eauto.
Qed.

Lemma zrep_elem_lookup T π t x : zrep T π t → x ∈ elems (plug π t) → is_Some (rb_nodes T !! x).
Proof. intros H%zrep_plug. by eapply trep_lookup, H. Qed.

Lemma zrep_size T π t : zrep T π t → length (elems (plug π t)) ≤ size (rb_nodes T).
Proof.
  intros H. assert (list_to_set (elems (plug π t)) ⊆@{gset loc} dom (rb_nodes T)) as Hsub.
  { intros x Hx%elem_of_list_to_set. apply elem_of_dom. by eapply zrep_elem_lookup. }
  apply subseteq_size in Hsub.
  rewrite size_list_to_set, size_dom in Hsub; [done|]. apply H.
Qed.

(** No path is longer than the number of entries. *)
Lemma length_path_elems π t : length π + length (elems t) ≤ length (elems (plug π t)).
Proof.
  revert t. induction π as [|f π IH]; intros t; simpl; [done|].
  etrans; [|apply IH]. destruct f; simpl; rewrite length_app; simpl; lia.
Qed.

Lemma zrep_path_size T π t : zrep T π t → length π + length (elems t) ≤ size (rb_nodes T).
Proof. intros H. etrans; [apply length_path_elems|by eapply zrep_size]. Qed.

(** ** Framing of states *)

Lemma rb_frame_refl xs T : rb_frame xs T T.
Proof. done. Qed.

Lemma rb_frame_trans xs T1 T2 T3 : rb_frame xs T1 T2 → rb_frame xs T2 T3 → rb_frame xs T1 T3.
Proof. intros [H1 H2] [H3 H4]. split; [|auto]. intros x Hx. by rewrite H3, H1. Qed.

Lemma rb_frame_size xs T T' : rb_frame xs T T' → size (rb_nodes T) ≤ size (rb_nodes T').
Proof.
  intros [_ H]. rewrite <-!size_dom. apply subseteq_size.
  intros x. rewrite !elem_of_dom. auto.
Qed.

(** ** Access to a field *)

Section access.
Context (T : rb_tree) (x : loc) (v : rb_entry) (Hx : rb_nodes T !! x = Some v).

Let upd (v : rb_entry) : rb_tree := RbTree (rbh_root T) (<[x := v]> (rb_nodes T)).

Lemma wp_RB_LEFT Q : Q (rbe_left v) T → wp (RB_LEFT x) Q T.
Proof using Hx. unfold wp, RB_LEFT, rb_get, mbind, M_bind, get. by rewrite Hx. Qed.
Lemma wp_RB_RIGHT Q : Q (rbe_right v) T → wp (RB_RIGHT x) Q T.
Proof using Hx. unfold wp, RB_RIGHT, rb_get, mbind, M_bind, get. by rewrite Hx. Qed.
Lemma wp_RB_PARENT Q : Q (rbe_parent v) T → wp (RB_PARENT x) Q T.
Proof using Hx. unfold wp, RB_PARENT, rb_get, mbind, M_bind, get. by rewrite Hx. Qed.
Lemma wp_RB_COLOR Q : Q (rbe_color v) T → wp (RB_COLOR x) Q T.
Proof using Hx. unfold wp, RB_COLOR, rb_get, mbind, M_bind, get. by rewrite Hx. Qed.
Lemma wp_rb_get Q : Q v T → wp (rb_get x) Q T.
Proof using Hx. unfold wp, rb_get, mbind, M_bind, get. by rewrite Hx. Qed.

Lemma wp_set_left p Q :
  Q () (upd (RbEntry p (rbe_right v) (rbe_parent v) (rbe_color v))) → wp (set_left x p) Q T.
Proof using Hx. unfold wp, set_left, rb_get, mbind, M_bind, get. by rewrite Hx. Qed.
Lemma wp_set_right p Q :
  Q () (upd (RbEntry (rbe_left v) p (rbe_parent v) (rbe_color v))) → wp (set_right x p) Q T.
Proof using Hx. unfold wp, set_right, rb_get, mbind, M_bind, get. by rewrite Hx. Qed.
Lemma wp_set_parent p Q :
  Q () (upd (RbEntry (rbe_left v) (rbe_right v) p (rbe_color v))) → wp (set_parent x p) Q T.
Proof using Hx. unfold wp, set_parent, rb_get, mbind, M_bind, get. by rewrite Hx. Qed.
Lemma wp_set_color c Q :
  Q () (upd (RbEntry (rbe_left v) (rbe_right v) (rbe_parent v) c)) → wp (set_color x c) Q T.
Proof using Hx. unfold wp, set_color, rb_get, mbind, M_bind, get. by rewrite Hx. Qed.
End access.

Lemma reparent_ne o q N x : o ≠ Some x → reparent o q N !! x = N !! x.
Proof. destruct o; simpl; [|done]. intros. rewrite lookup_alter_ne; congruence. Qed.

Lemma rehole_ne π h N x : x ∉ plocs π → rehole π h N !! x = N !! x.
Proof.
  destruct π as [|[] π]; simpl; [done|..]; intros; rewrite lookup_alter_ne; set_solver.
Qed.

Lemma reparent_is_Some o q N x : is_Some (N !! x) → is_Some (reparent o q N !! x).
Proof.
  intros. destruct o as [z|]; simpl; [|done]. rewrite lookup_alter.
  case_decide; [subst; by rewrite fmap_is_Some|done].
Qed.

Lemma rehole_is_Some π h N x : is_Some (N !! x) → is_Some (rehole π h N !! x).
Proof.
  intros. destruct π as [|[]]; simpl; [done|..]; rewrite lookup_alter;
    case_decide; subst; by rewrite ?fmap_is_Some.
Qed.

Lemma plug_elems_eq π t t' : elems t = elems t' → elems (plug π t) = elems (plug π t').
Proof. intros H. by rewrite !plug_elems, H. Qed.

Lemma rb_frame_insert xs T r N x v :
  x ∈ xs → rb_frame xs T (RbTree r N) → rb_frame xs T (RbTree r (<[x := v]> N)).
Proof.
  intros Hx [H1 H2]. split; simpl in *; intros y Hy.
  - rewrite lookup_insert_ne; [by apply H1|]. by intros ->.
  - apply lookup_insert_is_Some'. auto.
Qed.

Lemma rb_frame_reparent xs T r N o q :
  (∀ z, o = Some z → z ∈ xs) →
  rb_frame xs T (RbTree r N) → rb_frame xs T (RbTree r (reparent o q N)).
Proof.
  intros Ho [H1 H2]. split; simpl in *; intros y Hy.
  - rewrite reparent_ne; [by apply H1|]. intros ->. by apply Hy, Ho.
  - apply reparent_is_Some. auto.
Qed.

Lemma rb_frame_rehole xs T r N π h :
  (∀ z, z ∈ plocs π → z ∈ xs) →
  rb_frame xs T (RbTree r N) → rb_frame xs T (RbTree r (rehole π h N)).
Proof.
  intros Ho [H1 H2]. split; simpl in *; intros y Hy.
  - rewrite rehole_ne; [by apply H1|]. auto.
  - apply rehole_is_Some. auto.
Qed.

Lemma rb_frame_mono xs ys T T' : (∀ x, x ∈ xs → x ∈ ys) → rb_frame xs T T' → rb_frame ys T T'.
Proof. intros Hs [H1 H2]. split; auto. Qed.

Lemma rb_frame_focus π t T T' :
  rb_frame (elems t ++ plocs π) T T' → rb_frame (elems (plug π t)) T T'.
Proof. apply rb_frame_mono. intros x. by rewrite plug_elems_perm. Qed.

(** ** Replacing the root of a subtree *)

Ltac nodup_split :=
  repeat match goal with
  | H : NoDup (_ ++ _) |- _ => apply NoDup_app in H as (? & ? & ?)
  | H : NoDup (_ :: _) |- _ => apply NoDup_cons in H as [? ?]
  end.

Lemma trep_reparent N p q t :
  NoDup (elems t) → trep N p t → trep (reparent (root_of t) q N) q t.
Proof.
  destruct t as [|c l x r]; simpl; [done|]. intros Hnd (Hx & Hl & Hr).
  nodup_split. rewrite lookup_alter_eq, Hx. simpl. split; [done|].
  split; apply trep_alter; auto; set_solver.
Qed.

Lemma trep_reparent_other N p q t o :
  (∀ z, o = Some z → z ∉ elems t) → trep N p t → trep (reparent o q N) p t.
Proof.
  intros Ho. apply trep_ext. intros y Hy. apply reparent_ne. intros ->. by eapply Ho.
Qed.

Lemma crep_reparent_other N π h q o :
  (∀ z, o = Some z → z ∉ plocs π) → crep N π h → crep (reparent o q N) π h.
Proof.
  intros Ho. apply crep_ext. intros y Hy. apply reparent_ne. intros ->. by eapply Ho.
Qed.

Lemma trep_rehole N π h p t :
  (∀ z, z ∈ elems t → z ∉ plocs π) → trep N p t → trep (rehole π h N) p t.
Proof. intros Ho. apply trep_ext. intros y Hy. apply rehole_ne. auto. Qed.

Lemma crep_rehole N π h h' : NoDup (plocs π) → crep N π h → crep (rehole π h' N) π h'.
Proof.
  destruct π as [|[c x r|c l x] π]; simpl; [done|..]; intros Hnd (Hx & Ht & Hπ);
    rewrite lookup_alter_eq, Hx; simpl; nodup_split;
    (split; [done|split; [apply trep_alter|apply crep_alter]]); set_solver.
Qed.

(** The parent pointer of a possibly empty child. *)
Lemma wp_reparent (o q : option loc) T (Q : () → rb_tree → Prop) :
  (∀ z, o = Some z → is_Some (rb_nodes T !! z)) →
  Q () (RbTree (rbh_root T) (reparent o q (rb_nodes T))) →
  wp (match o with Some z => set_parent z q | None => mret () end) Q T.
Proof.
  intros Ho HQ. destruct o as [z|]; simpl in *.
  - destruct (Ho z eq_refl) as [v Hv]. eapply wp_set_parent; [done|].
    replace (alter _ z (rb_nodes T)) with
      (<[z := RbEntry (rbe_left v) (rbe_right v) q (rbe_color v)]> (rb_nodes T)) in HQ; [done|].
    apply map_eq. intros i. rewrite lookup_insert, lookup_alter.
    case_decide; [subst; by rewrite Hv|done].
  - by destruct T.
Qed.

Ltac lk := simpl; repeat first
  [ rewrite lookup_insert_eq
  | rewrite lookup_insert_ne by congruence
  | rewrite reparent_ne by congruence
  | rewrite rehole_ne by done ]; eauto.

Lemma rehole_insert_alter (π : path) h (N : gmap loc rb_entry) f x v :
  π = f :: tail π → frame_elm f = x → N !! x = Some v →
  rehole π h N = <[x := match f with
    | FL _ _ _ => RbEntry h (rbe_right v) (rbe_parent v) (rbe_color v)
    | FR _ _ _ => RbEntry (rbe_left v) h (rbe_parent v) (rbe_color v) end]> N.
Proof.
  intros -> Hx Hv. destruct f; simpl in *; subst; apply map_eq; intros i;
    rewrite lookup_insert, lookup_alter; (case_decide; [subst; by rewrite Hv|done]).
Qed.

(** [rb_replace] hangs [tmp] where [elm] was. *)
Lemma rb_replace_ok T π elm tmp ve vt (Q : () → rb_tree → Prop) :
  rb_nodes T !! elm = Some ve → rbe_parent ve = parent_of π →
  rb_nodes T !! tmp = Some vt →
  rbh_root T = top π (Some elm) → crep (rb_nodes T) π (Some elm) →
  elm ∉ plocs π → tmp ∉ plocs π → NoDup (plocs π) →
  Q () (RbTree (top π (Some tmp))
    (rehole π (Some tmp)
      (<[tmp := RbEntry (rbe_left vt) (rbe_right vt) (parent_of π) (rbe_color vt)]> (rb_nodes T)))) →
  wp (rb_replace elm tmp) Q T.
Proof.
  intros He Hp Ht Hroot Hc Helm Htmp Hnd HQ. unfold rb_replace.
  apply wp_bind. eapply wp_RB_PARENT; [done|]. rewrite Hp.
  apply wp_bind. eapply wp_set_parent; [done|].
  destruct π as [|f π]; [exact HQ|].
  assert (frame_elm f ≠ tmp) as Hne by (destruct f; set_solver).
  simpl parent_of. cbv match.
  destruct f as [c x r|c l x]; simpl in Hroot, Hc, Helm, Hne; destruct Hc as (Hx & Hsub & _);
    (apply wp_bind; eapply wp_RB_LEFT; [by lk|]); simpl.
  - rewrite bool_decide_eq_true_2 by done. eapply wp_set_left; [by lk|].
    erewrite (rehole_insert_alter _ _ _ (FL c x r) x) in HQ by (done || by lk).
    by rewrite Hroot.
  - rewrite bool_decide_eq_false_2.
    2: { intros Heq. symmetry in Heq. apply root_of_elem in Heq. set_solver. }
    eapply wp_set_right; [by lk|].
    erewrite (rehole_insert_alter _ _ _ (FR c l x) x) in HQ by (done || by lk).
    by rewrite Hroot.
Qed.

(** A subtree after the stores of a rotation; [tac] deals with the one that may
    have changed its parent. *)
Ltac rotated_part tac :=
  do 2 (apply trep_insert; [done|]); apply trep_rehole; [set_solver|];
  apply trep_insert; [done|]; tac; by apply trep_insert.

(** ** Rotations and colours on a focused subtree *)

Lemma rotate_left_ok T π c a x d b y e :
  zrep T π (Nd c a x (Nd d b y e)) →
  wp (RB_ROTATE_LEFT x)
    (λ _ T', zrep T' π (Nd d (Nd c a x b) y e) ∧
             rb_frame (elems (plug π (Nd c a x (Nd d b y e)))) T T') T.
Proof.
  intros Hrep. pose proof (zrep_nodup_split _ _ _ Hrep) as Hnd. simpl in Hnd.
  destruct Hrep as [Hroot (Hx & Ha & Hy & Hb & He) Hc HN]. simpl in *.
  assert (x ≠ y ∧ x ∉ elems a ∧ x ∉ elems b ∧ x ∉ elems e ∧ x ∉ plocs π ∧
          y ∉ elems a ∧ y ∉ elems b ∧ y ∉ elems e ∧ y ∉ plocs π ∧ NoDup (plocs π) ∧
          NoDup (elems b)) as
    (Hxy & Hxa & Hxb & Hxe & Hxp & Hya & Hyb & Hye & Hyp & Hndp & Hndb).
  { nodup_split. split_and!; try done; set_solver. }
  assert (∀ z, root_of b = Some z → z ≠ x ∧ z ≠ y ∧ z ∉ elems a ∧ z ∉ elems e ∧ z ∉ plocs π) as Hz.
  { intros z Hz%root_of_elem. nodup_split. set_solver. }
  assert (∀ z, z ∈ elems a ++ elems b ++ elems e → z ∉ plocs π) as Hπ.
  { intros z Hz1 Hz2. nodup_split. set_solver. }
  unfold RB_ROTATE_LEFT.
  apply wp_bind, wp_bind. eapply wp_RB_RIGHT; [done|]. eapply wp_deref; [done|]. cbv beta.
  apply wp_bind. eapply wp_RB_LEFT; [done|]. simpl.
  apply wp_bind. eapply wp_set_right; [done|]. simpl.
  apply wp_bind. apply wp_reparent.
  { intros z Hz'. simpl. rewrite lookup_insert_ne by (intros ->; destruct (Hz _ Hz'); done).
    eapply trep_lookup; [exact Hb|by apply root_of_elem]. }
  simpl. apply wp_bind.
  assert (root_of b ≠ Some x ∧ root_of b ≠ Some y) as [Hbx Hby].
  { split; intros Heq; destruct (Hz _ Heq) as (? & ? & _); done. }
  eapply rb_replace_ok; [lk|done|lk|done|..|done|done|done|].
  { apply crep_reparent_other; [naive_solver|]. by apply crep_insert. }
  simpl. apply wp_bind. eapply wp_set_left; [lk|]. simpl.
  eapply wp_set_parent; [lk|]. simpl. split.
  - constructor; simpl; [done|..].
    + split; [lk|]. split; [split; [lk|split]|].
      * rotated_part ltac:(apply trep_reparent_other; [naive_solver|]).
      * rotated_part ltac:(apply (trep_reparent _ (Some y)); [done|]).
      * rotated_part ltac:(apply trep_reparent_other; [naive_solver|]).
    + do 2 (apply crep_insert; [done|]). eapply (crep_rehole _ _ (Some x)); [done|].
      apply crep_insert; [done|]. apply crep_reparent_other; [naive_solver|].
      by apply crep_insert.
    + erewrite plug_elems_eq; [exact HN|]. simpl. by rewrite <-!app_assoc.
  - apply rb_frame_focus. simpl.
    do 2 (eapply rb_frame_insert; [set_solver|]). eapply rb_frame_rehole; [set_solver|].
    eapply rb_frame_insert; [set_solver|]. eapply rb_frame_reparent; [|].
    { intros z ?%root_of_elem. set_solver. }
    eapply rb_frame_insert; [set_solver|]. done.
Qed.

Lemma rotate_right_ok T π c d a x b y e :
  zrep T π (Nd c (Nd d a x b) y e) →
  wp (RB_ROTATE_RIGHT y)
    (λ _ T', zrep T' π (Nd d a x (Nd c b y e)) ∧
             rb_frame (elems (plug π (Nd c (Nd d a x b) y e))) T T') T.
Proof.
  intros Hrep. pose proof (zrep_nodup_split _ _ _ Hrep) as Hnd. simpl in Hnd.
  destruct Hrep as [Hroot (Hy & (Hx & Ha & Hb) & He) Hc HN]. simpl in *.
  assert (x ≠ y ∧ x ∉ elems a ∧ x ∉ elems b ∧ x ∉ elems e ∧ x ∉ plocs π ∧
          y ∉ elems a ∧ y ∉ elems b ∧ y ∉ elems e ∧ y ∉ plocs π ∧ NoDup (plocs π) ∧
          NoDup (elems b)) as
    (Hxy & Hxa & Hxb & Hxe & Hxp & Hya & Hyb & Hye & Hyp & Hndp & Hndb).
  { nodup_split. split_and!; try done; set_solver. }
  assert (∀ z, root_of b = Some z → z ≠ x ∧ z ≠ y ∧ z ∉ elems a ∧ z ∉ elems e ∧ z ∉ plocs π) as Hz.
  { intros z Hz%root_of_elem. nodup_split. set_solver. }
  assert (∀ z, z ∈ elems a ++ elems b ++ elems e → z ∉ plocs π) as Hπ.
  { intros z Hz1 Hz2. nodup_split. set_solver. }
  unfold RB_ROTATE_RIGHT.
  apply wp_bind, wp_bind. eapply wp_RB_LEFT; [done|]. eapply wp_deref; [done|]. cbv beta.
  apply wp_bind. eapply wp_RB_RIGHT; [done|]. simpl.
  apply wp_bind. eapply wp_set_left; [done|]. simpl.
  apply wp_bind. apply wp_reparent.
  { intros z Hz'. simpl. rewrite lookup_insert_ne by (intros ->; destruct (Hz _ Hz'); naive_solver).
    eapply trep_lookup; [exact Hb|by apply root_of_elem]. }
  simpl. apply wp_bind.
  assert (root_of b ≠ Some x ∧ root_of b ≠ Some y) as [Hbx Hby].
  { split; intros Heq; destruct (Hz _ Heq) as (? & ? & _); done. }
  eapply rb_replace_ok; [lk|done|lk|done|..|done|done|done|].
  { apply crep_reparent_other; [naive_solver|]. by apply crep_insert. }
  simpl. apply wp_bind. eapply wp_set_right; [lk|]. simpl.
  eapply wp_set_parent; [lk|]. simpl. split.
  - constructor; simpl; [done|..].
    + split; [lk|]. split; [|split; [lk|split]].
      * rotated_part ltac:(apply trep_reparent_other; [naive_solver|]).
      * rotated_part ltac:(apply (trep_reparent _ (Some x)); [done|]).
      * rotated_part ltac:(apply trep_reparent_other; [naive_solver|]).
    + do 2 (apply crep_insert; [done|]). eapply (crep_rehole _ _ (Some y)); [done|].
      apply crep_insert; [done|]. apply crep_reparent_other; [naive_solver|].
      by apply crep_insert.
    + erewrite plug_elems_eq; [exact HN|]. simpl. by rewrite <-!app_assoc.
  - apply rb_frame_focus. simpl.
    do 2 (eapply rb_frame_insert; [set_solver|]). eapply rb_frame_rehole; [set_solver|].
    eapply rb_frame_insert; [set_solver|]. eapply rb_frame_reparent; [|].
    { intros z ?%root_of_elem. set_solver. }
    eapply rb_frame_insert; [set_solver|]. done.
Qed.

Lemma set_color_ok T π c c' l x r :
  zrep T π (Nd c l x r) →
  wp (set_color x c')
    (λ _ T', zrep T' π (Nd c' l x r) ∧ rb_frame (elems (plug π (Nd c l x r))) T T') T.
Proof.
  intros Hrep. pose proof (zrep_nodup_split _ _ _ Hrep) as Hnd. simpl in Hnd.
  destruct Hrep as [Hroot (Hx & Hl & Hr) Hc HN]. simpl in *.
  eapply wp_set_color; [done|]. simpl. split.
  - constructor; simpl; [done|..].
    + split; [lk|]. split; apply trep_insert; try done; nodup_split; set_solver.
    + apply crep_insert; [nodup_split; set_solver|done].
    + erewrite plug_elems_eq; [exact HN|done].
  - apply rb_frame_focus. simpl. eapply rb_frame_insert; [set_solver|done].
Qed.

(** Reading through the focus. *)
Section focus.
Context T π c l x r (H : zrep T π (Nd c l x r)).
Lemma focus_left Q : Q (root_of l) T → wp (RB_LEFT x) Q T.
Proof using H. intros. eapply wp_RB_LEFT; [by eapply zrep_lookup|done]. Qed.
Lemma focus_right Q : Q (root_of r) T → wp (RB_RIGHT x) Q T.
Proof using H. intros. eapply wp_RB_RIGHT; [by eapply zrep_lookup|done]. Qed.
Lemma focus_parent Q : Q (parent_of π) T → wp (RB_PARENT x) Q T.
Proof using H. intros. eapply wp_RB_PARENT; [by eapply zrep_lookup|done]. Qed.
Lemma focus_color Q : Q c T → wp (RB_COLOR x) Q T.
Proof using H. intros. eapply wp_RB_COLOR; [by eapply zrep_lookup|done]. Qed.
End focus.

Lemma focus_is_black T π t Q :
  zrep T π t → Q (bool_decide (color_of t = RB_BLACK)) T → wp (is_black (root_of t)) Q T.
Proof.
  intros Hrep HQ. destruct t as [|c l x r]; simpl in *; [done|].
  apply wp_bind. by eapply focus_color.
Qed.

(** ** Computations that keep the elements and touch nothing else

    [zin T π t]: [T] spells out [t] under [π], its elements are the list [L] the
    computation started with, and [T0], its first state, agrees with [T] outside
    of [L]. *)
Section zin.
Context (T0 : rb_tree) (L : list loc).

Definition zin (T : rb_tree) (π : path) (t : rbt) : Prop :=
  zrep T π t ∧ elems (plug π t) = L ∧ rb_frame L T0 T.

Lemma zin_up T f π t : zin T (f :: π) t ↔ zin T π (fill f t).
Proof. unfold zin. by rewrite zrep_up. Qed.

Lemma zin_plug T π t : zin T π t ↔ zin T [] (plug π t).
Proof. unfold zin. by rewrite zrep_plug. Qed.

Lemma zin_color T π c c' l x r (Q : () → rb_tree → Prop) :
  zin T π (Nd c l x r) → (∀ T', zin T' π (Nd c' l x r) → Q () T') →
  wp (set_color x c') Q T.
Proof.
  intros (Hrep & HL & HF) HQ. eapply wp_mono; [by eapply set_color_ok|].
  intros [] T' [Hrep' HF']. apply HQ. split_and!; [done| |].
  - rewrite <-HL. by apply plug_elems_eq.
  - rewrite HL in HF'. by eapply rb_frame_trans.
Qed.

Lemma zin_rotate_left T π c a x d b y e (Q : () → rb_tree → Prop) :
  zin T π (Nd c a x (Nd d b y e)) →
  (∀ T', zin T' π (Nd d (Nd c a x b) y e) → Q () T') →
  wp (RB_ROTATE_LEFT x) Q T.
Proof.
  intros (Hrep & HL & HF) HQ. eapply wp_mono; [by eapply rotate_left_ok|].
  intros [] T' [Hrep' HF']. apply HQ. split_and!; [done| |].
  - rewrite <-HL. apply plug_elems_eq. simpl. by rewrite <-!app_assoc.
  - rewrite HL in HF'. by eapply rb_frame_trans.
Qed.

Lemma zin_rotate_right T π c d a x b y e (Q : () → rb_tree → Prop) :
  zin T π (Nd c (Nd d a x b) y e) →
  (∀ T', zin T' π (Nd d a x (Nd c b y e)) → Q () T') →
  wp (RB_ROTATE_RIGHT y) Q T.
Proof.
  intros (Hrep & HL & HF) HQ. eapply wp_mono; [by eapply rotate_right_ok|].
  intros [] T' [Hrep' HF']. apply HQ. split_and!; [done| |].
  - rewrite <-HL. apply plug_elems_eq. simpl. by rewrite <-!app_assoc.
  - rewrite HL in HF'. by eapply rb_frame_trans.
Qed.

Section read.
Context T π c l x r (H : zin T π (Nd c l x r)).
Lemma zin_left Q : Q (root_of l) T → wp (RB_LEFT x) Q T.
Proof using H. eapply focus_left, H. Qed.
Lemma zin_right Q : Q (root_of r) T → wp (RB_RIGHT x) Q T.
Proof using H. eapply focus_right, H. Qed.
Lemma zin_parent Q : Q (parent_of π) T → wp (RB_PARENT x) Q T.
Proof using H. eapply focus_parent, H. Qed.
Lemma zin_get_color Q : Q c T → wp (RB_COLOR x) Q T.
Proof using H. eapply focus_color, H. Qed.
End read.

Lemma zin_is_black T π t Q :
  zin T π t → Q (bool_decide (color_of t = RB_BLACK)) T → wp (is_black (root_of t)) Q T.
Proof. intros [H _]. by eapply focus_is_black. Qed.

(** An element is not the root of a disjoint subtree. *)
Lemma zin_root_ne T π t f x :
  zin T (f :: π) t → x ∈ elems t →
  (match f with FL _ _ s | FR _ s _ => root_of s end) ≠ Some x ∧ frame_elm f ≠ x.
Proof.
  intros [Hz%zrep_nodup_split _] Hx. destruct f as [c y s|c s y]; simpl in *;
    nodup_split; split; [intros ?%root_of_elem|intros ->|intros ?%root_of_elem|intros ->];
    set_solver.
Qed.

End zin.

(** [upto f H]: see the focused tree of [H] from one frame lower. *)
Ltac refocus H f := let H' := fresh H in
  pose proof (proj2 (zin_up _ _ _ f _ _) H) as H'.
