(* ===== verification/RbInsert.v ===== *)
(** * Insertion into a red-black tree keeps it a red-black search tree

    [rbwf c n t]: [t] has a root of colour [c], every path to a leaf has [n]
    black nodes and no red node has a red child.  [pwf c n π]: the path [π]
    accepts such a subtree.  The loop of [RB_INSERT_COLOR] is shown by induction
    on the path above the red node that may have a red parent. *)
From stdpp Require Import base tactics list gmap sorting.
From Stdlib Require Import ZArith Lia.
From S2P Require Import Prelude Rbtree RbShape.

Inductive rbwf : rb_color → nat → rbt → Prop :=
| wf_leaf : rbwf RB_BLACK 0 Lf
| wf_red n l x r :
    rbwf RB_BLACK n l → rbwf RB_BLACK n r → rbwf RB_RED n (Nd RB_RED l x r)
| wf_black n cl cr l x r :
    rbwf cl n l → rbwf cr n r → rbwf RB_BLACK (S n) (Nd RB_BLACK l x r).

Fixpoint pwf (c : rb_color) (n : nat) (π : path) : Prop :=
  match π with
  | [] => c = RB_BLACK
  | (FL RB_RED _ s | FR RB_RED s _) :: π => c = RB_BLACK ∧ rbwf RB_BLACK n s ∧ pwf RB_RED n π
  | (FL RB_BLACK _ s | FR RB_BLACK s _) :: π => (∃ cs, rbwf cs n s) ∧ pwf RB_BLACK (S n) π
  end.

(** The relation between the C tree and the list of its elements that clients use:
    in key order, strictly, under a black root. *)
Definition key_sorted (key : loc → Z) (l : list loc) : Prop :=
  StronglySorted (λ a b, key a < key b)%Z l.

Definition rb_rep (key : loc → Z) (T : rb_tree) (l : list loc) : Prop :=
  ∃ t n, zrep T [] t ∧ elems t = l ∧ rbwf RB_BLACK n t ∧ key_sorted key l.

(** The height of a tree, and what the header of tree.h claims about it. *)
Fixpoint height (t : rbt) : nat :=
  match t with Lf => 0 | Nd _ l _ r => S (height l `max` height r) end.

Lemma rbwf_color c n t : rbwf c n t → color_of t = c.
Proof. by destruct 1. Qed.

Lemma rbwf_red_inv c n t :
  rbwf c n t → color_of t = RB_RED →
  ∃ l x r, t = Nd RB_RED l x r ∧ rbwf RB_BLACK n l ∧ rbwf RB_BLACK n r.
Proof. destruct 1; simpl; try done. eauto 10. Qed.

Lemma rbwf_not_red c n t : rbwf c n t → color_of t ≠ RB_RED → rbwf RB_BLACK n t.
Proof. destruct 1; simpl; try done; intros; by econstructor. Qed.

Lemma pwf_black c n π : pwf c n π → pwf RB_BLACK n π.
Proof. destruct π as [|[[] x r|[] l x] π]; simpl; naive_solver. Qed.

Lemma plug_wf c n π t : rbwf c n t → pwf c n π → ∃ m, rbwf RB_BLACK m (plug π t).
Proof.
  revert c n t. induction π as [|[[] x r|[] l x] π IH]; intros c n t Ht; simpl.
  - intros ->. eauto.
  - intros [[cs Hs] Hπ]. eapply IH; [|done]. by econstructor.
  - intros (-> & Hs & Hπ). eapply IH; [|done]. by econstructor.
  - intros [[cs Hs] Hπ]. eapply IH; [|done]. by econstructor.
  - intros (-> & Hs & Hπ). eapply IH; [|done]. by econstructor.
Qed.

(** A subtree of a red-black tree, and the path above it. *)
Lemma unplug_wf m π t : rbwf RB_BLACK m (plug π t) → ∃ c n, rbwf c n t ∧ pwf c n π.
Proof.
  revert m t. induction π as [|f π IH]; intros m t Ht; simpl in *.
  - exists RB_BLACK, m. done.
  - apply IH in Ht as (c & n & Ht & Hπ). destruct f as [c' x r|c' l x]; simpl in Ht;
      inversion Ht; subst; eauto 10.
Qed.

Lemma root_black_wf c n t : rbwf c n t → ∃ m, rbwf RB_BLACK m
  (match t with Nd _ l x r => Nd RB_BLACK l x r | Lf => Lf end).
Proof. destruct 1; eexists; try by econstructor. Qed.

(** What [RB_INSERT_COLOR_loop] leaves: the same elements, and a tree that is
    red-black once its root is blackened. *)
Definition ins_post (T0 : rb_tree) (L : list loc) (T : rb_tree) : Prop :=
  ∃ t c n, zin T0 L T [] t ∧ t ≠ Lf ∧ rbwf c n t.

Lemma plug_not_leaf π t : t ≠ Lf → plug π t ≠ Lf.
Proof. revert t. induction π as [|[] π IH]; intros t Ht; simpl; auto; by apply IH. Qed.

(** Pointer steps on a focused tree: each tactic consumes one macro. *)
Ltac rb_read H tac := apply wp_bind; eapply tac; [exact H|]; cbv beta; simpl root_of;
  simpl parent_of; simpl color_of.
Ltac rb_write H tac H' := apply wp_bind; eapply tac; [exact H|]; cbv beta;
  clear H; let T' := fresh "T" in intros T' H'.

Ltac up H := apply (proj1 (zin_up _ _ _ _ _ _)) in H; cbv [fill] in H.

(** The loop ends at once under a black parent. *)
Lemma ins_done T0 L fuel T π x c l r n :
  zin T0 L T π (Nd c l x r) → rbwf c n (Nd c l x r) → pwf c n π →
  (∀ p, parent_of π = Some p → c = RB_RED) →
  wp (RB_INSERT_COLOR_loop (S fuel) x) (λ _, ins_post T0 L) T.
Proof.
  intros Hz Hwf Hpwf Hred. simpl. rb_read Hz zin_parent.
  destruct (plug_wf _ _ _ _ Hwf Hpwf) as [m Hm].
  assert (ins_post T0 L T) as Hpost.
  { exists (plug π (Nd c l x r)), RB_BLACK, m. rewrite <-zin_plug.
    split_and!; try done. by apply plug_not_leaf. }
  destruct π as [|f π]; simpl; [done|].
  pose proof (Hred _ eq_refl) as Hc. subst c. apply zin_up in Hz.
  assert (∃ l' r', fill f (Nd RB_RED l x r) = Nd RB_BLACK l' (frame_elm f) r') as (l' & r' & E).
  { destruct f as [[]|[]]; simpl in *; naive_solver. }
  rewrite E in Hz. rb_read Hz zin_get_color.
  rewrite bool_decide_eq_false_2 by done. done.
Qed.

Section one_round.
Context (T0 : rb_tree) (L : list loc) (fuel n : nat).
(** The loop is known to work higher up, and under a black parent. *)
Context (IH : ∀ T π x l r m,
  zin T0 L T π (Nd RB_RED l x r) → rbwf RB_BLACK m l → rbwf RB_BLACK m r →
  pwf RB_BLACK m π → length π + 2 ≤ fuel →
  wp (RB_INSERT_COLOR_loop fuel x) (λ _, ins_post T0 L) T).

(** Recolouring under a red uncle is the same code on both sides; [f] and [f']
    are the grandparent's frame seen from the uncle and from the parent. *)
Lemma ins_recolour T π g ul uu ur pl p pr (left : bool) :
  let U c := Nd c ul uu ur in
  let P c := Nd c pl p pr in
  zin T0 L T π (if left then Nd RB_BLACK (P RB_RED) g (U RB_RED)
                else Nd RB_BLACK (U RB_RED) g (P RB_RED)) →
  rbwf RB_BLACK (S n) (U RB_BLACK) → rbwf RB_BLACK (S n) (P RB_BLACK) →
  pwf RB_BLACK (S n) π → length π + 2 ≤ fuel →
  wp (tmp ← deref (Some uu);
      set_color tmp RB_BLACK ;; RB_SET_BLACKRED p g ;; RB_INSERT_COLOR_loop fuel g)
    (λ _, ins_post T0 L) T.
Proof using IH.
  intros U P Hz HU HP Hπ Hfuel. apply wp_bind. eapply wp_deref; [done|].
  destruct left.
  - refocus Hz (FR RB_BLACK (P RB_RED) g). rb_write Hz0 zin_color H. up H.
    refocus H (FL RB_BLACK g (U RB_BLACK)). apply wp_bind. rb_write H0 zin_color H1. up H1.
    eapply zin_color; [exact H1|]. intros T3 H3.
    eapply IH; [exact H3|done|done|done|lia].
  - refocus Hz (FL RB_BLACK g (P RB_RED)). rb_write Hz0 zin_color H. up H.
    refocus H (FR RB_BLACK (U RB_BLACK) g). apply wp_bind. rb_write H0 zin_color H1. up H1.
    eapply zin_color; [exact H1|]. intros T3 H3.
    eapply IH; [exact H3|done|done|done|lia].
Qed.

(** The steps up to the test of the uncle's colour. *)
Ltac ins_enter Hx Hp Hg :=
  pose proof Hx as Hp; up Hp; pose proof Hp as Hg; up Hg;
  simpl; rb_read Hx zin_parent; rb_read Hp zin_get_color;
  rewrite bool_decide_eq_true_2 by done;
  apply wp_bind, wp_bind; eapply zin_parent; [exact Hp|]; eapply wp_deref; [done|]; cbv beta;
  rb_read Hg zin_left.

Ltac ins_uncle H :=
  apply wp_bind, wp_bind; eapply zin_is_black; [exact H|]; apply wp_ret; cbv beta.

Ltac black_uncle Hblack :=
  rewrite bool_decide_eq_true_2 by (destruct (color_of _); naive_solver); simpl negb; cbv match.

Lemma ins_round_LL T π g u x l r p s cu :
  zin T0 L T (FL RB_RED p s :: FL RB_BLACK g u :: π) (Nd RB_RED l x r) →
  rbwf RB_BLACK n l → rbwf RB_BLACK n r → rbwf RB_BLACK n s → rbwf cu n u →
  pwf RB_BLACK (S n) π → length π + 3 ≤ fuel →
  wp (RB_INSERT_COLOR_loop (S fuel) x) (λ _, ins_post T0 L) T.
Proof using IH.
  intros Hx Hl Hr Hs Hu Hπ Hfuel. ins_enter Hx Hp Hg.
  rewrite bool_decide_eq_true_2 by done.
  rb_read Hg zin_right. refocus Hg (FR RB_BLACK (Nd RB_RED (Nd RB_RED l x r) p s) g).
  ins_uncle Hg0. destruct (decide (color_of u = RB_RED)) as [Hured|Hublack].
  - destruct (rbwf_red_inv _ _ _ Hu Hured) as (ul & uu & ur & -> & Hul & Hur).
    eapply (ins_recolour T π g ul uu ur _ p _ true Hg); eauto using rbwf with lia.
  - black_uncle Hublack. rb_read Hp zin_right.
    destruct (zin_root_ne _ _ _ _ _ _ x Hx) as [Hne _]; [simpl; set_solver|].
    rewrite bool_decide_eq_false_2 by done.
    apply wp_bind. rb_write Hp zin_color H. up H.
    eapply zin_color; [exact H|]. clear H. intros T3 H.
    rb_write H zin_rotate_right H'. refocus H' (FL RB_BLACK p (Nd RB_RED s g u)).
    destruct fuel as [|fuel']; [lia|].
    eapply ins_done; [exact H'0|by constructor| |done].
    simpl. split; [|done]. exists RB_RED. constructor; [done|by eapply rbwf_not_red].
Qed.

Lemma ins_round_RL T π g u x l r p s cu :
  zin T0 L T (FR RB_RED s p :: FL RB_BLACK g u :: π) (Nd RB_RED l x r) →
  rbwf RB_BLACK n l → rbwf RB_BLACK n r → rbwf RB_BLACK n s → rbwf cu n u →
  pwf RB_BLACK (S n) π → length π + 3 ≤ fuel →
  wp (RB_INSERT_COLOR_loop (S fuel) x) (λ _, ins_post T0 L) T.
Proof using IH.
  intros Hx Hl Hr Hs Hu Hπ Hfuel. ins_enter Hx Hp Hg.
  rewrite bool_decide_eq_true_2 by done.
  rb_read Hg zin_right. refocus Hg (FR RB_BLACK (Nd RB_RED s p (Nd RB_RED l x r)) g).
  ins_uncle Hg0. destruct (decide (color_of u = RB_RED)) as [Hured|Hublack].
  - destruct (rbwf_red_inv _ _ _ Hu Hured) as (ul & uu & ur & -> & Hul & Hur).
    eapply (ins_recolour T π g ul uu ur _ p _ true Hg); eauto using rbwf with lia.
  - black_uncle Hublack. rb_read Hp zin_right.
    rewrite bool_decide_eq_true_2 by done. rb_write Hp zin_rotate_left H.
    apply wp_bind. rb_write H zin_color H'. up H'.
    eapply zin_color; [exact H'|]. clear H'. intros T3 H'.
    rb_write H' zin_rotate_right H. refocus H (FL RB_BLACK x (Nd RB_RED r g u)).
    destruct fuel as [|fuel']; [lia|].
    eapply ins_done; [exact H0|by constructor| |done].
    simpl. split; [|done]. exists RB_RED. constructor; [done|by eapply rbwf_not_red].
Qed.

Lemma ins_round_RR T π g u x l r p s cu :
  zin T0 L T (FR RB_RED s p :: FR RB_BLACK u g :: π) (Nd RB_RED l x r) →
  rbwf RB_BLACK n l → rbwf RB_BLACK n r → rbwf RB_BLACK n s → rbwf cu n u →
  pwf RB_BLACK (S n) π → length π + 3 ≤ fuel →
  wp (RB_INSERT_COLOR_loop (S fuel) x) (λ _, ins_post T0 L) T.
Proof using IH.
  intros Hx Hl Hr Hs Hu Hπ Hfuel. ins_enter Hx Hp Hg.
  destruct (zin_root_ne _ _ _ _ _ _ p Hp) as [Hne _]; [simpl; set_solver|].
  rewrite bool_decide_eq_false_2 by done. clear Hne.
  rb_read Hg zin_left. refocus Hg (FL RB_BLACK g (Nd RB_RED s p (Nd RB_RED l x r))).
  ins_uncle Hg0. destruct (decide (color_of u = RB_RED)) as [Hured|Hublack].
  - destruct (rbwf_red_inv _ _ _ Hu Hured) as (ul & uu & ur & -> & Hul & Hur).
    eapply (ins_recolour T π g ul uu ur _ p _ false Hg); eauto using rbwf with lia.
  - black_uncle Hublack. rb_read Hp zin_left.
    destruct (zin_root_ne _ _ _ _ _ _ x Hx) as [Hne _]; [simpl; set_solver|].
    rewrite bool_decide_eq_false_2 by done.
    apply wp_bind. rb_write Hp zin_color H. up H.
    eapply zin_color; [exact H|]. clear H. intros T3 H.
    rb_write H zin_rotate_left H'. refocus H' (FR RB_BLACK (Nd RB_RED u g s) p).
    destruct fuel as [|fuel']; [lia|].
    eapply ins_done; [exact H'0|by constructor| |done].
    simpl. split; [|done]. exists RB_RED. constructor; [by eapply rbwf_not_red|done].
Qed.

Lemma ins_round_LR T π g u x l r p s cu :
  zin T0 L T (FL RB_RED p s :: FR RB_BLACK u g :: π) (Nd RB_RED l x r) →
  rbwf RB_BLACK n l → rbwf RB_BLACK n r → rbwf RB_BLACK n s → rbwf cu n u →
  pwf RB_BLACK (S n) π → length π + 3 ≤ fuel →
  wp (RB_INSERT_COLOR_loop (S fuel) x) (λ _, ins_post T0 L) T.
Proof using IH.
  intros Hx Hl Hr Hs Hu Hπ Hfuel. ins_enter Hx Hp Hg.
  destruct (zin_root_ne _ _ _ _ _ _ p Hp) as [Hne _]; [simpl; set_solver|].
  rewrite bool_decide_eq_false_2 by done. clear Hne.
  rb_read Hg zin_left. refocus Hg (FL RB_BLACK g (Nd RB_RED (Nd RB_RED l x r) p s)).
  ins_uncle Hg0. destruct (decide (color_of u = RB_RED)) as [Hured|Hublack].
  - destruct (rbwf_red_inv _ _ _ Hu Hured) as (ul & uu & ur & -> & Hul & Hur).
    eapply (ins_recolour T π g ul uu ur _ p _ false Hg); eauto using rbwf with lia.
  - black_uncle Hublack. rb_read Hp zin_left.
    rewrite bool_decide_eq_true_2 by done. rb_write Hp zin_rotate_right H.
    apply wp_bind. rb_write H zin_color H'. up H'.
    eapply zin_color; [exact H'|]. clear H'. intros T3 H'.
    rb_write H' zin_rotate_left H. refocus H (FR RB_BLACK (Nd RB_RED u g l) x).
    destruct fuel as [|fuel']; [lia|].
    eapply ins_done; [exact H0|by constructor| |done].
    simpl. split; [|done]. exists RB_RED. constructor; [by eapply rbwf_not_red|done].
Qed.
End one_round.

(** The whole loop, from a red node whose parent may be red. *)
Lemma ins_loop_ok T0 L fuel : ∀ T π x l r n,
  zin T0 L T π (Nd RB_RED l x r) → rbwf RB_BLACK n l → rbwf RB_BLACK n r →
  pwf RB_BLACK n π → length π + 2 ≤ fuel →
  wp (RB_INSERT_COLOR_loop fuel x) (λ _, ins_post T0 L) T.
Proof.
  induction fuel as [|fuel IH]; intros T π x l r n Hz Hl Hr Hπ Hfuel; [lia|].
  destruct π as [|f π].
  { simpl. rb_read Hz zin_parent. exists (Nd RB_RED l x r), RB_RED, n.
    split_and!; [done..|by constructor]. }
  assert (pwf RB_RED n (f :: π) ∨ ∃ p s, (f = FL RB_RED p s ∨ f = FR RB_RED s p) ∧
    rbwf RB_BLACK n s ∧ pwf RB_RED n π) as [Hred|(p & s & Hf & Hs & Hπ')].
  { destruct f as [[] p s|[] s p]; simpl in *; naive_solver. }
  { eapply ins_done; [done|by constructor|done..]. }
  destruct π as [|[[] g u|[] u g] π]; simpl in Hπ', Hfuel; try naive_solver;
    destruct Hπ' as [[cu Hu] Hπ'], Hf as [-> | ->].
  - eapply ins_round_LL; eauto; lia.
  - eapply ins_round_RL; eauto; lia.
  - eapply ins_round_LR; eauto; lia.
  - eapply ins_round_RR; eauto; lia.
Qed.

(** ** Sorted lists: what the tree means to its clients *)
Module SL.
Section sorted_list.
Context (key : loc → Z).

(** The element with key [k], if any. *)
Definition lookup (k : Z) (l : list loc) : option loc :=
  snd <$> list_find (λ x, key x = k) l.

Fixpoint insert (e : loc) (l : list loc) : list loc :=
  match l with
  | [] => [e]
  | x :: l' => if (key e <? key x)%Z then e :: l else x :: insert e l'
  end.

Definition remove (e : loc) (l : list loc) : list loc := filter (.≠ e) l.
End sorted_list.
End SL.

Section sorted.
Context (key : loc → Z).

Lemma key_sorted_app l1 l2 :
  key_sorted key (l1 ++ l2) ↔
  key_sorted key l1 ∧ key_sorted key l2 ∧ ∀ x y, x ∈ l1 → y ∈ l2 → (key x < key y)%Z.
Proof.
  unfold key_sorted. induction l1 as [|a l1 IH]; simpl.
  - split; [|naive_solver]. intros. split_and!; [constructor|done|set_solver].
  - rewrite !StronglySorted_cons, IH, Forall_app, !Forall_forall. set_solver.
Qed.

Lemma key_sorted_cons x l :
  key_sorted key (x :: l) ↔ key_sorted key l ∧ ∀ y, y ∈ l → (key x < key y)%Z.
Proof. unfold key_sorted. rewrite StronglySorted_cons, Forall_forall. tauto. Qed.

Lemma key_sorted_nodup l : key_sorted key l → NoDup l.
Proof.
  induction l as [|x l IH]; [constructor|]. rewrite key_sorted_cons. intros [Hl Hx].
  constructor; [|auto]. intros Hin. specialize (Hx x Hin). lia.
Qed.

Lemma key_sorted_ext key' l :
  (∀ x, x ∈ l → key' x = key x) → key_sorted key l → key_sorted key' l.
Proof.
  induction l as [|x l IH]; intros Hk; [constructor|]. unfold key_sorted in *.
  rewrite !StronglySorted_cons, !Forall_forall. intros [Hx Hl]. split.
  - intros y Hy. rewrite (Hk x), (Hk y); [by apply Hx|set_solver..].
  - apply IH; [|done]. intros; apply Hk; by right.
Qed.

Lemma SL_lookup_found l x k :
  key_sorted key l → x ∈ l → key x = k → SL.lookup key k l = Some x.
Proof.
  intros Hs (l1 & l2 & ->)%list_elem_of_split Hk. unfold SL.lookup.
  apply key_sorted_app in Hs as (_ & _ & Hs).
  rewrite list_find_app_r.
  - simpl. rewrite decide_True by done. done.
  - apply list_find_None. apply Forall_forall. intros y Hy Hky.
    specialize (Hs y x Hy ltac:(by left)). lia.
Qed.

Lemma SL_lookup_None l k : (∀ x, x ∈ l → key x ≠ k) → SL.lookup key k l = None.
Proof.
  intros H. unfold SL.lookup. apply fmap_None, list_find_None, Forall_forall. auto.
Qed.

Lemma SL_lookup_Some l k x : SL.lookup key k l = Some x → x ∈ l ∧ key x = k.
Proof.
  unfold SL.lookup. intros ([i y] & Hf & [= ->])%fmap_Some.
  apply list_find_Some in Hf as (Hi & Hk & _). split; [|done]. by eapply list_elem_of_lookup_2.
Qed.

Lemma SL_insert_split e l1 l2 :
  (∀ x, x ∈ l1 → (key x < key e)%Z) → (∀ x, x ∈ l2 → (key e < key x)%Z) →
  SL.insert key e (l1 ++ l2) = l1 ++ e :: l2.
Proof.
  intros H1 H2. induction l1 as [|x l1 IH]; simpl.
  - destruct l2 as [|y l2]; simpl; [done|].
    specialize (H2 y ltac:(by left)). by rewrite (proj2 (Z.ltb_lt _ _)).
  - pose proof (H1 x ltac:(by left)). rewrite (proj2 (Z.ltb_ge _ _)) by lia.
    f_equal. apply IH. intros; apply H1; by right.
Qed.

Lemma SL_insert_elem e l x : x ∈ SL.insert key e l ↔ x = e ∨ x ∈ l.
Proof. induction l as [|y l IH]; simpl; [set_solver|]. case_match; set_solver. Qed.

Lemma SL_insert_sorted e l :
  key_sorted key l → SL.lookup key (key e) l = None → key_sorted key (SL.insert key e l).
Proof.
  intros Hs Hn.
  assert (∀ x, x ∈ l → key x ≠ key e) as Hne.
  { intros x Hx Hk. by rewrite (SL_lookup_found l x (key e)) in Hn. }
  clear Hn. induction l as [|x l IH]; simpl.
  - apply key_sorted_cons. split; [done|]. by intros y ?%not_elem_of_nil.
  - apply key_sorted_cons in Hs as [Hl Hx]. specialize (Hne x ltac:(by left)) as Hxe.
    destruct (Z.ltb_spec (key e) (key x)).
    + apply key_sorted_cons. split; [by apply key_sorted_cons|].
      intros y [->|Hy]%elem_of_cons; [done|]. specialize (Hx y Hy). lia.
    + apply key_sorted_cons. split.
      * apply IH; [done|]. intros; apply Hne; by right.
      * intros y [->|Hy]%SL_insert_elem; [lia|auto].
Qed.

Lemma rb_rep_ext key' T l :
  (∀ x, x ∈ l → key' x = key x) → rb_rep key T l → rb_rep key' T l.
Proof. intros Hk (t & n & ? & ? & ? & Hs). exists t, n. split_and!; try done.
  by apply key_sorted_ext. Qed.

(** ** The descent of [RB_INSERT] *)

Definition comp_ok (π : path) (comp : Z) : Prop :=
  match π with
  | [] => True | FL _ _ _ :: _ => (comp < 0)%Z | FR _ _ _ :: _ => (0 < comp)%Z
  end.

Definition key_bounds (elm : loc) (π : path) : Prop :=
  (∀ x, x ∈ lefts π → (key x < key elm)%Z) ∧ (∀ x, x ∈ rights π → (key elm < key x)%Z).

Lemma descend_ok elm T t : ∀ π fuel comp,
  zrep T π t → key_sorted key (elems (plug π t)) → key_bounds elm π → comp_ok π comp →
  length (elems t) < fuel →
  wp (rb_descend key fuel elm (root_of t) (parent_of π) comp)
    (λ d T', T' = T ∧ match d with
      | inl x => x ∈ elems (plug π t) ∧ key x = key elm
      | inr (par, comp') => ∃ π', plug π' Lf = plug π t ∧ par = parent_of π' ∧
          comp_ok π' comp' ∧ key_bounds elm π'
      end) T.
Proof.
  induction t as [|c l IHl x r IHr]; intros π fuel comp Hz Hs Hb Hc Hfuel;
    destruct fuel as [|fuel]; simpl in *; try lia.
  - split; [done|]. by exists π.
  - pose proof Hs as Hs'. rewrite plug_elems in Hs'. simpl in Hs'.
    apply key_sorted_app in Hs' as (Hsl & Hs' & Hlr).
    apply key_sorted_app in Hs' as (Hm & Hsr & Hmr).
    apply key_sorted_app in Hm as (Hl & [Hr Hxr]%key_sorted_cons & Hlx).
    destruct Hb as [Hbl Hbr]. rewrite length_app in Hfuel; simpl in Hfuel.
    unfold sleep_cmp. destruct (key elm <? key x)%Z eqn:E1; simpl.
    + apply Z.ltb_lt in E1. apply wp_bind. eapply focus_left; [done|].
      apply (IHl (FL c x r :: π)); [by apply zrep_up|done| |done|lia].
      split; [done|]. simpl. intros y [->|[Hy|Hy]%elem_of_app]%elem_of_cons;
        [done| |by apply Hbr]. specialize (Hxr y Hy). lia.
    + apply Z.ltb_ge in E1. destruct (key elm =? key x)%Z eqn:E2; simpl.
      * apply Z.eqb_eq in E2. split; [done|]. split; [|done].
        rewrite plug_elems. simpl. set_solver.
      * apply Z.eqb_neq in E2. apply wp_bind. eapply focus_right; [done|].
        apply (IHr (FR c l x :: π)); [by apply zrep_up|done| |done|lia].
        split; [|done]. simpl.
        intros y [Hy|[Hy|Hy%list_elem_of_singleton]%elem_of_app]%elem_of_app;
          [by apply Hbl| |subst; lia].
        specialize (Hlx y x Hy ltac:(by left)). lia.
Qed.

(** Hanging the new red node in the hole. *)
Lemma attach_ok elm T π comp :
  zrep T π Lf → elm ∉ plocs π → comp_ok π comp →
  wp (RB_SET elm (parent_of π) ;;
      match parent_of π with
      | Some p => if (comp <? 0)%Z then set_left p (Some elm) else set_right p (Some elm)
      | None => set_root (Some elm)
      end)
    (λ _ T', zin T (elems (plug π (Nd RB_RED Lf elm Lf))) T' π (Nd RB_RED Lf elm Lf)) T.
Proof.
  intros Hz He Hc. pose proof (zrep_nodup_split _ _ _ Hz) as Hnd. simpl in Hnd.
  destruct Hz as [Hroot _ Hcr HN]. apply wp_bind. unfold RB_SET, rb_put.
  apply wp_modify. cbv beta.
  assert (NoDup (elems (plug π (Nd RB_RED Lf elm Lf)))) as HN'.
  { rewrite plug_elems_perm. simpl. by constructor. }
  assert (elm ∈ elems (plug π (Nd RB_RED Lf elm Lf))) as Hin.
  { rewrite plug_elems. set_solver. }
  assert (zin T (elems (plug π (Nd RB_RED Lf elm Lf)))
    (RbTree (top π (Some elm)) (rehole π (Some elm)
      (<[elm := RbEntry None None (parent_of π) RB_RED]> (rb_nodes T)))) π
      (Nd RB_RED Lf elm Lf)) as Hzin.
  { split_and!; [|done|].
    - constructor; simpl; [done| |by eapply crep_rehole, crep_insert|done].
      split; [|done]. rewrite rehole_ne by done. apply lookup_insert_eq.
    - apply rb_frame_focus. simpl. eapply rb_frame_rehole; [set_solver|].
      eapply rb_frame_insert; [set_solver|done]. }
  destruct π as [|f π]; [done|]. simpl in Hroot, Hcr, He, Hc.
  destruct f as [c x r|c l x]; simpl in He, Hc; destruct Hcr as (Hx & _);
    change (parent_of (_ :: π)) with (Some x) in *; cbv match.
  - rewrite (proj2 (Z.ltb_lt _ _)) by lia.
    erewrite (rehole_insert_alter _ _ _ (FL c x r) x) in Hzin;
      [|done|done|by rewrite lookup_insert_ne by set_solver].
    eapply wp_set_left; [simpl; rewrite lookup_insert_ne by set_solver; done|].
    simpl. by rewrite Hroot.
  - rewrite (proj2 (Z.ltb_ge _ _)) by lia.
    erewrite (rehole_insert_alter _ _ _ (FR c l x) x) in Hzin;
      [|done|done|by rewrite lookup_insert_ne by set_solver].
    eapply wp_set_right; [simpl; rewrite lookup_insert_ne by set_solver; done|].
    simpl. by rewrite Hroot.
Qed.

Lemma insert_color_ok T0 L fuel T π x n :
  zin T0 L T π (Nd RB_RED Lf x Lf) → pwf RB_BLACK 0 π → n = 0 → length π + 2 ≤ fuel →
  wp (RB_INSERT_COLOR fuel x) (λ _ T', ∃ t m, zin T0 L T' [] t ∧ rbwf RB_BLACK m t) T.
Proof.
  intros Hz Hπ -> Hfuel. unfold RB_INSERT_COLOR. apply wp_bind.
  eapply wp_mono; [eapply ins_loop_ok; [exact Hz|constructor|constructor|done|lia]|].
  intros [] T1 (t & c & m & Hz1 & Hne & Hwf). destruct t as [|c' l y r]; [done|].
  apply wp_bind, wp_bind. apply wp_get. rewrite (zrep_root _ _ _ (proj1 Hz1)).
  eapply wp_deref; [done|]. cbv beta. eapply zin_color; [exact Hz1|]. intros T2 Hz2.
  apply root_black_wf in Hwf as [k Hk]. by exists (Nd RB_BLACK l y r), k.
Qed.

Lemma RB_INSERT_ok T l elm :
  rb_rep key T l → elm ∉ l →
  wp (RB_INSERT key elm) (λ o T', o = SL.lookup key (key elm) l ∧
    match o with
    | Some _ => T' = T
    | None => rb_rep key T' (SL.insert key elm l) ∧ rb_frame (elm :: l) T T'
    end) T.
Proof.
  intros (t & n & Hz & Hl & Hwf & Hs) He. unfold RB_INSERT.
  apply wp_bind. unfold rb_fuel. apply wp_get. apply wp_bind. unfold RB_ROOT. apply wp_get.
  rewrite (zrep_root _ _ _ Hz). simpl top.
  pose proof (zrep_path_size _ _ _ Hz) as Hsz. simpl in Hsz.
  apply wp_bind. eapply wp_mono.
  { apply (descend_ok elm T t []); [done|by subst| |done|lia]. split; simpl; set_solver. }
  intros [x|[par comp]] T1 [-> Hd]; simpl in Hd.
  - apply wp_ret. destruct Hd as [Hx Hk]. split; [|done].
    symmetry. by apply SL_lookup_found; [done|congruence|].
  - destruct Hd as (π & Hπ & -> & Hcomp & Hbl & Hbr).
    rewrite <-Hπ in *. rewrite plug_elems in Hl. simpl in Hl.
    apply zrep_plug in Hz. destruct (unplug_wf _ _ _ Hwf) as (c0 & n0 & Hlf & Hpwf).
    inversion Hlf; subst c0 n0; clear Hlf.
    assert (elm ∉ plocs π) as Hnotin by (rewrite plocs_perm, Hl; done).
    pose proof (zrep_path_size _ _ _ Hz) as Hlen. simpl in Hlen.
    pose proof (attach_ok elm T π comp Hz Hnotin Hcomp) as Ha. apply wp_bind in Ha.
    apply wp_bind. eapply wp_mono; [exact Ha|]. intros [] T1 Ha1.
    apply wp_bind. eapply wp_mono; [exact Ha1|]. intros [] T2 Hz2. clear Ha Ha1.
    apply wp_bind. eapply wp_mono; [eapply insert_color_ok; [exact Hz2|done|done|lia]|].
    intros [] T3 (t' & m & (Hz3 & Hel & HF) & Hwf'). apply wp_ret.
    assert (elems (plug π (Nd RB_RED Lf elm Lf)) = SL.insert key elm l) as Hins.
    { rewrite plug_elems, <-Hl. simpl. by rewrite SL_insert_split. }
    rewrite Hins in *. split; [|split].
    + symmetry. apply SL_lookup_None. intros x Hx Hk. rewrite <-Hl in Hx.
      apply elem_of_app in Hx as [Hx|Hx]; [specialize (Hbl x Hx)|specialize (Hbr x Hx)]; lia.
    + exists t', m. split_and!; try done. rewrite <-Hl, SL_insert_split by done.
      subst l. apply key_sorted_app in Hs as (Hs1 & Hs2 & _). apply key_sorted_app.
      rewrite key_sorted_cons. split_and!; try done.
      intros x y Hx [->|Hy]%elem_of_cons; [by apply Hbl|].
      specialize (Hbl x Hx). specialize (Hbr y Hy). lia.
    + eapply rb_frame_mono; [|exact HF]. intros x. rewrite SL_insert_elem. set_solver.
Qed.
End sorted.
