(* ===== verification/RbRemove.v ===== *)
(** * Removal from a red-black tree keeps it a red-black search tree

    [RB_REMOVE_COLOR] runs with a subtree that is one black node short; the
    invariant of its loop is [awf] below and [pwf] above, and each round either
    moves the deficit up or repairs it by rotations. *)
From stdpp Require Import base tactics list gmap sorting.
From Stdlib Require Import ZArith Lia.
From S2P Require Import Prelude Rbtree RbShape RbInsert.

(** The subtree short of a black node: red-black, or a red root over anything. *)
Definition awf (n : nat) (t : rbt) : Prop :=
  rbwf RB_BLACK n t ∨
  ∃ l x r cl cr, t = Nd RB_RED l x r ∧ rbwf cl n l ∧ rbwf cr n r.

Definition black (t : rbt) : rbt :=
  match t with Lf => Lf | Nd _ l x r => Nd RB_BLACK l x r end.

(** Black height of a node of colour [c] whose children have height [S n]. *)
Definition bh_up (c : rb_color) (n : nat) : nat :=
  match c with RB_RED => S n | RB_BLACK => S (S n) end.

Definition rm_post (T0 : rb_tree) (L : list loc) (o : option loc) (T : rb_tree) : Prop :=
  ∃ π t m, o = root_of t ∧ zin T0 L T π t ∧ rbwf RB_BLACK m (plug π (black t)).

Lemma rbwf_black_root m t : rbwf RB_BLACK m t → black t = t.
Proof. by inversion 1. Qed.

Lemma rbwf_nonleaf c n t :
  rbwf c (S n) t → ∃ l x r, t = Nd c l x r.
Proof. inversion 1; subst; eauto. Qed.

Lemma rbwf_black_inv n t :
  rbwf RB_BLACK (S n) t →
  ∃ l x r cl cr, t = Nd RB_BLACK l x r ∧ rbwf cl n l ∧ rbwf cr n r.
Proof. inversion 1; subst; eauto 10. Qed.

Lemma rbwf_node c n l x r : c = RB_RED ∨ c = RB_BLACK →
  rbwf RB_BLACK (S n) l → rbwf RB_BLACK (S n) r → rbwf c (bh_up c n) (Nd c l x r).
Proof. intros [-> | ->] ? ?; simpl; by econstructor. Qed.

Lemma rb_color_cases (c : rb_color) : c = RB_RED ∨ c = RB_BLACK.
Proof. destruct c; auto. Qed.

Lemma top_elem f π h : ∃ y, top (f :: π) h = Some y ∧ y ∈ plocs (f :: π).
Proof.
  revert f h. induction π as [|f' π IH]; intros f h.
  - exists (frame_elm f). destruct f; simpl; split; [done|by left|done|by left].
  - destruct (IH f' (Some (frame_elm f))) as (y & Hy & Hin). exists y. split; [done|].
    destruct f; simpl in *; set_solver.
Qed.

(** The root is not the focused node, unless the path is empty. *)
Lemma zin_root_top T0 L T f π t : zin T0 L T (f :: π) t → root_of t ≠ rbh_root T.
Proof.
  intros (Hz & _ & _) Heq. rewrite (zrep_root _ _ _ Hz) in Heq.
  destruct (top_elem f π (root_of t)) as (y & Hy & Hin). rewrite Hy in Heq.
  apply root_of_elem in Heq. apply zrep_nodup_split, NoDup_app in Hz. naive_solver.
Qed.

Lemma blacken_ok T0 L T π t (Q : () → rb_tree → Prop) :
  zin T0 L T π t → (∀ T', zin T0 L T' π (black t) → Q () T') → wp (blacken (root_of t)) Q T.
Proof.
  intros Hz HQ. destruct t as [|c l x r]; simpl in *.
  - apply wp_ret. by apply HQ.
  - by eapply zin_color.
Qed.

(** The loop stops on a red node, at the root, or after a repair. *)
Lemma rm_stop T0 L fuel T π t n :
  zin T0 L T π t → awf n t → pwf RB_BLACK (S n) π →
  color_of t = RB_RED ∨ π = [] →
  wp (RB_REMOVE_COLOR_loop (S fuel) (parent_of π) (root_of t)) (rm_post T0 L) T.
Proof.
  intros Hz Ht Hπ Hor. simpl. apply wp_bind. eapply zin_is_black; [exact Hz|].
  apply wp_bind. unfold RB_ROOT. apply wp_get.
  assert (rm_post T0 L (root_of t) T) as Hpost.
  { assert (∃ m, rbwf RB_BLACK m (plug π (black t))) as [m Hm]; [|by exists π, t, m].
    destruct Ht as [Ht|(l & x & r & cl & cr & -> & Hl & Hr)]; simpl.
    - rewrite (rbwf_black_root _ _ Ht). destruct Hor as [Hred| ->]; [|by eauto].
      by rewrite (rbwf_color _ _ _ Ht) in Hred.
    - eapply plug_wf; [|exact Hπ]. by econstructor. }
  destruct Hor as [Hred| ->].
  - rewrite Hred. done.
  - rewrite (bool_decide_eq_true_2 (root_of t = _)) by by rewrite (zrep_root _ _ _ (proj1 Hz)).
    rewrite andb_false_r. done.
Qed.

Section one_round.
Context (T0 : rb_tree) (L : list loc) (fuel n : nat).
Context (IH : ∀ T π t m,
  zin T0 L T π t → awf m t → pwf RB_BLACK (S m) π → length π < fuel →
  wp (RB_REMOVE_COLOR_loop fuel (parent_of π) (root_of t)) (rm_post T0 L) T).

(** A repaired tree: the loop breaks with [elm = RB_ROOT(head)]. *)
Lemma rm_break T π c t :
  zin T0 L T π t → rbwf c (bh_up c n) t → pwf c (bh_up c n) π →
  wp RB_ROOT (rm_post T0 L) T.
Proof.
  intros Hz Ht Hπ. destruct (plug_wf _ _ _ _ Ht Hπ) as [m Hm].
  unfold RB_ROOT. apply wp_get. apply zin_plug in Hz.
  exists [], (plug π t), m. split_and!; [by rewrite (zrep_root _ _ _ (proj1 Hz))|done|].
  simpl. by rewrite (rbwf_black_root _ _ Hm).
Qed.

(** The far child is red: recolour, rotate, done. *)
Lemma rm_final_left T π c t p sl z w1 w w2 cl :
  zin T0 L T π (Nd c t p (Nd RB_BLACK sl z (Nd RB_RED w1 w w2))) →
  rbwf RB_BLACK n t → rbwf cl n sl → rbwf RB_BLACK n w1 → rbwf RB_BLACK n w2 →
  pwf c (bh_up c n) π →
  wp (pc ← RB_COLOR p; set_color z pc ;; set_color p RB_BLACK ;;
      r ← RB_RIGHT z; blacken r ;; RB_ROTATE_LEFT p ;; RB_ROOT) (rm_post T0 L) T.
Proof.
  intros Hz Ht Hsl Hw1 Hw2 Hπ. rb_read Hz zin_get_color.
  refocus Hz (FR c t p). rb_write Hz0 zin_color H. up H. rb_write H zin_color H'.
  refocus H' (FR RB_BLACK t p). rb_read H'0 zin_right.
  refocus H'0 (FR c sl z). apply wp_bind.
  change (Some w) with (root_of (Nd RB_RED w1 w w2)).
  eapply blacken_ok; [exact H'1|]. clear H' H'0 H'1. intros T3 H. simpl black in H. up H. up H.
  rb_write H zin_rotate_left H'. eapply rm_break; [exact H'| |done].
  apply rbwf_node; [apply rb_color_cases|by econstructor..].
Qed.

Lemma rm_final_right T π c t p sr z w1 w w2 cr :
  zin T0 L T π (Nd c (Nd RB_BLACK (Nd RB_RED w1 w w2) z sr) p t) →
  rbwf RB_BLACK n t → rbwf cr n sr → rbwf RB_BLACK n w1 → rbwf RB_BLACK n w2 →
  pwf c (bh_up c n) π →
  wp (pc ← RB_COLOR p; set_color z pc ;; set_color p RB_BLACK ;;
      l ← RB_LEFT z; blacken l ;; RB_ROTATE_RIGHT p ;; RB_ROOT) (rm_post T0 L) T.
Proof.
  intros Hz Ht Hsl Hw1 Hw2 Hπ. rb_read Hz zin_get_color.
  refocus Hz (FL c p t). rb_write Hz0 zin_color H. up H. rb_write H zin_color H'.
  refocus H' (FL RB_BLACK p t). rb_read H'0 zin_left.
  refocus H'0 (FL c z sr). apply wp_bind.
  change (Some w) with (root_of (Nd RB_RED w1 w w2)).
  eapply blacken_ok; [exact H'1|]. clear H' H'0 H'1. intros T3 H. simpl black in H. up H. up H.
  rb_write H zin_rotate_right H'. eapply rm_break; [exact H'| |done].
  apply rbwf_node; [apply rb_color_cases|by econstructor..].
Qed.

(** The sibling is black: push the deficit up, or repair here. *)
Lemma rm_sibling_left T π c t p sl z sr cl cr :
  zin T0 L T π (Nd c t p (Nd RB_BLACK sl z sr)) →
  rbwf RB_BLACK n t → rbwf cl n sl → rbwf cr n sr → pwf c (bh_up c n) π →
  (c = RB_BLACK → length π < fuel) → 0 < fuel →
  wp (lb ← (l ← RB_LEFT z; is_black l);
      rb ← (r ← RB_RIGHT z; is_black r);
      if lb && rb then
        set_color z RB_RED ;;
        pp ← RB_PARENT p;
        RB_REMOVE_COLOR_loop fuel pp (Some p)
      else
        tmp ← (if rb : bool then
                 oleft ← RB_LEFT z;
                 blacken oleft ;;
                 set_color z RB_RED ;;
                 RB_ROTATE_RIGHT z ;;
                 r ← RB_RIGHT p; deref r
               else mret z);
        pc ← RB_COLOR p;
        set_color tmp pc ;;
        set_color p RB_BLACK ;;
        r ← RB_RIGHT tmp;
        blacken r ;;
        RB_ROTATE_LEFT p ;;
        RB_ROOT) (rm_post T0 L) T.
Proof using IH.
  intros Hz Ht Hsl Hsr Hπ Hfuel Hpos.
  refocus Hz (FR c t p). refocus Hz0 (FL RB_BLACK z sr). refocus Hz0 (FR RB_BLACK sl z).
  apply wp_bind. rb_read Hz0 zin_left. eapply zin_is_black; [exact Hz1|].
  apply wp_bind. rb_read Hz0 zin_right. eapply zin_is_black; [exact Hz2|].
  rewrite (rbwf_color _ _ _ Hsl), (rbwf_color _ _ _ Hsr).
  destruct cr; [destruct cl|]; simpl.
  - rb_write Hz0 zin_color H. up H. rb_read H zin_parent.
    destruct c; simpl in Hπ.
    + eapply (IH _ _ (Nd RB_BLACK t p (Nd RB_RED sl z sr))); [exact H| |exact Hπ|auto].
      left. econstructor; [done|by constructor].
    + destruct fuel; [lia|].
      eapply (rm_stop _ _ _ _ _ (Nd RB_RED t p (Nd RB_RED sl z sr)) n);
        [exact H| |by eapply pwf_black|by left].
      right. do 5 eexists. split; [done|]. split; [done|by constructor].
  - inversion Hsl as [|? w1 w w2 Hw1 Hw2|]; subst; simpl.
    apply wp_bind. rb_read Hz0 zin_left. apply wp_bind.
    change (Some w) with (root_of (Nd RB_RED w1 w w2)).
    eapply blacken_ok; [exact Hz1|]. clear Hz Hz0 Hz1 Hz2. intros T1 H. simpl black in H. up H.
    rb_write H zin_color H'. rb_write H' zin_rotate_right H. up H. rb_read H zin_right.
    eapply wp_deref; [done|].
    eapply rm_final_left; [exact H|done..].
  - inversion Hsr as [|? w1 w w2 Hw1 Hw2|]; subst; simpl.
    rewrite andb_false_r. apply wp_bind, wp_ret. eapply rm_final_left; [exact Hz|done..].
Qed.

Lemma rm_sibling_right T π c t p sl z sr cl cr :
  zin T0 L T π (Nd c (Nd RB_BLACK sl z sr) p t) →
  rbwf RB_BLACK n t → rbwf cl n sl → rbwf cr n sr → pwf c (bh_up c n) π →
  (c = RB_BLACK → length π < fuel) → 0 < fuel →
  wp (lb ← (l ← RB_LEFT z; is_black l);
      rb ← (r ← RB_RIGHT z; is_black r);
      if lb && rb then
        set_color z RB_RED ;;
        pp ← RB_PARENT p;
        RB_REMOVE_COLOR_loop fuel pp (Some p)
      else
        tmp ← (if lb : bool then
                 oright ← RB_RIGHT z;
                 blacken oright ;;
                 set_color z RB_RED ;;
                 RB_ROTATE_LEFT z ;;
                 l ← RB_LEFT p; deref l
               else mret z);
        pc ← RB_COLOR p;
        set_color tmp pc ;;
        set_color p RB_BLACK ;;
        l ← RB_LEFT tmp;
        blacken l ;;
        RB_ROTATE_RIGHT p ;;
        RB_ROOT) (rm_post T0 L) T.
Proof using IH.
  intros Hz Ht Hsl Hsr Hπ Hfuel Hpos.
  refocus Hz (FL c p t). refocus Hz0 (FL RB_BLACK z sr). refocus Hz0 (FR RB_BLACK sl z).
  apply wp_bind. rb_read Hz0 zin_left. eapply zin_is_black; [exact Hz1|].
  apply wp_bind. rb_read Hz0 zin_right. eapply zin_is_black; [exact Hz2|].
  rewrite (rbwf_color _ _ _ Hsl), (rbwf_color _ _ _ Hsr).
  destruct cl; [destruct cr|]; simpl.
  - rb_write Hz0 zin_color H. up H. rb_read H zin_parent.
    destruct c; simpl in Hπ.
    + eapply (IH _ _ (Nd RB_BLACK (Nd RB_RED sl z sr) p t)); [exact H| |exact Hπ|auto].
      left. econstructor; [by constructor|done].
    + destruct fuel; [lia|].
      eapply (rm_stop _ _ _ _ _ (Nd RB_RED (Nd RB_RED sl z sr) p t) n);
        [exact H| |by eapply pwf_black|by left].
      right. do 5 eexists. split; [done|]. split; [by constructor|done].
  - inversion Hsr as [|? w1 w w2 Hw1 Hw2|]; subst; simpl.
    apply wp_bind. rb_read Hz0 zin_right. apply wp_bind.
    change (Some w) with (root_of (Nd RB_RED w1 w w2)).
    eapply blacken_ok; [exact Hz2|]. clear Hz Hz0 Hz1 Hz2. intros T1 H. simpl black in H. up H.
    rb_write H zin_color H'. rb_write H' zin_rotate_left H. up H. rb_read H zin_left.
    eapply wp_deref; [done|].
    eapply rm_final_right; [exact H|done..].
  - inversion Hsl as [|? w1 w w2 Hw1 Hw2|]; subst; simpl.
    apply wp_bind, wp_ret. eapply rm_final_right; [exact Hz|done..].
Qed.
End one_round.

Definition rm_loop_spec (T0 : rb_tree) (L : list loc) (fuel : nat) : Prop := ∀ T π t n,
  zin T0 L T π t → awf n t → pwf RB_BLACK (S n) π → length π < fuel →
  wp (RB_REMOVE_COLOR_loop fuel (parent_of π) (root_of t)) (rm_post T0 L) T.

(** The loop test, for a black node that is not the root. *)
Ltac rm_enter Hz Ht Hp :=
  simpl RB_REMOVE_COLOR_loop; apply wp_bind; eapply zin_is_black; [exact Hz|];
  rewrite (rbwf_color _ _ _ Ht); apply wp_bind; unfold RB_ROOT at 1; apply wp_get;
  rewrite bool_decide_eq_true_2 by done; rewrite bool_decide_eq_false_2 by (by eapply zin_root_top);
  simpl; apply wp_bind; eapply wp_deref; [done|]; cbv beta;
  pose proof Hz as Hp; apply zin_up in Hp; cbv [fill frame_elm] in *.

(** A round whose node is a left child, by the colours of its parent and sibling. *)
Lemma rm_round_left T0 L fuel T c p s π t n :
  rm_loop_spec T0 L fuel → zin T0 L T (FL c p s :: π) t → rbwf RB_BLACK n t →
  pwf RB_BLACK (S n) (FL c p s :: π) → length π < fuel →
  wp (RB_REMOVE_COLOR_loop (S fuel) (Some p) (root_of t)) (rm_post T0 L) T.
Proof.
  intros IH Hz Ht' Hπ Hfuel. rm_enter Hz Ht' Hp.
  rb_read Hp zin_left. rewrite bool_decide_eq_true_2 by done.
  apply wp_bind, wp_bind. eapply zin_right; [exact Hp|].
  destruct c; simpl in Hπ.
  + destruct Hπ as [[[] Hs] Hπ].
    * destruct (rbwf_black_inv _ _ Hs) as (sl & z & sr & cl & cr & -> & Hsl & Hsr).
      simpl root_of. eapply wp_deref; [done|]. refocus Hp (FR RB_BLACK t p).
      rb_read Hp0 zin_get_color. simpl. apply wp_bind, wp_ret.
      eapply rm_sibling_left; [exact IH|exact Hp|done..|lia|lia].
    * destruct (rbwf_red_inv _ _ _ Hs (rbwf_color _ _ _ Hs)) as (sl & z & sr & -> & Hsl & Hsr).
      simpl root_of. eapply wp_deref; [done|]. refocus Hp (FR RB_BLACK t p).
      rb_read Hp0 zin_get_color. rewrite bool_decide_eq_true_2 by done.
      apply wp_bind, wp_bind. rb_write Hp0 zin_color H. up H.
      eapply zin_color; [exact H|]. clear H. intros ? H. rb_write H zin_rotate_left H'.
      refocus H' (FL RB_BLACK z sr). rb_read H'0 zin_right.
      destruct (rbwf_black_inv _ _ Hsl) as (sl1 & y & sl2 & c1 & c2 & -> & Hsl1 & Hsl2).
      eapply wp_deref; [done|].
      eapply rm_sibling_left; [exact IH|exact H'0|done..| |done|lia]. simpl. eauto.
  + destruct Hπ as (_ & Hs & Hπ).
    destruct (rbwf_black_inv _ _ Hs) as (sl & z & sr & cl & cr & -> & Hsl & Hsr).
    simpl root_of. eapply wp_deref; [done|]. refocus Hp (FR RB_RED t p).
    rb_read Hp0 zin_get_color. simpl. apply wp_bind, wp_ret.
    eapply rm_sibling_left; [exact IH|exact Hp|done..|lia|lia].
Qed.

(** The mirror image: the node is a right child. *)
Lemma rm_round_right T0 L fuel T c s p π t n :
  rm_loop_spec T0 L fuel → zin T0 L T (FR c s p :: π) t → rbwf RB_BLACK n t →
  pwf RB_BLACK (S n) (FR c s p :: π) → length π < fuel →
  wp (RB_REMOVE_COLOR_loop (S fuel) (Some p) (root_of t)) (rm_post T0 L) T.
Proof.
  intros IH Hz Ht' Hπ Hfuel. rm_enter Hz Ht' Hp.
  rb_read Hp zin_left.
  assert (∃ cs m, rbwf cs (S m) s) as (cs0 & m0 & Hs0).
  { destruct c; simpl in Hπ; destruct_and?; naive_solver. }
  assert (root_of s ≠ root_of t) as Hne.
  { intros Heq. destruct (rbwf_nonleaf _ _ _ Hs0) as (l & z & r & ->). simpl in Heq.
    apply symmetry, root_of_elem in Heq as Hin.
    by destruct (zin_root_ne _ _ _ _ _ _ z Hz Hin) as [[] _]. }
  rewrite bool_decide_eq_false_2 by done. clear cs0 m0 Hs0 Hne.
  apply wp_bind, wp_bind. eapply zin_left; [exact Hp|].
  destruct c; simpl in Hπ.
  + destruct Hπ as [[[] Hs] Hπ].
    * destruct (rbwf_black_inv _ _ Hs) as (sl & z & sr & cl & cr & -> & Hsl & Hsr).
      simpl root_of. eapply wp_deref; [done|]. refocus Hp (FL RB_BLACK p t).
      rb_read Hp0 zin_get_color. simpl. apply wp_bind, wp_ret.
      eapply rm_sibling_right; [exact IH|exact Hp|done..|lia|lia].
    * destruct (rbwf_red_inv _ _ _ Hs (rbwf_color _ _ _ Hs)) as (sl & z & sr & -> & Hsl & Hsr).
      simpl root_of. eapply wp_deref; [done|]. refocus Hp (FL RB_BLACK p t).
      rb_read Hp0 zin_get_color. rewrite bool_decide_eq_true_2 by done.
      apply wp_bind, wp_bind. rb_write Hp0 zin_color H. up H.
      eapply zin_color; [exact H|]. clear H. intros ? H. rb_write H zin_rotate_right H'.
      refocus H' (FR RB_BLACK sl z). rb_read H'0 zin_left.
      destruct (rbwf_black_inv _ _ Hsr) as (sr1 & y & sr2 & c1 & c2 & -> & Hsr1 & Hsr2).
      eapply wp_deref; [done|].
      eapply rm_sibling_right; [exact IH|exact H'0|done..| |done|lia]. simpl. eauto.
  + destruct Hπ as (_ & Hs & Hπ).
    destruct (rbwf_black_inv _ _ Hs) as (sl & z & sr & cl & cr & -> & Hsl & Hsr).
    simpl root_of. eapply wp_deref; [done|]. refocus Hp (FL RB_RED p t).
    rb_read Hp0 zin_get_color. simpl. apply wp_bind, wp_ret.
    eapply rm_sibling_right; [exact IH|exact Hp|done..|lia|lia].
Qed.

Lemma rm_loop_ok T0 L fuel : rm_loop_spec T0 L fuel.
Proof.
  induction fuel as [|fuel IH]; intros T π t n Hz Ht Hπ Hfuel; [lia|].
  destruct (decide (color_of t = RB_RED)) as [Hred|Hblack]; [eapply rm_stop; eauto|].
  destruct π as [|f π]; [eapply rm_stop; eauto|].
  assert (rbwf RB_BLACK n t) as Ht'.
  { destruct Ht as [|(? & ? & ? & ? & ? & -> & _)]; [done|]. by destruct Hblack. }
  simpl in Hfuel. destruct f as [c p s|c s p].
  - eapply rm_round_left; [exact IH|exact Hz|exact Ht'|exact Hπ|lia].
  - eapply rm_round_right; [exact IH|exact Hz|exact Ht'|exact Hπ|lia].
Qed.

(** ** Taking an element out of the tree *)

Lemma plug_app ρ π t : plug (ρ ++ π) t = plug π (plug ρ t).
Proof. revert t. induction ρ as [|f ρ IH]; intros t; simpl; auto. Qed.

Lemma zrep_app T ρ π t : zrep T (ρ ++ π) t ↔ zrep T π (plug ρ t).
Proof. revert t. induction ρ as [|f ρ IH]; intros t; simpl; [done|]. by rewrite zrep_up, IH. Qed.

Lemma lefts_app ρ π : lefts (ρ ++ π) = lefts π ++ lefts ρ.
Proof.
  induction ρ as [|[] ρ IH]; simpl; rewrite ?IH, ?app_nil_r; [done..|].
  by rewrite <-app_assoc.
Qed.

Lemma rights_app ρ π : rights (ρ ++ π) = rights ρ ++ rights π.
Proof. induction ρ as [|[] ρ IH]; simpl; rewrite ?IH; [done| |done]. by rewrite <-app_assoc. Qed.

(** Elements may be renamed in a path without changing what it accepts. *)
Lemma pwf_rename ρ c l x y π n c' :
  pwf c' n (ρ ++ FR c l x :: π) → pwf c' n (ρ ++ FR c l y :: π).
Proof.
  revert c' n. induction ρ as [|[[] z s|[] s z] ρ IH]; intros c' n; simpl; naive_solver.
Qed.

Lemma rehole_wp T π x ch (Q : () → rb_tree → Prop) :
  rbh_root T = top π (Some x) → crep (rb_nodes T) π (Some x) → x ∉ plocs π →
  Q () (RbTree (top π ch) (rehole π ch (rb_nodes T))) →
  wp (match parent_of π with
      | Some p =>
        l ← RB_LEFT p;
        if bool_decide (l = Some x) then set_left p ch else set_right p ch
      | None => set_root ch
      end) Q T.
Proof.
  intros Hroot Hc Hx HQ. destruct π as [|f π]; simpl in *; [done|].
  destruct f as [c y s|c s y]; simpl in Hx; destruct Hc as (Hy & Hs & _); simpl.
  - apply wp_bind. eapply wp_RB_LEFT; [done|]. rewrite bool_decide_eq_true_2 by done.
    eapply wp_set_left; [done|]. rewrite Hroot.
    change (alter _ y (rb_nodes T)) with (rehole (FL c y s :: π) ch (rb_nodes T)) in HQ.
    by erewrite (rehole_insert_alter _ _ _ (FL c y s) y) in HQ.
  - apply wp_bind. eapply wp_RB_LEFT; [done|]. simpl. rewrite bool_decide_eq_false_2.
    2: { intros Heq%root_of_elem. set_solver. }
    eapply wp_set_right; [done|]. rewrite Hroot.
    change (alter _ y (rb_nodes T)) with (rehole (FR c s y :: π) ch (rb_nodes T)) in HQ.
    by erewrite (rehole_insert_alter _ _ _ (FR c s y) y) in HQ.
Qed.

(** Splicing out an element with at most one child. *)
Lemma splice_ok T π c l x r ch :
  zrep T π (Nd c l x r) → (l = Lf ∧ ch = r ∨ r = Lf ∧ ch = l) →
  wp (rb_splice x (parent_of π) (root_of ch))
    (λ _ T', zrep T' π ch ∧ rb_frame (elems (plug π ch)) T T') T.
Proof.
  intros Hz Hch. pose proof (zrep_nodup_split _ _ _ Hz) as Hnd. simpl in Hnd.
  destruct Hz as [Hroot (Hx & Hl & Hr) Hc HN]. simpl in Hroot, Hc.
  assert (trep (rb_nodes T) (Some x) ch ∧ NoDup (elems ch ++ plocs π) ∧ x ∉ plocs π) as
    (Hch' & Hnd' & Hxπ).
  { destruct Hch as [[-> ->]|[-> ->]]; simpl in Hnd; rewrite <-?app_assoc in Hnd; simpl in Hnd.
    - apply NoDup_cons in Hnd as [? ?]. split_and!; [done..|set_solver].
    - rewrite <-Permutation_middle in Hnd. apply NoDup_cons in Hnd as [? ?].
      split_and!; [done..|set_solver]. }
  assert (∀ z, root_of ch = Some z → z ∉ plocs π) as Hz.
  { intros z Hz%root_of_elem ?. apply NoDup_app in Hnd'. naive_solver. }
  unfold rb_splice. apply wp_bind. apply wp_reparent.
  { intros z Hz'. eapply trep_lookup; [exact Hch'|by apply root_of_elem]. }
  apply (rehole_wp _ π x).
  { done. }
  { simpl. by apply crep_reparent_other. }
  { done. }
  simpl. split.
  - constructor; simpl; [done| |eapply crep_rehole|]; simpl.
    + apply trep_rehole; [by intros z ?; apply NoDup_app in Hnd'; naive_solver|].
      eapply trep_reparent; [|done]. by apply NoDup_app in Hnd' as (? & _ & ?).
    + by apply NoDup_app in Hnd' as (? & _ & ?).
    + by apply crep_reparent_other.
    + by rewrite plug_elems_perm.
  - apply rb_frame_focus. eapply rb_frame_rehole; [set_solver|].
    eapply rb_frame_reparent; [|done]. intros z Hz'%root_of_elem. set_solver.
Qed.

(** [rb_leftmost] follows left children. *)
Lemma leftmost_ok t : ∀ T π fuel x0,
  zrep T π t → root_of t = Some x0 → length (elems t) ≤ fuel →
  wp (rb_leftmost fuel x0) (λ y T', T' = T ∧ ∃ ρ c ry,
    t = plug ρ (Nd c Lf y ry) ∧ lefts ρ = []) T.
Proof.
  induction t as [|c l IHl x r _]; intros T π fuel x0 Hz Hx Hfuel; simpl in *; [done|].
  simplify_eq. destruct fuel as [|fuel]; [rewrite length_app in Hfuel; simpl in Hfuel; lia|].
  simpl. apply wp_bind. eapply focus_left; [exact Hz|].
  destruct l as [|cl ll xl rl]; simpl.
  - split; [done|]. by exists [], c, r.
  - eapply wp_mono; [eapply (IHl T (FL c x0 r :: π)); [by apply zrep_up|done|]|].
    + rewrite length_app in Hfuel. simpl in Hfuel |- *. lia.
    + intros y ? (-> & ρ & c' & ry & Hρ & Hlf). split; [done|].
      exists (ρ ++ [FL c x0 r]), c', ry. by rewrite plug_app, lefts_app, <-Hρ, Hlf.
Qed.

(** *** The entry of [y] takes the place of the entry of [x] *)

Section take_place.
Context (T : rb_tree) (π : path) (c : rb_color) (l r : rbt) (x y : loc) (v : rb_entry).
Hypothesis Hz : zrep T π (Nd c l x r).
Hypothesis Hy : y ∉ elems (plug π (Nd c l x r)).

(** The nodes once the neighbours of [x] point to [y]. *)
Definition taken_over : gmap loc rb_entry :=
  reparent (root_of r) (Some y) (reparent (root_of l) (Some y)
    (rehole π (Some y) (<[y := RbEntry (root_of l) (root_of r) (parent_of π) c]> (rb_nodes T)))).

Lemma take_apart :
  (x ≠ y ∧ x ∉ plocs π ∧ x ∉ elems l ∧ x ∉ elems r ∧ y ∉ plocs π ∧ y ∉ elems l ∧ y ∉ elems r) ∧
  (NoDup (plocs π) ∧ NoDup (elems l) ∧ NoDup (elems r)) ∧
  (∀ z, z ∈ elems l → z ∉ elems r ∧ z ∉ plocs π) ∧ (∀ z, z ∈ elems r → z ∉ elems l ∧ z ∉ plocs π).
Proof.
  pose proof (zrep_nodup_split _ _ _ Hz) as Hnd. simpl in Hnd.
  pose proof Hy as Hy'. rewrite plug_elems_perm in Hy'. simpl in Hy'.
  nodup_split. split_and!; try done; set_solver.
Qed.

Lemma root_apart u o z :
  (∀ w, w ∈ elems u → w ∉ elems o ∧ w ∉ plocs π) → y ∉ elems u → root_of u = Some z →
  z ∉ elems o ∧ z ≠ y ∧ z ∉ plocs π.
Proof. intros Hu Hyu Hr%root_of_elem. split_and!; [by apply Hu| |by apply Hu]. by intros ->. Qed.

Lemma taken_over_rep :
  zrep (RbTree (top π (Some y)) taken_over) π (Nd c l y r) ∧
  rb_frame (y :: elems (plug π (Nd c l x r))) T (RbTree (top π (Some y)) taken_over).
Proof.
  destruct take_apart as ((Hxy & Hxπ & Hxl & Hxr & Hyπ & Hyl & Hyr) & (Hndπ & Hndl & Hndr) & Hzl & Hzr).
  pose proof (λ z, root_apart l r z Hzl Hyl) as Hll. pose proof (λ z, root_apart r l z Hzr Hyr) as Hrr.
  destruct Hz as [Hroot (Hx & Hl & Hr) Hc HN]. unfold taken_over. split.
  - constructor; cbn [rb_nodes rbh_root]; [done|..].
    + split; [|split].
      * rewrite reparent_ne by naive_solver. rewrite (reparent_ne (root_of l)) by naive_solver.
        rewrite rehole_ne by done. apply lookup_insert_eq.
      * apply trep_reparent_other; [naive_solver|].
        eapply trep_reparent; [done|]. apply trep_rehole; [naive_solver|]. by apply trep_insert.
      * eapply trep_reparent; [done|]. apply trep_reparent_other; [naive_solver|].
        apply trep_rehole; [naive_solver|]. by apply trep_insert.
    + apply crep_reparent_other; [naive_solver|]. apply crep_reparent_other; [naive_solver|].
      eapply crep_rehole; [done|]. by apply crep_insert.
    + rewrite plug_elems_perm in HN |- *. simpl in *.
      rewrite <-app_assoc in HN |- *. simpl in *.
      rewrite <-Permutation_middle in HN |- *. apply NoDup_cons in HN as [_ HN].
      constructor; [set_solver|done].
  - eapply rb_frame_mono; [intros z; rewrite plug_elems_perm; exact id|]. simpl.
    do 2 (eapply rb_frame_reparent; [intros z ?%root_of_elem; set_solver|]).
    eapply rb_frame_rehole; [set_solver|]. eapply rb_frame_insert; [by left|done].
Qed.

Lemma replace_ok :
  l ≠ Lf → rb_nodes T !! y = Some v →
  wp (rb_take_place x y)
    (λ _ T', zrep T' π (Nd c l y r) ∧ rb_frame (y :: elems (plug π (Nd c l x r))) T T') T.
Proof.
  intros Hl0 Hv. apply (wp_mono _ (λ _ T', T' = RbTree (top π (Some y)) taken_over));
    [|intros [] T' ->; exact taken_over_rep].
  destruct take_apart as ((Hxy & Hxπ & Hxl & Hxr & Hyπ & Hyl & Hyr) & _ & Hzl & Hzr).
  destruct Hz as [Hroot (Hx & Hl & Hr) Hc HN]. unfold rb_take_place, taken_over.
  assert (∃ zl, root_of l = Some zl) as [zl Hrl] by (destruct l; [done|by eexists]).
  destruct (root_apart l r zl Hzl Hyl Hrl) as (_ & Hzly & Hzlπ). apply root_of_elem in Hrl as Hzin.
  apply wp_bind. eapply wp_rb_get; [done|]. apply wp_bind. unfold rb_put. apply wp_modify. cbv beta.
  apply wp_bind. eapply wp_RB_PARENT; [simpl; by rewrite lookup_insert_ne|].
  simpl rbe_parent. apply wp_bind. apply (rehole_wp _ π x); [done|by apply crep_insert|done|].
  cbn [rb_nodes rbh_root].
  apply wp_bind, wp_bind. eapply wp_RB_LEFT; [simpl; rewrite rehole_ne by done; by rewrite lookup_insert_ne|].
  simpl rbe_left. rewrite Hrl. eapply wp_deref; [done|]. cbv beta. apply wp_bind.
  destruct (trep_lookup _ _ _ _ Hl Hzin) as [vl Hvl].
  apply (wp_reparent (Some zl)).
  { intros ? [= <-]. simpl. rewrite rehole_ne by done. rewrite lookup_insert_ne by done. eauto. }
  cbn [rb_nodes rbh_root]. apply wp_bind.
  eapply wp_RB_RIGHT; [cbn [rb_nodes rbh_root]; rewrite (reparent_ne (Some zl)) by congruence;
    rewrite rehole_ne by done; by rewrite lookup_insert_ne|].
  simpl rbe_right. apply wp_reparent; [|done].
  intros z Hz'%root_of_elem. apply reparent_is_Some, rehole_is_Some.
  simpl. rewrite lookup_insert_ne by (intros ->; done). by eapply trep_lookup.
Qed.
End take_place.

(** What reaches the [color:] label: the tree without [x], and the colour, parent
    and child of the place that lost a node. *)
Definition removed (T0 : rb_tree) (x : loc) (l : list loc)
    (d : rb_color * option loc * option loc) (T : rb_tree) : Prop :=
  ∃ π ch c n, d = (c, parent_of π, root_of ch) ∧ zrep T π ch ∧
    elems (plug π ch) = SL.remove x l ∧ rb_frame l T0 T ∧
    awf n ch ∧ pwf c (match c with RB_BLACK => S n | RB_RED => n end) π ∧
    (c = RB_RED → rbwf RB_BLACK n ch).

Lemma one_child_wf c n l x r ch :
  rbwf c n (Nd c l x r) → (l = Lf ∧ ch = r ∨ r = Lf ∧ ch = l) →
  ∃ m, n = (match c with RB_BLACK => S m | RB_RED => m end) ∧ awf m ch ∧
       (c = RB_RED → rbwf RB_BLACK m ch).
Proof.
  assert (∀ c' m t, rbwf c' m t → awf m t) as Hawf.
  { intros c' m t Ht. destruct (decide (color_of t = RB_RED)) as [Hr|Hr].
    - destruct (rbwf_red_inv _ _ _ Ht Hr) as (? & ? & ? & -> & ? & ?). right. eauto 10.
    - left. by eapply rbwf_not_red. }
  intros Hwf Hch. inversion Hwf; subst.
  - exists n. split; [done|]. destruct Hch as [[-> ->]|[-> ->]]; eauto.
  - exists n0. split; [done|]. split; [|done]. destruct Hch as [[-> ->]|[-> ->]]; eauto.
Qed.

Lemma SL_remove_middle l1 x l2 : x ∉ l1 → x ∉ l2 → SL.remove x (l1 ++ x :: l2) = l1 ++ l2.
Proof.
  intros H1 H2. unfold SL.remove. rewrite filter_app, filter_cons_False by (intros H; by apply H).
  assert (∀ l : list loc, x ∉ l → filter (.≠ x) l = l) as Hf.
  { clear. induction l as [|y l IH]; intros Hx; [done|].
    rewrite filter_cons_True by set_solver. f_equal. set_solver. }
  by rewrite !Hf.
Qed.

Lemma plug_remove π l x r :
  NoDup (elems (plug π (Nd RB_RED l x r))) →
  SL.remove x (elems (plug π (Nd RB_RED l x r))) = lefts π ++ elems l ++ elems r ++ rights π.
Proof.
  rewrite plug_elems. simpl. rewrite <-app_assoc. simpl. intros Hnd.
  rewrite (assoc_L (++)), SL_remove_middle, <-(assoc_L (++)); [done|..]; nodup_split; set_solver.
Qed.

(** The branch for at most one child. *)
Lemma remove_here_ok T π c l x r ch n :
  zrep T π (Nd c l x r) → (l = Lf ∧ ch = r ∨ r = Lf ∧ ch = l) →
  rbwf c n (Nd c l x r) → pwf c n π →
  wp (rb_remove_here x (root_of ch)) (removed T x (elems (plug π (Nd c l x r)))) T.
Proof.
  intros Hz Hch Hwf Hπ. unfold rb_remove_here.
  apply wp_bind. eapply focus_parent; [exact Hz|]. apply wp_bind. eapply focus_color; [exact Hz|].
  apply wp_bind. eapply wp_mono; [eapply splice_ok; [exact Hz|done]|].
  intros [] T1 [Hz1 HF]. apply wp_ret.
  destruct (one_child_wf _ _ _ _ _ _ Hwf Hch) as (m & -> & Hawf & Hred).
  pose proof (zrep_nodup _ _ _ Hz) as Hnd.
  rewrite (plug_elems_eq π (Nd c l x r) (Nd RB_RED l x r)) in * by done.
  exists π, ch, c, m. split_and!; try done.
  - rewrite plug_remove by done. rewrite plug_elems.
    destruct Hch as [[-> ->]|[-> ->]]; done.
  - eapply rb_frame_mono; [|exact HF]. intros z. rewrite !plug_elems.
    destruct Hch as [[-> ->]|[-> ->]]; set_solver.
Qed.

(** The successor [y] of [x] sits at the end of the path [ρ]; its parent once
    [y] is in the place of [x]. *)
Lemma successor_parent π c l x y ρ t :
  x ∉ elems (plug ρ t) →
  (if bool_decide (parent_of (ρ ++ FR c l x :: π) = Some x) then Some y
   else parent_of (ρ ++ FR c l x :: π)) = parent_of (ρ ++ FR c l y :: π).
Proof.
  intros Hx. destruct ρ as [|f ρ]; simpl; [by rewrite bool_decide_eq_true_2|].
  rewrite bool_decide_eq_false_2; [done|]. intros [= Hf].
  destruct f as [cf z s|cf s z]; simpl in Hf, Hx; subst z;
    rewrite plug_elems in Hx; simpl in Hx; set_solver.
Qed.

Lemma successor_elems π c l x ρ c' y ry :
  NoDup (elems (plug π (Nd c l x (plug ρ (Nd c' Lf y ry))))) → lefts ρ = [] →
  elems (plug (ρ ++ FR c l y :: π) ry) = SL.remove x (elems (plug π (Nd c l x (plug ρ (Nd c' Lf y ry))))).
Proof.
  intros Hnd Hρ. rewrite (plug_elems_eq π _ (Nd RB_RED l x (plug ρ (Nd c' Lf y ry)))) by done.
  rewrite plug_remove by (erewrite plug_elems_eq; [exact Hnd|done]).
  rewrite plug_elems, lefts_app, rights_app, (plug_elems ρ), Hρ. simpl.
  by rewrite !app_nil_r, <-!app_assoc.
Qed.

(** The branch for two children. *)
Lemma remove_successor_ok T π c l x r n fuel :
  zrep T π (Nd c l x r) → l ≠ Lf → r ≠ Lf →
  rbwf c n (Nd c l x r) → pwf c n π → length (elems r) ≤ fuel →
  wp (rb_remove_successor fuel x) (removed T x (elems (plug π (Nd c l x r)))) T.
Proof.
  intros Hz Hl0 Hr0 Hwf Hπ Hfuel. unfold rb_remove_successor.
  destruct (root_of r) as [r0|] eqn:Hr0'; [|by destruct r].
  apply wp_bind, wp_bind. eapply focus_right; [exact Hz|]. rewrite Hr0'. eapply wp_deref; [done|].
  cbv beta. apply wp_bind. eapply wp_mono.
  { eapply (leftmost_ok r T (FR c l x :: π)); [by apply zrep_up|done..]. }
  intros y ? (-> & ρ & c' & ry & -> & Hρ).
  pose proof (zrep_nodup _ _ _ Hz) as Hnd.
  assert (rbwf c n (plug (ρ ++ [FR c l x]) (Nd c' Lf y ry))) as Hwf'.
  { by rewrite plug_app. }
  set (σ := ρ ++ FR c l x :: π).
  assert (zrep T σ (Nd c' Lf y ry)) as Hσ.
  { unfold σ. apply zrep_app. by apply zrep_up. }
  destruct (plug_wf _ _ _ _ Hwf Hπ) as [m0 Hm0].
  assert (plug π (Nd c l x (plug ρ (Nd c' Lf y ry))) = plug σ (Nd c' Lf y ry)) as Hplug.
  { unfold σ. by rewrite plug_app. }
  rewrite Hplug in Hm0 |- *. destruct (unplug_wf _ _ _ Hm0) as (c1 & n1 & Hy & Hσwf).
  assert (c1 = c') as -> by (symmetry; exact (rbwf_color _ _ _ Hy)).
  destruct (one_child_wf _ _ _ _ _ ry Hy) as (m & -> & Hawf & Hred); [by left|].
  assert (elems (plug σ ry) ⊆ elems (plug σ (Nd c' Lf y ry)) ∧ y ∉ elems (plug σ ry)) as
    [Hsub Hyn].
  { pose proof (zrep_nodup_split _ _ _ Hσ) as Hn. simpl in Hn. apply NoDup_cons in Hn as [Hn _].
    split; [|by rewrite plug_elems_perm]. intros z. rewrite !plug_elems. simpl. set_solver. }
  assert (elems (plug π (Nd c l x (plug ρ ry))) = elems (plug σ ry)) as Hpl.
  { unfold σ. by rewrite plug_app. }
  apply wp_bind. eapply focus_right; [exact Hσ|]. apply wp_bind. eapply focus_parent; [exact Hσ|].
  apply wp_bind. eapply focus_color; [exact Hσ|]. apply wp_bind.
  eapply wp_mono; [eapply splice_ok; [exact Hσ|by left]|]. intros [] T1 [Hz1 HF1].
  assert (rb_nodes T1 !! y = Some (RbEntry None (root_of ry) (parent_of σ) c')) as Hy1.
  { rewrite (proj1 HF1) by done. exact (zrep_lookup _ _ _ _ _ _ Hσ). }
  apply wp_bind. eapply wp_RB_PARENT; [exact Hy1|]. cbn [rbe_parent].
  assert (x ∉ elems (plug ρ (Nd c' Lf y ry))) as Hxρ.
  { rewrite plug_elems in Hnd. simpl in Hnd. nodup_split. set_solver. }
  pose proof (successor_parent π c l x y ρ _ Hxρ) as Hpar. fold σ in Hpar. rewrite Hpar.
  apply wp_bind. eapply wp_mono.
  { eapply (replace_ok T1 π c l (plug ρ ry) x y); [|by rewrite Hpl|done|exact Hy1].
    unfold σ in Hz1. by apply zrep_app, zrep_up in Hz1. }
  intros [] T2 [Hz2 HF2]. apply wp_ret.
  exists (ρ ++ FR c l y :: π), ry, c', m. split_and!; try done.
  - by apply zrep_app, zrep_up.
  - rewrite <-Hplug. by apply successor_elems.
  - eapply rb_frame_trans; [eapply rb_frame_mono; [|exact HF1]; exact Hsub|].
    eapply rb_frame_mono; [|exact HF2]. rewrite Hpl.
    intros z [->|Hz']%elem_of_cons; [|by apply Hsub]. rewrite plug_elems. simpl. set_solver.
  - by eapply pwf_rename.
Qed.

(** ** The whole removal *)

Lemma elem_split t x : x ∈ elems t → ∃ π c l r, t = plug π (Nd c l x r).
Proof.
  induction t as [|c l IHl y r IHr]; simpl; [set_solver|].
  intros [Hx|[->|Hx]%elem_of_cons]%elem_of_app.
  - destruct (IHl Hx) as (π & c' & l' & r' & ->).
    exists (π ++ [FL c y r]), c', l', r'. by rewrite plug_app.
  - by exists [], c, l, r.
  - destruct (IHr Hx) as (π & c' & l' & r' & ->).
    exists (π ++ [FR c l y]), c', l', r'. by rewrite plug_app.
Qed.

Lemma key_sorted_remove key x l : key_sorted key l → key_sorted key (SL.remove x l).
Proof.
  induction l as [|y l IH]; [done|]. rewrite key_sorted_cons. intros [Hl Hy].
  unfold SL.remove. rewrite filter_cons. case_decide; [|by apply IH].
  apply key_sorted_cons. split; [by apply IH|]. intros z [_ Hz]%list_elem_of_filter. auto.
Qed.

Lemma remove_color_ok T0 l0 T π ch n fuel :
  zrep T π ch → rb_frame l0 T0 T → (∀ z, z ∈ elems (plug π ch) → z ∈ l0) →
  awf n ch → pwf RB_BLACK (S n) π → length π < fuel →
  wp (RB_REMOVE_COLOR fuel (parent_of π) (root_of ch))
    (λ _ T', ∃ t m, zrep T' [] t ∧ elems t = elems (plug π ch) ∧ rbwf RB_BLACK m t ∧
      rb_frame l0 T0 T') T.
Proof.
  intros Hz HF Hsub Hawf Hπ Hfuel. unfold RB_REMOVE_COLOR. apply wp_bind. eapply wp_mono.
  { eapply (rm_loop_ok T (elems (plug π ch))); [|done..]. split_and!; done. }
  intros o T1 (π1 & t & m & -> & Hz1 & Hwf).
  eapply blacken_ok; [exact Hz1|]. intros T2 Hz2. apply zin_plug in Hz2 as (Hz2 & He & HF2).
  exists (plug π1 (black t)), m. split_and!; try done.
  eapply rb_frame_trans; [exact HF|]. by eapply rb_frame_mono.
Qed.

Lemma RB_REMOVE_ok key T l x :
  rb_rep key T l → x ∈ l →
  wp (RB_REMOVE x) (λ o T', o = x ∧ rb_rep key T' (SL.remove x l) ∧ rb_frame l T T') T.
Proof.
  intros (t & m0 & Hz & Hl & Hwf & Hs) Hx. rewrite <-Hl in Hx.
  destruct (elem_split _ _ Hx) as (π & c & lt & rt & ->).
  destruct (unplug_wf _ _ _ Hwf) as (c1 & n1 & Hx1 & Hπ).
  assert (c1 = c) as -> by (symmetry; exact (rbwf_color _ _ _ Hx1)).
  pose proof (zrep_path_size _ _ _ Hz) as Hsz. simpl in Hsz.
  apply zrep_plug in Hz. unfold RB_REMOVE.
  apply wp_bind. unfold rb_fuel. apply wp_get.
  apply wp_bind. eapply focus_left; [exact Hz|]. apply wp_bind. eapply focus_right; [exact Hz|].
  apply wp_bind. rewrite Hl in *.
  assert (length (elems rt) ≤ size (rb_nodes T)) as Hszr.
  { rewrite <-Hl in Hsz. rewrite plug_elems in Hsz. rewrite !length_app in Hsz. simpl in Hsz.
    rewrite length_app in Hsz. simpl in Hsz. lia. }
  eapply (wp_mono _ (removed T x l)).
  { rewrite <-Hl. destruct lt as [|? ? xl ?]; [|destruct rt as [|? ? xr ?]]; simpl root_of; cbv match.
    - eapply (remove_here_ok _ _ _ _ _ _ rt); [done|by left|done..].
    - eapply (remove_here_ok _ _ _ _ _ _ (Nd _ _ xl _)); [done|by right|done..].
    - eapply remove_successor_ok; [done..|]. lia. }
  intros d T1 (π1 & ch & c1 & n & -> & Hz1 & Hel & HF & Hawf & Hπ1 & Hred).
  apply wp_bind. eapply (wp_mono _ (λ _ T', ∃ t m, zrep T' [] t ∧ elems t = SL.remove x l ∧
    rbwf RB_BLACK m t ∧ rb_frame l T T')).
  - pose proof (zrep_path_size _ _ _ Hz1) as Hlen.
    assert (length π1 ≤ length l) as Hπl.
    { pose proof (length_path_elems π1 ch) as H1. rewrite Hel in H1.
      pose proof (length_filter (.≠ x) l) as H2. unfold SL.remove in H1. lia. }
    destruct c1; simpl.
    + rewrite <-Hel. eapply remove_color_ok; [done|done| |done|done|].
      * intros z. rewrite Hel. unfold SL.remove. by intros [_ ?]%list_elem_of_filter.
      * lia.
    + apply wp_ret. destruct (plug_wf _ _ _ _ (Hred eq_refl) (pwf_black _ _ _ Hπ1)) as [m Hm].
      exists (plug π1 ch), m. split_and!; try done. by rewrite <-zrep_plug.
  - intros [] T2 (t & m & Hz2 & Hel2 & Hwf2 & HF2). apply wp_ret. split_and!; [done| |done].
    exists t, m. split_and!; try done. by apply key_sorted_remove.
Qed.
