(* ===== verification/RbSpec.v ===== *)
(** * The contract of the sleep trees, and its red-black implementation

    [SleepTree] is what the scheduler needs from the trees generated by
    RB_GENERATE: a strictly sorted list of elements behind RB_INSERT, RB_REMOVE
    and RB_MIN.  The pointer trees of [Rbtree] implement it; so do plain sorted
    lists, which are its reference. *)
From stdpp Require Import base tactics list gmap sorting.
From Stdlib Require Import ZArith Lia.
From S2P Require Import Prelude Rbtree RbShape RbInsert RbRemove.

Class SleepTree (T : Type) := {
  st_init : T;
  st_insert : (loc → Z) → loc → M T (option loc);
  st_remove : loc → M T loc;
  st_min : M T (option loc);
  (** A zeroed entry, as [calloc] leaves it, and an entry whose memory is freed. *)
  st_calloc : loc → T → T;
  st_free : loc → T → T;
  st_rep : (loc → Z) → T → list loc → Prop;

  st_init_ok key : st_rep key st_init [];
  st_insert_ok key t l e :
    st_rep key t l → e ∉ l →
    wp (st_insert key e) (λ o t', o = SL.lookup key (key e) l ∧
      match o with
      | Some _ => t' = t
      | None => st_rep key t' (SL.insert key e l)
      end) t;
  st_remove_ok key t l e :
    st_rep key t l → e ∈ l →
    wp (st_remove e) (λ o t', o = e ∧ st_rep key t' (SL.remove e l)) t;
  st_min_ok key t l : st_rep key t l → wp st_min (λ o t', o = head l ∧ t' = t) t;
  st_calloc_ok key t l e : st_rep key t l → e ∉ l → st_rep key (st_calloc e t) l;
  st_free_ok key t l e : st_rep key t l → e ∉ l → st_rep key (st_free e t) l;
  st_sorted key t l : st_rep key t l → key_sorted key l;
  st_ext key key' t l :
    (∀ x, x ∈ l → key' x = key x) → st_rep key t l → st_rep key' t l;
}.

(** ** The operations of the red-black instance that are not macros *)

Definition rb_calloc (x : loc) (t : rb_tree) : rb_tree :=
  RbTree (rbh_root t) (<[x := RbEntry None None None RB_BLACK]> (rb_nodes t)).

Definition rb_free (x : loc) (t : rb_tree) : rb_tree :=
  RbTree (rbh_root t) (delete x (rb_nodes t)).

Definition rb_init : rb_tree := RbTree None ∅.

(** ** The reference instance: sorted lists *)

Definition sl_insert (key : loc → Z) (e : loc) : M (list loc) (option loc) :=
  l ← get id;
  match SL.lookup key (key e) l with
  | Some x => mret (Some x)
  | None => modify (SL.insert key e) ;; mret None
  end.

Definition sl_remove (e : loc) : M (list loc) loc :=
  l ← get id;
  if bool_decide (e ∈ l) then modify (SL.remove e) ;; mret e else undef.

Definition sl_min : M (list loc) (option loc) := get head.

(** ** RB_MIN, framing *)

Lemma head_elems_app (l : list loc) x r : head (l ++ x :: r) = Some (default x (head l)).
Proof. by destruct l. Qed.

Lemma last_elems_app (l : list loc) x r : last (l ++ x :: r) = Some (default x (last r)).
Proof. rewrite last_app, last_cons. by destruct (last r). Qed.

Lemma minmax_ok T t : ∀ π fuel par,
  zrep T π t → length (elems t) < fuel →
  wp (rb_minmax_loop fuel (-1) (root_of t) par)
    (λ o T', o = (match head (elems t) with Some y => Some y | None => par end) ∧ T' = T) T ∧
  wp (rb_minmax_loop fuel 1 (root_of t) par)
    (λ o T', o = (match last (elems t) with Some y => Some y | None => par end) ∧ T' = T) T.
Proof.
  induction t as [|c l IHl x r IHr]; intros π fuel par Hz Hfuel;
    destruct fuel as [|fuel]; simpl in *; try lia; [done|].
  rewrite length_app in Hfuel. simpl in Hfuel.
  rewrite head_elems_app, last_elems_app. split; apply wp_bind.
  - eapply focus_left; [exact Hz|]. eapply wp_mono.
    { eapply (IHl (FL c x r :: π)); [by apply zrep_up|lia]. }
    intros o ? [-> ->]. by destruct (head (elems l)).
  - eapply focus_right; [exact Hz|]. eapply wp_mono.
    { eapply (IHr (FR c l x :: π)); [by apply zrep_up|lia]. }
    intros o ? [-> ->]. by destruct (last (elems r)).
Qed.

Lemma RB_MINMAX_ok key T l :
  rb_rep key T l →
  wp RB_MIN (λ o T', o = head l ∧ T' = T) T ∧ wp RB_MAX (λ o T', o = last l ∧ T' = T) T.
Proof.
  intros (t & n & Hz & <- & _). pose proof (zrep_path_size _ _ _ Hz) as Hsz. simpl in Hsz.
  destruct (minmax_ok T t [] (S (S (size (rb_nodes T)))) None Hz) as [Hmin Hmax]; [lia|].
  unfold RB_MIN, RB_MAX, RB_MINMAX, rb_fuel, RB_ROOT.
  split; apply wp_bind, wp_get, wp_bind, wp_get; rewrite (zrep_root _ _ _ Hz); simpl top.
  - eapply wp_mono; [exact Hmin|]. intros o ? [-> ->]. by destruct (head _).
  - eapply wp_mono; [exact Hmax|]. intros o ? [-> ->]. by destruct (last _).
Qed.

Lemma rb_find_loop_ok key k T t : ∀ π fuel,
  zrep T π t → key_sorted key (elems t) → length (elems t) < fuel →
  wp (rb_find_loop fuel key k (root_of t)) (λ o T', o = SL.lookup key k (elems t) ∧ T' = T) T.
Proof.
  induction t as [|c l IHl x r IHr]; intros π fuel Hz Hs Hfuel;
    destruct fuel as [|fuel]; simpl in *; try lia; [done|].
  rewrite length_app in Hfuel. simpl in Hfuel.
  pose proof Hs as (Hl & [Hr Hxr]%key_sorted_cons & Hlr)%key_sorted_app.
  assert (∀ y, y ∈ elems l → (key y < key x)%Z) as Hlx by (intros; apply Hlr; [done|by left]).
  assert (Hsome : ∀ y, y ∈ elems l ++ x :: elems r → key y = k →
    SL.lookup key k (elems l ++ x :: elems r) = Some y).
  { intros y Hy Hk. by apply SL_lookup_found. }
  unfold sleep_cmp. destruct (Z.ltb_spec k (key x)) as [E1|E1]; simpl.
  - apply wp_bind. eapply focus_left; [exact Hz|]. eapply wp_mono.
    { eapply (IHl (FL c x r :: π)); [by apply zrep_up|done|lia]. }
    intros o ? [-> ->]. split; [|done].
    destruct (SL.lookup key k (elems l)) as [y|] eqn:E.
    + apply SL_lookup_Some in E as [Hy Hk]. symmetry. apply Hsome; [set_solver|done].
    + symmetry. apply SL_lookup_None. intros y Hy Hk.
      apply elem_of_app in Hy as [Hy|[->|Hy]%elem_of_cons]; [|lia|].
      * by rewrite (SL_lookup_found key _ y k) in E.
      * specialize (Hxr y Hy). lia.
  - destruct (Z.eqb_spec k (key x)) as [E2|E2]; simpl.
    + split; [|done]. symmetry. apply Hsome; [set_solver|done].
    + apply wp_bind. eapply focus_right; [exact Hz|]. eapply wp_mono.
      { eapply (IHr (FR c l x :: π)); [by apply zrep_up|done|lia]. }
      intros o ? [-> ->]. split; [|done].
      destruct (SL.lookup key k (elems r)) as [y|] eqn:E.
      * apply SL_lookup_Some in E as [Hy Hk]. symmetry. apply Hsome; [set_solver|done].
      * symmetry. apply SL_lookup_None. intros y Hy Hk.
        apply elem_of_app in Hy as [Hy|[->|Hy]%elem_of_cons]; [|lia|].
        -- specialize (Hlx y Hy). lia.
        -- by rewrite (SL_lookup_found key _ y k) in E.
Qed.

Lemma rb_rep_frame key T T' l :
  rbh_root T' = rbh_root T → (∀ x, x ∈ l → rb_nodes T' !! x = rb_nodes T !! x) →
  rb_rep key T l → rb_rep key T' l.
Proof.
  intros Hr Hn (t & n & [Hz1 Hz2 Hz3 Hz4] & Hl & ? & ?). exists t, n. split_and!; try done.
  constructor; [by rewrite Hr|eapply trep_ext; [|done]; by rewrite Hl|done|done].
Qed.

#[export] Program Instance rb_SleepTree : SleepTree rb_tree := {|
  st_init := rb_init;
  st_insert := RB_INSERT;
  st_remove := RB_REMOVE;
  st_min := RB_MIN;
  st_calloc := rb_calloc;
  st_free := rb_free;
  st_rep := rb_rep
|}.
Next Obligation.
  intros key. exists Lf, 0. split_and!; [|done|constructor|constructor].
  constructor; try done. constructor.
Qed.
Next Obligation.
  intros key t l e Hrep He. eapply wp_mono; [by apply RB_INSERT_ok|].
  intros [x|] t' [Ho H]; naive_solver.
Qed.
Next Obligation.
  intros key t l e Hrep He. eapply wp_mono; [by eapply RB_REMOVE_ok|]. naive_solver.
Qed.
Next Obligation. intros key t l Hrep. by apply (RB_MINMAX_ok key). Qed.
Next Obligation.
  intros key t l e Hrep He. apply (rb_rep_frame _ t); [done| |done].
  intros x Hx. simpl. rewrite lookup_insert_ne; [done|]. by intros ->.
Qed.
Next Obligation.
  intros key t l e Hrep He. apply (rb_rep_frame _ t); [done| |done].
  intros x Hx. simpl. rewrite lookup_delete_ne; [done|]. by intros ->.
Qed.
Next Obligation. by intros key t l (? & ? & ? & ? & ? & ?). Qed.
Next Obligation. intros. by eapply rb_rep_ext. Qed.

#[export] Program Instance sl_SleepTree : SleepTree (list loc) := {|
  st_init := [];
  st_insert := sl_insert;
  st_remove := sl_remove;
  st_min := sl_min;
  st_calloc _ l := l;
  st_free _ l := l;
  st_rep key t l := t = l ∧ key_sorted key l
|}.
Next Obligation. intros key. split; [done|constructor]. Qed.
Next Obligation.
  intros key t l e [-> Hs] He. unfold sl_insert. apply wp_bind, wp_get. simpl.
  destruct (SL.lookup key (key e) l) as [x|] eqn:E; [done|].
  apply wp_bind, wp_modify, wp_ret. split_and!; try done. by apply SL_insert_sorted.
Qed.
Next Obligation.
  intros key t l e [-> Hs] He. unfold sl_remove. apply wp_bind, wp_get. simpl.
  rewrite bool_decide_eq_true_2 by done. apply wp_bind, wp_modify, wp_ret.
  split_and!; [done..|]. by apply key_sorted_remove.
Qed.
Next Obligation. intros key t l [-> Hs]. unfold sl_min. by apply wp_get. Qed.
Next Obligation. done. Qed.
Next Obligation. done. Qed.
Next Obligation. by intros key t l [-> ?]. Qed.
Next Obligation. intros key key' t l Hk [-> Hs]. split; [done|]. by apply (key_sorted_ext key). Qed.

(** ** Height *)

Lemma rbwf_height c n t :
  rbwf c n t →
  2 ^ n ≤ S (length (elems t)) ∧ height t ≤ 2 * n + (if c then 0 else 1).
Proof.
  induction 1 as [|n l x r _ [IHl1 IHl2] _ [IHr1 IHr2]|n cl cr l x r _ [IHl1 IHl2] _ [IHr1 IHr2]];
    simpl in *; rewrite ?length_app; simpl; [lia..|].
  destruct cl, cr; lia.
Qed.

(** ** The claims about the pointer trees *)

(** C13: RB_INSERT on the pointer structures inserts into the sorted sequence of
    the tree's elements, or returns the colliding element and changes nothing
    when the key is taken; rotations and recolouring keep the tree a red-black
    search tree and touch no entry outside of it. *)
Theorem rb_insert_refines key T l e :
  rb_rep key T l → e ∉ l →
  ∃ T', RB_INSERT key e T = Ok (SL.lookup key (key e) l) T' ∧
    rb_rep key T' (match SL.lookup key (key e) l with
                   | Some _ => l | None => SL.insert key e l end) ∧
    ∀ y, y ∉ e :: l → rb_nodes T' !! y = rb_nodes T !! y.
Proof.
  intros Hrep He. pose proof (RB_INSERT_ok key T l e Hrep He) as (o & T' & Hr & -> & H)%wp_ok.
  exists T'. split; [done|]. destruct (SL.lookup _ _ _); [by subst T'|].
  destruct H as [? [HF _]]. done.
Qed.

(** C14: RB_REMOVE of an element of the tree, wherever it sits and however many
    children it has, removes exactly that element from the sorted sequence, keeps
    the tree a red-black search tree (no NULL sibling is ever dereferenced by the
    recolouring) and touches no entry outside of the tree. *)
Theorem rb_remove_refines key T l e :
  rb_rep key T l → e ∈ l →
  ∃ T', RB_REMOVE e T = Ok e T' ∧ rb_rep key T' (SL.remove e l) ∧
    ∀ y, y ∉ l → rb_nodes T' !! y = rb_nodes T !! y.
Proof.
  intros Hrep He. pose proof (RB_REMOVE_ok key T l e Hrep He) as (o & T' & Hr & -> & H1 & HF & _)%wp_ok.
  by exists T'.
Qed.

(** The searches agree with the sorted sequence: RB_MIN is its first element,
    RB_MAX its last, and RB_FIND the element with the given key; none changes the
    tree. *)
Theorem rb_search_refines key T l k :
  rb_rep key T l →
  RB_MIN T = Ok (head l) T ∧ RB_MAX T = Ok (last l) T ∧
  RB_FIND key k T = Ok (SL.lookup key k l) T.
Proof.
  intros Hrep. destruct (RB_MINMAX_ok _ _ _ Hrep) as [Hmin Hmax].
  apply wp_ok in Hmin as (? & ? & ? & -> & ->), Hmax as (? & ? & ? & -> & ->).
  split_and!; [done..|]. destruct Hrep as (t & n & Hz & <- & _ & Hs).
  assert (wp (RB_FIND key k) (λ o T', o = SL.lookup key k (elems t) ∧ T' = T) T) as Hf.
  { unfold RB_FIND, rb_fuel, RB_ROOT. apply wp_bind, wp_get, wp_bind, wp_get.
    rewrite (zrep_root _ _ _ Hz). pose proof (zrep_path_size _ _ _ Hz) as Hsz. simpl in Hsz.
    eapply rb_find_loop_ok; [exact Hz|done|lia]. }
  by apply wp_ok in Hf as (? & ? & ? & -> & ->).
Qed.

(** the height of a tree of [n] elements is at most [2 lg (n + 1)], the bound
    the header of tree.h states. *)
Theorem rb_height_bound key T l :
  rb_rep key T l →
  ∃ t, zrep T [] t ∧ elems t = l ∧ height t ≤ 2 * Nat.log2 (S (length l)).
Proof.
  intros (t & n & Hz & <- & Hwf & _). exists t. split_and!; [done..|].
  destruct (rbwf_height _ _ _ Hwf) as [Hn Hh]. simpl in Hh.
  assert (n ≤ Nat.log2 (S (length (elems t)))) by (by apply Nat.log2_le_pow2; [lia|]).
  lia.
Qed.

Lemma rb_remove_stale key T l e c :
  rb_rep key T l → e ∉ l → rb_nodes T !! e = Some (RbEntry None None None c) →
  ∃ T', RB_REMOVE e T = Ok e T' ∧ rb_rep key T' [].
Proof.
  intros Hrep He Hn.
  assert (wp (RB_REMOVE e) (λ o T', o = e ∧ T' = RbTree None (rb_nodes T)) T)
    as (? & ? & ? & -> & ->)%wp_ok; [|exists (RbTree None (rb_nodes T)); split; [done|]].
  - unfold RB_REMOVE, rb_fuel. apply wp_bind, wp_get, wp_bind. eapply wp_RB_LEFT; [done|].
    apply wp_bind. eapply wp_RB_RIGHT; [done|]. simpl. unfold rb_remove_here, rb_splice.
    apply wp_bind, wp_bind. eapply wp_RB_PARENT; [done|].
    apply wp_bind. eapply wp_RB_COLOR; [done|]. simpl.
    apply wp_bind, wp_bind, wp_ret. unfold set_root. apply wp_modify, wp_ret, wp_bind.
    by destruct c.
  - exists Lf, 0. split_and!; [|done|constructor|constructor].
    constructor; try done. constructor.
Qed.

(** RB_REMOVE does not check that its argument is in the tree. An element that
    was alone in the tree when it was removed (or that [calloc] just zeroed) has
    NULL links, and removing it once more empties the tree, whatever the tree has
    come to hold. *)
Theorem rb_remove_stale_empties key T l e c :
  rb_rep key T l → e ∉ l → rb_nodes T !! e = Some (RbEntry None None None c) →
  ∃ T', RB_REMOVE e T = Ok e T' ∧ rb_rep key T' [].
Proof. apply rb_remove_stale. Qed.

(** ** Witnesses *)

(** Seven sleepers, the key of element [x] being [10 * x]. *)
Definition demo_key (x : loc) : Z := 10 * Z.pos x.

Definition rb_demo : rb_tree :=
  match for_each (λ x, RB_INSERT demo_key x ;; mret ()) [4; 2; 6; 1; 3; 5; 7]%positive rb_init with
  | Ok _ T => T
  | _ => rb_init
  end.

Definition rb_demo_shape : rbt :=
  let leaf x := Nd RB_RED Lf x Lf in
  (Nd RB_BLACK (Nd RB_BLACK (leaf 1) 2 (leaf 3)) 4 (Nd RB_BLACK (leaf 5) 6 (leaf 7)))%positive.

Lemma rb_demo_rep : rb_rep demo_key rb_demo [1; 2; 3; 4; 5; 6; 7]%positive.
Proof.
  exists rb_demo_shape, 2. split_and!.
  - constructor; [by vm_compute|repeat split; by vm_compute|done|].
    by apply (bool_decide_unpack _); vm_compute.
  - done.
  - repeat econstructor.
  - unfold key_sorted. repeat first [apply StronglySorted_cons; split|constructor];
      unfold demo_key; lia.
Qed.

Lemma rb_insert_refines_witness :
  ∃ T', RB_INSERT demo_key 8 rb_demo = Ok None T' ∧
    rb_rep demo_key T' [1; 2; 3; 4; 5; 6; 7; 8]%positive ∧
    ∀ y, y ∉ [8; 1; 2; 3; 4; 5; 6; 7]%positive → rb_nodes T' !! y = rb_nodes rb_demo !! y.
Proof.
  apply (rb_insert_refines demo_key rb_demo [1; 2; 3; 4; 5; 6; 7]%positive 8);
    [exact rb_demo_rep|by apply (bool_decide_unpack _); vm_compute].
Defined.

Lemma rb_remove_refines_witness :
  ∃ T', RB_REMOVE 4 rb_demo = Ok 4%positive T' ∧
    rb_rep demo_key T' [1; 2; 3; 5; 6; 7]%positive ∧
    ∀ y, y ∉ [1; 2; 3; 4; 5; 6; 7]%positive → rb_nodes T' !! y = rb_nodes rb_demo !! y.
Proof.
  apply (rb_remove_refines demo_key rb_demo [1; 2; 3; 4; 5; 6; 7]%positive 4);
    [exact rb_demo_rep|by apply (bool_decide_unpack _); vm_compute].
Defined.

Lemma rb_search_refines_witness :
  RB_MIN rb_demo = Ok (Some 1%positive) rb_demo ∧ RB_MAX rb_demo = Ok (Some 7%positive) rb_demo ∧
  RB_FIND demo_key 50 rb_demo = Ok (Some 5%positive) rb_demo.
Proof. exact (rb_search_refines demo_key rb_demo _ 50 rb_demo_rep). Defined.

Lemma rb_height_bound_witness :
  ∃ t, zrep rb_demo [] t ∧ elems t = [1; 2; 3; 4; 5; 6; 7]%positive ∧ height t ≤ 6.
Proof. exact (rb_height_bound demo_key rb_demo _ rb_demo_rep). Defined.

Lemma rb_remove_stale_empties_witness :
  ∃ T', RB_REMOVE 9 (rb_calloc 9 rb_demo) = Ok 9%positive T' ∧ rb_rep demo_key T' [].
Proof.
  apply (rb_remove_stale_empties demo_key _ [1; 2; 3; 4; 5; 6; 7]%positive 9 RB_BLACK);
    [|by apply (bool_decide_unpack _); vm_compute|by vm_compute].
  apply (@st_calloc_ok rb_tree rb_SleepTree demo_key rb_demo); [exact rb_demo_rep|].
  by apply (bool_decide_unpack _); vm_compute.
Defined.
