(* ===== verification/RbIter.v ===== *)
(** * Walking a red-black tree: RB_NFIND, RB_NEXT, RB_PREV and the loops

    These macros of util/tree.h follow the parent pointers; the library itself
    does not expand them.  A loop macro takes its body as an argument and returns
    the elements the body ran on, in order. *)
From stdpp Require Import base tactics list gmap sorting.
From Stdlib Require Import ZArith Lia.
From S2P Require Import Prelude Rbtree RbShape RbInsert RbRemove RbSpec.

(** [RB_NFIND]: the first element whose key is at least [k]. *)
Fixpoint rb_nfind_loop (fuel : nat) (key : loc → Z) (k : Z) (tmp res : option loc) : M rb_tree (option loc) :=
  match fuel with
  | O => diverge
  | S fuel =>
    match tmp with
    | None => mret res
    | Some x =>
      let comp := sleep_cmp k (key x) in
      if (comp <? 0)%Z then l ← RB_LEFT x; rb_nfind_loop fuel key k l (Some x)
      else if (0 <? comp)%Z then r ← RB_RIGHT x; rb_nfind_loop fuel key k r res
      else mret (Some x)
    end
  end.

Definition RB_NFIND (key : loc → Z) (k : Z) : M rb_tree (option loc) :=
  fuel ← rb_fuel; root ← RB_ROOT; rb_nfind_loop fuel key k root None.

(** [while ((right = RB_RIGHT(elm)) != NULL) elm = right;] *)
Fixpoint rb_rightmost (fuel : nat) (elm : loc) : M rb_tree loc :=
  match fuel with
  | O => diverge
  | S fuel =>
    r ← RB_RIGHT elm;
    match r with Some r => rb_rightmost fuel r | None => mret elm end
  end.

(** [while (RB_PARENT(elm) && elm == child(RB_PARENT(elm))) elm = RB_PARENT(elm);] *)
Fixpoint rb_climb (fuel : nat) (child : loc → M rb_tree (option loc)) (elm : loc) : M rb_tree loc :=
  match fuel with
  | O => diverge
  | S fuel =>
    op ← RB_PARENT elm;
    match op with
    | None => mret elm
    | Some p =>
      c ← child p;
      if bool_decide (Some elm = c) then rb_climb fuel child p else mret elm
    end
  end.

Definition RB_NEXT (elm : loc) : M rb_tree (option loc) :=
  fuel ← rb_fuel;
  r ← RB_RIGHT elm;
  match r with
  | Some r => x ← rb_leftmost fuel r; mret (Some x)
  | None =>
    op ← RB_PARENT elm;
    first ← (match op with
             | Some p => l ← RB_LEFT p; mret (bool_decide (Some elm = l))
             | None => mret false
             end);
    if first : bool then mret op else
    x ← rb_climb fuel RB_RIGHT elm; RB_PARENT x
  end.

Definition RB_PREV (elm : loc) : M rb_tree (option loc) :=
  fuel ← rb_fuel;
  l ← RB_LEFT elm;
  match l with
  | Some l => x ← rb_rightmost fuel l; mret (Some x)
  | None =>
    op ← RB_PARENT elm;
    first ← (match op with
             | Some p => r ← RB_RIGHT p; mret (bool_decide (Some elm = r))
             | None => mret false
             end);
    if first : bool then mret op else
    x ← rb_climb fuel RB_LEFT elm; RB_PARENT x
  end.

(** [for (; x != NULL; x = next(x)) body] *)
Fixpoint rb_foreach (fuel : nat) (next : loc → M rb_tree (option loc)) (body : loc → M rb_tree ())
    (x : option loc) : M rb_tree (list loc) :=
  match fuel with
  | O => diverge
  | S fuel =>
    match x with
    | None => mret []
    | Some x => body x ;; y ← next x; xs ← rb_foreach fuel next body y; mret (x :: xs)
    end
  end.

(** The same with the next element read before the body. *)
Fixpoint rb_foreach_safe (fuel : nat) (next : loc → M rb_tree (option loc)) (body : loc → M rb_tree ())
    (x : option loc) : M rb_tree (list loc) :=
  match fuel with
  | O => diverge
  | S fuel =>
    match x with
    | None => mret []
    | Some x => y ← next x; body x ;; xs ← rb_foreach_safe fuel next body y; mret (x :: xs)
    end
  end.

Definition RB_FOREACH (body : loc → M rb_tree ()) : M rb_tree (list loc) :=
  fuel ← rb_fuel; x ← RB_MIN; rb_foreach fuel RB_NEXT body x.
Definition RB_FOREACH_REVERSE (body : loc → M rb_tree ()) : M rb_tree (list loc) :=
  fuel ← rb_fuel; x ← RB_MAX; rb_foreach fuel RB_PREV body x.
Definition RB_FOREACH_SAFE (body : loc → M rb_tree ()) : M rb_tree (list loc) :=
  fuel ← rb_fuel; x ← RB_MIN; rb_foreach_safe fuel RB_NEXT body x.
Definition RB_FOREACH_REVERSE_SAFE (body : loc → M rb_tree ()) : M rb_tree (list loc) :=
  fuel ← rb_fuel; x ← RB_MAX; rb_foreach_safe fuel RB_PREV body x.
Definition RB_FOREACH_FROM (y : option loc) (body : loc → M rb_tree ()) : M rb_tree (list loc) :=
  fuel ← rb_fuel; rb_foreach_safe fuel RB_NEXT body y.
Definition RB_FOREACH_REVERSE_FROM (y : option loc) (body : loc → M rb_tree ()) : M rb_tree (list loc) :=
  fuel ← rb_fuel; rb_foreach_safe fuel RB_PREV body y.

(** ** The neighbours of an element *)

Lemma rightmost_ok t : ∀ T π fuel x0,
  zrep T π t → root_of t = Some x0 → length (elems t) ≤ fuel →
  wp (rb_rightmost fuel x0) (λ y T', T' = T ∧ last (elems t) = Some y) T.
Proof.
  induction t as [|c l _ x r IHr]; intros T π fuel x0 Hz Hx Hfuel; simpl in *; [done|].
  simplify_eq. rewrite length_app in Hfuel. simpl in Hfuel. destruct fuel as [|fuel]; [lia|].
  simpl. apply wp_bind. eapply focus_right; [exact Hz|]. rewrite last_app_cons, last_cons.
  destruct r as [|cr lr xr rr]; [done|].
  eapply wp_mono; [eapply (IHr T (FR c l x0 :: π)); [by apply zrep_up|done|lia]|].
  intros y ? [-> Hl]. split; [done|]. by rewrite Hl.
Qed.

Lemma leftmost_head t T π fuel x0 :
  zrep T π t → root_of t = Some x0 → length (elems t) ≤ fuel →
  wp (rb_leftmost fuel x0) (λ y T', T' = T ∧ head (elems t) = Some y) T.
Proof.
  intros. eapply wp_mono; [by eapply leftmost_ok|]. intros y T' (-> & ρ & c & ry & -> & Hρ).
  split; [done|]. by rewrite plug_elems, Hρ.
Qed.

(** Climbing from a subtree to the first ancestor on the other side. *)
Lemma climb_right_ok π : ∀ T t fuel x,
  zrep T π t → root_of t = Some x → length π < fuel →
  wp (x' ← rb_climb fuel RB_RIGHT x; RB_PARENT x') (λ o T', T' = T ∧ o = head (rights π)) T.
Proof.
  induction π as [|f π IH]; intros T t fuel x Hz Hx Hfuel; (destruct fuel as [|fuel]; [simpl in Hfuel; lia|]);
    (destruct t as [|c l x0 r]; [done|]); injection Hx as ->; simpl; apply wp_bind, wp_bind;
    (eapply focus_parent; [exact Hz|]); simpl.
  - by eapply focus_parent.
  - pose proof (proj1 (zrep_up _ _ _ _) Hz) as Hz'. pose proof (zrep_nodup_split _ _ _ Hz') as Hnd.
    destruct f as [cp xp rp|cp lp xp]; simpl in *; apply wp_bind; (eapply focus_right; [exact Hz'|]); simpl.
    + rewrite bool_decide_false; [by eapply focus_parent|].
      intros Hroot%eq_sym%root_of_elem. nodup_split. set_solver.
    + rewrite bool_decide_true by done. apply (wp_bind (rb_climb fuel RB_RIGHT xp)).
      eapply (IH _ _ _ _ Hz'); [done|lia].
Qed.

Lemma climb_left_ok π : ∀ T t fuel x,
  zrep T π t → root_of t = Some x → length π < fuel →
  wp (x' ← rb_climb fuel RB_LEFT x; RB_PARENT x') (λ o T', T' = T ∧ o = last (lefts π)) T.
Proof.
  induction π as [|f π IH]; intros T t fuel x Hz Hx Hfuel; (destruct fuel as [|fuel]; [simpl in Hfuel; lia|]);
    (destruct t as [|c l x0 r]; [done|]); injection Hx as ->; simpl; apply wp_bind, wp_bind;
    (eapply focus_parent; [exact Hz|]); simpl.
  - by eapply focus_parent.
  - pose proof (proj1 (zrep_up _ _ _ _) Hz) as Hz'. pose proof (zrep_nodup_split _ _ _ Hz') as Hnd.
    destruct f as [cp xp rp|cp lp xp]; simpl in *; apply wp_bind; (eapply focus_left; [exact Hz'|]); simpl.
    + rewrite bool_decide_true by done. apply (wp_bind (rb_climb fuel RB_LEFT xp)).
      eapply (IH _ _ _ _ Hz'); [done|lia].
    + rewrite bool_decide_false.
      * eapply focus_parent; [exact Hz|]. rewrite last_app, last_snoc. done.
      * intros Hroot%eq_sym%root_of_elem. nodup_split. set_solver.
Qed.

(** The fuel of every loop: more than the nodes of the tree. *)
Lemma zrep_fuel T π t : zrep T π t → length π + length (elems t) < S (S (size (rb_nodes T))).
Proof. intros H%zrep_path_size. lia. Qed.

Lemma focus_elem T l1 x l2 key :
  rb_rep key T (l1 ++ x :: l2) →
  ∃ π c l r, zrep T π (Nd c l x r) ∧ l1 = lefts π ++ elems l ∧ l2 = elems r ++ rights π.
Proof.
  intros (t & n & Hz & Hel & _ & Hs%key_sorted_nodup).
  destruct (elem_split t x) as (π & c & l & r & ->); [rewrite Hel; set_solver|].
  exists π, c, l, r. split; [by apply zrep_plug|].
  rewrite plug_elems in Hel. simpl in Hel. rewrite <-!app_assoc in Hel. simpl in Hel. rewrite app_assoc in Hel.
  apply NoDup_app in Hs as (_ & Hnot & Hx). apply NoDup_cons in Hx as [Hx2 _].
  destruct (app_eq_inv _ _ _ _ Hel) as [(k & H1 & H2)|(k & H1 & H2)].
  - destruct k as [|y k]; simpl in H2; [injection H2 as ->; by rewrite app_nil_r in H1|].
    injection H2 as <- ->. exfalso. set_solver.
  - destruct k as [|y k]; simpl in H2; [injection H2 as ->; by rewrite app_nil_r in H1|].
    injection H2 as <- ->. exfalso. eapply (Hnot x); [|by left]. rewrite H1. set_solver.
Qed.

Lemma RB_NEXT_ok T l1 x l2 key :
  rb_rep key T (l1 ++ x :: l2) → wp (RB_NEXT x) (λ o T', T' = T ∧ o = head l2) T.
Proof.
  intros (π & c & l & r & Hz & _ & ->)%focus_elem. pose proof (zrep_fuel _ _ _ Hz) as Hfuel.
  unfold RB_NEXT, rb_fuel. apply wp_bind, wp_get, wp_bind. eapply focus_right; [exact Hz|].
  destruct r as [|cr lr y rr]; cbn [root_of].
  - apply wp_bind. eapply focus_parent; [exact Hz|]. apply wp_bind.
    destruct π as [|[cp xp rp|cp lp xp] π]; cbn [parent_of head fmap option_fmap option_map frame_elm].
    + apply wp_ret. eapply (climb_right_ok []); [exact Hz|done|simpl in *; lia].
    + apply wp_bind. eapply focus_left; [exact (proj1 (zrep_up _ _ _ _) Hz)|]. apply wp_ret.
      rewrite bool_decide_true by done. done.
    + apply wp_bind. eapply focus_left; [exact (proj1 (zrep_up _ _ _ _) Hz)|]. apply wp_ret.
      rewrite bool_decide_false.
      * eapply (climb_right_ok (FR cp lp xp :: π)); [exact Hz|done|simpl in *; lia].
      * intros Hroot%eq_sym%root_of_elem. apply zrep_nodup_split in Hz. simpl in Hz. nodup_split. set_solver.
  - apply wp_bind. eapply wp_mono; [eapply (leftmost_head (Nd cr lr y rr) T (FR c l x :: π)); [by apply zrep_up|done|]|].
    + simpl in *. rewrite length_app in Hfuel. simpl in Hfuel. lia.
    + intros z ? [-> Hh]. apply wp_ret. split; [done|]. rewrite head_app. by rewrite Hh.
Qed.

Lemma RB_PREV_ok T l1 x l2 key :
  rb_rep key T (l1 ++ x :: l2) → wp (RB_PREV x) (λ o T', T' = T ∧ o = last l1) T.
Proof.
  intros (π & c & l & r & Hz & -> & _)%focus_elem. pose proof (zrep_fuel _ _ _ Hz) as Hfuel.
  unfold RB_PREV, rb_fuel. apply wp_bind, wp_get, wp_bind. eapply focus_left; [exact Hz|].
  destruct l as [|cl ll y rl]; cbn [root_of].
  - change (elems Lf) with (@nil loc). rewrite app_nil_r.
    apply wp_bind. eapply focus_parent; [exact Hz|]. apply wp_bind.
    destruct π as [|[cp xp rp|cp lp xp] π]; cbn [parent_of head fmap option_fmap option_map frame_elm].
    + apply wp_ret. eapply (climb_left_ok []); [exact Hz|done|simpl in *; lia].
    + apply wp_bind. eapply focus_right; [exact (proj1 (zrep_up _ _ _ _) Hz)|]. apply wp_ret.
      rewrite bool_decide_false.
      * eapply (climb_left_ok (FL cp xp rp :: π)); [exact Hz|done|simpl in *; lia].
      * intros Hroot%eq_sym%root_of_elem. apply zrep_nodup_split in Hz. simpl in Hz. nodup_split. set_solver.
    + apply wp_bind. eapply focus_right; [exact (proj1 (zrep_up _ _ _ _) Hz)|]. apply wp_ret.
      rewrite bool_decide_true by done. split; [done|]. simpl. by rewrite !last_app.
  - apply wp_bind. eapply wp_mono; [eapply (rightmost_ok (Nd cl ll y rl) T (FL c x r :: π)); [by apply zrep_up|done|]|].
    + simpl in *. rewrite !length_app in Hfuel. simpl in Hfuel. rewrite length_app. simpl. lia.
    + intros z ? [-> Hh]. apply wp_ret. split; [done|]. rewrite last_app. by rewrite Hh.
Qed.

(** ** The search for a lower bound *)

Definition at_least (key : loc → Z) (k : Z) (l : list loc) : list loc := filter (λ x, (k ≤ key x)%Z) l.

Lemma at_least_none key k l : (∀ y, y ∈ l → (key y < k)%Z) → at_least key k l = [].
Proof.
  intros H. apply elem_of_nil_inv. intros y [Hk Hy]%list_elem_of_filter. specialize (H y Hy). lia.
Qed.

Lemma nfind_loop_ok key k T t : ∀ π fuel res,
  zrep T π t → key_sorted key (elems t) → length (elems t) < fuel →
  wp (rb_nfind_loop fuel key k (root_of t) res)
    (λ o T', T' = T ∧ o = match head (at_least key k (elems t)) with Some y => Some y | None => res end) T.
Proof.
  induction t as [|c l IHl x r IHr]; intros π fuel res Hz Hs Hfuel;
    destruct fuel as [|fuel]; simpl in *; try lia; [done|].
  rewrite length_app in Hfuel. simpl in Hfuel.
  apply key_sorted_app in Hs as (Hl & [Hr Hxr]%key_sorted_cons & Hlr).
  assert (∀ y, y ∈ elems l → (key y < key x)%Z) as Hlx by (intros; apply Hlr; [done|by left]).
  unfold at_least. rewrite filter_app, filter_cons. unfold sleep_cmp.
  destruct (Z.ltb_spec k (key x)) as [E1|E1]; simpl.
  - apply wp_bind. eapply focus_left; [exact Hz|]. eapply wp_mono.
    { eapply (IHl (FL c x r :: π)); [by apply zrep_up|done|lia]. }
    intros o ? [-> ->]. split; [done|]. rewrite decide_True by lia. rewrite head_app.
    unfold at_least. by destruct (filter _ (elems l)).
  - destruct (Z.eqb_spec k (key x)) as [E2|E2]; simpl.
    + split; [done|]. rewrite decide_True by lia.
      change (filter (λ y, (k ≤ key y)%Z) (elems l)) with (at_least key k (elems l)).
      rewrite (at_least_none key k (elems l)) by (intros y Hy; specialize (Hlx y Hy); lia). done.
    + apply wp_bind. eapply focus_right; [exact Hz|]. eapply wp_mono.
      { eapply (IHr (FR c l x :: π)); [by apply zrep_up|done|lia]. }
      intros o ? [-> ->]. split; [done|]. rewrite decide_False by lia.
      change (filter (λ y, (k ≤ key y)%Z) (elems l)) with (at_least key k (elems l)).
      rewrite (at_least_none key k (elems l)) by (intros y Hy; specialize (Hlx y Hy); lia). done.
Qed.

Lemma RB_NFIND_ok key k T l :
  rb_rep key T l → wp (RB_NFIND key k) (λ o T', T' = T ∧ o = head (at_least key k l)) T.
Proof.
  intros (t & n & Hz & <- & _ & Hs). unfold RB_NFIND, rb_fuel, RB_ROOT. apply wp_bind, wp_get, wp_bind, wp_get.
  rewrite (zrep_root _ _ _ Hz). pose proof (zrep_fuel _ _ _ Hz) as Hsz. simpl in Hsz.
  eapply wp_mono; [eapply nfind_loop_ok; [exact Hz|done|lia]|].
  intros o ? [-> ->]. split; [done|]. by destruct (head _).
Qed.

(** ** The loops *)

Lemma rb_rep_fuel key T l : rb_rep key T l → length l < S (S (size (rb_nodes T))).
Proof. intros (t & n & Hz & <- & _). pose proof (zrep_fuel _ _ _ Hz). simpl in *. lia. Qed.

(** A loop that leaves the tree alone visits what is left of it. *)
Lemma foreach_next key T body : ∀ l2 l1 fuel,
  rb_rep key T (l1 ++ l2) → (∀ x, x ∈ l1 ++ l2 → wp (body x) (λ _ T', T' = T) T) → length l2 < fuel →
  wp (rb_foreach fuel RB_NEXT body (head l2)) (λ xs T', T' = T ∧ xs = l2) T.
Proof.
  induction l2 as [|x l2 IH]; intros l1 [|fuel] Hrep Hbody Hfuel; simpl in *; try lia; [done|].
  apply wp_bind. eapply wp_mono; [by apply Hbody; set_solver|]. intros [] ? ->. apply wp_bind.
  eapply wp_mono; [by eapply RB_NEXT_ok|]. intros o ? [-> ->]. apply wp_bind.
  eapply wp_mono; [apply (IH (l1 ++ [x])); rewrite <-?app_assoc; [done|done|lia]|].
  intros xs ? [-> ->]. by apply wp_ret.
Qed.

Lemma foreach_prev key T body : ∀ l1 l2 fuel,
  rb_rep key T (l1 ++ l2) → (∀ x, x ∈ l1 ++ l2 → wp (body x) (λ _ T', T' = T) T) → length l1 < fuel →
  wp (rb_foreach fuel RB_PREV body (last l1)) (λ xs T', T' = T ∧ xs = reverse l1) T.
Proof.
  intros l1. induction l1 as [|x l1 IH] using rev_ind; intros l2 [|fuel] Hrep Hbody Hfuel; try (simpl in *; lia); [done|].
  rewrite length_app in Hfuel. rewrite <-app_assoc in Hrep. rewrite last_snoc, reverse_snoc. simpl in *.
  apply wp_bind. eapply wp_mono; [by apply Hbody; set_solver|]. intros [] ? ->. apply wp_bind.
  eapply wp_mono; [by eapply RB_PREV_ok|]. intros o ? [-> ->]. apply wp_bind.
  eapply wp_mono; [apply (IH (x :: l2)); [done|intros; apply Hbody; set_solver|lia]|].
  intros xs ? [-> ->]. by apply wp_ret.
Qed.

(** A loop from an end of the tree. *)
Lemma loop_from T (start : M rb_tree (option loc)) (loop : nat → option loc → M rb_tree (list loc)) o Q :
  wp start (λ o' T', o' = o ∧ T' = T) T → wp (loop (S (S (size (rb_nodes T)))) o) Q T →
  wp (fuel ← rb_fuel; x ← start; loop fuel x) Q T.
Proof.
  intros Hs Hl. unfold rb_fuel. apply wp_bind, wp_get, wp_bind. eapply wp_mono; [exact Hs|].
  by intros ? ? [-> ->].
Qed.

Lemma wp_eq {A} (m : M rb_tree A) T a : wp m (λ x T', T' = T ∧ x = a) T → m T = Ok a T.
Proof. by intros (? & ? & ? & -> & ->)%wp_ok. Qed.

Lemma wp_ex {A} (m : M rb_tree A) T a (Q : rb_tree → Prop) :
  wp m (λ x T', x = a ∧ Q T') T → ∃ T', m T = Ok a T' ∧ Q T'.
Proof. intros (? & T' & ? & -> & ?)%wp_ok. eauto. Qed.

(** The body that removes the elements that satisfy [P]. *)
Definition remove_if (P : loc → bool) (x : loc) : M rb_tree () :=
  if P x then RB_REMOVE x ;; mret () else mret ().

Definition kept (P : loc → bool) (l : list loc) : list loc := filter (λ x, P x = false) l.

Lemma rb_nodup key T l : rb_rep key T l → NoDup l.
Proof. intros (? & ? & ? & <- & _ & Hs). by eapply key_sorted_nodup. Qed.

(** One step of such a body, with the element's neighbours where they were. *)
Lemma remove_if_ok key P T l1 x l2 :
  rb_rep key T (l1 ++ x :: l2) →
  wp (remove_if P x) (λ _ T', rb_rep key T' (l1 ++ kept P [x] ++ l2)) T.
Proof.
  intros Hrep. unfold remove_if, kept. rewrite filter_cons. destruct (P x); simpl; [|by apply wp_ret].
  apply wp_bind. eapply wp_mono; [eapply RB_REMOVE_ok; [exact Hrep|set_solver]|].
  intros ? T' (_ & Hrep' & _). apply wp_ret.
  apply rb_nodup in Hrep as (_ & Hnot & [Hx _]%NoDup_cons)%NoDup_app.
  rewrite SL_remove_middle in Hrep'; [done| |done]. intros Hin. eapply Hnot; [done|by left].
Qed.

Lemma foreach_safe_next key P : ∀ l2 l1 T fuel,
  rb_rep key T (l1 ++ l2) → length l2 < fuel →
  wp (rb_foreach_safe fuel RB_NEXT (remove_if P) (head l2))
    (λ xs T', xs = l2 ∧ rb_rep key T' (l1 ++ kept P l2)) T.
Proof.
  induction l2 as [|x l2 IH]; intros l1 T [|fuel] Hrep Hfuel; simpl in *; try lia; [done|].
  apply wp_bind. eapply wp_mono; [by eapply RB_NEXT_ok|]. intros o ? [-> ->]. apply wp_bind.
  eapply wp_mono; [by eapply remove_if_ok|]. intros [] T1 Hrep1. apply wp_bind.
  eapply wp_mono; [apply (IH (l1 ++ kept P [x])); [by rewrite <-app_assoc|lia]|].
  intros xs T2 [-> Hrep2]. apply wp_ret. split; [done|].
  rewrite <-app_assoc in Hrep2. unfold kept in *. by rewrite <-filter_app in Hrep2.
Qed.

Lemma foreach_safe_prev key P : ∀ l1 l2 T fuel,
  rb_rep key T (l1 ++ l2) → length l1 < fuel →
  wp (rb_foreach_safe fuel RB_PREV (remove_if P) (last l1))
    (λ xs T', xs = reverse l1 ∧ rb_rep key T' (kept P l1 ++ l2)) T.
Proof.
  intros l1. induction l1 as [|x l1 IH] using rev_ind; intros l2 T [|fuel] Hrep Hfuel;
    try (simpl in *; lia); [done|].
  rewrite length_app in Hfuel. rewrite <-app_assoc in Hrep. rewrite last_snoc, reverse_snoc. simpl in *.
  apply wp_bind. eapply wp_mono; [by eapply RB_PREV_ok|]. intros o ? [-> ->]. apply wp_bind.
  eapply wp_mono; [by eapply remove_if_ok|]. intros [] T1 Hrep1. apply wp_bind.
  eapply wp_mono; [apply (IH (kept P [x] ++ l2)); [done|lia]|].
  intros xs T2 [-> Hrep2]. apply wp_ret. split; [done|].
  rewrite app_assoc in Hrep2. unfold kept in *. by rewrite <-filter_app in Hrep2.
Qed.

(** C36: the iteration macros walk the sorted sequence.  RB_NFIND finds the first
    element whose key is not below the given one; from an element RB_NEXT goes to
    the one behind it and RB_PREV to the one before it, and to NULL at the ends;
    RB_FOREACH runs its body on all elements in order, RB_FOREACH_REVERSE in the
    reverse order, as long as the body leaves the tree alone; the SAFE and FROM
    loops let the body remove the element it runs on, and those that start in the
    middle leave what they do not visit. *)
Theorem rb_iteration_refines key T l k P body :
  rb_rep key T l → (∀ x, x ∈ l → wp (body x) (λ _ T', T' = T) T) →
  let kept l := filter (λ x, P x = false) l in
  RB_NFIND key k T = Ok (head (filter (λ x, (k ≤ key x)%Z) l)) T ∧
  (∀ l1 x l2, l = l1 ++ x :: l2 → RB_NEXT x T = Ok (head l2) T ∧ RB_PREV x T = Ok (last l1) T) ∧
  RB_FOREACH body T = Ok l T ∧ RB_FOREACH_REVERSE body T = Ok (reverse l) T ∧
  (∃ T', RB_FOREACH_SAFE (remove_if P) T = Ok l T' ∧ rb_rep key T' (kept l)) ∧
  (∃ T', RB_FOREACH_REVERSE_SAFE (remove_if P) T = Ok (reverse l) T' ∧ rb_rep key T' (kept l)) ∧
  ∀ l1 l2, l = l1 ++ l2 →
    (∃ T', RB_FOREACH_FROM (head l2) (remove_if P) T = Ok l2 T' ∧ rb_rep key T' (l1 ++ kept l2)) ∧
    ∃ T', RB_FOREACH_REVERSE_FROM (last l1) (remove_if P) T = Ok (reverse l1) T' ∧
      rb_rep key T' (kept l1 ++ l2).
Proof.
  intros Hrep Hbody. pose proof (rb_rep_fuel _ _ _ Hrep) as Hfuel.
  destruct (RB_MINMAX_ok _ _ _ Hrep) as [Hmin Hmax]. split_and!.
  - by destruct (proj1 (wp_ok _ _ _) (RB_NFIND_ok key k T l Hrep)) as (? & ? & ? & -> & ->).
  - intros l1 x l2 ->. split.
    + by destruct (proj1 (wp_ok _ _ _) (RB_NEXT_ok T l1 x l2 key Hrep)) as (? & ? & ? & -> & ->).
    + by destruct (proj1 (wp_ok _ _ _) (RB_PREV_ok T l1 x l2 key Hrep)) as (? & ? & ? & -> & ->).
  - apply wp_eq, (loop_from _ _ (λ n, rb_foreach n RB_NEXT body) _ _ Hmin). by apply (foreach_next key T body l []).
  - apply wp_eq, (loop_from _ _ (λ n, rb_foreach n RB_PREV body) _ _ Hmax). by apply (foreach_prev key T body l []); rewrite ?app_nil_r.
  - apply wp_ex, (loop_from _ _ (λ n, rb_foreach_safe n RB_NEXT _) _ _ Hmin). by apply (foreach_safe_next key P l []).
  - apply wp_ex, (loop_from _ _ (λ n, rb_foreach_safe n RB_PREV _) _ _ Hmax).
    rewrite <-(app_nil_r (filter _ _)). by apply (foreach_safe_prev key P l []); rewrite ?app_nil_r.
  - intros l1 l2 ->. rewrite length_app in Hfuel. split; apply wp_ex.
    + apply (foreach_safe_next key P l2 l1 T (S (S _))); [done|lia].
    + apply (foreach_safe_prev key P l1 l2 T (S (S _))); [done|lia].
Qed.

(** On the seven sleepers of RbSpec, removing the even ones. *)
Lemma rb_iteration_refines_witness :
  let P x := Z.even (Z.pos x) in
  RB_NFIND demo_key 35 rb_demo = Ok (Some 4%positive) rb_demo ∧
  RB_NEXT 4 rb_demo = Ok (Some 5%positive) rb_demo ∧ RB_PREV 1 rb_demo = Ok None rb_demo ∧
  (∃ T', RB_FOREACH_SAFE (remove_if P) rb_demo = Ok [1; 2; 3; 4; 5; 6; 7]%positive T' ∧
    rb_rep demo_key T' [1; 3; 5; 7]%positive) ∧
  ∃ T', RB_FOREACH_REVERSE_FROM (Some 4%positive) (remove_if P) rb_demo = Ok [4; 3; 2; 1]%positive T' ∧
    rb_rep demo_key T' [1; 3; 5; 6; 7]%positive.
Proof.
  intros P.
  destruct (rb_iteration_refines demo_key rb_demo [1; 2; 3; 4; 5; 6; 7]%positive 35 P (λ _, mret ()) rb_demo_rep)
    as (Hn & Hnb & _ & _ & Hs & _ & Hf); [done|].
  split; [exact Hn|]. split; [by apply (Hnb [1; 2; 3]%positive 4%positive [5; 6; 7]%positive)|].
  split; [by apply (Hnb [] 1%positive [2; 3; 4; 5; 6; 7]%positive)|]. split; [exact Hs|].
  by apply (Hf [1; 2; 3; 4]%positive [5; 6; 7]%positive).
Defined.
