(* ===== verification/Splay.v ===== *)
(** * Splay trees of [src/util/tree.h], at the level of their pointers

    Top-down splaying hangs what it passes on two trees that grow inwards, and
    whose roots are the two fields of a local struct, [__node].  As elsewhere the
    comparison is [_sleep_cmp] of two keys and loops carry fuel. *)
From stdpp Require Import base tactics list gmap fin_sets.
From Stdlib Require Import ZArith Lia.
From S2P Require Import Prelude Rbtree.

(** [SPLAY_ENTRY] and [SPLAY_HEAD]. *)
Record splay_entry := SplayEntry { spe_left : option loc; spe_right : option loc }.
Record splay_tree := SplayTree { sph_root : option loc; splay_nodes : gmap loc splay_entry }.

Abbreviation MS := (M splay_tree).

Definition splay_get (x : loc) : MS splay_entry := o ← get (λ t, splay_nodes t !! x); deref o.
Definition splay_put (x : loc) (v : splay_entry) : MS () :=
  modify (λ t, SplayTree (sph_root t) (<[x := v]> (splay_nodes t))).

Definition SPLAY_LEFT (x : loc) : MS (option loc) := v ← splay_get x; mret (spe_left v).
Definition SPLAY_RIGHT (x : loc) : MS (option loc) := v ← splay_get x; mret (spe_right v).
Definition SPLAY_ROOT : MS (option loc) := get sph_root.
Definition SPLAY_EMPTY : MS bool := r ← SPLAY_ROOT; mret (bool_decide (r = None)).

Definition splay_set_left (x : loc) (p : option loc) : MS () :=
  v ← splay_get x; splay_put x (SplayEntry p (spe_right v)).
Definition splay_set_right (x : loc) (p : option loc) : MS () :=
  v ← splay_get x; splay_put x (SplayEntry (spe_left v) p).
Definition splay_set_root (p : option loc) : MS () := modify (λ t, SplayTree p (splay_nodes t)).

Definition SPLAY_INIT : MS () := splay_set_root None.

(** [head->sph_root], dereferenced. *)
Definition splay_top : MS loc := r ← SPLAY_ROOT; deref r.

(** ** The steps of a splay *)

Definition SPLAY_ROTATE_RIGHT (tmp : loc) : MS () :=
  root ← splay_top;
  r ← SPLAY_RIGHT tmp;
  splay_set_left root r ;;
  splay_set_right tmp (Some root) ;;
  splay_set_root (Some tmp).

Definition SPLAY_ROTATE_LEFT (tmp : loc) : MS () :=
  root ← splay_top;
  l ← SPLAY_LEFT tmp;
  splay_set_right root l ;;
  splay_set_left tmp (Some root) ;;
  splay_set_root (Some tmp).

(** The new value of [tmp] is returned. *)
Definition SPLAY_LINKLEFT (tmp : loc) : MS loc :=
  root ← splay_top;
  splay_set_left tmp (Some root) ;;
  l ← SPLAY_LEFT root;
  splay_set_root l ;;
  mret root.

Definition SPLAY_LINKRIGHT (tmp : loc) : MS loc :=
  root ← splay_top;
  splay_set_right tmp (Some root) ;;
  r ← SPLAY_RIGHT root;
  splay_set_root r ;;
  mret root.

Definition SPLAY_ASSEMBLE (node left right : loc) : MS () :=
  root ← splay_top;
  l ← SPLAY_LEFT root;
  splay_set_right left l ;;
  r ← SPLAY_RIGHT root;
  splay_set_left right r ;;
  nr ← SPLAY_RIGHT node;
  splay_set_left root nr ;;
  nl ← SPLAY_LEFT node;
  splay_set_right root nl.

(** The loop of [SPLAY] and [SPLAY_MINMAX]: [cmp x] is [__comp] at the node [x];
    the result is [__left] and [__right]. *)
Fixpoint splay_loop (fuel : nat) (cmp : loc → Z) (left right : loc) : MS (loc * loc) :=
  match fuel with
  | O => diverge
  | S fuel =>
    root ← splay_top;
    if (cmp root <? 0)%Z then
      tmp ← SPLAY_LEFT root;
      match tmp with
      | None => mret (left, right)
      | Some tmp =>
        stop ← (if (cmp tmp <? 0)%Z then
                  SPLAY_ROTATE_RIGHT tmp ;;
                  root ← splay_top; l ← SPLAY_LEFT root; mret (bool_decide (l = None))
                else mret false);
        if stop : bool then mret (left, right) else
        right ← SPLAY_LINKLEFT right;
        splay_loop fuel cmp left right
      end
    else if (0 <? cmp root)%Z then
      tmp ← SPLAY_RIGHT root;
      match tmp with
      | None => mret (left, right)
      | Some tmp =>
        stop ← (if (0 <? cmp tmp)%Z then
                  SPLAY_ROTATE_LEFT tmp ;;
                  root ← splay_top; r ← SPLAY_RIGHT root; mret (bool_decide (r = None))
                else mret false);
        if stop : bool then mret (left, right) else
        left ← SPLAY_LINKRIGHT left;
        splay_loop fuel cmp left right
      end
    else mret (left, right)
  end.

(** [__node] lives during the call, at an address no element has. *)
Definition splay_with (cmp : loc → Z) : MS () :=
  node ← get (λ t, fresh (dom (splay_nodes t)));
  splay_put node (SplayEntry None None) ;;
  fuel ← get (λ t, S (size (splay_nodes t)));
  '(lft, rgt) ← splay_loop fuel cmp node node;
  SPLAY_ASSEMBLE node lft rgt ;;
  modify (λ t, SplayTree (sph_root t) (delete node (splay_nodes t))).

(** [while (1)] with a [__comp] of 0 does nothing for ever. *)
Definition SPLAY_MINMAX (comp : Z) : MS () := if (comp =? 0)%Z then diverge else splay_with (λ _, comp).

(** ** The operations *)

Section keyed.
Context (key : loc → Z).

Definition SPLAY (elm : loc) : MS () := splay_with (λ x, sleep_cmp (key elm) (key x)).

Definition SPLAY_FIND (elm : loc) : MS (option loc) :=
  e ← SPLAY_EMPTY;
  if e : bool then mret None else
  SPLAY elm ;;
  root ← splay_top;
  mret (if (sleep_cmp (key elm) (key root) =? 0)%Z then Some root else None).

(** [while (SPLAY_LEFT(elm) != NULL) elm = SPLAY_LEFT(elm);] *)
Fixpoint splay_leftmost (fuel : nat) (elm : loc) : MS loc :=
  match fuel with
  | O => diverge
  | S fuel =>
    l ← SPLAY_LEFT elm;
    match l with Some l => splay_leftmost fuel l | None => mret elm end
  end.

Definition SPLAY_NEXT (elm : loc) : MS (option loc) :=
  SPLAY elm ;;
  r ← SPLAY_RIGHT elm;
  match r with
  | Some r => fuel ← get (λ t, S (size (splay_nodes t))); x ← splay_leftmost fuel r; mret (Some x)
  | None => mret None
  end.

Definition SPLAY_MIN_MAX (val : Z) : MS (option loc) := SPLAY_MINMAX val ;; SPLAY_ROOT.

Definition SPLAY_MIN : MS (option loc) :=
  e ← SPLAY_EMPTY; if e : bool then mret None else SPLAY_MIN_MAX (-1).
Definition SPLAY_MAX : MS (option loc) :=
  e ← SPLAY_EMPTY; if e : bool then mret None else SPLAY_MIN_MAX 1.

(** NULL when inserted, else the element with the same key. *)
Definition SPLAY_INSERT (elm : loc) : MS (option loc) :=
  e ← SPLAY_EMPTY;
  if e : bool then
    splay_put elm (SplayEntry None None) ;; splay_set_root (Some elm) ;; mret None
  else
    SPLAY elm ;;
    root ← splay_top;
    let comp := sleep_cmp (key elm) (key root) in
    if (comp <? 0)%Z then
      l ← SPLAY_LEFT root;
      splay_put elm (SplayEntry l (Some root)) ;;
      splay_set_left root None ;;
      splay_set_root (Some elm) ;; mret None
    else if (0 <? comp)%Z then
      r ← SPLAY_RIGHT root;
      splay_put elm (SplayEntry (Some root) r) ;;
      splay_set_right root None ;;
      splay_set_root (Some elm) ;; mret None
    else mret (Some root).

(** [elm], or NULL when no element has its key. *)
Definition SPLAY_REMOVE (elm : loc) : MS (option loc) :=
  e ← SPLAY_EMPTY;
  if e : bool then mret None else
  SPLAY elm ;;
  root ← splay_top;
  if negb (sleep_cmp (key elm) (key root) =? 0)%Z then mret None else
  l ← SPLAY_LEFT root;
  match l with
  | None => r ← SPLAY_RIGHT root; splay_set_root r ;; mret (Some elm)
  | Some _ =>
    tmp ← SPLAY_RIGHT root;
    splay_set_root l ;;
    SPLAY elm ;;
    root ← splay_top;
    splay_set_right root tmp ;;
    mret (Some elm)
  end.

(** [for (x = MIN; x != NULL; x = NEXT(x))] with a body that does not touch the
    tree: the elements in the order it runs on them. *)
Fixpoint splay_foreach (fuel : nat) (x : option loc) : MS (list loc) :=
  match fuel with
  | O => diverge
  | S fuel =>
    match x with
    | None => mret []
    | Some x => y ← SPLAY_NEXT x; xs ← splay_foreach fuel y; mret (x :: xs)
    end
  end.

Definition SPLAY_FOREACH : MS (list loc) :=
  fuel ← get (λ t, S (size (splay_nodes t))); x ← SPLAY_MIN; splay_foreach fuel x.
End keyed.
