(* ===== verification/SplaySpec.v ===== *)
(** * Splay trees implement sorted sequences

    [splayed] relates the loop of a splay to a tree under two spines: what has
    been hung on the left tree and on the right tree so far, innermost first. *)
From stdpp Require Import base tactics list gmap fin_sets sorting.
From Stdlib Require Import ZArith Lia.
From S2P Require Import Prelude Rbtree RbInsert RbRemove Splay.

Inductive spt :=
| SLf
| SNd (l : spt) (x : loc) (r : spt).

Definition sroot (t : spt) : option loc := match t with SLf => None | SNd _ x _ => Some x end.

Fixpoint selems (t : spt) : list loc :=
  match t with SLf => [] | SNd l x r => selems l ++ x :: selems r end.

Fixpoint strep (N : gmap loc splay_entry) (t : spt) : Prop :=
  match t with
  | SLf => True
  | SNd l x r => N !! x = Some (SplayEntry (sroot l) (sroot r)) ∧ strep N l ∧ strep N r
  end.

(** The left tree: each node with its left subtree, its right field leading to
    the next; the right tree, mirrored. *)
Abbreviation lspine := (list (spt * loc)).
Abbreviation rspine := (list (loc * spt)).

Fixpoint lelems (L : lspine) : list loc :=
  match L with [] => [] | (l, x) :: L => lelems L ++ selems l ++ [x] end.
Fixpoint relems (R : rspine) : list loc :=
  match R with [] => [] | (x, r) :: R => (x :: selems r) ++ relems R end.

Definition lend (node : loc) (L : lspine) : loc := match L with [] => node | (_, x) :: _ => x end.
Definition rend (node : loc) (R : rspine) : loc := match R with [] => node | (x, _) :: _ => x end.

(** The tree that [__node.right] leads to once the innermost right field is the
    root of [t], and the mirror image. *)
Fixpoint lplug (L : lspine) (t : spt) : spt :=
  match L with [] => t | (l, x) :: L => lplug L (SNd l x t) end.
Fixpoint rplug (R : rspine) (t : spt) : spt :=
  match R with [] => t | (x, r) :: R => rplug R (SNd t x r) end.

(** The innermost right field is [q]. *)
Fixpoint lrep (N : gmap loc splay_entry) (node : loc) (L : lspine) (q : option loc) : Prop :=
  match L with
  | [] => spe_right <$> N !! node = Some q
  | (l, x) :: L => N !! x = Some (SplayEntry (sroot l) q) ∧ strep N l ∧ lrep N node L (Some x)
  end.
Fixpoint rrep (N : gmap loc splay_entry) (node : loc) (R : rspine) (q : option loc) : Prop :=
  match R with
  | [] => spe_left <$> N !! node = Some q
  | (x, r) :: R => N !! x = Some (SplayEntry q (sroot r)) ∧ strep N r ∧ rrep N node R (Some x)
  end.

Lemma lplug_elems L t : selems (lplug L t) = lelems L ++ selems t.
Proof.
  revert t. induction L as [|[l x] L IH]; intros t; simpl; [done|].
  rewrite IH. simpl. by rewrite <-!app_assoc.
Qed.

Lemma rplug_elems R t : selems (rplug R t) = selems t ++ relems R.
Proof.
  revert t. induction R as [|[x r] R IH]; intros t; simpl; [by rewrite app_nil_r|].
  rewrite IH. simpl. by rewrite <-!app_assoc.
Qed.

(** ** Framing *)

Lemma sroot_elem t x : sroot t = Some x → x ∈ selems t.
Proof. destruct t; intros [= ->]. simpl. set_solver. Qed.

Lemma strep_ext N N' t : (∀ x, x ∈ selems t → N' !! x = N !! x) → strep N t → strep N' t.
Proof.
  induction t as [|l IHl x r IHr]; intros H; simpl in *; [done|]. intros (Hx & Hl & Hr).
  rewrite H by set_solver. split; [done|]. split; [apply IHl|apply IHr]; auto; intros; apply H; set_solver.
Qed.

Lemma lrep_ext N N' node L q :
  (∀ x, x ∈ lelems L → N' !! x = N !! x) → spe_right <$> N' !! node = spe_right <$> N !! node →
  lrep N node L q → lrep N' node L q.
Proof.
  revert q. induction L as [|[l x] L IH]; intros q H Hn; simpl in *; [by rewrite Hn|].
  intros (Hx & Hl & HL). rewrite H by set_solver. split; [done|].
  split; [eapply strep_ext; [|done]|apply IH]; try done; intros; apply H; set_solver.
Qed.

Lemma rrep_ext N N' node R q :
  (∀ x, x ∈ relems R → N' !! x = N !! x) → spe_left <$> N' !! node = spe_left <$> N !! node →
  rrep N node R q → rrep N' node R q.
Proof.
  revert q. induction R as [|[x r] R IH]; intros q H Hn; simpl in *; [by rewrite Hn|].
  intros (Hx & Hl & HR). rewrite H by set_solver. split; [done|].
  split; [eapply strep_ext; [|done]|apply IH]; try done; intros; apply H; set_solver.
Qed.

Lemma strep_insert N t x v : x ∉ selems t → strep N t → strep (<[x := v]> N) t.
Proof. intros Hx. apply strep_ext. intros y Hy. rewrite lookup_insert_ne; [done|]. by intros ->. Qed.

(** Closing the innermost field gives a tree. *)
Lemma lrep_plug N node L t :
  lrep N node L (sroot t) → strep N t →
  spe_right <$> N !! node = Some (sroot (lplug L t)) ∧ strep N (lplug L t).
Proof.
  revert t. induction L as [|[l x] L IH]; intros t; simpl; [done|].
  intros (Hx & Hl & HL) Ht. by apply (IH (SNd l x t)).
Qed.

Lemma rrep_plug N node R t :
  rrep N node R (sroot t) → strep N t →
  spe_left <$> N !! node = Some (sroot (rplug R t)) ∧ strep N (rplug R t).
Proof.
  revert t. induction R as [|[x r] R IH]; intros t; simpl; [done|].
  intros (Hx & Hl & HR) Ht. by apply (IH (SNd t x r)).
Qed.

(** ** Access to a field *)

Section access.
Context (T : splay_tree) (x : loc) (v : splay_entry) (Hx : splay_nodes T !! x = Some v).

Lemma wp_SPLAY_LEFT Q : Q (spe_left v) T → wp (SPLAY_LEFT x) Q T.
Proof using Hx. unfold wp, SPLAY_LEFT, splay_get, mbind, M_bind, get. by rewrite Hx. Qed.
Lemma wp_SPLAY_RIGHT Q : Q (spe_right v) T → wp (SPLAY_RIGHT x) Q T.
Proof using Hx. unfold wp, SPLAY_RIGHT, splay_get, mbind, M_bind, get. by rewrite Hx. Qed.
Lemma wp_splay_set_left p Q :
  Q () (SplayTree (sph_root T) (<[x := SplayEntry p (spe_right v)]> (splay_nodes T))) → wp (splay_set_left x p) Q T.
Proof using Hx. unfold wp, splay_set_left, splay_get, mbind, M_bind, get. by rewrite Hx. Qed.
Lemma wp_splay_set_right p Q :
  Q () (SplayTree (sph_root T) (<[x := SplayEntry (spe_left v) p]> (splay_nodes T))) → wp (splay_set_right x p) Q T.
Proof using Hx. unfold wp, splay_set_right, splay_get, mbind, M_bind, get. by rewrite Hx. Qed.
End access.

Lemma wp_splay_top T x Q : sph_root T = Some x → Q x T → wp splay_top Q T.
Proof. intros Hx. unfold wp, splay_top, SPLAY_ROOT, mbind, M_bind, get. by rewrite Hx. Qed.

Lemma wp_splay_set_root T p Q : Q () (SplayTree p (splay_nodes T)) → wp (splay_set_root p) Q T.
Proof. done. Qed.

Lemma wp_splay_put T x v Q :
  Q () (SplayTree (sph_root T) (<[x := v]> (splay_nodes T))) → wp (splay_put x v) Q T.
Proof. done. Qed.

(** ** Writing a spine *)

Section spine.
Context (node : loc).

(** Writing the innermost field of a spine. *)
Lemma lrep_set N L q : lrep N node L q → NoDup (lelems L) → node ∉ lelems L →
  ∃ v, N !! lend node L = Some v ∧ ∀ p, lrep (<[lend node L := SplayEntry (spe_left v) p]> N) node L p.
Proof.
  intros HL Hnd Hn. destruct L as [|[l x] L]; simpl in *.
  - destruct (N !! node) as [v|]; [|done]. exists v. split; [done|]. intros p. by rewrite lookup_insert_eq.
  - destruct HL as (Hx & Hl & HL). exists (SplayEntry (sroot l) q). split; [done|]. intros p.
    apply NoDup_app in Hnd as (_ & Hd1 & Hnd). apply NoDup_app in Hnd as (_ & Hd2 & _).
    rewrite lookup_insert_eq. split; [done|]. split.
    + apply strep_insert; [|done]. intros Hin. eapply Hd2; [done|by left].
    + eapply lrep_ext; [| |done].
      * intros y Hy. rewrite lookup_insert_ne; [done|]. intros <-. eapply Hd1; [done|]. set_solver.
      * rewrite lookup_insert_ne; [done|]. set_solver.
Qed.

Lemma rrep_set N R q : rrep N node R q → NoDup (relems R) → node ∉ relems R →
  ∃ v, N !! rend node R = Some v ∧ ∀ p, rrep (<[rend node R := SplayEntry p (spe_right v)]> N) node R p.
Proof.
  intros HR Hnd Hn. destruct R as [|[x r] R]; simpl in *.
  - destruct (N !! node) as [v|]; [|done]. exists v. split; [done|]. intros p. by rewrite lookup_insert_eq.
  - destruct HR as (Hx & Hl & HR). exists (SplayEntry q (sroot r)). split; [done|]. intros p.
    apply NoDup_cons in Hnd as [Hd1 Hnd]. rewrite lookup_insert_eq. split; [done|]. split.
    + apply strep_insert; [set_solver|done].
    + eapply rrep_ext; [| |done].
      * intros y Hy. rewrite lookup_insert_ne; [done|]. set_solver.
      * rewrite lookup_insert_ne; [done|]. set_solver.
Qed.

Lemma lend_elem L : lend node L ∈ node :: lelems L.
Proof. destruct L as [|[l x] L]; simpl; set_solver. Qed.

Lemma rend_elem R : rend node R ∈ node :: relems R.
Proof. destruct R as [|[x r] R]; simpl; set_solver. Qed.

(** Writing a field of one spine, or of a node below them, elsewhere unseen. *)
Lemma lrep_insert N L q x v v' :
  lrep N node L q → x ∉ lelems L → N !! x = Some v → (x = node → spe_right v' = spe_right v) →
  lrep (<[x := v']> N) node L q.
Proof.
  intros HL Hx Hv Hr. eapply lrep_ext; [| |done].
  - intros y Hy. rewrite lookup_insert_ne; [done|]. by intros ->.
  - destruct (decide (x = node)) as [->|]; [|by rewrite lookup_insert_ne].
    rewrite lookup_insert_eq, Hv. simpl. by rewrite Hr.
Qed.

Lemma rrep_insert N R q x v v' :
  rrep N node R q → x ∉ relems R → N !! x = Some v → (x = node → spe_left v' = spe_left v) →
  rrep (<[x := v']> N) node R q.
Proof.
  intros HR Hx Hv Hr. eapply rrep_ext; [| |done].
  - intros y Hy. rewrite lookup_insert_ne; [done|]. by intros ->.
  - destruct (decide (x = node)) as [->|]; [|by rewrite lookup_insert_ne].
    rewrite lookup_insert_eq, Hv. simpl. by rewrite Hr.
Qed.
End spine.

(** ** The state of the loop *)

(** The parts of a tree are distinct. *)
Lemma not_in_cut (e x : loc) l r : e ∉ selems (SNd l x r) → e ≠ x ∧ e ∉ selems l ∧ e ∉ selems r.
Proof. simpl. intros He. split_and!; set_solver. Qed.

Lemma snodup_cut l x r : NoDup (selems (SNd l x r)) →
  NoDup (selems l) ∧ NoDup (selems r) ∧ x ∉ selems l ∧ x ∉ selems r ∧ (∀ y, y ∈ selems l → y ∉ selems r).
Proof.
  simpl. intros (Hl & Hlr & [Hr Hnd]%NoDup_cons)%NoDup_app. split_and!; try done.
  - intros Hx. eapply Hlr; [done|by left].
  - intros y Hy Hy'. eapply Hlr; [done|by right].
Qed.

(** Equal concatenations. *)
Ltac list_assoc := repeat progress (rewrite <-?app_assoc; simpl); reflexivity.

(** Updates elsewhere leave a tree as it is. *)
Ltac skip_updates := repeat (apply strep_insert; [assumption|]); assumption.

Section splay.
Context (N0 : gmap loc splay_entry) (node : loc) (l0 : list loc).
Hypothesis Hnode : node ∉ l0.
Hypothesis Hnodup : NoDup l0.

Record splayed (L : lspine) (R : rspine) (t : spt) (T : splay_tree) : Prop := {
  sp_root : sph_root T = sroot t;
  sp_tree : strep (splay_nodes T) t;
  sp_left : ∃ q, lrep (splay_nodes T) node L q;
  sp_right : ∃ q, rrep (splay_nodes T) node R q;
  sp_elems : lelems L ++ selems t ++ relems R = l0;
  sp_frame y : y ∉ node :: l0 → splay_nodes T !! y = N0 !! y
}.

(** The elements of the parts are distinct. *)
Lemma splayed_nodup L R t T : splayed L R t T →
  NoDup (lelems L) ∧ NoDup (selems t) ∧ NoDup (relems R) ∧
  (∀ x, x ∈ lelems L → x ∉ selems t ∧ x ∉ relems R) ∧ (∀ x, x ∈ selems t → x ∉ relems R) ∧
  node ∉ lelems L ∧ node ∉ selems t ∧ node ∉ relems R.
Proof using Hnode Hnodup.
  intros H. pose proof Hnodup as Hnd. pose proof Hnode as Hn. rewrite <-(sp_elems _ _ _ _ H) in Hnd, Hn.
  apply NoDup_app in Hnd as (HL & HLt & (Ht & HtR & HR)%NoDup_app). set_solver.
Qed.

Lemma frame_insert (N : gmap loc splay_entry) x v y : x ∈ node :: l0 → (∀ y, y ∉ node :: l0 → N !! y = N0 !! y) →
  y ∉ node :: l0 → <[x := v]> N !! y = N0 !! y.
Proof using. intros Hx HN Hy. rewrite lookup_insert_ne; [by apply HN|]. by intros ->. Qed.

(** ** The steps *)

(** A node of the tree is none of the rest. *)
Lemma splayed_sep L R t T x : splayed L R t T → x ∈ selems t →
  x ∉ lelems L ∧ x ∉ relems R ∧ x ≠ node ∧ x ∈ node :: l0.
Proof using Hnode Hnodup.
  intros H Hx. pose proof (splayed_nodup _ _ _ _ H) as (_ & _ & _ & HLt & HtR & _ & Hnt & _).
  split; [intros Hin; by destruct (HLt x Hin)|]. split; [by apply HtR|]. split; [by intros ->|].
  right. rewrite <-(sp_elems _ _ _ _ H). set_solver.
Qed.

(** Neither are the ends of the spines. *)
Lemma rend_sep L R t T : splayed L R t T →
  rend node R ∉ selems t ∧ rend node R ∉ lelems L ∧ rend node R ∈ node :: l0.
Proof using Hnode Hnodup.
  intros H. pose proof (splayed_nodup _ _ _ _ H) as (_ & _ & _ & HLt & HtR & HnL & Hnt & _).
  pose proof (rend_elem node R) as [->|He]%elem_of_cons; [by split_and!; [| |left]|].
  split_and!; [intros Hin; by apply (HtR _ Hin)|intros Hin; by destruct (HLt _ Hin)|].
  right. rewrite <-(sp_elems _ _ _ _ H). set_solver.
Qed.

Lemma lend_sep L R t T : splayed L R t T →
  lend node L ∉ selems t ∧ lend node L ∉ relems R ∧ lend node L ∈ node :: l0.
Proof using Hnode Hnodup.
  intros H. pose proof (splayed_nodup _ _ _ _ H) as (_ & _ & _ & HLt & _ & _ & Hnt & HnR).
  pose proof (lend_elem node L) as [->|He]%elem_of_cons; [by split_and!; [| |left]|].
  destruct (HLt _ He). split_and!; [done..|]. right. rewrite <-(sp_elems _ _ _ _ H). set_solver.
Qed.

Lemma splay_rotate_right_ok L R a y b x c T :
  splayed L R (SNd (SNd a y b) x c) T →
  wp (SPLAY_ROTATE_RIGHT y) (λ _ T', splayed L R (SNd a y (SNd b x c)) T') T.
Proof using Hnode Hnodup.
  intros H. pose proof (splayed_nodup _ _ _ _ H) as (_ & Ht & _).
  destruct (splayed_sep _ _ _ _ x H) as (HxL & HxR & Hxn & Hx0); [simpl; set_solver|].
  destruct (splayed_sep _ _ _ _ y H) as (HyL & HyR & Hyn & Hy0); [simpl; set_solver|].
  apply snodup_cut in Ht as (Hnd & _ & Hxl & Hxc & Hdis).
  apply snodup_cut in Hnd as (_ & _ & Hya & Hyb & _). simpl in Hxl.
  assert (x ∉ selems a ∧ x ∉ selems b ∧ x ≠ y ∧ y ∉ selems c) as (Hxa & Hxb & Hxy & Hyc).
  { split_and!; [set_solver..|]. apply Hdis. simpl. set_solver. }
  destruct H as [Hroot (Hx & (Hy & Ha & Hb) & Hc) [q1 HL] [q2 HR] Hel HF]. simpl in *.
  unfold SPLAY_ROTATE_RIGHT. apply wp_bind. eapply wp_splay_top; [done|].
  apply wp_bind. eapply wp_SPLAY_RIGHT; [done|]. apply wp_bind. eapply wp_splay_set_left; [done|]. simpl.
  apply wp_bind. eapply wp_splay_set_right; [simpl; by rewrite lookup_insert_ne|]. simpl.
  apply wp_splay_set_root. simpl.
  split; simpl; try done.
  - rewrite lookup_insert_eq. split; [done|]. split; [skip_updates|].
    rewrite lookup_insert_ne, lookup_insert_eq by done. split; [done|]. split; skip_updates.
  - exists q1. eapply lrep_insert; [eapply lrep_insert; [done|done|exact Hx|done]|done|by rewrite lookup_insert_ne|done].
  - exists q2. eapply rrep_insert; [eapply rrep_insert; [done|done|exact Hx|done]|done|by rewrite lookup_insert_ne|done].
  - rewrite <-Hel. list_assoc.
  - intros z Hz. apply frame_insert; [done| |done]. intros z' Hz'. apply frame_insert; auto.
Qed.

Lemma splay_rotate_left_ok L R a x b y c T :
  splayed L R (SNd a x (SNd b y c)) T →
  wp (SPLAY_ROTATE_LEFT y) (λ _ T', splayed L R (SNd (SNd a x b) y c) T') T.
Proof using Hnode Hnodup.
  intros H. pose proof (splayed_nodup _ _ _ _ H) as (_ & Ht & _).
  destruct (splayed_sep _ _ _ _ x H) as (HxL & HxR & Hxn & Hx0); [simpl; set_solver|].
  destruct (splayed_sep _ _ _ _ y H) as (HyL & HyR & Hyn & Hy0); [simpl; set_solver|].
  apply snodup_cut in Ht as (_ & Hnd & Hxa & Hxr & Hdis).
  apply snodup_cut in Hnd as (_ & _ & Hyb & Hyc & _). simpl in Hxr.
  assert (x ∉ selems b ∧ x ∉ selems c ∧ x ≠ y ∧ y ∉ selems a) as (Hxb & Hxc & Hxy & Hya).
  { split_and!; [set_solver..|]. intros Hin. eapply Hdis; [done|]. simpl. set_solver. }
  destruct H as [Hroot (Hx & Ha & Hy & Hb & Hc) [q1 HL] [q2 HR] Hel HF]. simpl in *.
  unfold SPLAY_ROTATE_LEFT. apply wp_bind. eapply wp_splay_top; [done|].
  apply wp_bind. eapply wp_SPLAY_LEFT; [done|]. apply wp_bind. eapply wp_splay_set_right; [done|]. simpl.
  apply wp_bind. eapply wp_splay_set_left; [simpl; by rewrite lookup_insert_ne|]. simpl.
  apply wp_splay_set_root. simpl.
  split; simpl; try done.
  - rewrite lookup_insert_eq. split; [done|].
    rewrite lookup_insert_ne, lookup_insert_eq by done. split; [split; [done|split; skip_updates]|skip_updates].
  - exists q1. eapply lrep_insert; [eapply lrep_insert; [done|done|exact Hx|done]|done|by rewrite lookup_insert_ne|done].
  - exists q2. eapply rrep_insert; [eapply rrep_insert; [done|done|exact Hx|done]|done|by rewrite lookup_insert_ne|done].
  - rewrite <-Hel. list_assoc.
  - intros z Hz. apply frame_insert; [done| |done]. intros z' Hz'. apply frame_insert; auto.
Qed.

Lemma linkleft_ok L R l x r T :
  splayed L R (SNd l x r) T →
  wp (SPLAY_LINKLEFT (rend node R)) (λ o T', o = x ∧ splayed L ((x, r) :: R) l T') T.
Proof using Hnode Hnodup.
  intros H. pose proof (splayed_nodup _ _ _ _ H) as (HLn & Ht & HRn & HLt & HtR & HnL & Hnt & HnR).
  destruct (splayed_sep _ _ _ _ x H) as (HxL & HxR & Hxn & Hx0); [simpl; set_solver|].
  destruct (rend_sep _ _ _ _ H) as ((Hex & Hel' & Her)%not_in_cut & HeL & He0).
  destruct H as [Hroot (Hx & Hl & Hr) [q1 HL] [q2 HR] Hel HF].
  destruct (rrep_set _ _ _ _ HR HRn HnR) as (v & Hv & HRs).
  unfold SPLAY_LINKLEFT. apply wp_bind. eapply wp_splay_top; [done|].
  apply wp_bind. eapply wp_splay_set_left; [done|]. apply wp_bind. simpl.
  eapply wp_SPLAY_LEFT; [simpl; rewrite lookup_insert_ne by done; done|].
  apply wp_bind, wp_splay_set_root, wp_ret. simpl. split; [done|]. split; simpl.
  - done.
  - skip_updates.
  - exists q1. by eapply lrep_insert.
  - exists (sroot l). rewrite lookup_insert_ne by done. split; [done|]. split; [skip_updates|by apply HRs].
  - rewrite <-Hel. simpl. list_assoc.
  - intros z Hz. by apply frame_insert.
Qed.

Lemma linkright_ok L R l x r T :
  splayed L R (SNd l x r) T →
  wp (SPLAY_LINKRIGHT (lend node L)) (λ o T', o = x ∧ splayed ((l, x) :: L) R r T') T.
Proof using Hnode Hnodup.
  intros H. pose proof (splayed_nodup _ _ _ _ H) as (HLn & Ht & HRn & HLt & HtR & HnL & Hnt & HnR).
  destruct (splayed_sep _ _ _ _ x H) as (HxL & HxR & Hxn & Hx0); [simpl; set_solver|].
  destruct (lend_sep _ _ _ _ H) as ((Hex & Hel' & Her)%not_in_cut & HeR & He0).
  destruct H as [Hroot (Hx & Hl & Hr) [q1 HL] [q2 HR] Hel HF].
  destruct (lrep_set _ _ _ _ HL HLn HnL) as (v & Hv & HLs).
  unfold SPLAY_LINKRIGHT. apply wp_bind. eapply wp_splay_top; [done|].
  apply wp_bind. eapply wp_splay_set_right; [done|]. apply wp_bind. simpl.
  eapply wp_SPLAY_RIGHT; [simpl; rewrite lookup_insert_ne by done; done|].
  apply wp_bind, wp_splay_set_root, wp_ret. simpl. split; [done|]. split; simpl.
  - done.
  - skip_updates.
  - exists (sroot r). rewrite lookup_insert_ne by done. split; [done|]. split; [skip_updates|by apply HLs].
  - exists q2. by eapply rrep_insert.
  - rewrite <-Hel. simpl. list_assoc.
  - intros z Hz. by apply frame_insert.
Qed.

Lemma assemble_ok L R l x r T :
  splayed L R (SNd l x r) T →
  wp (SPLAY_ASSEMBLE node (lend node L) (rend node R)) (λ _ T',
    sph_root T' = Some x ∧ strep (splay_nodes T') (SNd (lplug L l) x (rplug R r)) ∧
    ∀ y, y ∉ node :: l0 → splay_nodes T' !! y = N0 !! y) T.
Proof using Hnode Hnodup.
  intros H. pose proof (splayed_nodup _ _ _ _ H) as (HLn & Ht & HRn & HLt & HtR & HnL & Hnt & HnR).
  destruct (splayed_sep _ _ _ _ x H) as (HxL & HxR & Hxn & Hx0); [simpl; set_solver|].
  apply snodup_cut in Ht as (_ & _ & Hxl & Hxr & _).
  destruct (lend_sep _ _ _ _ H) as ((HLx & HLl & HLr)%not_in_cut & HLR & HL0).
  destruct (rend_sep _ _ _ _ H) as ((HRx & HRl & HRr)%not_in_cut & HRL & HR0).
  destruct H as [Hroot (Hx & Hl & Hr) [q1 HL] [q2 HR] Hel HF].
  destruct (lrep_set _ _ _ _ HL HLn HnL) as (v & Hv & HLs). specialize (HLs (sroot l)).
  unfold SPLAY_ASSEMBLE. apply wp_bind. eapply wp_splay_top; [done|].
  apply wp_bind. eapply wp_SPLAY_LEFT; [done|]. simpl. apply wp_bind. eapply wp_splay_set_right; [done|].
  apply wp_bind. eapply wp_SPLAY_RIGHT; [simpl; rewrite lookup_insert_ne by done; done|]. simpl.
  set (N1 := <[lend node L := _]> (splay_nodes T)) in *.
  assert (rrep N1 node R q2) as HR1 by (by eapply rrep_insert).
  assert (strep N1 l ∧ strep N1 r) as [Hl1 Hr1] by (split; apply strep_insert; done).
  assert (N1 !! x = Some (SplayEntry (sroot l) (sroot r))) as Hx1 by (unfold N1; by rewrite lookup_insert_ne).
  destruct (rrep_set _ _ _ _ HR1 HRn HnR) as (w & Hw & HRs). specialize (HRs (sroot r)).
  apply wp_bind. eapply wp_splay_set_left; [exact Hw|]. simpl. set (N2 := <[rend node R := _]> N1) in *.
  assert (lrep N2 node L (sroot l)) as HL2 by (by eapply lrep_insert).
  assert (strep N2 l ∧ strep N2 r) as [Hl2 Hr2] by (split; apply strep_insert; done).
  assert (N2 !! x = Some (SplayEntry (sroot l) (sroot r))) as Hx2 by (unfold N2; by rewrite lookup_insert_ne).
  destruct (lrep_plug _ _ _ _ HL2 Hl2) as [Hnl Htl]. destruct (rrep_plug _ _ _ _ HRs Hr2) as [Hnr Htr].
  destruct (N2 !! node) as [nv|] eqn:Hnv; [|done]. injection Hnl as Hnl. injection Hnr as Hnr.
  apply wp_bind. eapply wp_SPLAY_RIGHT; [exact Hnv|]. apply wp_bind. eapply wp_splay_set_left; [exact Hx2|]. simpl.
  apply wp_bind. eapply wp_SPLAY_LEFT; [simpl; rewrite lookup_insert_ne by done; exact Hnv|].
  eapply wp_splay_set_right; [simpl; apply lookup_insert_eq|]. simpl. rewrite insert_insert_eq, Hnl, Hnr.
  split; [done|]. split.
  - rewrite lookup_insert_eq. split; [done|].
    split; (apply strep_insert; [rewrite ?lplug_elems, ?rplug_elems; set_solver|done]).
  - intros y Hy. apply frame_insert; [done| |done]. intros y' Hy'. unfold N2, N1.
    apply frame_insert; [done| |done]. intros y'' Hy''. by apply frame_insert.
Qed.

(** ** The loop *)

(** The nodes where the search goes left lie behind those where it goes right. *)
Definition cmp_mono (cmp : loc → Z) (l : list loc) : Prop := ∀ l1 x l2, l = l1 ++ x :: l2 →
  ((cmp x < 0)%Z → ∀ y, y ∈ l2 → (cmp y < 0)%Z) ∧ ((0 < cmp x)%Z → ∀ y, y ∈ l1 → (0 < cmp y)%Z).

(** Where the loop stops: what it passed lies on the right side of the cut. *)
Definition splay_stop (cmp : loc → Z) (L : lspine) (R : rspine) (l : spt) (x : loc) (r : spt) : Prop :=
  (∀ y, y ∈ lelems L → (0 < cmp y)%Z) ∧ (∀ y, y ∈ relems R → (cmp y < 0)%Z) ∧
  ((cmp x < 0)%Z → l = SLf) ∧ ((0 < cmp x)%Z → r = SLf).

Lemma mono_right cmp L R l x r T : cmp_mono cmp l0 → splayed L R (SNd l x r) T → (cmp x < 0)%Z →
  ∀ y, y ∈ x :: selems r ++ relems R → (cmp y < 0)%Z.
Proof using.
  intros Hm H Hx y [->|Hy]%elem_of_cons; [done|].
  destruct (Hm (lelems L ++ selems l) x (selems r ++ relems R)) as [Hr _]; [|by apply Hr].
  rewrite <-(sp_elems _ _ _ _ H). simpl. list_assoc.
Qed.

Lemma mono_left cmp L R l x r T : cmp_mono cmp l0 → splayed L R (SNd l x r) T → (0 < cmp x)%Z →
  ∀ y, y ∈ lelems L ++ selems l ++ [x] → (0 < cmp y)%Z.
Proof using.
  intros Hm H Hx y Hy. rewrite app_assoc in Hy.
  apply elem_of_app in Hy as [Hy| ->%list_elem_of_singleton]; [|done].
  destruct (Hm (lelems L ++ selems l) x (selems r ++ relems R)) as [_ Hl]; [|by apply Hl].
  rewrite <-(sp_elems _ _ _ _ H). simpl. list_assoc.
Qed.

Definition loop_post (cmp : loc → Z) (p : loc * loc) (T : splay_tree) : Prop := ∃ L R l x r,
  p = (lend node L, rend node R) ∧ splayed L R (SNd l x r) T ∧ splay_stop cmp L R l x r.

Definition loop_ok (cmp : loc → Z) (fuel : nat) : Prop := ∀ L R t T,
  splayed L R t T → t ≠ SLf → (∀ y, y ∈ lelems L → (0 < cmp y)%Z) → (∀ y, y ∈ relems R → (cmp y < 0)%Z) →
  length (selems t) < fuel → wp (splay_loop fuel cmp (lend node L) (rend node R)) (loop_post cmp) T.

Lemma loop_done cmp L R l x r T :
  splayed L R (SNd l x r) T → splay_stop cmp L R l x r →
  wp (mret (lend node L, rend node R)) (loop_post cmp) T.
Proof using. intros. apply wp_ret. by exists L, R, l, x, r. Qed.

(** One turn to the left, and one to the right. *)
Lemma loop_left cmp fuel L R l x r T :
  cmp_mono cmp l0 → loop_ok cmp fuel → splayed L R (SNd l x r) T →
  (∀ y, y ∈ lelems L → (0 < cmp y)%Z) → (∀ y, y ∈ relems R → (cmp y < 0)%Z) →
  (cmp x < 0)%Z → length (selems (SNd l x r)) < S fuel →
  wp (splay_loop (S fuel) cmp (lend node L) (rend node R)) (loop_post cmp) T.
Proof using Hnode Hnodup.
  intros Hm IH H HL HR Hc Hfuel. simpl in Hfuel. rewrite length_app in Hfuel. simpl in Hfuel.
  destruct (sp_tree _ _ _ _ H) as (Hx & _ & _). simpl splay_loop.
  apply wp_bind. eapply wp_splay_top; [apply H|]. rewrite (proj2 (Z.ltb_lt _ _)) by done.
  apply wp_bind. eapply wp_SPLAY_LEFT; [done|]. destruct l as [|a y b]; simpl sroot; cbv iota.
  { eapply loop_done; [done|]. split_and!; try done. intros. lia. }
  simpl in Hfuel. rewrite length_app in Hfuel. simpl in Hfuel. apply wp_bind.
  destruct (Z.ltb_spec (cmp y) 0) as [Hy|Hy].
  - apply wp_bind. eapply wp_mono; [by eapply splay_rotate_right_ok|]. intros [] T1 H1.
    apply wp_bind. eapply wp_splay_top; [apply H1|]. apply wp_bind. destruct (sp_tree _ _ _ _ H1) as (Hy1 & _ & _).
    eapply wp_SPLAY_LEFT; [done|]. apply wp_ret. destruct a as [|a1 z a2]; simpl sroot.
    + rewrite bool_decide_true by done. eapply loop_done; [done|]. split_and!; try done. intros. lia.
    + rewrite bool_decide_false by done. apply wp_bind. eapply wp_mono; [by eapply linkleft_ok|].
      intros o T2 [-> H2]. apply (IH L ((y, SNd b x r) :: R) (SNd a1 z a2)); try done; [|simpl in *; lia].
      by apply (mono_right _ _ _ _ _ _ _ Hm H1).
  - apply wp_ret, wp_bind. eapply wp_mono; [by eapply linkleft_ok|].
    intros o T2 [-> H2]. apply (IH L ((x, r) :: R) (SNd a y b)); try done.
    + by apply (mono_right _ _ _ _ _ _ _ Hm H).
    + simpl. rewrite length_app. simpl. lia.
Qed.

Lemma loop_right cmp fuel L R l x r T :
  cmp_mono cmp l0 → loop_ok cmp fuel → splayed L R (SNd l x r) T →
  (∀ y, y ∈ lelems L → (0 < cmp y)%Z) → (∀ y, y ∈ relems R → (cmp y < 0)%Z) →
  (0 < cmp x)%Z → length (selems (SNd l x r)) < S fuel →
  wp (splay_loop (S fuel) cmp (lend node L) (rend node R)) (loop_post cmp) T.
Proof using Hnode Hnodup.
  intros Hm IH H HL HR Hc Hfuel. simpl in Hfuel. rewrite length_app in Hfuel. simpl in Hfuel.
  destruct (sp_tree _ _ _ _ H) as (Hx & _ & _). simpl splay_loop.
  apply wp_bind. eapply wp_splay_top; [apply H|]. rewrite (proj2 (Z.ltb_ge _ _)), (proj2 (Z.ltb_lt _ _)) by lia.
  apply wp_bind. eapply wp_SPLAY_RIGHT; [done|]. destruct r as [|b y a]; simpl sroot; cbv iota.
  { eapply loop_done; [done|]. split_and!; try done. intros. lia. }
  simpl in Hfuel. rewrite length_app in Hfuel. simpl in Hfuel. apply wp_bind.
  destruct (Z.ltb_spec 0 (cmp y)) as [Hy|Hy].
  - apply wp_bind. eapply wp_mono; [by eapply splay_rotate_left_ok|]. intros [] T1 H1.
    apply wp_bind. eapply wp_splay_top; [apply H1|]. apply wp_bind. destruct (sp_tree _ _ _ _ H1) as (Hy1 & _ & _).
    eapply wp_SPLAY_RIGHT; [done|]. apply wp_ret. destruct a as [|a1 z a2]; simpl sroot.
    + rewrite bool_decide_true by done. eapply loop_done; [done|]. split_and!; try done. intros. lia.
    + rewrite bool_decide_false by done. apply wp_bind. eapply wp_mono; [by eapply linkright_ok|].
      intros o T2 [-> H2]. apply (IH ((SNd l x b, y) :: L) R (SNd a1 z a2)); try done; [|simpl in *; lia].
      by apply (mono_left _ _ _ _ _ _ _ Hm H1).
  - apply wp_ret, wp_bind. eapply wp_mono; [by eapply linkright_ok|].
    intros o T2 [-> H2]. apply (IH ((l, x) :: L) R (SNd b y a)); try done.
    + by apply (mono_left _ _ _ _ _ _ _ Hm H).
    + simpl. rewrite length_app. simpl. lia.
Qed.

Lemma splay_loop_ok cmp fuel : cmp_mono cmp l0 → loop_ok cmp fuel.
Proof using Hnode Hnodup.
  intros Hm. induction fuel as [|fuel IH]; intros L R t T H Hne HL HR Hfuel; [lia|].
  destruct t as [|l x r]; [done|].
  destruct (Z.ltb_spec (cmp x) 0) as [Hc|Hc]; [by eapply loop_left|].
  destruct (Z.ltb_spec 0 (cmp x)) as [Hc'|Hc']; [by eapply loop_right|].
  simpl splay_loop. apply wp_bind. eapply wp_splay_top; [apply H|].
  rewrite !(proj2 (Z.ltb_ge _ _)) by lia. eapply loop_done; [done|]. split_and!; try done; intros; lia.
Qed.
End splay.

(** ** A whole splay *)

(** [T] spells out the tree [t]. *)
Definition srep (T : splay_tree) (t : spt) : Prop :=
  sph_root T = sroot t ∧ strep (splay_nodes T) t ∧ NoDup (selems t).

Lemma strep_lookup N t x : strep N t → x ∈ selems t → is_Some (N !! x).
Proof.
  induction t as [|l IHl y r IHr]; simpl; [by intros _ ?%not_elem_of_nil|].
  intros (Hy & Hl & Hr) [?|[->|?]%elem_of_cons]%elem_of_app; eauto.
Qed.

Lemma strep_size N t : strep N t → NoDup (selems t) → length (selems t) ≤ size N.
Proof.
  intros H Hnd. assert (list_to_set (selems t) ⊆@{gset loc} dom N) as Hsub.
  { intros x Hx%elem_of_list_to_set. apply elem_of_dom. by eapply strep_lookup. }
  apply subseteq_size in Hsub. by rewrite size_list_to_set, size_dom in Hsub.
Qed.

(** After a splay for [cmp] the root splits the sequence at the cut. *)
Definition splay_post (cmp : loc → Z) (l : list loc) (T T' : splay_tree) : Prop := ∃ tl x tr,
  srep T' (SNd tl x tr) ∧ selems tl ++ x :: selems tr = l ∧
  ((cmp x < 0)%Z → ∀ y, y ∈ selems tl → (0 < cmp y)%Z) ∧
  ((0 < cmp x)%Z → ∀ y, y ∈ selems tr → (cmp y < 0)%Z) ∧
  ∀ y, y ∉ l → splay_nodes T' !! y = splay_nodes T !! y.

Lemma splay_with_ok cmp T t : srep T t → t ≠ SLf → cmp_mono cmp (selems t) →
  wp (splay_with cmp) (λ _ T', splay_post cmp (selems t) T T') T.
Proof.
  intros (Hroot & Ht & Hnd) Hne Hm. unfold splay_with. apply wp_bind, wp_get.
  set (node := fresh (dom (splay_nodes T))).
  assert (splay_nodes T !! node = None) as Hfresh by (apply not_elem_of_dom, is_fresh).
  assert (node ∉ selems t) as Hnode.
  { intros Hin. apply (strep_lookup _ _ _ Ht) in Hin as [v Hv]. by rewrite Hfresh in Hv. }
  apply wp_bind, wp_splay_put, wp_bind, wp_get. cbn [sph_root splay_nodes].
  set (T1 := SplayTree _ _).
  assert (splayed (splay_nodes T) node (selems t) [] [] t T1) as H1.
  { split; simpl; try done.
    - by apply strep_insert.
    - exists None. by rewrite lookup_insert_eq.
    - exists None. by rewrite lookup_insert_eq.
    - by rewrite app_nil_r.
    - intros y [Hy _]%not_elem_of_cons. by rewrite lookup_insert_ne. }
  apply wp_bind. eapply wp_mono.
  { apply (splay_loop_ok (splay_nodes T) node (selems t) Hnode Hnd cmp _ Hm [] [] t T1 H1 Hne).
    - by intros y ?%not_elem_of_nil.
    - by intros y ?%not_elem_of_nil.
    - pose proof (strep_size _ _ (sp_tree _ _ _ _ _ _ _ H1) Hnd). simpl in *. lia. }
  intros [lft rgt] T2 (L & R & l & x & r & [= -> ->] & H2 & HL & HR & Hl & Hr). apply wp_bind.
  eapply wp_mono; [by eapply assemble_ok|]. intros [] T3 (Hroot3 & Ht3 & HF). apply wp_modify.
  pose proof (sp_elems _ _ _ _ _ _ _ H2) as Hel. simpl in Hel.
  assert (selems (lplug L l) ++ x :: selems (rplug R r) = selems t) as Hel3.
  { rewrite lplug_elems, rplug_elems, <-Hel. list_assoc. }
  exists (lplug L l), x, (rplug R r). split_and!.
  - split; [done|]. split; [|simpl; by rewrite Hel3]. simpl splay_nodes.
    eapply strep_ext; [|exact Ht3]. intros y Hy. rewrite lookup_delete_ne; [done|].
    intros <-. apply Hnode. rewrite <-Hel3. exact Hy.
  - done.
  - intros Hc y. rewrite lplug_elems, (Hl Hc), app_nil_r. apply HL.
  - intros Hc y. rewrite rplug_elems, (Hr Hc). apply HR.
  - intros y Hy. simpl. destruct (decide (y = node)) as [->|Hne'].
    + by rewrite lookup_delete_eq.
    + rewrite lookup_delete_ne by done. apply HF. set_solver.
Qed.

(** ** The representation of a sorted sequence *)

Definition splay_rep (key : loc → Z) (T : splay_tree) (l : list loc) : Prop :=
  ∃ t, srep T t ∧ selems t = l ∧ key_sorted key l.

(** The comparison with a key, on a sorted sequence. *)
Lemma key_cmp_mono key k l : key_sorted key l → cmp_mono (λ x, sleep_cmp k (key x)) l.
Proof.
  intros Hs l1 x l2 ->. apply key_sorted_app in Hs as (_ & [_ Hx]%key_sorted_cons & Hl).
  unfold sleep_cmp. split; intros Hc y Hy.
  - specialize (Hx y Hy). destruct (Z.ltb_spec k (key x)); [|destruct (Z.eqb_spec k (key x)); lia].
    by rewrite (proj2 (Z.ltb_lt _ _)) by lia.
  - specialize (Hl y x Hy ltac:(by left)). destruct (Z.ltb_spec k (key x)); [lia|].
    destruct (Z.eqb_spec k (key x)); [lia|]. rewrite (proj2 (Z.ltb_ge _ _)), (proj2 (Z.eqb_neq _ _)) by lia. lia.
Qed.

Lemma sleep_cmp_lt a b : (sleep_cmp a b < 0)%Z ↔ (a < b)%Z.
Proof. unfold sleep_cmp. destruct (Z.ltb_spec a b), (Z.eqb_spec a b); lia. Qed.
Lemma sleep_cmp_gt a b : (0 < sleep_cmp a b)%Z ↔ (b < a)%Z.
Proof. unfold sleep_cmp. destruct (Z.ltb_spec a b), (Z.eqb_spec a b); lia. Qed.
Lemma sleep_cmp_eq a b : sleep_cmp a b = 0%Z ↔ a = b.
Proof. unfold sleep_cmp. destruct (Z.ltb_spec a b), (Z.eqb_spec a b); lia. Qed.

(** [SPLAY] keeps the sequence, and splits it at the key of its argument. *)
Lemma SPLAY_ok key T l elm :
  splay_rep key T l → l ≠ [] →
  wp (SPLAY key elm) (λ _ T', ∃ tl x tr, srep T' (SNd tl x tr) ∧ selems tl ++ x :: selems tr = l ∧
    ((key elm < key x)%Z → ∀ y, y ∈ selems tl → (key y < key elm)%Z) ∧
    ((key x < key elm)%Z → ∀ y, y ∈ selems tr → (key elm < key y)%Z) ∧
    ∀ y, y ∉ l → splay_nodes T' !! y = splay_nodes T !! y) T.
Proof.
  intros (t & Hrep & <- & Hs) Hne. eapply wp_mono.
  - apply (splay_with_ok _ T t Hrep); [by intros ->|by apply key_cmp_mono].
  - intros [] T' (tl & x & tr & Hrep' & Hel & Hl & Hr & HF). exists tl, x, tr. split_and!; try done.
    + intros Hc y Hy. apply sleep_cmp_gt, Hl; [by apply sleep_cmp_lt|done].
    + intros Hc y Hy. apply sleep_cmp_lt, Hr; [by apply sleep_cmp_gt|done].
Qed.

(** ** The operations *)

Lemma srep_rep key T t l : srep T t → selems t = l → key_sorted key l → splay_rep key T l.
Proof. intros. by exists t. Qed.

Lemma splay_empty key T l (Q : bool → splay_tree → Prop) :
  splay_rep key T l → Q (bool_decide (l = [])) T → wp SPLAY_EMPTY Q T.
Proof.
  intros (t & (Hr & _) & <- & _) HQ. unfold SPLAY_EMPTY, SPLAY_ROOT. apply wp_bind, wp_get, wp_ret.
  rewrite Hr. destruct t as [|tl x tr]; simpl in *; [exact HQ|].
  rewrite bool_decide_false in HQ by (by intros [_ ?]%app_nil). exact HQ.
Qed.

(** What a splay tells about the key it was for. *)
Lemma split_lookup key k l1 x l2 :
  key_sorted key (l1 ++ x :: l2) →
  ((k < key x)%Z → ∀ y, y ∈ l1 → (key y < k)%Z) → ((key x < k)%Z → ∀ y, y ∈ l2 → (k < key y)%Z) →
  SL.lookup key k (l1 ++ x :: l2) = if decide (k = key x) then Some x else None.
Proof.
  intros Hs Hl Hr. destruct (decide (k = key x)) as [->|Hne].
  - apply SL_lookup_found; [done|set_solver|done].
  - apply SL_lookup_None. apply key_sorted_app in Hs as (_ & [_ Hx2]%key_sorted_cons & H1).
    intros y [Hy|[->|Hy]%elem_of_cons]%elem_of_app Hk; [|lia|].
    + specialize (H1 y x Hy ltac:(by left)). destruct (decide (k < key x)%Z) as [Hlt|]; [|lia].
      specialize (Hl Hlt y Hy). lia.
    + specialize (Hx2 y Hy). destruct (decide (key x < k)%Z) as [Hlt|]; [|lia]. specialize (Hr Hlt y Hy). lia.
Qed.

Lemma splay_top_ok T l x r (Q : loc → splay_tree → Prop) : srep T (SNd l x r) → Q x T → wp splay_top Q T.
Proof. intros (Hr & _) HQ. by eapply wp_splay_top. Qed.

Lemma SPLAY_FIND_ok key T l elm :
  splay_rep key T l → wp (SPLAY_FIND key elm)
    (λ o T', o = SL.lookup key (key elm) l ∧ splay_rep key T' l) T.
Proof.
  intros Hrep. pose proof Hrep as (_ & _ & _ & Hs). unfold SPLAY_FIND. apply wp_bind.
  eapply splay_empty; [done|]. case_bool_decide as Hl; [by subst l|].
  apply wp_bind. eapply wp_mono; [by apply SPLAY_ok|]. intros [] T' (tl & x & tr & Hr & Hel & Hlt & Hgt & _).
  apply wp_bind. eapply splay_top_ok; [done|]. apply wp_ret. split; [|by eapply srep_rep].
  rewrite <-Hel in Hs |- *. rewrite split_lookup by done.
  destruct (Z.eqb_spec (sleep_cmp (key elm) (key x)) 0) as [E|E]; rewrite sleep_cmp_eq in E.
  - by rewrite decide_True.
  - by rewrite decide_False.
Qed.

Lemma minmax_splay_ok key T l val :
  splay_rep key T l → l ≠ [] → val = (-1)%Z ∨ val = 1%Z →
  wp (SPLAY_MIN_MAX val) (λ o T', o = (if (val <? 0)%Z then head l else last l) ∧ splay_rep key T' l) T.
Proof.
  intros (t & Hrep & <- & Hs) Hne Hval. unfold SPLAY_MIN_MAX, SPLAY_MINMAX. apply wp_bind.
  rewrite (proj2 (Z.eqb_neq _ _)) by lia. eapply wp_mono.
  - apply (splay_with_ok _ T t Hrep); [by intros ->|]. intros l1 x l2 _. split; intros; lia.
  - intros [] T' (tl & x & tr & Hr & Hel & Hlt & Hgt & _). unfold SPLAY_ROOT. apply wp_get.
    split; [|by eapply srep_rep]. destruct Hr as (-> & _). rewrite <-Hel. destruct Hval as [-> | ->]; simpl.
    + destruct (selems tl) as [|y l1]; [done|]. specialize (Hlt ltac:(lia) y ltac:(by left)). lia.
    + rewrite last_app_cons, last_cons. destruct (last (selems tr)) as [y|] eqn:Hlast; [|done].
      apply last_Some in Hlast as [l2 Hl2]. specialize (Hgt ltac:(lia) y). rewrite Hl2 in Hgt.
      specialize (Hgt ltac:(set_solver)). lia.
Qed.

Lemma SPLAY_MIN_ok key T l : splay_rep key T l → wp SPLAY_MIN (λ o T', o = head l ∧ splay_rep key T' l) T.
Proof.
  intros Hrep. unfold SPLAY_MIN. apply wp_bind. eapply splay_empty; [done|].
  case_bool_decide as Hl; [by subst l|]. eapply wp_mono; [by apply (minmax_splay_ok key T l (-1)); [| |left]|]. done.
Qed.

Lemma SPLAY_MAX_ok key T l : splay_rep key T l → wp SPLAY_MAX (λ o T', o = last l ∧ splay_rep key T' l) T.
Proof.
  intros Hrep. unfold SPLAY_MAX. apply wp_bind. eapply splay_empty; [done|].
  case_bool_decide as Hl; [by subst l|]. eapply wp_mono; [by apply (minmax_splay_ok key T l 1); [| |right]|]. done.
Qed.

(** The new root above what a splay left, on either side. *)
Lemma hang_left T tl x tr elm :
  srep T (SNd tl x tr) → elm ∉ selems tl ++ x :: selems tr →
  wp (l ← SPLAY_LEFT x; splay_put elm (SplayEntry l (Some x)) ;; splay_set_left x None ;;
      splay_set_root (Some elm) ;; mret (@None loc))
    (λ o T', o = None ∧ srep T' (SNd tl elm (SNd SLf x tr))) T.
Proof.
  intros (Hroot & (Hx & Htl & Htr) & Hnd) Helm. pose proof Hnd as (_ & _ & Hxl & Hxr & _)%snodup_cut.
  pose proof Helm as [Hel1 [Hex Hel2]%not_elem_of_cons]%not_elem_of_app.
  apply wp_bind. eapply wp_SPLAY_LEFT; [done|]. apply wp_bind, wp_splay_put, wp_bind.
  eapply wp_splay_set_left; [simpl; by rewrite lookup_insert_ne|].
  apply wp_bind, wp_splay_set_root, wp_ret. split; [done|]. split; [done|]. simpl.
  rewrite (lookup_insert_ne _ x elm), !lookup_insert_eq by done. split.
  - split_and!; try done; skip_updates.
  - rewrite <-Permutation_middle. by apply NoDup_cons.
Qed.

Lemma hang_right T tl x tr elm :
  srep T (SNd tl x tr) → elm ∉ selems tl ++ x :: selems tr →
  wp (r ← SPLAY_RIGHT x; splay_put elm (SplayEntry (Some x) r) ;; splay_set_right x None ;;
      splay_set_root (Some elm) ;; mret (@None loc))
    (λ o T', o = None ∧ srep T' (SNd (SNd tl x SLf) elm tr)) T.
Proof.
  intros (Hroot & (Hx & Htl & Htr) & Hnd) Helm. pose proof Hnd as (_ & _ & Hxl & Hxr & _)%snodup_cut.
  pose proof Helm as [Hel1 [Hex Hel2]%not_elem_of_cons]%not_elem_of_app.
  apply wp_bind. eapply wp_SPLAY_RIGHT; [done|]. apply wp_bind, wp_splay_put, wp_bind.
  eapply wp_splay_set_right; [simpl; by rewrite lookup_insert_ne|].
  apply wp_bind, wp_splay_set_root, wp_ret. split; [done|]. split; [done|]. simpl.
  rewrite (lookup_insert_ne _ x elm), !lookup_insert_eq by done. split.
  - split_and!; try done; skip_updates.
  - rewrite <-Permutation_middle, <-app_assoc. by apply NoDup_cons.
Qed.

Lemma insert_rep key T t e l1 l2 :
  srep T t → selems t = l1 ++ e :: l2 → key_sorted key (l1 ++ l2) → SL.lookup key (key e) (l1 ++ l2) = None →
  (∀ x, x ∈ l1 → (key x < key e)%Z) → (∀ x, x ∈ l2 → (key e < key x)%Z) →
  splay_rep key T (SL.insert key e (l1 ++ l2)).
Proof.
  intros Hr Hel Hs Hn H1 H2. exists t. split; [done|]. split.
  - by rewrite SL_insert_split.
  - by apply SL_insert_sorted.
Qed.

Lemma SPLAY_INSERT_ok key T l elm :
  splay_rep key T l → elm ∉ l →
  wp (SPLAY_INSERT key elm) (λ o T', o = SL.lookup key (key elm) l ∧
    splay_rep key T' (match o with Some _ => l | None => SL.insert key elm l end)) T.
Proof.
  intros Hrep Helm. pose proof Hrep as (_ & _ & _ & Hs). unfold SPLAY_INSERT. apply wp_bind.
  eapply splay_empty; [done|]. case_bool_decide as Hl.
  { subst l. apply wp_bind, wp_splay_put, wp_bind, wp_splay_set_root, wp_ret. split; [done|]. simpl.
    exists (SNd SLf elm SLf). split_and!; [|done|by repeat constructor]. split; [done|]. simpl.
    rewrite lookup_insert_eq. split; [done|]. apply NoDup_singleton. }
  apply wp_bind. eapply wp_mono; [by apply SPLAY_ok|]. intros [] T' (tl & x & tr & Hr & Hel & Hlt & Hgt & _).
  apply wp_bind. eapply splay_top_ok; [done|]. rewrite <-Hel in Hs, Helm |- *.
  pose proof (split_lookup key (key elm) _ _ _ Hs Hlt Hgt) as Hlook. rewrite Hlook.
  pose proof Hs as (_ & [_ Hx2]%key_sorted_cons & H1)%key_sorted_app.
  destruct (Z.ltb_spec (sleep_cmp (key elm) (key x)) 0) as [E|E];
    [|destruct (Z.ltb_spec 0 (sleep_cmp (key elm) (key x))) as [E'|E']].
  - rewrite sleep_cmp_lt in E. rewrite decide_False in Hlook |- * by lia.
    eapply wp_mono; [by apply hang_left|]. intros o T'' [-> Hr']. split; [done|].
    eapply insert_rep; try done; [by apply Hlt|]. intros y [->|Hy]%elem_of_cons; [done|]. specialize (Hx2 y Hy). lia.
  - rewrite sleep_cmp_gt in E'. rewrite decide_False in Hlook |- * by lia.
    eapply wp_mono; [by apply hang_right|]. intros o T'' [-> Hr']. split; [done|].
    replace (selems tl ++ x :: selems tr) with ((selems tl ++ [x]) ++ selems tr) in Hlook, Hs |- * by list_assoc.
    eapply insert_rep; try done; [|by apply Hgt].
    intros y [Hy| ->%list_elem_of_singleton]%elem_of_app; [|done]. specialize (H1 y x Hy ltac:(by left)). lia.
  - apply wp_ret. rewrite decide_True by (apply sleep_cmp_eq; lia). split; [done|]. by eapply srep_rep.
Qed.

(** A splay for a key above all others brings the last element to the root. *)
Lemma SPLAY_above key T l elm :
  splay_rep key T l → l ≠ [] → (∀ y, y ∈ l → (key y < key elm)%Z) →
  wp (SPLAY key elm) (λ _ T', ∃ tl x, srep T' (SNd tl x SLf) ∧ selems tl ++ [x] = l ∧
    ∀ y, y ∉ l → splay_nodes T' !! y = splay_nodes T !! y) T.
Proof.
  intros Hrep Hne Habove. eapply wp_mono; [by apply SPLAY_ok|].
  intros [] T' (tl & x & tr & Hr & Hel & _ & Hgt & HF).
  destruct tr as [|trl z trr].
  - exists tl, x. by split_and!.
  - exfalso. assert (key x < key elm)%Z as Hx by (apply Habove; rewrite <-Hel; set_solver).
    assert (z ∈ selems (SNd trl z trr)) as Hz by (simpl; set_solver).
    specialize (Hgt Hx z Hz). specialize (Habove z ltac:(rewrite <-Hel; set_solver)). lia.
Qed.

Lemma SPLAY_REMOVE_ok key T l elm :
  splay_rep key T l →
  wp (SPLAY_REMOVE key elm) (λ o T', match SL.lookup key (key elm) l with
    | Some y => o = Some elm ∧ splay_rep key T' (SL.remove y l)
    | None => o = None ∧ splay_rep key T' l
    end) T.
Proof.
  intros Hrep. pose proof Hrep as (_ & _ & _ & Hs). unfold SPLAY_REMOVE. apply wp_bind.
  eapply splay_empty; [done|]. case_bool_decide as Hl; [by subst l|].
  apply wp_bind. eapply wp_mono; [by apply SPLAY_ok|]. intros [] T' (tl & x & tr & Hr & Hel & Hlt & Hgt & _).
  apply wp_bind. eapply splay_top_ok; [done|]. rewrite <-Hel in Hs |- *.
  rewrite (split_lookup key (key elm)) by done.
  destruct (Z.eqb_spec (sleep_cmp (key elm) (key x)) 0) as [E|E]; rewrite sleep_cmp_eq in E; cbn [negb].
  2: { apply wp_ret. rewrite decide_False by done. split; [done|]. by eapply srep_rep. }
  rewrite decide_True by done. pose proof Hr as (Hroot & (Hx & Htl & Htr) & Hnd).
  pose proof Hnd as (Hndl & Hndr & Hxl & Hxr & Hdis)%snodup_cut. rewrite SL_remove_middle by done.
  pose proof Hs as (Hsl & [Hsr Hx2]%key_sorted_cons & H1)%key_sorted_app.
  assert (key_sorted key (selems tl ++ selems tr)) as Hs'.
  { apply key_sorted_app. split_and!; try done. intros. apply H1; [done|by right]. }
  apply wp_bind. eapply wp_SPLAY_LEFT; [done|]. destruct tl as [|tll y tlr]; cbn [sroot spe_left].
  - apply wp_bind. eapply wp_SPLAY_RIGHT; [done|]. apply wp_bind, wp_splay_set_root, wp_ret.
    split; [done|]. by exists tr.
  - apply wp_bind. eapply wp_SPLAY_RIGHT; [done|]. apply wp_bind, wp_splay_set_root, wp_bind.
    eapply wp_mono; [apply (SPLAY_above key _ (selems (SNd tll y tlr)) elm)|].
    + by exists (SNd tll y tlr).
    + by intros [_ ?]%app_nil.
    + rewrite E. intros z Hz. by apply H1; [|left].
    + intros [] T2 (tl2 & x2 & Hr2 & Hel2 & HF2).
      apply wp_bind. eapply splay_top_ok; [done|]. destruct Hr2 as (Hroot2 & (Hx2' & Htl2 & _) & Hnd2).
      apply snodup_cut in Hnd2 as (Hndl2 & _ & Hx2l & _).
      apply wp_bind. eapply wp_splay_set_right; [done|]. apply wp_ret. split; [done|].
      assert (selems (SNd tl2 x2 tr) = selems (SNd tll y tlr) ++ selems tr) as Hel3 by (rewrite <-Hel2; simpl; list_assoc).
      exists (SNd tl2 x2 tr). split; [|done]. split; [done|]. split.
      * simpl. rewrite lookup_insert_eq. split; [done|]. split; [by apply strep_insert|].
        apply strep_insert; [intros Hin; apply (Hdis x2); [rewrite <-Hel2; set_solver|done]|].
        eapply strep_ext; [|exact Htr]. intros z Hz. apply HF2. intros Hz'. by eapply Hdis.
      * rewrite Hel3. by eapply key_sorted_nodup.
Qed.

Lemma splay_leftmost_ok t : ∀ T x0 fuel,
  strep (splay_nodes T) t → sroot t = Some x0 → length (selems t) ≤ fuel →
  wp (splay_leftmost fuel x0) (λ y T', T' = T ∧ head (selems t) = Some y) T.
Proof.
  induction t as [|l IHl x r _]; intros T x0 fuel Ht Hx Hfuel; simpl in *; [done|]. injection Hx as ->.
  rewrite length_app in Hfuel. simpl in Hfuel. destruct fuel as [|fuel]; [lia|].
  destruct Ht as (Hx & Hl & Hr). simpl. apply wp_bind. eapply wp_SPLAY_LEFT; [done|]. simpl.
  rewrite head_app. destruct l as [|ll y lr]; [done|]. cbn [sroot].
  eapply wp_mono; [apply (IHl T y fuel); [done|done|lia]|]. intros z ? [-> Hz]. split; [done|]. by rewrite Hz.
Qed.

(** Equal splits of a list without duplicates. *)
Lemma split_unique (x : loc) (l1 l2 k1 k2 : list loc) :
  l1 ++ x :: l2 = k1 ++ x :: k2 → NoDup (l1 ++ x :: l2) → l1 = k1 ∧ l2 = k2.
Proof.
  revert k1. induction l1 as [|y l1 IH]; intros [|z k1] Heq Hnd; simpl in *; simplify_eq.
  - done.
  - apply NoDup_cons in Hnd as [Hn _]. set_solver.
  - apply NoDup_cons in Hnd as [Hn _]. set_solver.
  - apply NoDup_cons in Hnd as [_ Hnd]. by destruct (IH k1) as [-> ->].
Qed.

Lemma SPLAY_NEXT_ok key T l1 x l2 :
  splay_rep key T (l1 ++ x :: l2) →
  wp (SPLAY_NEXT key x) (λ o T', o = head l2 ∧ splay_rep key T' (l1 ++ x :: l2)) T.
Proof.
  intros Hrep. pose proof Hrep as (_ & _ & _ & Hs). unfold SPLAY_NEXT. apply wp_bind.
  eapply wp_mono; [by apply SPLAY_ok; [|intros [_ ?]%app_nil]|].
  intros [] T' (tl & y & tr & Hr & Hel & Hlt & Hgt & _).
  assert (x = y) as <-.
  { pose proof (split_lookup key (key x) (selems tl) y (selems tr)) as Hlook. rewrite Hel in Hlook.
    specialize (Hlook Hs Hlt Hgt). rewrite (SL_lookup_found key _ x) in Hlook by (done || set_solver).
    case_decide; [by injection Hlook|done]. }
  destruct (split_unique x (selems tl) (selems tr) l1 l2 Hel) as [_ <-]; [apply Hr|].
  pose proof Hr as (Hroot & (Hx & Htl & Htr) & Hnd).
  apply wp_bind. eapply wp_SPLAY_RIGHT; [done|]. destruct tr as [|trl z trr] eqn:Etr; cbn [sroot spe_right].
  - apply wp_ret. split; [done|]. by eapply srep_rep.
  - rewrite <-Etr in *. apply wp_bind, wp_get, wp_bind. pose proof (strep_size _ _ (proj1 (proj2 Hr)) Hnd) as Hsz.
    simpl in Hsz. rewrite length_app in Hsz. simpl in Hsz.
    eapply wp_mono; [apply (splay_leftmost_ok tr); [done|by rewrite Etr|lia]|].
    intros w ? [-> Hw]. apply wp_ret. split; [done|]. by eapply srep_rep.
Qed.

Lemma splay_foreach_ok key : ∀ l2 l1 T fuel,
  splay_rep key T (l1 ++ l2) → length l2 < fuel →
  wp (splay_foreach key fuel (head l2)) (λ xs T', xs = l2 ∧ splay_rep key T' (l1 ++ l2)) T.
Proof.
  induction l2 as [|x l2 IH]; intros l1 T [|fuel] Hrep Hfuel; simpl in *; try lia; [done|].
  apply wp_bind. eapply wp_mono; [by apply SPLAY_NEXT_ok|]. intros o T1 [-> Hrep1]. apply wp_bind.
  eapply wp_mono; [apply (IH (l1 ++ [x])); [by rewrite <-app_assoc|lia]|].
  intros xs T2 [-> Hrep2]. apply wp_ret. split; [done|]. by rewrite <-app_assoc in Hrep2.
Qed.

Lemma SPLAY_FOREACH_ok key T l :
  splay_rep key T l → wp (SPLAY_FOREACH key) (λ xs T', xs = l ∧ splay_rep key T' l) T.
Proof.
  intros Hrep. pose proof Hrep as (t & (_ & Ht & Hnd) & Hel & _). unfold SPLAY_FOREACH. apply wp_bind, wp_get, wp_bind.
  eapply wp_mono; [by eapply SPLAY_MIN_ok|]. intros o T1 [-> Hrep1].
  apply (splay_foreach_ok key l []); [done|]. pose proof (strep_size _ _ Ht Hnd) as Hsz. rewrite Hel in Hsz. lia.
Qed.

(** ** The claims *)

(** C34: SPLAY_INSERT and SPLAY_REMOVE on the pointer structures insert into and
    remove from the sorted sequence of the tree's elements: an insertion of a
    taken key returns the element that has it, a removal takes out the element
    with the key of its argument, and both leave a search tree, whatever
    rotations the splay made on its way down. *)
Theorem splay_update_refines key T l e :
  splay_rep key T l → e ∉ l →
  (∃ T', SPLAY_INSERT key e T = Ok (SL.lookup key (key e) l) T' ∧
     splay_rep key T' (match SL.lookup key (key e) l with Some _ => l | None => SL.insert key e l end)) ∧
  ∀ x, ∃ T', SPLAY_REMOVE key x T = Ok ((λ _, x) <$> SL.lookup key (key x) l) T' ∧
    splay_rep key T' (match SL.lookup key (key x) l with Some y => SL.remove y l | None => l end).
Proof.
  intros Hrep He. split.
  - destruct (proj1 (wp_ok _ _ _) (SPLAY_INSERT_ok key T l e Hrep He)) as (o & T' & Hrun & -> & H). by exists T'.
  - intros x. destruct (proj1 (wp_ok _ _ _) (SPLAY_REMOVE_ok key T l x Hrep)) as (o & T' & Hrun & H).
    exists T'. destruct (SL.lookup key (key x) l); by destruct H as [-> H].
Qed.

(** C35: the searches in a splay tree agree with its sorted sequence, although
    each of them rearranges the tree: SPLAY_FIND returns the element with the key,
    SPLAY_MIN and SPLAY_MAX the ends of the sequence, SPLAY_NEXT the element
    behind its argument, and SPLAY_FOREACH meets every element once, in order. *)
Theorem splay_search_refines key T l e :
  splay_rep key T l →
  (∃ T', SPLAY_FIND key e T = Ok (SL.lookup key (key e) l) T' ∧ splay_rep key T' l) ∧
  (∃ T', SPLAY_MIN T = Ok (head l) T' ∧ splay_rep key T' l) ∧
  (∃ T', SPLAY_MAX T = Ok (last l) T' ∧ splay_rep key T' l) ∧
  (∃ T', SPLAY_FOREACH key T = Ok l T' ∧ splay_rep key T' l) ∧
  ∀ l1 x l2, l = l1 ++ x :: l2 → ∃ T', SPLAY_NEXT key x T = Ok (head l2) T' ∧ splay_rep key T' l.
Proof.
  intros Hrep. split_and!.
  - by destruct (proj1 (wp_ok _ _ _) (SPLAY_FIND_ok key T l e Hrep)) as (? & ? & ? & -> & ?); eexists.
  - by destruct (proj1 (wp_ok _ _ _) (SPLAY_MIN_ok key T l Hrep)) as (? & ? & ? & -> & ?); eexists.
  - by destruct (proj1 (wp_ok _ _ _) (SPLAY_MAX_ok key T l Hrep)) as (? & ? & ? & -> & ?); eexists.
  - by destruct (proj1 (wp_ok _ _ _) (SPLAY_FOREACH_ok key T l Hrep)) as (? & ? & ? & -> & ?); eexists.
  - intros l1 x l2 ->.
    by destruct (proj1 (wp_ok _ _ _) (SPLAY_NEXT_ok key T l1 x l2 Hrep)) as (? & ? & ? & -> & ?); eexists.
Qed.

(** ** The claims at concrete inputs *)

(** The key of element [x] is [10 * x]; four elements inserted out of order. *)
Definition splay_key (x : loc) : Z := 10 * Z.pos x.

Definition splay_demo : splay_tree :=
  match for_each (λ x, SPLAY_INSERT splay_key x ;; mret ()) [3; 1; 7; 5]%positive (SplayTree None ∅) with
  | Ok _ T => T
  | _ => SplayTree None ∅
  end.

Definition splay_demo_shape : spt := (SNd (SNd (SNd SLf 1 SLf) 3 SLf) 5 (SNd SLf 7 SLf))%positive.

Lemma splay_demo_rep : splay_rep splay_key splay_demo [1; 3; 5; 7]%positive.
Proof.
  exists splay_demo_shape. split; [|split; [done|]].
  - split; [by vm_compute|]. split; [repeat split; by vm_compute|]. by apply (bool_decide_unpack _); vm_compute.
  - unfold key_sorted. repeat first [apply StronglySorted_cons; split|constructor]; unfold splay_key; lia.
Qed.

Lemma splay_update_refines_witness :
  (∃ T', SPLAY_INSERT splay_key 4 splay_demo = Ok None T' ∧ splay_rep splay_key T' [1; 3; 4; 5; 7]%positive) ∧
  ∃ T', SPLAY_REMOVE splay_key 5 splay_demo = Ok (Some 5%positive) T' ∧ splay_rep splay_key T' [1; 3; 7]%positive.
Proof.
  destruct (splay_update_refines splay_key splay_demo [1; 3; 5; 7]%positive 4 splay_demo_rep) as [Hi Hr].
  - by apply (bool_decide_unpack _); vm_compute.
  - split; [exact Hi|exact (Hr 5%positive)].
Defined.

Lemma splay_search_refines_witness :
  (∃ T', SPLAY_FIND splay_key 7 splay_demo = Ok (Some 7%positive) T' ∧ splay_rep splay_key T' [1; 3; 5; 7]%positive) ∧
  (∃ T', SPLAY_FOREACH splay_key splay_demo = Ok [1; 3; 5; 7]%positive T') ∧
  ∃ T', SPLAY_NEXT splay_key 3 splay_demo = Ok (Some 5%positive) T'.
Proof.
  destruct (splay_search_refines splay_key splay_demo [1; 3; 5; 7]%positive 7 splay_demo_rep)
    as (Hf & _ & _ & (T1 & Hfor & _) & Hn).
  destruct (Hn [1]%positive 3%positive [5; 7]%positive eq_refl) as (T2 & Hnext & _).
  split; [exact Hf|]. split; [by exists T1|by exists T2].
Defined.
