(* ===== verification/State.v ===== *)
(** * The store of the runtime: the structs of src/*.h and access to them

    One finite map per struct type, from addresses to field values; [free]
    deletes, so a dangling access is [Undef].  Everything the code gets from
    outside (clock, rand, malloc, saved stack pointers) comes from [Env]. *)
From stdpp Require Import base tactics list gmap.
From Stdlib Require Import ZArith Lia.
From S2P Require Import Prelude Tailq Rbtree RbSpec.

(** ** The environment *)

Class Env := {
  (** Whether the library is built with -DNDEBUG: ASSERT does nothing then. *)
  NDEBUG : bool;
  (** The k-th result of gettimeofday: seconds and microseconds. *)
  timeofday : nat → Z * Z;
  (** The k-th result of rand(). *)
  rand_at : nat → Z;
  (** Whether the k-th allocation succeeds. *)
  malloc_ok : nat → bool;
  (** sysconf(_SC_PAGESIZE). *)
  pagesize : Z;
  (** The address posix_memalign gives to the stack of the process at [p]. *)
  memalign_at : loc → Z;
  (** What madvise returns for the stack of the k-th switched-out process. *)
  madvise_ret : nat → Z;
  (** The distance below the top of its stack of the k-th switched-out process. *)
  stack_depth : nat → Z;
}.

(** ** The structs *)

Inductive ProcState :=
| PROC_ERROR | PROC_READY | PROC_RUNNING | PROC_SLEEPING | PROC_ENDED
| PROC_CHANWAIT | PROC_RUNWAIT | PROC_ALTWAIT | PROC_ALTSLEEP.

#[export] Instance ProcState_eq_dec : EqDecision ProcState.
Proof. solve_decision. Defined.

Record Proc := MkProc {
  p_state : ProcState;
  p_fxn : Z;
  p_args : list Z;            (* args.ptr[0 .. args.num-1] *)
  p_stack_size : Z;
  p_stack_used : Z;
  p_stack_ptr : Z;
  p_sleep_us : Z;
  p_proc_build : option loc
}.

Inductive ChanEndType := CHAN_WRITER | CHAN_READER | CHAN_ALTER.

#[export] Instance ChanEndType_eq_dec : EqDecision ChanEndType.
Proof. solve_decision. Defined.

Record ChanEnd := MkEnd {
  ce_type : ChanEndType;
  ce_data : Z;
  ce_chan : option loc;
  ce_proc : option loc;
  ce_guard : option loc
}.

Record Chan := MkChan {
  c_data_size : Z;
  c_endQ : list loc;
  c_altQ : list loc
}.

Inductive GuardType := GUARD_SKIP | GUARD_TIME | GUARD_CHAN.

#[export] Instance GuardType_eq_dec : EqDecision GuardType.
Proof. solve_decision. Defined.

(** [g_ch_end] is the address of the embedded [ch_end]. *)
Record Guard := MkGuard {
  g_type : GuardType;
  g_key : Z;
  g_alt : option loc;
  g_usec : Z;
  g_chan : option loc;
  g_ch_end : loc;
  g_data_ptr : Z;
  g_data_size : Z;
  g_in_chan : bool
}.

(** [a_ready] is [ready.guards] with [ready.num] its length, or NULL. *)
Record Alt := MkAlt {
  a_key_count : Z;
  a_is_accepted : bool;
  a_winner : option loc;
  a_ready : option (list loc);
  a_guards_num : Z;
  a_guardsQ : list loc;
  a_guard_skip : option loc;
  a_guard_time : option loc;
  a_proc : option loc
}.

Inductive BuildType := PROC_BUILD | PAR_BUILD | SEQ_BUILD.

(** What follows the header, selected by [header.type]. *)
Inductive Build :=
| ProcBuild (proc : option loc)
| ParBuild (num_childs : Z) (childQ : list loc)
| SeqBuild (num_childs : Z) (curr_build : option loc) (childQ : list loc).

Record Builder := MkBuilder {
  b_parent : option loc;
  b_is_root : bool;
  b_run_proc : option loc;
  b_body : Build
}.

Definition b_type (b : Builder) : BuildType :=
  match b_body b with
  | ProcBuild _ => PROC_BUILD | ParBuild _ _ => PAR_BUILD | SeqBuild _ _ _ => SEQ_BUILD
  end.

Record Scheduler (T : Type) := MkSched {
  s_stack_size : Z;
  s_page_size : Z;
  s_is_exit : bool;
  s_main_proc : option loc;
  s_curr_proc : option loc;
  s_totalQ : list loc;
  s_readyQ : list loc;
  s_sleep_num : Z;
  s_sleep_RB : T;
  s_altsleep_num : Z;
  s_altsleep_RB : T
}.
Arguments MkSched {T}.
Arguments s_stack_size {T}.
Arguments s_page_size {T}.
Arguments s_is_exit {T}.
Arguments s_main_proc {T}.
Arguments s_curr_proc {T}.
Arguments s_totalQ {T}.
Arguments s_readyQ {T}.
Arguments s_sleep_num {T}.
Arguments s_sleep_RB {T}.
Arguments s_altsleep_num {T}.
Arguments s_altsleep_RB {T}.

(** The whole store; [fresh_loc] is the next address [malloc] returns, the
    counters index the streams of [Env]. [slept] logs the arguments of usleep. *)
Record St (T : Type) := MkSt {
  procs : gmap loc Proc;
  chans : gmap loc Chan;
  ends : gmap loc ChanEnd;
  guards : gmap loc Guard;
  alts : gmap loc Alt;
  builds : gmap loc Builder;
  sched : Scheduler T;
  mem : gmap Z Z;
  fresh_loc : loc;
  n_time : nat;
  n_rand : nat;
  n_malloc : nat;
  n_switch : nat;
  slept : list Z;
  errno : Z
}.
Arguments MkSt {T}.
Arguments procs {T}.
Arguments chans {T}.
Arguments ends {T}.
Arguments guards {T}.
Arguments alts {T}.
Arguments builds {T}.
Arguments sched {T}.
Arguments mem {T}.
Arguments fresh_loc {T}.
Arguments n_time {T}.
Arguments n_rand {T}.
Arguments n_malloc {T}.
Arguments n_switch {T}.
Arguments slept {T}.
Arguments errno {T}.

(** ** Field updates *)

Definition p_set_state (v : ProcState) (p : Proc) : Proc :=
  MkProc v (p_fxn p) (p_args p) (p_stack_size p) (p_stack_used p) (p_stack_ptr p)
    (p_sleep_us p) (p_proc_build p).
Definition p_set_args (v : list Z) (p : Proc) : Proc :=
  MkProc (p_state p) (p_fxn p) v (p_stack_size p) (p_stack_used p) (p_stack_ptr p)
    (p_sleep_us p) (p_proc_build p).
Definition p_set_used (v : Z) (p : Proc) : Proc :=
  MkProc (p_state p) (p_fxn p) (p_args p) (p_stack_size p) v (p_stack_ptr p)
    (p_sleep_us p) (p_proc_build p).
Definition p_set_sleep (v : Z) (p : Proc) : Proc :=
  MkProc (p_state p) (p_fxn p) (p_args p) (p_stack_size p) (p_stack_used p) (p_stack_ptr p)
    v (p_proc_build p).
Definition p_set_build (v : option loc) (p : Proc) : Proc :=
  MkProc (p_state p) (p_fxn p) (p_args p) (p_stack_size p) (p_stack_used p) (p_stack_ptr p)
    (p_sleep_us p) v.

Definition ce_set_proc (v : option loc) (e : ChanEnd) : ChanEnd :=
  MkEnd (ce_type e) (ce_data e) (ce_chan e) v (ce_guard e).

Definition c_set_endQ (q : list loc) (c : Chan) : Chan := MkChan (c_data_size c) q (c_altQ c).
Definition c_set_altQ (q : list loc) (c : Chan) : Chan := MkChan (c_data_size c) (c_endQ c) q.

Definition g_set_key_alt (k : Z) (a : option loc) (g : Guard) : Guard :=
  MkGuard (g_type g) k a (g_usec g) (g_chan g) (g_ch_end g) (g_data_ptr g) (g_data_size g)
    (g_in_chan g).
Definition g_set_usec (v : Z) (g : Guard) : Guard :=
  MkGuard (g_type g) (g_key g) (g_alt g) v (g_chan g) (g_ch_end g) (g_data_ptr g)
    (g_data_size g) (g_in_chan g).
Definition g_set_in_chan (v : bool) (g : Guard) : Guard :=
  MkGuard (g_type g) (g_key g) (g_alt g) (g_usec g) (g_chan g) (g_ch_end g) (g_data_ptr g)
    (g_data_size g) v.

Definition a_set_key_count (v : Z) (a : Alt) : Alt :=
  MkAlt v (a_is_accepted a) (a_winner a) (a_ready a) (a_guards_num a) (a_guardsQ a)
    (a_guard_skip a) (a_guard_time a) (a_proc a).
Definition a_set_accepted (v : bool) (w : option loc) (a : Alt) : Alt :=
  MkAlt (a_key_count a) v w (a_ready a) (a_guards_num a) (a_guardsQ a)
    (a_guard_skip a) (a_guard_time a) (a_proc a).
Definition a_set_winner (w : option loc) (a : Alt) : Alt :=
  a_set_accepted (a_is_accepted a) w a.
Definition a_set_ready (v : option (list loc)) (a : Alt) : Alt :=
  MkAlt (a_key_count a) (a_is_accepted a) (a_winner a) v (a_guards_num a) (a_guardsQ a)
    (a_guard_skip a) (a_guard_time a) (a_proc a).
Definition a_set_guards (n : Z) (q : list loc) (a : Alt) : Alt :=
  MkAlt (a_key_count a) (a_is_accepted a) (a_winner a) (a_ready a) n q
    (a_guard_skip a) (a_guard_time a) (a_proc a).
Definition a_set_guard_time (v : option loc) (a : Alt) : Alt :=
  MkAlt (a_key_count a) (a_is_accepted a) (a_winner a) (a_ready a) (a_guards_num a)
    (a_guardsQ a) (a_guard_skip a) v (a_proc a).

Definition b_set_parent (v : option loc) (b : Builder) : Builder :=
  MkBuilder v (b_is_root b) (b_run_proc b) (b_body b).
Definition b_set_root (r : bool) (p : option loc) (b : Builder) : Builder :=
  MkBuilder (b_parent b) r p (b_body b).
Definition b_set_body (v : Build) (b : Builder) : Builder :=
  MkBuilder (b_parent b) (b_is_root b) (b_run_proc b) v.

Section updates.
Context {T : Type}.

Definition s_set_exit (v : bool) (s : Scheduler T) : Scheduler T :=
  MkSched (s_stack_size s) (s_page_size s) v (s_main_proc s) (s_curr_proc s) (s_totalQ s)
    (s_readyQ s) (s_sleep_num s) (s_sleep_RB s) (s_altsleep_num s) (s_altsleep_RB s).
Definition s_set_main (v : option loc) (s : Scheduler T) : Scheduler T :=
  MkSched (s_stack_size s) (s_page_size s) (s_is_exit s) v (s_curr_proc s) (s_totalQ s)
    (s_readyQ s) (s_sleep_num s) (s_sleep_RB s) (s_altsleep_num s) (s_altsleep_RB s).
Definition s_set_curr (v : option loc) (s : Scheduler T) : Scheduler T :=
  MkSched (s_stack_size s) (s_page_size s) (s_is_exit s) (s_main_proc s) v (s_totalQ s)
    (s_readyQ s) (s_sleep_num s) (s_sleep_RB s) (s_altsleep_num s) (s_altsleep_RB s).
Definition s_set_totalQ (q : list loc) (s : Scheduler T) : Scheduler T :=
  MkSched (s_stack_size s) (s_page_size s) (s_is_exit s) (s_main_proc s) (s_curr_proc s) q
    (s_readyQ s) (s_sleep_num s) (s_sleep_RB s) (s_altsleep_num s) (s_altsleep_RB s).
Definition s_set_readyQ (q : list loc) (s : Scheduler T) : Scheduler T :=
  MkSched (s_stack_size s) (s_page_size s) (s_is_exit s) (s_main_proc s) (s_curr_proc s)
    (s_totalQ s) q (s_sleep_num s) (s_sleep_RB s) (s_altsleep_num s) (s_altsleep_RB s).
Definition s_set_sleep (n : Z) (t : T) (s : Scheduler T) : Scheduler T :=
  MkSched (s_stack_size s) (s_page_size s) (s_is_exit s) (s_main_proc s) (s_curr_proc s)
    (s_totalQ s) (s_readyQ s) n t (s_altsleep_num s) (s_altsleep_RB s).
Definition s_set_altsleep (n : Z) (t : T) (s : Scheduler T) : Scheduler T :=
  MkSched (s_stack_size s) (s_page_size s) (s_is_exit s) (s_main_proc s) (s_curr_proc s)
    (s_totalQ s) (s_readyQ s) (s_sleep_num s) (s_sleep_RB s) n t.

Definition set_procs (f : gmap loc Proc → gmap loc Proc) (s : St T) : St T :=
  MkSt (f (procs s)) (chans s) (ends s) (guards s) (alts s) (builds s) (sched s) (mem s)
    (fresh_loc s) (n_time s) (n_rand s) (n_malloc s) (n_switch s) (slept s) (errno s).
Definition set_chans (f : gmap loc Chan → gmap loc Chan) (s : St T) : St T :=
  MkSt (procs s) (f (chans s)) (ends s) (guards s) (alts s) (builds s) (sched s) (mem s)
    (fresh_loc s) (n_time s) (n_rand s) (n_malloc s) (n_switch s) (slept s) (errno s).
Definition set_ends (f : gmap loc ChanEnd → gmap loc ChanEnd) (s : St T) : St T :=
  MkSt (procs s) (chans s) (f (ends s)) (guards s) (alts s) (builds s) (sched s) (mem s)
    (fresh_loc s) (n_time s) (n_rand s) (n_malloc s) (n_switch s) (slept s) (errno s).
Definition set_guards (f : gmap loc Guard → gmap loc Guard) (s : St T) : St T :=
  MkSt (procs s) (chans s) (ends s) (f (guards s)) (alts s) (builds s) (sched s) (mem s)
    (fresh_loc s) (n_time s) (n_rand s) (n_malloc s) (n_switch s) (slept s) (errno s).
Definition set_alts (f : gmap loc Alt → gmap loc Alt) (s : St T) : St T :=
  MkSt (procs s) (chans s) (ends s) (guards s) (f (alts s)) (builds s) (sched s) (mem s)
    (fresh_loc s) (n_time s) (n_rand s) (n_malloc s) (n_switch s) (slept s) (errno s).
Definition set_builds (f : gmap loc Builder → gmap loc Builder) (s : St T) : St T :=
  MkSt (procs s) (chans s) (ends s) (guards s) (alts s) (f (builds s)) (sched s) (mem s)
    (fresh_loc s) (n_time s) (n_rand s) (n_malloc s) (n_switch s) (slept s) (errno s).
Definition set_sched (f : Scheduler T → Scheduler T) (s : St T) : St T :=
  MkSt (procs s) (chans s) (ends s) (guards s) (alts s) (builds s) (f (sched s)) (mem s)
    (fresh_loc s) (n_time s) (n_rand s) (n_malloc s) (n_switch s) (slept s) (errno s).
Definition set_mem (f : gmap Z Z → gmap Z Z) (s : St T) : St T :=
  MkSt (procs s) (chans s) (ends s) (guards s) (alts s) (builds s) (sched s) (f (mem s))
    (fresh_loc s) (n_time s) (n_rand s) (n_malloc s) (n_switch s) (slept s) (errno s).
Definition set_fresh (l : loc) (s : St T) : St T :=
  MkSt (procs s) (chans s) (ends s) (guards s) (alts s) (builds s) (sched s) (mem s)
    l (n_time s) (n_rand s) (n_malloc s) (n_switch s) (slept s) (errno s).
Definition set_counts (t r m w : nat) (s : St T) : St T :=
  MkSt (procs s) (chans s) (ends s) (guards s) (alts s) (builds s) (sched s) (mem s)
    (fresh_loc s) t r m w (slept s) (errno s).
Definition add_slept (us : Z) (s : St T) : St T :=
  MkSt (procs s) (chans s) (ends s) (guards s) (alts s) (builds s) (sched s) (mem s)
    (fresh_loc s) (n_time s) (n_rand s) (n_malloc s) (n_switch s) (slept s ++ [us]) (errno s).
Definition set_errno (v : Z) (s : St T) : St T :=
  MkSt (procs s) (chans s) (ends s) (guards s) (alts s) (builds s) (sched s) (mem s)
    (fresh_loc s) (n_time s) (n_rand s) (n_malloc s) (n_switch s) (slept s) v.
End updates.

(** ** Access *)

Section access.
Context {T : Type} {TT : SleepTree T} {E : Env}.
Abbreviation M := (M (St T)).

Definition getp (p : loc) : M Proc := o ← get (λ s, procs s !! p); deref o.
Definition putp (p : loc) (v : Proc) : M () := modify (set_procs <[p := v]>).
Definition modp (p : loc) (f : Proc → Proc) : M () := v ← getp p; putp p (f v).

Definition getc (c : loc) : M Chan := o ← get (λ s, chans s !! c); deref o.
Definition putc (c : loc) (v : Chan) : M () := modify (set_chans <[c := v]>).

Definition gete (e : loc) : M ChanEnd := o ← get (λ s, ends s !! e); deref o.
Definition pute (e : loc) (v : ChanEnd) : M () := modify (set_ends <[e := v]>).

Definition getg (g : loc) : M Guard := o ← get (λ s, guards s !! g); deref o.
Definition putg (g : loc) (v : Guard) : M () := modify (set_guards <[g := v]>).
Definition modg (g : loc) (f : Guard → Guard) : M () := v ← getg g; putg g (f v).

Definition geta (a : loc) : M Alt := o ← get (λ s, alts s !! a); deref o.
Definition puta (a : loc) (v : Alt) : M () := modify (set_alts <[a := v]>).
Definition moda (a : loc) (f : Alt → Alt) : M () := v ← geta a; puta a (f v).

Definition getb (b : loc) : M Builder := o ← get (λ s, builds s !! b); deref o.
Definition putb (b : loc) (v : Builder) : M () := modify (set_builds <[b := v]>).
Definition modb (b : loc) (f : Builder → Builder) : M () := v ← getb b; putb b (f v).

Definition gets {A} (f : Scheduler T → A) : M A := get (λ s, f (sched s)).
Definition mods (f : Scheduler T → Scheduler T) : M () := modify (set_sched f).

(** ASSERT and PANIC of util/debug.h. *)
Definition ASSERT (b : bool) : M () :=
  if b then mret () else if NDEBUG then mret () else abort.
Definition PANIC {A} : M A := abort.

(** [ASSERT_NOTNULL(x)] followed by the use of [x]. *)
Definition notnull {A} (o : option A) : M A :=
  ASSERT (bool_decide (is_Some o)) ;; deref o.

(** Whether the next allocation succeeds. *)
Definition alloc_ok : M bool :=
  k ← get n_malloc;
  modify (λ s, set_counts (n_time s) (n_rand s) (S k) (n_switch s) s) ;;
  mret (malloc_ok k).

Definition ENOMEM : Z := 12.
Definition EPERM : Z := 1.

(** malloc and calloc: the fresh address, or NULL with errno set. *)
Definition malloc : M (option loc) :=
  ok ← alloc_ok;
  if ok : bool then
    l ← get fresh_loc;
    modify (set_fresh (Pos.succ l)) ;;
    mret (Some l)
  else modify (set_errno ENOMEM) ;; mret None.

(** The address of a stack object: it cannot fail. *)
Definition stack_alloc : M loc :=
  l ← get fresh_loc; modify (set_fresh (Pos.succ l)) ;; mret l.

(** [gettimestamp] of util/util.h. *)
Definition gettimestamp : M Z :=
  k ← get n_time;
  modify (λ s, set_counts (S k) (n_rand s) (n_malloc s) (n_switch s) s) ;;
  let '(sec, usec) := timeofday k in
  mret (u64 (u64 (u64 sec * 1000000) + u64 usec)).

Definition rand : M Z :=
  k ← get n_rand;
  modify (λ s, set_counts (n_time s) (S k) (n_malloc s) (n_switch s) s) ;;
  mret (rand_at k).

Definition usleep (us : Z) : M () := modify (add_slept us).

(** Queue operations of the runtime: a broken contract is undefined behaviour.
    (Inserting a queued element leaves links that belong to no list:
    [Tailq.tailq_insert_queued].) *)
Definition TQ_INSERT_TAIL (live : loc → bool) (q : list loc) (e : loc) : M (list loc) :=
  deref (Q.insert_tail live q e).
Definition TQ_REMOVE (live : loc → bool) (q : list loc) (e : loc) : M (list loc) :=
  deref (Q.remove live q e).

Definition live_in {V} (m : gmap loc V) (x : loc) : bool := bool_decide (is_Some (m !! x)).

(** The keys the two comparison functions read, and the two trees. *)
Definition sleep_key (s : St T) (p : loc) : Z :=
  from_option p_sleep_us 0%Z (procs s !! p).
Definition altsleep_key (s : St T) (g : loc) : Z :=
  from_option g_usec 0%Z (guards s !! g).

Definition on_sleep {A} (m : (loc → Z) → Prelude.M T A) : M A := λ s,
  match m (sleep_key s) (s_sleep_RB (sched s)) with
  | Ok a t => Ok a (set_sched (λ c, s_set_sleep (s_sleep_num c) t c) s)
  | Abort => Abort | Undef => Undef | Diverge => Diverge
  end.
Definition on_altsleep {A} (m : (loc → Z) → Prelude.M T A) : M A := λ s,
  match m (altsleep_key s) (s_altsleep_RB (sched s)) with
  | Ok a t => Ok a (set_sched (λ c, s_set_altsleep (s_altsleep_num c) t c) s)
  | Abort => Abort | Undef => Undef | Diverge => Diverge
  end.
End access.
