(* ===== verification/SchedOps.v ===== *)
(** * Scheduler queues: scheduler_add*/scheduler_rem* and the yield of a process

    The operations of scheduler.c that move a process or a guard between the
    ready queue and the two sleep trees, and proc_self/proc_yield of proc.c.
    A call that yields returns [CYield] with the frame that resumes it. *)
From stdpp Require Import base tactics list gmap.
From Stdlib Require Import ZArith Lia.
From S2P Require Import Prelude Tailq Rbtree RbInsert RbSpec State.

(** Where a process that called [proc_yield] resumes: after proxc_yield, in
    proxc_sleep, proxc_run, chan_write/chan_read (with the stack end), alt_select
    (after alt_choose, or in alt_complete), proxc_exit, proc_mainfxn. *)
Inductive frame :=
| KYield
| KSleep (p : loc)
| KRun
| KChan (e : loc)
| KAltChoose (a : loc)
| KAltComplete (a : loc)
| KExit
| KMain.

#[export] Instance frame_eq_dec : EqDecision frame.
Proof. solve_decision. Defined.

(** The result of a call: it returns, or it switches to the scheduler. *)
Inductive ctl (A : Type) :=
| CRet (r : A)
| CYield (k : frame).
Arguments CRet {A}.
Arguments CYield {A}.

Definition MAX_TRIES : Z := 1000.

(** The loops try the first insertion and at most MAX_TRIES retries. *)
Definition tries_fuel : nat := S (S (Z.to_nat MAX_TRIES)).

Section sched_ops.
Context {T : Type} {TT : SleepTree T} {E : Env}.
Abbreviation M := (M (St T)).

Definition live_procs : M (loc → bool) := get (λ s, live_in (procs s)).

Definition scheduler_addready (proc : option loc) : M () :=
  p ← notnull proc;
  modp p (p_set_state PROC_READY) ;;
  q ← gets s_readyQ;
  live ← live_procs;
  q' ← TQ_INSERT_TAIL live q p;
  mods (s_set_readyQ q').

Definition scheduler_remready (proc : option loc) : M () :=
  p ← notnull proc;
  getp p ;;
  q ← gets s_readyQ;
  live ← live_procs;
  q' ← TQ_REMOVE live q p;
  mods (s_set_readyQ q').

Definition sleep_num_add (d : Z) : M () :=
  mods (λ c, s_set_sleep (u64 (s_sleep_num c + d)) (s_sleep_RB c) c).
Definition altsleep_num_add (d : Z) : M () :=
  mods (λ c, s_set_altsleep (u64 (s_altsleep_num c + d)) (s_altsleep_RB c) c).

(** [while (RB_INSERT(..) && (num_tries++ < MAX_TRIES)) ++proc->sleep_us;] *)
Fixpoint addsleep_loop (fuel : nat) (p : loc) (num_tries : Z) : M Z :=
  match fuel with
  | O => diverge
  | S fuel =>
      coll ← on_sleep (λ key, st_insert key p);
      match coll with
      | None => mret num_tries
      | Some _ =>
          if (num_tries <? MAX_TRIES)%Z then
            modp p (λ v, p_set_sleep (u64 (p_sleep_us v + 1)) v) ;;
            addsleep_loop fuel p (num_tries + 1)
          else mret (num_tries + 1)%Z
      end
  end.

Definition scheduler_addsleep (proc : option loc) : M () :=
  p ← notnull proc;
  v ← getp p;
  if (p_sleep_us v =? 0)%Z then mret () else
  modp p (p_set_state PROC_SLEEPING) ;;
  num_tries ← addsleep_loop tries_fuel p 0;
  sleep_num_add 1 ;;
  ASSERT (num_tries <? MAX_TRIES)%Z.

Definition scheduler_remsleep (proc : option loc) : M () :=
  p ← notnull proc;
  getp p ;;
  on_sleep (λ _, st_remove p) ;;
  sleep_num_add (-1).

(** [while (RB_INSERT(..) && (++num_tries < MAX_TRIES)) ++guard->usec;] *)
Fixpoint addaltsleep_loop (fuel : nat) (g : loc) (num_tries : Z) : M Z :=
  match fuel with
  | O => diverge
  | S fuel =>
      coll ← on_altsleep (λ key, st_insert key g);
      match coll with
      | None => mret num_tries
      | Some _ =>
          if (num_tries + 1 <? MAX_TRIES)%Z then
            modg g (λ v, g_set_usec (u64 (g_usec v + 1)) v) ;;
            addaltsleep_loop fuel g (num_tries + 1)
          else mret (num_tries + 1)%Z
      end
  end.

(** [guard->alt->proc->sched]: every object on the path is read. *)
Definition guard_proc (g : loc) : M loc :=
  v ← getg g;
  al ← deref (g_alt v);
  a ← geta al;
  p ← deref (a_proc a);
  getp p ;;
  mret p.

Definition scheduler_addaltsleep (guard : option loc) : M () :=
  g ← notnull guard;
  v ← getg g;
  if (g_usec v =? 0)%Z then mret () else
  guard_proc g ;;
  num_tries ← addaltsleep_loop tries_fuel g 0;
  ASSERT (num_tries <? MAX_TRIES)%Z ;;
  altsleep_num_add 1.

Definition scheduler_remaltsleep (guard : option loc) : M () :=
  g ← notnull guard;
  guard_proc g ;;
  on_altsleep (λ _, st_remove g) ;;
  altsleep_num_add (-1).

(** [proc_self] and [proc_yield] of proc.c: switching to the scheduler reads
    the context of the current process. *)
Definition proc_self : M loc :=
  c ← gets s_curr_proc;
  notnull c.

Definition proc_yield {A} (proc : option loc) (k : frame) : M (ctl A) :=
  match proc with Some p => getp p ;; mret () | None => mret () end ;;
  c ← gets s_curr_proc;
  c ← deref c;
  getp c ;;
  mret (CYield k).
End sched_ops.
