(* ===== verification/Exec.v ===== *)
(** * Symbolic execution of the runtime model

    Rules for the accesses and queue operations of [State] and [SchedOps], and
    the tactic [steps] that applies them to a [wp] goal. *)
From stdpp Require Import base tactics list gmap.
From Stdlib Require Import ZArith Lia.
From S2P Require Import Prelude Tailq Rbtree RbInsert RbSpec State SchedOps.

(** ** A concrete environment and store, for the examples *)

Definition demo_env : Env := {|
  NDEBUG := false;
  timeofday k := (0, 1000 + 10 * Z.of_nat k)%Z;
  rand_at k := Z.of_nat k;
  malloc_ok _ := true;
  pagesize := 4096;
  memalign_at p := (1048576 + 8192 * Z.pos p)%Z;
  madvise_ret _ := 0%Z;
  stack_depth _ := 100%Z
|}.

(** A store whose scheduler has the given processes, none of them queued. *)
Definition demo_proc (st : ProcState) : Proc := MkProc st 1 [] 8192 0 1048576 0 None.

Definition demo_state (ps : gmap loc Proc) (bs : gmap loc Builder) (curr : option loc) : St rb_tree :=
  MkSt ps ∅ ∅ ∅ ∅ bs
    (MkSched 8192 4096 false None curr (elements (dom ps)) [] 0 rb_init 0 rb_init)
    ∅ 100 0 0 0 0 [] 0.

(** ** What an operation may do to the ready queue *)

Section exec.
Context {T : Type} {TT : SleepTree T} {E : Env}.
Implicit Types s : St T.

(** Every process of the ready queue exists: its link fields may be written. *)
Definition ready_live (s : St T) : Prop := Forall (λ p, is_Some (procs s !! p)) (s_readyQ (sched s)).

(** The state after a process has been made ready. *)
Definition readied (p : loc) (v : Proc) (s : St T) : St T :=
  set_sched (s_set_readyQ (s_readyQ (sched s) ++ [p]))
    (set_procs <[p := p_set_state PROC_READY v]> s).

Lemma wp_getp p v Q s : procs s !! p = Some v → Q v s → wp (getp p) Q s.
Proof. unfold wp, getp, mbind, M_bind, get. by intros ->. Qed.
Lemma wp_putp p v (Q : () → St T → Prop) s : Q () (set_procs <[p := v]> s) → wp (putp p v) Q s.
Proof. done. Qed.
Lemma wp_modp p f v (Q : () → St T → Prop) s :
  procs s !! p = Some v → Q () (set_procs <[p := f v]> s) → wp (modp p f) Q s.
Proof. intros H HQ. unfold modp. apply wp_bind. by eapply wp_getp. Qed.

Lemma wp_getc c v Q s : chans s !! c = Some v → Q v s → wp (getc c) Q s.
Proof. unfold wp, getc, mbind, M_bind, get. by intros ->. Qed.
Lemma wp_putc c v (Q : () → St T → Prop) s : Q () (set_chans <[c := v]> s) → wp (putc c v) Q s.
Proof. done. Qed.
Lemma wp_gete e v Q s : ends s !! e = Some v → Q v s → wp (gete e) Q s.
Proof. unfold wp, gete, mbind, M_bind, get. by intros ->. Qed.
Lemma wp_pute e v (Q : () → St T → Prop) s : Q () (set_ends <[e := v]> s) → wp (pute e v) Q s.
Proof. done. Qed.

Lemma wp_getg g v Q s : guards s !! g = Some v → Q v s → wp (getg g) Q s.
Proof. unfold wp, getg, mbind, M_bind, get. by intros ->. Qed.
Lemma wp_putg g v (Q : () → St T → Prop) s : Q () (set_guards <[g := v]> s) → wp (putg g v) Q s.
Proof. done. Qed.
Lemma wp_modg g f v (Q : () → St T → Prop) s :
  guards s !! g = Some v → Q () (set_guards <[g := f v]> s) → wp (modg g f) Q s.
Proof. intros H HQ. unfold modg. apply wp_bind. by eapply wp_getg. Qed.

Lemma wp_geta a v Q s : alts s !! a = Some v → Q v s → wp (geta a) Q s.
Proof. unfold wp, geta, mbind, M_bind, get. by intros ->. Qed.
Lemma wp_puta a v (Q : () → St T → Prop) s : Q () (set_alts <[a := v]> s) → wp (puta a v) Q s.
Proof. done. Qed.
Lemma wp_moda a f v (Q : () → St T → Prop) s :
  alts s !! a = Some v → Q () (set_alts <[a := f v]> s) → wp (moda a f) Q s.
Proof. intros H HQ. unfold moda. apply wp_bind. by eapply wp_geta. Qed.

Lemma wp_getb b v Q s : builds s !! b = Some v → Q v s → wp (getb b) Q s.
Proof. unfold wp, getb, mbind, M_bind, get. by intros ->. Qed.
Lemma wp_putb b v (Q : () → St T → Prop) s : Q () (set_builds <[b := v]> s) → wp (putb b v) Q s.
Proof. done. Qed.
Lemma wp_modb b f v (Q : () → St T → Prop) s :
  builds s !! b = Some v → Q () (set_builds <[b := f v]> s) → wp (modb b f) Q s.
Proof. intros H HQ. unfold modb. apply wp_bind. by eapply wp_getb. Qed.

Lemma wp_gets {A} (f : Scheduler T → A) Q s : Q (f (sched s)) s → wp (gets f) Q s.
Proof. done. Qed.
Lemma wp_mods f (Q : () → St T → Prop) s : Q () (set_sched f s) → wp (mods f) Q s.
Proof. done. Qed.

Lemma wp_ASSERT (b : bool) (Q : () → St T → Prop) s : b = true → Q () s → wp (ASSERT b) Q s.
Proof. by intros ->. Qed.
(** A failing assertion goes on in a build with NDEBUG. *)
Lemma wp_ASSERT_ndebug (b : bool) (Q : () → St T → Prop) s :
  b = true ∨ NDEBUG = true → Q () s → wp (ASSERT b) Q s.
Proof. unfold ASSERT. intros [-> | ->]; [done|]. by destruct b. Qed.
Lemma wp_notnull {A} (o : option A) a Q s : o = Some a → Q a s → wp (notnull o) Q s.
Proof. by intros ->. Qed.

Lemma wp_alloc_ok (Q : bool → St T → Prop) s :
  Q (malloc_ok (n_malloc s)) (set_counts (n_time s) (n_rand s) (S (n_malloc s)) (n_switch s) s) →
  wp alloc_ok Q s.
Proof. done. Qed.

Lemma wp_stack_alloc (Q : loc → St T → Prop) s :
  Q (fresh_loc s) (set_fresh (Pos.succ (fresh_loc s)) s) → wp stack_alloc Q s.
Proof. done. Qed.

(** ** Queues *)

Lemma Q_insert_tail_ok live q (e : loc) :
  e ∉ q → live e = true → Forall (λ x, live x = true) q → Q.insert_tail live q e = Some (q ++ [e]).
Proof.
  intros He Hl Hq. unfold Q.insert_tail. rewrite bool_decide_true, Hl by done.
  destruct (last q) as [x|] eqn:Hx; [|done]. simpl.
  rewrite Forall_forall in Hq. rewrite Hq; [done|]. apply last_Some in Hx as [l ->]. set_solver.
Qed.

Lemma Q_before_elem (q : list loc) e x : Q.before q e = Some x → x ∈ q.
Proof. induction q; simpl; [done|]. case_bool_decide; set_solver. Qed.
Lemma Q_next_elem (q : list loc) e x : Q.next q e = Some x → x ∈ q.
Proof.
  induction q as [|y q IH]; simpl; [done|]. case_bool_decide; [|set_solver].
  intros Hh%head_Some_elem_of. set_solver.
Qed.

Lemma Q_remove_ok live q (e : loc) :
  e ∈ q → Forall (λ x, live x = true) q → Q.remove live q e = Some (Q.without q e).
Proof.
  intros He Hq. rewrite Forall_forall in Hq. unfold Q.remove.
  rewrite bool_decide_true, Hq by done.
  destruct (Q.before q e) as [x|] eqn:Hb; simpl; rewrite ?(Hq x) by (by eapply Q_before_elem);
  destruct (Q.next q e) as [y|] eqn:Hn; simpl; rewrite ?(Hq y) by (by eapply Q_next_elem); done.
Qed.

Lemma live_in_Some {V} (m : gmap loc V) x : live_in m x = true ↔ is_Some (m !! x).
Proof. apply bool_decide_eq_true. Qed.

Lemma wp_INSERT_TAIL live q e (Q : list loc → St T → Prop) s :
  e ∉ q → live e = true → Forall (λ x, live x = true) q →
  Q (q ++ [e]) s → wp (TQ_INSERT_TAIL live q e) Q s.
Proof. intros. eapply wp_deref; [by apply Q_insert_tail_ok|done]. Qed.

Lemma wp_REMOVE live q e (Q : list loc → St T → Prop) s :
  e ∈ q → Forall (λ x, live x = true) q →
  Q (Q.without q e) s → wp (TQ_REMOVE live q e) Q s.
Proof. intros. eapply wp_deref; [by apply Q_remove_ok|done]. Qed.

Lemma Q_without_head (e : loc) q : e ∉ q → Q.without (e :: q) e = q.
Proof.
  intros. unfold Q.without. rewrite filter_cons_False by naive_solver.
  induction q; [done|]. rewrite filter_cons_True by set_solver. f_equal. set_solver.
Qed.

Lemma Forall_live {V} (m : gmap loc V) q :
  Forall (λ p, is_Some (m !! p)) q → Forall (λ x, live_in m x = true) q.
Proof. intros H. eapply Forall_impl; [exact H|]. intros x. apply live_in_Some. Qed.

Lemma is_Some_insert {V} (m : gmap loc V) i v x : is_Some (m !! x) → is_Some (<[i:=v]> m !! x).
Proof. intros. rewrite lookup_insert_is_Some. destruct (decide (i = x)); auto. Qed.

Lemma Forall_is_Some_insert {V} (m : gmap loc V) i v q :
  Forall (λ p, is_Some (m !! p)) q → Forall (λ p, is_Some (<[i:=v]> m !! p)) q.
Proof. intros H. eapply Forall_impl; [exact H|]. intros. by apply is_Some_insert. Qed.

(** ** scheduler_addready, the queue switch every wake-up ends with *)

Lemma addready_ok p v s :
  procs s !! p = Some v → p ∉ s_readyQ (sched s) → ready_live s →
  wp (scheduler_addready (Some p)) (λ _ s', s' = readied p v s) s.
Proof.
  intros Hp Hn Hl. unfold scheduler_addready.
  apply wp_bind. eapply wp_notnull; [done|].
  apply wp_bind. eapply wp_modp; [done|].
  apply wp_bind. apply wp_gets. apply wp_bind. apply wp_get.
  apply wp_bind. apply wp_INSERT_TAIL.
  - done.
  - simpl. apply live_in_Some. rewrite lookup_insert_eq. by eexists.
  - simpl. apply Forall_live. by apply Forall_is_Some_insert.
  - apply wp_mods. done.
Qed.

Lemma readied_live p v s : ready_live s → ready_live (readied p v s).
Proof.
  intros H. unfold ready_live in *. simpl. apply Forall_app. split.
  - by apply Forall_is_Some_insert.
  - constructor; [|done]. rewrite lookup_insert_eq. by eexists.
Qed.

Lemma readied_ready p v s : s_readyQ (sched (readied p v s)) = s_readyQ (sched s) ++ [p].
Proof. done. Qed.

(** As many addresses as objects, at most: the fuel of the loops over them. *)
Lemma nodes_size {V} (m : gmap loc V) (l : list loc) :
  NoDup l → (∀ x, x ∈ l → is_Some (m !! x)) → length l ≤ size m.
Proof.
  intros Hnd Hl. rewrite <-size_dom, <-(size_list_to_set (C := gset loc)) by done.
  apply subseteq_size. intros x Hx%elem_of_list_to_set. by apply elem_of_dom, Hl.
Qed.

(** Equality of stores, field by field. *)
Lemma St_eq s1 s2 :
  procs s1 = procs s2 → chans s1 = chans s2 → ends s1 = ends s2 → guards s1 = guards s2 →
  alts s1 = alts s2 → builds s1 = builds s2 → sched s1 = sched s2 → mem s1 = mem s2 →
  (fresh_loc s1, n_time s1, n_rand s1, n_malloc s1, n_switch s1, slept s1, errno s1) =
  (fresh_loc s2, n_time s2, n_rand s2, n_malloc s2, n_switch s2, slept s2, errno s2) → s1 = s2.
Proof. destruct s1, s2. simpl. intros. by simplify_eq. Qed.

(** ** Making several processes ready *)

Definition ready_all (ps : list loc) (s : St T) : St T :=
  set_sched (s_set_readyQ (s_readyQ (sched s) ++ ps))
    (set_procs (λ pm, foldl (λ qm p, alter (p_set_state PROC_READY) p qm) pm ps) s).

Definition can_ready (ps : list loc) (s : St T) : Prop :=
  NoDup ps ∧ Forall (λ p, is_Some (procs s !! p) ∧ p ∉ s_readyQ (sched s)) ps ∧ ready_live s.

Lemma ready_all_nil s : ready_all [] s = s.
Proof. unfold ready_all. rewrite app_nil_r. by destruct s as [?????? []]. Qed.

Lemma ready_all_app ps qs s : ready_all (ps ++ qs) s = ready_all qs (ready_all ps s).
Proof. unfold ready_all, set_sched, set_procs. simpl. by rewrite foldl_app, app_assoc. Qed.

Lemma foldl_alter_is_Some ps x : ∀ pm : gmap loc Proc,
  is_Some (foldl (λ qm p, alter (p_set_state PROC_READY) p qm) pm ps !! x) ↔ is_Some (pm !! x).
Proof.
  induction ps as [|p ps IH]; intros pm; simpl; [done|].
  rewrite IH. apply lookup_alter_is_Some.
Qed.

Lemma can_ready_app ps qs s :
  can_ready (ps ++ qs) s → can_ready ps s ∧ can_ready qs (ready_all ps s).
Proof.
  intros ((Hp & Hpq & Hq)%NoDup_app & [Fp Fq]%Forall_app & Hl). split; [by split|].
  split; [done|]. split.
  - rewrite Forall_forall in *. intros x Hx. destruct (Fq x Hx) as [??]. simpl. split.
    + by apply foldl_alter_is_Some.
    + set_solver.
  - unfold ready_live in *. simpl. apply Forall_app; split.
    + eapply Forall_impl; [exact Hl|]. intros x ?. by apply foldl_alter_is_Some.
    + eapply Forall_impl; [exact Fp|]. intros x [? _]. by apply foldl_alter_is_Some.
Qed.

Lemma addready_all p s :
  can_ready [p] s → wp (scheduler_addready (Some p)) (λ _ s', s' = ready_all [p] s) s.
Proof.
  intros (_ & [[[v Hv] Hn] _]%Forall_cons & Hl).
  eapply wp_mono; [by apply addready_ok|]. intros ? ? ->. unfold readied, ready_all. simpl.
  destruct s; simpl in *. unfold set_sched, set_procs. simpl.
  f_equal. apply map_eq. intros x.
  destruct (decide (x = p)) as [->|]; simplify_map_eq; done.
Qed.

(** ** The sleep trees *)

Lemma wp_on_sleep {A} (m : (loc → Z) → M T A) (R : A → T → Prop) (Q : A → St T → Prop) s :
  wp (m (sleep_key s)) R (s_sleep_RB (sched s)) →
  (∀ a t, R a t → Q a (set_sched (λ c, s_set_sleep (s_sleep_num c) t c) s)) →
  wp (on_sleep m) Q s.
Proof. unfold wp, on_sleep. destruct (m _ _); auto. Qed.

Lemma wp_on_altsleep {A} (m : (loc → Z) → M T A) (R : A → T → Prop) (Q : A → St T → Prop) s :
  wp (m (altsleep_key s)) R (s_altsleep_RB (sched s)) →
  (∀ a t, R a t → Q a (set_sched (λ c, s_set_altsleep (s_altsleep_num c) t c) s)) →
  wp (on_altsleep m) Q s.
Proof. unfold wp, on_altsleep. destruct (m _ _); auto. Qed.

Definition sleepers (s : St T) (l : list loc) : Prop := st_rep (sleep_key s) (s_sleep_RB (sched s)) l.
Definition altsleepers (s : St T) (l : list loc) : Prop :=
  st_rep (altsleep_key s) (s_altsleep_RB (sched s)) l.
End exec.

Ltac side := first [ eassumption | reflexivity | (simpl; simplify_map_eq; reflexivity)
                   | (simpl; simplify_map_eq; eassumption) | idtac ].

(** One step of a [wp] goal; the goals it leaves are the ones it cannot close. *)
Ltac step :=
  cbv beta iota;
  lazymatch goal with
  | |- wp (_ ≫= _) _ _ => apply wp_bind
  | |- wp (mret _) _ _ => apply wp_ret
  | |- wp (get _) _ _ => apply wp_get
  | |- wp (modify _) _ _ => apply wp_modify
  | |- wp (getp _) _ _ => eapply wp_getp; [side|]
  | |- wp (putp _ _) _ _ => apply wp_putp
  | |- wp (modp _ _) _ _ => eapply wp_modp; [side|]
  | |- wp (getc _) _ _ => eapply wp_getc; [side|]
  | |- wp (putc _ _) _ _ => apply wp_putc
  | |- wp (gete _) _ _ => eapply wp_gete; [side|]
  | |- wp (pute _ _) _ _ => apply wp_pute
  | |- wp (getg _) _ _ => eapply wp_getg; [side|]
  | |- wp (putg _ _) _ _ => apply wp_putg
  | |- wp (modg _ _) _ _ => eapply wp_modg; [side|]
  | |- wp (geta _) _ _ => eapply wp_geta; [side|]
  | |- wp (puta _ _) _ _ => apply wp_puta
  | |- wp (moda _ _) _ _ => eapply wp_moda; [side|]
  | |- wp (getb _) _ _ => eapply wp_getb; [side|]
  | |- wp (putb _ _) _ _ => apply wp_putb
  | |- wp (modb _ _) _ _ => eapply wp_modb; [side|]
  | |- wp (gets _) _ _ => apply wp_gets
  | |- wp (mods _) _ _ => apply wp_mods
  | |- wp (notnull _) _ _ => eapply wp_notnull; [side|]
  | |- wp (deref _) _ _ => eapply wp_deref; [side|]
  | |- wp alloc_ok _ _ => apply wp_alloc_ok
  | |- wp stack_alloc _ _ => apply wp_stack_alloc
  | |- wp proc_self _ _ => unfold proc_self
  | |- wp live_procs _ _ => apply wp_get
  end.
Ltac steps := repeat (step; cbn [sched procs chans ends guards alts builds mem]).
