(* ===== verification/SleepSpec.v ===== *)
(** * Sleeping processes: what scheduler_addsleep and scheduler_addaltsleep do

    Proved against the interface [SleepTree]; the witnesses run on the
    red-black trees, or on the sorted lists where the store has a thousand
    sleepers. *)
From stdpp Require Import base tactics list gmap.
From Stdlib Require Import ZArith Lia.
From S2P Require Import Prelude Tailq Rbtree RbInsert RbSpec State SchedOps Exec.

Section sleep_spec.
Context {T : Type} {TT : SleepTree T} {E : Env}.
Implicit Types (s : St T) (l : list loc).

(** [key0] is taken, and so are the [n - 1] keys after it. *)
Definition taken (key : loc → Z) l (key0 : Z) (n : Z) : Prop :=
  ∀ i, (0 ≤ i < n)%Z → is_Some (SL.lookup key (key0 + i) l).

(** The state after [p] was filed under the deadline [k] in the sleep tree, [t']. *)
Definition filed (p : loc) (k : Z) (v : Proc) (t' : T) (s : St T) : St T :=
  set_sched (λ c, s_set_sleep (s_sleep_num c) t' c) (set_procs <[p := p_set_sleep k v]> s).

(** The same for a guard in the tree of timed alternatives. *)
Definition alt_filed (g : loc) (k : Z) (v : Guard) (t' : T) (s : St T) : St T :=
  set_sched (λ c, s_set_altsleep (s_altsleep_num c) t' c) (set_guards <[g := g_set_usec k v]> s).

Lemma SL_lookup_ext key key' k l :
  (∀ x, x ∈ l → key' x = key x) → SL.lookup key' k l = SL.lookup key k l.
Proof.
  unfold SL.lookup. induction l as [|x l IH]; intros Hk; [done|]. simpl.
  rewrite (Hk x) by by left. destruct (decide (key x = k)); [done|]. simpl.
  specialize (IH ltac:(intros; apply Hk; by right)).
  destruct (list_find _ l) as [[]|], (list_find _ l) as [[]|]; naive_solver.
Qed.

Lemma sleep_key_other p v s x : x ≠ p → sleep_key (set_procs <[p := v]> s) x = sleep_key s x.
Proof. intros. unfold sleep_key. simpl. by rewrite lookup_insert_ne. Qed.

Lemma sleep_key_self p v s : sleep_key (set_procs <[p := v]> s) p = p_sleep_us v.
Proof. unfold sleep_key. simpl. by rewrite lookup_insert_eq. Qed.

Lemma altsleep_key_other g v s x : x ≠ g → altsleep_key (set_guards <[g := v]> s) x = altsleep_key s x.
Proof. intros. unfold altsleep_key. simpl. by rewrite lookup_insert_ne. Qed.

Lemma altsleep_key_self g v s : altsleep_key (set_guards <[g := v]> s) g = g_usec v.
Proof. unfold altsleep_key. simpl. by rewrite lookup_insert_eq. Qed.

Lemma set_sleep_same s : set_sched (λ c, s_set_sleep (s_sleep_num c) (s_sleep_RB (sched s)) c) s = s.
Proof. by destruct s as [?????? []]. Qed.

Lemma set_altsleep_same s : set_sched (λ c, s_set_altsleep (s_altsleep_num c) (s_altsleep_RB (sched s)) c) s = s.
Proof. by destruct s as [?????? []]. Qed.

(** ** One attempt *)

Lemma try_sleep p l s (Q : option loc → St T → Prop) :
  sleepers s l → p ∉ l →
  (∀ x, SL.lookup (sleep_key s) (sleep_key s p) l = Some x → Q (Some x) s) →
  (∀ t', SL.lookup (sleep_key s) (sleep_key s p) l = None →
     st_rep (sleep_key s) t' (SL.insert (sleep_key s) p l) →
     Q None (set_sched (λ c, s_set_sleep (s_sleep_num c) t' c) s)) →
  wp (on_sleep (λ key, st_insert key p)) Q s.
Proof.
  intros Hs Hp HS HN. eapply wp_on_sleep; [by apply st_insert_ok|]. cbv beta.
  intros o t' [-> Ho]. destruct (SL.lookup _ _ l) as [x|]; [|by apply HN].
  subst t'. rewrite set_sleep_same. by apply HS.
Qed.

Lemma try_altsleep g l s (Q : option loc → St T → Prop) :
  altsleepers s l → g ∉ l →
  (∀ x, SL.lookup (altsleep_key s) (altsleep_key s g) l = Some x → Q (Some x) s) →
  (∀ t', SL.lookup (altsleep_key s) (altsleep_key s g) l = None →
     st_rep (altsleep_key s) t' (SL.insert (altsleep_key s) g l) →
     Q None (set_sched (λ c, s_set_altsleep (s_altsleep_num c) t' c) s)) →
  wp (on_altsleep (λ key, st_insert key g)) Q s.
Proof.
  intros Hs Hp HS HN. eapply wp_on_altsleep; [by apply st_insert_ok|]. cbv beta.
  intros o t' [-> Ho]. destruct (SL.lookup _ _ l) as [x|]; [|by apply HN].
  subst t'. rewrite set_altsleep_same. by apply HS.
Qed.

Lemma sleepers_bump p v s l :
  sleepers s l → p ∉ l → sleepers (set_procs <[p := v]> s) l.
Proof.
  intros Hs Hp. eapply st_ext; [|exact Hs]. intros x Hx.
  apply sleep_key_other. by intros ->.
Qed.

Lemma altsleepers_bump g v s l :
  altsleepers s l → g ∉ l → altsleepers (set_guards <[g := v]> s) l.
Proof.
  intros Hs Hp. eapply st_ext; [|exact Hs]. intros x Hx.
  apply altsleep_key_other. by intros ->.
Qed.

(** ** The collision loops *)

(** [n] collisions and then a free key: the process is filed there. *)
Lemma addsleep_loop_files p l : ∀ fuel n m v s,
  sleepers s l → p ∉ l → procs s !! p = Some v →
  taken (sleep_key s) l (p_sleep_us v) n → SL.lookup (sleep_key s) (p_sleep_us v + n) l = None →
  (0 ≤ n)%Z → (m + n ≤ MAX_TRIES)%Z → (0 ≤ p_sleep_us v)%Z → (p_sleep_us v + n < U64)%Z →
  Z.to_nat n < fuel →
  wp (addsleep_loop fuel p m) (λ r s', r = (m + n)%Z ∧ ∃ t',
    s' = filed p (p_sleep_us v + n) v t' s ∧ sleepers s' (SL.insert (sleep_key s') p l)) s.
Proof.
  induction fuel as [|fuel IH]; intros n m v s Hs Hp Hv Ht Hfree Hn Hm Hk HU Hf; [lia|].
  assert (sleep_key s p = p_sleep_us v) as Hkey by (unfold sleep_key; by rewrite Hv).
  simpl. apply wp_bind. eapply try_sleep; [done|done|..]; rewrite Hkey.
  - intros x Hx. destruct (decide (n = 0)%Z) as [->|Hn0].
    { rewrite Z.add_0_r in Hfree. congruence. }
    rewrite (proj2 (Z.ltb_lt m MAX_TRIES)) by lia. steps.
    assert (u64 (p_sleep_us v + 1) = p_sleep_us v + 1)%Z as -> by (apply Z.mod_small; lia).
    set (v1 := p_set_sleep (p_sleep_us v + 1) v). set (s1 := set_procs <[p := v1]> s).
    assert (∀ k, SL.lookup (sleep_key s1) k l = SL.lookup (sleep_key s) k l) as Hl1.
    { intros k. apply SL_lookup_ext. intros y Hy. apply sleep_key_other. by intros ->. }
    eapply wp_mono.
    { apply (IH (n - 1)%Z (m + 1)%Z v1 s1); simpl; try lia; try done.
      - by apply sleepers_bump.
      - by rewrite lookup_insert_eq.
      - intros i Hi. rewrite Hl1, <-Z.add_assoc. apply Ht. lia.
      - rewrite Hl1. replace (p_sleep_us v + 1 + (n - 1))%Z with (p_sleep_us v + n)%Z by lia. done. }
    intros r s' (-> & t' & -> & Hs'). split; [lia|]. exists t'. simpl in *.
    replace (p_sleep_us v + 1 + (n - 1))%Z with (p_sleep_us v + n)%Z in * by lia.
    assert (filed p (p_sleep_us v + n) v1 t' s1 = filed p (p_sleep_us v + n) v t' s) as <-; [|done].
    unfold filed, s1. unfold set_procs, set_sched. simpl. by rewrite insert_insert_eq.
  - intros t' Hnone Hrep. apply wp_ret. destruct (decide (n = 0)%Z) as [->|Hn0].
    + rewrite !Z.add_0_r. split; [done|]. exists t'.
      assert (filed p (p_sleep_us v) v t' s
              = set_sched (λ c, s_set_sleep (s_sleep_num c) t' c) s) as ->; [|done].
      unfold filed, set_procs, set_sched. simpl. destruct s, v; simpl in *. f_equal.
      rewrite insert_id; done.
    + destruct (Ht 0%Z) as [x Hx]; [lia|]. rewrite Z.add_0_r in Hx. congruence.
Qed.

(** Too many collisions: the loop ends with the process filed nowhere. *)
Lemma addsleep_loop_gives_up p l : ∀ fuel m v s,
  sleepers s l → p ∉ l → procs s !! p = Some v →
  taken (sleep_key s) l (p_sleep_us v) (MAX_TRIES - m + 1) →
  (0 ≤ m ≤ MAX_TRIES)%Z → (0 ≤ p_sleep_us v)%Z → (p_sleep_us v + (MAX_TRIES - m) < U64)%Z →
  Z.to_nat (MAX_TRIES - m) < fuel →
  wp (addsleep_loop fuel p m) (λ r s', r = (MAX_TRIES + 1)%Z ∧
    s' = set_procs <[p := p_set_sleep (p_sleep_us v + (MAX_TRIES - m)) v]> s) s.
Proof.
  induction fuel as [|fuel IH]; intros m v s Hs Hp Hv Ht Hm Hk HU Hf; [lia|].
  assert (sleep_key s p = p_sleep_us v) as Hkey by (unfold sleep_key; by rewrite Hv).
  destruct (Ht 0%Z) as [x0 Hx0]; [lia|]. rewrite Z.add_0_r in Hx0.
  simpl. apply wp_bind. eapply try_sleep; [done|done|..]; rewrite Hkey; [|congruence].
  intros x _. destruct (Z.ltb_spec m MAX_TRIES).
  - steps. assert (u64 (p_sleep_us v + 1) = p_sleep_us v + 1)%Z as -> by (apply Z.mod_small; lia).
    set (v1 := p_set_sleep (p_sleep_us v + 1) v). set (s1 := set_procs <[p := v1]> s).
    eapply wp_mono.
    { apply (IH (m + 1)%Z v1 s1); simpl; try lia.
      - by apply sleepers_bump.
      - done.
      - by rewrite lookup_insert_eq.
      - intros i Hi. rewrite (SL_lookup_ext (sleep_key s)), <-Z.add_assoc; [apply Ht; lia|].
        intros y Hy. apply sleep_key_other. by intros ->. }
    intros r s' (-> & ->). split; [done|]. unfold s1, set_procs. simpl.
    rewrite insert_insert_eq.
    by replace (p_sleep_us v + 1 + (MAX_TRIES - (m + 1)))%Z
      with (p_sleep_us v + (MAX_TRIES - m))%Z by lia.
  - steps. assert (m = MAX_TRIES) as -> by lia. split; [done|].
    rewrite Z.sub_diag, Z.add_0_r. destruct s, v; simpl in *. unfold set_procs. simpl.
    by rewrite insert_id.
Qed.

(** The loop of scheduler_addaltsleep counts before it compares: one retry less. *)
Lemma addaltsleep_loop_files g l : ∀ fuel n m v s,
  altsleepers s l → g ∉ l → guards s !! g = Some v →
  taken (altsleep_key s) l (g_usec v) n → SL.lookup (altsleep_key s) (g_usec v + n) l = None →
  (0 ≤ n)%Z → (m + n < MAX_TRIES)%Z → (0 ≤ g_usec v)%Z → (g_usec v + n < U64)%Z →
  Z.to_nat n < fuel →
  wp (addaltsleep_loop fuel g m) (λ r s', r = (m + n)%Z ∧ ∃ t',
    s' = alt_filed g (g_usec v + n) v t' s ∧ altsleepers s' (SL.insert (altsleep_key s') g l)) s.
Proof.
  induction fuel as [|fuel IH]; intros n m v s Hs Hp Hv Ht Hfree Hn Hm Hk HU Hf; [lia|].
  assert (altsleep_key s g = g_usec v) as Hkey by (unfold altsleep_key; by rewrite Hv).
  simpl. apply wp_bind. eapply try_altsleep; [done|done|..]; rewrite Hkey.
  - intros x Hx. destruct (decide (n = 0)%Z) as [->|Hn0].
    { rewrite Z.add_0_r in Hfree. congruence. }
    rewrite (proj2 (Z.ltb_lt (m + 1) MAX_TRIES)) by lia. steps.
    assert (u64 (g_usec v + 1) = g_usec v + 1)%Z as -> by (apply Z.mod_small; lia).
    set (v1 := g_set_usec (g_usec v + 1) v). set (s1 := set_guards <[g := v1]> s).
    assert (∀ k, SL.lookup (altsleep_key s1) k l = SL.lookup (altsleep_key s) k l) as Hl1.
    { intros k. apply SL_lookup_ext. intros y Hy. apply altsleep_key_other. by intros ->. }
    eapply wp_mono.
    { apply (IH (n - 1)%Z (m + 1)%Z v1 s1); simpl; try lia; try done.
      - by apply altsleepers_bump.
      - by rewrite lookup_insert_eq.
      - intros i Hi. rewrite Hl1, <-Z.add_assoc. apply Ht. lia.
      - rewrite Hl1. replace (g_usec v + 1 + (n - 1))%Z with (g_usec v + n)%Z by lia. done. }
    intros r s' (-> & t' & -> & Hs'). split; [lia|]. exists t'. simpl in *.
    replace (g_usec v + 1 + (n - 1))%Z with (g_usec v + n)%Z in * by lia.
    assert (alt_filed g (g_usec v + n) v1 t' s1 = alt_filed g (g_usec v + n) v t' s) as <-; [|done].
    unfold alt_filed, s1. unfold set_guards, set_sched. simpl. by rewrite insert_insert_eq.
  - intros t' Hnone Hrep. apply wp_ret. destruct (decide (n = 0)%Z) as [->|Hn0].
    + rewrite !Z.add_0_r. split; [done|]. exists t'.
      assert (alt_filed g (g_usec v) v t' s
              = set_sched (λ c, s_set_altsleep (s_altsleep_num c) t' c) s) as ->; [|done].
      unfold alt_filed, set_guards, set_sched. simpl. destruct s, v; simpl in *. f_equal.
      rewrite insert_id; done.
    + destruct (Ht 0%Z) as [x Hx]; [lia|]. rewrite Z.add_0_r in Hx. congruence.
Qed.

(** ** The operations *)

(** The number of taken deadlines before a free one. *)
Lemma taken_unique key l k n m N :
  (n ≤ N + 1)%Z → (m ≤ N)%Z → (0 ≤ n)%Z → (0 ≤ m)%Z → taken key l k n → taken key l k m →
  ((n ≤ N)%Z → SL.lookup key (k + n) l = None) → SL.lookup key (k + m) l = None → n = m.
Proof.
  intros Hn Hm Hn0 Hm0 Htn Htm Hfn Hfm. destruct (Z.lt_trichotomy n m) as [Hlt|[->|Hlt]]; [|done|].
  - destruct (Htm n) as [x Hx]; [lia|]. rewrite Hfn in Hx; [done|lia].
  - destruct (Htn m) as [x Hx]; [lia|]. congruence.
Qed.

Lemma first_free key l k N :
  (0 ≤ N)%Z → taken key l k N ∨
  ∃ n, (0 ≤ n < N)%Z ∧ taken key l k n ∧ SL.lookup key (k + n) l = None.
Proof.
  revert N. refine (natlike_ind _ _ _); [left; intros i ?; lia|].
  intros N HN [Ht|(n & ? & ? & ?)]; [|right; exists n; split_and!; [lia..|done|done]].
  destruct (SL.lookup key (k + N) l) as [x|] eqn:Hx.
  - left. intros i Hi. destruct (decide (i = N)) as [->|]; [by rewrite Hx|]. apply Ht. lia.
  - right. exists N. split_and!; [lia..|done|done].
Qed.

(** [p] asleep until [k]. *)
Definition asleep (p : loc) (k : Z) (v : Proc) (t' : T) (s : St T) : St T :=
  set_sched (λ c, s_set_sleep (u64 (s_sleep_num c + 1)) t' c)
    (set_procs <[p := p_set_sleep k (p_set_state PROC_SLEEPING v)]> s).

(** A guard filed under the deadline [k]. *)
Definition timed (g : loc) (k : Z) (v : Guard) (t' : T) (s : St T) : St T :=
  set_sched (λ c, s_set_altsleep (u64 (s_altsleep_num c + 1)) t' c)
    (set_guards <[g := g_set_usec k v]> s).

Lemma addsleep_files p l v n s :
  sleepers s l → p ∉ l → procs s !! p = Some v → (0 < p_sleep_us v)%Z →
  taken (sleep_key s) l (p_sleep_us v) n → SL.lookup (sleep_key s) (p_sleep_us v + n) l = None →
  (0 ≤ n < MAX_TRIES ∨ (n = MAX_TRIES ∧ NDEBUG = true))%Z → (p_sleep_us v + n < U64)%Z →
  wp (scheduler_addsleep (Some p)) (λ _ s', ∃ t',
    s' = asleep p (p_sleep_us v + n) v t' s ∧ sleepers s' (SL.insert (sleep_key s') p l)) s.
Proof.
  intros Hs Hp Hv Hk Ht Hfree Hn HU. assert (0 ≤ n ≤ MAX_TRIES)%Z as Hn' by (destruct Hn as [?|[-> _]]; [lia|done]).
  unfold scheduler_addsleep. steps.
  rewrite (proj2 (Z.eqb_neq _ _)) by lia. steps.
  set (v1 := p_set_state PROC_SLEEPING v). set (s1 := set_procs <[p := v1]> s).
  assert (∀ k, SL.lookup (sleep_key s1) k l = SL.lookup (sleep_key s) k l) as Hl1.
  { intros k. apply SL_lookup_ext. intros y Hy. apply sleep_key_other. by intros ->. }
  eapply wp_mono.
  { apply (addsleep_loop_files p l tries_fuel n 0 v1 s1); simpl; try lia; try done.
    - by apply sleepers_bump.
    - by rewrite lookup_insert_eq.
    - intros i Hi. rewrite Hl1. by apply Ht.
    - by rewrite Hl1.
    - unfold tries_fuel, MAX_TRIES in *. lia. }
  intros r s' (-> & t' & -> & Hs'). steps. apply wp_ASSERT_ndebug; [destruct Hn as [?|[_ ?]]; [left; apply Z.ltb_lt; lia|by right]|].
  exists t'. split; [|exact Hs'].
  unfold asleep, filed, s1, set_sched, set_procs. simpl. by rewrite insert_insert_eq.
Qed.

(** With MAX_TRIES taken deadlines the loop counts up to MAX_TRIES at least. *)
Lemma addsleep_loop_max p l v s :
  sleepers s l → p ∉ l → procs s !! p = Some v → (0 < p_sleep_us v)%Z →
  taken (sleep_key s) l (p_sleep_us v) MAX_TRIES → (p_sleep_us v + MAX_TRIES < U64)%Z →
  wp (addsleep_loop tries_fuel p 0) (λ r _, MAX_TRIES ≤ r)%Z s.
Proof.
  intros Hs Hp Hv Hk Ht HU. assert (0 < MAX_TRIES)%Z as H0 by done.
  destruct (SL.lookup (sleep_key s) (p_sleep_us v + MAX_TRIES) l) as [x|] eqn:Hx.
  - eapply wp_mono; [apply (addsleep_loop_gives_up p l tries_fuel 0 v s)|];
      try done; try (unfold tries_fuel; lia).
    intros i Hi. destruct (decide (i = MAX_TRIES)) as [->|]; [by rewrite Hx|]. apply Ht. lia.
  - eapply wp_mono; [apply (addsleep_loop_files p l tries_fuel MAX_TRIES 0 v s)|];
      try done; unfold tries_fuel; lia.
Qed.

(** After more retries than the loop allows. *)
Lemma addsleep_aborts p l v s :
  sleepers s l → p ∉ l → procs s !! p = Some v → (0 < p_sleep_us v)%Z →
  taken (sleep_key s) l (p_sleep_us v) MAX_TRIES → (p_sleep_us v + MAX_TRIES < U64)%Z →
  NDEBUG = false → scheduler_addsleep (Some p) s = Abort.
Proof.
  intros Hs Hp Hv Hk Ht HU Hdbg. unfold scheduler_addsleep.
  set (v1 := p_set_state PROC_SLEEPING v). set (s1 := set_procs <[p := v1]> s).
  assert (wp (addsleep_loop tries_fuel p 0) (λ r _, MAX_TRIES ≤ r)%Z s1)
    as (r & s' & Hloop & Hr)%wp_ok.
  { eapply (addsleep_loop_max p l v1); try done.
    - by apply sleepers_bump.
    - simpl. by rewrite lookup_insert_eq.
    - intros i Hi. rewrite (SL_lookup_ext (sleep_key s)); [by apply Ht|].
      intros y Hy. apply sleep_key_other. by intros ->. }
  assert (getp p s = Ok v s) as Hgetp by (unfold getp, mbind, M_bind, get; by rewrite Hv).
  assert (modp p (p_set_state PROC_SLEEPING) s = Ok () s1) as Hmodp.
  { unfold modp. by rewrite (bind_ok _ _ _ _ _ Hgetp). }
  rewrite (bind_ok _ _ _ p s) by done. cbv beta. rewrite (bind_ok _ _ _ _ _ Hgetp).
  rewrite (proj2 (Z.eqb_neq _ _)) by lia. rewrite (bind_ok _ _ _ _ _ Hmodp).
  rewrite (bind_ok _ _ _ _ _ Hloop). unfold ASSERT.
  rewrite (bind_ok _ _ _ () (set_sched (λ c, s_set_sleep (u64 (s_sleep_num c + 1)) (s_sleep_RB c) c) s')) by done.
  rewrite (proj2 (Z.ltb_ge _ _)) by done. by rewrite Hdbg.
Qed.

Lemma addaltsleep_files g l v al a p w n s :
  altsleepers s l → g ∉ l → guards s !! g = Some v → (0 < g_usec v)%Z →
  g_alt v = Some al → alts s !! al = Some a → a_proc a = Some p → procs s !! p = Some w →
  taken (altsleep_key s) l (g_usec v) n → SL.lookup (altsleep_key s) (g_usec v + n) l = None →
  (0 ≤ n < MAX_TRIES)%Z → (g_usec v + n < U64)%Z →
  wp (scheduler_addaltsleep (Some g)) (λ _ s', ∃ t',
    s' = timed g (g_usec v + n) v t' s ∧ altsleepers s' (SL.insert (altsleep_key s') g l)) s.
Proof.
  intros Hs Hg Hv Hk Hal Ha Hap Hp Ht Hfree Hn HU. unfold scheduler_addaltsleep. steps.
  rewrite (proj2 (Z.eqb_neq _ _)) by lia. unfold guard_proc. steps.
  eapply wp_mono.
  { apply (addaltsleep_loop_files g l tries_fuel n 0 v s); try lia; try done.
    unfold tries_fuel, MAX_TRIES in *. lia. }
  intros r s' (-> & t' & -> & Hs'). step. apply wp_ASSERT; [apply Z.ltb_lt; lia|].
  apply wp_mods. exists t'. split; [done|exact Hs'].
Qed.

Lemma SL_remove_insert key (e : loc) l : e ∉ l → SL.remove e (SL.insert key e l) = l.
Proof.
  intros He. unfold SL.remove.
  assert (∀ l, e ∉ l → filter (.≠ e) l = l) as Hf.
  { induction l0 as [|y l0 IH]; intros Hn; [done|]. rewrite filter_cons_True by set_solver.
    f_equal. apply IH. set_solver. }
  induction l as [|x l IH]; simpl.
  - by rewrite filter_cons_False by naive_solver.
  - case_match.
    + rewrite filter_cons_False by naive_solver. by apply Hf.
    + rewrite filter_cons_True by set_solver. f_equal. apply IH. set_solver.
Qed.

Lemma remsleep_ok p l v s :
  sleepers s l → p ∈ l → procs s !! p = Some v →
  wp (scheduler_remsleep (Some p)) (λ _ s', ∃ t',
    s' = set_sched (λ c, s_set_sleep (u64 (s_sleep_num c + -1)) t' c) s ∧
    sleepers s' (SL.remove p l)) s.
Proof.
  intros Hs Hp Hv. unfold scheduler_remsleep. steps.
  eapply wp_on_sleep; [by apply st_remove_ok|]. intros o t' [-> Ht']. apply wp_mods.
  exists t'. done.
Qed.

Lemma addaltsleep_ok g l v al a p w s :
  altsleepers s l → g ∉ l → guards s !! g = Some v → (0 < g_usec v)%Z →
  g_alt v = Some al → alts s !! al = Some a → a_proc a = Some p → procs s !! p = Some w →
  (g_usec v + MAX_TRIES < U64)%Z → ¬ taken (altsleep_key s) l (g_usec v) MAX_TRIES →
  ∃ n, (0 ≤ n < MAX_TRIES)%Z ∧ taken (altsleep_key s) l (g_usec v) n ∧
    SL.lookup (altsleep_key s) (g_usec v + n) l = None ∧
    wp (scheduler_addaltsleep (Some g)) (λ _ s', ∃ t',
      s' = timed g (g_usec v + n) v t' s ∧
      altsleepers s' (SL.insert (altsleep_key s') g l)) s.
Proof.
  intros Hs Hg Hv Hk Hal Ha Hap Hp HU Hnt.
  destruct (first_free (altsleep_key s) l (g_usec v) MAX_TRIES)
    as [?|(n & Hn & Ht & Hfree)]; [done|done|].
  exists n. split_and!; [lia..|done|done|]. eapply addaltsleep_files; try done. lia.
Qed.

(** ** Properties *)

(** An addsleep with more than MAX_TRIES collisions loses the process in a
    build without assertions: it is marked PROC_SLEEPING and counted in sleep.num,
    but it is in no tree, so no wake-up will ever find it. *)
Lemma addsleep_ndebug_loses p l v s :
  sleepers s l → p ∉ l → procs s !! p = Some v →
  (0 < p_sleep_us v)%Z → (p_sleep_us v + MAX_TRIES < U64)%Z → NDEBUG = true →
  taken (sleep_key s) l (p_sleep_us v) (MAX_TRIES + 1) →
  wp (scheduler_addsleep (Some p)) (λ _ s',
    (p_state <$> procs s' !! p) = Some PROC_SLEEPING ∧ sleepers s' l ∧
    s_readyQ (sched s') = s_readyQ (sched s) ∧
    s_sleep_num (sched s') = u64 (s_sleep_num (sched s) + 1)) s.
Proof.
  intros Hs Hp Hv Hk HU Hdbg Ht. unfold scheduler_addsleep. steps.
  rewrite (proj2 (Z.eqb_neq _ _)) by lia. steps.
  set (v1 := p_set_state PROC_SLEEPING v). set (s1 := set_procs <[p := v1]> s).
  eapply wp_mono; [apply (addsleep_loop_gives_up p l tries_fuel 0 v1 s1)|].
  - by apply sleepers_bump.
  - done.
  - simpl. by rewrite lookup_insert_eq.
  - intros i Hi. rewrite (SL_lookup_ext (sleep_key s)); [apply Ht; lia|].
    intros y Hy. apply sleep_key_other. by intros ->.
  - unfold MAX_TRIES. lia.
  - simpl. lia.
  - simpl. lia.
  - unfold tries_fuel, MAX_TRIES. lia.
  - intros r s' [-> ->]. steps. unfold ASSERT. rewrite (proj2 (Z.ltb_ge _ _)) by lia.
    rewrite Hdbg. apply wp_ret. simpl. rewrite lookup_insert_eq. split_and!; try done.
    unfold s1. simpl. apply (sleepers_bump p _ (set_procs <[p:=v1]> s)); [|done].
    by apply sleepers_bump.
Qed.

(** C26: scheduler_addsleep always ends, in every build.  It files the process under
    the first deadline that no other sleeper uses, keeps the tree sorted, and counts the
    sleeper, when fewer than MAX_TRIES consecutive deadlines are taken.  With MAX_TRIES or
    more taken, a build with assertions stops the program.  A build without files the
    process when exactly MAX_TRIES are taken, and with more it loses it: the process is
    marked PROC_SLEEPING and counted, but it is in no tree, so no wake-up will find it. *)
Theorem addsleep_outcome p l v s :
  sleepers s l → p ∉ l → procs s !! p = Some v →
  (0 < p_sleep_us v)%Z → (p_sleep_us v + MAX_TRIES < U64)%Z →
  ∃ n, (0 ≤ n ≤ MAX_TRIES + 1)%Z ∧ taken (sleep_key s) l (p_sleep_us v) n ∧
    ((n ≤ MAX_TRIES)%Z → SL.lookup (sleep_key s) (p_sleep_us v + n) l = None) ∧
    if (n <? MAX_TRIES)%Z || (NDEBUG && (n =? MAX_TRIES)%Z) then
      wp (scheduler_addsleep (Some p)) (λ _ s', ∃ t',
        s' = asleep p (p_sleep_us v + n) v t' s ∧ sleepers s' (SL.insert (sleep_key s') p l)) s
    else if NDEBUG then
      wp (scheduler_addsleep (Some p)) (λ _ s',
        (p_state <$> procs s' !! p) = Some PROC_SLEEPING ∧ sleepers s' l ∧
        s_readyQ (sched s') = s_readyQ (sched s) ∧
        s_sleep_num (sched s') = u64 (s_sleep_num (sched s) + 1)) s
    else scheduler_addsleep (Some p) s = Abort.
Proof.
  intros Hs Hp Hv Hk HU.
  destruct (first_free (sleep_key s) l (p_sleep_us v) (MAX_TRIES + 1))
    as [Ht|(n & Hn & Ht & Hfree)]; [done| |].
  - exists (MAX_TRIES + 1)%Z. split; [done|]. split; [done|]. split; [lia|].
    rewrite (proj2 (Z.ltb_ge _ _)), (proj2 (Z.eqb_neq _ _)), andb_false_r by lia. simpl.
    destruct NDEBUG eqn:Hdbg; [by eapply addsleep_ndebug_loses|]. eapply addsleep_aborts; try done.
    intros i Hi. apply Ht. lia.
  - exists n. split; [lia|]. split; [done|]. split; [done|].
    destruct (Z.ltb_spec n MAX_TRIES); simpl; [eapply addsleep_files; try done; lia|].
    assert (n = MAX_TRIES) as -> by lia. rewrite Z.eqb_refl, andb_true_r.
    destruct NDEBUG eqn:Hdbg; [eapply addsleep_files; try done; by right|]. by eapply addsleep_aborts.
Qed.

(** scheduler_addaltsleep likewise files the deadline of a time guard under the
    first free microsecond, in the tree of guards. *)
Theorem addaltsleep_outcome g l v al a p w s :
  altsleepers s l → g ∉ l → guards s !! g = Some v → (0 < g_usec v)%Z →
  g_alt v = Some al → alts s !! al = Some a → a_proc a = Some p → procs s !! p = Some w →
  (g_usec v + MAX_TRIES < U64)%Z → ¬ taken (altsleep_key s) l (g_usec v) MAX_TRIES →
  ∃ n, (0 ≤ n < MAX_TRIES)%Z ∧ taken (altsleep_key s) l (g_usec v) n ∧
    SL.lookup (altsleep_key s) (g_usec v + n) l = None ∧
    wp (scheduler_addaltsleep (Some g)) (λ _ s', ∃ t',
      s' = timed g (g_usec v + n) v t' s ∧
      altsleepers s' (SL.insert (altsleep_key s') g l)) s.
Proof. apply addaltsleep_ok. Qed.

(** Scheduler_remsleep undoes scheduler_addsleep: the tree holds the sleepers it
    held before, and sleep.num is back. *)
Theorem addsleep_remsleep p l v s n :
  sleepers s l → p ∉ l → procs s !! p = Some v → (0 < p_sleep_us v)%Z →
  (p_sleep_us v + MAX_TRIES < U64)%Z → s_sleep_num (sched s) = n → (0 ≤ n < U64)%Z →
  ¬ taken (sleep_key s) l (p_sleep_us v) MAX_TRIES →
  wp (scheduler_addsleep (Some p) ;; scheduler_remsleep (Some p))
    (λ _ s', sleepers s' l ∧ s_sleep_num (sched s') = n ∧
      s_readyQ (sched s') = s_readyQ (sched s)) s.
Proof.
  intros Hs Hp Hv Hk HU Hnum Hn Hnt.
  destruct (first_free (sleep_key s) l (p_sleep_us v) MAX_TRIES)
    as [?|(i & Hi & Ht & Hfree)]; [done|done|].
  apply wp_bind. eapply wp_mono; [by eapply addsleep_files; try done; lia|].
  intros [] s1 (t' & -> & Hs1). eapply wp_mono.
  { eapply remsleep_ok; [exact Hs1|by apply SL_insert_elem; left|].
    simpl. by rewrite lookup_insert_eq. }
  intros [] s2 (t2 & -> & Hs2). rewrite SL_remove_insert in Hs2 by done.
  split_and!; [done| |done]. simpl. unfold u64, U64 in *. rewrite Zplus_mod_idemp_l, Hnum.
  rewrite <-Z.add_assoc, Z.add_0_r. by apply Z.mod_small.
Qed.
End sleep_spec.

(** ** Witnesses *)

(** Process 3 goes to sleep until 50, which the sleepers 1 and 2 make 52. *)
Definition demo_sleepers : St rb_tree :=
  demo_state
    (<[1%positive := p_set_sleep 50 (demo_proc PROC_SLEEPING)]> $
     <[2%positive := p_set_sleep 51 (demo_proc PROC_SLEEPING)]> $
     <[3%positive := p_set_sleep 50 (demo_proc PROC_RUNNING)]> ∅) ∅ (Some 3%positive).

(** The tree of two sleepers, built by RB_INSERT. *)
Definition demo_two : rb_tree :=
  match (RB_INSERT (sleep_key demo_sleepers) 1 ;; RB_INSERT (sleep_key demo_sleepers) 2) rb_init with
  | Ok _ t => t
  | _ => rb_init
  end.

Definition demo_asleep : St rb_tree :=
  set_sched (λ c, s_set_sleep 2 demo_two c) demo_sleepers.

Lemma demo_asleep_rep : sleepers demo_asleep [1; 2]%positive.
Proof.
  assert (wp (st_insert (sleep_key demo_sleepers) 1 ;; st_insert (sleep_key demo_sleepers) 2)
    (λ _ t, st_rep (sleep_key demo_sleepers) t [1; 2]%positive) rb_init) as H.
  { apply wp_bind. eapply wp_mono; [apply (st_insert_ok (T := rb_tree)); [exact (@st_init_ok rb_tree rb_SleepTree _)|apply not_elem_of_nil]|].
    intros o t [-> Ht]. eapply wp_mono; [apply (st_insert_ok (T := rb_tree)); [exact Ht|by apply (bool_decide_unpack _)]|].
    intros o t' [-> Ht']. exact Ht'. }
  exact H.
Qed.

Lemma demo_taken : taken (sleep_key demo_asleep) [1; 2]%positive 50 2.
Proof.
  intros i Hi. assert (i = 0 ∨ i = 1)%Z as [-> | ->] by lia; by eexists.
Qed.

Lemma demo_not_taken : ¬ taken (sleep_key demo_asleep) [1; 2]%positive 50 MAX_TRIES.
Proof. intros H. destruct (H 2%Z) as [x Hx]; [done|]. by vm_compute in Hx. Qed.

Lemma addsleep_remsleep_witness :
  wp (scheduler_addsleep (E := demo_env) (Some 3%positive) ;; scheduler_remsleep (E := demo_env) (Some 3%positive))
    (λ _ s', sleepers s' [1; 2]%positive ∧ s_sleep_num (sched s') = 2%Z ∧
      s_readyQ (sched s') = s_readyQ (sched demo_asleep)) demo_asleep.
Proof.
  apply (addsleep_remsleep (E := demo_env) 3 [1; 2]%positive (p_set_sleep 50 (demo_proc PROC_RUNNING))
    demo_asleep 2);
    [apply demo_asleep_rep|by apply (bool_decide_unpack _)|done..|apply demo_not_taken].
Defined.

(** A thousand and one sleepers from 100 on, in the reference trees; process 2000
    wants to wake at 100 too. *)
Definition crowd : list loc := (λ n, Pos.of_nat (100 + n)) <$> seq 0 1001.

Definition demo_crowd : St (list loc) :=
  MkSt
    (<[2000%positive := p_set_sleep 100 (demo_proc PROC_RUNNING)]>
      (list_to_map ((λ p, (p, p_set_sleep (Z.pos p) (demo_proc PROC_SLEEPING))) <$> crowd)))
    ∅ ∅ ∅ ∅ ∅ (MkSched 8192 4096 false None None [] [] 1001 crowd 0 []) ∅ 3000 0 0 0 0 [] 0.

Definition ndebug_env : Env := {|
  NDEBUG := true; timeofday _ := (0, 0)%Z; rand_at _ := 0%Z; malloc_ok _ := true;
  pagesize := 4096; memalign_at _ := 0%Z; madvise_ret _ := 0%Z; stack_depth _ := 0%Z
|}.

Lemma crowd_keys : forallb (λ x, bool_decide (sleep_key demo_crowd x = Z.pos x)) crowd = true.
Proof. by vm_compute. Qed.

Lemma crowd_key x : x ∈ crowd → sleep_key demo_crowd x = Z.pos x.
Proof.
  intros Hx%list_elem_of_In. eapply bool_decide_eq_true.
  exact (proj1 (forallb_forall _ _) crowd_keys x Hx).
Qed.

Lemma seq_sorted : ∀ n a, key_sorted Z.pos ((λ i, Pos.of_nat (100 + i)) <$> seq a n).
Proof.
  induction n as [|n IH]; intros a; [constructor|]. simpl seq. rewrite fmap_cons.
  apply key_sorted_cons. split; [apply IH|].
  intros y (i & -> & Hi)%list_elem_of_fmap. apply elem_of_seq in Hi. lia.
Qed.

Lemma demo_crowd_rep : sleepers demo_crowd crowd.
Proof.
  split; [done|]. eapply key_sorted_ext; [|apply (seq_sorted 1001 0)].
  intros x Hx. by apply crowd_key.
Qed.

Lemma demo_crowd_taken n : (n ≤ 1001)%Z → taken (sleep_key demo_crowd) crowd 100 n.
Proof.
  intros Hn i Hi. destruct demo_crowd_rep as [_ Hs].
  assert (Z.to_pos (100 + i) ∈ crowd) as Hx.
  { unfold crowd. apply list_elem_of_fmap. exists (Z.to_nat i). split; [lia|].
    apply elem_of_seq. lia. }
  exists (Z.to_pos (100 + i)). apply SL_lookup_found; [done|done|].
  rewrite crowd_key by done. lia.
Qed.

Lemma demo_crowd_free : 2000%positive ∉ crowd.
Proof. unfold crowd. intros (i & Hi & Hin)%list_elem_of_fmap. apply elem_of_seq in Hin. lia. Qed.

(** Process 3 finds a free deadline in the first store; in the second, process 2000
    finds none and a build without assertions loses it. *)
Lemma addsleep_outcome_witness :
  wp (scheduler_addsleep (E := demo_env) (Some 3%positive)) (λ _ s', ∃ t',
    s' = asleep 3 52 (p_set_sleep 50 (demo_proc PROC_RUNNING)) t' demo_asleep ∧
    sleepers s' (SL.insert (sleep_key s') 3 [1; 2]%positive)) demo_asleep ∧
  wp (scheduler_addsleep (E := ndebug_env) (Some 2000%positive)) (λ _ s',
    (p_state <$> procs s' !! 2000%positive) = Some PROC_SLEEPING ∧ sleepers s' crowd ∧
    s_readyQ (sched s') = s_readyQ (sched demo_crowd) ∧
    s_sleep_num (sched s') = u64 (s_sleep_num (sched demo_crowd) + 1)) demo_crowd.
Proof.
  split.
  - destruct (addsleep_outcome (E := demo_env) 3 [1; 2]%positive (p_set_sleep 50 (demo_proc PROC_RUNNING)) demo_asleep)
      as (n & Hn & Ht & Hfree & H);
      [apply demo_asleep_rep|by apply (bool_decide_unpack _)|done..|].
    assert (n = 2)%Z as ->; [|exact H].
    apply (taken_unique (sleep_key demo_asleep) [1; 2]%positive 50 n 2 MAX_TRIES);
      [apply Hn|done|apply Hn|done|exact Ht|apply demo_taken|exact Hfree|by vm_compute].
  - destruct (addsleep_outcome (E := ndebug_env) 2000 crowd (p_set_sleep 100 (demo_proc PROC_RUNNING)) demo_crowd)
      as (n & Hn & Ht & Hfree & H);
      [apply demo_crowd_rep|apply demo_crowd_free|reflexivity..|].
    assert (n = MAX_TRIES + 1)%Z as ->; [|exact H].
    destruct (decide (n ≤ MAX_TRIES)%Z) as [Hle|]; [|lia].
    destruct (demo_crowd_taken (n + 1) ltac:(unfold MAX_TRIES in *; lia) n ltac:(lia)) as [x Hx].
    pose proof (Hfree Hle) as Hnone. change (p_sleep_us _) with 100%Z in Hnone. congruence.
Defined.

(** Guard 5 of the ALT of process 3 times out at 7; guard 4 already does. *)
Definition demo_guard (us : Z) : Guard := MkGuard GUARD_TIME 0 (Some 9%positive) us None 6 0 0 false.

Definition demo_timed : St (list loc) :=
  MkSt (<[3%positive := demo_proc PROC_RUNNING]> ∅) ∅ ∅
    (<[4%positive := demo_guard 7]> $ <[5%positive := demo_guard 7]> ∅)
    (<[9%positive := MkAlt 2 false None None 2 [4; 5]%positive None None (Some 3%positive)]> ∅) ∅
    (MkSched 8192 4096 false None (Some 3%positive) [3%positive] [] 0 [] 1 [4%positive]) ∅ 100 0 0 0 0 [] 0.

Lemma addaltsleep_outcome_witness :
  ∃ n, (0 ≤ n < MAX_TRIES)%Z ∧ taken (altsleep_key demo_timed) [4%positive] 7 n ∧
    SL.lookup (altsleep_key demo_timed) (7 + n) [4%positive] = None ∧
    wp (scheduler_addaltsleep (E := demo_env) (Some 5%positive)) (λ _ s', ∃ t',
      s' = timed 5 (7 + n) (demo_guard 7) t' demo_timed ∧
      altsleepers s' (SL.insert (altsleep_key s') 5 [4%positive])) demo_timed.
Proof.
  apply (addaltsleep_outcome (E := demo_env) 5 [4%positive] (demo_guard 7) 9
    (MkAlt 2 false None None 2 [4; 5]%positive None None (Some 3%positive)) 3 (demo_proc PROC_RUNNING));
    try reflexivity.
  - split; [done|]. apply key_sorted_cons. split; [constructor|]. by intros y ?%not_elem_of_nil.
  - by apply (bool_decide_unpack _).
  - intros H. destruct (H 1%Z) as [x Hx]; [done|]. by vm_compute in Hx.
Defined.
