(* ===== verification/Csp.v ===== *)
(** * The build trees of PROC, PAR and SEQ: csp.c

    A builder is allocated by [csp_create], collects children with
    [csp_insertchilds], is started by [csp_runbuild], and is told by
    [csp_parsebuild] that one of its children is done; the root frees the whole
    tree with [csp_cleanupbuild]. *)
From stdpp Require Import base tactics list gmap.
From Stdlib Require Import ZArith Lia.
From S2P Require Import Prelude Tailq Rbtree RbInsert RbSpec State SchedOps.

(** A variadic pointer argument: NULL, PROXC_NULL, or an object. *)
Inductive varg := VNull | VSentinel | VPtr (l : loc).

Section csp.
Context {T : Type} {TT : SleepTree T} {E : Env}.
Abbreviation M := (M (St T)).

Definition live_builds : M (loc → bool) := get (λ s, live_in (builds s)).

(** The fields behind the header are not initialised here. *)
Definition csp_create (type : BuildType) : M (option loc) :=
  o ← malloc;
  match o with
  | None => mret None
  | Some b =>
      putb b (MkBuilder None false None
        match type with
        | PROC_BUILD => ProcBuild None
        | PAR_BUILD => ParBuild 0 []
        | SEQ_BUILD => SeqBuild 0 None []
        end) ;;
      mret (Some b)
  end.

Definition csp_free (build : option loc) : M () :=
  match build with
  | None => mret ()
  | Some b => getb b ;; modify (set_builds (delete b))
  end.

(** [num_childs] and [childQ] of the builder, read and written together. *)
Definition childs_of (b : Builder) : option (Z * list loc) :=
  match b_body b with
  | ProcBuild _ => None
  | ParBuild n q | SeqBuild n _ q => Some (n, q)
  end.

Definition with_childs (n : Z) (q : list loc) (b : Builder) : Builder :=
  b_set_body
    match b_body b with
    | ProcBuild p => ProcBuild p
    | ParBuild _ _ => ParBuild n q
    | SeqBuild _ c _ => SeqBuild n c q
    end b.

(** The list node of a child that already has a parent is in use: inserting
    it again would break the other queue. *)
Fixpoint csp_insertchilds (builder : loc) (vargs : list varg) : M Z :=
  match vargs with
  | [] => undef
  | VSentinel :: _ => mret 0%Z
  | VNull :: _ => modify (set_errno EPERM) ;; mret 0%Z
  | VPtr child :: vargs =>
      c ← getb child;
      when (bool_decide (is_Some (b_parent c))) undef ;;
      putb child (b_set_parent (Some builder) c) ;;
      b ← getb builder;
      '(n, q) ← deref (childs_of b);
      live ← live_builds;
      q' ← TQ_INSERT_TAIL live q child;
      putb builder (with_childs (u64 (n + 1)) q' b) ;;
      csp_insertchilds builder vargs
  end.

(** The fuel bounds the depth of the tree. *)
Fixpoint csp_runbuild (fuel : nat) (build : option loc) : M () :=
  match fuel with
  | O => diverge
  | S fuel =>
      b ← deref build;
      v ← getb b;
      match b_body v with
      | ProcBuild proc => scheduler_addready proc
      | ParBuild _ childQ => for_each (λ child, csp_runbuild fuel (Some child)) childQ
      | SeqBuild _ curr_build _ => csp_runbuild fuel curr_build
      end
  end.

(** [while (!TAILQ_EMPTY(&childQ)) { .. TAILQ_REMOVE .. cleanup(child) }];
    [n] bounds the number of children. *)
Fixpoint cleanup_childs (n : nat) (cleanup : loc → M ()) (b : loc) : M () :=
  match n with
  | O => diverge
  | S n =>
      v ← getb b;
      '(num, q) ← deref (childs_of v);
      match q with
      | [] => mret ()
      | child :: _ =>
          live ← live_builds;
          q' ← TQ_REMOVE live q child;
          putb b (with_childs num q' v) ;;
          cleanup child ;;
          cleanup_childs n cleanup b
      end
  end.

Fixpoint csp_cleanupbuild (fuel : nat) (build : option loc) : M () :=
  match fuel with
  | O => diverge
  | S fuel' =>
      b ← notnull build;
      v ← getb b;
      match b_body v with
      | ProcBuild _ => mret ()
      | ParBuild _ q | SeqBuild _ _ q =>
          cleanup_childs (S (length q)) (λ child, csp_cleanupbuild fuel' (Some child)) b
      end ;;
      csp_free (Some b)
  end.

(** Enough for any tree of the store. *)
Definition build_fuel : M nat := get (λ s, S (size (builds s))).

Definition csp_finish_root (b : loc) (v : Builder) : M () :=
  match b_run_proc v with
  | Some p => scheduler_addready (Some p)
  | None => mret ()
  end ;;
  fuel ← build_fuel;
  csp_cleanupbuild fuel (Some b).

(** Whether the build is done; the SEQ case starts the next child. *)
Definition csp_child_done (b : loc) (v : Builder) : M bool :=
  match b_body v with
  | ProcBuild _ => mret true
  | ParBuild n q =>
      let n := u64 (n - 1) in
      putb b (b_set_body (ParBuild n q) v) ;;
      mret (n =? 0)%Z
  | SeqBuild n curr q =>
      let n := u64 (n - 1) in
      putb b (b_set_body (SeqBuild n curr q) v) ;;
      if (n =? 0)%Z then mret true else
      c ← deref curr;
      getb c ;;
      ASSERT (bool_decide (is_Some (Q.next q c))) ;;
      fuel ← build_fuel;
      csp_runbuild fuel (Q.next q c) ;;
      putb b (b_set_body (SeqBuild n (Q.next q c) q) v) ;;
      mret false
  end.

(** The fuel bounds the length of the chain of parents. *)
Fixpoint csp_parsebuild (fuel : nat) (build : option loc) : M () :=
  match fuel with
  | O => diverge
  | S fuel =>
      b ← notnull build;
      v ← getb b;
      build_done ← csp_child_done b v;
      if build_done : bool then
        if b_is_root v then csp_finish_root b v
        else csp_parsebuild fuel (b_parent v)
      else mret ()
  end.
End csp.
