(* ===== verification/BuildTree.v ===== *)
(** * Abstract build trees

    What a PAR/SEQ tree promises: which processes are running, what the end of
    one of them starts, and when the tree is done.  [CspSpec] shows that csp.c
    implements it. *)
From stdpp Require Import base tactics list gmap.
From Stdlib Require Import ZArith Lia.
From S2P Require Import Prelude.

(** [Leaf b p d]: the builder [b] of process [p], which has ended iff [d]. *)
Inductive btree :=
| Leaf (b p : loc) (d : bool)
| Par (b : loc) (ts : list btree)
| Seq (b : loc) (ts : list btree).

Section btree_ind.
Variable P : btree → Prop.
Hypothesis HLeaf : ∀ b p d, P (Leaf b p d).
Hypothesis HPar : ∀ b ts, Forall P ts → P (Par b ts).
Hypothesis HSeq : ∀ b ts, Forall P ts → P (Seq b ts).

Fixpoint btree_ind' (t : btree) : P t :=
  let fix go ts : Forall P ts :=
    match ts with
    | [] => Forall_nil_2 P
    | t :: ts => Forall_cons_2 P t ts (btree_ind' t) (go ts)
    end in
  match t with
  | Leaf b p d => HLeaf b p d
  | Par b ts => HPar b ts (go ts)
  | Seq b ts => HSeq b ts (go ts)
  end.
End btree_ind.

Definition root (t : btree) : loc :=
  match t with Leaf b _ _ | Par b _ | Seq b _ => b end.

Fixpoint nodes (t : btree) : list loc :=
  match t with
  | Leaf b _ _ => [b]
  | Par b ts | Seq b ts => b :: flat_map nodes ts
  end.

Fixpoint height (t : btree) : nat :=
  match t with
  | Leaf _ _ _ => 1
  | Par _ ts | Seq _ ts => S (list_max (map height ts))
  end.

(** The processes of the leaves, in order. *)
Fixpoint leaves (t : btree) : list loc :=
  match t with
  | Leaf _ p _ => [p]
  | Par _ ts | Seq _ ts => flat_map leaves ts
  end.

Fixpoint done (t : btree) : bool :=
  match t with
  | Leaf _ _ d => d
  | Par _ ts | Seq _ ts => forallb done ts
  end.

Fixpoint fresh (t : btree) : bool :=
  match t with
  | Leaf _ _ d => negb d
  | Par _ ts | Seq _ ts => forallb fresh ts
  end.

Definition nonempty {A} (l : list A) : bool := match l with [] => false | _ => true end.

(** The children of a SEQ after the first unfinished one have not started. *)
Fixpoint seq_ok (ts : list btree) : bool :=
  match ts with
  | [] => true
  | t :: ts => if done t then seq_ok ts else forallb fresh ts
  end.

Fixpoint wf (t : btree) : bool :=
  match t with
  | Leaf _ _ _ => true
  | Par _ ts => nonempty ts && forallb wf ts
  | Seq _ ts => nonempty ts && seq_ok ts && forallb wf ts
  end.

(** The running processes: those of a PAR all together, those of a SEQ one
    child at a time. *)
Fixpoint active (t : btree) : list loc :=
  match t with
  | Leaf _ p d => if d then [] else [p]
  | Par _ ts => flat_map active ts
  | Seq _ ts =>
      (fix go ts := match ts with
                    | [] => []
                    | t :: ts => if done t then go ts else active t
                    end) ts
  end.

Definition seq_active (ts : list btree) : list loc := active (Seq 1 ts).

(** What runs once [ts] is next in a SEQ. *)
Definition first_active (ts : list btree) : list loc :=
  match ts with [] => [] | n :: _ => active n end.

(** The end of the process of leaf [b]: the new tree, and the processes started. *)
Fixpoint complete (b : loc) (t : btree) : option (btree * list loc) :=
  match t with
  | Leaf b' p d => if bool_decide (b = b') && negb d then Some (Leaf b' p true, []) else None
  | Par b' ts =>
      (fix go ts := match ts with
                    | [] => None
                    | t :: ts =>
                        match complete b t with
                        | Some (t', st) => Some (t' :: ts, st)
                        | None => '(ts', st) ← go ts; Some (t :: ts', st)
                        end
                    end) ts ≫= λ r, Some (Par b' (fst r), snd r)
  | Seq b' ts =>
      (fix go ts := match ts with
                    | [] => None
                    | t :: ts =>
                        if done t then '(ts', st) ← go ts; Some (t :: ts', st)
                        else
                          '(t', st) ← complete b t;
                          Some (t' :: ts, if done t' then first_active ts else st)
                    end) ts ≫= λ r, Some (Seq b' (fst r), snd r)
  end.

(** The unfinished leaves. *)
Fixpoint pending (t : btree) : nat :=
  match t with
  | Leaf _ _ d => if d then 0 else 1
  | Par _ ts | Seq _ ts => sum_list_with pending ts
  end.

Definition unfinished (ts : list btree) : nat := length (filter (λ t, done t = false) ts).

(** The child of a SEQ that [curr_build] points to. *)
Fixpoint current (ts : list btree) : option btree :=
  match ts with
  | [] => None
  | t :: ts => if done t then (match ts with [] => Some t | _ => current ts end) else Some t
  end.

(** The whole run of a tree: leaves end one after the other. *)
Fixpoint complete_all (bs : list loc) (t : btree) : option (btree * list loc) :=
  match bs with
  | [] => Some (t, [])
  | b :: bs =>
      '(t1, st1) ← complete b t;
      '(t2, st2) ← complete_all bs t1;
      Some (t2, st1 ++ st2)
  end.

(** ** Completion by cases *)

Lemma complete_par b b' ts t' st :
  complete b (Par b' ts) = Some (t', st) →
  ∃ l c r c', ts = l ++ c :: r ∧ complete b c = Some (c', st) ∧ t' = Par b' (l ++ c' :: r).
Proof.
  simpl. intros ((ts'&sts) & H & [= <- <-])%bind_Some. simpl in *.
  revert ts' H. induction ts as [|t ts IH]; intros ts' H; [done|].
  destruct (complete b t) as [[c' st']|] eqn:Hc.
  - simplify_eq. by exists [], t, ts, c'.
  - apply bind_Some in H as ((ts1&sts1) & Hg & ?). simplify_eq.
    destruct (IH _ Hg) as (l & c & r & c' & -> & ? & [= ->]).
    by exists (t :: l), c, r, c'.
Qed.

Lemma complete_seq b b' ts t' st :
  complete b (Seq b' ts) = Some (t', st) →
  ∃ l c r c' st0, ts = l ++ c :: r ∧ Forall (λ t, done t = true) l ∧ done c = false ∧
    complete b c = Some (c', st0) ∧ t' = Seq b' (l ++ c' :: r) ∧
    st = if done c' then first_active r else st0.
Proof.
  simpl. intros ((ts'&sts) & H & [= <- <-])%bind_Some. simpl in *.
  revert ts' H. induction ts as [|t ts IH]; intros ts' H; [done|].
  destruct (done t) eqn:Hd.
  - apply bind_Some in H as ((ts1&sts1) & Hg & ?). simplify_eq.
    destruct (IH _ Hg) as (l & c & r & c' & st0 & -> & ? & ? & ? & [= ->] & ->).
    exists (t :: l), c, r, c', st0. eauto 10.
  - apply bind_Some in H as ((c'&st0) & Hc & ?). simplify_eq.
    exists [], t, ts, c', st0. eauto 10.
Qed.

Lemma forallb_middle (f : btree → bool) l c r :
  forallb f (l ++ c :: r) = forallb f l && f c && forallb f r.
Proof. rewrite forallb_app. simpl. by rewrite andb_assoc. Qed.

Lemma nonempty_middle {A} (l : list A) c r : nonempty (l ++ c :: r) = true.
Proof. by destruct l. Qed.

Lemma forallb_done l : Forall (λ t, done t = true) l → forallb done l = true.
Proof. induction 1 as [|t l Ht _ IH]; [done|]. simpl. by rewrite Ht. Qed.

Lemma seq_ok_middle l c r :
  Forall (λ t, done t = true) l →
  seq_ok (l ++ c :: r) = if done c then seq_ok r else forallb fresh r.
Proof. induction 1 as [|t l Ht _ IH]; [done|]. simpl. by rewrite Ht. Qed.

Lemma fresh_not_done t : wf t = true → fresh t = true → done t = false.
Proof.
  induction t as [b p []|b ts IH|b ts IH] using btree_ind'; simpl; try done;
    intros Hwf Hf; destruct ts as [|t ts]; try done; simpl in *;
    apply Forall_cons in IH as [IH _];
    repeat match goal with H : _ && _ = true |- _ => apply andb_true_iff in H as [??] end;
    rewrite IH; done.
Qed.

Lemma fresh_seq_ok ts : forallb fresh ts = true → forallb wf ts = true → seq_ok ts = true.
Proof.
  destruct ts as [|t ts]; [done|]. simpl. intros [Hf Hfs]%andb_true_iff [Hw _]%andb_true_iff.
  by rewrite fresh_not_done.
Qed.

(** ** Invariants of a run *)

Ltac split_andb :=
  repeat match goal with H : _ && _ = true |- _ => apply andb_true_iff in H as [? ?] end.

Lemma complete_root b t t' st : complete b t = Some (t', st) → root t' = root t.
Proof.
  destruct t.
  - simpl. case_match; naive_solver.
  - intros H%complete_par. naive_solver.
  - intros H%complete_seq. naive_solver.
Qed.

Lemma complete_nodes b t : ∀ t' st,
  complete b t = Some (t', st) → nodes t' = nodes t ∧ leaves t' = leaves t.
Proof.
  induction t as [b' p d|b' ts IH|b' ts IH] using btree_ind'; intros t' st H.
  - simpl in H. case_match; by simplify_eq.
  - apply complete_par in H as (l & c & r & c' & -> & Hc & ->).
    apply Forall_app in IH as [_ IH]. apply Forall_cons in IH as [IH _].
    apply IH in Hc as [Hn Hl]. simpl. rewrite !flat_map_app. simpl. by rewrite Hn, Hl.
  - apply complete_seq in H as (l & c & r & c' & st0 & -> & _ & _ & Hc & -> & _).
    apply Forall_app in IH as [_ IH]. apply Forall_cons in IH as [IH _].
    apply IH in Hc as [Hn Hl]. simpl. rewrite !flat_map_app. simpl. by rewrite Hn, Hl.
Qed.

Lemma complete_wf b t : ∀ t' st, wf t = true → complete b t = Some (t', st) → wf t' = true.
Proof.
  induction t as [b' p d|b' ts IH|b' ts IH] using btree_ind'; intros t' st Hwf H.
  - simpl in H. case_match; by simplify_eq.
  - apply complete_par in H as (l & c & r & c' & -> & Hc & ->).
    apply Forall_app in IH as [_ IH]. apply Forall_cons in IH as [IH _].
    simpl in *. rewrite nonempty_middle, forallb_middle in *. split_andb.
    repeat (apply andb_true_iff; split); eauto.
  - apply complete_seq in H as (l & c & r & c' & st0 & -> & Hl & Hd & Hc & -> & _).
    apply Forall_app in IH as [_ IH]. apply Forall_cons in IH as [IH _].
    simpl in *. rewrite nonempty_middle, forallb_middle, seq_ok_middle in * by done.
    rewrite Hd in Hwf. split_andb.
    repeat (apply andb_true_iff; split); eauto. destruct (done c'); [|done].
    by apply fresh_seq_ok.
Qed.

Lemma pending_app l c r :
  sum_list_with pending (l ++ c :: r) = sum_list_with pending l + pending c + sum_list_with pending r.
Proof. rewrite sum_list_with_app. simpl. lia. Qed.

Lemma complete_pending b t : ∀ t' st,
  complete b t = Some (t', st) → pending t = S (pending t').
Proof.
  induction t as [b' p d|b' ts IH|b' ts IH] using btree_ind'; intros t' st H.
  - simpl in H. destruct d; rewrite ?andb_false_r in H; [done|]. case_match; by simplify_eq.
  - apply complete_par in H as (l & c & r & c' & -> & Hc & ->).
    apply Forall_app in IH as [_ IH]. apply Forall_cons in IH as [IH _].
    apply IH in Hc. simpl. rewrite !pending_app. lia.
  - apply complete_seq in H as (l & c & r & c' & st0 & -> & _ & _ & Hc & -> & _).
    apply Forall_app in IH as [_ IH]. apply Forall_cons in IH as [IH _].
    apply IH in Hc. simpl. rewrite !pending_app. lia.
Qed.

Lemma done_pending t : done t = true ↔ pending t = 0.
Proof.
  assert (∀ ts, Forall (λ u, done u = true ↔ pending u = 0) ts →
    forallb done ts = true ↔ sum_list_with pending ts = 0) as Hts.
  { induction 1 as [|u ts H _ IH]; simpl; [done|].
    rewrite andb_true_iff, H, IH. lia. }
  induction t as [b p []|b ts IH|b ts IH] using btree_ind'; simpl; [naive_solver..|auto|auto].
Qed.

Lemma seq_active_middle b l c r :
  Forall (λ t, done t = true) l → done c = false → active (Seq b (l ++ c :: r)) = active c.
Proof. induction 1 as [|t l Ht _ IH]; intros Hc; simpl; [by rewrite Hc|]. rewrite Ht. by apply IH. Qed.

Lemma first_not_done ts :
  forallb done ts = false →
  ∃ l c r, ts = l ++ c :: r ∧ Forall (λ t, done t = true) l ∧ done c = false.
Proof.
  induction ts as [|t ts IH]; [done|]. simpl. destruct (done t) eqn:Ht; simpl.
  - intros (l & c & r & -> & ? & ?)%IH. exists (t :: l), c, r. auto.
  - intros _. by exists [], t, ts.
Qed.

Lemma active_not_done t : wf t = true → done t = false → active t ≠ [].
Proof.
  induction t as [b p []|b ts IH|b ts IH] using btree_ind'; simpl; [done..| |];
    intros Hwf (l & c & r & -> & Hl & Hc)%first_not_done;
    apply Forall_app in IH as [_ IH]; apply Forall_cons in IH as [IH _].
  - rewrite nonempty_middle, forallb_middle in Hwf. split_andb.
    rewrite flat_map_app. simpl. intros [_ [? _]%app_eq_nil]%app_eq_nil. by apply IH.
  - rewrite nonempty_middle, forallb_middle in Hwf. split_andb.
    change (active (Seq b (l ++ c :: r)) ≠ []). rewrite seq_active_middle by done. by apply IH.
Qed.

Lemma done_active t : done t = true → active t = [].
Proof.
  induction t as [b p []|b ts IH|b ts IH] using btree_ind'; simpl; try done;
    induction IH as [|t' ts Ht _ IHts]; simpl; try done; intros [Hd Hds]%andb_true_iff.
  - by rewrite Ht, IHts.
  - rewrite Hd. by apply IHts.
Qed.

Lemma seq_active_fresh b l r :
  Forall (λ t, done t = true) l → forallb fresh r = true → forallb wf r = true →
  active (Seq b (l ++ r)) = first_active r.
Proof.
  intros Hl Hf Hw. destruct r as [|t r].
  - rewrite app_nil_r. apply done_active. by apply forallb_done.
  - simpl in Hf, Hw. split_andb. by rewrite seq_active_middle by (done || by apply fresh_not_done).
Qed.

(** The end of a process of the tree takes it out of the running ones and adds
    what it starts. *)
Lemma complete_active b t : ∀ t' st,
  wf t = true → complete b t = Some (t', st) → ∃ p, active t ++ st ≡ₚ p :: active t'.
Proof.
  induction t as [b' p d|b' ts IH|b' ts IH] using btree_ind'; intros t' st Hwf H.
  - simpl in H. destruct d; rewrite ?andb_false_r in H; [done|].
    case_match; simplify_eq. by exists p.
  - apply complete_par in H as (l & c & r & c' & -> & Hc & ->).
    apply Forall_app in IH as [_ IH]. apply Forall_cons in IH as [IH _].
    simpl in Hwf. rewrite forallb_middle in Hwf. split_andb.
    apply IH in Hc as [p Hp]; [|done]. exists p. simpl. rewrite !flat_map_app. simpl.
    rewrite (Permutation_middle (flat_map active l) _ p).
    rewrite <-app_assoc, app_comm_cons, <-Hp. solve_Permutation.
  - apply complete_seq in H as (l & c & r & c' & st0 & -> & Hl & Hd & Hc & -> & ->).
    apply Forall_app in IH as [_ IH]. apply Forall_cons in IH as [IH _].
    simpl in Hwf. rewrite forallb_middle, seq_ok_middle, Hd in Hwf by done. split_andb.
    pose proof (active_not_done c) as Hne.
    apply IH in Hc as [p Hp]; [|done]. exists p.
    rewrite seq_active_middle by done.
    destruct (done c') eqn:Hd'; [|by rewrite seq_active_middle].
    rewrite (app_assoc l [c'] r : l ++ c' :: r = (l ++ [c']) ++ r).
    rewrite seq_active_fresh by (done || apply Forall_app; auto).
    rewrite (done_active c') in Hp by done.
    apply Permutation_length in Hp as Hlen. rewrite length_app in Hlen. simpl in Hlen.
    destruct (active c) as [|q [|]] eqn:Hact; simpl in *; [by destruct Hne| |lia].
    destruct st0; [|simpl in *; lia].
    apply Permutation_singleton_inj in Hp as ->. done.
Qed.

Lemma not_done_middle l c r :
  done c = false → forallb done (l ++ c :: r) = false.
Proof. intros Hc. by rewrite forallb_middle, Hc, andb_false_r. Qed.

(** An unfinished tree has a process whose end the tree waits for. *)
Lemma complete_progress t :
  wf t = true → done t = false → ∃ b, is_Some (complete b t).
Proof.
  induction t as [b p d|b ts IH|b ts IH] using btree_ind'; simpl.
  - intros _ ->. exists b. rewrite bool_decide_true by done. by eexists.
  - intros Hwf (l & c & r & -> & Hl & Hc)%first_not_done.
    apply Forall_app in IH as [_ IH]. apply Forall_cons in IH as [IH _].
    rewrite forallb_middle in Hwf. split_andb. destruct IH as [b' [[c' st] Hb]]; [done..|].
    exists b'. clear -Hb. induction l as [|t l IHl]; simpl; [by rewrite Hb|].
    destruct (complete b' t) as [[? ?]|]; [done|]. destruct IHl as [x Hx].
    apply bind_Some in Hx as ((ts1 & st1) & -> & _). done.
  - intros Hwf (l & c & r & -> & Hl & Hc)%first_not_done.
    apply Forall_app in IH as [_ IH]. apply Forall_cons in IH as [IH _].
    rewrite forallb_middle in Hwf. split_andb. destruct IH as [b' [[c' st] Hb]]; [done..|].
    exists b'. clear -Hb Hl Hc. induction Hl as [|t l Ht _ IHl]; simpl; [by rewrite Hc, Hb|].
    rewrite Ht. destruct IHl as [x Hx]. apply bind_Some in Hx as ((ts1 & st1) & -> & _). done.
Qed.

Lemma complete_not_done b t t' st : complete b t = Some (t', st) → done t = false.
Proof.
  intros Hp%complete_pending. destruct (done t) eqn:Hd; [|done].
  apply done_pending in Hd. lia.
Qed.

Lemma complete_done_nil b t t' st :
  wf t = true → complete b t = Some (t', st) → done t' = true → st = [].
Proof.
  intros Hwf Hc Hd. pose proof (complete_not_done _ _ _ _ Hc) as Hnd.
  pose proof (active_not_done _ Hwf Hnd) as Hne.
  apply complete_active in Hc as [p Hp]; [|done]. rewrite (done_active t') in Hp by done.
  apply Permutation_length in Hp. rewrite length_app in Hp. simpl in Hp.
  destruct (active t), st; try done; simpl in Hp; lia.
Qed.

Lemma unfinished_middle l c r :
  unfinished (l ++ c :: r) = unfinished l + (if done c then 0 else 1) + unfinished r.
Proof.
  unfold unfinished. rewrite filter_app, length_app, filter_cons.
  destruct (done c); simpl; lia.
Qed.

Lemma unfinished_done l : Forall (λ t, done t = true) l → unfinished l = 0.
Proof.
  unfold unfinished. induction 1 as [|t l Ht _ IH]; [done|].
  by rewrite filter_cons_False by congruence.
Qed.

Lemma unfinished_0 ts : unfinished ts = 0 ↔ forallb done ts = true.
Proof.
  unfold unfinished. induction ts as [|t ts IH]; [done|]. simpl.
  rewrite filter_cons. destruct (done t); simpl; [done|]. lia || (split; [lia|done]).
Qed.

Lemma unfinished_length ts : unfinished ts ≤ length ts.
Proof. apply length_filter. Qed.

Lemma current_middle l c r :
  Forall (λ t, done t = true) l → done c = false → current (l ++ c :: r) = Some c.
Proof.
  induction 1 as [|t l Ht Hl IH]; intros Hc; simpl; [by rewrite Hc|].
  rewrite Ht, IH by done. by destruct l.
Qed.

Lemma current_last l c : Forall (λ t, done t = true) (l ++ [c]) → current (l ++ [c]) = Some c.
Proof.
  induction l as [|t l IH]; intros [Ht Hl]%Forall_cons; simpl; rewrite Ht; [done|].
  rewrite IH by done. by destruct l.
Qed.

Lemma complete_all_pending bs : ∀ t t' st,
  complete_all bs t = Some (t', st) → length bs + pending t' = pending t.
Proof.
  induction bs as [|b bs IH]; intros t t' st Hc; simpl in Hc; [by simplify_eq|].
  apply bind_Some in Hc as ((t1 & st1) & Hc1%complete_pending & Hc).
  apply bind_Some in Hc as ((t2 & st2) & Hc2%IH & ?). simplify_eq/=. lia.
Qed.

Lemma complete_all_wf bs : ∀ t t' st,
  wf t = true → complete_all bs t = Some (t', st) → wf t' = true.
Proof.
  induction bs as [|b bs IH]; intros t t' st Hwf Hc; simpl in Hc; [by simplify_eq|].
  apply bind_Some in Hc as ((t1 & st1) & Hc1%complete_wf & Hc); [|done].
  apply bind_Some in Hc as ((t2 & st2) & Hc2%IH & ?); by simplify_eq/=.
Qed.

(** ** Every process is started exactly once *)

(** The processes that have not been started yet. *)
Fixpoint unstarted (t : btree) : list loc :=
  match t with
  | Leaf _ _ _ => []
  | Par _ ts => flat_map unstarted ts
  | Seq _ ts =>
      (fix go ts := match ts with
                    | [] => []
                    | t :: ts => if done t then go ts else unstarted t ++ flat_map leaves ts
                    end) ts
  end.

Lemma unstarted_seq_middle b l c r :
  Forall (λ t, done t = true) l → done c = false →
  unstarted (Seq b (l ++ c :: r)) = unstarted c ++ flat_map leaves r.
Proof. induction 1 as [|t l Ht _ IH]; intros Hc; simpl; [by rewrite Hc|]. rewrite Ht. by apply IH. Qed.

Lemma done_unstarted t : done t = true → unstarted t = [].
Proof.
  induction t as [b p d|b ts IH|b ts IH] using btree_ind'; simpl; try done;
    induction IH as [|t' ts Ht _ IHts]; simpl; try done; intros [Hd Hds]%andb_true_iff.
  - by rewrite Ht, IHts.
  - rewrite Hd. by apply IHts.
Qed.

Lemma fresh_leaves t : wf t = true → fresh t = true → leaves t ≡ₚ active t ++ unstarted t.
Proof.
  induction t as [b p []|b ts IH|b ts IH] using btree_ind'; try done; intros Hwf Hf;
    simpl in Hwf, Hf; split_andb.
  - simpl. match goal with H : nonempty _ = true |- _ => clear H end.
    induction IH as [|t ts Ht _ IHts]; [done|]. simpl in *. split_andb.
    rewrite Ht, IHts by done. solve_Permutation.
  - destruct ts as [|t ts]; [done|]. apply Forall_cons in IH as [IH _]. simpl in *. split_andb.
    rewrite fresh_not_done by done. rewrite IH by done. solve_Permutation.
Qed.

Lemma complete_unstarted b t : ∀ t' st,
  wf t = true → complete b t = Some (t', st) → unstarted t ≡ₚ st ++ unstarted t'.
Proof.
  induction t as [b' p d|b' ts IH|b' ts IH] using btree_ind'; intros t' st Hwf H.
  - simpl in H. case_match; by simplify_eq.
  - apply complete_par in H as (l & c & r & c' & -> & Hc & ->).
    apply Forall_app in IH as [_ IH]. apply Forall_cons in IH as [IH _].
    simpl in Hwf. rewrite forallb_middle in Hwf. split_andb.
    simpl. rewrite !flat_map_app. simpl. rewrite (IH c' st) by done. solve_Permutation.
  - apply complete_seq in H as (l & c & r & c' & st0 & -> & Hl & Hd & Hc & -> & ->).
    apply Forall_app in IH as [_ IH]. apply Forall_cons in IH as [IH _].
    simpl in Hwf. rewrite forallb_middle, seq_ok_middle, Hd in Hwf by done. split_andb.
    pose proof (IH c' st0 ltac:(done) Hc) as Hp. rewrite unstarted_seq_middle by done.
    destruct (done c') eqn:Hd'; [|by rewrite unstarted_seq_middle, Hp, <-app_assoc].
    rewrite (complete_done_nil _ _ _ _ ltac:(eassumption) Hc Hd'), (done_unstarted c') in Hp by done.
    simpl in Hp. rewrite Hp. cbn [app]. destruct r as [|n r].
    + rewrite done_unstarted; [done|]. apply forallb_done, Forall_app. auto.
    + rewrite (app_assoc l [c'] (n :: r) : l ++ c' :: n :: r = _).
      cbn [forallb flat_map first_active] in *. split_andb.
      rewrite unstarted_seq_middle by first [by apply fresh_not_done | apply Forall_app; auto].
      rewrite fresh_leaves by done. solve_Permutation.
Qed.

Lemma complete_all_unstarted bs : ∀ t t' st,
  wf t = true → complete_all bs t = Some (t', st) → unstarted t ≡ₚ st ++ unstarted t'.
Proof.
  induction bs as [|b bs IH]; intros t t' st Hwf Hc; simpl in Hc; [by simplify_eq|].
  apply bind_Some in Hc as ((t1 & st1) & Hc1 & Hc).
  apply bind_Some in Hc as ((t2 & st2) & Hc2 & ?). simplify_eq.
  rewrite (complete_unstarted _ _ _ _ Hwf Hc1), (IH _ _ _ (complete_wf _ _ _ _ Hwf Hc1) Hc2).
  by rewrite app_assoc.
Qed.

(** From a fresh tree to its end. *)
Lemma started_once bs t t' st :
  wf t = true → fresh t = true → complete_all bs t = Some (t', st) → done t' = true →
  active t ++ st ≡ₚ leaves t.
Proof.
  intros Hwf Hf Hc Hd. rewrite (fresh_leaves t) by done.
  rewrite (complete_all_unstarted _ _ _ _ Hwf Hc), (done_unstarted t') by done. by rewrite app_nil_r.
Qed.

(** ** The leaves that have not ended, with their builders *)

Fixpoint open_leaves (t : btree) : list (loc * loc) :=
  match t with
  | Leaf b p d => if d then [] else [(b, p)]
  | Par _ ts | Seq _ ts => flat_map open_leaves ts
  end.

Lemma elem_of_flat_map {A B} (f : A → list B) ts y : y ∈ flat_map f ts ↔ ∃ t, t ∈ ts ∧ y ∈ f t.
Proof.
  rewrite list_elem_of_In, in_flat_map. by setoid_rewrite list_elem_of_In.
Qed.

Lemma open_sub b p t : (b, p) ∈ open_leaves t → b ∈ nodes t ∧ p ∈ leaves t.
Proof.
  induction t as [b' p' []|b' ts IH|b' ts IH] using btree_ind'; simpl;
    [by intros ?%elem_of_nil|by intros [= -> ->]%list_elem_of_singleton; set_solver|..];
    intros (t & Ht & Hb)%elem_of_flat_map; rewrite Forall_forall in IH;
    destruct (IH t Ht Hb); split; rewrite ?elem_of_cons, elem_of_flat_map; eauto.
Qed.

Lemma open_keys_sub t : (open_leaves t).*1 `sublist_of` nodes t.
Proof.
  induction t as [b' p' []|b' ts IH|b' ts IH] using btree_ind'; simpl;
    [apply sublist_nil_l|done|..]; apply sublist_cons; induction IH as [|t ts Ht _ IHts]; simpl;
    try done; rewrite fmap_app; by apply sublist_app.
Qed.

Lemma open_keys_subs ts : (flat_map open_leaves ts).*1 `sublist_of` flat_map nodes ts.
Proof.
  induction ts as [|t ts IH]; simpl; [done|]. rewrite fmap_app. apply sublist_app; [apply open_keys_sub|done].
Qed.

Lemma open_unique b p p' ts :
  NoDup (flat_map nodes ts) → (b, p) ∈ flat_map open_leaves ts → (b, p') ∈ flat_map open_leaves ts → p = p'.
Proof.
  intros Hnd Hp Hp'. assert (NoDup (flat_map open_leaves ts).*1) as Hk
    by (eapply sublist_NoDup; [done|apply open_keys_subs]).
  apply (elem_of_list_to_map_1 (M := gmap loc)) in Hp, Hp'; [congruence|done..].
Qed.

Lemma done_open t : done t = true → open_leaves t = [].
Proof.
  induction t as [b p d|b ts IH|b ts IH] using btree_ind'; simpl; [by destruct d|..];
    induction IH as [|t ts Ht _ IHts]; simpl; try done; intros [Hd Hds]%andb_true_iff;
    by rewrite Ht, IHts.
Qed.

(** The end of a process closes its leaf and no other. *)
Lemma complete_open b t : ∀ t' st,
  complete b t = Some (t', st) → ∃ p, open_leaves t ≡ₚ (b, p) :: open_leaves t'.
Proof.
  induction t as [b' p d|b' ts IH|b' ts IH] using btree_ind'; intros t' st H.
  - simpl in H. destruct d; rewrite ?andb_false_r in H; [done|].
    case_bool_decide; simplify_eq/=. by exists p.
  - apply complete_par in H as (l & c & r & c' & -> & Hc & ->).
    apply Forall_app in IH as [_ IH]. apply Forall_cons in IH as [IH _].
    destruct (IH _ _ Hc) as [p Hp]. exists p. simpl. rewrite !flat_map_app. simpl.
    rewrite Hp. solve_Permutation.
  - apply complete_seq in H as (l & c & r & c' & st0 & -> & _ & _ & Hc & -> & _).
    apply Forall_app in IH as [_ IH]. apply Forall_cons in IH as [IH _].
    destruct (IH _ _ Hc) as [p Hp]. exists p. simpl. rewrite !flat_map_app. simpl.
    rewrite Hp. solve_Permutation.
Qed.

(** A process that has been started and has not ended can end. *)
Lemma open_complete b p t :
  wf t = true → (b, p) ∈ open_leaves t → p ∉ unstarted t → is_Some (complete b t).
Proof.
  induction t as [b' p' []|b' ts IH|b' ts IH] using btree_ind'; simpl; intros Hwf Hin Hun.
  - by apply elem_of_nil in Hin.
  - apply list_elem_of_singleton in Hin as [= -> ->]. by rewrite bool_decide_true.
  - split_andb. match goal with H : nonempty _ = true |- _ => clear H end.
    induction IH as [|t ts Ht _ IHts]; simpl in *; [by apply elem_of_nil in Hin|]. split_andb.
    apply not_elem_of_app in Hun as [Hu1 Hu2]. destruct (complete b t) as [[c st]|] eqn:Hc; [done|].
    apply elem_of_app in Hin as [Hin|Hin]; [by destruct Ht|].
    destruct IHts as [x Hx]; [done..|]. apply bind_Some in Hx as ((ts1 & st1) & -> & _). done.
  - split_andb. match goal with H : nonempty _ = true |- _ => clear H end.
    induction IH as [|t ts Ht _ IHts]; simpl in *; [by apply elem_of_nil in Hin|]. split_andb.
    destruct (done t) eqn:Hd.
    + rewrite (done_open t Hd) in Hin. destruct IHts as [x Hx]; [done..|].
      apply bind_Some in Hx as ((ts1 & st1) & -> & _). done.
    + apply not_elem_of_app in Hun as [Hu1 Hu2]. apply elem_of_app in Hin as [Hin|Hin].
      * destruct Ht as [[c st] Hc]; [done..|]. by rewrite Hc.
      * destruct Hu2. apply elem_of_flat_map in Hin as (u & Hu & Hb).
        apply elem_of_flat_map. exists u. by split; [|apply open_sub in Hb as [_ ?]].
Qed.

Lemma undone_open t : done t = false → ∃ b p, (b, p) ∈ open_leaves t.
Proof.
  assert (∀ ts, Forall (λ t, done t = false → ∃ b p, (b, p) ∈ open_leaves t) ts →
    forallb done ts = false → ∃ b p, (b, p) ∈ flat_map open_leaves ts) as Hts.
  { induction 1 as [|t' ts Ht _ IH]; simpl; [done|]. intros [Hd|Hd]%andb_false_iff.
    - destruct (Ht Hd) as (b & p & Hin). exists b, p. set_solver.
    - destruct (IH Hd) as (b & p & Hin). exists b, p. set_solver. }
  induction t as [b p d|b ts IH|b ts IH] using btree_ind'; simpl; [|by apply Hts..].
  intros ->. exists b, p. by left.
Qed.
