(* ===== verification/CspSpec.v ===== *)
(** * csp.c implements the build trees of [BuildTree] *)
From stdpp Require Import base tactics list gmap.
From Stdlib Require Import ZArith Lia.
From S2P Require Import Prelude Tailq Rbtree RbInsert RbSpec State SchedOps Exec Csp BuildTree.

Section csp_spec.
Context {T : Type} {TT : SleepTree T} {E : Env}.
Implicit Types (s : St T) (t : btree) (m : gmap loc Builder).

(** ** The builders of a tree that has been started *)

Inductive brep (m : gmap loc Builder) :
    option loc → bool → option loc → btree → Prop :=
| brep_leaf par rt rp b p d :
    m !! b = Some (MkBuilder par rt rp (ProcBuild (Some p))) →
    brep m par rt rp (Leaf b p d)
| brep_par par rt rp b ts :
    m !! b = Some (MkBuilder par rt rp
               (ParBuild (Z.of_nat (unfinished ts)) (root <$> ts))) →
    Forall (brep m (Some b) false None) ts →
    brep m par rt rp (Par b ts)
| brep_seq par rt rp b ts :
    m !! b = Some (MkBuilder par rt rp
               (SeqBuild (Z.of_nat (unfinished ts)) (root <$> current ts) (root <$> ts))) →
    Forall (brep m (Some b) false None) ts →
    brep m par rt rp (Seq b ts).

Lemma root_nodes t : root t ∈ nodes t.
Proof. destruct t; simpl; set_solver. Qed.

Lemma elem_of_nodes_inv ts x : x ∈ flat_map nodes ts → ∃ u, u ∈ ts ∧ x ∈ nodes u.
Proof.
  rewrite list_elem_of_In. intros (u & Hu & Hx)%in_flat_map.
  exists u. by rewrite !list_elem_of_In.
Qed.

Lemma elem_of_nodes ts t x : t ∈ ts → x ∈ nodes t → x ∈ flat_map nodes ts.
Proof. rewrite !list_elem_of_In. intros. apply in_flat_map. eauto. Qed.

Lemma brep_ext m m' t : ∀ par rt rp,
  (∀ x, x ∈ nodes t → m' !! x = m !! x) → brep m par rt rp t → brep m' par rt rp t.
Proof.
  induction t as [b p d|b ts IH|b ts IH] using btree_ind'; intros par rt rp Hm Hr;
    inversion Hr; subst; constructor; try (rewrite Hm; [done|simpl; set_solver]);
    rewrite Forall_forall in *; intros t Ht; apply IH; auto;
    intros x Hx; apply Hm; simpl; right; by eapply elem_of_nodes.
Qed.

Lemma brep_children m b ts :
  Forall (brep m (Some b) false None) ts → Forall (λ x, is_Some (m !! x)) (root <$> ts).
Proof. intros H. rewrite Forall_fmap. eapply Forall_impl; [exact H|]. intros t []; simpl; eauto. Qed.

Lemma brep_root m par rt rp t :
  brep m par rt rp t → ∃ v, m !! root t = Some v ∧
    b_parent v = par ∧ b_is_root v = rt ∧ b_run_proc v = rp.
Proof. intros []; simpl; eauto. Qed.

(** ** Starting a tree *)

Definition run_spec (t : btree) : Prop := ∀ fuel par rt rp s,
  brep (builds s) par rt rp t → wf t = true → fresh t = true → height t ≤ fuel →
  can_ready (active t) s →
  wp (csp_runbuild fuel (Some (root t))) (λ _ s', s' = ready_all (active t) s) s.

Lemma run_childs fuel b ts : ∀ s,
  Forall run_spec ts → Forall (brep (builds s) (Some b) false None) ts →
  forallb wf ts = true → forallb fresh ts = true → list_max (map height ts) ≤ fuel →
  can_ready (flat_map active ts) s →
  wp (for_each (λ c, csp_runbuild fuel (Some c)) (root <$> ts))
    (λ _ s', s' = ready_all (flat_map active ts) s) s.
Proof.
  induction ts as [|t ts IH]; simpl; intros s Hrun Hr Hw Hf Hh Hc.
  - apply wp_ret. by rewrite ready_all_nil.
  - apply Forall_cons in Hrun as [Ht Hts]. apply Forall_cons in Hr as [Hr Hrs].
    split_andb. apply can_ready_app in Hc as [Hc Hcs].
    apply wp_bind. eapply wp_mono; [eapply Ht; try done; lia|].
    intros [] ? ->. rewrite ready_all_app. apply IH; try done. lia.
Qed.

Lemma current_fresh t ts : wf t = true → fresh t = true → current (t :: ts) = Some t.
Proof. intros. simpl. by rewrite fresh_not_done. Qed.

Lemma runbuild_fresh t : run_spec t.
Proof.
  induction t as [b p d|b ts IH|b ts IH] using btree_ind';
    intros [|fuel] par rt rp s Hr Hwf Hf Hh Hc; try (simpl in Hh; lia);
    inversion Hr; subst; simpl csp_runbuild; steps; simpl b_body; cbv iota.
  - simpl in Hf. destruct d; [done|]. by apply addready_all.
  - simpl in Hwf, Hf, Hh. split_andb. eapply run_childs; try done. lia.
  - destruct ts as [|t ts]; [done|]. simpl in Hwf, Hf, Hh. split_andb.
    rewrite current_fresh by done. simpl.
    apply Forall_cons in IH as [IH _].
    repeat match goal with H : Forall _ (_ :: _) |- _ => apply Forall_cons in H as [? ?] end.
    simpl in Hc. rewrite fresh_not_done in * by done.
    eapply IH; try done. lia.
Qed.

(** ** Freeing a tree *)

(** [s'] is [s] without the builders of [ns]. *)
Definition builds_without (ns : list loc) (s s' : St T) : Prop :=
  ∃ m, s' = set_builds (λ _, m) s ∧
    ∀ x, m !! x = if decide (x ∈ ns) then None else builds s !! x.

Definition cleanup_spec (t : btree) : Prop := ∀ fuel par rt rp s,
  brep (builds s) par rt rp t → NoDup (nodes t) → height t ≤ fuel →
  wp (csp_cleanupbuild fuel (Some (root t))) (λ _ s', builds_without (nodes t) s s') s.

Lemma cleanup_childs_ok fuel b : ∀ ts n s v num,
  Forall cleanup_spec ts → Forall (brep (builds s) (Some b) false None) ts →
  builds s !! b = Some v → childs_of v = Some (num, root <$> ts) →
  NoDup (b :: flat_map nodes ts) → list_max (map height ts) ≤ fuel → length ts < n →
  wp (cleanup_childs n (λ c, csp_cleanupbuild fuel (Some c)) b)
    (λ _ s', ∃ m v', s' = set_builds (λ _, m) s ∧
      ∀ x, m !! x = if decide (x ∈ flat_map nodes ts) then None
                    else if decide (x = b) then Some v' else builds s !! x) s.
Proof.
  intros ts. induction ts as [|t ts IH]; intros [|n] s v num Hcl Hr Hb Hv Hnd Hh Hn;
    simpl in Hn; try lia; simpl cleanup_childs; steps.
  - exists (builds s), v. split; [by destruct s|]. intros x.
    rewrite decide_False by set_solver. case_decide; by subst.
  - simpl. steps. apply wp_get. step.
    apply Forall_cons in Hcl as [Ht Hts]. apply Forall_cons in Hr as [Hr Hrs].
    simpl in Hnd, Hh. apply NoDup_cons in Hnd as [[Hb1 Hb2]%not_elem_of_app Hnd].
    apply NoDup_app in Hnd as (Hnt & Hdisj & Hnts).
    assert (root t ∉ root <$> ts) as Hroot.
    { intros (u & Hu & Hin)%list_elem_of_fmap. apply (Hdisj (root t) (root_nodes t)).
      rewrite Hu. eapply elem_of_nodes; [done|apply root_nodes]. }
    apply wp_REMOVE; [set_solver| |].
    { apply Forall_live. constructor; [by destruct (brep_root _ _ _ _ _ Hr) as (? & -> & _)|].
      by eapply brep_children. }
    rewrite Q_without_head by done. step. steps. eapply wp_mono.
    { eapply Ht; [|done|lia]. eapply brep_ext; [|exact Hr]. intros x Hx. simpl.
      rewrite lookup_insert_ne; [done|]. by intros ->. }
    intros [] s1 (m1 & -> & Hm1). cbn [builds set_builds] in Hm1.
    eapply wp_mono; [eapply (IH _ _ (with_childs num (root <$> ts) v) num)|].
    + done.
    + rewrite Forall_forall in *. intros u Hu. eapply brep_ext; [|by apply Hrs].
      intros x Hx. simpl. pose proof (elem_of_nodes _ _ _ Hu Hx).
      rewrite Hm1, decide_False; [|by intros ?; eapply Hdisj].
      rewrite lookup_insert_ne; [done|]. by intros ->.
    + simpl. rewrite Hm1, decide_False by done. by rewrite lookup_insert_eq.
    + destruct v as [? ? ? [|? ?|? ? ?]]; simpl in *; by simplify_eq.
    + by apply NoDup_cons.
    + lia.
    + lia.
    + intros [] s2 (m2 & v' & -> & Hm2). exists m2, v'. split; [done|].
      intros x. rewrite Hm2. simpl. rewrite Hm1.
      destruct (decide (x ∈ nodes t)), (decide (x ∈ flat_map nodes ts)), (decide (x = b));
        first [ rewrite decide_True by (apply elem_of_app; tauto)
              | rewrite decide_False by (rewrite elem_of_app; tauto) ];
        subst; by rewrite ?lookup_insert_ne.
Qed.

Lemma cleanup_inner fuel b ts s v num :
  Forall cleanup_spec ts → Forall (brep (builds s) (Some b) false None) ts →
  builds s !! b = Some v → childs_of v = Some (num, root <$> ts) →
  NoDup (b :: flat_map nodes ts) → list_max (map height ts) ≤ fuel →
  wp (cleanup_childs (S (length (root <$> ts))) (λ c, csp_cleanupbuild fuel (Some c)) b ;;
      csp_free (Some b))
    (λ _ s', builds_without (b :: flat_map nodes ts) s s') s.
Proof.
  intros. apply wp_bind. eapply wp_mono.
  { eapply cleanup_childs_ok; try done. rewrite length_fmap. lia. }
  intros [] s1 (m & v' & -> & Hm). simpl csp_free.
  assert (m !! b = Some v') as Hb.
  { rewrite Hm, decide_False, decide_True by (done || by apply NoDup_cons_1_1). done. }
  step. eapply wp_getb; [exact Hb|]. step. exists (delete b m). split; [done|]. intros x.
  destruct (decide (x = b)) as [->|Hne].
  - rewrite lookup_delete_eq, decide_True by (by constructor). done.
  - rewrite lookup_delete_ne, Hm by done.
    destruct (decide (x ∈ flat_map nodes ts)).
    + by rewrite decide_True by (by constructor).
    + rewrite decide_False, decide_False by (rewrite ?elem_of_cons; naive_solver). done.
Qed.

Lemma csp_cleanupbuild_S fuel b :
  (csp_cleanupbuild (S fuel) (Some b) : M (St T) ()) =
  (v ← getb b;
   match b_body v with
   | ProcBuild _ => mret ()
   | ParBuild _ q | SeqBuild _ _ q =>
       cleanup_childs (S (length q)) (λ child, csp_cleanupbuild fuel (Some child)) b
   end ;;
   csp_free (Some b)).
Proof. reflexivity. Qed.

Lemma cleanup_ok t : cleanup_spec t.
Proof.
  induction t as [b p d|b ts IH|b ts IH] using btree_ind';
    intros [|fuel] par rt rp s Hr Hnd Hh; try (simpl in Hh; lia);
    inversion Hr; subst; cbn [root]; rewrite csp_cleanupbuild_S;
    step; step; cbn [b_body].
  - simpl csp_free. steps. exists (delete b (builds s)). split; [done|].
    intros x. cbn [nodes builds set_builds]. destruct (decide (x = b)) as [->|].
    + by rewrite lookup_delete_eq, decide_True by set_solver.
    + by rewrite lookup_delete_ne, decide_False by set_solver.
  - simpl in Hh. eapply cleanup_inner; try done. lia.
  - simpl in Hh. eapply cleanup_inner; try done. lia.
Qed.

(** ** The fuel of the code is enough *)

Lemma height_nodes t : height t ≤ length (nodes t).
Proof.
  assert (∀ ts, Forall (λ u, height u ≤ length (nodes u)) ts →
    list_max (map height ts) ≤ length (flat_map nodes ts)) as Hts.
  { induction 1; simpl; [lia|]. rewrite length_app. lia. }
  induction t as [b p d|b ts IH|b ts IH] using btree_ind'; simpl; [lia|..];
    apply Hts in IH; lia.
Qed.

Lemma brep_nodes m t : ∀ par rt rp x,
  brep m par rt rp t → x ∈ nodes t → is_Some (m !! x).
Proof.
  induction t as [b p d|b ts IH|b ts IH] using btree_ind'; intros par rt rp x Hr Hx;
    inversion Hr; subst; simpl in Hx; apply elem_of_cons in Hx as [->|Hx]; eauto;
    [by apply not_elem_of_nil in Hx|..];
    apply elem_of_nodes_inv in Hx as (u & Hu & Hx); rewrite Forall_forall in *; eauto.
Qed.

Lemma height_size m par rt rp t :
  brep m par rt rp t → NoDup (nodes t) → height t ≤ size m.
Proof.
  intros Hr Hnd. etrans; [apply height_nodes|].
  apply nodes_size; [done|]. intros x. by eapply brep_nodes.
Qed.

(** ** The end of a process *)

(** What csp_parsebuild does with a finished node, from its header fields. *)
Definition done_phase (fuel : nat) (b : loc) (par : option loc) (rt : bool)
    (rp : option loc) : M (St T) () :=
  if rt then
    match rp with Some p => scheduler_addready (Some p) | None => mret () end ;;
    fuel ← build_fuel; csp_cleanupbuild fuel (Some b)
  else csp_parsebuild fuel par.

Lemma csp_parsebuild_S fuel b :
  (csp_parsebuild (S fuel) (Some b) : M (St T) ()) =
  (v ← getb b;
   build_done ← csp_child_done b v;
   if build_done : bool then
     done_phase fuel b (b_parent v) (b_is_root v) (b_run_proc v)
   else mret ()).
Proof. reflexivity. Qed.

Lemma Q_next_middle (l : list loc) e r : e ∉ l → Q.next (l ++ e :: r) e = head r.
Proof.
  induction l as [|x l IH]; simpl; intros Hn; [by rewrite bool_decide_true|].
  rewrite bool_decide_false by set_solver. apply IH. set_solver.
Qed.

Lemma u64_pred n : (0 < n → n < U64 → u64 (n - 1) = n - 1)%Z.
Proof. intros. apply Z.mod_small. lia. Qed.

Lemma brep_replace m m' b l c c' r :
  Forall (brep m (Some b) false None) (l ++ c :: r) → NoDup (flat_map nodes (l ++ c :: r)) →
  brep m' (Some b) false None c' → (∀ x, x ∉ nodes c → x ≠ b → m' !! x = m !! x) →
  b ∉ flat_map nodes (l ++ c :: r) →
  Forall (brep m' (Some b) false None) (l ++ c' :: r).
Proof.
  intros [Hl [Hc Hr]%Forall_cons]%Forall_app Hnd Hc' Hm Hb.
  rewrite flat_map_app in Hnd, Hb. simpl in Hnd, Hb.
  apply NoDup_app in Hnd as (_ & Hd1 & Hd2). apply NoDup_app in Hd2 as (_ & Hd2 & _).
  assert (∀ us, (∀ x, x ∈ flat_map nodes us → x ∉ nodes c ∧ x ≠ b) →
    Forall (brep m (Some b) false None) us → Forall (brep m' (Some b) false None) us) as Hext.
  { intros us Hus Hf. rewrite Forall_forall in *. intros u Hu.
    eapply brep_ext; [|by apply Hf]. intros x Hx. apply Hm; by eapply Hus, elem_of_nodes. }
  rewrite !elem_of_app in Hb.
  apply Forall_app; split; [|constructor; [done|]]; apply Hext; try done;
    intros x Hx; split.
  - intros Hx'. apply (Hd1 x Hx). apply elem_of_app. by left.
  - intros ->. tauto.
  - intros Hx'. by apply (Hd2 x).
  - intros ->. tauto.
Qed.

(** The state in which the tree of [t] has become [t'] and [st] was started. *)
Definition advanced (t t' : btree) (par : option loc) (rt : bool) (rp : option loc)
    (st : list loc) (s s' : St T) : Prop :=
  ∃ m, s' = set_builds (λ _, m) (ready_all st s) ∧ brep m par rt rp t' ∧
    ∀ x, x ∉ nodes t → m !! x = builds s !! x.

Definition climb_spec (b : loc) (t : btree) : Prop := ∀ t' st fuel par rt rp s Q,
  complete b t = Some (t', st) → brep (builds s) par rt rp t → wf t = true →
  NoDup (nodes t) → (Z.of_nat (length (nodes t)) < U64)%Z → height t ≤ fuel →
  can_ready st s →
  (∀ s' fuel', advanced t t' par rt rp st s s' → fuel ≤ fuel' + height t →
     if done t' then wp (done_phase fuel' (root t) par rt rp) Q s' else Q () s') →
  wp (csp_parsebuild fuel (Some b)) Q s.

Lemma length_nodes_ge ts : length ts ≤ length (flat_map nodes ts).
Proof. induction ts as [|t ts IH]; simpl; [lia|]. rewrite length_app. destruct t; simpl in *; lia. Qed.

Lemma set_builds_twice f m s : set_builds f (set_builds (λ _, m) s) = set_builds (λ _, f m) s.
Proof. done. Qed.

Lemma climb_leaf b b' p d : climb_spec b (Leaf b' p d).
Proof.
  intros t' st [|fuel] par rt rp s Q H Hr _ _ _ Hh _ HQ; simpl in Hh; [lia|].
  simpl in H. case_bool_decide as Hb; [|done]. destruct d; [done|]. injection H as <- <-.
  inversion Hr; subst. rewrite csp_parsebuild_S. steps. unfold csp_child_done. cbn [b_body].
  steps. apply (HQ s fuel); [|simpl; lia].
  exists (builds s). rewrite ready_all_nil. split; [by destruct s|]. split; [by constructor|done].
Qed.

Lemma node_frame m0 m m' b l c c' r :
  Forall (brep m0 (Some b) false None) (l ++ c :: r) → NoDup (nodes (Par b (l ++ c :: r))) →
  brep m (Some b) false None c' → nodes c' = nodes c →
  (∀ x, x ∉ nodes c → m !! x = m0 !! x) → (∀ x, x ≠ b → m' !! x = m !! x) →
  Forall (brep m' (Some b) false None) (l ++ c' :: r) ∧
  (∀ x, x ∉ nodes (Par b (l ++ c :: r)) → m' !! x = m0 !! x).
Proof.
  cbn [nodes]. intros Hch [Hb Hnd]%NoDup_cons Hc' Hn Hm Hm'. split.
  - eapply brep_replace; [done|done| | |done].
    + eapply brep_ext; [|done]. intros x Hx. apply Hm'. intros ->. rewrite Hn in Hx.
      apply Hb. eapply elem_of_nodes; [|done]. set_solver.
    + intros x Hx Hxb. by rewrite Hm', Hm.
  - intros x Hx. rewrite Hm', Hm; [done| |].
    + intros Hxc. apply Hx. right. eapply elem_of_nodes; [|done]. set_solver.
    + intros ->. apply Hx. by left.
Qed.

(** ** One child of a node has advanced *)

Lemma insert_frame (m : gmap loc Builder) b v x : x ≠ b → <[b := v]> m !! x = m !! x.
Proof. intros. by apply lookup_insert_ne. Qed.

Section node.
Context (b : loc) (l r : list btree) (c c' : btree) (s : St T) (m : gmap loc Builder).
Hypothesis Hch : Forall (brep (builds s) (Some b) false None) (l ++ c :: r).
Hypothesis Hnd : NoDup (nodes (Par b (l ++ c :: r))).
Hypothesis Hc' : brep m (Some b) false None c'.
Hypothesis Hnodes : nodes c' = nodes c.
Hypothesis Hroot : root c' = root c.
Hypothesis Hm : ∀ x, x ∉ nodes c → m !! x = builds s !! x.

Lemma middle_roots : root <$> (l ++ c' :: r) = root <$> (l ++ c :: r).
Proof. rewrite !fmap_app. simpl. by rewrite Hroot. Qed.

Lemma advanced_par par rt rp st m' :
  m' !! b = Some (MkBuilder par rt rp
    (ParBuild (Z.of_nat (unfinished (l ++ c' :: r))) (root <$> (l ++ c :: r)))) →
  (∀ x, x ≠ b → m' !! x = m !! x) →
  advanced (Par b (l ++ c :: r)) (Par b (l ++ c' :: r)) par rt rp st s
    (set_builds (λ _, m') (ready_all st s)).
Proof.
  intros Hb Hm'. destruct (node_frame _ m m' _ _ _ _ _ Hch Hnd Hc' Hnodes Hm Hm') as [Hch' Hfr].
  exists m'. split_and!; [done| |done]. constructor; [|done]. by rewrite middle_roots.
Qed.

Lemma advanced_seq par rt rp st m' :
  m' !! b = Some (MkBuilder par rt rp
    (SeqBuild (Z.of_nat (unfinished (l ++ c' :: r))) (root <$> current (l ++ c' :: r))
      (root <$> (l ++ c :: r)))) →
  (∀ x, x ≠ b → m' !! x = m !! x) →
  advanced (Seq b (l ++ c :: r)) (Seq b (l ++ c' :: r)) par rt rp st s
    (set_builds (λ _, m') (ready_all st s)).
Proof.
  intros Hb Hm'. destruct (node_frame _ m m' _ _ _ _ _ Hch Hnd Hc' Hnodes Hm Hm') as [Hch' Hfr].
  exists m'. split_and!; [done| |done]. constructor; [|done]. by rewrite middle_roots.
Qed.
End node.

(** What the climb knows about the child it comes from. *)
Lemma climb_child b l c r s :
  Forall (brep (builds s) (Some b) false None) (l ++ c :: r) →
  NoDup (nodes (Par b (l ++ c :: r))) →
  (Z.of_nat (length (nodes (Par b (l ++ c :: r)))) < U64)%Z →
  brep (builds s) (Some b) false None c ∧ NoDup (nodes c) ∧ b ∉ nodes c ∧
  (Z.of_nat (unfinished (l ++ c :: r)) < U64)%Z ∧ (Z.of_nat (length (nodes c)) < U64)%Z.
Proof.
  cbn [nodes]. intros Hch [Hb Hnd]%NoDup_cons Hsz. split_and!.
  - by apply Forall_app in Hch as [_ [? _]%Forall_cons].
  - rewrite flat_map_app in Hnd. simpl in Hnd.
    apply NoDup_app in Hnd as (_ & _ & Hnd). by apply NoDup_app in Hnd as (? & _ & _).
  - intros Hin. apply Hb. eapply elem_of_nodes; [|done]. set_solver.
  - pose proof (unfinished_length (l ++ c :: r)). pose proof (length_nodes_ge (l ++ c :: r)).
    simpl in Hsz. lia.
  - rewrite flat_map_app in Hsz. simpl in Hsz. rewrite !length_app in Hsz. lia.
Qed.

Lemma list_max_le_middle (l : list nat) x r : x ≤ list_max (l ++ x :: r).
Proof. rewrite list_max_app. simpl. lia. Qed.

(** The part of the path above a child, in the fuel of the climb. *)
Lemma height_middle b l c r (fuel : nat) :
  height (Par b (l ++ c :: r)) ≤ fuel → height c < fuel.
Proof. cbn [height]. rewrite map_app. simpl. pose proof (list_max_le_middle (map height l) (height c) (map height r)). lia. Qed.

Lemma climb_par b b' ts : Forall (climb_spec b) ts → climb_spec b (Par b' ts).
Proof.
  intros IH t' st fuel par rt rp s Q H Hr Hwf Hnd Hsz Hh Hc HQ.
  apply complete_par in H as (l & c & r & c' & -> & H & ->).
  apply Forall_app in IH as [_ IH]. apply Forall_cons in IH as [IH _].
  pose proof (complete_not_done _ _ _ _ H) as Hcd.
  pose proof (complete_root _ _ _ _ H) as Hroot.
  destruct (complete_nodes _ _ _ _ H) as [Hnodes _].
  inversion Hr as [|????? Hb Hch|]; subst.
  destruct (climb_child _ _ _ _ _ Hch Hnd Hsz) as (Hrc & Hndc & Hbc & Hub & Hszc).
  pose proof (height_middle _ _ _ _ _ Hh).
  cbn [wf] in Hwf. rewrite forallb_middle in Hwf. split_andb.
  eapply IH; [done|exact Hrc|done..|lia|done|].
  intros s' fuel' (m & -> & Hrc' & Hm) Hf.
  assert (m !! b' = builds s !! b') as Hmb by by apply Hm.
  pose proof (advanced_par b' l r c c' s m Hch Hnd Hrc' Hnodes Hroot Hm par rt rp st) as Hadv.
  rewrite Hb in Hmb. rewrite unfinished_middle, Hcd in Hmb, Hub.
  assert (height (Par b' (l ++ c :: r)) > height c) by (by eapply height_middle).
  destruct (done c') eqn:Hd'.
  - unfold done_phase at 1. destruct fuel' as [|fuel']; [lia|].
    rewrite csp_parsebuild_S. step. eapply wp_getb; [exact Hmb|].
    step. unfold csp_child_done. cbn [b_body b_is_root b_parent b_run_proc].
    rewrite u64_pred by lia.
    replace (Z.of_nat (unfinished l + 1 + unfinished r) - 1)%Z
      with (Z.of_nat (unfinished (l ++ c' :: r)))
      by (rewrite unfinished_middle, Hd'; lia).
    step. step. apply wp_ret. rewrite set_builds_twice.
    match goal with |- wp _ _ (set_builds (λ _, ?m1) _) => specialize (Hadv m1) end.
    rewrite lookup_insert_eq in Hadv.
    specialize (HQ _ fuel' (Hadv eq_refl (insert_frame _ _ _))).
    cbn [done] in HQ. destruct (Z.eqb_spec (Z.of_nat (unfinished (l ++ c' :: r))) 0) as [Hz|Hz].
    + assert (unfinished (l ++ c' :: r) = 0) as Hu%unfinished_0 by lia. rewrite Hu in HQ. apply HQ. lia.
    + destruct (forallb done _) eqn:Hu in HQ; [apply unfinished_0 in Hu; lia|]. apply wp_ret. apply HQ. lia.
  - rewrite unfinished_middle, Hd' in Hadv. specialize (HQ _ fuel' (Hadv _ Hmb (λ _ _, eq_refl))).
    cbn [done] in HQ. rewrite forallb_middle, Hd', andb_false_r in HQ. apply HQ. lia.
Qed.

Lemma root_not_in l c r :
  NoDup (flat_map nodes (l ++ c :: r)) → root c ∉ root <$> l.
Proof.
  rewrite flat_map_app. intros (_ & Hd & _)%NoDup_app (u & Hu & Hin)%list_elem_of_fmap.
  apply (Hd (root c)); [|simpl; apply elem_of_app; left; apply root_nodes].
  rewrite Hu. eapply elem_of_nodes; [done|apply root_nodes].
Qed.

(** SEQ: the step to the next child. *)
Lemma seq_next b v l c c' n r s (m : gmap loc Builder) (Q : bool → St T → Prop) :
  Forall (brep (builds s) (Some b) false None) (l ++ c :: n :: r) →
  NoDup (nodes (Par b (l ++ c :: n :: r))) → root c' = root c → nodes c' = nodes c →
  brep m (Some b) false None c' → (∀ x, x ∉ nodes c → m !! x = builds s !! x) →
  wf n = true → fresh n = true → can_ready (active n) s →
  b_body v = SeqBuild (Z.of_nat (unfinished l + 1 + unfinished (n :: r))) (Some (root c))
               (root <$> (l ++ c :: n :: r)) →
  (Z.of_nat (unfinished l + 1 + unfinished (n :: r)) < U64)%Z →
  (let v' := b_set_body (SeqBuild (Z.of_nat (unfinished l + unfinished (n :: r)))
               (Some (root n)) (root <$> (l ++ c :: n :: r))) v in
   Q false (set_builds (λ _, <[b := v']> m) (ready_all (active n) s))) →
  wp (csp_child_done b v) Q (set_builds (λ _, m) s).
Proof.
  intros Hch Hnd Hroot Hnodes Hc' Hm Hwf Hf Hcan Hv Hub HQ.
  assert (unfinished (n :: r) ≠ 0) as Hn0.
  { intros H%unfinished_0. simpl in H. split_andb.
    rewrite fresh_not_done in * by done. done. }
  cbn [nodes] in Hnd. apply NoDup_cons in Hnd as [Hb Hnd].
  assert (Q.next (root <$> (l ++ c :: n :: r)) (root c) = Some (root n)) as Hnext.
  { rewrite fmap_app. simpl. rewrite Q_next_middle; [done|]. by eapply root_not_in. }
  set (q := root <$> (l ++ c :: n :: r)) in *.
  unfold csp_child_done. rewrite Hv. rewrite u64_pred by lia.
  replace (Z.of_nat (unfinished l + 1 + unfinished (n :: r)) - 1)%Z
    with (Z.of_nat (unfinished l + unfinished (n :: r))) by lia.
  step. step. destruct (Z.eqb_spec (Z.of_nat (unfinished l + unfinished (n :: r))) 0); [lia|].
  step. step. cbv beta. rewrite Hnext. step.
  destruct (brep_root _ _ _ _ _ Hc') as (vc & Hvc & _). rewrite Hroot in Hvc.
  assert (root c ≠ b) as Hcb.
  { intros <-. apply Hb. eapply elem_of_nodes; [|apply root_nodes]. set_solver. }
  eapply wp_getb; [simpl; rewrite lookup_insert_ne by done; exact Hvc|].
  step. apply wp_ASSERT; [done|]. step. apply wp_get. cbv beta.
  rewrite set_builds_twice. match goal with |- wp _ _ (set_builds (λ _, ?m) _) => set (m1 := m) end.
  assert (brep m1 (Some b) false None n) as Hbn.
  { destruct (node_frame _ m m1 _ _ _ _ _ Hch ltac:(by apply NoDup_cons) Hc' Hnodes Hm)
      as [Hch' _]; [intros x Hx; by apply lookup_insert_ne|].
    apply Forall_app in Hch' as [_ [_ [? _]%Forall_cons]%Forall_cons]. done. }
  step. eapply wp_mono.
  { eapply (runbuild_fresh n); [exact Hbn|done..| |exact Hcan].
    assert (height n ≤ size m1); [|simpl; lia].
    eapply height_size; [exact Hbn|].
    rewrite flat_map_app in Hnd. simpl in Hnd.
    apply NoDup_app in Hnd as (_ & _ & Hnd). apply NoDup_app in Hnd as (_ & _ & Hnd).
    by apply NoDup_app in Hnd as (? & _ & _). }
  intros [] ? ->. steps. simpl in HQ |- *.
  eapply eq_ind; [exact HQ|].
  unfold set_builds, ready_all, set_sched, set_procs, m1. simpl. by rewrite insert_insert_eq.
Qed.

Lemma unfinished_fresh ts :
  forallb fresh ts = true → forallb wf ts = true → ts ≠ [] → unfinished ts ≠ 0.
Proof.
  destruct ts as [|t ts]; [done|]. simpl. intros. split_andb.
  intros Hu%unfinished_0. simpl in Hu. by rewrite fresh_not_done in Hu.
Qed.

(** SEQ: the end of the last child. *)
Lemma seq_last b par rt rp n cur q s (Q : bool → St T → Prop) :
  n = 1%Z →
  (let v := MkBuilder par rt rp (SeqBuild 0 cur q) in Q true (set_builds <[b := v]> s)) →
  wp (csp_child_done b (MkBuilder par rt rp (SeqBuild n cur q))) Q s.
Proof. intros -> HQ. unfold csp_child_done. cbn [b_body]. by steps. Qed.

Lemma seq_after l c' n r :
  Forall (λ t, done t = true) l → done c' = true → wf n = true → fresh n = true →
  current (l ++ c' :: n :: r) = Some n.
Proof.
  intros. rewrite (app_assoc l [c'] (n :: r) : l ++ c' :: n :: r = _).
  apply current_middle; [apply Forall_app; auto|by apply fresh_not_done].
Qed.

Lemma climb_seq b b' ts : Forall (climb_spec b) ts → climb_spec b (Seq b' ts).
Proof.
  intros IH t' st fuel par rt rp s Q H Hr Hwf Hnd Hsz Hh Hc HQ.
  apply complete_seq in H as (l & c & r & c' & st0 & -> & Hl & Hcd & H & -> & ->).
  apply Forall_app in IH as [_ IH]. apply Forall_cons in IH as [IH _].
  pose proof (complete_root _ _ _ _ H) as Hroot.
  destruct (complete_nodes _ _ _ _ H) as [Hnodes _].
  inversion Hr as [| |????? Hb Hch]; subst.
  destruct (climb_child _ _ _ _ _ Hch Hnd Hsz) as (Hrc & Hndc & Hbc & Hub & Hszc).
  assert (height (Seq b' (l ++ c :: r)) > height c) by exact (height_middle b' l c r _ (le_n _)).
  cbn [wf] in Hwf. rewrite forallb_middle, seq_ok_middle, Hcd in Hwf by done. split_andb.
  assert (done c' = true → st0 = []) as Hst0 by (intros; by eapply (complete_done_nil b c)).
  assert (can_ready st0 s) as Hc0.
  { destruct (done c') eqn:Hd'; [|done]. rewrite Hst0 by done. destruct Hc as (_ & _ & ?).
    by split_and!; [constructor|constructor|]. }
  eapply IH; [done|exact Hrc|done..|lia|done|].
  intros s' fuel' (m & -> & Hrc' & Hm) Hf.
  assert (m !! b' = builds s !! b') as Hmb by by apply Hm.
  pose proof (advanced_seq b' l r c c' s m Hch Hnd Hrc' Hnodes Hroot Hm par rt rp) as Hadv.
  rewrite Hb, current_middle in Hmb by done. cbn [fmap option_fmap option_map] in Hmb.
  rewrite unfinished_middle, Hcd in Hmb, Hub. rewrite unfinished_middle in Hadv.
  destruct (done c') eqn:Hd'; cycle 1.
  { rewrite current_middle in Hadv by done. simpl in Hadv. rewrite Hroot in Hadv.
    specialize (HQ _ fuel' (Hadv _ _ Hmb (λ _ _, eq_refl))). cbn [done] in HQ.
    rewrite forallb_middle, Hd', andb_false_r in HQ. apply HQ. lia. }
  rewrite Hst0, ready_all_nil by done. rewrite Nat.add_0_r in Hadv.
  unfold done_phase at 1. destruct fuel' as [|fuel']; [lia|].
  rewrite csp_parsebuild_S. step. eapply wp_getb; [exact Hmb|]. step.
  destruct r as [|n r].
  - assert (Forall (λ t, done t = true) (l ++ [c'])) as Hall by (apply Forall_app; auto).
    apply seq_last; [by rewrite (unfinished_done l)|].
    specialize (HQ _ fuel' (Hadv [] (<[b' := _]> m) ltac:(rewrite lookup_insert_eq, current_last, unfinished_done by done; simpl; by rewrite Hroot) (insert_frame _ _ _))).
    rewrite ready_all_nil in HQ. cbn [done] in HQ. rewrite forallb_done in HQ by done. apply HQ. lia.
  - simpl forallb in *. split_andb.
    eapply seq_next; try done. simpl in Hc |- *. apply wp_ret.
    specialize (HQ _ fuel' (Hadv (active n) (<[b' := _]> m) ltac:(by rewrite lookup_insert_eq, seq_after) (insert_frame _ _ _))).
    cbn [done] in HQ. rewrite forallb_middle in HQ. cbn [forallb] in HQ.
    rewrite (fresh_not_done n), !andb_false_r in HQ by done. apply HQ. lia.
Qed.

Lemma parse_climb b t : climb_spec b t.
Proof.
  induction t using btree_ind'; [apply climb_leaf|by apply climb_par|by apply climb_seq].
Qed.

(** ** Whole runs *)

(** What the end of the process of [b] does to its build (proc_free). *)
Definition process_end (b : loc) : M (St T) () :=
  fuel ← build_fuel; csp_parsebuild fuel (Some b).

(** [t] is a started tree whose root was given to GO ([rp = None]) or RUN. *)
Definition running (t : btree) (rp : option loc) (s : St T) : Prop :=
  brep (builds s) None true rp t ∧ wf t = true ∧ NoDup (nodes t) ∧
  (Z.of_nat (length (nodes t)) < U64)%Z.

Definition tree_outcome (t t' : btree) (rp : option loc) (st : list loc) (s s' : St T) : Prop :=
  if done t' then builds_without (nodes t) (ready_all (st ++ option_list rp) s) s'
  else advanced t t' None true rp st s s'.

Lemma process_end_ok b t t' st rp s :
  running t rp s → complete b t = Some (t', st) →
  can_ready (st ++ if done t' then option_list rp else []) s →
  wp (process_end b) (λ _ s', tree_outcome t t' rp st s s') s.
Proof.
  intros (Hr & Hwf & Hnd & Hsz) Hc Hcan. unfold process_end.
  step. apply wp_get. cbv beta. unfold tree_outcome.
  eapply parse_climb; [done..| |by eapply can_ready_app|].
  { pose proof (height_size _ _ _ _ _ Hr Hnd). lia. }
  intros s' fuel' Hadv Hf. destruct (done t') eqn:Hd; [|done].
  rewrite (complete_done_nil _ _ _ _ Hwf Hc Hd) in *. simpl in *.
  destruct Hadv as (m & -> & Hr' & Hm). rewrite ready_all_nil.
  destruct (complete_nodes _ _ _ _ Hc) as [Hn _].
  unfold done_phase. step.
  assert (wp (match rp with Some p => scheduler_addready (Some p) | None => mret () end)
    (λ _ s', s' = set_builds (λ _, m) (ready_all (option_list rp) s)) (set_builds (λ _, m) s)) as Hrdy.
  { destruct rp as [p|]; simpl in *; [|apply wp_ret; by rewrite ready_all_nil].
    eapply wp_mono; [by apply addready_all|]. by intros ? ? ->. }
  eapply wp_mono; [exact Hrdy|]. intros [] ? ->. step. apply wp_get. cbv beta.
  rewrite <-(complete_root _ _ _ _ Hc). eapply wp_mono.
  { eapply cleanup_ok; [exact Hr'|by rewrite Hn|].
    simpl. pose proof (height_size _ _ _ _ _ Hr' ltac:(by rewrite Hn)). lia. }
  intros [] s2 (m2 & -> & Hm2). exists m2. split; [done|]. intros x. rewrite Hm2, Hn. simpl.
  case_decide; [done|]. by apply Hm.
Qed.

Lemma running_advanced t t' rp st s s' b :
  running t rp s → complete b t = Some (t', st) → advanced t t' None true rp st s s' →
  running t' rp s'.
Proof.
  intros (_ & Hwf & Hnd & Hsz) Hc (m & -> & Hr & _).
  destruct (complete_nodes _ _ _ _ Hc) as [Hn _].
  split_and!; [done|by eapply complete_wf|by rewrite Hn..].
Qed.

Lemma process_ends_ok bs : ∀ t t' st rp s,
  running t rp s → done t = false → complete_all bs t = Some (t', st) →
  can_ready (st ++ if done t' then option_list rp else []) s →
  wp (for_each process_end bs) (λ _ s', tree_outcome t t' rp st s s') s.
Proof.
  induction bs as [|b bs IH]; intros t t' st rp s Hrun Hnd Hc Hcan; simpl in Hc.
  - simplify_eq. simpl. apply wp_ret. unfold tree_outcome. rewrite Hnd.
    exists (builds s). rewrite ready_all_nil. split_and!; [by destruct s|apply Hrun|done].
  - apply bind_Some in Hc as ((t1 & st1) & Hc1 & Hc).
    apply bind_Some in Hc as ((t2 & st2) & Hc2 & ?). simplify_eq.
    rewrite <-app_assoc in Hcan. pose proof (can_ready_app _ _ _ Hcan) as [Hcan1 Hcan2].
    simpl. apply wp_bind. destruct (done t1) eqn:Hd1.
    + destruct bs as [|b' bs]; simpl in Hc2.
      * simplify_eq. rewrite Hd1 in *. eapply wp_mono.
        { eapply process_end_ok; [done|done|]. by rewrite Hd1. }
        intros [] s1 Hs1. apply wp_ret. by rewrite app_nil_r.
      * apply bind_Some in Hc2 as ((?&?) & Hc2%complete_not_done & _). congruence.
    + eapply wp_mono.
      { eapply process_end_ok; [done|done|]. by rewrite Hd1, app_nil_r. }
      intros [] s1 Hadv. unfold tree_outcome in Hadv. rewrite Hd1 in Hadv.
      pose proof (running_advanced _ _ _ _ _ _ _ Hrun Hc1 Hadv) as Hrun1.
      destruct Hadv as (m & -> & Hr1 & Hm).
      destruct (complete_nodes _ _ _ _ Hc1) as [Hn _].
      eapply wp_mono; [eapply (IH _ _ _ _ _ Hrun1); done|].
      intros [] s2. unfold tree_outcome. destruct (done t').
      * intros (m2 & -> & Hm2). exists m2. rewrite <-app_assoc, (ready_all_app st1).
        split; [done|]. intros x. rewrite Hm2, Hn. simpl. case_decide; [done|]. by apply Hm.
      * intros (m2 & -> & Hr2 & Hm2). exists m2. rewrite (ready_all_app st1).
        split_and!; [done..|]. intros x Hx. rewrite Hm2 by (by rewrite Hn). by apply Hm.
Qed.

(** ** Building a tree *)

Lemma brep_reparent m m' par par' rt rp t :
  brep m par rt rp t → NoDup (nodes t) →
  m' !! root t = b_set_parent par' <$> (m !! root t) →
  (∀ x, x ∈ nodes t → x ≠ root t → m' !! x = m !! x) →
  brep m' par' rt rp t.
Proof.
  intros Hr Hnd Hroot Hm.
  assert (∀ b ts, root t = b → nodes t = b :: flat_map nodes ts →
    Forall (brep m (Some b) false None) ts → Forall (brep m' (Some b) false None) ts) as Hch.
  { intros b ts Hb Hn Hf. rewrite Hn in Hnd, Hm. apply NoDup_cons in Hnd as [Hbn _].
    rewrite Forall_forall in *. intros u Hu. eapply brep_ext; [|by apply Hf].
    intros x Hx. pose proof (elem_of_nodes _ _ _ Hu Hx) as Hx'.
    apply Hm; [by right|]. intros ->. by rewrite Hb in Hx'. }
  inversion Hr as [????? ? Hb|????? Hb Hf|????? Hb Hf]; subst; simpl in Hroot;
    rewrite Hb in Hroot; constructor; try done; by apply Hch.
Qed.

(** The arguments of PAR and SEQ up to the first one that is not a builder. *)
Definition stop_errno (stop : varg) (s : St T) : St T :=
  match stop with VNull => set_errno EPERM s | _ => s end.

Definition is_ptr (a : varg) : bool := match a with VPtr _ => true | _ => false end.

Definition adopted (b : loc) (v : Builder) (cs : list loc) (m m' : gmap loc Builder) : Prop :=
  m' !! b = Some v ∧ (∀ c, c ∈ cs → m' !! c = b_set_parent (Some b) <$> (m !! c)) ∧
  (∀ x, x ≠ b → x ∉ cs → m' !! x = m !! x).

Lemma with_childs_id v n q : childs_of v = Some (n, q) → with_childs n q v = v.
Proof. destruct v as [? ? ? []]; cbv; by intros; simplify_eq. Qed.
Lemma childs_of_with v n q n' q' :
  childs_of v = Some (n, q) → childs_of (with_childs n' q' v) = Some (n', q').
Proof. destruct v as [? ? ? []]; cbv; by intros; simplify_eq. Qed.
Lemma with_childs_twice v n q n' q' : with_childs n q (with_childs n' q' v) = with_childs n q v.
Proof. by destruct v as [? ? ? []]. Qed.

Lemma adopted_cons b v n q c cs w (m m' : gmap loc Builder) :
  b ∉ q ++ c :: cs → c ∉ cs → m !! c = Some w →
  adopted b (with_childs (n + 1 + Z.of_nat (length cs)) ((q ++ [c]) ++ cs) (with_childs (n + 1) (q ++ [c]) v))
    cs (<[b := with_childs (n + 1) (q ++ [c]) v]> (<[c := b_set_parent (Some b) w]> m)) m' →
  adopted b (with_childs (n + Z.of_nat (S (length cs))) (q ++ c :: cs) v) (c :: cs) m m'.
Proof.
  intros Hb Hc Hw (Hbm & Hcm & Hm). assert (c ≠ b) as Hcb by set_solver. split_and!.
  - rewrite Hbm, with_childs_twice, <-app_assoc. simpl. do 2 f_equal. lia.
  - intros x [->|Hx]%elem_of_cons.
    + rewrite Hm by done. by rewrite lookup_insert_ne, lookup_insert_eq, Hw.
    + rewrite Hcm by done. rewrite !lookup_insert_ne; [done|set_solver..].
  - intros x Hx1 Hx2. rewrite Hm by set_solver. rewrite !lookup_insert_ne; [done|set_solver..].
Qed.

Lemma insertchilds_ok b stop rest cs : ∀ s v n q,
  is_ptr stop = false →
  builds s !! b = Some v → childs_of v = Some (n, q) → (0 ≤ n)%Z →
  (n + Z.of_nat (length cs) < U64)%Z →
  NoDup (b :: q ++ cs) → Forall (λ c, is_Some (builds s !! c)) q →
  Forall (λ c, ∃ w, builds s !! c = Some w ∧ b_parent w = None) cs →
  wp (csp_insertchilds b ((VPtr <$> cs) ++ stop :: rest))
    (λ r s', r = 0%Z ∧ ∃ m, s' = stop_errno stop (set_builds (λ _, m) s) ∧
       adopted b (with_childs (n + Z.of_nat (length cs)) (q ++ cs) v) cs (builds s) m) s.
Proof.
  induction cs as [|c cs IH]; intros s v n q Hstop Hb Hv Hn0 Hn Hnd Hq Hcs; simpl.
  - assert (∀ s', s' = stop_errno stop s → 0%Z = 0%Z ∧ ∃ m,
      s' = stop_errno stop (set_builds (λ _, m) s) ∧
      adopted b (with_childs (n + 0) (q ++ []) v) [] (builds s) m) as H.
    { intros s' ->. split; [done|]. exists (builds s). split; [by destruct s|].
      rewrite Z.add_0_r, app_nil_r. split_and!; [|set_solver|done].
      by rewrite Hb, with_childs_id. }
    destruct stop; [|by apply wp_ret, H|done]. step. step. apply wp_ret. by apply H.
  - apply Forall_cons in Hcs as [(w & Hw & Hp) Hcs]. simpl in Hn.
    apply NoDup_cons in Hnd as [Hbn Hnd].
    assert (c ≠ b) as Hcb by set_solver.
    assert (c ∉ q) as Hcq by (apply NoDup_app in Hnd as (_ & Hd & _); intros ?; by eapply Hd; [|left]).
    step. step. step. rewrite Hp. apply wp_when; [by case_bool_decide as Hx; [destruct Hx|]|]. intros _.
    step. step. step. eapply wp_getb; [simpl; by rewrite lookup_insert_ne|].
    step. eapply wp_deref; [exact Hv|]. step. apply wp_get. cbv beta iota.
    step. apply wp_INSERT_TAIL; [done| | |].
    { apply live_in_Some. simpl. by rewrite lookup_insert_eq. }
    { apply Forall_live. simpl. eapply Forall_impl; [exact Hq|]. intros x ?. by apply is_Some_insert. }
    step. step.
    assert (u64 (n + 1) = n + 1)%Z as -> by (apply Z.mod_small; lia).
    eapply wp_mono; [eapply (IH _ (with_childs (n + 1) (q ++ [c]) v) (n + 1)%Z (q ++ [c]))|].
    + done.
    + simpl. by rewrite lookup_insert_eq.
    + by eapply childs_of_with.
    + lia.
    + lia.
    + rewrite <-app_assoc. simpl. apply NoDup_cons. done.
    + apply Forall_app. split; [|constructor; [|done]].
      * eapply Forall_impl; [exact Hq|]. intros x ?. simpl. by do 2 apply is_Some_insert.
      * simpl. apply is_Some_insert. by rewrite lookup_insert_eq.
    + rewrite Forall_forall in *. intros x Hx. destruct (Hcs x Hx) as (w' & Hw' & ?).
      exists w'. split; [|done]. simpl.
      apply NoDup_app in Hnd as (_ & _ & [Hcc _]%NoDup_cons).
      rewrite !lookup_insert_ne; [done|set_solver..].
    + intros r s' (-> & m & -> & Had). split; [done|]. exists m. split; [by destruct stop|].
      apply NoDup_app in Hnd as (_ & _ & [Hcc _]%NoDup_cons). by eapply adopted_cons.
Qed.

(** ** Properties *)

(** Starting a fresh build tree (csp_runbuild, as RUN and GO call it) makes
    ready exactly the processes that may run, in order: all those of a PAR, those
    of the first child of a SEQ; nothing else changes. *)
Theorem csp_runbuild_starts t par rt rp s :
  brep (builds s) par rt rp t → wf t = true → fresh t = true → NoDup (nodes t) →
  can_ready (active t) s →
  wp (fuel ← build_fuel; csp_runbuild fuel (Some (root t)))
    (λ _ s', s' = ready_all (active t) s) s.
Proof.
  intros Hr Hwf Hf Hnd Hc. step. apply wp_get. cbv beta.
  eapply runbuild_fresh; try done. pose proof (height_size _ _ _ _ _ Hr Hnd). lia.
Qed.

(** C15: the end of the process of one leaf (csp_parsebuild, as proc_free calls it)
    takes the stored tree to the abstract tree in which that leaf is done, and
    makes ready what the abstract tree starts: the next child of a SEQ whose
    current child is done.  When the whole tree is done the caller of RUN is made
    ready and every builder of the tree is freed. *)
Theorem csp_parsebuild_refines b t t' st rp s :
  running t rp s → complete b t = Some (t', st) →
  can_ready (st ++ if done t' then option_list rp else []) s →
  wp (process_end b) (λ _ s', tree_outcome t t' rp st s s') s.
Proof. apply process_end_ok. Qed.

(** RUN always gets its caller back.  Whatever the order in which the running
    processes of a tree end, each end brings the tree one leaf closer to its end,
    an unfinished tree still waits for some process, and after the last end the
    caller is made ready, once, as the last of all the processes started, with
    every builder freed. *)
Theorem csp_tree_completes bs t t' st rp s :
  running t rp s → done t = false → complete_all bs t = Some (t', st) →
  can_ready (st ++ if done t' then option_list rp else []) s →
  length bs + pending t' = pending t ∧
  (done t' = false → ∃ b, is_Some (complete b t')) ∧
  wp (for_each process_end bs) (λ _ s',
    if done t' then
      s_readyQ (sched s') = s_readyQ (sched s) ++ st ++ option_list rp ∧
      (∀ x, builds s' !! x = if decide (x ∈ nodes t) then None else builds s !! x)
    else advanced t t' None true rp st s s') s.
Proof.
  intros Hrun Hd Hc Hcan. split_and!.
  - by eapply complete_all_pending.
  - intros Hd'. apply complete_progress; [|done]. eapply complete_all_wf; [apply Hrun|done].
  - eapply wp_mono; [by eapply process_ends_ok|]. intros [] s'. unfold tree_outcome.
    destruct (done t'); [|done]. intros (m & -> & Hm). done.
Qed.

(** Csp_insertchilds takes the children in argument order up to the first
    argument that is not a builder (the terminator, or the NULL of a failed child,
    which is reported in errno only): they are counted and queued behind the ones
    already there, their parent is set, and no other builder changes. *)
Theorem csp_insertchilds_adopts b stop rest cs s v n q :
  is_ptr stop = false →
  builds s !! b = Some v → childs_of v = Some (n, q) → (0 ≤ n)%Z →
  (n + Z.of_nat (length cs) < U64)%Z →
  NoDup (b :: q ++ cs) → Forall (λ c, is_Some (builds s !! c)) q →
  Forall (λ c, ∃ w, builds s !! c = Some w ∧ b_parent w = None) cs →
  wp (csp_insertchilds b ((VPtr <$> cs) ++ stop :: rest))
    (λ r s', r = 0%Z ∧ ∃ m, s' = stop_errno stop (set_builds (λ _, m) s) ∧
       adopted b (with_childs (n + Z.of_nat (length cs)) (q ++ cs) v) cs (builds s) m) s.
Proof. apply insertchilds_ok. Qed.
End csp_spec.

(** ** Witnesses *)

(** SEQ(PROC 1, PAR(PROC 2, PROC 3)), run by process 4. *)
Definition demo_tree : btree :=
  Seq 10 [Leaf 11 1 false; Par 12 [Leaf 13 2 false; Leaf 14 3 false]].

Definition demo_builds : gmap loc Builder :=
  <[10%positive := MkBuilder None true (Some 4%positive) (SeqBuild 2 (Some 11%positive) [11; 12]%positive)]> $
  <[11%positive := MkBuilder (Some 10%positive) false None (ProcBuild (Some 1%positive))]> $
  <[12%positive := MkBuilder (Some 10%positive) false None (ParBuild 2 [13; 14]%positive)]> $
  <[13%positive := MkBuilder (Some 12%positive) false None (ProcBuild (Some 2%positive))]> $
  <[14%positive := MkBuilder (Some 12%positive) false None (ProcBuild (Some 3%positive))]> ∅.

Definition demo_procs : gmap loc Proc :=
  list_to_map ((λ p, (p, demo_proc PROC_RUNWAIT)) <$> [1; 2; 3; 4]%positive).

Definition demo_csp : St rb_tree := demo_state demo_procs demo_builds None.

Lemma demo_tree_running : running (T := rb_tree) demo_tree (Some 4%positive) demo_csp.
Proof.
  split_and!; [|reflexivity|by apply (bool_decide_unpack _)|reflexivity].
  repeat first [ constructor | reflexivity ].
Qed.

Lemma demo_can_ready ps :
  bool_decide (NoDup ps) && forallb (λ p, bool_decide (is_Some (demo_procs !! p))) ps = true →
  can_ready ps demo_csp.
Proof.
  intros [H1%bool_decide_eq_true H2]%andb_true_iff. split_and!; [done| |constructor].
  apply Forall_forall. intros p Hp. rewrite forallb_forall in H2.
  split; [|apply not_elem_of_nil]. eapply bool_decide_eq_true, H2. by apply list_elem_of_In.
Qed.

Lemma csp_runbuild_starts_witness :
  wp (fuel ← build_fuel; csp_runbuild (E := demo_env) fuel (Some 10%positive))
    (λ _ s', s' = ready_all [1%positive] demo_csp) demo_csp.
Proof.
  pose proof (csp_runbuild_starts (E := demo_env) demo_tree None true (Some 4%positive) demo_csp) as H.
  apply H; try reflexivity; try apply demo_tree_running. by apply demo_can_ready.
Defined.

Lemma csp_parsebuild_refines_witness :
  wp (process_end (E := demo_env) 11%positive)
    (λ _ s', advanced demo_tree
       (Seq 10 [Leaf 11 1 true; Par 12 [Leaf 13 2 false; Leaf 14 3 false]])
       None true (Some 4%positive) [2; 3]%positive demo_csp s') demo_csp.
Proof.
  apply (csp_parsebuild_refines (E := demo_env) 11 demo_tree
    (Seq 10 [Leaf 11 1 true; Par 12 [Leaf 13 2 false; Leaf 14 3 false]]) [2; 3]%positive
    (Some 4%positive)); [apply demo_tree_running|reflexivity|by apply demo_can_ready].
Defined.

Lemma csp_tree_completes_witness :
  wp (for_each (process_end (E := demo_env)) [11; 14; 13]%positive)
    (λ _ s', s_readyQ (sched s') = [2; 3; 4]%positive ∧
      (∀ x, builds s' !! x = if decide (x ∈ nodes demo_tree) then None else demo_builds !! x))
    demo_csp.
Proof.
  apply (csp_tree_completes (E := demo_env) [11; 14; 13]%positive demo_tree
    (Seq 10 [Leaf 11 1 true; Par 12 [Leaf 13 2 true; Leaf 14 3 true]]) [2; 3]%positive
    (Some 4%positive) demo_csp);
    [apply demo_tree_running|reflexivity|reflexivity|by apply demo_can_ready].
Defined.

Definition demo_orphans : gmap loc Builder :=
  <[10%positive := MkBuilder None false None (ParBuild 0 [])]> $
  <[11%positive := MkBuilder None false None (ProcBuild (Some 1%positive))]> $
  <[12%positive := MkBuilder None false None (ProcBuild (Some 2%positive))]> ∅.

Lemma csp_insertchilds_adopts_witness :
  wp (csp_insertchilds 10 [VPtr 11; VPtr 12; VNull; VPtr 13])
    (λ r s', r = 0%Z ∧ ∃ m, s' = stop_errno VNull (set_builds (λ _, m) (demo_state demo_procs demo_orphans None)) ∧
       adopted 10 (MkBuilder None false None (ParBuild 2 [11; 12]%positive)) [11; 12]%positive
         demo_orphans m) (demo_state demo_procs demo_orphans None).
Proof.
  apply (csp_insertchilds_adopts 10 VNull [VPtr 13] [11; 12]%positive
    (demo_state demo_procs demo_orphans None) (MkBuilder None false None (ParBuild 0 [])) 0 []);
    try reflexivity; try done; [by apply (bool_decide_unpack _)|].
  repeat constructor; eexists; split; reflexivity.
Defined.
