(* ===== verification/Proc.v ===== *)
(** * Processes: proc.c *)
From stdpp Require Import base tactics list gmap.
From Stdlib Require Import ZArith Lia.
From S2P Require Import Prelude Tailq Rbtree RbInsert RbSpec State SchedOps Csp.

(** PROXC_NULL, [(void * )-1], ends the variadic arguments. *)
Definition PROXC_NULL : Z := U64 - 1.
Definition ARGS_N : nat := 32.

Section proc.
Context {T : Type} {TT : SleepTree T} {E : Env}.
Abbreviation M := (M (St T)).

(** The error code and the process stored through [new_proc].
    posix_memalign reports its failure without setting errno. *)
Definition proc_create (fxn : Z) : M (Z * option loc) :=
  ASSERT (negb (fxn =? 0)%Z) ;;
  o ← malloc;
  match o with
  | None => e ← get errno; mret (e, None)
  | Some p =>
      ok ← alloc_ok;
      if negb ok then e ← get errno; mret (e, None) else
      size ← gets s_stack_size;
      putp p (MkProc PROC_READY fxn [] size 0 (memalign_at p) 0 None) ;;
      q ← gets s_totalQ;
      live ← live_procs;
      q' ← TQ_INSERT_TAIL live q p;
      mods (s_set_totalQ q') ;;
      mret (0%Z, Some p)
  end.

(** The objects on the stack of [p]: ends that are not part of a guard, and
    its [struct Alt]. *)
Definition free_stack (p : loc) : M () :=
  modify (set_ends (filter (λ kv, ¬ (ce_proc kv.2 = Some p ∧ ce_guard kv.2 = None)))) ;;
  modify (set_alts (filter (λ kv, a_proc kv.2 ≠ Some p))).

(** [free(proc)]: the entry of [sleepRB_node] goes with the struct. *)
Definition free_proc (p : loc) : M () :=
  modify (set_procs (delete p)) ;;
  mods (λ c, s_set_sleep (s_sleep_num c) (st_free p (s_sleep_RB c)) c).

Definition proc_free (proc : option loc) : M () :=
  match proc with
  | None => mret ()
  | Some p =>
      v ← getp p;
      q ← gets s_totalQ;
      live ← live_procs;
      q' ← TQ_REMOVE live q p;
      mods (s_set_totalQ q') ;;
      match p_proc_build v with
      | Some b => fuel ← build_fuel; csp_parsebuild fuel (Some b)
      | None => mret ()
      end ;;
      free_stack p ;;
      free_proc p
  end.

(** One batch: realloc, then append the buffer. *)
Definition _proc_copyargs (p : loc) (buf : list Z) : M Z :=
  v ← getp p;
  ok ← alloc_ok;
  if negb ok then modify (set_errno ENOMEM) ;; free_proc p ;; get errno else
  putp p (p_set_args (p_args v ++ buf) v) ;;
  mret 0%Z.

(** [tmp] holds tmp_args[0 .. curr_n-1]. *)
Fixpoint setargs_loop (p : loc) (tmp : list Z) (args : list Z) : M (list Z) :=
  match args with
  | [] => undef
  | xarg :: args =>
      if (xarg =? PROXC_NULL)%Z then mret tmp else
      let tmp := tmp ++ [xarg] in
      if Nat.eqb (length tmp) ARGS_N then
        match args with
        | [] => undef
        | _ =>
            ret ← _proc_copyargs p tmp;
            ASSERT (ret =? 0)%Z ;;
            setargs_loop p [] args
        end
      else setargs_loop p tmp args
  end.

Definition proc_setargs (p : loc) (args : list Z) : M Z :=
  tmp ← setargs_loop p [] args;
  when (negb (Nat.eqb (length tmp) 0))
    (ret ← _proc_copyargs p tmp; ASSERT (ret =? 0)%Z) ;;
  mret 0%Z.

(** proxc_argn: NULL (0) beyond the arguments. *)
Definition proxc_argn (n : Z) : M Z :=
  p ← proc_self;
  v ← getp p;
  if (n <? Z.of_nat (length (p_args v)))%Z
  then deref (p_args v !! Z.to_nat n)
  else mret 0%Z.

(** What proc_mainfxn does when the function of the process has returned. *)
Definition proc_mainfxn_end (p : loc) : M (ctl Z) :=
  modp p (p_set_state PROC_ENDED) ;;
  proc_yield (Some p) KMain.

Definition _trampoline : M (ctl Z) :=
  p ← proc_self;
  modp p (p_set_state PROC_ENDED) ;;
  proc_yield (Some p) KMain.
End proc.
