(* ===== verification/ProcSpec.v ===== *)
(** * Processes: creation, arguments *)
From stdpp Require Import base tactics list gmap.
From Stdlib Require Import ZArith Lia.
From S2P Require Import Prelude Tailq Rbtree RbInsert RbSpec State SchedOps Exec Csp Proc.

Section proc_spec.
Context {T : Type} {TT : SleepTree T} {E : Env}.
Implicit Types s : St T.

(** [n] more allocation attempts. *)
Definition mallocs (n : nat) (s : St T) : St T :=
  set_counts (n_time s) (n_rand s) (n_malloc s + n) (n_switch s) s.

Definition with_args (p : loc) (args : list Z) (v : Proc) (n : nat) (s : St T) : St T :=
  set_procs <[p := p_set_args args v]> (mallocs n s).

Lemma mallocs_0 s : mallocs 0 s = s.
Proof. unfold mallocs. rewrite Nat.add_0_r. by destruct s. Qed.

Lemma with_args_0 p v s : procs s !! p = Some v → with_args p (p_args v) v 0 s = s.
Proof.
  intros Hv. unfold with_args. rewrite mallocs_0. unfold set_procs.
  destruct s, v; simpl in *. by rewrite insert_id.
Qed.

(** ** proc_setargs *)

Lemma copyargs_ok p buf v n args s :
  procs s !! p = Some v → malloc_ok (n_malloc s + n) = true →
  wp (_proc_copyargs p buf) (λ r s', r = 0%Z ∧ s' = with_args p (args ++ buf) v (S n) s)
    (with_args p args v n s).
Proof.
  intros Hv Hok. unfold _proc_copyargs. step. eapply wp_getp; [simpl; by rewrite lookup_insert_eq|].
  step. apply wp_alloc_ok. simpl n_malloc. rewrite Hok. simpl negb. steps.
  split; [done|]. apply St_eq; try reflexivity; simpl.
  - by rewrite insert_insert_eq.
  - by rewrite Nat.add_succ_r.
Qed.

(** Full batches, and the last one when it is not empty. *)
Lemma batches_exact n : 0 = n mod ARGS_N → n / ARGS_N = (n + (ARGS_N - 1)) / ARGS_N.
Proof.
  intros H. pose proof (Nat.div_mod_eq n ARGS_N). unfold ARGS_N in *.
  apply Nat.div_unique with 31; lia.
Qed.

Lemma batches_more n : n mod ARGS_N ≠ 0 → S (n / ARGS_N) = (n + (ARGS_N - 1)) / ARGS_N.
Proof.
  intros H. pose proof (Nat.div_mod_eq n ARGS_N).
  assert (n mod ARGS_N < ARGS_N) by by apply Nat.mod_upper_bound.
  unfold ARGS_N in *. apply Nat.div_unique with (n mod 32 - 1); lia.
Qed.

(** The batches of the loop: [tmp] is never full at the top. *)
Lemma setargs_loop_ok p v s rest xs : ∀ tmp args n,
  procs s !! p = Some v → (∀ k, malloc_ok k = true) → Forall (λ x, x ≠ PROXC_NULL) xs →
  length tmp < ARGS_N →
  wp (setargs_loop p tmp (xs ++ PROXC_NULL :: rest)) (λ tmp' s',
    length tmp' = (length tmp + length xs) mod ARGS_N ∧
    ∃ args', args' ++ tmp' = args ++ tmp ++ xs ∧
      s' = with_args p args' v (n + (length tmp + length xs) / ARGS_N) s)
    (with_args p args v n s).
Proof.
  induction xs as [|x xs IH]; intros tmp args n Hv Hok Hxs Htmp; cbn [app setargs_loop length].
  - rewrite Z.eqb_refl. apply wp_ret. rewrite Nat.add_0_r, app_nil_r.
    rewrite Nat.mod_small, Nat.div_small, Nat.add_0_r by done. split; [done|]. by exists args.
  - apply Forall_cons in Hxs as [Hx Hxs]. rewrite (proj2 (Z.eqb_neq _ _)) by done.
    rewrite length_app. change (length [x]) with 1.
    destruct (Nat.eqb_spec (length tmp + 1) ARGS_N) as [Hfull|Hfull].
    + assert (∀ m : M (St T) (list Z), match xs ++ PROXC_NULL :: rest with
        | [] => undef | _ :: _ => m end = m) as -> by by destruct xs.
      apply wp_bind. eapply wp_mono; [by apply copyargs_ok|].
      intros r ? [-> ->]. step. apply wp_ASSERT; [done|].
      eapply wp_mono; [apply (IH [] (args ++ tmp ++ [x]) (S n)); try done; cbn [length]; unfold ARGS_N in *; lia|].
      intros tmp' s' (Hlen & args' & Hargs & ->). cbn [length app] in Hlen, Hargs |- *.
      replace (length tmp + S (length xs)) with (length xs + 1 * ARGS_N) by (rewrite <-Hfull; lia).
      rewrite Nat.Div0.mod_add, Nat.div_add by done. split; [done|].
      exists args'. split; [by rewrite Hargs, <-!app_assoc|]. rewrite !Nat.add_0_l. f_equal. lia.
    + eapply wp_mono; [apply (IH (tmp ++ [x]) args n); try done; rewrite length_app; cbn [length]; lia|].
      intros tmp' s' (Hlen & args' & Hargs & ->). rewrite length_app in Hlen |- *. change (length [x]) with 1 in *.
      replace (length tmp + S (length xs)) with (length tmp + 1 + length xs) by lia.
      split; [done|]. exists args'. split; [by rewrite Hargs, <-!app_assoc|done].
Qed.

Lemma copyargs_nomem p buf v s :
  procs s !! p = Some v → malloc_ok (n_malloc s) = false →
  ∃ s', _proc_copyargs p buf s = Ok ENOMEM s' ∧
    procs s' !! p = None ∧ s_totalQ (sched s') = s_totalQ (sched s).
Proof.
  intros Hv Hno. assert (wp (_proc_copyargs p buf) (λ r s', r = ENOMEM ∧
    procs s' !! p = None ∧ s_totalQ (sched s') = s_totalQ (sched s)) s) as H.
  { unfold _proc_copyargs. step. step. step. step. rewrite Hno. cbn [negb].
    unfold free_proc. steps. split; [done|]. simpl. by rewrite lookup_delete_eq. }
  unfold wp in H. destruct (_proc_copyargs p buf s) as [r s'| | |]; try done.
  destruct H as (-> & ? & ?). by exists s'.
Qed.

Lemma setargs_loop_short p rest xs : ∀ tmp s,
  length xs + length tmp < ARGS_N → Forall (λ x, x ≠ PROXC_NULL) xs →
  setargs_loop p tmp (xs ++ PROXC_NULL :: rest) s = Ok (tmp ++ xs) s.
Proof.
  induction xs as [|x xs IH]; intros tmp s Hlen Hxs; cbn [app setargs_loop length] in *.
  - by rewrite Z.eqb_refl, app_nil_r.
  - apply Forall_cons in Hxs as [Hx Hxs]. rewrite (proj2 (Z.eqb_neq _ _)) by done.
    assert (length (tmp ++ [x]) = length tmp + 1) as Hl by by rewrite length_app.
    rewrite (proj2 (Nat.eqb_neq _ _)) by lia. rewrite IH by (done || lia). by rewrite <-app_assoc.
Qed.

Lemma setargs_ok p v s rest xs :
  procs s !! p = Some v → (∀ k, malloc_ok k = true) → Forall (λ x, x ≠ PROXC_NULL) xs →
  wp (proc_setargs p (xs ++ PROXC_NULL :: rest)) (λ r s', r = 0%Z ∧
    s' = with_args p (p_args v ++ xs) v ((length xs + (ARGS_N - 1)) / ARGS_N) s) s.
Proof.
  intros Hv Hok Hxs. unfold proc_setargs. rewrite <-(with_args_0 p v s) at 1 by done.
  apply wp_bind. eapply wp_mono; [apply (setargs_loop_ok p v s rest xs []); try done; cbn [length]; unfold ARGS_N; lia|].
  intros tmp s' (Hlen & args' & Hargs & ->). cbn [app] in Hargs. rewrite Nat.add_0_l in Hlen.
  assert ((0 + (length [] + length xs) / ARGS_N) = length xs / ARGS_N) as -> by done.
  destruct (decide (tmp = [])) as [->|Hne].
  - step. apply wp_ret. apply wp_ret. split; [done|]. rewrite app_nil_r in Hargs. subst args'.
    f_equal. by apply batches_exact.
  - rewrite (proj2 (Nat.eqb_neq _ _)) by (by destruct tmp). cbn [negb when]. step. step.
    eapply wp_mono; [by apply copyargs_ok|]. intros r ? [-> ->].
    apply wp_ASSERT; [done|]. apply wp_ret. split; [done|]. rewrite Hargs. f_equal.
    apply batches_more. rewrite <-Hlen. by destruct tmp.
Qed.

(** C29: what a parent passes is what the child reads: [proc_setargs] takes the
    arguments up to PROXC_NULL, in one reallocation per 32 of them, and
    [proxc_argn n] run by that process then gives the [n]-th of them, and NULL
    beyond the last. *)
Theorem setargs_argn p v s rest xs :
  procs s !! p = Some v → p_args v = [] → (∀ k, malloc_ok k = true) →
  Forall (λ x, x ≠ PROXC_NULL) xs →
  wp (proc_setargs p (xs ++ PROXC_NULL :: rest)) (λ r s',
    r = 0%Z ∧ n_malloc s' = n_malloc s + (length xs + 31) / 32 ∧
    ∀ n, (0 ≤ n)%Z → wp (proxc_argn n) (λ a _, a = nth (Z.to_nat n) xs 0%Z)
      (set_sched (s_set_curr (Some p)) s')) s.
Proof.
  intros Hv Hargs Hok Hxs. eapply wp_mono; [by apply setargs_ok|].
  intros r s' [-> ->]. split; [done|]. split; [done|]. intros n Hn. unfold proxc_argn.
  steps. rewrite Hargs. simpl p_args. cbn [app].
  destruct (Z.ltb_spec n (Z.of_nat (length xs))) as [Hlt|Hge].
  - destruct (lookup_lt_is_Some_2 xs (Z.to_nat n)) as [a Ha]; [lia|].
    eapply wp_deref; [done|]. symmetry. by apply nth_lookup_Some.
  - apply wp_ret. symmetry. apply nth_overflow. lia.
Qed.

(** When the reallocation for the arguments fails, [_proc_copyargs] frees
    the process.  With assertions the program stops; without them
    [proc_setargs] reports success for a process that no longer exists and is
    still in [totalQ]. *)
Theorem setargs_nomem p v s rest xs :
  procs s !! p = Some v → xs ≠ [] → length xs < 32 → Forall (λ x, x ≠ PROXC_NULL) xs →
  malloc_ok (n_malloc s) = false →
  if NDEBUG then
    wp (proc_setargs p (xs ++ PROXC_NULL :: rest)) (λ r s',
      r = 0%Z ∧ procs s' !! p = None ∧ s_totalQ (sched s') = s_totalQ (sched s)) s
  else proc_setargs p (xs ++ PROXC_NULL :: rest) s = Abort.
Proof.
  intros Hv Hne Hlen Hxs Hno.
  destruct (copyargs_nomem p xs v s Hv Hno) as (s1 & Hcopy & Hp & Hq).
  assert (proc_setargs p (xs ++ PROXC_NULL :: rest) s =
          (if NDEBUG then Ok 0%Z s1 else Abort)) as Hrun.
  { unfold proc_setargs, mbind, M_bind. rewrite setargs_loop_short by (done || (cbn [length]; unfold ARGS_N; lia)).
    cbn [app]. rewrite (proj2 (Nat.eqb_neq _ _)) by (by destruct xs). cbn [negb when].
    unfold mbind, M_bind. rewrite Hcopy. unfold ASSERT. by destruct NDEBUG. }
  unfold wp. rewrite Hrun. by destruct NDEBUG.
Qed.

(** C20: [proc_create] on each outcome of its two allocations.  It reports
    [ENOMEM] when malloc fails; when posix_memalign fails it returns whatever
    [errno] held, so with [errno] 0 the caller is told it succeeded and
    [new_proc] was not written. *)
Theorem proc_create_outcome fxn s :
  fxn ≠ 0%Z → fresh_loc s ∉ s_totalQ (sched s) →
  Forall (λ p, is_Some (procs s !! p)) (s_totalQ (sched s)) →
  wp (proc_create fxn) (λ '(err, new_proc) s',
    match malloc_ok (n_malloc s), malloc_ok (S (n_malloc s)) with
    | true, true => err = 0%Z ∧ new_proc = Some (fresh_loc s) ∧
        s_totalQ (sched s') = s_totalQ (sched s) ++ [fresh_loc s] ∧
        procs s' = <[fresh_loc s := MkProc PROC_READY fxn [] (s_stack_size (sched s)) 0
                      (memalign_at (fresh_loc s)) 0 None]> (procs s)
    | true, false => err = errno s ∧ new_proc = None ∧ sched s' = sched s ∧ procs s' = procs s
    | false, _ => err = ENOMEM ∧ new_proc = None ∧ sched s' = sched s ∧ procs s' = procs s
    end) s.
Proof.
  intros Hf Hn Hl. unfold proc_create, malloc.
  apply wp_bind. apply wp_ASSERT; [by apply negb_true_iff, Z.eqb_neq|].
  step. step. step. destruct (malloc_ok (n_malloc s)) eqn:H1; [|by steps].
  step. step. step. step. step. step. step. simpl n_malloc.
  destruct (malloc_ok (S (n_malloc s))) eqn:H2; cbn [negb]; [|by steps].
  steps. apply wp_INSERT_TAIL; [done|..].
  - apply live_in_Some. simpl. rewrite lookup_insert_eq. by eexists.
  - apply Forall_live. simpl. by apply Forall_is_Some_insert.
  - steps. by simpl.
Qed.
End proc_spec.

(** ** The claims at concrete inputs *)

Section examples.
#[local] Existing Instance demo_env.

Definition args_state : St rb_tree :=
  demo_state {[ 1%positive := demo_proc PROC_READY ]} ∅ None.

Lemma setargs_argn_witness :
  let s := args_state in
  wp (proc_setargs 1%positive ([7; 8; 9]%Z ++ [PROXC_NULL])) (λ r s',
    r = 0%Z ∧ n_malloc s' = n_malloc s + (3 + 31) / 32 ∧
    ∀ n, (0 ≤ n)%Z → wp (proxc_argn n) (λ a _, a = nth (Z.to_nat n) [7; 8; 9]%Z 0%Z)
      (set_sched (s_set_curr (Some 1%positive)) s')) s.
Proof.
  intros s. apply (setargs_argn 1%positive (demo_proc PROC_READY) s [] [7; 8; 9]%Z); try done.
  repeat constructor; by vm_compute.
Defined.

Lemma proc_create_outcome_witness :
  wp (proc_create 5) (λ '(err, new_proc) s',
    err = 0%Z ∧ new_proc = Some 100%positive ∧ s_totalQ (sched s') = [1; 100]%positive ∧
    procs s' = <[100%positive := MkProc PROC_READY 5 [] 8192 0 (1048576 + 819200) 0 None]>
                 (procs args_state)) args_state.
Proof.
  eapply wp_mono; [apply (proc_create_outcome 5 args_state)|].
  - done.
  - by apply (bool_decide_unpack _).
  - by apply (bool_decide_unpack _).
  - by intros [err new_proc] s'.
Defined.
End examples.

Section failure.
#[local] Instance nomem_env : Env := {|
  NDEBUG := true;
  timeofday k := (0, 0)%Z;
  rand_at k := 0%Z;
  malloc_ok _ := false;
  pagesize := 4096;
  memalign_at p := 0%Z;
  madvise_ret _ := 0%Z;
  stack_depth _ := 100%Z
|}.

Lemma setargs_nomem_witness :
  wp (proc_setargs 1%positive ([7; 8]%Z ++ [PROXC_NULL])) (λ r s',
    r = 0%Z ∧ procs s' !! 1%positive = None ∧ s_totalQ (sched s') = [1%positive]) args_state.
Proof.
  refine (setargs_nomem (E := nomem_env) 1%positive (demo_proc PROC_READY) args_state [] [7; 8]%Z _ _ _ _ _); try done.
  - simpl. lia.
  - repeat constructor; by vm_compute.
Defined.
End failure.
