(* ===== verification/AltCore.v ===== *)
(** * Guards and the set-up of an ALT: the first half of alt.c *)
From stdpp Require Import base tactics list gmap.
From Stdlib Require Import ZArith Lia.
From S2P Require Import Prelude Tailq Rbtree RbInsert RbSpec State SchedOps.

Section alt_core.
Context {T : Type} {TT : SleepTree T} {E : Env}.
Abbreviation M := (M (St T)).

(** The guard and its embedded [ch_end], zeroed by calloc; the two switches on
    [type] are one here. *)
Definition alt_guardcreate (type : GuardType) (usec : Z) (chan : option loc)
    (data size : Z) : M (option loc) :=
  o ← malloc;
  match o with
  | None => mret None
  | Some g =>
      e ← stack_alloc;
      mods (λ c, s_set_altsleep (s_altsleep_num c) (st_calloc g (s_altsleep_RB c)) c) ;;
      match type with
      | GUARD_SKIP =>
          pute e (MkEnd CHAN_WRITER 0 None None None) ;;
          putg g (MkGuard type (-1) None 0 None e 0 0 false)
      | GUARD_TIME =>
          pute e (MkEnd CHAN_WRITER 0 None None None) ;;
          putg g (MkGuard type (-1) None usec None e 0 0 false)
      | GUARD_CHAN =>
          ASSERT (bool_decide (is_Some chan)) ;;
          pute e (MkEnd CHAN_ALTER data chan None (Some g)) ;;
          putg g (MkGuard type (-1) None 0 chan e data size false)
      end ;;
      mret (Some g)
  end.

(** [free]: the embedded end and tree entry go with the struct. *)
Definition alt_guardfree (guard : option loc) : M () :=
  match guard with
  | None => mret ()
  | Some g =>
      v ← getg g;
      modify (set_guards (delete g)) ;;
      modify (set_ends (delete (g_ch_end v))) ;;
      mods (λ c, s_set_altsleep (s_altsleep_num c) (st_free g (s_altsleep_RB c)) c)
  end.

Definition alt_init (alt : loc) : M () :=
  p ← proc_self;
  puta alt (MkAlt 0 false None None 0 [] None None (Some p)).

(** TAILQ_NEXT: the link to the next guard is a field of the guard [g]. *)
Definition guard_next (alt g : loc) : M (option loc) :=
  getg g ;;
  a ← geta alt;
  mret (Q.next (a_guardsQ a) g).

(** TAILQ_FOREACH: the link is read after the body, which has freed the guard. *)
Fixpoint cleanup_loop (fuel : nat) (alt : loc) (guard : option loc) : M () :=
  match guard with
  | None => mret ()
  | Some g =>
      match fuel with
      | O => diverge
      | S fuel =>
          alt_guardfree (Some g) ;;
          next ← guard_next alt g;
          cleanup_loop fuel alt next
      end
  end.

(** [free(alt->ready.guards)] leaves the ALT without its array. *)
Definition alt_cleanup (alt : loc) : M () :=
  a ← geta alt;
  cleanup_loop (S (length (a_guardsQ a))) alt (head (a_guardsQ a)) ;;
  when (bool_decide (is_Some (a_ready a))) (moda alt (a_set_ready None)).

Definition live_guards : M (loc → bool) := get (λ s, live_in (guards s)).

Definition guard_time_usec (o : option loc) : M (option Z) :=
  match o with Some t => w ← getg t; mret (Some (g_usec w)) | None => mret None end.

(** Only the time guard with the lowest deadline is kept: whether [guard] loses. *)
Definition time_guard_loses (a : Alt) (v : Guard) : M bool :=
  match g_type v with
  | GUARD_TIME =>
      o ← guard_time_usec (a_guard_time a);
      mret (match o with Some u => (u <=? g_usec v)%Z | None => false end)
  | _ => mret false
  end.

(** [key_count] is an int: its increment overflows at INT_MAX. *)
Definition INT_MAX : Z := 2 ^ 31 - 1.

Definition alt_addguard (alt : loc) (guard : option loc) : M () :=
  a ← geta alt;
  let key := a_key_count a in
  if (INT_MAX <=? key)%Z then undef else
  moda alt (a_set_key_count (key + 1)) ;;
  match guard with
  | None => mret ()
  | Some g =>
      v ← getg g;
      loses ← time_guard_loses a v;
      if loses : bool then mret () else
      when (bool_decide (g_type v = GUARD_TIME))
        (alt_guardfree (a_guard_time a) ;;
         moda alt (a_set_guard_time (Some g))) ;;
      modg g (g_set_key_alt key (Some alt)) ;;
      w ← getg g;
      ce ← gete (g_ch_end w);
      pute (g_ch_end w) (ce_set_proc (a_proc a) ce) ;;
      a ← geta alt;
      live ← live_guards;
      q' ← TQ_INSERT_TAIL live (a_guardsQ a) g;
      puta alt (a_set_guards (u64 (a_guards_num a + 1)) q' a)
  end.

Definition alt_accept (guard : option loc) : M bool :=
  g ← notnull guard;
  v ← getg g;
  al ← deref (g_alt v);
  a ← geta al;
  if a_is_accepted a then mret false else
  puta al (a_set_accepted true (Some g) a) ;;
  mret true.
End alt_core.
