(* ===== verification/Chan.v ===== *)
(** * Channels: chan.c *)
From stdpp Require Import base tactics list gmap.
From Stdlib Require Import ZArith Lia.
From S2P Require Import Prelude Tailq Rbtree RbInsert RbSpec State SchedOps AltCore.

Section chan.
Context {T : Type} {TT : SleepTree T} {E : Env}.
Abbreviation M := (M (St T)).

Definition chan_create (data_size : Z) : M (option loc) :=
  o ← malloc;
  match o with
  | None => mret None
  | Some c => modify (set_chans <[c := MkChan data_size [] []]>) ;; mret (Some c)
  end.

Definition chan_free (chan : option loc) : M () :=
  match chan with
  | None => mret ()
  | Some c => getc c ;; modify (set_chans (delete c))
  end.

(** *** Memory: an access outside [mem] is undefined *)

Fixpoint load_bytes (n : nat) (a : Z) : M (list Z) :=
  match n with
  | O => mret []
  | S n => b ← get (λ s, mem s !! a); b ← deref b; l ← load_bytes n (a + 1); mret (b :: l)
  end.

Fixpoint store_bytes (a : Z) (l : list Z) : M () :=
  match l with
  | [] => mret ()
  | b :: l =>
      o ← get (λ s, mem s !! a); deref o ;;
      modify (set_mem <[a := b]>) ;;
      store_bytes (a + 1) l
  end.

(** Little-endian integers: [uintN_t] as loaded and stored by x86. *)
Fixpoint le_combine (l : list Z) : Z :=
  match l with
  | [] => 0
  | b :: l => Z.lor b (Z.shiftl (le_combine l) 8)
  end.

Fixpoint le_split (n : nat) (v : Z) : list Z :=
  match n with
  | O => []
  | S n => Z.land v 255 :: le_split n (Z.shiftr v 8)
  end.

Definition load_uint (n : nat) (a : Z) : M Z :=
  l ← load_bytes n a; mret (le_combine l).

Definition store_uint (n : nat) (a v : Z) : M () := store_bytes a (le_split n v).

Definition ranges_overlap (a b n : Z) : bool := ((a <? b + n) && (b <? a + n))%Z.

(** memcpy: overlapping ranges are undefined. *)
Definition memcpy (dst src size : Z) : M () :=
  when (ranges_overlap dst src size) undef ;;
  l ← load_bytes (Z.to_nat size) src;
  store_bytes dst l.

Definition copy_uint (n : nat) (dst src : Z) : M () :=
  v ← load_uint n src; store_uint n dst v.

Definition _chan_copydata (dst src size : Z) : M () :=
  if (size =? 0)%Z then mret () else
  if (size =? 1)%Z then copy_uint 1 dst src else
  if (size =? 2)%Z then copy_uint 2 dst src else
  if (size =? 4)%Z then copy_uint 4 dst src else
  if (size =? 8)%Z then copy_uint 8 dst src else
  memcpy dst src size.

(** *** Reading and writing *)

Definition live_ends : M (loc → bool) := get (λ s, live_in (ends s)).

Definition endQ_remove (c : loc) (e : loc) : M () :=
  ch ← getc c;
  live ← live_ends;
  q' ← TQ_REMOVE live (c_endQ ch) e;
  putc c (c_set_endQ q' ch).

Definition endQ_insert_tail (c : loc) (e : loc) : M () :=
  ch ← getc c;
  live ← live_ends;
  q' ← TQ_INSERT_TAIL live (c_endQ ch) e;
  putc c (c_set_endQ q' ch).

(** The first end of [endQ] when it has the given type. *)
Definition first_end_of (c : loc) (ty : ChanEndType) : M (option (loc * ChanEnd)) :=
  ch ← getc c;
  match head (c_endQ ch) with
  | None => mret None
  | Some first =>
      v ← gete first;
      mret (if decide (ce_type v = ty) then Some (first, v) else None)
  end.

(** Enqueue a stack end and wait for the other side. *)
Definition chan_wait (c : loc) (ty : ChanEndType) (data : Z) : M (ctl Z) :=
  p ← proc_self;
  e ← stack_alloc;
  pute e (MkEnd ty data (Some c) (Some p) None) ;;
  endQ_insert_tail c e ;;
  modp p (p_set_state PROC_CHANWAIT) ;;
  proc_yield (Some p) (KChan e).

(** [first->guard] of the first alter, when [alt_accept] takes it. *)
Definition accept_first_alter (c : loc) : M (option ChanEnd) :=
  ch ← getc c;
  match head (c_altQ ch) with
  | None => mret None
  | Some first =>
      v ← gete first;
      ok ← alt_accept (ce_guard v);
      mret (if ok : bool then Some v else None)
  end.

Definition chan_write (chan : option loc) (data size : Z) : M (ctl Z) :=
  c ← notnull chan;
  ch ← getc c;
  ASSERT (size =? c_data_size ch)%Z ;;
  o ← accept_first_alter c;
  match o with
  | Some v =>
      _chan_copydata (ce_data v) data size ;;
      scheduler_addready (ce_proc v) ;;
      mret (CRet 1%Z)
  | None =>
      r ← first_end_of c CHAN_READER;
      match r with
      | Some (first, v) =>
          endQ_remove c first ;;
          _chan_copydata (ce_data v) data size ;;
          scheduler_addready (ce_proc v) ;;
          mret (CRet 1%Z)
      | None => chan_wait c CHAN_WRITER data
      end
  end.

Definition chan_read (chan : option loc) (data size : Z) : M (ctl Z) :=
  c ← notnull chan;
  ch ← getc c;
  ASSERT (size =? c_data_size ch)%Z ;;
  r ← first_end_of c CHAN_WRITER;
  match r with
  | Some (first, v) =>
      endQ_remove c first ;;
      _chan_copydata data (ce_data v) size ;;
      scheduler_addready (ce_proc v) ;;
      mret (CRet 1%Z)
  | None => chan_wait c CHAN_READER data
  end.

(** The call returns: its stack end is gone. *)
Definition chan_resume (e : loc) : M Z :=
  modify (set_ends (delete e)) ;; mret 1%Z.

Definition chan_altenable (chan : option loc) (guard : loc) : M bool :=
  c ← notnull chan;
  v ← getg guard;
  r ← first_end_of c CHAN_WRITER;
  match r with
  | Some _ => mret true
  | None =>
      ch ← getc c;
      live ← live_ends;
      q' ← TQ_INSERT_TAIL live (c_altQ ch) (g_ch_end v);
      putc c (c_set_altQ q' ch) ;;
      mret false
  end.

Definition chan_altdisable (chan : option loc) (guard : loc) : M () :=
  c ← notnull chan;
  v ← getg guard;
  ASSERT (bool_decide (Some c = g_chan v)) ;;
  ch ← getc c;
  live ← live_ends;
  q' ← TQ_REMOVE live (c_altQ ch) (g_ch_end v);
  putc c (c_set_altQ q' ch).

Definition chan_altread (chan : option loc) (guard : loc) (size : Z) : M () :=
  c ← notnull chan;
  v ← getg guard;
  ch ← getc c;
  ASSERT (size =? c_data_size ch)%Z ;;
  first ← deref (head (c_endQ ch));
  w ← gete first;
  if decide (ce_type w ≠ CHAN_WRITER) then PANIC else
  endQ_remove c first ;;
  _chan_copydata (g_data_ptr v) (ce_data w) (c_data_size ch) ;;
  scheduler_addready (ce_proc w).
End chan.
