(* ===== verification/CopySpec.v ===== *)
(** * Copying a message: the byte-wise memory and _chan_copydata of chan.c *)
From stdpp Require Import base tactics list gmap.
From Stdlib Require Import ZArith Lia.
From S2P Require Import Prelude Tailq Rbtree RbInsert RbSpec State SchedOps Exec AltCore Chan.

(** ** The reference: [n] bytes moved at once *)

Definition is_byte (b : Z) : Prop := (0 ≤ b < 256)%Z.

(** Addresses [a .. a+n-1] may be accessed and hold bytes. *)
Definition mapped (m : gmap Z Z) (a n : Z) : Prop :=
  ∀ i, (0 ≤ i < n)%Z → ∃ b, m !! (a + i)%Z = Some b ∧ is_byte b.

Fixpoint upd (a : Z) (l : list Z) (m : gmap Z Z) : gmap Z Z :=
  match l with
  | [] => m
  | b :: l => upd (a + 1) l (<[a := b]> m)
  end.

Fixpoint bytes (m : gmap Z Z) (a : Z) (n : nat) : list Z :=
  match n with
  | O => []
  | S n => default 0%Z (m !! a) :: bytes m (a + 1) n
  end.

(** memmove. *)
Definition mcopy (dst src n : Z) (m : gmap Z Z) : gmap Z Z := upd dst (bytes m src (Z.to_nat n)) m.

Lemma length_bytes m n : ∀ a, length (bytes m a n) = n.
Proof. induction n as [|n IH]; intros a; simpl; [done|]. by rewrite IH. Qed.

Lemma bytes_lookup m n : ∀ a i, i < n → bytes m a n !! i = Some (default 0%Z (m !! (a + Z.of_nat i)%Z)).
Proof.
  induction n as [|n IH]; intros a i Hi; [lia|]. destruct i as [|i]; simpl.
  - by rewrite Z.add_0_r.
  - rewrite IH by lia. do 3 f_equal. lia.
Qed.

Lemma upd_out l : ∀ a m x, (x < a ∨ a + Z.of_nat (length l) ≤ x)%Z → upd a l m !! x = m !! x.
Proof.
  induction l as [|b l IH]; intros a m x Hx; simpl in *; [done|].
  rewrite IH by lia. apply lookup_insert_ne. lia.
Qed.

Lemma upd_in l : ∀ a m i b, l !! i = Some b → upd a l m !! (a + Z.of_nat i)%Z = Some b.
Proof.
  induction l as [|b' l IH]; intros a m i b Hi; simpl in *; [done|]. destruct i as [|i]; simplify_eq/=.
  - rewrite upd_out by lia. by rewrite Z.add_0_r, lookup_insert_eq.
  - replace (a + Z.of_nat (S i))%Z with (a + 1 + Z.of_nat i)%Z by lia. by apply IH.
Qed.

Lemma mcopy_in dst src n m i :
  mapped m src n → (0 ≤ i < n)%Z → mcopy dst src n m !! (dst + i)%Z = m !! (src + i)%Z.
Proof.
  intros Hm Hi. unfold mcopy. rewrite <-(Z2Nat.id i) by lia.
  erewrite upd_in by (apply bytes_lookup; lia). rewrite Z2Nat.id by lia.
  by destruct (Hm i Hi) as (b & -> & _).
Qed.

Lemma mcopy_out dst src n m x :
  (0 ≤ n → x < dst ∨ dst + n ≤ x → mcopy dst src n m !! x = m !! x)%Z.
Proof. intros Hn Hx. apply upd_out. rewrite length_bytes. lia. Qed.

Lemma mapped_mcopy m a k dst src n :
  (0 ≤ n)%Z → mapped m src n → mapped m a k → mapped (mcopy dst src n m) a k.
Proof.
  intros Hn Hs Ha i Hi. destruct (decide (dst ≤ a + i < dst + n)%Z) as [Hin|Hout].
  - replace (a + i)%Z with (dst + (a + i - dst))%Z by lia. rewrite mcopy_in by (done || lia).
    apply Hs. lia.
  - rewrite mcopy_out by lia. by apply Ha.
Qed.

(** ** Little-endian integers *)

Lemma le_split_combine l : Forall is_byte l → le_split (length l) (le_combine l) = l.
Proof.
  induction l as [|b l IH]; simpl; [done|]. intros [[Hb1 Hb2] Hl]%Forall_cons. f_equal.
  - change 255%Z with (Z.ones 8). rewrite Z.land_lor_distr_l, !Z.land_ones by lia.
    rewrite Z.shiftl_mul_pow2, Z_mod_mult, Z.lor_0_r by lia. apply Z.mod_small. lia.
  - rewrite Z.shiftr_lor, Z.shiftr_shiftl_l, Z.sub_diag, Z.shiftl_0_r by lia.
    rewrite Z.shiftr_div_pow2, Z.div_small, Z.lor_0_l by lia. by apply IH.
Qed.

Section copy.
Context {T : Type} {TT : SleepTree T} {E : Env}.
Implicit Types s : St T.

Lemma mapped_cons m a n : mapped m a (Z.of_nat (S n)) →
  (∃ b, m !! a = Some b ∧ is_byte b) ∧ mapped m (a + 1) (Z.of_nat n).
Proof.
  intros H. split.
  - destruct (H 0%Z) as (b & ? & ?); [lia|]. exists b. by rewrite Z.add_0_r in *.
  - intros i Hi. destruct (H (1 + i)%Z) as (b & Hb & ?); [lia|]. exists b.
    by rewrite Z.add_assoc in Hb.
Qed.

Lemma bytes_are_bytes m n : ∀ a, mapped m a (Z.of_nat n) → Forall is_byte (bytes m a n).
Proof.
  induction n as [|n IH]; intros a Hm; simpl; [done|].
  apply mapped_cons in Hm as ((b & -> & ?) & Hm). constructor; [done|by apply IH].
Qed.

Lemma load_bytes_ok n : ∀ a (Q : list Z → St T → Prop) s,
  mapped (mem s) a (Z.of_nat n) → Q (bytes (mem s) a n) s → wp (load_bytes n a) Q s.
Proof.
  induction n as [|n IH]; intros a Q s Hm HQ; [done|].
  apply mapped_cons in Hm as ((b & Hb & _) & Hm). simpl in HQ. rewrite Hb in HQ.
  cbn [load_bytes]. step. step. step. eapply wp_deref; [done|]. step. apply IH; [done|]. by step.
Qed.

Lemma store_bytes_ok l : ∀ a (Q : () → St T → Prop) s,
  (∀ i, (0 ≤ i < Z.of_nat (length l))%Z → is_Some (mem s !! (a + i)%Z)) →
  Q () (set_mem (upd a l) s) → wp (store_bytes a l) Q s.
Proof.
  induction l as [|b l IH]; intros a Q s Hm HQ; cbn [store_bytes].
  - apply wp_ret. destruct s. exact HQ.
  - destruct (Hm 0%Z) as [b' Hb']; [simpl; lia|]. rewrite Z.add_0_r in Hb'.
    step. step. step. eapply wp_deref; [done|]. step. step. apply IH; [|exact HQ].
    intros i Hi. simpl. apply lookup_insert_is_Some'. right. rewrite <-Z.add_assoc. apply Hm. simpl; lia.
Qed.

Lemma mapped_is_Some m a n i : mapped m a n → (0 ≤ i < n)%Z → is_Some (m !! (a + i)%Z).
Proof. intros H Hi. destruct (H i Hi) as (b & ? & _). by exists b. Qed.

Lemma copy_uint_ok n dst src (Q : () → St T → Prop) s :
  mapped (mem s) src (Z.of_nat n) → mapped (mem s) dst (Z.of_nat n) →
  Q () (set_mem (mcopy dst src (Z.of_nat n)) s) → wp (copy_uint n dst src) Q s.
Proof.
  intros Hs Hd HQ. unfold copy_uint, load_uint, store_uint.
  step. step. apply load_bytes_ok; [done|]. step.
  pose proof (le_split_combine (bytes (mem s) src n)) as Hr. rewrite length_bytes in Hr.
  rewrite Hr by by apply bytes_are_bytes.
  apply store_bytes_ok; [rewrite length_bytes; intros; by eapply mapped_is_Some|].
  unfold mcopy in HQ. by rewrite Nat2Z.id in HQ.
Qed.

Lemma memcpy_ok dst src n (Q : () → St T → Prop) s :
  (0 ≤ n)%Z → ranges_overlap dst src n = false →
  mapped (mem s) src n → mapped (mem s) dst n →
  Q () (set_mem (mcopy dst src n) s) → wp (memcpy dst src n) Q s.
Proof.
  intros Hn Ho Hs Hd HQ. unfold memcpy. rewrite Ho. cbn [when]. step. step. step.
  apply load_bytes_ok; [by rewrite Z2Nat.id|].
  apply store_bytes_ok; [|exact HQ].
  rewrite length_bytes, Z2Nat.id by done. intros. by eapply mapped_is_Some.
Qed.

(** What a caller owes for a copy: memcpy wants disjoint buffers. *)
Definition copyable (m : gmap Z Z) (dst src n : Z) : Prop :=
  (0 ≤ n)%Z ∧ mapped m src n ∧ mapped m dst n ∧
  (n ∈ [0; 1; 2; 4; 8]%Z ∨ ranges_overlap dst src n = false).

Lemma copydata_ok dst src n (Q : () → St T → Prop) s :
  copyable (mem s) dst src n →
  Q () (set_mem (mcopy dst src n) s) → wp (_chan_copydata dst src n) Q s.
Proof.
  intros (Hn & Hs & Hd & Ho) HQ. unfold _chan_copydata.
  destruct (Z.eqb_spec n 0) as [->|]; [apply wp_ret; by destruct s|].
  destruct (Z.eqb_spec n 1) as [->|]; [by apply copy_uint_ok|].
  destruct (Z.eqb_spec n 2) as [->|]; [by apply copy_uint_ok|].
  destruct (Z.eqb_spec n 4) as [->|]; [by apply copy_uint_ok|].
  destruct (Z.eqb_spec n 8) as [->|]; [by apply copy_uint_ok|].
  apply memcpy_ok; try done. destruct Ho as [Ho|]; [|done]. set_solver.
Qed.

(** C28: [_chan_copydata] moves a message of any size: each byte of the
    destination is the byte the source had, whichever of the integer copies or
    memcpy is taken, and no other byte of memory or field of the runtime
    changes. *)
Theorem copydata_moves dst src n s :
  copyable (mem s) dst src n →
  wp (_chan_copydata dst src n) (λ _ s',
    s' = set_mem (λ _, mem s') s ∧
    (∀ i, (0 ≤ i < n)%Z → mem s' !! (dst + i)%Z = mem s !! (src + i)%Z) ∧
    (∀ x, (x < dst ∨ dst + n ≤ x)%Z → mem s' !! x = mem s !! x)) s.
Proof.
  intros H. apply copydata_ok; [done|]. destruct H as (Hn & Hs & _). split; [done|]. split.
  - intros i Hi. by apply mcopy_in.
  - intros x Hx. by apply mcopy_out.
Qed.
End copy.

(** ** The claim at a concrete input *)

Lemma mapped_1 (m : gmap Z Z) a : (∃ x, m !! a = Some x ∧ is_byte x) → mapped m a 1.
Proof. intros (x & Hx & ?) i Hi. replace i with 0%Z by lia. rewrite Z.add_0_r. eauto. Qed.

Section examples.
#[local] Existing Instance demo_env.

Definition copy_state : St rb_tree :=
  set_mem (λ _, list_to_map [(10, 1); (11, 200); (12, 255); (20, 0); (21, 0); (22, 0); (23, 9)]%Z)
    (demo_state ∅ ∅ None).

Lemma mapped_3 (m : gmap Z Z) a :
  (∃ x y z, m !! a = Some x ∧ m !! (a + 1)%Z = Some y ∧ m !! (a + 2)%Z = Some z ∧
    is_byte x ∧ is_byte y ∧ is_byte z) → mapped m a 3.
Proof.
  intros (x & y & z & Hx & Hy & Hz & ? & ? & ?) i Hi.
  assert (i = 0 ∨ i = 1 ∨ i = 2)%Z as [->|[->| ->]] by lia; [rewrite Z.add_0_r|..]; eauto.
Qed.

(** Three bytes go by memcpy. *)
Lemma copydata_moves_witness :
  wp (_chan_copydata 20 10 3) (λ _ s',
    s' = set_mem (λ _, mem s') copy_state ∧
    (∀ i, (0 ≤ i < 3)%Z → mem s' !! (20 + i)%Z = mem copy_state !! (10 + i)%Z) ∧
    (∀ x, (x < 20 ∨ 20 + 3 ≤ x)%Z → mem s' !! x = mem copy_state !! x)) copy_state.
Proof.
  apply (copydata_moves 20 10 3 copy_state). split; [done|]. repeat split.
  - apply mapped_3. exists 1%Z, 200%Z, 255%Z. by repeat split.
  - apply mapped_3. exists 0%Z, 0%Z, 0%Z. by repeat split.
  - by right.
Defined.
End examples.
