(* ===== verification/ChanSpec.v ===== *)
(** * What a channel promises: a FIFO rendezvous

    The abstract channel is a side (writers or readers) and the queue of the
    processes of that side that wait; [chan_rep] ties it to [endQ]. *)
From stdpp Require Import base tactics list gmap.
From Stdlib Require Import ZArith Lia.
From S2P Require Import Prelude Tailq Rbtree RbInsert RbSpec State SchedOps Exec AltCore Chan CopySpec.

(** ** The abstract channel *)

Record Waiter := MkWaiter { w_end : loc; w_proc : loc; w_data : Z }.

(** One call: it meets the first waiter of the other side, or waits last. *)
Definition rendezvous (mine : ChanEndType) (me : Waiter) (ty : ChanEndType) (ws : list Waiter) :
    option Waiter * (ChanEndType * list Waiter) :=
  match ws with
  | [] => (None, (mine, [me]))
  | w :: ws => if decide (ty = mine) then (None, (mine, w :: ws ++ [me])) else (Some w, (ty, ws))
  end.

(** The direction of the copy when [mine] meets the waiter [w]. *)
Definition copied (mine : ChanEndType) (w : Waiter) (data size : Z) (m : gmap Z Z) : gmap Z Z :=
  match mine with
  | CHAN_WRITER => mcopy (w_data w) data size m
  | _ => mcopy data (w_data w) size m
  end.

Definition copy_ok (mine : ChanEndType) (w : Waiter) (data size : Z) (m : gmap Z Z) : Prop :=
  match mine with
  | CHAN_WRITER => copyable m (w_data w) data size
  | _ => copyable m data (w_data w) size
  end.

Section chan_spec.
Context {T : Type} {TT : SleepTree T} {E : Env}.
Implicit Types s : St T.

Definition waits (s : St T) (c : loc) (ty : ChanEndType) (w : Waiter) : Prop :=
  ends s !! w_end w = Some (MkEnd ty (w_data w) (Some c) (Some (w_proc w)) None).

Definition chan_rep (s : St T) (c : loc) (size : Z) (alters : list loc)
    (ty : ChanEndType) (ws : list Waiter) : Prop :=
  chans s !! c = Some (MkChan size (w_end <$> ws) alters) ∧
  NoDup (w_end <$> ws) ∧ Forall (waits s c ty) ws ∧ ty ≠ CHAN_ALTER.

(** The alter [e] belongs to guard [g] of the ALT [al], as the store has it. *)
Definition alter_of (s : St T) (e : loc) (v : ChanEnd) (g al : loc) (a : Alt) : Prop :=
  ends s !! e = Some v ∧ ce_guard v = Some g ∧
  (∃ gv, guards s !! g = Some gv ∧ g_alt gv = Some al) ∧ alts s !! al = Some a.

(** The first alter, the only one a writer asks, has accepted another guard. *)
Definition none_open (s : St T) (alters : list loc) : Prop :=
  match alters with
  | [] => True
  | e :: _ => ∃ v g al a, alter_of s e v g al a ∧ a_is_accepted a = true
  end.

(** What holds when process [p] offers [data] to a channel where [ws] wait. *)
Definition can_call (mine : ChanEndType) (s : St T) (p : loc) (data size : Z)
    (ty : ChanEndType) (ws : list Waiter) : Prop :=
  s_curr_proc (sched s) = Some p ∧ is_Some (procs s !! p) ∧
  ends s !! fresh_loc s = None ∧ ready_live s ∧
  Forall (λ w, is_Some (procs s !! w_proc w) ∧ w_proc w ∉ s_readyQ (sched s)) ws ∧
  (ty ≠ mine → Forall (λ w, copy_ok mine w data size (mem s)) ws).

(** The state after [p] has queued itself, and after it has met [w]. *)
Definition waiting (c : loc) (ch : Chan) (mine : ChanEndType) (p : loc) (data : Z) (s : St T) : St T :=
  set_procs (alter (p_set_state PROC_CHANWAIT) p)
    (set_chans <[c := c_set_endQ (c_endQ ch ++ [fresh_loc s]) ch]>
      (set_ends <[fresh_loc s := MkEnd mine data (Some c) (Some p) None]>
        (set_fresh (Pos.succ (fresh_loc s)) s))).

Definition met (c : loc) (ch : Chan) (w : Waiter) (rest : list loc) (f : gmap Z Z → gmap Z Z)
    (s : St T) : St T :=
  ready_all [w_proc w] (set_mem f (set_chans <[c := c_set_endQ rest ch]> s)).

(** ** The steps chan_write and chan_read share *)

Lemma first_end_of_ok c size als ty ws want s :
  chan_rep s c size als ty ws →
  wp (first_end_of c want) (λ r s', s' = s ∧
    match ws with
    | w :: _ => if decide (ty = want)
        then r = Some (w_end w, MkEnd ty (w_data w) (Some c) (Some (w_proc w)) None)
        else r = None
    | [] => r = None
    end) s.
Proof.
  intros (Hc & _ & Hws & _). unfold first_end_of. step. step. destruct ws as [|w ws]; simpl; [by step|].
  apply Forall_cons in Hws as [Hw _]. step. eapply wp_gete; [exact Hw|]. step. simpl.
  by destruct (decide (ty = want)).
Qed.

Lemma ends_live s c size als ty ws :
  chan_rep s c size als ty ws → Forall (λ e, is_Some (ends s !! e)) (w_end <$> ws).
Proof.
  intros (_ & _ & Hws & _). apply Forall_fmap. eapply Forall_impl; [exact Hws|].
  intros w Hw. by eexists.
Qed.

Lemma chan_wait_ok c size als ty ws mine p data s :
  chan_rep s c size als ty ws → s_curr_proc (sched s) = Some p → is_Some (procs s !! p) →
  ends s !! fresh_loc s = None →
  wp (chan_wait c mine data) (λ r s', r = CYield (KChan (fresh_loc s)) ∧
    s' = waiting c (MkChan size (w_end <$> ws) als) mine p data s) s.
Proof.
  intros Hrep Hcurr [v Hv] Hfresh. pose proof (ends_live _ _ _ _ _ _ Hrep) as Hlive.
  destruct Hrep as (Hc & _). unfold chan_wait, proc_self, endQ_insert_tail.
  step. step. step. step. step. step. step. step. step. step. step. step. apply wp_get. step.
  apply wp_INSERT_TAIL.
  - simpl. intros Hin. rewrite Forall_forall in Hlive. apply Hlive in Hin as [? Hin]. congruence.
  - apply live_in_Some. simpl. rewrite lookup_insert_eq. by eexists.
  - apply Forall_live. simpl. by apply Forall_is_Some_insert.
  - unfold proc_yield. steps. split; [done|]. apply St_eq; try reflexivity. simpl.
    apply map_eq. intros x. destruct (decide (x = p)) as [->|]; by simplify_map_eq.
Qed.

Lemma meet_ok c size als ty w ws dst src s :
  chan_rep s c size als ty (w :: ws) →
  is_Some (procs s !! w_proc w) → w_proc w ∉ s_readyQ (sched s) → ready_live s →
  copyable (mem s) dst src size →
  wp (endQ_remove c (w_end w) ;; _chan_copydata dst src size ;;
      scheduler_addready (Some (w_proc w)) ;; mret (CRet 1%Z)) (λ r s', r = CRet 1%Z ∧
    s' = met c (MkChan size (w_end <$> w :: ws) als) w (w_end <$> ws) (mcopy dst src size) s) s.
Proof.
  intros Hrep Hp Hn Hl Hcopy. pose proof (ends_live _ _ _ _ _ _ Hrep) as Hlive.
  destruct Hrep as (Hc & Hnd & _). unfold endQ_remove.
  step. step. step. step. apply wp_get. step. apply wp_REMOVE; [by left|by apply Forall_live|].
  assert (Q.without (w_end <$> w :: ws) (w_end w) = w_end <$> ws) as Hq
    by (apply Q_without_head; by inversion Hnd).
  cbn [c_endQ]. rewrite Hq. step. step. apply copydata_ok; [done|].
  step. eapply wp_mono; [apply addready_all|].
  - split; [apply NoDup_singleton|]. split; [|done]. by repeat constructor.
  - intros ? ? ->. by step.
Qed.

Lemma waits_fresh s c c' ty w e v :
  ends s !! e = None → waits s c ty w → waits (set_ends <[e := v]> (set_fresh c' s)) c ty w.
Proof. unfold waits. simpl. intros. rewrite lookup_insert_ne; [done|congruence]. Qed.

Lemma waiting_rep c size als ty ws mine p data s :
  chan_rep s c size als ty ws → ws = [] ∨ ty = mine → mine ≠ CHAN_ALTER →
  ends s !! fresh_loc s = None →
  chan_rep (waiting c (MkChan size (w_end <$> ws) als) mine p data s) c size als mine
    (ws ++ [MkWaiter (fresh_loc s) p data]).
Proof.
  intros Hrep Hty Hmine Hf. pose proof (ends_live _ _ _ _ _ _ Hrep) as Hlive.
  destruct Hrep as (Hc & Hnd & Hws & _). unfold chan_rep. rewrite fmap_app. split; [simpl; by rewrite lookup_insert_eq|].
  split; [|split; [|done]].
  - apply NoDup_app. split; [done|]. split; [|apply NoDup_singleton].
    intros x Hx ->%list_elem_of_singleton. rewrite Forall_forall in Hlive.
    apply Hlive in Hx as [? Hx]. simpl in Hx. congruence.
  - apply Forall_app. split; [|repeat constructor; apply lookup_insert_eq].
    destruct Hty as [-> | ->]; [done|]. eapply Forall_impl; [exact Hws|].
    intros w Hw. by apply (waits_fresh s c (Pos.succ (fresh_loc s)) mine w).
Qed.

Lemma met_rep c size als ty w ws f s :
  chan_rep s c size als ty (w :: ws) →
  chan_rep (met c (MkChan size (w_end <$> w :: ws) als) w (w_end <$> ws) f s) c size als ty ws.
Proof.
  intros (Hc & Hnd & Hws & Hty). split; [simpl; by rewrite lookup_insert_eq|].
  inversion Hnd; inversion Hws; subst. by split.
Qed.

Lemma no_alter_ok c size als ty ws s :
  chan_rep s c size als ty ws → none_open s als →
  wp (accept_first_alter c) (λ r s', r = None ∧ s' = s) s.
Proof.
  intros (Hc & _) Hno. unfold accept_first_alter. step. step. cbn [c_altQ].
  destruct als as [|e als]; simpl; [by step|].
  destruct Hno as (v & g & al & a & (He & Hg & (gv & Hgv & Hal) & Ha) & Hacc).
  step. eapply wp_gete; [exact He|]. unfold alt_accept. rewrite Hg. steps. rewrite Hacc. by steps.
Qed.

(** [mine]'s call, whichever side it is on. *)
Definition call (mine : ChanEndType) (c : loc) (data size : Z) : M (St T) (ctl Z) :=
  match mine with
  | CHAN_WRITER => chan_write (Some c) data size
  | _ => chan_read (Some c) data size
  end.

(** The two outcomes of a call, as states. *)
Definition call_post (mine : ChanEndType) (c : loc) (size : Z) (als : list loc) (ty : ChanEndType)
    (ws : list Waiter) (p : loc) (data : Z) (s : St T) (r : ctl Z) (s' : St T) : Prop :=
  let '(o, (ty', ws')) := rendezvous mine (MkWaiter (fresh_loc s) p data) ty ws in
  chan_rep s' c size als ty' ws' ∧
  match o with
  | Some w => r = CRet 1%Z ∧
      s' = met c (MkChan size (w_end <$> ws) als) w (w_end <$> ws') (copied mine w data size) s
  | None => r = CYield (KChan (fresh_loc s)) ∧
      s' = waiting c (MkChan size (w_end <$> ws) als) mine p data s
  end.

Definition other (ty : ChanEndType) : ChanEndType :=
  match ty with CHAN_WRITER => CHAN_READER | _ => CHAN_WRITER end.

(** The part of a call after the alters. *)
Lemma offer_ok mine c size als ty ws p data s (Q : ctl Z → St T → Prop) (meet : loc * ChanEnd → M (St T) (ctl Z)) :
  chan_rep s c size als ty ws → can_call mine s p data size ty ws → mine ≠ CHAN_ALTER →
  (∀ r s', call_post mine c size als ty ws p data s r s' → Q r s') →
  (∀ w ws', ws = w :: ws' → ty = other mine → wp (meet (w_end w, MkEnd ty (w_data w) (Some c) (Some (w_proc w)) None))
     (λ r s', r = CRet 1%Z ∧
       s' = met c (MkChan size (w_end <$> ws) als) w (w_end <$> ws') (copied mine w data size) s) s) →
  wp (r ← first_end_of c (other mine);
      match r with Some x => meet x | None => chan_wait c mine data end) Q s.
Proof.
  intros Hrep (Hcurr & Hp & Hf & Hl & Hws & Hcopy) Hmine HQ Hmeet.
  step. eapply wp_mono; [by eapply first_end_of_ok|]. intros r s1 [-> Hr].
  assert (ws = [] ∨ ty = mine → r = None → wp (match r with Some x => meet x | None => chan_wait c mine data end) Q s) as Hwait.
  { intros Hty ->. eapply wp_mono; [by eapply chan_wait_ok|]. intros r' s' Hpost. apply HQ.
    unfold call_post. destruct ws as [|w ws'].
    - split; [|done]. destruct Hpost as [_ ->]. by apply (waiting_rep c size als ty []); auto.
    - destruct Hty as [|Hty]; [done|]. simpl. rewrite decide_True by done. split; [|done].
      destruct Hpost as [_ ->]. by eapply (waiting_rep c size als ty (w :: ws')); auto. }
  destruct ws as [|w ws']; [by apply Hwait; auto|].
  destruct (decide (ty = other mine)) as [Hother|Hty]; subst r.
  - eapply wp_mono; [by eapply Hmeet|]. intros r' s' [-> ->]. apply HQ. unfold call_post. simpl.
    rewrite decide_False by (rewrite Hother; by destruct mine). split; [|done]. by apply met_rep.
  - apply Hwait; [|done]. right. destruct Hrep as (_ & _ & _ & Hne). by destruct ty, mine.
Qed.

Lemma call_ok mine c size als ty ws p data s :
  chan_rep s c size als ty ws → (mine = CHAN_WRITER → none_open s als) →
  can_call mine s p data size ty ws → mine ≠ CHAN_ALTER →
  wp (call mine c data size) (call_post mine c size als ty ws p data s) s.
Proof.
  intros Hrep Hno Hcan Hmine.
  assert (∀ w ws', ws = w :: ws' → ty = other mine →
    is_Some (procs s !! w_proc w) ∧ w_proc w ∉ s_readyQ (sched s) ∧ ready_live s ∧
    copy_ok mine w data size (mem s)) as Hw.
  { intros w ws' -> Hty. destruct Hcan as (_ & _ & _ & Hl & [[??] _]%Forall_cons & Hcopy).
    ospecialize (Hcopy _); [rewrite Hty; by destruct mine|]. by apply Forall_cons in Hcopy as [? _]. }
  destruct mine; [| |done]; simpl; unfold chan_write, chan_read.
  - step. eapply wp_notnull; [done|]. step. eapply wp_getc; [apply Hrep|].
    step. apply wp_ASSERT; [apply Z.eqb_refl|]. step.
    eapply wp_mono; [by eapply no_alter_ok; auto|]. intros ? ? [-> ->]. cbv beta iota.
    eapply (offer_ok CHAN_WRITER _ _ _ _ _ _ _ _ _ (λ '(first, v), _)); try done.
    intros w ws' -> Hty. destruct (Hw w ws') as (? & ? & ? & ?); try done. by eapply meet_ok.
  - step. eapply wp_notnull; [done|]. step. eapply wp_getc; [apply Hrep|].
    step. apply wp_ASSERT; [apply Z.eqb_refl|].
    eapply (offer_ok CHAN_READER _ _ _ _ _ _ _ _ _ (λ '(first, v), _)); try done.
    intros w ws' -> Hty. destruct (Hw w ws') as (? & ? & ? & ?); try done. by eapply meet_ok.
Qed.

Lemma met_ready c ch w rest f s :
  is_Some (procs s !! w_proc w) →
  s_readyQ (sched (met c ch w rest f s)) = s_readyQ (sched s) ++ [w_proc w] ∧
  p_state <$> procs (met c ch w rest f s) !! w_proc w = Some PROC_READY.
Proof. intros [v Hv]. split; [done|]. simpl. by rewrite lookup_alter_eq, Hv. Qed.

Lemma waiting_state c ch mine p data s :
  is_Some (procs s !! p) →
  p_state <$> procs (waiting c ch mine p data s) !! p = Some PROC_CHANWAIT.
Proof. intros [v Hv]. simpl. by rewrite lookup_alter_eq, Hv. Qed.

Lemma rendezvous_elem mine me ty ws w q : rendezvous mine me ty ws = (Some w, q) → w ∈ ws.
Proof. destruct ws as [|w' ws]; simpl; [done|]. case_decide; intros; simplify_eq. by left. Qed.

(** The observable part of the post-condition of a call. *)
Definition call_spec (mine : ChanEndType) (c : loc) (size : Z) (als : list loc) (ty : ChanEndType)
    (ws : list Waiter) (p : loc) (data : Z) (s : St T) (r : ctl Z) (s' : St T) : Prop :=
  let '(met_with, (ty', ws')) := rendezvous mine (MkWaiter (fresh_loc s) p data) ty ws in
  chan_rep s' c size als ty' ws' ∧
  match met_with with
  | Some w => r = CRet 1%Z ∧ mem s' = copied mine w data size (mem s) ∧
      s_readyQ (sched s') = s_readyQ (sched s) ++ [w_proc w] ∧
      p_state <$> procs s' !! w_proc w = Some PROC_READY
  | None => r = CYield (KChan (fresh_loc s)) ∧ mem s' = mem s ∧ sched s' = sched s ∧
      p_state <$> procs s' !! p = Some PROC_CHANWAIT
  end.

Lemma call_post_spec mine c size als ty ws p data s r s' :
  can_call mine s p data size ty ws →
  call_post mine c size als ty ws p data s r s' → call_spec mine c size als ty ws p data s r s'.
Proof.
  intros (_ & Hp & _ & _ & Hws & _). unfold call_post, call_spec.
  destruct (rendezvous _ _ _ _) as [[w|] [ty' ws']] eqn:Hr; intros (Hrep & -> & Hs').
  - split; [done|]. split; [done|]. rewrite Forall_forall in Hws.
    apply rendezvous_elem, Hws in Hr as [Hw _]. subst s'. split; [done|]. by apply met_ready.
  - split; [done|]. split; [done|]. subst s'. split; [done|]. split; [done|]. by apply waiting_state.
Qed.

(** A write on a channel whose first alter is open. *)
Lemma chan_write_alter c size q e als v g al a p data s :
  chans s !! c = Some (MkChan size q (e :: als)) → alter_of s e v g al a →
  a_is_accepted a = false → ce_proc v = Some p → can_ready [p] s →
  copyable (mem s) (ce_data v) data size →
  wp (chan_write (Some c) data size) (λ r s', r = CRet 1%Z ∧
    s' = ready_all [p] (set_mem (mcopy (ce_data v) data size)
           (set_alts <[al := a_set_accepted true (Some g) a]> s))) s.
Proof.
  intros Hc (He & Hg & (gv & Hgv & Hal) & Ha) Hacc Hp Hready Hcopy.
  unfold chan_write, accept_first_alter.
  step. eapply wp_notnull; [done|]. step. step. step. apply wp_ASSERT; [apply Z.eqb_refl|].
  step. step. step. cbn [c_altQ head]. step. eapply wp_gete; [exact He|]. unfold alt_accept. rewrite Hg. steps.
  rewrite Hacc. steps. apply copydata_ok; [done|]. rewrite Hp. steps.
  eapply wp_mono; [by apply addready_all|]. intros ? ? ->. by steps.
Qed.
(** The first alter of a channel, when its ALT is open: the end [al_end] of the
    guard [al_guard] of the ALT at [al_alt], run by [al_proc]. *)
Record Alter := MkAlter { al_end : loc; al_data : Z; al_proc : loc; al_guard : loc; al_alt : loc }.

(** The first of the ALTs that wait on a channel is open ([Some]), or all of them
    have accepted another guard ([None]). *)
Definition alters_rep (s : St T) (als : list loc) (open : option Alter) : Prop :=
  match open with
  | None => ∀ e, e ∈ als → ∃ v g al a, alter_of s e v g al a ∧ a_is_accepted a = true
  | Some x => head als = Some (al_end x) ∧ ∃ v a,
      alter_of s (al_end x) v (al_guard x) (al_alt x) a ∧ ce_data v = al_data x ∧
      ce_proc v = Some (al_proc x) ∧ a_is_accepted a = false
  end.

(** The write commits the ALT of [x]. *)
Definition commit_spec (c : loc) (size : Z) (als : list loc) (ty : ChanEndType) (ws : list Waiter)
    (x : Alter) (data : Z) (s : St T) (r : ctl Z) (s' : St T) : Prop :=
  r = CRet 1%Z ∧ chan_rep s' c size als ty ws ∧ mem s' = mcopy (al_data x) data size (mem s) ∧
  s_readyQ (sched s') = s_readyQ (sched s) ++ [al_proc x] ∧
  p_state <$> procs s' !! al_proc x = Some PROC_READY ∧
  alts s' !! al_alt x = a_set_accepted true (Some (al_guard x)) <$> alts s !! al_alt x ∧
  (∀ al, al ≠ al_alt x → alts s' !! al = alts s !! al) ∧
  chans s' = chans s ∧ ends s' = ends s ∧ guards s' = guards s.

(** C7: [chan_write] implements the write of a channel on which readers, writers and
    ALTs wait.  When the first ALT that waits is open, the write commits it: the ALT
    has its winner and accepts no other, the message is in the guard's buffer, the
    process of the ALT becomes ready, and no queue of the channel changes.  When all
    the ALTs that wait have accepted another guard, the write hands its message to
    the reader that has waited longest, makes it ready and returns, or else queues the
    caller last, in state CHANWAIT, and yields.  (An open ALT behind one that is
    not is never asked: that case, a defect, is outside the theorem.) *)
Theorem chan_write_refines c size als open ty ws p data s :
  chan_rep s c size als ty ws → alters_rep s als open → can_call CHAN_WRITER s p data size ty ws →
  (∀ x, open = Some x → can_ready [al_proc x] s ∧ copyable (mem s) (al_data x) data size) →
  wp (chan_write (Some c) data size) (λ r s', match open with
    | Some x => commit_spec c size als ty ws x data s r s'
    | None => call_spec CHAN_WRITER c size als ty ws p data s r s'
    end) s.
Proof.
  intros Hrep Hals Hcan Hx. destruct open as [x|].
  - destruct Hals as (Hhead & v & a & Halt & Hd & Hp & Hacc), (Hx x eq_refl) as [Hready Hcopy].
    destruct als as [|e als]; simplify_eq/=. destruct Hrep as (Hc & Hrep).
    pose proof Hready as (_ & [[u Hu] _]%Forall_singleton & _). pose proof Halt as (_ & _ & _ & Ha). rewrite <-Hd in Hcopy.
    eapply wp_mono; [by eapply chan_write_alter|]. intros r s' [-> ->]. rewrite Hd. split_and!; try done; simpl.
    + by rewrite lookup_alter_eq, Hu.
    + by rewrite lookup_insert_eq, Ha.
    + intros al Hal. by rewrite lookup_insert_ne.
  - eapply wp_mono; [apply (call_ok CHAN_WRITER c size als ty ws p data s)|]; try done.
    + intros _. destruct als as [|e als]; [done|]. apply Hals. by left.
    + intros r s'. by apply call_post_spec.
Qed.

(** C8: [chan_read] implements the read of a rendezvous channel: it takes the
    message of the writer that has waited longest, makes it ready and returns,
    and otherwise queues the caller last, in state CHANWAIT, and yields. *)
Theorem chan_read_refines c size als ty ws p data s :
  chan_rep s c size als ty ws → can_call CHAN_READER s p data size ty ws →
  wp (chan_read (Some c) data size) (call_spec CHAN_READER c size als ty ws p data s) s.
Proof.
  intros Hrep Hcan. eapply wp_mono; [by apply (call_ok CHAN_READER)|].
  intros r s'. by apply call_post_spec.
Qed.

End chan_spec.

(** ** The claims at concrete inputs *)

Section examples.
#[local] Existing Instance demo_env.

(** Process 1 runs; process 2 waits on channel 50, on side [ty], with its
    message or buffer at 20. *)
Definition rdv_state (ty : ChanEndType) : St rb_tree :=
  set_ends <[60%positive := MkEnd ty 20 (Some 50%positive) (Some 2%positive) None]>
    (set_chans <[50%positive := MkChan 1 [60%positive] []]>
      (set_mem (λ _, list_to_map [(10, 1); (20, 2)]%Z)
        (demo_state (list_to_map [(1, demo_proc PROC_RUNNING); (2, demo_proc PROC_CHANWAIT)]%positive)
          ∅ (Some 1%positive)))).

Definition rdv_waiter : Waiter := MkWaiter 60 2 20.

Lemma rdv_rep ty : ty ≠ CHAN_ALTER → chan_rep (rdv_state ty) 50 1 [] ty [rdv_waiter].
Proof. intros. split; [done|]. split; [apply NoDup_singleton|]. split; [|done]. by repeat constructor. Qed.

Lemma rdv_copyable a b : a ∈ [10; 20]%Z → b ∈ [10; 20]%Z → copyable (mem (rdv_state CHAN_READER)) a b 1.
Proof.
  assert (∀ x, x ∈ [10; 20]%Z → mapped (mem (rdv_state CHAN_READER)) x 1) as Hm.
  { intros x Hx. apply mapped_1. rewrite !elem_of_cons, elem_of_nil in Hx.
    by destruct Hx as [->|[->|[]]]; eexists. }
  intros. split; [done|]. split; [by apply Hm|]. split; [by apply Hm|]. left. set_solver.
Qed.

Lemma rdv_can_call mine ty :
  mine ≠ CHAN_ALTER → can_call mine (rdv_state ty) 1 10 1 ty [rdv_waiter].
Proof.
  intros Hm. split; [done|]. split; [by eexists|]. split; [done|]. split; [by apply Forall_nil|].
  split; [|intros _]; (apply Forall_cons; split; [|done]).
  - split; [by eexists|]. apply not_elem_of_nil.
  - by destruct mine; apply rdv_copyable; apply (bool_decide_unpack _).
Qed.

(** The reader meets a writer; a second reader would wait. *)
Lemma chan_read_refines_witness :
  wp (chan_read (Some 50%positive) 10 1)
    (call_spec CHAN_READER 50 1 [] CHAN_WRITER [rdv_waiter] 1 10 (rdv_state CHAN_WRITER))
    (rdv_state CHAN_WRITER) ∧
  wp (chan_read (Some 50%positive) 10 1)
    (call_spec CHAN_READER 50 1 [] CHAN_READER [rdv_waiter] 1 10 (rdv_state CHAN_READER))
    (rdv_state CHAN_READER).
Proof.
  split; (apply chan_read_refines; [by apply rdv_rep|by apply rdv_can_call]).
Defined.

(** Process 2 waits in the ALT 70, on guard 71 of channel 50. *)
Definition alter_state : St rb_tree :=
  set_alts <[70%positive := MkAlt 1 false None (Some []) 1 [71%positive] None None (Some 2%positive)]>
  (set_guards <[71%positive := MkGuard GUARD_CHAN 0 (Some 70%positive) 0 (Some 50%positive) 60 20 1 true]>
  (set_ends <[60%positive := MkEnd CHAN_ALTER 20 (Some 50%positive) (Some 2%positive) (Some 71%positive)]>
  (set_chans <[50%positive := MkChan 1 [] [60%positive]]> (rdv_state CHAN_READER)))).

Definition demo_alter : Alter := MkAlter 60 20 2 71 70.

(** A reader waits in the first state, an ALT in the second. *)
Lemma chan_write_refines_witness :
  wp (chan_write (Some 50%positive) 10 1)
    (call_spec CHAN_WRITER 50 1 [] CHAN_READER [rdv_waiter] 1 10 (rdv_state CHAN_READER)) (rdv_state CHAN_READER) ∧
  wp (chan_write (Some 50%positive) 10 1)
    (commit_spec 50 1 [60%positive] CHAN_READER [] demo_alter 10 alter_state) alter_state.
Proof.
  split.
  - apply (chan_write_refines 50 1 [] None CHAN_READER [rdv_waiter] 1 10 (rdv_state CHAN_READER)); try done.
    + by apply rdv_rep.
    + by intros e ?%not_elem_of_nil.
    + by apply rdv_can_call.
  - apply (chan_write_refines 50 1 [60%positive] (Some demo_alter) CHAN_READER [] 1 10 alter_state).
    + split; [done|]. split; [apply NoDup_nil_2|]. by split; [apply Forall_nil|].
    + split; [done|]. exists (MkEnd CHAN_ALTER 20 (Some 50%positive) (Some 2%positive) (Some 71%positive)),
        (MkAlt 1 false None (Some []) 1 [71%positive] None None (Some 2%positive)).
      split; [|done]. split; [done|]. split; [done|]. split; [|done]. by eexists.
    + split; [done|]. split; [by eexists|]. split; [done|]. split; [by apply Forall_nil|]. by split; [apply Forall_nil|].
    + intros x [= <-]. split; [|by apply rdv_copyable; apply (bool_decide_unpack _)].
      split; [apply NoDup_singleton|]. split; [|by apply Forall_nil].
      apply Forall_singleton. split; [by eexists|]. apply not_elem_of_nil.
Defined.
End examples.
