(* ===== verification/ChanFifo.v ===== *)
(** * A channel over a whole history: the k-th read gets the k-th write *)
From stdpp Require Import base tactics list gmap.
From Stdlib Require Import ZArith Lia.
From S2P Require Import Prelude Tailq Rbtree RbInsert RbSpec State SchedOps Exec AltCore Chan CopySpec ChanSpec.

(** ** Histories *)

Record op := MkOp { op_side : ChanEndType; op_proc : loc; op_data : Z }.

#[export] Instance op_eq_dec : EqDecision op.
Proof. solve_decision. Defined.

Definition ops_of (side : ChanEndType) (ops : list op) : list op :=
  filter (λ o, op_side o = side) ops.

(** The writes and the reads that met, in order. *)
Definition pairs (ops : list op) : list (op * op) :=
  zip (ops_of CHAN_WRITER ops) (ops_of CHAN_READER ops).

Definition copies (size : Z) (l : list (op * op)) (m : gmap Z Z) : gmap Z Z :=
  foldl (λ m '(w, r), mcopy (op_data r) (op_data w) size m) m l.

Definition as_op (ty : ChanEndType) (w : Waiter) : op := MkOp ty (w_proc w) (w_data w).

Definition apart (size x y : Z) : Prop := (x + size ≤ y ∨ y + size ≤ x)%Z.

Lemma other_other ty : ty ≠ CHAN_ALTER → other (other ty) = ty.
Proof. by destruct ty. Qed.
Lemma other_ne ty : other ty ≠ ty.
Proof. by destruct ty. Qed.

Lemma ops_of_snoc side ops o :
  ops_of side (ops ++ [o]) = ops_of side ops ++ (if decide (op_side o = side) then [o] else []).
Proof.
  unfold ops_of. rewrite filter_app, filter_cons. by case_decide.
Qed.

Lemma ops_of_mine ops o : ops_of (op_side o) (ops ++ [o]) = ops_of (op_side o) ops ++ [o].
Proof. by rewrite ops_of_snoc, decide_True. Qed.
Lemma ops_of_other side ops o :
  side ≠ op_side o → ops_of side (ops ++ [o]) = ops_of side ops.
Proof. intros. by rewrite ops_of_snoc, decide_False, app_nil_r. Qed.

Lemma elem_of_ops_of o side ops : o ∈ ops_of side ops ↔ op_side o = side ∧ o ∈ ops.
Proof. unfold ops_of. by rewrite list_elem_of_filter. Qed.

Lemma zip_snoc_l {A B} (l : list A) (k : list B) x :
  length k ≤ length l → zip (l ++ [x]) k = zip l k.
Proof.
  revert k. induction l as [|y l IH]; intros [|z k]; simpl; try done; [lia|].
  intros. f_equal. apply IH. lia.
Qed.
Lemma zip_snoc_r {A B} (l : list A) (k : list B) x :
  length l ≤ length k → zip l (k ++ [x]) = zip l k.
Proof.
  revert k. induction l as [|y l IH]; intros [|z k]; simpl; try done; [lia|].
  intros. f_equal. apply IH. lia.
Qed.
Lemma zip_meet_l {A B} (l : list A) (k : list B) x y :
  k !! length l = Some y → zip (l ++ [x]) k = zip l k ++ [(x, y)].
Proof.
  revert k. induction l as [|z l IH]; intros [|w k]; simpl; intros; simplify_eq; try done.
  f_equal. by apply IH.
Qed.
Lemma zip_meet_r {A B} (l : list A) (k : list B) x y :
  l !! length k = Some x → zip l (k ++ [y]) = zip l k ++ [(x, y)].
Proof.
  revert l. induction k as [|z k IH]; intros [|w l]; simpl; intros; simplify_eq; try done.
  - by destruct l.
  - f_equal. by apply IH.
Qed.

Lemma NoDup_snd_zip {A B} (l : list A) (k : list B) : NoDup k → NoDup (snd <$> zip l k).
Proof.
  revert k. induction l as [|x l IH]; intros [|y k] Hnd; simpl; try apply NoDup_nil_2.
  apply NoDup_cons in Hnd as [Hy Hnd]. apply NoDup_cons. split; [|by apply IH].
  intros ([x' y'] & -> & Hin%elem_of_zip_r)%list_elem_of_fmap. done.
Qed.

Lemma pairs_wait ops o :
  op_side o ≠ CHAN_ALTER →
  length (ops_of (other (op_side o)) ops) ≤ length (ops_of (op_side o) ops) →
  pairs (ops ++ [o]) = pairs ops.
Proof.
  intros Ho Hlen. unfold pairs. destruct (op_side o) eqn:Hs; [| |done].
  - rewrite <-Hs, ops_of_mine, Hs, (ops_of_other CHAN_READER) by by rewrite Hs. by apply zip_snoc_l.
  - rewrite <-Hs, ops_of_mine, Hs, (ops_of_other CHAN_WRITER) by by rewrite Hs. by apply zip_snoc_r.
Qed.

Lemma pairs_meet ops o x :
  op_side o ≠ CHAN_ALTER →
  ops_of (other (op_side o)) ops !! length (ops_of (op_side o) ops) = Some x →
  pairs (ops ++ [o]) =
    pairs ops ++ [match op_side o with CHAN_WRITER => (o, x) | _ => (x, o) end].
Proof.
  intros Ho Hx. unfold pairs. destruct (op_side o) eqn:Hs; [| |done].
  - rewrite <-Hs, ops_of_mine, Hs, (ops_of_other CHAN_READER) by by rewrite Hs. by apply zip_meet_l.
  - rewrite <-Hs, ops_of_mine, Hs, (ops_of_other CHAN_WRITER) by by rewrite Hs. by apply zip_meet_r.
Qed.

(** ** The memory after the copies of a history *)

Section copies.
Context (size : Z) (ops : list op) (m0 : gmap Z Z).
Hypothesis size_pos : (0 ≤ size)%Z.
Hypothesis all_mapped : ∀ o, o ∈ ops → mapped m0 (op_data o) size.
Hypothesis all_apart : ∀ o1 o2, o1 ∈ ops → o2 ∈ ops → o1 ≠ o2 → apart size (op_data o1) (op_data o2).

Definition good_pairs (l : list (op * op)) : Prop :=
  Forall (λ wr, wr.1 ∈ ops ∧ wr.2 ∈ ops ∧ op_side wr.1 = CHAN_WRITER ∧ op_side wr.2 = CHAN_READER) l ∧
  NoDup (snd <$> l).

Lemma copies_mapped l : ∀ m o, Forall (λ wr, wr.1 ∈ ops) l →
  (∀ o, o ∈ ops → mapped m (op_data o) size) → o ∈ ops → mapped (copies size l m) (op_data o) size.
Proof.
  induction l as [|[w r] l IH]; intros m o Hl Hm Ho; simpl; [by apply Hm|].
  apply Forall_cons in Hl as [Hw Hl]. apply IH; [done| |done].
  intros o' Ho'. apply mapped_mcopy; auto.
Qed.

Lemma copies_out l : ∀ m x,
  Forall (λ wr, (x < op_data wr.2 ∨ op_data wr.2 + size ≤ x)%Z) l → copies size l m !! x = m !! x.
Proof.
  induction l as [|[w r] l IH]; intros m x Hl; simpl; [done|].
  apply Forall_cons in Hl as [Hr Hl]. simpl in Hr. rewrite IH by done. by apply mcopy_out.
Qed.

Lemma copies_in l : ∀ m w r i, good_pairs l → (∀ o, o ∈ ops → mapped m (op_data o) size) →
  (w, r) ∈ l → (0 ≤ i < size)%Z →
  copies size l m !! (op_data r + i)%Z = m !! (op_data w + i)%Z.
Proof.
  induction l as [|[w0 r0] l IH]; intros m w r i [Hl Hnd] Hm Hin Hi; simpl in *; [by apply elem_of_nil in Hin|].
  apply Forall_cons in Hl as [(Hw0 & Hr0 & Hsw0 & Hsr0) Hl]. apply NoDup_cons in Hnd as [Hr0l Hnd].
  simpl in *. apply elem_of_cons in Hin as [[= -> ->]|Hin].
  - rewrite copies_out; [by apply mcopy_in; auto|]. rewrite Forall_forall in Hl |- *.
    intros [w r] Hin. destruct (Hl _ Hin) as (_ & Hr & _). simpl in *.
    assert (apart size (op_data r0) (op_data r)) as [?|?]; [|lia..].
    apply all_apart; try done. intros ->. apply Hr0l. apply list_elem_of_fmap. by exists (w, r).
  - rewrite (IH _ w r i); [|by split|intros o Ho; apply mapped_mcopy; auto|done|done].
    rewrite Forall_forall in Hl. destruct (Hl _ Hin) as (Hw & _ & Hsw & _). simpl in *.
    assert (apart size (op_data w) (op_data r0)) as [?|?];
      [apply all_apart; congruence|apply mcopy_out; lia..].
Qed.
End copies.

(** ** Running a history *)

Section fifo.
Context {T : Type} {TT : SleepTree T} {E : Env}.
Implicit Types s : St T.

(** The process of [o] runs, and calls chan_write or chan_read. *)
Definition run_op (c : loc) (size : Z) (o : op) : M (St T) () :=
  mods (s_set_curr (Some (op_proc o))) ;;
  call (op_side o) c (op_data o) size ;;
  mret ().

Definition run_ops (c : loc) (size : Z) (ops : list op) : M (St T) () :=
  for_each (run_op c size) ops.

(** The processes and buffers a history may use, and the store it starts in. *)
Record history_ok (s : St T) (size : Z) (ops : list op) : Prop := {
  h_sides : Forall (λ o, op_side o ≠ CHAN_ALTER) ops;
  h_procs : NoDup (op_proc <$> ops);
  h_live : Forall (λ o, is_Some (procs s !! op_proc o) ∧ op_proc o ∉ s_readyQ (sched s)) ops;
  h_ready : ready_live s;
  h_fresh : ∀ e, (fresh_loc s ≤ e)%positive → ends s !! e = None;
  h_size : (0 ≤ size)%Z;
  h_mapped : ∀ o, o ∈ ops → mapped (mem s) (op_data o) size;
  h_apart : ∀ o1 o2, o1 ∈ ops → o2 ∈ ops → o1 ≠ o2 → apart size (op_data o1) (op_data o2)
}.

(** The waiters of side [ty] are the calls of that side that nobody met. *)
Definition unmet (ty : ChanEndType) (ops : list op) (ws : list Waiter) : Prop :=
  as_op ty <$> ws = drop (length (ops_of (other ty) ops)) (ops_of ty ops) ∧
  length (ops_of (other ty) ops) ≤ length (ops_of ty ops).

Record fifo_inv (s0 : St T) (c : loc) (size : Z) (done : list op) (s : St T)
    (ty : ChanEndType) (ws : list Waiter) : Prop := {
  f_rep : chan_rep s c size [] ty ws;
  f_unmet : unmet ty done ws;
  f_nodup : NoDup (w_proc <$> ws);
  f_idle : Forall (λ w, w_proc w ∉ s_readyQ (sched s)) ws;
  f_queue : ∀ p, p ∈ s_readyQ (sched s) → p ∈ s_readyQ (sched s0) ∨ p ∈ op_proc <$> done;
  f_procs : ∀ p, is_Some (procs s0 !! p) → is_Some (procs s !! p);
  f_ready : ready_live s;
  f_fresh : ∀ e, (fresh_loc s ≤ e)%positive → ends s !! e = None;
  f_mem : mem s = copies size (pairs done) (mem s0)
}.

Lemma unmet_elem ty ops ws w : unmet ty ops ws → w ∈ ws → as_op ty w ∈ ops_of ty ops.
Proof.
  intros [Hws _] Hw. assert (as_op ty w ∈ as_op ty <$> ws) as Hin.
  { apply list_elem_of_fmap. by exists w. }
  rewrite Hws in Hin. rewrite <-(take_drop (length (ops_of (other ty) ops)) (ops_of ty ops)).
  apply elem_of_app. by right.
Qed.

(** With nobody waiting, both sides have made the same number of calls. *)
Lemma unmet_nil ty ty' ops :
  ty ≠ CHAN_ALTER → ty' ≠ CHAN_ALTER → unmet ty ops [] → unmet ty' ops [].
Proof.
  intros H1 H2 [Hd Hl]. symmetry in Hd. apply (f_equal length) in Hd.
  rewrite length_drop in Hd. simpl in Hd.
  assert (length (ops_of (other ty) ops) = length (ops_of ty ops)) as Heq by lia.
  split; [|destruct ty, ty'; simpl in *; done || lia].
  symmetry. apply drop_ge. destruct ty, ty'; simpl in *; done || lia.
Qed.

Lemma unmet_wait ops ws o e :
  op_side o ≠ CHAN_ALTER → unmet (op_side o) ops ws →
  unmet (op_side o) (ops ++ [o]) (ws ++ [MkWaiter e (op_proc o) (op_data o)]).
Proof.
  intros Ho [Hws Hl]. unfold unmet. rewrite ops_of_mine, (ops_of_other (other _)) by apply other_ne.
  rewrite fmap_app, Hws, length_app, drop_app_le by done. split; [|simpl; lia].
  simpl. f_equal. by destruct o.
Qed.

Lemma unmet_meet ty ops w ws o :
  ty ≠ CHAN_ALTER → op_side o = other ty → unmet ty ops (w :: ws) →
  unmet ty (ops ++ [o]) ws ∧
  ops_of ty ops !! length (ops_of (other ty) ops) = Some (as_op ty w).
Proof.
  intros Hty Ho [Hws Hl]. rewrite fmap_cons in Hws.
  assert (ops_of ty ops !! length (ops_of (other ty) ops) = Some (as_op ty w)) as Hat.
  { replace (length _) with (length (ops_of (other ty) ops) + 0) by lia.
    by rewrite <-lookup_drop, <-Hws. }
  split; [|done]. unfold unmet. rewrite <-Ho, ops_of_mine, Ho, (ops_of_other ty)
    by (rewrite Ho; intros ?; by apply (other_ne ty)).
  rewrite length_app. apply lookup_lt_Some in Hat as Hlt. split; [|simpl; lia].
  simpl. rewrite <-drop_drop, <-Hws. done.
Qed.

(** What the invariant gives to the next caller. *)
Lemma inv_can_call s0 c size ops done o rest s ty ws :
  history_ok s0 size ops → ops = done ++ o :: rest → fifo_inv s0 c size done s ty ws →
  can_call (op_side o) (set_sched (s_set_curr (Some (op_proc o))) s) (op_proc o) (op_data o) size ty ws.
Proof.
  intros Hh Hops Hinv. destruct Hinv, Hh. rewrite Forall_forall in h_live0.
  assert (∀ w, w ∈ ws → as_op ty w ∈ ops ∧ as_op ty w ∈ done) as Hin.
  { intros w Hw. eapply unmet_elem in f_unmet0 as [_ Hd]%elem_of_ops_of; [|done].
    split; [|done]. rewrite Hops. apply elem_of_app. by left. }
  assert (o ∈ ops) as Ho by (rewrite Hops; set_solver).
  split; [done|]. split; [by apply f_procs0, h_live0|]. split; [by apply f_fresh0|].
  split; [done|]. split.
  - rewrite Forall_forall in f_idle0 |- *. intros w Hw. split; [|by apply f_idle0].
    apply f_procs0. by apply (h_live0 (as_op ty w)), Hin.
  - intros Hty. rewrite Forall_forall. intros w Hw. destruct (Hin w Hw) as [Hwo Hwd].
    assert (as_op ty w ≠ o) as Hne by (intros <-; by apply Hty).
    assert (Forall (λ wr, wr.1 ∈ ops) (pairs done)) as Hp.
    { apply Forall_forall. intros [w' r'] Hwr%elem_of_zip_l. simpl in *.
      apply elem_of_ops_of in Hwr as [_ Hwr]. rewrite Hops. apply elem_of_app. by left. }
    assert (∀ x, x ∈ ops → mapped (mem s) (op_data x) size) as Hm.
    { intros x Hx. rewrite f_mem0. by eapply copies_mapped. }
    pose proof (h_apart0 _ _ Hwo Ho Hne) as Hap.
    unfold copy_ok, copyable. simpl in *. pose proof (Hm _ Hwo). pose proof (Hm _ Ho).
    destruct (op_side o); (split; [done|]; split; [done|]; split; [done|]; right);
      unfold ranges_overlap; unfold apart in Hap; simpl in Hap;
      apply andb_false_iff; rewrite !Z.ltb_ge; lia.
Qed.

Lemma inv_wait s0 c size ops done o rest s ty ws :
  history_ok s0 size ops → ops = done ++ o :: rest → fifo_inv s0 c size done s ty ws →
  ws = [] ∨ ty = op_side o →
  fifo_inv s0 c size (done ++ [o])
    (waiting c (MkChan size (w_end <$> ws) []) (op_side o) (op_proc o) (op_data o)
      (set_sched (s_set_curr (Some (op_proc o))) s))
    (op_side o) (ws ++ [MkWaiter (fresh_loc s) (op_proc o) (op_data o)]).
Proof.
  intros Hh Hops Hinv Hty. destruct Hinv, Hh. rewrite Forall_forall in h_sides0, h_live0.
  assert (o ∈ ops) as Ho by (rewrite Hops; set_solver).
  assert (op_proc o ∉ op_proc <$> done) as Hnew.
  { rewrite Hops, fmap_app, fmap_cons in h_procs0. apply NoDup_app in h_procs0 as (_ & Hd & _).
    intros Hin. eapply Hd; [done|]. by left. }
  assert (unmet (op_side o) done ws) as Hun.
  { destruct Hty as [-> | <-]; [|done]. eapply unmet_nil; [apply f_rep0|auto|done]. }
  assert (∀ w, w ∈ ws → w_proc w ∈ op_proc <$> done) as Hwd.
  { intros w Hw. eapply unmet_elem in Hun as [_ Hd]%elem_of_ops_of; [|done].
    apply list_elem_of_fmap. by exists (as_op (op_side o) w). }
  split.
  - apply (waiting_rep c size [] ty ws (op_side o) (op_proc o) (op_data o)
      (set_sched (s_set_curr (Some (op_proc o))) s)); [exact f_rep0|done|auto|].
    simpl. by apply f_fresh0.
  - apply unmet_wait; auto.
  - rewrite fmap_app. apply NoDup_app. split; [done|]. split; [|apply NoDup_singleton].
    intros p Hp ->%list_elem_of_singleton. apply Hnew. simpl.
    apply list_elem_of_fmap in Hp as (w & Hp & Hw). simpl in Hp. rewrite Hp. by apply Hwd.
  - apply Forall_app. split; [done|]. repeat constructor. simpl.
    intros [Hq|Hq]%f_queue0; [by apply (h_live0 o)|done].
  - simpl. intros p [Hq|Hq]%f_queue0; [by left|]. right. rewrite fmap_app. set_solver.
  - simpl. intros p Hp. by apply lookup_alter_is_Some, f_procs0.
  - unfold ready_live in *. simpl. eapply Forall_impl; [exact f_ready0|].
    intros p Hp. by apply lookup_alter_is_Some.
  - simpl. intros e He. rewrite lookup_insert_ne by lia. apply f_fresh0. lia.
  - simpl. rewrite f_mem0, pairs_wait; [done|by auto|apply Hun].
Qed.

Lemma inv_meet s0 c size ops done o rest s ty w ws :
  history_ok s0 size ops → ops = done ++ o :: rest → fifo_inv s0 c size done s ty (w :: ws) →
  ty ≠ op_side o →
  fifo_inv s0 c size (done ++ [o])
    (met c (MkChan size (w_end <$> w :: ws) []) w (w_end <$> ws)
      (copied (op_side o) w (op_data o) size) (set_sched (s_set_curr (Some (op_proc o))) s)) ty ws.
Proof.
  intros Hh Hops Hinv Hty. destruct Hinv, Hh. rewrite Forall_forall in h_sides0.
  assert (o ∈ ops) as Ho by (rewrite Hops; set_solver).
  assert (op_side o ≠ CHAN_ALTER) as Hside by auto.
  assert (ty ≠ CHAN_ALTER) as Hta by apply f_rep0.
  assert (op_side o = other ty) as Hother by (by destruct ty, (op_side o)).
  assert (w_proc w ∈ op_proc <$> done) as Hwd.
  { eapply unmet_elem in f_unmet0 as [_ Hd]%elem_of_ops_of; [|by left].
    apply list_elem_of_fmap. by exists (as_op ty w). }
  destruct (unmet_meet ty done w ws o) as [Hun Hat]; try done.
  rewrite fmap_cons in f_nodup0. apply NoDup_cons in f_nodup0 as [Hnd1 Hnd2].
  apply Forall_cons in f_idle0 as [_ Hidle]. split.
  - by apply met_rep.
  - done.
  - done.
  - simpl. rewrite Forall_forall in Hidle |- *. intros x Hx [Hq|Hq]%elem_of_app; [by eapply Hidle|].
    apply list_elem_of_singleton in Hq. apply Hnd1. rewrite <-Hq. apply list_elem_of_fmap. by exists x.
  - simpl. intros p [Hq|Hq]%elem_of_app; rewrite fmap_app.
    + apply f_queue0 in Hq as [?|?]; [by left|]. right. set_solver.
    + apply list_elem_of_singleton in Hq as ->. right. set_solver.
  - simpl. intros p Hp. by apply lookup_alter_is_Some, f_procs0.
  - unfold ready_live in *. simpl. apply Forall_app. split.
    + eapply Forall_impl; [exact f_ready0|]. intros p Hp. by apply lookup_alter_is_Some.
    + repeat constructor. apply lookup_alter_is_Some, f_procs0.
      apply list_elem_of_fmap in Hwd as (o' & -> & Ho'). rewrite Forall_forall in h_live0.
      apply h_live0. rewrite Hops. apply elem_of_app. by left.
  - done.
  - simpl. rewrite f_mem0, (pairs_meet done o (as_op ty w)).
    + unfold copies. rewrite foldl_app. by destruct (op_side o).
    + done.
    + rewrite Hother, other_other by done. exact Hat.
Qed.

Lemma inv_step s0 c size ops done o rest s ty ws :
  history_ok s0 size ops → ops = done ++ o :: rest → fifo_inv s0 c size done s ty ws →
  wp (run_op c size o) (λ _ s', ∃ ty' ws', fifo_inv s0 c size (done ++ [o]) s' ty' ws') s.
Proof.
  intros Hh Hops Hinv. unfold run_op. step. step. step.
  assert (op_side o ≠ CHAN_ALTER) as Hside.
  { destruct Hh. rewrite Forall_forall in h_sides0. apply h_sides0. rewrite Hops. set_solver. }
  eapply wp_mono; [apply (call_ok (op_side o) c size [] ty ws (op_proc o))|]; try done.
  - apply Hinv.
  - by eapply inv_can_call.
  - intros r s' Hpost. step. unfold call_post in Hpost.
    destruct ws as [|w ws]; simpl in Hpost; [|destruct (decide (ty = op_side o))].
    + destruct Hpost as (_ & _ & ->). eexists _, _.
      apply (inv_wait s0 c size ops done o rest s ty []); auto.
    + destruct Hpost as (_ & _ & ->). eexists _, _.
      apply (inv_wait s0 c size ops done o rest s ty (w :: ws)); auto.
    + destruct Hpost as (_ & _ & ->). exists ty, ws. by eapply inv_meet.
Qed.

Lemma run_ops_inv c size ops s :
  history_ok s size ops → chan_rep s c size [] CHAN_WRITER [] →
  wp (run_ops c size ops) (λ _ s', ∃ ty ws, fifo_inv s c size ops s' ty ws) s.
Proof.
  intros Hh Hrep. apply (wp_for_each _ (λ done s', ∃ ty ws, fifo_inv s c size done s' ty ws)).
  - intros done o rest s' Hops (ty & ws & Hinv). by eapply inv_step.
  - exists CHAN_WRITER, []. destruct Hh. split; try done; [by apply NoDup_nil_2|by left].
Qed.

Lemma pairs_good ops :
  NoDup ops → good_pairs ops (pairs ops).
Proof.
  intros Hnd. split.
  - apply Forall_forall. intros [w r] Hwr. pose proof (elem_of_zip_l _ _ _ _ Hwr) as Hw.
    apply elem_of_zip_r in Hwr. apply elem_of_ops_of in Hw as [??], Hwr as [??]. done.
  - by apply NoDup_snd_zip, NoDup_filter.
Qed.

(** C6: a channel is first in, first out.  Whatever sequence of writes and
    reads different processes issue on an idle channel, the buffer of the k-th
    read ends up with the message of the k-th write, no other byte of memory
    changes, and the calls still waiting are exactly the ones beyond the other
    side's count, in order. *)
Theorem channel_fifo c size ops s :
  history_ok s size ops → chan_rep s c size [] CHAN_WRITER [] →
  wp (run_ops c size ops) (λ _ s',
    (∀ k w r i, ops_of CHAN_WRITER ops !! k = Some w → ops_of CHAN_READER ops !! k = Some r →
       (0 ≤ i < size)%Z → mem s' !! (op_data r + i)%Z = mem s !! (op_data w + i)%Z) ∧
    (∀ x, (∀ r, r ∈ ops_of CHAN_READER ops → x < op_data r ∨ op_data r + size ≤ x)%Z →
       mem s' !! x = mem s !! x) ∧
    ∃ ty ws, chan_rep s' c size [] ty ws ∧ unmet ty ops ws) s.
Proof.
  intros Hh Hrep. eapply wp_mono; [by apply run_ops_inv|]. intros _ s' (ty & ws & Hinv).
  destruct Hh, Hinv. apply NoDup_fmap_1, pairs_good in h_procs0 as Hgood. split; [|split].
  - intros k w r i Hw Hr Hi. rewrite f_mem0. eapply copies_in; try done.
    apply (list_elem_of_lookup_2 _ k). apply lookup_zip_with_Some. by exists w, r.
  - intros x Hx. rewrite f_mem0. apply copies_out; [done|]. apply Forall_forall.
    intros [w r] Hwr%elem_of_zip_r. by apply Hx.
  - by exists ty, ws.
Qed.
End fifo.

(** ** The claim at a concrete history *)

Section examples.
#[local] Existing Instance demo_env.

Definition fifo_ops : list op :=
  [MkOp CHAN_WRITER 1 10; MkOp CHAN_WRITER 2 20; MkOp CHAN_READER 3 30; MkOp CHAN_WRITER 4 40].

Definition fifo_state : St rb_tree :=
  set_chans <[50%positive := MkChan 1 [] []]>
    (set_mem (λ _, list_to_map [(10, 1); (20, 2); (30, 3); (40, 4)]%Z)
      (demo_state (list_to_map ((λ p, (p, demo_proc PROC_READY)) <$> [1; 2; 3; 4]%positive)) ∅ None)).

Lemma fifo_history : history_ok fifo_state 1 fifo_ops.
Proof.
  split; try done; try by apply (bool_decide_unpack _).
  - unfold fifo_ops. intros o Ho. apply mapped_1. rewrite !elem_of_cons, elem_of_nil in Ho.
    destruct Ho as [->|[->|[->|[->|[]]]]]; by eexists; (split; [by vm_compute|]).
  - unfold fifo_ops. intros o1 o2 H1 H2. rewrite !elem_of_cons, elem_of_nil in H1, H2. unfold apart.
    destruct H1 as [->|[->|[->|[->|[]]]]], H2 as [->|[->|[->|[->|[]]]]]; simpl; intros; done || lia.
Qed.

Lemma channel_fifo_witness :
  wp (run_ops 50%positive 1 fifo_ops) (λ _ s', mem s' !! 30%Z = Some 1%Z ∧
    ∃ ty ws, chan_rep s' 50%positive 1 [] ty ws ∧ unmet ty fifo_ops ws) fifo_state.
Proof.
  eapply wp_mono.
  - apply (channel_fifo 50%positive 1 fifo_ops fifo_state); [apply fifo_history|].
    split; [done|]. split; [apply NoDup_nil_2|]. by split.
  - intros _ s' (Hcopy & _ & Hrep). split; [|exact Hrep].
    by apply (Hcopy 0 (MkOp CHAN_WRITER 1 10) (MkOp CHAN_READER 3 30) 0%Z).
Defined.
End examples.
