(* ===== verification/Alt.v ===== *)
(** * Choosing among guards: alt_enable, alt_disable, alt_select of alt.c

    [alt_select] may yield twice, so it is in three parts: up to [alt_choose],
    from the wake-up to the end of [alt_complete], and the return. *)
From stdpp Require Import base tactics list gmap.
From Stdlib Require Import ZArith Lia.
From S2P Require Import Prelude Tailq Rbtree RbInsert RbSpec State SchedOps AltCore Chan.

Section alt.
Context {T : Type} {TT : SleepTree T} {E : Env}.
Abbreviation M := (M (St T)).

Definition alt_enable (g : loc) : M bool :=
  v ← getg g;
  match g_type v with
  | GUARD_SKIP => mret true
  | GUARD_TIME => scheduler_addaltsleep (Some g) ;; mret false
  | GUARD_CHAN =>
      ready ← chan_altenable (g_chan v) g;
      if ready : bool then mret true else
      modg g (g_set_in_chan true) ;; mret false
  end.

Definition alt_disable (g : loc) : M () :=
  v ← getg g;
  match g_type v with
  | GUARD_SKIP => mret ()
  | GUARD_TIME => scheduler_remaltsleep (Some g)
  | GUARD_CHAN => when (g_in_chan v) (chan_altdisable (g_chan v) g)
  end.

(** [ready.num > 0]. *)
Definition has_ready (a : Alt) : bool :=
  bool_decide (default [] (a_ready a) ≠ []).

Definition alt_complete (alt guard : loc) : M (ctl ()) :=
  v ← getg guard;
  when (bool_decide (g_type v = GUARD_CHAN) && negb (g_in_chan v))
    (chan_altread (g_chan v) guard (g_data_size v)) ;;
  a ← geta alt;
  if has_ready a then proc_yield (a_proc a) (KAltComplete alt) else mret (CRet ()).

Definition alt_choose (alt : loc) : M (ctl ()) :=
  a ← geta alt;
  let ready := default [] (a_ready a) in
  if has_ready a then
    w ← (if Nat.ltb 1 (length ready) then
           r ← rand; deref (ready !! Z.to_nat (r `mod` Z.of_nat (length ready)))
         else deref (ready !! 0));
    moda alt (a_set_winner (Some w)) ;;
    mret (CRet ())
  else if negb (a_is_accepted a) then
    p ← deref (a_proc a);
    modp p (p_set_state PROC_ALTWAIT) ;;
    proc_yield (Some p) (KAltChoose alt)
  else mret (CRet ()).

(** [alt->ready.guards[alt->ready.num++] = guard], in an array of
    [guards.num] elements. *)
Definition ready_push (alt g : loc) : M () :=
  a ← geta alt;
  r ← deref (a_ready a);
  if (Z.of_nat (length r) <? a_guards_num a)%Z
  then puta alt (a_set_ready (Some (r ++ [g])) a) else undef.

Definition enable_guard (alt g : loc) : M () :=
  ready ← alt_enable g;
  when ready (ready_push alt g).

(** The end of alt_select: the key of the winner. *)
Definition alt_return (alt : loc) : M (ctl Z) :=
  a ← geta alt;
  w ← deref (a_winner a);
  v ← getg w;
  mret (CRet (g_key v)).

Definition alt_selected (alt : loc) : M (ctl Z) :=
  a ← geta alt;
  ASSERT (bool_decide (is_Some (a_winner a))) ;;
  for_each alt_disable (reverse (a_guardsQ a)) ;;
  w ← notnull (a_winner a);
  r ← alt_complete alt w;
  match r with CRet _ => alt_return alt | CYield k => mret (CYield k) end.

Definition alt_select (alt : loc) : M (ctl Z) :=
  ok ← alloc_ok;
  if negb ok then PANIC else
  moda alt (a_set_ready (Some [])) ;;
  a ← geta alt;
  for_each (enable_guard alt) (a_guardsQ a) ;;
  r ← alt_choose alt;
  match r with CRet _ => alt_selected alt | CYield k => mret (CYield k) end.
End alt.
