(* ===== verification/AltSpec.v ===== *)
(** * Enabling and disabling the guards of an ALT

    [registered base l gs pre s]: [s] is [base] with the guards [pre] of an ALT
    registered, on the channels and in the tree of timed guards. *)
From stdpp Require Import base tactics list gmap.
From Stdlib Require Import ZArith Lia.
From S2P Require Import Prelude Tailq Rbtree RbInsert RbSpec State SchedOps Exec SleepSpec.
From S2P Require Import AltCore Chan CopySpec ChanSpec Alt.

(** ** What a guard has queued *)

(** The end of [g] when it is in [altQ] of the channel [c]. *)
Definition queued_at (gm : gmap loc Guard) (c : loc) (g : loc) : option loc :=
  v ← gm !! g;
  if decide (g_type v = GUARD_CHAN ∧ g_in_chan v = true ∧ g_chan v = Some c)
  then Some (g_ch_end v) else None.

Definition queued (gm : gmap loc Guard) (c : loc) (pre : list loc) : list loc := omap (queued_at gm c) pre.

Definition is_timer (gm : gmap loc Guard) (g : loc) : Prop := g_type <$> gm !! g = Some GUARD_TIME.

#[export] Instance is_timer_dec gm g : Decision (is_timer gm g).
Proof. unfold is_timer. apply _. Defined.

Definition timers (gm : gmap loc Guard) (pre : list loc) : list loc :=
  filter (λ g, is_timer gm g) pre.

(** Two states of one guard: only the deadline and [in_chan] may differ. *)
Definition same_guard (v0 v : Guard) : Prop :=
  g_set_in_chan (g_in_chan v0) (g_set_usec (g_usec v0) v) = v0.

Lemma same_guard_refl v : same_guard v v.
Proof. by destruct v. Qed.

Lemma same_guard_in_chan v0 v b : same_guard v0 v → same_guard v0 (g_set_in_chan b v).
Proof. by destruct v0, v. Qed.

Lemma same_guard_usec v0 v u : same_guard v0 v → same_guard v0 (g_set_usec u v).
Proof. by destruct v0, v. Qed.

Lemma same_guard_fields v0 v : same_guard v0 v →
  g_type v = g_type v0 ∧ g_alt v = g_alt v0 ∧ g_chan v = g_chan v0 ∧ g_ch_end v = g_ch_end v0 ∧
  g_key v = g_key v0 ∧ g_data_ptr v = g_data_ptr v0 ∧ g_data_size v = g_data_size v0.
Proof. intros <-. by destruct v. Qed.

Lemma queued_snoc gm c pre g :
  queued gm c (pre ++ [g]) = queued gm c pre ++ option_list (queued_at gm c g).
Proof. unfold queued. by rewrite omap_app. Qed.

Lemma timers_snoc gm pre g :
  timers gm (pre ++ [g]) = timers gm pre ++ (if decide (is_timer gm g) then [g] else []).
Proof. unfold timers. rewrite filter_app, filter_cons. by case_decide. Qed.

Lemma queued_ext gm gm' c pre :
  (∀ g, g ∈ pre → gm' !! g = gm !! g) → queued gm' c pre = queued gm c pre.
Proof.
  intros H. unfold queued. induction pre as [|g pre IH]; [done|].
  assert (queued_at gm' c g = queued_at gm c g) as Hg by (unfold queued_at; by rewrite H by left).
  specialize (IH (λ x Hx, H x (list_elem_of_further _ _ _ Hx))). simpl. rewrite Hg.
  destruct (queued_at gm c g); [f_equal|]; exact IH.
Qed.

Lemma timers_ext gm gm' pre :
  (∀ g, g ∈ pre → g_type <$> gm' !! g = g_type <$> gm !! g) → timers gm' pre = timers gm pre.
Proof.
  intros H. unfold timers. induction pre as [|g pre IH]; [done|].
  rewrite !filter_cons, IH by (intros; apply H; by right).
  by rewrite (decide_ext (is_timer gm' g) (is_timer gm g)) by (unfold is_timer; by rewrite H by left).
Qed.

Section alt_spec.
Context {T : Type} {TT : SleepTree T} {E : Env}.
Implicit Types s base : St T.

(** The ALT [al] of process [p] and its guards [gs]; [l] are the timed guards of
    the other ALTs. *)
Record alt_ok (al p : loc) (gs l : list loc) (base : St T) : Prop := {
  ao_nodup : NoDup gs;
  ao_guard g : g ∈ gs → ∃ v, guards base !! g = Some v ∧ g_alt v = Some al ∧
    (g_type v = GUARD_CHAN → ∃ c ch, g_chan v = Some c ∧ chans base !! c = Some ch ∧
       is_Some (ends base !! g_ch_end v));
  ao_ends g1 g2 v1 v2 : g1 ∈ gs → g2 ∈ gs → guards base !! g1 = Some v1 → guards base !! g2 = Some v2 →
    g_ch_end v1 = g_ch_end v2 → g1 = g2;
  ao_proc : is_Some (procs base !! p);
  ao_chans c ch : chans base !! c = Some ch → Forall (λ e, is_Some (ends base !! e)) (c_endQ ch);
  ao_timer g1 g2 : g1 ∈ gs → g2 ∈ gs → is_timer (guards base) g1 → is_timer (guards base) g2 → g1 = g2;
  ao_others g : g ∈ l → g ∉ gs ∧ is_Some (guards base !! g)
}.

Record registered (base : St T) (al : loc) (gs l pre : list loc) (s : St T) : Prop := {
  r_procs : procs s = procs base;
  r_ends : ends s = ends base;
  r_builds : builds s = builds base;
  r_mem : mem s = mem base;
  r_sched : s_set_altsleep 0 st_init (sched s) = s_set_altsleep 0 st_init (sched base);
  r_alts x : x ≠ al → alts s !! x = alts base !! x;
  r_guards g v0 : guards base !! g = Some v0 →
    ∃ v, guards s !! g = Some v ∧ (if decide (g ∈ gs) then same_guard v0 v else v = v0);
  r_chans c ch0 : chans base !! c = Some ch0 → ∃ q, chans s !! c = Some (c_set_altQ q ch0) ∧
    c_altQ ch0 = filter (λ e, e ∉ queued (guards s) c pre) q ∧
    (∀ e, e ∈ queued (guards s) c pre → e ∈ q) ∧ Forall (λ e, is_Some (ends base !! e)) q;
  r_tree : ∃ lt, altsleepers s lt ∧ l = filter (λ g, g ∉ timers (guards s) pre) lt ∧
    (∀ g, g ∈ timers (guards s) pre → g ∈ lt);
  r_num : s_altsleep_num (sched s) =
    u64 (s_altsleep_num (sched base) + Z.of_nat (length (timers (guards s) pre)))
}.

(** The ALT is still well formed in a state with its guards registered. *)
Lemma registered_guard base al p gs l pre s g :
  alt_ok al p gs l base → registered base al gs l pre s → g ∈ gs →
  ∃ v0 v, guards base !! g = Some v0 ∧ guards s !! g = Some v ∧ same_guard v0 v ∧ g_alt v = Some al.
Proof.
  intros Hok Hreg Hg. destruct (ao_guard _ _ _ _ _ Hok g Hg) as (v0 & Hv0 & Hal & _).
  destruct (r_guards _ _ _ _ _ _ Hreg g v0 Hv0) as (v & Hv & Hsame).
  rewrite decide_True in Hsame by done. exists v0, v. split_and!; try done.
  by destruct (same_guard_fields v0 v Hsame) as (_ & -> & _).
Qed.

Lemma guard_proc_reg base al p gs l pre s a g (Q : loc → St T → Prop) :
  alt_ok al p gs l base → registered base al gs l pre s → g ∈ gs →
  alts s !! al = Some a → a_proc a = Some p → Q p s → wp (guard_proc g) Q s.
Proof.
  intros Hok Hreg Hg Ha Hp HQ.
  destruct (registered_guard _ _ _ _ _ _ _ _ Hok Hreg Hg) as (v0 & v & _ & Hv & _ & Hal).
  destruct (ao_proc _ _ _ _ _ Hok) as [w Hw]. rewrite <-(r_procs _ _ _ _ _ _ Hreg) in Hw.
  unfold guard_proc. by steps.
Qed.

(** The registered ends of an ALT are distinct. *)
Lemma queued_elem gm c pre e :
  e ∈ queued gm c pre ↔ ∃ g v, g ∈ pre ∧ gm !! g = Some v ∧ g_type v = GUARD_CHAN ∧
    g_in_chan v = true ∧ g_chan v = Some c ∧ g_ch_end v = e.
Proof.
  unfold queued. rewrite list_elem_of_omap. unfold queued_at. split.
  - intros (g & Hg & (v & Hv & He)%bind_Some). case_decide as Hd; [|done].
    destruct Hd as (? & ? & ?). exists g, v. by simplify_eq.
  - intros (g & v & Hg & Hv & ? & ? & ? & <-). exists g. split; [done|]. rewrite Hv. simpl.
    by rewrite decide_True.
Qed.

Lemma timers_elem gm pre g : g ∈ timers gm pre ↔ g ∈ pre ∧ is_timer gm g.
Proof. unfold timers. rewrite list_elem_of_filter. naive_solver. Qed.

(** Taking the last of the registered elements out. *)
Lemma filter_drop_last (pre q : list loc) e :
  filter (λ x, x ∉ pre) (Q.without q e) = filter (λ x, x ∉ pre ++ [e]) q.
Proof.
  unfold Q.without. rewrite list_filter_filter. apply list_filter_iff. intros x.
  rewrite not_elem_of_app, list_elem_of_singleton. naive_solver.
Qed.

Lemma filter_new_last (pre q : list loc) e :
  e ∉ q → filter (λ x, x ∉ pre) q = filter (λ x, x ∉ pre ++ [e]) q.
Proof.
  induction q as [|x q IH]; [done|]. intros [Hx Hq]%not_elem_of_cons.
  rewrite !filter_cons, IH by done.
  rewrite (decide_ext (x ∉ pre ++ [e]) (x ∉ pre)); [done|].
  rewrite not_elem_of_app, list_elem_of_singleton. naive_solver.
Qed.

Lemma registered_pre base al gs l pre pre' s :
  (∀ c, queued (guards s) c pre' = queued (guards s) c pre) →
  timers (guards s) pre' = timers (guards s) pre →
  registered base al gs l pre s → registered base al gs l pre' s.
Proof.
  intros Hq Ht []. split; try done.
  - intros c ch0 Hc. rewrite Hq. by apply r_chans0.
  - by rewrite Ht.
  - by rewrite Ht.
Qed.

(** ** alt_disable takes one guard out *)

Lemma queued_at_chan gm c g v :
  gm !! g = Some v → g_type v = GUARD_CHAN → g_in_chan v = true → g_chan v = Some c →
  ∀ c', queued_at gm c' g = if decide (c' = c) then Some (g_ch_end v) else None.
Proof.
  intros Hv Ht Hin Hc c'. unfold queued_at. rewrite Hv. simpl.
  destruct (decide (c' = c)) as [->|Hne]; [by rewrite decide_True|].
  rewrite decide_False; [done|]. intros (_ & _ & ?). congruence.
Qed.

Lemma queued_at_none gm g v c :
  gm !! g = Some v → g_type v ≠ GUARD_CHAN ∨ g_in_chan v = false → queued_at gm c g = None.
Proof.
  intros Hv Hn. unfold queued_at. rewrite Hv. simpl. rewrite decide_False; [done|].
  intros (? & ? & _). destruct Hn; congruence.
Qed.

Lemma disable_chan base al p gs l pre g v s :
  alt_ok al p gs l base → registered base al gs l (pre ++ [g]) s →
  pre ++ [g] ⊆ gs → NoDup (pre ++ [g]) →
  guards s !! g = Some v → g_type v = GUARD_CHAN → g_in_chan v = true →
  wp (chan_altdisable (g_chan v) g) (λ _ s', registered base al gs l pre s' ∧
    alts s' = alts s ∧ guards s' = guards s) s.
Proof.
  intros Hok Hreg Hsub Hnd Hv Hty Hin.
  assert (g ∈ gs) as Hg by set_solver.
  destruct (registered_guard _ _ _ _ _ _ _ _ Hok Hreg Hg) as (v0 & v' & Hv0 & Hv' & Hsame & _).
  assert (v' = v) as -> by congruence.
  destruct (same_guard_fields v0 v Hsame) as (Ht0 & _ & Hc0 & He0 & _).
  destruct (ao_guard _ _ _ _ _ Hok g Hg) as (v1 & Hv1 & _ & Hchan). assert (v1 = v0) as -> by congruence.
  destruct Hchan as (c & ch & Hc & Hch & He); [congruence|].
  pose proof (queued_at_chan _ c _ _ Hv Hty Hin ltac:(congruence)) as Hqa.
  pose proof (r_chans _ _ _ _ _ _ Hreg c ch Hch) as (q & Hq & Hfil & Hall & Hlive).
  rewrite queued_snoc, Hqa, decide_True in Hfil, Hall by done. simpl in Hfil, Hall.
  unfold chan_altdisable. step. eapply wp_notnull; [by rewrite Hc0|]. step. step.
  step. apply wp_ASSERT; [apply bool_decide_true; congruence|]. step.
  eapply wp_getc; [exact Hq|]. step. apply wp_get. step. apply wp_REMOVE.
  - apply Hall. apply elem_of_app. right. by left.
  - apply Forall_live. rewrite (r_ends _ _ _ _ _ _ Hreg). exact Hlive.
  - apply wp_putc. split; [|done]. destruct Hreg. split; try done; simpl.
    + intros c' ch0 Hc'. destruct (decide (c' = c)) as [->|Hne].
      * assert (ch0 = ch) as -> by congruence. exists (Q.without q (g_ch_end v)).
        rewrite lookup_insert_eq. split; [done|]. split; [by rewrite filter_drop_last|].
        split.
        -- intros e He'. unfold Q.without. apply list_elem_of_filter. split; [|set_solver].
           intros ->. apply queued_elem in He' as (g' & v' & Hg' & Hv'' & _ & _ & _ & Heq).
           destruct (registered_guard base al p gs l (pre ++ [g]) s g' Hok) as (w0 & w & Hw0 & Hw & Hws & _);
             [by split|set_solver|]. assert (w = v') as -> by congruence.
           destruct (same_guard_fields _ _ Hws) as (_ & _ & _ & Hwe & _).
           assert (g' = g) as ->.
           { eapply (ao_ends _ _ _ _ _ Hok g' g w0 v0); try done; [set_solver|congruence]. }
           apply NoDup_app in Hnd as (_ & Hd & _). eapply Hd; [done|]. by left.
        -- apply Forall_forall. intros e He'. unfold Q.without in He'.
           apply list_elem_of_filter in He' as [_ He']. rewrite Forall_forall in Hlive. by apply Hlive.
      * rewrite lookup_insert_ne by done. destruct (r_chans0 c' ch0 Hc') as (q' & ? & Hf' & Ha' & ?).
        rewrite queued_snoc, Hqa, decide_False, app_nil_r in Hf', Ha' by done. by exists q'.
    + rewrite timers_snoc, decide_False, app_nil_r in r_tree0; [done|].
      unfold is_timer. rewrite Hv. simpl. congruence.
    + rewrite timers_snoc, decide_False, app_nil_r in r_num0; [done|].
      unfold is_timer. rewrite Hv. simpl. congruence.
Qed.

Lemma disable_timer base al p gs l pre g a s :
  alt_ok al p gs l base → registered base al gs l (pre ++ [g]) s →
  pre ++ [g] ⊆ gs → NoDup (pre ++ [g]) → (0 ≤ s_altsleep_num (sched base) < U64)%Z →
  alts s !! al = Some a → a_proc a = Some p → is_timer (guards s) g →
  wp (scheduler_remaltsleep (Some g)) (λ _ s', registered base al gs l pre s' ∧
    alts s' = alts s ∧ guards s' = guards s) s.
Proof.
  intros Hok Hreg Hsub Hnd Hnum Ha Hp Htimer.
  assert (g ∈ gs) as Hg by set_solver.
  destruct (r_tree _ _ _ _ _ _ Hreg) as (lt & Hlt & Hl & Hall).
  rewrite timers_snoc, decide_True in Hl, Hall by done.
  pose proof (r_num _ _ _ _ _ _ Hreg) as Hn. rewrite timers_snoc, decide_True, length_app in Hn by done.
  unfold scheduler_remaltsleep. step. step. step. eapply guard_proc_reg; try done.
  step. eapply wp_on_altsleep.
  { apply (st_remove_ok (altsleep_key s) _ lt); [exact Hlt|]. apply Hall. set_solver. }
  intros o t [-> Ht]. apply wp_mods. split; [|done]. destruct Hreg. split; try done; simpl.
  - intros c ch0 Hc. destruct (r_chans0 c ch0 Hc) as (q & Hq & Hf & Ha' & Hlive).
    rewrite queued_snoc in Hf, Ha'. unfold is_timer in Htimer.
    destruct (guards s !! g) as [v|] eqn:Hv; [|done]. simpl in Htimer.
    rewrite (queued_at_none _ _ v), app_nil_r in Hf, Ha' by (done || (left; congruence)).
    by exists q.
  - exists (SL.remove g lt). split; [exact Ht|]. split.
    + rewrite Hl. symmetry. apply filter_drop_last.
    + intros x Hx. unfold SL.remove. apply list_elem_of_filter. split; [|apply Hall; set_solver].
      intros ->. apply timers_elem in Hx as [Hx _].
      apply NoDup_app in Hnd as (_ & Hd & _). eapply Hd; [done|]. by left.
  - rewrite Hn. simpl. unfold u64. rewrite Zplus_mod_idemp_l. f_equal. lia.
Qed.

Lemma disable_ok base al p gs l pre g a s :
  alt_ok al p gs l base → registered base al gs l (pre ++ [g]) s →
  pre ++ [g] ⊆ gs → NoDup (pre ++ [g]) → (0 ≤ s_altsleep_num (sched base) < U64)%Z →
  alts s !! al = Some a → a_proc a = Some p →
  wp (alt_disable g) (λ _ s', registered base al gs l pre s' ∧
    alts s' = alts s ∧ guards s' = guards s) s.
Proof.
  intros Hok Hreg Hsub Hnd Hnum Ha Hp. assert (g ∈ gs) as Hg by set_solver.
  destruct (registered_guard _ _ _ _ _ _ _ _ Hok Hreg Hg) as (v0 & v & _ & Hv & _).
  assert (g_type v ≠ GUARD_TIME → g_type v ≠ GUARD_CHAN ∨ g_in_chan v = false →
    registered base al gs l pre s) as Hnone.
  { intros Ht Hn. eapply registered_pre; [..|exact Hreg].
    - intros c. by rewrite queued_snoc, (queued_at_none _ _ v), app_nil_r.
    - rewrite timers_snoc, decide_False, app_nil_r; [done|].
      unfold is_timer. rewrite Hv. simpl. congruence. }
  unfold alt_disable. step. step. destruct (g_type v) eqn:Hty.
  - step. split; [|done]. by apply Hnone; [done|left].
  - eapply disable_timer; try done. unfold is_timer. rewrite Hv. simpl. congruence.
  - destruct (g_in_chan v) eqn:Hin; simpl.
    + by eapply disable_chan.
    + step. split; [|done]. by apply Hnone; [done|right].
Qed.

(** The loop of alt_select over the guards, last first. *)
Lemma disable_all base al p gs l a s :
  alt_ok al p gs l base → registered base al gs l gs s →
  (0 ≤ s_altsleep_num (sched base) < U64)%Z → alts s !! al = Some a → a_proc a = Some p →
  wp (for_each alt_disable (reverse gs)) (λ _ s', registered base al gs l [] s' ∧
    alts s' = alts s ∧ guards s' = guards s) s.
Proof.
  intros Hok Hreg Hnum Ha Hp. pose proof (ao_nodup _ _ _ _ _ Hok) as Hnd.
  eapply wp_mono.
  - apply (wp_for_each _ (λ done s', ∀ pre, gs = pre ++ reverse done →
      registered base al gs l pre s' ∧ alts s' = alts s ∧ guards s' = guards s)).
    + intros done g rest s1 Hrev Hinv.
      destruct (Hinv (reverse rest ++ [g])) as (Hreg1 & Halts & Hguards).
      { rewrite <-(reverse_involutive gs), Hrev, reverse_app, reverse_cons. done. }
      assert (gs = (reverse rest ++ [g]) ++ reverse done) as Hgs.
      { rewrite <-(reverse_involutive gs), Hrev, reverse_app, reverse_cons. done. }
      eapply wp_mono.
      * eapply (disable_ok base al p gs l (reverse rest) g a); try done.
        -- rewrite Hgs. set_solver.
        -- rewrite Hgs in Hnd. by apply NoDup_app in Hnd as [? _].
        -- by rewrite Halts.
      * intros [] s2 (Hreg2 & Ha2 & Hg2) pre Hpre.
        assert (pre = reverse rest) as ->.
        { rewrite Hpre, reverse_app in Hgs. simpl in Hgs.
          rewrite <-app_assoc in Hgs. by apply app_inv_tail in Hgs. }
        split; [done|]. split; congruence.
    + intros pre Hpre. rewrite reverse_nil, app_nil_r in Hpre. by subst pre.
  - intros [] s' Hinv. apply Hinv. by rewrite reverse_involutive.
Qed.

(** ** alt_enable registers one guard *)

(** Whether a writer is first in [endQ]. *)
Definition writer_waiting (s : St T) (c : loc) : bool :=
  match chans s !! c with
  | Some ch => match head (c_endQ ch) with
      | Some e => bool_decide (ce_type <$> ends s !! e = Some CHAN_WRITER)
      | None => false
      end
  | None => false
  end.

(** Whether [g] can proceed at once. *)
Definition guard_ready (s : St T) (g : loc) : bool :=
  match guards s !! g with
  | Some v => match g_type v with
      | GUARD_SKIP => true
      | GUARD_TIME => false
      | GUARD_CHAN => from_option (writer_waiting s) false (g_chan v)
      end
  | None => false
  end.

(** The deadlines of the other ALTs do not move. *)
Lemma altsleep_key_reg base al p gs l pre s x :
  alt_ok al p gs l base → registered base al gs l pre s → x ∉ gs → is_Some (guards base !! x) →
  altsleep_key s x = altsleep_key base x.
Proof.
  intros Hok Hreg Hx [v0 Hv0]. destruct (r_guards _ _ _ _ _ _ Hreg x v0 Hv0) as (v & Hv & Hs).
  rewrite decide_False in Hs by done. subst v. unfold altsleep_key. by rewrite Hv, Hv0.
Qed.

(** What holds of the guards before any of them is enabled. *)
Record fresh_guards (gs l : list loc) (base : St T) : Prop := {
  fg_in_chan g v : g ∈ gs → guards base !! g = Some v → g_in_chan v = false;
  fg_altQ c ch : chans base !! c = Some ch →
    Forall (λ e, is_Some (ends base !! e)) (c_altQ ch) ∧
    (∀ g v, g ∈ gs → guards base !! g = Some v → g_type v = GUARD_CHAN → g_ch_end v ∉ c_altQ ch);
  fg_timer g v : g ∈ gs → guards base !! g = Some v → g_type v = GUARD_TIME →
    (0 < g_usec v)%Z ∧ (g_usec v + MAX_TRIES < U64)%Z ∧ ¬ taken (altsleep_key base) l (g_usec v) MAX_TRIES;
  fg_tree : altsleepers base l
}.

(** The guards still to be enabled, and the ready ones, are as they were; a
    channel guard that had to wait is marked. *)
Record untouched (base : St T) (gs pre : list loc) (s : St T) : Prop := {
  un_same g : g ∈ gs → g ∉ pre ∨ guard_ready base g = true → guards s !! g = guards base !! g;
  un_marked g v : g ∈ gs → g ∈ pre → guard_ready base g = false → guards s !! g = Some v →
    g_type v = GUARD_CHAN → g_in_chan v = true
}.

Lemma untouched_nil base gs s : guards s = guards base → untouched base gs [] s.
Proof. intros Hg. split; [by intros; rewrite Hg|]. by intros g v ? ?%not_elem_of_nil. Qed.

Lemma untouched_keep base gs pre g v s :
  guards s !! g = Some v → (g_type v = GUARD_CHAN → guard_ready base g = true) →
  untouched base gs pre s → untouched base gs (pre ++ [g]) s.
Proof.
  intros Hv Hr Hun. split.
  - intros x Hx [Hn|?]; apply (un_same _ _ _ _ Hun); [done|left|done|by right]. set_solver.
  - intros x w Hx Hin Hnr Hw Hty. apply elem_of_app in Hin as [Hin| ->%list_elem_of_singleton].
    + by eapply (un_marked _ _ _ _ Hun).
    + assert (w = v) as -> by congruence. rewrite Hr in Hnr by done. done.
Qed.

Lemma untouched_set base gs pre g v s s' :
  untouched base gs pre s → g ∉ pre → guard_ready base g = false → guards s' = <[g := v]> (guards s) →
  (g_type v = GUARD_CHAN → g_in_chan v = true) → untouched base gs (pre ++ [g]) s'.
Proof.
  intros Hun Hpre Hr Hs' Hm. split.
  - intros x Hx Hn. rewrite Hs'. assert (x ≠ g) as Hne.
    { intros ->. destruct Hn as [Hn|]; [set_solver|congruence]. }
    rewrite lookup_insert_ne by done. apply (un_same _ _ _ _ Hun); [done|]. destruct Hn; [left; set_solver|by right].
  - intros x w Hx Hin Hnr Hw Hty. rewrite Hs' in Hw.
    destruct (decide (x = g)) as [->|Hne].
    + rewrite lookup_insert_eq in Hw. simplify_eq. by apply Hm.
    + rewrite lookup_insert_ne in Hw by done. eapply (un_marked _ _ _ _ Hun); try done. set_solver.
Qed.

Lemma first_writer_ok c ch s :
  chans s !! c = Some ch → Forall (λ e, is_Some (ends s !! e)) (c_endQ ch) →
  wp (first_end_of c CHAN_WRITER) (λ r s', s' = s ∧ bool_decide (is_Some r) = writer_waiting s c) s.
Proof.
  intros Hc Hlive. unfold first_end_of, writer_waiting. rewrite Hc. step. step.
  destruct (c_endQ ch) as [|e q]; simpl; [by step|].
  apply Forall_cons in Hlive as [[v Hv] _]. step. eapply wp_gete; [exact Hv|]. step.
  split; [done|]. rewrite Hv. simpl. apply bool_decide_ext. destruct (decide (ce_type v = CHAN_WRITER)).
  - split; [congruence|by eexists].
  - split; [by intros []|congruence].
Qed.

(** The end of a guard not enabled yet is not in its channel's queue. *)
Lemma ch_end_new base al p gs l pre g v s c ch q :
  alt_ok al p gs l base → fresh_guards gs l base → registered base al gs l pre s → pre ⊆ gs →
  g ∈ gs → g ∉ pre → guards base !! g = Some v → g_type v = GUARD_CHAN → chans base !! c = Some ch →
  c_altQ ch = filter (λ e, e ∉ queued (guards s) c pre) q → g_ch_end v ∉ queued (guards s) c pre ∧ g_ch_end v ∉ q.
Proof.
  intros Hok Hfresh Hreg Hsub Hg Hpre Hv Hty Hch Hfil.
  assert (g_ch_end v ∉ queued (guards s) c pre) as Hn.
  { intros (g' & v' & Hg' & Hv' & _ & _ & _ & Heq)%queued_elem.
    destruct (registered_guard base al p gs l pre s g' Hok) as (w0 & w & Hw0 & Hw & Hws & _);
      [done|set_solver|]. assert (w = v') as -> by congruence.
    destruct (same_guard_fields _ _ Hws) as (_ & _ & _ & Hwe & _).
    apply Hpre. assert (g = g') as ->; [|done].
    eapply (ao_ends _ _ _ _ _ Hok g g' v w0); try done; [set_solver|congruence]. }
  split; [done|]. intros Hin. destruct (fg_altQ _ _ _ Hfresh c ch Hch) as [_ Hno].
  apply (Hno g v); try done. rewrite Hfil. by apply list_elem_of_filter.
Qed.

(** Queueing a channel guard. *)
Lemma registered_chan base al gs l pre g v s c ch q :
  registered base al gs l pre s → g ∈ gs → g ∉ pre → guards s !! g = Some v → g_type v = GUARD_CHAN →
  g_chan v = Some c → chans base !! c = Some ch → chans s !! c = Some (c_set_altQ q ch) →
  is_Some (ends base !! g_ch_end v) → g_ch_end v ∉ queued (guards s) c pre → g_ch_end v ∉ q →
  registered base al gs l (pre ++ [g])
    (set_guards <[g := g_set_in_chan true v]> (set_chans <[c := c_set_altQ (q ++ [g_ch_end v]) ch]> s)).
Proof.
  intros Hreg Hg Hpre Hv Hty Hc Hch Hq He Hnq Hnew.
  set (gm := <[g := g_set_in_chan true v]> (guards s)).
  assert (∀ x, x ∈ pre → gm !! x = guards s !! x) as Hgm.
  { intros x Hx. apply lookup_insert_ne. by intros <-. }
  assert (∀ c', queued gm c' pre = queued (guards s) c' pre) as Hqext.
  { intros c'. by apply queued_ext. }
  assert (∀ c', queued_at gm c' g = if decide (c' = c) then Some (g_ch_end v) else None) as Hqa.
  { apply (queued_at_chan gm c g (g_set_in_chan true v)); try done. apply lookup_insert_eq. }
  assert (timers gm (pre ++ [g]) = timers (guards s) pre) as Htim.
  { rewrite timers_snoc, decide_False, app_nil_r.
    - apply timers_ext. intros x Hx. by rewrite Hgm.
    - unfold is_timer, gm. rewrite lookup_insert_eq. simpl. congruence. }
  destruct Hreg. split; try done; simpl; fold gm.
  - intros x v0 Hx. destruct (r_guards0 x v0 Hx) as (v' & Hv' & Hs).
    destruct (decide (x = g)) as [->|Hne].
    + assert (v' = v) as -> by congruence. exists (g_set_in_chan true v).
      split; [apply lookup_insert_eq|]. rewrite decide_True in Hs |- * by done.
      by apply same_guard_in_chan.
    + exists v'. unfold gm. by rewrite lookup_insert_ne.
  - intros c' ch0 Hc'. destruct (r_chans0 c' ch0 Hc') as (q' & Hq' & Hf' & Ha' & Hl').
    rewrite queued_snoc, Hqext, Hqa. destruct (decide (c' = c)) as [->|Hne]; simpl.
    + assert (ch0 = ch ∧ q' = q) as [-> ->].
      { split; [congruence|]. rewrite Hq in Hq'. unfold c_set_altQ in Hq'. congruence. }
      exists (q ++ [g_ch_end v]). rewrite lookup_insert_eq. split; [done|]. split; [|split].
      * rewrite Hf', filter_app. rewrite (filter_cons_False _ (g_ch_end v)) by set_solver.
        rewrite app_nil_r. apply filter_new_last. done.
      * intros e [?|?]%elem_of_app; apply elem_of_app; [left; auto|by right].
      * apply Forall_app. split; [done|]. by repeat constructor.
    + rewrite app_nil_r, lookup_insert_ne by done. by exists q'.
  - rewrite Htim. destruct r_tree0 as (lt & Hlt & Hrest). exists lt. split; [|done].
    eapply st_ext; [|exact Hlt]. intros x _. unfold altsleep_key. simpl. unfold gm.
    destruct (decide (x = g)) as [->|]; [by rewrite lookup_insert_eq, Hv|by rewrite lookup_insert_ne].
  - by rewrite Htim.
Qed.

Lemma enable_chan base al p gs l pre g v s :
  alt_ok al p gs l base → fresh_guards gs l base →
  registered base al gs l pre s → untouched base gs pre s → pre ⊆ gs →
  g ∈ gs → g ∉ pre → guards s !! g = Some v → g_type v = GUARD_CHAN →
  wp (ready ← chan_altenable (g_chan v) g;
      if (ready : bool) then mret true else modg g (g_set_in_chan true) ;; mret false)
    (λ r s', registered base al gs l (pre ++ [g]) s' ∧ untouched base gs (pre ++ [g]) s' ∧
      r = guard_ready base g ∧ alts s' = alts s) s.
Proof.
  intros Hok Hfresh Hreg Hun Hsub Hg Hpre Hv Hty.
  assert (guards base !! g = Some v) as Hv0 by (rewrite <-(un_same _ _ _ _ Hun); auto).
  destruct (ao_guard _ _ _ _ _ Hok g Hg) as (v1 & Hv1 & _ & Hchan). assert (v1 = v) as -> by congruence.
  destruct (Hchan Hty) as (c & ch & Hc & Hch & He).
  destruct (r_chans _ _ _ _ _ _ Hreg c ch Hch) as (q & Hq & Hfil & Hall & Hlive).
  pose proof (fg_in_chan _ _ _ Hfresh g v Hg Hv0) as Hin.
  assert (guard_ready base g = writer_waiting s c) as Hready.
  { unfold guard_ready, writer_waiting. rewrite Hv0, Hty, Hc. simpl. unfold writer_waiting.
    rewrite Hch, Hq, (r_ends _ _ _ _ _ _ Hreg). done. }
  unfold chan_altenable. step. step. eapply wp_notnull; [done|]. step. step. step.
  eapply wp_mono; [eapply first_writer_ok; [exact Hq|]|].
  { rewrite (r_ends _ _ _ _ _ _ Hreg). by apply (ao_chans _ _ _ _ _ Hok c ch). }
  intros r ? [-> Hr]. rewrite <-Hready in Hr. destruct r as [x|].
  - rewrite bool_decide_true in Hr by by eexists. step. step. split_and!; try done.
    + eapply registered_pre; [..|exact Hreg].
      * intros c'. by rewrite queued_snoc, (queued_at_none _ _ v), app_nil_r by (done || by right).
      * rewrite timers_snoc, decide_False, app_nil_r; [done|].
        unfold is_timer. rewrite Hv. simpl. congruence.
    + by eapply untouched_keep.
  - rewrite bool_decide_false in Hr by by intros []. step. eapply wp_getc; [exact Hq|].
    destruct (ch_end_new base al p gs l pre g v s c ch q) as [Hnq Hnew]; try done.
    step. apply wp_get. step. apply wp_INSERT_TAIL; [done|..].
    + apply live_in_Some. by rewrite (r_ends _ _ _ _ _ _ Hreg).
    + apply Forall_live. by rewrite (r_ends _ _ _ _ _ _ Hreg).
    + step. step. step. step. step. split_and!; try done.
      * apply (registered_chan base al gs l pre g v s c ch q); try done.
      * by eapply untouched_set.
Qed.

Lemma filter_nil_pre (q : list loc) : filter (λ g, g ∉ @nil loc) q = q.
Proof.
  induction q as [|x q IH]; [done|]. rewrite filter_cons_True by apply not_elem_of_nil. by rewrite IH.
Qed.

Lemma taken_ext key key' (l : list loc) k n :
  (∀ x, x ∈ l → key' x = key x) → taken key l k n → taken key' l k n.
Proof. intros Hk Ht i Hi. rewrite (SL_lookup_ext key) by done. by apply Ht. Qed.

(** Filing a time guard. *)
Lemma registered_timer base al p gs l pre g v k t' s :
  alt_ok al p gs l base → registered base al gs l pre s → untouched base gs pre s → pre ⊆ gs →
  g ∈ gs → g ∉ pre → guards s !! g = Some v → g_type v = GUARD_TIME → altsleepers s l →
  timers (guards s) pre = [] →
  altsleepers (timed g k v t' s) (SL.insert (altsleep_key (timed g k v t' s)) g l) →
  registered base al gs l (pre ++ [g]) (timed g k v t' s).
Proof.
  intros Hok Hreg Hun Hsub Hg Hpre Hv Hty Hlt Hnil Ht'.
  assert (g ∉ l) as Hgl by (intros Hgl; by destruct (ao_others _ _ _ _ _ Hok g Hgl)).
  set (gm := <[g := g_set_usec k v]> (guards s)).
  assert (∀ x, x ∈ pre → gm !! x = guards s !! x) as Hgm.
  { intros x Hx. apply lookup_insert_ne. by intros <-. }
  assert (∀ c', queued gm c' (pre ++ [g]) = queued (guards s) c' pre) as Hq.
  { intros c'. rewrite queued_snoc, (queued_at_none _ _ (g_set_usec k v)), app_nil_r.
    - by apply queued_ext.
    - apply lookup_insert_eq.
    - left. simpl. congruence. }
  assert (timers gm (pre ++ [g]) = [g]) as Htim.
  { rewrite timers_snoc, decide_True.
    - rewrite (timers_ext (guards s)), Hnil; [done|]. intros x Hx. by rewrite Hgm.
    - unfold is_timer, gm. rewrite lookup_insert_eq. simpl. congruence. }
  destruct Hreg. split; try done; simpl; fold gm.
  - intros x v0 Hx. destruct (r_guards0 x v0 Hx) as (v' & Hv' & Hs).
    destruct (decide (x = g)) as [->|Hne].
    + assert (v' = v) as -> by congruence. exists (g_set_usec k v).
      split; [apply lookup_insert_eq|]. rewrite decide_True in Hs |- * by done.
      by apply same_guard_usec.
    + exists v'. unfold gm. by rewrite lookup_insert_ne.
  - intros c' ch0 Hc'. rewrite Hq. by apply r_chans0.
  - rewrite Htim. eexists. split; [exact Ht'|]. split.
    + rewrite <-(SL_remove_insert (altsleep_key (timed g k v t' s)) g l) at 1 by done.
      unfold SL.remove. apply list_filter_iff. intros x. by rewrite list_elem_of_singleton.
    + intros x ->%list_elem_of_singleton. apply SL_insert_elem. by left.
  - rewrite Htim, r_num0, Hnil. simpl. unfold u64. rewrite Z.add_0_r, Zplus_mod_idemp_l. done.
Qed.

Lemma enable_timer base al p gs l pre g v a s :
  alt_ok al p gs l base → fresh_guards gs l base →
  registered base al gs l pre s → untouched base gs pre s → pre ⊆ gs →
  g ∈ gs → g ∉ pre → guards s !! g = Some v → g_type v = GUARD_TIME →
  alts s !! al = Some a → a_proc a = Some p →
  wp (scheduler_addaltsleep (Some g) ;; mret false)
    (λ r s', registered base al gs l (pre ++ [g]) s' ∧ untouched base gs (pre ++ [g]) s' ∧
      r = guard_ready base g ∧ alts s' = alts s) s.
Proof.
  intros Hok Hfresh Hreg Hun Hsub Hg Hpre Hv Hty Ha Hp.
  assert (guards base !! g = Some v) as Hv0 by (rewrite <-(un_same _ _ _ _ Hun); auto).
  destruct (registered_guard _ _ _ _ _ _ _ _ Hok Hreg Hg) as (v0 & v' & _ & Hv' & _ & Hal).
  assert (v' = v) as -> by congruence.
  destruct (ao_proc _ _ _ _ _ Hok) as [w Hw]. rewrite <-(r_procs _ _ _ _ _ _ Hreg) in Hw.
  destruct (fg_timer _ _ _ Hfresh g v Hg Hv0 Hty) as (Hk & HU & Hnt).
  assert (timers (guards s) pre = []) as Hnil.
  { apply elem_of_nil_inv. intros x [Hx Ht]%timers_elem. apply Hpre.
    assert (x = g) as <-; [|done]. eapply (ao_timer _ _ _ _ _ Hok); [set_solver|done| |].
    - unfold is_timer in *. destruct (guards s !! x) as [vx|] eqn:Hvx; [|done].
      destruct (registered_guard base al p gs l pre s x Hok Hreg) as (w0 & w1 & -> & Hw1 & Hws & _); [set_solver|].
      destruct (same_guard_fields _ _ Hws) as (Hteq & _). simpl. rewrite <-Hteq.
      rewrite Hw1 in Hvx. by simplify_eq.
    - unfold is_timer. rewrite Hv0. simpl. congruence. }
  destruct (r_tree _ _ _ _ _ _ Hreg) as (lt & Hlt & Hl & _).
  rewrite Hnil, filter_nil_pre in Hl. subst lt.
  assert (∀ x, x ∈ l → altsleep_key s x = altsleep_key base x) as Hkey.
  { intros x Hx. destruct (ao_others _ _ _ _ _ Hok x Hx).
    by apply (altsleep_key_reg base al p gs l pre). }
  destruct (addaltsleep_ok g l v al a p w s) as (n & _ & _ & _ & Hadd); try done.
  { intros Hgl. by destruct (ao_others _ _ _ _ _ Hok g Hgl). }
  { intros Ht. apply Hnt. eapply taken_ext; [|exact Ht]. intros x Hx. by rewrite Hkey. }
  step. eapply wp_mono; [exact Hadd|]. intros [] ? (t' & -> & Ht'). step. split_and!; try done.
  - by eapply registered_timer.
  - eapply untouched_set; [done|done| |done|].
    + unfold guard_ready. by rewrite Hv0, Hty.
    + simpl. congruence.
  - unfold guard_ready. by rewrite Hv0, Hty.
Qed.
End alt_spec.
