(* ===== verification/AltSelect.v ===== *)
(** * What alt_select chooses, and what it leaves behind *)
From stdpp Require Import base tactics list gmap.
From Stdlib Require Import ZArith Lia.
From S2P Require Import Prelude Tailq Rbtree RbInsert RbSpec State SchedOps Exec SleepSpec.
From S2P Require Import AltCore Chan CopySpec ChanSpec Alt AltSpec.

Section alt_select.
Context {T : Type} {TT : SleepTree T} {E : Env}.
Implicit Types s base : St T.

(** The guards that can proceed, in order. *)
Definition ready_guards (base : St T) (gs : list loc) : list loc :=
  filter (λ g, guard_ready base g = true) gs.

Lemma registered_puta base al gs l pre s a :
  registered base al gs l pre s → registered base al gs l pre (set_alts <[al := a]> s).
Proof.
  intros []. split; try done. intros x Hx. simpl. rewrite lookup_insert_ne by done. by apply r_alts.
Qed.

(** Nothing is registered before the loop. *)
Lemma registered_start base al gs l s :
  altsleepers base l → (0 ≤ s_altsleep_num (sched base) < U64)%Z →
  (∀ c ch, chans base !! c = Some ch → Forall (λ e, is_Some (ends base !! e)) (c_altQ ch)) →
  procs s = procs base → ends s = ends base → builds s = builds base → mem s = mem base →
  sched s = sched base → guards s = guards base → chans s = chans base →
  (∀ x, x ≠ al → alts s !! x = alts base !! x) →
  registered base al gs l [] s.
Proof.
  intros Hl Hn Hlive Hp He Hb Hm Hs Hg Hc Ha. split; try done.
  - by rewrite Hs.
  - intros g v0 Hv. rewrite Hg. exists v0. split; [done|]. case_decide; [apply same_guard_refl|done].
  - intros c ch Hch. exists (c_altQ ch). rewrite Hc. unfold queued. simpl. rewrite filter_nil_pre.
    split; [destruct ch; exact Hch|]. split; [done|]. split; [by intros ? ?%not_elem_of_nil|].
    by eapply Hlive.
  - exists l. unfold timers. simpl. rewrite filter_nil_pre. split; [|split; [done|]].
    + unfold altsleepers, altsleep_key. by rewrite Hs, Hg.
    + by intros ? ?%not_elem_of_nil.
  - rewrite Hs. unfold timers, u64. simpl. rewrite Z.add_0_r. symmetry. by apply Z.mod_small.
Qed.

(** Once everything has been taken out, the queues and the tree are back. *)
Lemma registered_end base al gs l s :
  registered base al gs l [] s → (0 ≤ s_altsleep_num (sched base) < U64)%Z →
  chans base ⊆ chans s ∧ altsleepers s l ∧ s_altsleep_num (sched s) = s_altsleep_num (sched base) ∧
  s_readyQ (sched s) = s_readyQ (sched base).
Proof.
  intros [] Hn. split_and!.
  - apply map_subseteq_spec. intros c ch Hc. destruct (r_chans c ch Hc) as (q & Hq & Hf & _).
    unfold queued in Hf. simpl in Hf. rewrite filter_nil_pre in Hf. rewrite Hq, <-Hf. by destruct ch.
  - destruct r_tree as (lt & Hlt & Hl & _). unfold timers in Hl. simpl in Hl.
    rewrite filter_nil_pre in Hl. by subst lt.
  - rewrite r_num. unfold timers, u64. simpl. rewrite Z.add_0_r. by apply Z.mod_small.
  - by apply (f_equal s_readyQ) in r_sched.
Qed.

Lemma enable_guard_ok base al p gs l pre g rest a s :
  alt_ok al p gs l base → fresh_guards gs l base → gs = pre ++ g :: rest →
  a_guards_num a = Z.of_nat (length gs) → a_proc a = Some p →
  registered base al gs l pre s → untouched base gs pre s →
  alts s !! al = Some (a_set_ready (Some (ready_guards base pre)) a) →
  wp (enable_guard al g) (λ _ s', registered base al gs l (pre ++ [g]) s' ∧
    untouched base gs (pre ++ [g]) s' ∧
    alts s' !! al = Some (a_set_ready (Some (ready_guards base (pre ++ [g]))) a)) s.
Proof.
  intros Hok Hfresh Hgs Hnum Hp Hreg Hun Ha.
  assert (g ∈ gs) as Hg by (rewrite Hgs; set_solver).
  assert (pre ⊆ gs) as Hsub by (rewrite Hgs; set_solver).
  assert (g ∉ pre) as Hpre.
  { pose proof (ao_nodup _ _ _ _ _ Hok) as Hnd. rewrite Hgs in Hnd.
    apply NoDup_app in Hnd as (_ & Hd & _). intros Hin. eapply Hd; [done|]. by left. }
  destruct (registered_guard _ _ _ _ _ _ _ _ Hok Hreg Hg) as (v0 & v & Hv0 & Hv & _).
  assert (v0 = v) as -> by (rewrite (un_same _ _ _ _ Hun) in Hv by auto; congruence).
  unfold enable_guard. step. eapply (wp_mono _ (λ r s', registered base al gs l (pre ++ [g]) s' ∧
    untouched base gs (pre ++ [g]) s' ∧ r = guard_ready base g ∧ alts s' = alts s)).
  - unfold alt_enable. step. step. destruct (g_type v) eqn:Hty.
    + step. split_and!; try done.
      * eapply registered_pre; [..|exact Hreg].
        -- intros c. by rewrite queued_snoc, (queued_at_none _ _ v), app_nil_r by (done || by left; congruence).
        -- rewrite timers_snoc, decide_False, app_nil_r; [done|].
           unfold is_timer. rewrite Hv. simpl. congruence.
      * eapply untouched_keep; [done|congruence|done].
      * unfold guard_ready. by rewrite Hv0, Hty.
    + by eapply enable_timer.
    + by eapply enable_chan.
  - intros r s1 (Hreg1 & Hun1 & -> & Halts).
    assert (ready_guards base (pre ++ [g]) = ready_guards base pre ++
      (if guard_ready base g then [g] else [])) as Hr.
    { unfold ready_guards. rewrite filter_app, filter_cons. by destruct (guard_ready base g). }
    rewrite Hr. destruct (guard_ready base g); simpl.
    + unfold ready_push. step. eapply wp_geta; [by rewrite Halts|]. step. eapply wp_deref; [done|].
      cbn [a_guards_num a_set_ready]. rewrite (proj2 (Z.ltb_lt _ _)).
      * step. split; [by apply registered_puta|]. split; [by destruct Hun1|]. simpl. by rewrite lookup_insert_eq.
      * rewrite Hnum, Hgs, length_app. simpl.
        assert (length (ready_guards base pre) ≤ length pre) by apply length_filter. lia.
    + step. rewrite app_nil_r, Halts. done.
Qed.

Lemma enable_all base al p gs l a s :
  alt_ok al p gs l base → fresh_guards gs l base →
  a_guards_num a = Z.of_nat (length gs) → a_proc a = Some p →
  registered base al gs l [] s → untouched base gs [] s → alts s !! al = Some (a_set_ready (Some []) a) →
  wp (for_each (enable_guard al) gs) (λ _ s', registered base al gs l gs s' ∧
    untouched base gs gs s' ∧ alts s' !! al = Some (a_set_ready (Some (ready_guards base gs)) a)) s.
Proof.
  intros Hok Hfresh Hnum Hp Hreg Hun Ha. eapply wp_mono.
  - apply (wp_for_each _ (λ pre s', registered base al gs l pre s' ∧ untouched base gs pre s' ∧
      alts s' !! al = Some (a_set_ready (Some (ready_guards base pre)) a))).
    + intros pre g rest s1 Hgs (Hreg1 & Hun1 & Ha1). by eapply enable_guard_ok.
    + done.
  - intros [] s' (? & ? & ?). done.
Qed.

(** ** An ALT about to select *)

(** [al] is the ALT that the running process [p] has filled with the guards [gs]. *)
Record can_select (al p : loc) (gs l : list loc) (a : Alt) (s : St T) : Prop := {
  cs_ok : alt_ok al p gs l s;
  cs_fresh : fresh_guards gs l s;
  cs_alt : alts s !! al = Some a;
  cs_guardsQ : a_guardsQ a = gs;
  cs_num : a_guards_num a = Z.of_nat (length gs);
  cs_proc : a_proc a = Some p;
  cs_open : a_is_accepted a = false;
  cs_curr : s_curr_proc (sched s) = Some p;
  cs_altnum : (0 ≤ s_altsleep_num (sched s) < U64)%Z;
  cs_malloc : malloc_ok (n_malloc s) = true
}.

(** alt_select up to alt_choose: every guard is registered. *)
Definition select_rest (al : loc) : M (St T) (ctl Z) :=
  r ← alt_choose al;
  match r with CRet _ => alt_selected al | CYield k => mret (CYield k) end.

Lemma select_enables al p gs l a s (Q : ctl Z → St T → Prop) :
  can_select al p gs l a s →
  (∀ s1, registered s al gs l gs s1 → untouched s gs gs s1 → alts s1 !! al = Some (a_set_ready (Some (ready_guards s gs)) a) →
     wp (select_rest al) Q s1) →
  wp (alt_select al) Q s.
Proof.
  intros [] HQ. unfold alt_select. step. step. rewrite cs_malloc0. cbn [negb]. step. step. step. step.
  step. simpl a_guardsQ. rewrite cs_guardsQ0. eapply wp_mono.
  - apply (enable_all s al p gs l a); try done.
    + apply registered_start; try done; [apply cs_fresh0|..].
      * intros c ch Hc. by destruct (fg_altQ _ _ _ cs_fresh0 c ch Hc).
      * intros x Hx. simpl. by rewrite lookup_insert_ne.
    + by apply untouched_nil.
    + simpl. by rewrite lookup_insert_eq.
  - intros [] s1 (Hreg & Hun & Ha1). by apply HQ.
Qed.

(** [alt_select] with no guard that can proceed registers all of them, each
    channel guard at the end of its channel's [altQ] and the time guard in the
    tree, puts its process in state ALTWAIT, and yields. *)
Lemma alt_select_waits al p gs l a s :
  can_select al p gs l a s → (∀ g, g ∈ gs → guard_ready s g = false) →
  wp (alt_select al) (λ r s', r = CYield (KAltChoose al) ∧
    ∃ s1, registered s al gs l gs s1 ∧ untouched s gs gs s1 ∧ alts s1 !! al = Some (a_set_ready (Some []) a) ∧
      s' = set_procs (alter (p_set_state PROC_ALTWAIT) p) s1) s.
Proof.
  intros Hcs Hnone. eapply select_enables; [done|]. intros s1 Hreg Hun Ha.
  assert (ready_guards s gs = []) as Hr.
  { apply elem_of_nil_inv. intros g [Hg Hin]%list_elem_of_filter. by rewrite Hnone in Hg. }
  rewrite Hr in Ha. destruct Hcs.
  destruct (ao_proc _ _ _ _ _ cs_ok0) as [w Hw].
  assert (procs s1 !! p = Some w) as Hw1 by by rewrite (r_procs _ _ _ _ _ _ Hreg).
  assert (s_curr_proc (sched s1) = Some p) as Hcurr.
  { rewrite <-cs_curr0. exact (f_equal s_curr_proc (r_sched _ _ _ _ _ _ Hreg)). }
  unfold select_rest, alt_choose. step. step. step. cbn [has_ready a_ready a_set_ready default].
  unfold has_ready. simpl. rewrite cs_open0. cbn [negb].
  steps. unfold proc_yield. steps. split; [done|]. exists s1. split; [done|]. split; [done|]. split; [done|].
  apply St_eq; try reflexivity. simpl. apply map_eq. intros x.
  destruct (decide (x = p)) as [->|]; by simplify_map_eq.
Qed.

(** When another process has chosen the winner (a writer on a channel, or the
    scheduler at a time-out whose guard is still filed), the ALT takes all its
    guards back, so that channels, timed guards and their number are what they
    were, and returns the key of the winner without yielding again. *)
Lemma alt_selected_returns base al p gs l a w v s :
  alt_ok al p gs l base → registered base al gs l gs s →
  (0 ≤ s_altsleep_num (sched base) < U64)%Z →
  alts s !! al = Some a → a_proc a = Some p → a_guardsQ a = gs → a_ready a = Some [] →
  a_winner a = Some w → guards s !! w = Some v → (g_type v = GUARD_CHAN → g_in_chan v = true) →
  wp (alt_selected al) (λ r s', r = CRet (g_key v) ∧
    chans base ⊆ chans s' ∧ altsleepers s' l ∧
    s_altsleep_num (sched s') = s_altsleep_num (sched base) ∧ procs s' = procs s ∧ mem s' = mem s ∧
    alts s' = alts s ∧ guards s' = guards s ∧ s_readyQ (sched s') = s_readyQ (sched base)) s.
Proof.
  intros Hok Hreg Hnum Ha Hp Hgs Hready Hwin Hv Hin. unfold alt_selected.
  step. step. step. apply wp_ASSERT; [apply bool_decide_true; by rewrite Hwin|]. step. rewrite Hgs.
  eapply wp_mono; [by eapply disable_all|]. intros [] s1 (Hreg1 & Halts & Hguards).
  rewrite <-Halts in Ha. rewrite <-Hguards in Hv.
  destruct (registered_end _ _ _ _ _ Hreg1 Hnum) as (Hc & Hl & Hn & Hrq).
  step. eapply wp_notnull; [done|]. unfold alt_complete. step. step. step.
  assert (bool_decide (g_type v = GUARD_CHAN) && negb (g_in_chan v) = false) as ->.
  { destruct (g_type v); try done. by rewrite Hin. }
  step. apply wp_when; [done|]. intros _. step. step. unfold has_ready. rewrite Hready. simpl.
  step. unfold alt_return. step. step. step. eapply wp_deref; [done|]. step. step. step.
  split_and!; try done.
  - by rewrite (r_procs _ _ _ _ _ _ Hreg1), (r_procs _ _ _ _ _ _ Hreg).
  - by rewrite (r_mem _ _ _ _ _ _ Hreg1), (r_mem _ _ _ _ _ _ Hreg).
Qed.

(** ** A guard that can proceed at once *)

(** The writer that a ready channel guard [v] will meet, and the channel. *)
Definition meets (s : St T) (v : Guard) (c e : loc) (ch : Chan) (q : list loc) (wr : ChanEnd) (pw : loc) : Prop :=
  g_chan v = Some c ∧ chans s !! c = Some ch ∧ c_endQ ch = e :: q ∧
  ends s !! e = Some wr ∧ ce_type wr = CHAN_WRITER ∧ ce_proc wr = Some pw.

(** The first writers of the guards' channels wait with messages that fit. *)
Definition writers_ok (s : St T) (gs : list loc) : Prop :=
  ∀ g v, g ∈ gs → guards s !! g = Some v → g_type v = GUARD_CHAN → guard_ready s g = true →
    ∃ c e ch q wr pw, meets s v c e ch q wr pw ∧ e ∉ q ∧ g_data_size v = c_data_size ch ∧
      copyable (mem s) (g_data_ptr v) (ce_data wr) (c_data_size ch) ∧ can_ready [pw] s.

(** What the winner [w] of the ALT did, from [s] to [s']. *)
Definition proceeded (s s' : St T) (v : Guard) : Prop :=
  match g_type v with
  | GUARD_CHAN => ∃ c e ch q wr pw, meets s v c e ch q wr pw ∧
      mem s' = mcopy (g_data_ptr v) (ce_data wr) (c_data_size ch) (mem s) ∧
      s_readyQ (sched s') = s_readyQ (sched s) ++ [pw] ∧
      chans s' !! c = Some (c_set_endQ q ch)
  | _ => mem s' = mem s ∧ s_readyQ (sched s') = s_readyQ (sched s) ∧ chans s ⊆ chans s'
  end.

Lemma altread_ok g v c e ch q wr pw s :
  guards s !! g = Some v → meets s v c e ch q wr pw → e ∉ q →
  g_data_size v = c_data_size ch → Forall (λ x, is_Some (ends s !! x)) (c_endQ ch) →
  copyable (mem s) (g_data_ptr v) (ce_data wr) (c_data_size ch) → can_ready [pw] s →
  wp (chan_altread (g_chan v) g (g_data_size v)) (λ _ s', s' = ready_all [pw]
    (set_mem (mcopy (g_data_ptr v) (ce_data wr) (c_data_size ch))
      (set_chans <[c := c_set_endQ q ch]> s))) s.
Proof.
  intros Hv (Hc & Hch & Hq & He & Hty & Hpw) Hnq Hsize Hlive Hcopy Hready.
  unfold chan_altread. step. eapply wp_notnull; [done|]. step. step. step. step.
  step. apply wp_ASSERT; [rewrite Hsize; apply Z.eqb_refl|]. step. eapply wp_deref; [by rewrite Hq|].
  step. eapply wp_gete; [exact He|]. rewrite decide_False by (rewrite Hty; naive_solver).
  step. unfold endQ_remove. step. step. step. apply wp_get. step. rewrite Hq.
  apply wp_REMOVE; [by left|rewrite <-Hq; by apply Forall_live|]. rewrite Q_without_head by done.
  step. step. apply copydata_ok; [done|]. rewrite Hpw. eapply wp_mono; [by apply addready_all|]. done.
Qed.

(** alt_choose when something is ready. *)
Lemma choose_ready al a r s :
  alts s !! al = Some a → a_ready a = Some r → r ≠ [] →
  wp (alt_choose al) (λ x s', x = CRet () ∧ ∃ w n, w ∈ r ∧
    s' = set_alts <[al := a_set_winner (Some w) a]> (set_counts (n_time s) n (n_malloc s) (n_switch s) s)) s.
Proof.
  intros Ha Hr Hne. unfold alt_choose. step. step. unfold has_ready. rewrite Hr. simpl.
  rewrite bool_decide_true by done. step.
  assert (∃ x, r !! 0 = Some x) as [x0 Hx0] by (destruct r; [done|by eexists]).
  destruct (Nat.ltb_spec 1 (length r)) as [Hlen|Hlen].
  - unfold rand. step. step. step. step. step. step.
    set (i := Z.to_nat (rand_at (n_rand s) `mod` Z.of_nat (length r))).
    assert (i < length r) as Hi.
    { pose proof (Z.mod_pos_bound (rand_at (n_rand s)) (Z.of_nat (length r)) ltac:(lia)). lia. }
    apply lookup_lt_is_Some_2 in Hi as [w Hw]. eapply wp_deref; [exact Hw|]. step. step. step.
    split; [done|]. exists w, (S (n_rand s)). split; [by eapply list_elem_of_lookup_2|done].
  - eapply wp_deref; [exact Hx0|]. step. step. step. split; [done|]. exists x0, (n_rand s).
    split; [by eapply list_elem_of_lookup_2|]. by destruct s.
Qed.

Lemma registered_counts base al gs l pre s t r m w :
  registered base al gs l pre s → registered base al gs l pre (set_counts t r m w s).
Proof. intros []. by split. Qed.

(** The end of alt_select when something was ready: the process yields. *)
Lemma complete_yields al p a s (Q : ctl () → St T → Prop) :
  alts s !! al = Some a → has_ready a = true → a_proc a = Some p → s_curr_proc (sched s) = Some p →
  is_Some (procs s !! p) → Q (CYield (KAltComplete al)) s →
  wp (a ← geta al; if has_ready a then proc_yield (a_proc a) (KAltComplete al) else mret (CRet ())) Q s.
Proof.
  intros Ha Hr Hp Hc [v Hv] HQ. step. step. rewrite Hr, Hp. unfold proc_yield. by steps.
Qed.

(** alt_complete of a guard that was ready when the ALT was entered. *)
Lemma complete_ready al p a w v s s3 :
  alts s3 !! al = Some a → has_ready a = true → a_proc a = Some p →
  s_curr_proc (sched s3) = Some p → is_Some (procs s !! p) →
  guards s !! w = Some v → guards s3 !! w = Some v → guard_ready s w = true → g_in_chan v = false →
  (g_type v = GUARD_CHAN → ∃ c e ch q wr pw, meets s v c e ch q wr pw ∧ e ∉ q ∧ g_data_size v = c_data_size ch ∧
      copyable (mem s) (g_data_ptr v) (ce_data wr) (c_data_size ch) ∧ can_ready [pw] s) →
  (∀ c ch, chans s !! c = Some ch → Forall (λ e, is_Some (ends s !! e)) (c_endQ ch)) →
  procs s3 = procs s → ends s3 = ends s → mem s3 = mem s → chans s ⊆ chans s3 →
  s_readyQ (sched s3) = s_readyQ (sched s) →
  wp (alt_complete al w) (λ r s', r = CYield (KAltComplete al) ∧ proceeded s s' v ∧
    alts s' = alts s3 ∧ guards s' = guards s3 ∧
    s_altsleep_RB (sched s') = s_altsleep_RB (sched s3) ∧
    s_altsleep_num (sched s') = s_altsleep_num (sched s3) ∧
    (∀ c ch, chans s !! c = Some ch → c_altQ <$> chans s' !! c = Some (c_altQ ch))) s3.
Proof.
  intros Ha Hr Hp Hcurr Hpr Hv Hv3 Hready Hin Hw Hlive Hprocs Hends Hmem Hchans Hrq.
  assert (∀ c ch, chans s !! c = Some ch → chans s3 !! c = Some ch) as Hsub.
  { intros c ch Hc. by eapply lookup_weaken. }
  unfold alt_complete. step. step. step. rewrite Hin. unfold guard_ready in Hready. rewrite Hv in Hready.
  unfold proceeded. destruct (g_type v) eqn:Hty; simpl; [|done|].
  - step. eapply complete_yields; try done; [by rewrite Hprocs|]. split_and!; try done.
    intros c ch Hc. by rewrite (Hsub c ch Hc).
  - destruct Hw as (c & e & ch & q & wr & pw & Hm & He & Hsize & Hcopy & Hcan); [done|].
    pose proof Hm as (Hgc & Hch & Hq & Hend & Hwt & Hpw).
    eapply wp_mono; [eapply (altread_ok w v c e ch q wr pw s3)|]; try done.
    + split_and!; try done; [by apply Hsub|by rewrite Hends].
    + rewrite Hends. by eapply Hlive.
    + by rewrite Hmem.
    + destruct Hcan as (? & ? & ?). unfold can_ready, ready_live. by rewrite Hprocs, Hrq.
    + intros [] s' ->. eapply complete_yields; try done.
      { simpl. rewrite Hprocs. by apply lookup_alter_is_Some. }
      split; [done|]. split.
      { exists c, e, ch, q, wr, pw. simpl. rewrite Hmem, Hrq, lookup_insert_eq. done. }
      split_and!; try done. intros c' ch' Hc'. simpl. destruct (decide (c' = c)) as [->|Hne].
      * rewrite lookup_insert_eq. simpl. congruence.
      * rewrite lookup_insert_ne by done. by rewrite (Hsub c' ch' Hc').
Qed.

(** [alt_select] with a guard that can proceed chooses one that can, whatever
    rand() gives: a SKIP guard changes nothing, and a channel guard takes the
    message of the writer that has waited longest on its channel and makes that
    writer ready.  All guards are out of the channels' [altQ] and of the tree of
    timed guards again, and the process yields once before it returns. *)
Lemma alt_select_ready al p gs l a s :
  can_select al p gs l a s → writers_ok s gs → (∃ g, g ∈ gs ∧ guard_ready s g = true) →
  wp (alt_select al) (λ r s', r = CYield (KAltComplete al) ∧
    ∃ w v, w ∈ gs ∧ guard_ready s w = true ∧ guards s !! w = Some v ∧ guards s' !! w = Some v ∧
      alts s' !! al = Some (a_set_winner (Some w) (a_set_ready (Some (ready_guards s gs)) a)) ∧ proceeded s s' v ∧
      (∀ c ch, chans s !! c = Some ch → c_altQ <$> chans s' !! c = Some (c_altQ ch)) ∧
      altsleepers s' l ∧ s_altsleep_num (sched s') = s_altsleep_num (sched s) ∧
      (∀ g, g ∈ gs → is_Some (guards s' !! g))) s.
Proof.
  intros Hcs Hwr (g0 & Hg0 & Hr0). eapply select_enables; [done|]. intros s1 Hreg1 Hun1 Ha1.
  pose proof Hcs as [].
  assert (ready_guards s gs ≠ []) as Hne.
  { intros Hnil. assert (g0 ∈ ready_guards s gs) as Hin by by apply list_elem_of_filter.
    rewrite Hnil in Hin. by apply not_elem_of_nil in Hin. }
  unfold select_rest. step. eapply wp_mono; [by eapply choose_ready|].
  intros x ? (-> & w & n & Hw & ->). apply list_elem_of_filter in Hw as [Hwready Hwgs].
  set (a2 := a_set_winner (Some w) (a_set_ready (Some (ready_guards s gs)) a)).
  set (s2 := set_alts <[al := a2]> _).
  assert (registered s al gs l gs s2) as Hreg2 by by apply registered_puta, registered_counts.
  assert (alts s2 !! al = Some a2) as Ha2 by apply lookup_insert_eq.
  unfold alt_selected. step. step. step. apply wp_ASSERT; [done|]. step.
  simpl a_guardsQ. rewrite cs_guardsQ0.
  eapply wp_mono; [by eapply (disable_all s al p gs l a2)|]. intros [] s3 (Hreg3 & Halts3 & Hguards3).
  destruct (registered_end _ _ _ _ _ Hreg3 cs_altnum0) as (Hc3 & Hl3 & Hn3 & Hrq3).
  destruct (ao_guard _ _ _ _ _ cs_ok0 w Hwgs) as (v & Hv & _).
  assert (guards s3 !! w = Some v) as Hv3.
  { rewrite Hguards3. etrans; [apply (un_same _ _ _ _ Hun1); by auto|done]. }
  step. eapply wp_notnull; [done|]. step. eapply wp_mono.
  - apply (complete_ready al p a2 w v s s3); try done.
    + by rewrite Halts3.
    + unfold has_ready. simpl. by apply bool_decide_true.
    + rewrite <-cs_curr0. exact (f_equal s_curr_proc (r_sched _ _ _ _ _ _ Hreg3)).
    + apply cs_ok0.
    + by apply (fg_in_chan _ _ _ cs_fresh0 w).
    + intros Hty. by apply (Hwr w).
    + apply cs_ok0.
    + apply Hreg3.
    + apply Hreg3.
    + apply Hreg3.
  - intros r s' (-> & Hproc & Halts & Hguards & Hrb & Hnum & Hq). step. split; [done|].
    exists w, v. split_and!; try done.
    + by rewrite Hguards.
    + by rewrite Halts, Halts3, Ha2.
    + unfold altsleepers, altsleep_key in *. by rewrite Hrb, Hguards.
    + congruence.
    + intros g Hg. rewrite Hguards.
      destruct (registered_guard _ _ _ _ _ _ _ _ cs_ok0 Hreg3 Hg) as (? & ? & _ & ? & _). by eexists.
Qed.
End alt_select.

(** ** A concrete ALT *)

Section examples.
#[local] Existing Instance demo_env.

(** Process 1 runs the ALT 70 of a guard 71 on channel 50 and a time guard 72;
    [q] waits on the channel, where end 60 is a write of process 2. *)
Definition sel_alt : Alt := MkAlt 2 false None None 2 [71; 72]%positive None (Some 72%positive) (Some 1%positive).
Definition sel_chan : Guard := MkGuard GUARD_CHAN 0 (Some 70%positive) 0 (Some 50%positive) 61 10 1 false.
Definition sel_time : Guard := MkGuard GUARD_TIME 1 (Some 70%positive) 500 None 62 0 0 false.

Definition sel_state (q : list loc) : St rb_tree :=
  set_alts <[70%positive := sel_alt]>
  (set_guards (λ _, list_to_map [(71, sel_chan); (72, sel_time)]%positive)
  (set_ends (λ _, list_to_map
    [(60, MkEnd CHAN_WRITER 20 (Some 50) (Some 2) None);
     (61, MkEnd CHAN_ALTER 10 (Some 50) (Some 1) (Some 71));
     (62, MkEnd CHAN_WRITER 0 None (Some 1) None)]%positive)
  (set_chans <[50%positive := MkChan 1 q []]>
  (set_mem (λ _, list_to_map [(10, 1); (20, 2)]%Z)
  (set_sched (λ c, s_set_altsleep 0 (rb_calloc 72 (rb_calloc 71 rb_init)) c)
    (demo_state (list_to_map [(1, demo_proc PROC_RUNNING); (2, demo_proc PROC_CHANWAIT)]%positive)
      ∅ (Some 1%positive))))))).

Lemma sel_guards g : g ∈ [71; 72]%positive → g = 71%positive ∨ g = 72%positive.
Proof. set_solver. Qed.

Lemma sel_guard (q : list loc) g v : g ∈ [71; 72]%positive → guards (sel_state q) !! g = Some v →
  (g = 71%positive ∧ v = sel_chan) ∨ (g = 72%positive ∧ v = sel_time).
Proof. intros [-> | ->]%sel_guards Hv; vm_compute in Hv; simplify_eq; auto. Qed.

Lemma sel_chans (q : list loc) c ch : chans (sel_state q) !! c = Some ch → c = 50%positive ∧ ch = MkChan 1 q [].
Proof. simpl. intros [[<- <-]|[_ Hc]]%lookup_insert_Some; [done|]. by rewrite lookup_empty in Hc. Qed.

Lemma sel_tree (q : list loc) : altsleepers (sel_state q) [].
Proof.
  unfold altsleepers. simpl.
  apply (@st_calloc_ok rb_tree rb_SleepTree); [|apply not_elem_of_nil].
  apply (@st_calloc_ok rb_tree rb_SleepTree); [|apply not_elem_of_nil].
  exact (@st_init_ok rb_tree rb_SleepTree _).
Qed.
End examples.
