(* ===== verification/Context.v ===== *)
(** * Context switching: context.c

    The assembly of [_ctx_get] and [ctx_switch] as instruction lists run by a
    small interpreter, for x86_64 and i386; the initial context of a process;
    and the release of unused stack pages. *)
From stdpp Require Import base tactics list gmap.
From Stdlib Require Import ZArith Lia.
From S2P Require Import Prelude Tailq Rbtree RbInsert RbSpec State SchedOps Csp Proc.

(** ** The machine *)

Inductive reg := AX | BX | CX | DX | SI | DI | BP | SP | R12 | R13 | R14 | R15.

#[export] Instance reg_eq_dec : EqDecision reg.
Proof. solve_decision. Defined.

(** [mwords] maps the address of a word to its value; a register file is a
    function, [rip] the address of the next instruction outside the routine. *)
Record machine := Machine { regs : reg → Z; rip : Z; mwords : gmap Z Z }.

Definition reg_set (r : reg) (v : Z) (f : reg → Z) : reg → Z :=
  λ x, if decide (x = r) then v else f x.

(** [Store r off b] is [mov %r, off(%b)]; [Load off b r] is [mov off(%b), %r]. *)
Inductive instr :=
| Store (r : reg) (off : Z) (b : reg)
| Load (off : Z) (b : reg) (r : reg)
| XorSelf (r : reg)
| Ret.

Section machine.
(** The size of a word in bytes. *)
Context (W : Z).

Definition wrap (z : Z) : Z := z `mod` 2 ^ (8 * W).

(** Undefined (None) when the address is not mapped. *)
Definition step_instr (i : instr) (m : machine) : option machine :=
  match i with
  | Store r off b =>
      let a := wrap (regs m b + off) in
      _ ← mwords m !! a;
      Some (Machine (regs m) (rip m) (<[a := regs m r]> (mwords m)))
  | Load off b r =>
      v ← mwords m !! wrap (regs m b + off);
      Some (Machine (reg_set r v (regs m)) (rip m) (mwords m))
  | XorSelf r => Some (Machine (reg_set r 0%Z (regs m)) (rip m) (mwords m))
  | Ret =>
      v ← mwords m !! wrap (regs m SP);
      Some (Machine (reg_set SP (wrap (regs m SP + W)) (regs m)) v (mwords m))
  end.

Fixpoint run_code (l : list instr) (m : machine) : option machine :=
  match l with
  | [] => Some m
  | i :: l => m' ← step_instr i m; run_code l m'
  end.
End machine.

(** ** The routines *)

(** struct Ctx of x86_64: rbx rsp rbp r12 r13 r14 r15 rip rdi. *)
Definition save_x64 : list instr :=
  [Store BX 0x00 DI; Store SP 0x08 DI; Store BP 0x10 DI; Store R12 0x18 DI;
   Store R13 0x20 DI; Store R14 0x28 DI; Store R15 0x30 DI;
   Load 0 SP AX; Store AX 0x38 DI].

Definition _ctx_get_x64 : list instr := save_x64 ++ [XorSelf AX; Ret].

Definition restore_x64 : list instr :=
  [Load 0x00 SI BX; Load 0x08 SI SP; Load 0x10 SI BP; Load 0x18 SI R12;
   Load 0x20 SI R13; Load 0x28 SI R14; Load 0x30 SI R15;
   Load 0x40 SI DI;
   Load 0x38 SI AX; Store AX 0 SP; Ret].

Definition ctx_switch_x64 : list instr := save_x64 ++ restore_x64.

(** struct Ctx of i386: ebx esi edi ebp esp eip; the arguments are on the stack. *)
Definition save_i386 : list instr :=
  [Load 0x04 SP DX;
   Store BX 0x00 DX; Store SI 0x04 DX; Store DI 0x08 DX; Store BP 0x0C DX;
   Store SP 0x10 DX;
   Load 0 SP AX; Store AX 0x14 DX].

Definition _ctx_get_i386 : list instr := save_i386 ++ [XorSelf AX; Ret].

Definition ctx_switch_i386 : list instr :=
  save_i386 ++
  [Load 0x08 SP DX;
   Load 0x00 DX BX; Load 0x04 DX SI; Load 0x08 DX DI; Load 0x0C DX BP;
   Load 0x10 DX SP;
   Load 0x14 DX AX; Store AX 0 SP; Ret].

Section init.
#[local] Open Scope Z_scope.

(** The addresses of the functions and of the process structure. *)
Context (trampoline_addr mainfxn_addr : Z).

(** [sp -= 4] in words, after aligning the top of the stack to 16 bytes. *)
Definition init_sp (W stack_ptr stack_size : Z) : Z :=
  Z.land (stack_ptr + stack_size) (Z.lnot 0xf) - 4 * W.

(** The stores of ctx_init after [_ctx_get], into the Ctx at [ctx] and the new
    stack. *)
Definition ctx_init_x64 (ctx proc stack_ptr stack_size : Z) (m : gmap Z Z) : gmap Z Z :=
  let sp := init_sp 8 stack_ptr stack_size in
  <[ctx + 0x08 := sp]> $ <[ctx + 0x10 := sp + 8]> $ <[ctx + 0x38 := mainfxn_addr]> $
  <[ctx + 0x40 := proc]> $ <[sp + 8 := trampoline_addr]> m.

Definition ctx_init_i386 (ctx proc stack_ptr stack_size : Z) (m : gmap Z Z) : gmap Z Z :=
  let sp := init_sp 4 stack_ptr stack_size in
  <[ctx + 0x10 := sp]> $ <[ctx + 0x0C := sp + 4]> $ <[ctx + 0x14 := mainfxn_addr]> $
  <[sp + 8 := proc]> $ <[sp + 4 := trampoline_addr]> m.
End init.

(** ** Giving back unused pages *)

Definition page_floor (page_size x : Z) : Z := Z.land x (u64 (Z.lnot (page_size - 1))).

(** The number of bytes at the bottom of the stack passed to madvise, and the
    new [stack.used]. *)
Definition madvise_len (page_size size used unused_stack : Z) : option Z :=
  if (u64 (page_floor page_size (u64 (size - unused_stack)) + page_size)
        <? page_floor page_size used)%Z
  then Some (page_floor page_size unused_stack) else None.

Section madvise.
Context {T : Type} {TT : SleepTree T} {E : Env}.
Abbreviation M := (M (St T)).

(** The stack pointer the process left in its context at this switch. *)
Definition saved_sp (v : Proc) : M Z :=
  k ← get n_switch;
  modify (λ s, set_counts (n_time s) (n_rand s) (n_malloc s) (S k) s) ;;
  mret (p_stack_ptr v + p_stack_size v - stack_depth k)%Z.

(** madvise tells the kernel, which may refuse: it has no effect on the store.
    The result is the length passed to it, when it is called. *)
Definition ctx_madvise (proc : option loc) : M (option Z) :=
  p ← notnull proc;
  v ← getp p;
  k ← get n_switch;
  sp ← saved_sp v;
  if (sp <? p_stack_ptr v)%Z then PANIC else
  let unused_stack := u64 (sp - p_stack_ptr v) in
  page_size ← gets s_page_size;
  let len := madvise_len page_size (p_stack_size v) (p_stack_used v) unused_stack in
  when (bool_decide (is_Some len)) (ASSERT (madvise_ret k =? 0)%Z) ;;
  putp p (p_set_used (u64 (p_stack_size v - unused_stack)) v) ;;
  mret len.
End madvise.
