(* ===== verification/ContextSpec.v ===== *)
(** * What a context switch preserves *)
From stdpp Require Import base tactics list gmap.
From Stdlib Require Import ZArith Lia.
From S2P Require Import Prelude Tailq Rbtree RbInsert RbSpec State SchedOps Exec Csp Proc Context.

#[local] Open Scope Z_scope.

(** ** A context in memory *)

Section layout.
(** The word size, the size of a [struct Ctx] and the offsets of its words. *)
Context (W size : Z) (offs : list Z).

(** The address range of a [struct Ctx] lies in the address space and is mapped. *)
Definition layout_at (m : gmap Z Z) (A : Z) : Prop :=
  0 ≤ A ∧ A + size ≤ 2 ^ (8 * W) ∧ ∀ o, o ∈ offs → is_Some (m !! (A + o)).

(** [x] is not a word of the context at [A]. *)
Definition layout_out (A x : Z) : Prop := ∀ o, o ∈ offs → x ≠ A + o.

Definition layout_apart (A B : Z) : Prop := ∀ o, o ∈ offs → layout_out B (A + o).

Lemma wrap_range x : 0 ≤ x < 2 ^ (8 * W) → wrap W x = x.
Proof. apply Z.mod_small. Qed.

Lemma layout_off m A o :
  (∀ o, o ∈ offs → 0 ≤ o < size) → layout_at m A → o ∈ offs → wrap W (A + o) = A + o ∧ is_Some (m !! (A + o)).
Proof.
  intros Hoffs (H0 & H1 & Hm) Ho. split; [|by apply Hm]. apply Hoffs in Ho. apply wrap_range. lia.
Qed.

Lemma layout_at_dec m A : 0 ≤ A → A + size ≤ 2 ^ (8 * W) →
  bool_decide (Forall (λ o, is_Some (m !! (A + o))) offs) = true → layout_at m A.
Proof. intros ?? H%bool_decide_eq_true. split_and!; [done..|]. by apply Forall_forall. Qed.

Lemma out_range A x : (∀ o, o ∈ offs → 0 ≤ o < size) → x < A ∨ A + size ≤ x → layout_out A x.
Proof. intros Hoffs Hx o Ho%Hoffs. lia. Qed.

Lemma layout_apart_range A B : (∀ o, o ∈ offs → 0 ≤ o < size) →
  A + size ≤ B ∨ B + size ≤ A → layout_apart A B.
Proof. intros Hoffs Hx o Ho%Hoffs. apply out_range; [done|lia]. Qed.

Lemma insert_mapped (m : gmap Z Z) a v x : is_Some (m !! x) → is_Some (<[a := v]> m !! x).
Proof. intros. apply lookup_insert_is_Some'. by right. Qed.
End layout.

(** ** The context of x86_64 *)

(** [struct Ctx]: the addresses of its nine words. *)
Definition ctx_offsets : list Z := [0x00; 0x08; 0x10; 0x18; 0x20; 0x28; 0x30; 0x38; 0x40].

Abbreviation ctx_at := (layout_at 8 0x48 ctx_offsets).
Abbreviation outside := (layout_out ctx_offsets).
Abbreviation ctx_apart := (layout_apart ctx_offsets).

(** The fields of [struct Ctx]. *)
Record Ctx := MkCtx { rbx : Z; rsp : Z; rbp : Z; r12 : Z; r13 : Z; r14 : Z; r15 : Z; rip_ : Z; rdi : Z }.

Definition ctx_read (m : gmap Z Z) (A : Z) : option Ctx :=
  a ← m !! (A + 0x00); b ← m !! (A + 0x08); c ← m !! (A + 0x10); d ← m !! (A + 0x18);
  e ← m !! (A + 0x20); f ← m !! (A + 0x28); g ← m !! (A + 0x30); h ← m !! (A + 0x38);
  i ← m !! (A + 0x40); Some (MkCtx a b c d e f g h i).

(** The store of a context's first eight words, the ones a switch saves. *)
Definition ctx_save (A : Z) (f : reg → Z) (ret : Z) (m : gmap Z Z) : gmap Z Z :=
  <[A + 0x38 := ret]> $ <[A + 0x30 := f R15]> $ <[A + 0x28 := f R14]> $ <[A + 0x20 := f R13]> $
  <[A + 0x18 := f R12]> $ <[A + 0x10 := f BP]> $ <[A + 0x08 := f SP]> $ <[A + 0x00 := f BX]> m.

Lemma offsets_elem o : o ∈ ctx_offsets ↔
  o = 0 ∨ o = 8 ∨ o = 16 ∨ o = 24 ∨ o = 32 ∨ o = 40 ∨ o = 48 ∨ o = 56 ∨ o = 64.
Proof. unfold ctx_offsets. rewrite !elem_of_cons, elem_of_nil. tauto. Qed.

Lemma wrap_small x : 0 ≤ x < 2 ^ 64 → wrap 8 x = x.
Proof. apply Z.mod_small. Qed.

Lemma wrap_plus_0 x y : x = y → 0 ≤ y < 2 ^ 64 → wrap 8 (x + 0) = y.
Proof. intros -> ?. rewrite Z.add_0_r. by apply wrap_small. Qed.

(** ** Running straight-line code *)

Lemma run_app W l1 l2 m : run_code W (l1 ++ l2) m = m' ← run_code W l1 m; run_code W l2 m'.
Proof.
  revert m. induction l1 as [|i l1 IH]; intros m; simpl; [done|].
  destruct (step_instr W i m); simpl; [apply IH|done].
Qed.

Lemma run_store W r off b l m a :
  wrap W (regs m b + off) = a → is_Some (mwords m !! a) →
  run_code W (Store r off b :: l) m = run_code W l (Machine (regs m) (rip m) (<[a := regs m r]> (mwords m))).
Proof. intros Ha [v Hv]. simpl. by rewrite Ha, Hv. Qed.

Lemma run_load W r off b l m a v :
  wrap W (regs m b + off) = a → mwords m !! a = Some v →
  run_code W (Load off b r :: l) m = run_code W l (Machine (reg_set r v (regs m)) (rip m) (mwords m)).
Proof. intros Ha Hv. simpl. by rewrite Ha, Hv. Qed.

Lemma run_ret W m a v :
  wrap W (regs m SP) = a → mwords m !! a = Some v →
  run_code W [Ret] m = Some (Machine (reg_set SP (wrap W (regs m SP + W)) (regs m)) v (mwords m)).
Proof. intros Ha Hv. simpl. by rewrite Ha, Hv. Qed.

Lemma offset_range o : o ∈ ctx_offsets → 0 ≤ o < 0x48.
Proof. rewrite offsets_elem. lia. Qed.

(** The first half of a switch: the registers and the return address are saved. *)
Lemma save_ok m A sp ret l :
  ctx_at (mwords m) A → regs m DI = A → regs m SP = sp → 0 ≤ sp < 2 ^ 64 → outside A sp →
  mwords m !! sp = Some ret →
  run_code 8 (save_x64 ++ l) m =
    run_code 8 l (Machine (reg_set AX ret (regs m)) (rip m) (ctx_save A (regs m) ret (mwords m))).
Proof.
  intros Hctx HA Hsp Hr Hout Hret.
  assert (∀ o, o ∈ ctx_offsets → wrap 8 (A + o) = A + o ∧ is_Some (mwords m !! (A + o))) as Ho
    by (intros; by apply (layout_off 8 0x48 ctx_offsets _ _ _ offset_range)).
  unfold save_x64. cbn [app].
  do 7 (erewrite run_store; cbn [regs mwords rip];
    [|rewrite HA; apply Ho; apply offsets_elem; lia
     |repeat apply insert_mapped; apply Ho; apply offsets_elem; lia]).
  erewrite (run_load 8 AX _ _ _ _ sp ret); cbn [regs mwords rip].
  - erewrite run_store; cbn [regs mwords rip]; [reflexivity| |].
    + change (reg_set AX ret (regs m) DI) with (regs m DI). rewrite HA. apply Ho, offsets_elem. lia.
    + repeat apply insert_mapped. apply Ho, offsets_elem. lia.
  - rewrite Hsp, Z.add_0_r. by apply wrap_small.
  - rewrite !lookup_insert_ne; [done|..]; apply not_eq_sym, Hout, offsets_elem; lia.
Qed.

(** The machine runs the context [c]: its saved registers, and its instruction
    pointer; the word of the return address has been popped. *)
Definition resumed (c : Ctx) (m : machine) : Prop :=
  regs m BX = rbx c ∧ regs m BP = rbp c ∧ regs m R12 = r12 c ∧ regs m R13 = r13 c ∧
  regs m R14 = r14 c ∧ regs m R15 = r15 c ∧ regs m SP = rsp c + 8 ∧ rip m = rip_ c.

Lemma restore_ok m B c :
  0 ≤ B → B + 0x48 ≤ 2 ^ 64 → regs m SI = B → ctx_read (mwords m) B = Some c →
  0 ≤ rsp c → rsp c + 8 < 2 ^ 64 → is_Some (mwords m !! rsp c) →
  ∃ m', run_code 8 restore_x64 m = Some m' ∧ resumed c m' ∧ regs m' DI = rdi c ∧
    mwords m' = <[rsp c := rip_ c]> (mwords m).
Proof.
  intros HB0 HB1 HB Hc H0 H1 Hsp.
  unfold ctx_read in Hc. repeat (apply bind_Some in Hc as (? & ? & Hc)).
  injection Hc as <-. cbn [rsp rip_ rdi] in *.
  assert (∀ o, 0 ≤ o ≤ 0x40 → wrap 8 (regs m SI + o) = B + o) as Ho.
  { intros o Ho. rewrite HB. apply wrap_small. lia. }
  unfold restore_x64.
  do 9 (erewrite run_load; cbn [regs mwords rip];
    [|match goal with |- wrap 8 (?f SI + ?o) = _ =>
        change (f SI) with (regs m SI); apply (Ho o); lia end|eassumption]).
  eexists. split.
  { erewrite run_store; cbn [regs mwords rip]; [|apply (wrap_plus_0 _ x0); [reflexivity|lia]|done].
    apply (run_ret 8 _ x0 x6); cbn [regs mwords rip].
    - apply wrap_small. change (0 <= x0 < 2 ^ 64). lia.
    - apply lookup_insert_eq. }
  split; [|done]. unfold resumed. split_and!; try reflexivity.
  apply (wrap_small (x0 + 8)). lia.
Qed.

(** ** ctx_switch *)

Lemma ctx_save_out A f ret m x : outside A x → ctx_save A f ret m !! x = m !! x.
Proof.
  intros Ho. unfold ctx_save. rewrite !lookup_insert_ne; [done|..]; apply not_eq_sym, Ho, offsets_elem; lia.
Qed.

Lemma ctx_read_ext m m' A : (∀ o, o ∈ ctx_offsets → m' !! (A + o) = m !! (A + o)) → ctx_read m' A = ctx_read m A.
Proof. intros Ho. unfold ctx_read. rewrite !Ho; [done|..]; apply offsets_elem; lia. Qed.

Lemma ctx_save_in A f ret m w : m !! (A + 0x40) = Some w →
  ctx_read (ctx_save A f ret m) A =
    Some (MkCtx (f BX) (f SP) (f BP) (f R12) (f R13) (f R14) (f R15) ret w).
Proof.
  intros Hw. unfold ctx_read, ctx_save.
  repeat (first [rewrite lookup_insert_eq | rewrite lookup_insert_ne by lia]; simpl).
  by rewrite Hw.
Qed.

(** [ctx_switch(from = A, to = B)] is called: [ret] is the return address, on
    top of the stack, and [c] the context at B. *)
Record can_switch (m : machine) (A B : Z) (ret : Z) (c : Ctx) : Prop := {
  sw_from : ctx_at (mwords m) A;
  sw_to : ctx_at (mwords m) B;
  sw_di : regs m DI = A;
  sw_si : regs m SI = B;
  sw_sp : 0 ≤ regs m SP < 2 ^ 64;
  sw_stack : outside A (regs m SP);
  sw_ret : mwords m !! regs m SP = Some ret;
  sw_apart : ctx_apart B A;
  sw_ctx : ctx_read (mwords m) B = Some c;
  sw_rsp : 0 ≤ rsp c ∧ rsp c + 8 < 2 ^ 64;
  sw_target : is_Some (mwords m !! rsp c) ∧ outside A (rsp c)
}.

Lemma switch_ok m A B ret c :
  can_switch m A B ret c →
  ∃ m', run_code 8 ctx_switch_x64 m = Some m' ∧ resumed c m' ∧ regs m' DI = rdi c ∧
    mwords m' = <[rsp c := rip_ c]> (ctx_save A (regs m) ret (mwords m)).
Proof.
  intros []. unfold ctx_switch_x64. rewrite (save_ok m A (regs m SP) ret) by done.
  set (m1 := Machine _ _ _).
  destruct (restore_ok m1 B c) as (m' & Hrun & Hres & Hdi & Hw); try apply sw_to0; try apply sw_rsp0.
  - done.
  - rewrite <-sw_ctx0. apply ctx_read_ext. intros o Ho. simpl. apply ctx_save_out. by apply sw_apart0.
  - simpl. rewrite ctx_save_out; apply sw_target0.
  - exists m'. done.
Qed.

(** C17: a process that is switched out and later switched back to finds its
    machine state: after [ctx_switch(A, B)], whatever ran in between, as long as
    the context at A and the mapping of its stack were left alone, a
    [ctx_switch(C, A)] returns to where the first one was called from, with the
    callee-saved registers and the stack pointer the caller expects. *)
Theorem ctx_switch_roundtrip m A B ret c :
  can_switch m A B ret c →
  ∃ m1, run_code 8 ctx_switch_x64 m = Some m1 ∧ resumed c m1 ∧
    ∀ m2 C ret2,
      (∀ o, o ∈ ctx_offsets → mwords m2 !! (A + o) = mwords m1 !! (A + o)) →
      ctx_at (mwords m2) C → regs m2 DI = C → regs m2 SI = A → 0 ≤ regs m2 SP < 2 ^ 64 →
      outside C (regs m2 SP) → mwords m2 !! regs m2 SP = Some ret2 → ctx_apart A C →
      regs m SP + 8 < 2 ^ 64 → is_Some (mwords m2 !! regs m SP) → outside C (regs m SP) →
      ∃ m3, run_code 8 ctx_switch_x64 m2 = Some m3 ∧
        (∀ r, r ∈ [BX; BP; R12; R13; R14; R15] → regs m3 r = regs m r) ∧
        regs m3 SP = regs m SP + 8 ∧ rip m3 = ret.
Proof.
  intros Hcan. destruct (switch_ok m A B ret c Hcan) as (m1 & Hrun1 & Hres1 & _ & Hw1).
  exists m1. split; [done|]. split; [done|]. destruct Hcan.
  intros m2 C ret2 HA HC Hdi Hsi Hsp Hout Hret Hap Hbound Hmap Htarget.
  assert (∃ w, mwords m !! (A + 0x40) = Some w) as [w Hw] by (apply sw_from0, offsets_elem; lia).
  assert (ctx_read (mwords m2) A = Some (MkCtx (regs m BX) (regs m SP) (regs m BP) (regs m R12)
    (regs m R13) (regs m R14) (regs m R15) ret w)) as Hread.
  { rewrite (ctx_read_ext (ctx_save A (regs m) ret (mwords m))); [by apply ctx_save_in|].
    intros o Ho. rewrite HA, Hw1 by done. apply lookup_insert_ne. by apply sw_target0. }
  destruct (switch_ok m2 C A ret2 (MkCtx (regs m BX) (regs m SP) (regs m BP) (regs m R12)
    (regs m R13) (regs m R14) (regs m R15) ret w)) as (m3 & Hrun3 & Hres3 & _); [split; try done|].
  - split; [apply sw_from0|]. split; [apply sw_from0|]. intros o Ho. rewrite HA, Hw1 by done.
    apply insert_mapped. unfold ctx_save. repeat apply insert_mapped. by apply sw_from0.
  - simpl. lia.
  - exists m3. split; [done|]. destruct Hres3 as (? & ? & ? & ? & ? & ? & ? & ?).
    split; [|done]. intros r Hr. rewrite !elem_of_cons, elem_of_nil in Hr.
    by destruct Hr as [->|[->|[->|[->|[->|[->|[]]]]]]].
Qed.

(** ** The first switch to a process *)

Lemma land_lnot_ones x n : 0 ≤ n → Z.land x (Z.lnot (Z.ones n)) = x - x mod 2 ^ n.
Proof.
  intros Hn. rewrite <-Z.ldiff_land, Z.ldiff_ones_r by done.
  rewrite Z.shiftl_mul_pow2, Z.shiftr_div_pow2 by done.
  assert (0 < 2 ^ n) by (by apply Z.pow_pos_nonneg). rewrite Z.mod_eq by lia. lia.
Qed.

Lemma init_sp_spec W stack_ptr stack_size :
  let sp := init_sp W stack_ptr stack_size in
  (sp + 4 * W) mod 16 = 0 ∧ stack_ptr + stack_size - 15 ≤ sp + 4 * W ≤ stack_ptr + stack_size.
Proof.
  cbv zeta. unfold init_sp. change (Z.lnot 0xf) with (Z.lnot (Z.ones 4)). rewrite land_lnot_ones by lia. change (2 ^ 4) with 16.
  set (x := stack_ptr + stack_size). pose proof (Z.mod_pos_bound x 16 ltac:(lia)).
  split; [|lia]. replace (x - x mod 16 - 4 * W + 4 * W) with (x - x mod 16) by lia.
  rewrite Zminus_mod_idemp_r. by rewrite Z.sub_diag.
Qed.

(** C18: the first switch to a new process enters [proc_mainfxn] as a call: its
    argument register holds the process, the return address on top of its stack
    is [_trampoline], the stack pointer is aligned as the ABI asks at a function
    entry, and the words in use lie inside the process's stack. *)
Theorem first_switch m m0 trampoline mainfxn A B proc stack_ptr stack_size ret c :
  mwords m = ctx_init_x64 trampoline mainfxn B proc stack_ptr stack_size m0 →
  can_switch m A B ret c → 64 ≤ stack_size →
  let sp := init_sp 8 stack_ptr stack_size in
  outside A (sp + 8) → outside B (sp + 8) →
  ∃ m', run_code 8 ctx_switch_x64 m = Some m' ∧ rip m' = mainfxn ∧ regs m' DI = proc ∧
    regs m' BP = regs m' SP ∧ mwords m' !! regs m' SP = Some trampoline ∧
    (regs m' SP + 8) mod 16 = 0 ∧ stack_ptr ≤ sp ∧ regs m' SP = sp + 8 ∧ sp + 32 ≤ stack_ptr + stack_size.
Proof.
  intros Hmem Hcan Hsize sp HoA HoB.
  destruct (switch_ok m A B ret c Hcan) as (m' & Hrun & (_ & Hbp & _ & _ & _ & _ & Hsp & Hrip) & Hdi & Hw).
  destruct (init_sp_spec 8 stack_ptr stack_size) as [Halign Hbounds]. fold sp in Halign, Hbounds.
  assert (rsp c = sp ∧ rbp c = sp + 8 ∧ rip_ c = mainfxn ∧ rdi c = proc) as (Hcsp & Hcbp & Hcip & Hcdi).
  { pose proof (sw_ctx _ _ _ _ _ Hcan) as Hc. rewrite Hmem in Hc. unfold ctx_init_x64 in Hc. fold sp in Hc.
    unfold ctx_read in Hc. repeat (apply bind_Some in Hc as (? & ? & Hc)). injection Hc as <-. simpl.
    repeat match goal with H : context [<[_ := _]> _] |- _ =>
      first [rewrite lookup_insert_eq in H | rewrite lookup_insert_ne in H by lia] end.
    by simplify_eq. }
  exists m'. split; [done|]. split; [congruence|]. split; [congruence|]. split; [lia|]. split.
  - rewrite Hw, Hsp, Hcsp. rewrite lookup_insert_ne by lia. rewrite ctx_save_out by done.
    rewrite Hmem. unfold ctx_init_x64. fold sp.
    do 4 rewrite lookup_insert_ne by (apply not_eq_sym, HoB, offsets_elem; lia). by rewrite lookup_insert_eq.
  - rewrite Hsp, Hcsp. split; [|lia].
    replace (sp + 8 + 8) with (sp + 4 * 8 + (-1) * 16) by lia. by rewrite Z_mod_plus_full.
Qed.

(** ** ctx_madvise *)

Lemma u64_eq x y : x = y → 0 ≤ y < U64 → u64 x = y.
Proof. intros ->. apply Z.mod_small. Qed.

Lemma page_floor_spec k x : 0 ≤ k < 64 → 0 ≤ x < U64 → page_floor (2 ^ k) x = x - x mod 2 ^ k.
Proof.
  intros Hk Hx. unfold page_floor, u64, U64 in *.
  replace (2 ^ k - 1) with (Z.ones k) by (rewrite Z.ones_equiv; lia).
  rewrite <-(Z.land_ones (Z.lnot _)), Z.land_assoc, (Z.land_comm _ (Z.ones 64)), Z.land_assoc by lia.
  rewrite (Z.land_comm (Z.ones 64)), Z.land_ones, Z.mod_small by lia. apply land_lnot_ones. lia.
Qed.

Section madvise.
Context {T : Type} {TT : SleepTree T} {E : Env}.
Implicit Types s : St T.

(** Whether a process that used [used] bytes at its last switch and [depth] now
    has whole pages to give back, and the kernel refuses them. *)
Definition refused (page used depth : Z) s : bool :=
  negb NDEBUG && negb (madvise_ret (n_switch s) =? 0) &&
  (depth - depth mod page + page <? used - used mod page).

(** C37: [ctx_madvise] gives back only dead stack.  A process below its stack
    stops the program, and so does a failing madvise in a build with assertions;
    otherwise the pages passed to madvise are whole pages from
    the bottom of the stack that end below the stack pointer (and within a page of
    it), they are given back only when the process used more than a page more at
    its last switch, and [stack.used] becomes the depth of the stack. *)
Theorem madvise_dead_stack p v k s :
  let depth := stack_depth (n_switch s) in
  let sp := p_stack_ptr v + p_stack_size v - depth in
  procs s !! p = Some v → s_page_size (sched s) = 2 ^ k → 0 ≤ k < 64 →
  0 ≤ depth → 0 ≤ p_stack_used v < U64 → 0 ≤ p_stack_size v → p_stack_size v + 2 ^ k < U64 →
  if (sp <? p_stack_ptr v) || refused (2 ^ k) (p_stack_used v) depth s
  then ctx_madvise (Some p) s = Abort
  else wp (ctx_madvise (Some p)) (λ o s', procs s' = <[p := p_set_used depth v]> (procs s) ∧
    match o with
    | Some len => 0 ≤ len ∧ len mod 2 ^ k = 0 ∧ p_stack_ptr v + len ≤ sp < p_stack_ptr v + len + 2 ^ k ∧
        depth + 2 ^ k - depth mod 2 ^ k < p_stack_used v
    | None => p_stack_used v < depth + 2 * 2 ^ k
    end) s.
Proof.
  intros depth sp Hv Hpage Hk Hd Hu Hs0 Hs1.
  assert (0 < 2 ^ k) as Hpow by (apply Z.pow_pos_nonneg; lia).
  assert (∀ x, 0 ≤ x mod 2 ^ k < 2 ^ k) as Hmod by (intros; by apply Z.mod_pos_bound).
  destruct (Z.ltb_spec sp (p_stack_ptr v)) as [Hlt|Hge]; cbn [orb].
  { unfold ctx_madvise, saved_sp, notnull, ASSERT, getp, deref. simpl.
    unfold mbind, M_bind, get, modify, mret, M_ret. rewrite Hv. simpl. fold depth sp.
    by rewrite (proj2 (Z.ltb_lt _ _)). }
  pose proof (Hmod depth). pose proof (Hmod (p_stack_used v)). pose proof (Hmod (p_stack_size v - depth)).
  assert (0 ≤ p_stack_size v - depth) as Hun by (unfold sp in Hge; lia).
  pose proof (Z.mod_le (p_stack_size v - depth) (2 ^ k) Hun Hpow).
  assert (u64 (sp - p_stack_ptr v) = p_stack_size v - depth) as Hunused by (apply u64_eq; unfold sp; lia).
  assert (u64 (p_stack_size v - (p_stack_size v - depth)) = depth) as Hused by (apply u64_eq; lia).
  assert (madvise_len (2 ^ k) (p_stack_size v) (p_stack_used v) (p_stack_size v - depth) =
    if depth - depth mod 2 ^ k + 2 ^ k <? p_stack_used v - p_stack_used v mod 2 ^ k
    then Some (p_stack_size v - depth - (p_stack_size v - depth) mod 2 ^ k) else None) as Hlen.
  { unfold madvise_len. rewrite Hused, !page_floor_spec by lia.
    by rewrite (u64_eq (depth - depth mod 2 ^ k + 2 ^ k) (depth - depth mod 2 ^ k + 2 ^ k)) by lia. }
  destruct (refused _ _ _ _) eqn:Href.
  - unfold refused in Href. apply andb_true_iff in Href as [[Hnd Hret]%andb_true_iff Hgive].
    apply negb_true_iff in Hnd, Hret. rewrite Hgive in Hlen.
    unfold ctx_madvise, saved_sp, notnull, getp, gets, deref. simpl.
    unfold mbind, M_bind, get, modify, mret, M_ret. rewrite Hv. simpl. fold depth sp.
    rewrite (proj2 (Z.ltb_ge _ _)) by done. simpl. rewrite Hpage, Hunused, Hlen. simpl. unfold ASSERT. by rewrite Hret, Hnd.
  - unfold ctx_madvise, saved_sp. steps. fold depth sp. rewrite (proj2 (Z.ltb_ge _ _)) by done. steps.
    simpl. rewrite Hpage, Hunused, Hused, Hlen. apply wp_when; intros Hgive.
    + apply wp_ASSERT_ndebug.
      { unfold refused in Href. destruct NDEBUG; [by right|left]. destruct (Z.eqb_spec (madvise_ret (n_switch s)) 0); [done|].
        simpl in Href. rewrite Href in Hgive. by case_bool_decide. }
      steps. split; [done|]. destruct (Z.ltb_spec (depth - depth mod 2 ^ k + 2 ^ k) (p_stack_used v - p_stack_used v mod 2 ^ k)); [|lia].
      split; [lia|]. split; [|unfold sp; lia]. by rewrite Zminus_mod_idemp_r, Z.sub_diag.
    + steps. split; [done|]. destruct (Z.ltb_spec (depth - depth mod 2 ^ k + 2 ^ k) (p_stack_used v - p_stack_used v mod 2 ^ k)); [|lia].
      apply bool_decide_eq_false in Hgive. destruct Hgive. by eexists.
Qed.
End madvise.

(** ** The claims at concrete inputs *)

Lemma outside_range A x : x < A ∨ A + 0x48 ≤ x → outside A x.
Proof. apply out_range, offset_range. Qed.

Lemma apart_range A B : A + 0x48 ≤ B ∨ B + 0x48 ≤ A → ctx_apart A B.
Proof. apply layout_apart_range, offset_range. Qed.

(** Two contexts, at 1000 and 2000, and two stacks, at 3000 and 4000. *)
Definition demo_words : gmap Z Z :=
  list_to_map (((λ o, (1000 + o, 0)) <$> ctx_offsets) ++
    zip ((λ o, 2000 + o) <$> ctx_offsets) [11; 4000; 13; 14; 15; 16; 17; 18; 19] ++ [(3000, 77); (4000, 88)]).

Definition demo_regs : reg → Z := λ r,
  match r with BX => 1 | SP => 3000 | BP => 3 | R12 => 4 | R13 => 5 | R14 => 6 | R15 => 7
  | DI => 1000 | SI => 2000 | _ => 0 end.

Definition demo_machine : machine := Machine demo_regs 9 demo_words.

Definition demo_ctx : Ctx := MkCtx 11 4000 13 14 15 16 17 18 19.

Lemma demo_can_switch : can_switch demo_machine 1000 2000 77 demo_ctx.
Proof.
  split; try done; try (by apply layout_at_dec); try (apply apart_range; lia); try (apply outside_range; simpl; lia).
  split; [by eexists|apply outside_range; simpl; lia].
Qed.

Lemma ctx_switch_roundtrip_witness :
  ∃ m1, run_code 8 ctx_switch_x64 demo_machine = Some m1 ∧ resumed demo_ctx m1 ∧
    ∀ m2 C ret2,
      (∀ o, o ∈ ctx_offsets → mwords m2 !! (1000 + o) = mwords m1 !! (1000 + o)) →
      ctx_at (mwords m2) C → regs m2 DI = C → regs m2 SI = 1000 → 0 ≤ regs m2 SP < 2 ^ 64 →
      outside C (regs m2 SP) → mwords m2 !! regs m2 SP = Some ret2 → ctx_apart 1000 C →
      regs demo_machine SP + 8 < 2 ^ 64 → is_Some (mwords m2 !! regs demo_machine SP) →
      outside C (regs demo_machine SP) →
      ∃ m3, run_code 8 ctx_switch_x64 m2 = Some m3 ∧
        (∀ r, r ∈ [BX; BP; R12; R13; R14; R15] → regs m3 r = regs demo_machine r) ∧
        regs m3 SP = regs demo_machine SP + 8 ∧ rip m3 = 77.
Proof. exact (ctx_switch_roundtrip demo_machine 1000 2000 77 demo_ctx demo_can_switch). Defined.

(** Process 555 with the stack 5000 .. 5063, and its context at 2000. *)
Definition start_words : gmap Z Z :=
  ctx_init_x64 500 600 2000 555 5000 64 (<[5024 := 0]> demo_words).

Lemma start_can_switch :
  can_switch (Machine demo_regs 9 start_words) 1000 2000 77 (MkCtx 11 5024 5032 14 15 16 17 600 555).
Proof.
  split; try done; try (by apply layout_at_dec); try (apply apart_range; lia); try (apply outside_range; simpl; lia).
  split; [by eexists|apply outside_range; simpl; lia].
Qed.

Lemma first_switch_witness :
  ∃ m', run_code 8 ctx_switch_x64 (Machine demo_regs 9 start_words) = Some m' ∧ rip m' = 600 ∧
    regs m' DI = 555 ∧ regs m' BP = regs m' SP ∧ mwords m' !! regs m' SP = Some 500 ∧
    (regs m' SP + 8) mod 16 = 0 ∧ 5000 ≤ 5024 ∧ regs m' SP = 5032 ∧ 5056 ≤ 5064.
Proof.
  apply (first_switch (Machine demo_regs 9 start_words) (<[5024 := 0]> demo_words) 500 600 1000 2000 555 5000 64
    77 (MkCtx 11 5024 5032 14 15 16 17 600 555)); try done; [exact start_can_switch|..];
    apply outside_range; change (init_sp 8 5000 64) with 5024; lia.
Defined.

Section example.
#[local] Existing Instance demo_env.

(** The process used both its pages, and now one. *)
Definition deep_proc : Proc := p_set_used 8192 (demo_proc PROC_RUNNING).

Lemma madvise_dead_stack_witness :
  let s := demo_state {[ 1%positive := deep_proc ]} ∅ (Some 1%positive) in
  wp (ctx_madvise (Some 1%positive)) (λ o s', procs s' = <[1%positive := p_set_used 100 deep_proc]> (procs s) ∧
    match o with
    | Some len => 0 ≤ len ∧ len mod 2 ^ 12 = 0 ∧ 1048576 + len ≤ 1056668 < 1048576 + len + 2 ^ 12 ∧
        100 + 2 ^ 12 - 100 mod 2 ^ 12 < 8192
    | None => 8192 < 100 + 2 * 2 ^ 12
    end) s.
Proof. intros s. refine (madvise_dead_stack (E := demo_env) 1%positive deep_proc 12 s _ _ _ _ _ _ _); done. Defined.
End example.
