(* ===== verification/Context386Spec.v ===== *)
(** * What a context switch preserves on i386

    The routines take their arguments from the stack and keep six words, so
    their side conditions speak about the words of the caller's frame too. *)
From stdpp Require Import base tactics list gmap.
From Stdlib Require Import ZArith Lia.
From S2P Require Import Prelude Context ContextSpec.

#[local] Open Scope Z_scope.

(** [struct Ctx] of i386. *)
Definition ctx_offsets_i386 : list Z := [0x00; 0x04; 0x08; 0x0C; 0x10; 0x14].

Abbreviation ctx_at := (layout_at 4 0x18 ctx_offsets_i386).
Abbreviation outside := (layout_out ctx_offsets_i386).
Abbreviation ctx_apart := (layout_apart ctx_offsets_i386).

Record Ctx_i386 := MkCtx_i386 { ebx : Z; esi : Z; edi : Z; ebp : Z; esp : Z; eip : Z }.

Definition ctx_read_i386 (m : gmap Z Z) (A : Z) : option Ctx_i386 :=
  a ← m !! (A + 0x00); b ← m !! (A + 0x04); c ← m !! (A + 0x08);
  d ← m !! (A + 0x0C); e ← m !! (A + 0x10); f ← m !! (A + 0x14); Some (MkCtx_i386 a b c d e f).

(** What a switch stores, and what it has in memory then. *)
Definition regs_i386 (f : reg → Z) (ret : Z) : Ctx_i386 := MkCtx_i386 (f BX) (f SI) (f DI) (f BP) (f SP) ret.

Definition ctx_write_i386 (A : Z) (c : Ctx_i386) (m : gmap Z Z) : gmap Z Z :=
  <[A + 0x14 := eip c]> $ <[A + 0x10 := esp c]> $ <[A + 0x0C := ebp c]> $
  <[A + 0x08 := edi c]> $ <[A + 0x04 := esi c]> $ <[A + 0x00 := ebx c]> m.

Lemma offsets_elem_i386 o : o ∈ ctx_offsets_i386 ↔ o = 0 ∨ o = 4 ∨ o = 8 ∨ o = 12 ∨ o = 16 ∨ o = 20.
Proof. unfold ctx_offsets_i386. rewrite !elem_of_cons, elem_of_nil. tauto. Qed.

Lemma offset_range_i386 o : o ∈ ctx_offsets_i386 → 0 ≤ o < 0x18.
Proof. rewrite offsets_elem_i386. lia. Qed.

Lemma ctx_write_out A c m x : outside A x → ctx_write_i386 A c m !! x = m !! x.
Proof.
  intros Ho. unfold ctx_write_i386.
  rewrite !lookup_insert_ne; [done|..]; apply not_eq_sym, Ho, offsets_elem_i386; lia.
Qed.

Lemma ctx_write_mapped A c m x : is_Some (m !! x) → is_Some (ctx_write_i386 A c m !! x).
Proof. intros. unfold ctx_write_i386. by repeat apply insert_mapped. Qed.

Lemma ctx_read_write A c m : ctx_read_i386 (ctx_write_i386 A c m) A = Some c.
Proof.
  destruct c. unfold ctx_read_i386, ctx_write_i386.
  by repeat (first [rewrite lookup_insert_eq | rewrite lookup_insert_ne by lia]; simpl).
Qed.

Lemma ctx_read_ext_i386 m m' A :
  (∀ o, o ∈ ctx_offsets_i386 → m' !! (A + o) = m !! (A + o)) → ctx_read_i386 m' A = ctx_read_i386 m A.
Proof. intros Ho. unfold ctx_read_i386. rewrite !Ho; [done|..]; apply offsets_elem_i386; lia. Qed.

(** The frame of a call on the stack: the return address and two arguments. *)
Record frame_at (m : gmap Z Z) (sp ret arg1 arg2 : Z) : Prop := {
  fr_range : 0 ≤ sp ∧ sp + 8 < 2 ^ 32;
  fr_ret : m !! sp = Some ret;
  fr_arg1 : m !! (sp + 4) = Some arg1;
  fr_arg2 : m !! (sp + 8) = Some arg2
}.

Lemma wrap_i386 x y : x = y → 0 ≤ y < 2 ^ 32 → wrap 4 x = y.
Proof. intros -> ?. by apply wrap_range. Qed.

(** The first half of both routines. *)
Lemma save_i386_ok m A B sp ret l :
  ctx_at (mwords m) A → regs m SP = sp → frame_at (mwords m) sp ret A B → outside A sp →
  run_code 4 (save_i386 ++ l) m =
    run_code 4 l (Machine (reg_set AX ret (reg_set DX A (regs m))) (rip m)
      (ctx_write_i386 A (regs_i386 (regs m) ret) (mwords m))).
Proof.
  intros Hctx Hsp [Hr Hret H1 H2] Hout.
  assert (∀ o, o ∈ ctx_offsets_i386 → wrap 4 (A + o) = A + o ∧ is_Some (mwords m !! (A + o))) as Ho
    by (intros; by apply (layout_off 4 0x18 ctx_offsets_i386 _ _ _ offset_range_i386)).
  unfold save_i386. cbn [app].
  erewrite (run_load 4 DX _ _ _ _ (sp + 4) A); cbn [regs mwords rip];
    [|apply wrap_i386; lia|done].
  do 5 (erewrite run_store; cbn [regs mwords rip];
    [|apply Ho; apply offsets_elem_i386; lia
     |repeat apply insert_mapped; apply Ho; apply offsets_elem_i386; lia]).
  erewrite (run_load 4 AX _ _ _ _ sp ret); cbn [regs mwords rip].
  - erewrite run_store; cbn [regs mwords rip]; [reflexivity| |].
    + apply Ho, offsets_elem_i386. lia.
    + repeat apply insert_mapped. apply Ho, offsets_elem_i386. lia.
  - change (reg_set DX A (regs m) SP) with (regs m SP). apply wrap_i386; lia.
  - rewrite !lookup_insert_ne; [done|..]; apply not_eq_sym, Hout, offsets_elem_i386; lia.
Qed.

(** The machine runs the context [c], whose return address has been popped. *)
Definition resumed_i386 (c : Ctx_i386) (m : machine) : Prop :=
  regs m BX = ebx c ∧ regs m SI = esi c ∧ regs m DI = edi c ∧ regs m BP = ebp c ∧
  regs m SP = esp c + 4 ∧ rip m = eip c.

(** The second half of ctx_switch. *)
Definition restore_i386 : list instr :=
  [Load 0x08 SP DX;
   Load 0x00 DX BX; Load 0x04 DX SI; Load 0x08 DX DI; Load 0x0C DX BP; Load 0x10 DX SP;
   Load 0x14 DX AX; Store AX 0 SP; Ret].

Lemma restore_i386_ok m B c sp :
  0 ≤ B → B + 0x18 ≤ 2 ^ 32 → ctx_read_i386 (mwords m) B = Some c →
  regs m SP = sp → 0 ≤ sp → sp + 8 < 2 ^ 32 → mwords m !! (sp + 8) = Some B →
  0 ≤ esp c → esp c + 4 < 2 ^ 32 → is_Some (mwords m !! esp c) →
  ∃ m', run_code 4 restore_i386 m = Some m' ∧ resumed_i386 c m' ∧
    mwords m' = <[esp c := eip c]> (mwords m).
Proof.
  intros HB0 HB1 Hc Hsp Hs0 Hs1 HB H0 H1 Hmap.
  unfold ctx_read_i386 in Hc. repeat (apply bind_Some in Hc as (? & ? & Hc)).
  injection Hc as <-. cbn [esp eip] in *.
  assert (∀ o, 0 ≤ o ≤ 0x14 → wrap 4 (B + o) = B + o) as Ho by (intros; apply wrap_i386; lia).
  unfold restore_i386.
  erewrite (run_load 4 DX _ _ _ _ (sp + 8) B); cbn [regs mwords rip]; [|apply wrap_i386; lia|done].
  do 6 (erewrite run_load; cbn [regs mwords rip];
    [|match goal with |- wrap 4 (?f DX + ?o) = _ => change (f DX) with B; apply (Ho o); lia end|eassumption]).
  eexists. split.
  { erewrite run_store; cbn [regs mwords rip];
      [|match goal with |- wrap 4 (?f SP + 0) = _ => change (f SP) with x3; rewrite Z.add_0_r end;
        apply (wrap_i386 _ x3); [reflexivity|lia]|done].
    apply (run_ret 4 _ x3 x4); cbn [regs mwords rip].
    - apply wrap_i386; [reflexivity|]. lia.
    - apply lookup_insert_eq. }
  split; [|done]. unfold resumed_i386. split_and!; try reflexivity.
  apply (wrap_i386 (x3 + 4)); [reflexivity|]. cbn [esp]. lia.
Qed.

(** [ctx_switch(from = A, to = B)] is called: [c] is the context at B. *)
Record can_switch_i386 (m : machine) (A B ret : Z) (c : Ctx_i386) : Prop := {
  sx_from : ctx_at (mwords m) A;
  sx_to : ctx_at (mwords m) B;
  sx_frame : frame_at (mwords m) (regs m SP) ret A B;
  sx_stack : outside A (regs m SP) ∧ outside A (regs m SP + 8);
  sx_apart : ctx_apart B A;
  sx_ctx : ctx_read_i386 (mwords m) B = Some c;
  sx_esp : 0 ≤ esp c ∧ esp c + 4 < 2 ^ 32;
  sx_target : is_Some (mwords m !! esp c) ∧ outside A (esp c)
}.

Lemma switch_i386_ok m A B ret c :
  can_switch_i386 m A B ret c →
  ∃ m', run_code 4 ctx_switch_i386 m = Some m' ∧ resumed_i386 c m' ∧
    mwords m' = <[esp c := eip c]> (ctx_write_i386 A (regs_i386 (regs m) ret) (mwords m)).
Proof.
  intros []. change ctx_switch_i386 with (save_i386 ++ restore_i386).
  rewrite (save_i386_ok m A B (regs m SP) ret) by (done || apply sx_stack0).
  set (m1 := Machine _ _ _). destruct sx_frame0.
  apply (restore_i386_ok m1 B c (regs m SP)); try apply sx_to0; try apply sx_esp0; try lia; try done.
  - rewrite <-sx_ctx0. apply ctx_read_ext_i386. intros o Ho. simpl. apply ctx_write_out. by apply sx_apart0.
  - simpl. by rewrite ctx_write_out by apply sx_stack0.
  - simpl. by apply ctx_write_mapped, sx_target0.
Qed.

(** The switch of i386 gives a process back its machine state: after
    [ctx_switch(A, B)], whatever ran in between, as long as the context at A was
    left alone, a [ctx_switch(C, A)] returns to where the first was called from
    with the callee-saved registers and the stack pointer of that call. *)
Theorem ctx_switch_i386_roundtrip m A B ret c :
  can_switch_i386 m A B ret c →
  ∃ m1, run_code 4 ctx_switch_i386 m = Some m1 ∧ resumed_i386 c m1 ∧
    ∀ m2 C ret2,
      (∀ o, o ∈ ctx_offsets_i386 → mwords m2 !! (A + o) = mwords m1 !! (A + o)) →
      ctx_at (mwords m2) C → frame_at (mwords m2) (regs m2 SP) ret2 C A →
      outside C (regs m2 SP) → outside C (regs m2 SP + 8) → ctx_apart A C →
      is_Some (mwords m2 !! regs m SP) → outside C (regs m SP) →
      ∃ m3, run_code 4 ctx_switch_i386 m2 = Some m3 ∧
        (∀ r, r ∈ [BX; SI; DI; BP] → regs m3 r = regs m r) ∧
        regs m3 SP = regs m SP + 4 ∧ rip m3 = ret.
Proof.
  intros Hcan. destruct (switch_i386_ok m A B ret c Hcan) as (m1 & Hrun1 & Hres1 & Hw1).
  exists m1. split; [done|]. split; [done|]. destruct Hcan.
  intros m2 C ret2 HA HC Hframe Hout Hout8 Hap Hmap Htarget.
  assert (∀ o, o ∈ ctx_offsets_i386 →
    mwords m2 !! (A + o) = ctx_write_i386 A (regs_i386 (regs m) ret) (mwords m) !! (A + o)) as Hold.
  { intros o Ho. rewrite HA, Hw1 by done. apply lookup_insert_ne. by apply sx_target0. }
  destruct (switch_i386_ok m2 C A ret2 (regs_i386 (regs m) ret)) as (m3 & Hrun3 & Hres3 & _).
  - split; try done.
    + split; [apply sx_from0|]. split; [apply sx_from0|]. intros o Ho. rewrite Hold by done.
      by apply ctx_write_mapped, sx_from0.
    + rewrite (ctx_read_ext_i386 _ _ _ Hold). apply ctx_read_write.
    + destruct sx_frame0. simpl. lia.
  - exists m3. split; [done|]. destruct Hres3 as (? & ? & ? & ? & ? & ?).
    split; [|done]. intros r Hr. rewrite !elem_of_cons, elem_of_nil in Hr.
    by destruct Hr as [->|[->|[->|[->|[]]]]].
Qed.

(** C19: on i386 the first switch to a new process enters [proc_mainfxn] as a
    call: [_trampoline] is the return address on top of the stack, the process
    is the argument above it, and the words in use lie inside the process's
    stack.  At the entry [esp + 4] is 8 modulo 16, where the i386 ABI of Linux
    asks for 0. *)
Theorem first_switch_i386 m m0 trampoline mainfxn A B proc stack_ptr stack_size ret c :
  mwords m = ctx_init_i386 trampoline mainfxn B proc stack_ptr stack_size m0 →
  can_switch_i386 m A B ret c → 32 ≤ stack_size →
  let sp := init_sp 4 stack_ptr stack_size in
  (∀ o, o ∈ [4; 8] → outside A (sp + o) ∧ outside B (sp + o)) →
  ∃ m', run_code 4 ctx_switch_i386 m = Some m' ∧ rip m' = mainfxn ∧
    mwords m' !! regs m' SP = Some trampoline ∧ mwords m' !! (regs m' SP + 4) = Some proc ∧
    regs m' BP = regs m' SP ∧ regs m' SP = sp + 4 ∧
    stack_ptr ≤ sp ∧ sp + 16 ≤ stack_ptr + stack_size ∧ (regs m' SP + 4) mod 16 = 8.
Proof.
  intros Hmem Hcan Hsize sp Hout.
  destruct (switch_i386_ok m A B ret c Hcan) as (m' & Hrun & (_ & _ & _ & Hbp & Hsp & Hrip) & Hw).
  destruct (init_sp_spec 4 stack_ptr stack_size) as [Halign Hbounds]. fold sp in Halign, Hbounds.
  destruct (Hout 4) as [HA4 HB4]; [set_solver|]. destruct (Hout 8) as [HA8 HB8]; [set_solver|].
  assert (esp c = sp ∧ ebp c = sp + 4 ∧ eip c = mainfxn) as (Hcsp & Hcbp & Hcip).
  { pose proof (sx_ctx _ _ _ _ _ Hcan) as Hc. rewrite Hmem in Hc. unfold ctx_init_i386 in Hc. fold sp in Hc.
    unfold ctx_read_i386 in Hc. repeat (apply bind_Some in Hc as (? & ? & Hc)). injection Hc as <-. simpl.
    repeat match goal with H : context [<[_ := _]> _] |- _ =>
      first [rewrite lookup_insert_eq in H | rewrite lookup_insert_ne in H by lia] end.
    by simplify_eq. }
  assert (∀ o, o ≠ 0 → outside A (sp + o) → outside B (sp + o) → mwords m' !! (sp + o) =
    (<[sp + 8 := proc]> $ <[sp + 4 := trampoline]> m0) !! (sp + o)) as Hstack.
  { intros o Ho HA HB. rewrite Hw, Hcsp, lookup_insert_ne by lia. rewrite ctx_write_out, Hmem by done.
    unfold ctx_init_i386. fold sp.
    by do 3 rewrite lookup_insert_ne by (apply not_eq_sym, HB, offsets_elem_i386; lia). }
  exists m'. split; [done|]. split; [congruence|]. rewrite Hsp, Hbp, Hcsp, Hcbp. split_and!; try lia.
  - rewrite Hstack by (done || lia). rewrite lookup_insert_ne by lia. apply lookup_insert_eq.
  - replace (sp + 4 + 4) with (sp + 8) by lia. rewrite Hstack by (done || lia). apply lookup_insert_eq.
  - replace (sp + 4 + 4) with (8 + (sp + 4 * 4) + (-1) * 16) by lia.
    rewrite Z_mod_plus_full, <-Zplus_mod_idemp_r, Halign. done.
Qed.

(** ** The claims at concrete inputs *)

Lemma outside_range_i386 A x : x < A ∨ A + 0x18 ≤ x → outside A x.
Proof. apply out_range, offset_range_i386. Qed.

Lemma apart_range_i386 A B : A + 0x18 ≤ B ∨ B + 0x18 ≤ A → ctx_apart A B.
Proof. apply layout_apart_range, offset_range_i386. Qed.

(** Two contexts, at 1000 and 2000; the caller's frame at 3000, a stack at 4000. *)
Definition demo_words_i386 : gmap Z Z :=
  list_to_map (((λ o, (1000 + o, 0)) <$> ctx_offsets_i386) ++
    zip ((λ o, 2000 + o) <$> ctx_offsets_i386) [11; 12; 13; 14; 4000; 16] ++
    [(3000, 77); (3004, 1000); (3008, 2000); (4000, 88)]).

Definition demo_regs_i386 : reg → Z := λ r,
  match r with BX => 1 | SI => 2 | DI => 3 | BP => 4 | SP => 3000 | _ => 0 end.

Definition demo_machine_i386 : machine := Machine demo_regs_i386 9 demo_words_i386.
Definition demo_ctx_i386 : Ctx_i386 := MkCtx_i386 11 12 13 14 4000 16.

Ltac can_switch_i386_tac :=
  split; try done; try (by apply layout_at_dec); try (apply apart_range_i386; lia);
  try (split; [by eexists|apply outside_range_i386; simpl; lia]);
  try (split; apply outside_range_i386; simpl; lia).

Lemma demo_can_switch_i386 : can_switch_i386 demo_machine_i386 1000 2000 77 demo_ctx_i386.
Proof. can_switch_i386_tac. Qed.

Lemma ctx_switch_i386_roundtrip_witness :
  ∃ m1, run_code 4 ctx_switch_i386 demo_machine_i386 = Some m1 ∧ resumed_i386 demo_ctx_i386 m1 ∧
    ∀ m2 C ret2,
      (∀ o, o ∈ ctx_offsets_i386 → mwords m2 !! (1000 + o) = mwords m1 !! (1000 + o)) →
      ctx_at (mwords m2) C → frame_at (mwords m2) (regs m2 SP) ret2 C 1000 →
      outside C (regs m2 SP) → outside C (regs m2 SP + 8) → ctx_apart 1000 C →
      is_Some (mwords m2 !! regs demo_machine_i386 SP) → outside C (regs demo_machine_i386 SP) →
      ∃ m3, run_code 4 ctx_switch_i386 m2 = Some m3 ∧
        (∀ r, r ∈ [BX; SI; DI; BP] → regs m3 r = regs demo_machine_i386 r) ∧
        regs m3 SP = regs demo_machine_i386 SP + 4 ∧ rip m3 = 77.
Proof. exact (ctx_switch_i386_roundtrip demo_machine_i386 1000 2000 77 demo_ctx_i386 demo_can_switch_i386). Defined.

(** Process 555 with the stack 5000 .. 5063, and its context at 2000. *)
Definition start_words_i386 : gmap Z Z :=
  ctx_init_i386 500 600 2000 555 5000 64 (<[5040 := 0]> demo_words_i386).

Definition start_machine_i386 : machine := Machine demo_regs_i386 9 start_words_i386.

Lemma start_can_switch_i386 :
  can_switch_i386 start_machine_i386 1000 2000 77 (MkCtx_i386 11 12 13 5044 5040 600).
Proof. can_switch_i386_tac. Qed.

Lemma first_switch_i386_witness :
  ∃ m', run_code 4 ctx_switch_i386 start_machine_i386 = Some m' ∧ rip m' = 600 ∧
    mwords m' !! regs m' SP = Some 500 ∧ mwords m' !! (regs m' SP + 4) = Some 555 ∧
    regs m' BP = regs m' SP ∧ regs m' SP = 5044 ∧
    5000 ≤ 5040 ∧ 5056 ≤ 5064 ∧ (regs m' SP + 4) mod 16 = 8.
Proof.
  apply (first_switch_i386 start_machine_i386 (<[5040 := 0]> demo_words_i386) 500 600 1000 2000 555 5000 64
    77 (MkCtx_i386 11 12 13 5044 5040 600)); try done; [exact start_can_switch_i386|].
  intros o Ho. rewrite !elem_of_cons, elem_of_nil in Ho.
  change (init_sp 4 5000 64) with 5040. split; apply outside_range_i386; destruct Ho as [->|[->|[]]]; lia.
Defined.
