(* ===== verification/UContext.v ===== *)
(** * Context switching through ucontext: context.c without CTX_IMPL

    The functions of the C library are the class [UContextLib]; what the manual
    pages getcontext(3) and makecontext(3) say about them is [UContextLaws].  The
    arguments that makecontext passes on are of type int.  [ctx_init] passes it a
    pointer, so nothing is promised for a process whose address is no int. *)
From stdpp Require Import base tactics list gmap.
From Stdlib Require Import ZArith Lia.
From S2P Require Import Prelude Tailq Rbtree RbInsert RbSpec State SchedOps Exec.

#[local] Open Scope Z_scope.

(** [ucontext_t]: the fields context.c writes, and the saved machine state. *)
Record ucontext (X : Type) := UContext {
  uc_link : option loc;
  ss_sp : Z;
  ss_size : Z;
  uc_mcontext : X
}.
Arguments UContext {X}.
Arguments uc_link {X}.
Arguments ss_sp {X}.
Arguments ss_size {X}.
Arguments uc_mcontext {X}.

(** What runs: the call of a function on a fresh stack, with the context that
    follows its return. *)
Record entry := Entry { e_fxn : Z; e_arg : Z; e_stack : Z; e_size : Z; e_link : option loc }.

Class UContextLib := {
  (** mcontext_t, and the state of the running thread *)
  mcontext : Type;
  cpu : Type;
  (** the return value and [*ucp] *)
  getcontext : cpu → Z * ucontext mcontext;
  (** [*ucp] after makecontext(ucp, func, 1, arg), where [arg] should be an int *)
  makecontext : ucontext mcontext → Z → Z → ucontext mcontext;
  (** the return value, [*oucp] and what runs then; on success the value is the
      one the caller sees when [*oucp] is activated again *)
  swapcontext : cpu → ucontext mcontext → ucontext mcontext → Z * ucontext mcontext * cpu;
  (** what runs when a context is activated *)
  activate : ucontext mcontext → cpu;
  (** the running thread when the library call it is in returns a value *)
  returned : Z → cpu → cpu;
  (** the function the running thread is about to enter, if it is *)
  enters : cpu → option entry
}.

Definition is_int (z : Z) : Prop := - 2 ^ 31 ≤ z < 2 ^ 31.

(** What the manual pages promise. *)
Class UContextLaws `{UContextLib} : Prop := {
  swap_activates c o u o' c' : swapcontext c o u = (0, o', c') → c' = activate u;
  swap_saves c o u o' c' : swapcontext c o u = (0, o', c') → activate o' = returned 0 c;
  swap_fails c o u r o' c' : swapcontext c o u = (r, o', c') → r ≠ 0 → r = -1 ∧ c' = returned (-1) c;
  make_enters u f a : is_int a →
    enters (activate (makecontext u f a)) = Some (Entry f a (ss_sp u) (ss_size u) (uc_link u))
}.

Section ucontext.
Context {E : Env} {L : UContextLib}.

(** The contexts by address, and what runs. *)
Record uc_state := UcState { contexts : gmap loc (ucontext mcontext); running : cpu }.

Abbreviation M := (M uc_state).

(** The addresses of [proc_mainfxn] and of the scheduler's context. *)
Context (proc_mainfxn : Z) (sched_ctx : loc).

Definition ASSERT_0 (r : Z) : M () :=
  if r =? 0 then mret () else if NDEBUG then mret () else abort.

Definition set_ctx (ctx : loc) (u : ucontext mcontext) : M () :=
  modify (λ s, UcState (<[ctx := u]> (contexts s)) (running s)).

Definition get_ctx (ctx : loc) : M (ucontext mcontext) :=
  o ← get (λ s, contexts s !! ctx); deref o.

(** The second ASSERT_0 tests the value of getcontext again. *)
Definition ctx_init (ctx : loc) (proc : option (loc * Proc)) : M () :=
  '(ret, u) ← get (λ s, getcontext (running s));
  set_ctx ctx u ;;
  ASSERT_0 ret ;;
  match proc with
  | None => mret ()
  | Some (p, v) =>
      u ← get_ctx ctx;
      set_ctx ctx (UContext (Some sched_ctx) (p_stack_ptr v) (p_stack_size v) (uc_mcontext u)) ;;
      u ← get_ctx ctx;
      set_ctx ctx (makecontext u proc_mainfxn (Z.pos p)) ;;
      ASSERT_0 ret
  end.

Definition ctx_switch (from to : loc) : M () :=
  o ← get_ctx from;
  u ← get_ctx to;
  s ← get id;
  let '(ret, o', c') := swapcontext (running s) o u in
  modify (λ s, UcState (<[from := o']> (contexts s)) c') ;;
  ASSERT_0 ret.
End ucontext.

Section spec.
Context {E : Env} {L : UContextLib} {LL : UContextLaws}.
Context (proc_mainfxn : Z) (sched_ctx : loc).

Abbreviation ctx_init := (ctx_init proc_mainfxn sched_ctx).

Lemma get_ctx_run (s : uc_state) ctx u : contexts s !! ctx = Some u → get_ctx ctx s = Ok u s.
Proof. intros Hu. unfold get_ctx, mbind, M_bind, get. by rewrite Hu. Qed.

(** [ctx_switch] up to its assertion. *)
Lemma switch_run s from to o u r o' c' :
  contexts s !! from = Some o → contexts s !! to = Some u →
  swapcontext (running s) o u = (r, o', c') →
  ctx_switch from to s = ASSERT_0 r (UcState (<[from := o']> (contexts s)) c').
Proof.
  intros Hf Ht Hswap. unfold ctx_switch.
  rewrite (bind_ok _ _ s o s), (bind_ok _ _ s u s) by (by apply get_ctx_run).
  unfold mbind, M_bind, get, id. by rewrite Hswap.
Qed.

Lemma init_run s ctx p v u :
  getcontext (running s) = (0, u) →
  ctx_init ctx (Some (p, v)) s = Ok () (UcState
    (<[ctx := makecontext (UContext (Some sched_ctx) (p_stack_ptr v) (p_stack_size v) (uc_mcontext u))
        proc_mainfxn (Z.pos p)]> (contexts s)) (running s)).
Proof.
  intros Hget. unfold UContext.ctx_init, get_ctx, set_ctx, mbind, M_bind, get, modify. rewrite Hget. simpl.
  rewrite lookup_insert_eq. simpl. rewrite lookup_insert_eq. simpl. by rewrite !insert_insert_eq.
Qed.

(** The ucontext variant for a process whose address is an int: the first
    switch to a process that [ctx_init] has set up calls [proc_mainfxn] with the
    process on the process's stack, with the scheduler's context as the link; and
    when a later switch activates the context of the caller, which others have left
    alone, the caller's switch returns. *)
Theorem ucontext_first_switch s ctx from o p v u o' c' :
  is_int (Z.pos p) → getcontext (running s) = (0, u) → contexts s !! from = Some o → from ≠ ctx →
  let s1 := UcState (<[ctx := makecontext (UContext (Some sched_ctx) (p_stack_ptr v) (p_stack_size v)
    (uc_mcontext u)) proc_mainfxn (Z.pos p)]> (contexts s)) (running s) in
  (∀ w, contexts s1 !! ctx = Some w → swapcontext (running s) o w = (0, o', c')) →
  wp (ctx_init ctx (Some (p, v)) ;; ctx_switch from ctx) (λ _ s2,
    enters (running s2) =
      Some (Entry proc_mainfxn (Z.pos p) (p_stack_ptr v) (p_stack_size v) (Some sched_ctx)) ∧
    contexts s2 !! ctx = contexts s1 !! ctx ∧
    ∀ s3 back b r b' d, contexts s3 !! from = contexts s2 !! from → contexts s3 !! back = Some b →
      swapcontext (running s3) b o' = (r, b', d) →
      if r =? 0 then ∃ s4, ctx_switch back from s3 = Ok () s4 ∧ running s4 = returned 0 (running s)
      else NDEBUG = false → ctx_switch back from s3 = Abort) s.
Proof.
  intros Hint Hget Hfrom Hne s1 Hswap.
  assert (∃ w, contexts s1 !! ctx = Some w) as [w Hw] by (simpl; rewrite lookup_insert_eq; by eexists).
  specialize (Hswap w Hw). rewrite wp_bind. unfold wp at 1. rewrite (init_run _ _ _ _ u) by done.
  fold s1. unfold wp.
  rewrite (switch_run s1 from ctx o w 0 o' c') by first [assumption|unfold s1; simpl; by rewrite lookup_insert_ne].
  cbn. split; [|split].
  - rewrite (swap_activates _ _ _ _ _ Hswap). simpl in Hw. rewrite lookup_insert_eq in Hw.
    injection Hw as <-. by apply make_enters.
  - simpl. by rewrite (lookup_insert_ne _ from ctx).
  - simpl. rewrite lookup_insert_eq. intros s3 back b r b' d Hs3 Hb Hback.
    pose proof (switch_run s3 back from b o' r b' d Hb Hs3 Hback) as Hrun.
    destruct (Z.eqb_spec r 0) as [->|Hr].
    + eexists. split; [exact Hrun|]. simpl.
      by rewrite (swap_activates _ _ _ _ _ Hback), (swap_saves _ _ _ _ _ Hswap).
    + intros Hnd. rewrite Hrun. unfold ASSERT_0. rewrite (proj2 (Z.eqb_neq _ _)) by done. by rewrite Hnd.
Qed.
End spec.

(** ** A library that keeps its promises *)

(** The int that is left of an argument. *)
Definition to_int (z : Z) : Z := (z + 2 ^ 31) `mod` 2 ^ 32 - 2 ^ 31.

Lemma to_int_id z : is_int z → to_int z = z.
Proof. intros H. unfold to_int, is_int in *. rewrite Z.mod_small; lia. Qed.

(** Threads that only count the calls they made. *)
#[export] Instance demo_ucontext : UContextLib := {|
  mcontext := Z + entry;
  cpu := Z + entry;
  getcontext c := (0, UContext None 0 0 c);
  makecontext u f a := UContext (uc_link u) (ss_sp u) (ss_size u)
    (inr (Entry f (to_int a) (ss_sp u) (ss_size u) (uc_link u)));
  swapcontext c o u := (0, UContext (uc_link o) (ss_sp o) (ss_size o)
    match c with inl k => inl (k + 1) | inr e => inl (e_arg e) end, uc_mcontext u);
  activate u := uc_mcontext u;
  returned r c := match c with inl k => inl (k + 1) | inr e => inl (e_arg e) end;
  enters c := match c with inl _ => None | inr e => Some e end
|}.

#[export] Instance demo_ucontext_laws : UContextLaws.
Proof.
  split; simpl; [by intros; simplify_eq..|intros; simplify_eq|]. intros u f a Ha. by rewrite to_int_id.
Qed.

Section example.
#[local] Existing Instance demo_env.

Definition demo_uc : uc_state := UcState {[ 1%positive := UContext None 0 0 (inl 0) ]} (inl 7).

Lemma ucontext_first_switch_witness :
  let v := demo_proc PROC_READY in
  ∃ s2, (UContext.ctx_init 600 1%positive 2%positive (Some (5%positive, v)) ;; ctx_switch 1%positive 2%positive)
      demo_uc = Ok () s2 ∧
    enters (running s2) = Some (Entry 600 5 (p_stack_ptr v) (p_stack_size v) (Some 1%positive)).
Proof.
  intros v.
  pose proof (ucontext_first_switch (E := demo_env) 600 1%positive demo_uc 2%positive 1%positive
    (UContext None 0 0 (inl 0)) 5%positive v (UContext None 0 0 (inl 7)) (UContext None 0 0 (inl 8))
    (inr (Entry 600 5 (p_stack_ptr v) (p_stack_size v) (Some 1%positive)))) as H.
  apply wp_ok in H; [|done|done|done|done|].
  - destruct H as ([] & s2 & Hrun & Hent & _). by exists s2.
  - intros w Hw. vm_compute in Hw. injection Hw as <-. done.
Defined.

(** The library keeps every promise of the manual and still cuts a pointer: the
    process at 2^32 + 5 is entered with 5. *)
Lemma ucontext_pointer_cut :
  let v := demo_proc PROC_READY in
  ∃ s2, (UContext.ctx_init 600 1%positive 2%positive (Some (4294967301%positive, v)) ;;
      ctx_switch 1%positive 2%positive) demo_uc = Ok () s2 ∧
    enters (running s2) = Some (Entry 600 5 (p_stack_ptr v) (p_stack_size v) (Some 1%positive)).
Proof. by eexists. Qed.
End example.
