(* ===== verification/Tls.v ===== *)
(** * The scheduler of a thread: the pthread key of scheduler.c

    Every thread that calls [proxc_start] has a scheduler of its own, which
    [scheduler_self] finds through a key created once for all threads.  The state
    here is what all threads share; the rest of the library models what one
    thread does with its scheduler. *)
From stdpp Require Import base tactics list gmap.
From Stdlib Require Import ZArith Lia.
From S2P Require Import Prelude Tailq Rbtree RbInsert RbSpec State SchedOps Exec.

(** The codes that the pthread calls return, and the address that a thread gets for
    its scheduler when others are allocated ([None] when malloc fails). *)
Class Pthread := {
  key_create_ret : Z;
  setspecific_ret : nat → Z;
  sched_malloc : nat → gset loc → option loc
}.

(** Threads are numbered.  [keys] counts the keys created; [schedulers] are the
    addresses of the allocated structs. *)
Record tls_state := TlsState {
  g_key_sched : nat;
  g_key_once : bool;
  keys : nat;
  specific : gmap (nat * nat) loc;
  schedulers : gset loc
}.

Definition tls_init : tls_state := TlsState 0 false 0 ∅ ∅.

Section tls.
Context {E : Env} {P : Pthread}.
Abbreviation M := (M tls_state).

Definition ASSERT_tls (b : bool) : M () :=
  if b then mret () else if NDEBUG then mret () else abort.

(** The calls of the library; a key that was never created is undefined. *)
Definition pthread_key_create : M Z :=
  if (key_create_ret =? 0)%Z then
    modify (λ s, TlsState (keys s) (g_key_once s) (S (keys s)) (specific s) (schedulers s)) ;; mret 0%Z
  else mret key_create_ret.

Definition pthread_once (f : M ()) : M Z :=
  b ← get g_key_once;
  (if b : bool then mret () else
    f ;; modify (λ s, TlsState (g_key_sched s) true (keys s) (specific s) (schedulers s))) ;;
  mret 0%Z.


Definition pthread_setspecific (t : nat) (v : loc) : M Z :=
  s ← get id;
  if negb (bool_decide (g_key_sched s < keys s)) then undef else
  if (setspecific_ret t =? 0)%Z then
    modify (λ s, TlsState (g_key_sched s) (g_key_once s) (keys s)
      (<[(t, g_key_sched s) := v]> (specific s)) (schedulers s)) ;; mret 0%Z
  else mret (setspecific_ret t).

Definition _scheduler_key_create : M () :=
  ret ← pthread_key_create; ASSERT_tls (ret =? 0)%Z.


(** [scheduler_create] on thread [t]: the allocation and the key. *)
Definition scheduler_register (t : nat) : M (option loc) :=
  l ← get schedulers;
  match sched_malloc t l with
  | None => mret None
  | Some p =>
      modify (λ s, TlsState (g_key_sched s) (g_key_once s) (keys s) (specific s) ({[p]} ∪ schedulers s)) ;;
      ret ← pthread_once _scheduler_key_create;
      ASSERT_tls (ret =? 0)%Z ;;
      ret ← pthread_setspecific t p;
      ASSERT_tls (ret =? 0)%Z ;;
      mret (Some p)
  end.

(** [scheduler_free]: [totalQ] is read, and the struct freed. *)
Definition scheduler_release (sched : option loc) : M () :=
  match sched with
  | None => mret ()
  | Some p =>
      l ← get schedulers;
      if bool_decide (p ∈ l) then
        modify (λ s, TlsState (g_key_sched s) (g_key_once s) (keys s) (specific s) (schedulers s ∖ {[p]}))
      else undef
  end.

Definition _scheduler_key_free (data : option loc) : M () := scheduler_release data.

(** The end of a thread: a value that is not NULL goes to the destructor. *)
Definition thread_exit (t : nat) : M () :=
  s ← get id;
  match specific s !! (t, g_key_sched s) with
  | None => mret ()
  | Some p =>
      modify (λ s, TlsState (g_key_sched s) (g_key_once s) (keys s)
        (delete (t, g_key_sched s) (specific s)) (schedulers s)) ;;
      _scheduler_key_free (Some p)
  end.

(** ** What a thread does with its scheduler *)









(** ** One key for all threads *)

(** No key yet, or the one key. *)
Definition one_key (s : tls_state) : Prop :=
  g_key_sched s = 0 ∧ keys s = (if g_key_once s then 1 else 0).

Lemma register_ok t p s :
  key_create_ret = 0%Z → setspecific_ret t = 0%Z → sched_malloc t (schedulers s) = Some p → one_key s →
  scheduler_register t s =
    Ok (Some p) (TlsState 0 true 1 (<[(t, 0) := p]> (specific s)) ({[p]} ∪ schedulers s)).
Proof.
  intros Hk Hs Hp [Hkey Hkeys]. destruct s as [gk once ks sp sc]. simpl in *. subst gk ks.
  unfold scheduler_register, pthread_once, pthread_setspecific, _scheduler_key_create, pthread_key_create.
  unfold mbind, M_bind, modify, get, ASSERT_tls, id. simpl. rewrite Hp, Hk, Hs. by destruct once.
Qed.








Section runs.
#[local] Arguments scheduler_release : simpl never.
Hypothesis Hkey : key_create_ret = 0%Z.
Hypothesis Hset : ∀ t, setspecific_ret t = 0%Z.
Hypothesis Hmalloc : ∀ t l, ∃ p, sched_malloc t l = Some p ∧ p ∉ l.





End runs.

(** C22: [proxc_start] frees the scheduler of its thread and leaves its address
    under the key, so that the end of the thread hands it to
    [_scheduler_key_free] and it is freed again.  (The main thread escapes: its
    return from main runs no destructors.) *)
Theorem thread_exit_frees_twice t p s :
  key_create_ret = 0%Z → setspecific_ret t = 0%Z → sched_malloc t (schedulers s) = Some p → one_key s →
  wp (sched ← scheduler_register t; scheduler_release sched) (λ _ s', thread_exit t s' = Undef) s.
Proof.
  intros Hk Hs Hp Hone. rewrite wp_bind. unfold wp at 1. rewrite (register_ok t p) by done.
  unfold scheduler_release at 1. rewrite wp_bind, wp_get. simpl.
  rewrite bool_decide_true by set_solver. rewrite wp_modify.
  unfold thread_exit, mbind, M_bind, get, modify, id. simpl. rewrite lookup_insert_eq. simpl.
  unfold mbind, M_bind, get. simpl. by rewrite bool_decide_false by set_solver.
Qed.
End tls.

Section example.
#[local] Existing Instance demo_env.

#[local] Instance demo_pthread : Pthread :=
  {| key_create_ret := 0%Z; setspecific_ret _ := 0%Z; sched_malloc _ l := Some (fresh l) |}.


Lemma thread_exit_frees_twice_witness :
  wp (sched ← scheduler_register 3; scheduler_release sched) (λ _ s', thread_exit 3 s' = Undef) tls_init.
Proof. by refine (thread_exit_frees_twice 3 (fresh (∅ : gset loc)) _ _ _ _ _). Defined.
End example.
