(* ===== verification/Sched.v ===== *)
(** * The scheduler loop: scheduler_create, scheduler_free, scheduler_run

    The loop body is cut at the context switch: [scheduler_pick] runs up to
    [ctx_switch], [scheduler_switched] after it. *)
From stdpp Require Import base tactics list gmap.
From Stdlib Require Import ZArith Lia.
From S2P Require Import Prelude Tailq Rbtree RbInsert RbSpec State SchedOps AltCore Csp Proc Context.

Definition MAX_STACK_SIZE : Z := 8 * 1024.

Section sched.
Context {T : Type} {TT : SleepTree T} {E : Env}.
Abbreviation M := (M (St T)).

(** [main_proc] and [curr_proc] are not initialised here. *)
Definition scheduler_create : M Z :=
  ok ← alloc_ok;
  if negb ok then modify (set_errno ENOMEM) ;; get errno else
  modify (set_sched (λ c, MkSched MAX_STACK_SIZE pagesize false
    (s_main_proc c) (s_curr_proc c) [] [] 0 st_init 0 st_init)) ;;
  mret 0%Z.

(** [n] bounds the number of processes. *)
Fixpoint scheduler_free_loop (n : nat) : M () :=
  q ← gets s_totalQ;
  match q with
  | [] => mret ()
  | p :: _ =>
      match n with
      | O => diverge
      | S n => proc_free (Some p) ;; scheduler_free_loop n
      end
  end.

Definition scheduler_free : M () :=
  n ← gets (λ c, length (s_totalQ c));
  scheduler_free_loop n.

(** [while ((proc = RB_MIN(..))) ..]: every iteration removes a node. *)
Fixpoint wakeup_sleepers (fuel : nat) (now_us : Z) : M () :=
  match fuel with
  | O => diverge
  | S fuel =>
      o ← on_sleep (λ _, st_min);
      match o with
      | None => mret ()
      | Some p =>
          v ← getp p;
          if (now_us <? p_sleep_us v)%Z then mret () else
          scheduler_remsleep (Some p) ;;
          scheduler_addready (Some p) ;;
          wakeup_sleepers fuel now_us
      end
  end.

(** The reaction to one timed-out guard. *)
Definition guard_timeout (g : loc) : M () :=
  scheduler_remaltsleep (Some g) ;;
  alt_proc ← guard_proc g;
  v ← getp alt_proc;
  if decide (p_state v = PROC_ALTWAIT) then
    ok ← alt_accept (Some g);
    when ok (scheduler_addready (Some alt_proc))
  else mret ().

Fixpoint wakeup_guards (fuel : nat) (now_us : Z) : M () :=
  match fuel with
  | O => diverge
  | S fuel =>
      o ← on_altsleep (λ _, st_min);
      match o with
      | None => mret ()
      | Some g =>
          v ← getg g;
          if (now_us <? g_usec v)%Z then mret () else
          guard_timeout g ;;
          wakeup_guards fuel now_us
      end
  end.

(** RB_EMPTY is [RB_MIN == NULL]. *)
Definition _scheduler_wakeup : M () :=
  a ← on_sleep (λ _, st_min);
  b ← on_altsleep (λ _, st_min);
  match a, b with
  | None, None => mret ()
  | _, _ =>
      now_us ← gettimestamp;
      n ← get (λ s, S (size (procs s)));
      wakeup_sleepers n now_us ;;
      m ← get (λ s, S (size (guards s)));
      wakeup_guards m now_us
  end.

(** The earliest deadline in the two trees, 0 when there is none. *)
Definition min_deadline : M Z :=
  a ← on_sleep (λ _, st_min);
  min_us ← match a with Some p => v ← getp p; mret (p_sleep_us v) | None => mret 0%Z end;
  b ← on_altsleep (λ _, st_min);
  match b with
  | Some g =>
      v ← getg g;
      mret (if (min_us =? 0)%Z || (g_usec v <? min_us)%Z then g_usec v else min_us)
  | None => mret min_us
  end.

(** [useconds_t] is 32 bits wide. *)
Definition _scheduler_checkQs : M () :=
  q ← gets s_readyQ;
  match q with
  | _ :: _ => mret ()
  | [] =>
      min_us ← min_deadline;
      when (0 <? min_us)%Z
        (now_us ← gettimestamp;
         when (now_us <? min_us)%Z (usleep ((min_us - now_us) `mod` 2 ^ 32)))
  end.

Definition _scheduler_running : M bool :=
  c ← gets id;
  mret (negb (s_is_exit c) && bool_decide (s_totalQ c ≠ [])).

(** One iteration of scheduler_run up to the context switch: [Some p] switches
    to [p], [None] is [continue]. *)
Definition scheduler_pick : M (option loc) :=
  _scheduler_checkQs ;;
  _scheduler_wakeup ;;
  q ← gets s_readyQ;
  match q with
  | [] => mret None
  | p :: _ =>
      live ← live_procs;
      q' ← TQ_REMOVE live q p;
      mods (s_set_readyQ q') ;;
      mods (s_set_curr (Some p)) ;;
      modp p (p_set_state PROC_RUNNING) ;;
      mret (Some p)
  end.

(** The rest of the iteration, when the process has switched back. *)
Definition scheduler_switched : M () :=
  c ← gets s_curr_proc;
  ctx_madvise c ;;
  p ← deref c;
  v ← getp p;
  match p_state v with
  | PROC_RUNNING | PROC_READY => scheduler_addready (Some p)
  | PROC_ENDED =>
      mods (λ s, s_set_exit (s_is_exit s || bool_decide (Some p = s_main_proc s)) s) ;;
      proc_free (Some p)
  | _ => mret ()
  end ;;
  mods (s_set_curr None).
End sched.
