(* ===== verification/SchedSpec.v ===== *)
(** * The scheduler: time-outs, choice of the next process *)
From stdpp Require Import base tactics list gmap.
From Stdlib Require Import ZArith Lia.
From S2P Require Import Prelude Tailq Rbtree RbInsert RbSpec State SchedOps Exec SleepSpec AltCore.
From S2P Require Import Csp BuildTree CspSpec Proc Context Sched.

Section sched_spec.
Context {T : Type} {TT : SleepTree T} {E : Env}.
Implicit Types s : St T.

(** ** What a time-out does to the store *)

(** [n] nodes have left the sleep tree, which is now [t]. *)
Definition slept_out (n : nat) (t : T) (s : St T) : St T :=
  set_sched (λ c, s_set_sleep (u64 (s_sleep_num c - Z.of_nat n)) t c) s.

Definition altslept_out (n : nat) (t : T) (s : St T) : St T :=
  set_sched (λ c, s_set_altsleep (u64 (s_altsleep_num c - Z.of_nat n)) t c) s.

(** The process of a guard, through its ALT. *)
Definition guard_of (g : loc) (s : St T) : option (loc * Alt * loc * Proc) :=
  v ← guards s !! g; al ← g_alt v; a ← alts s !! al; p ← a_proc a; w ← procs s !! p;
  Some (al, a, p, w).

(** The time-out of [g]: it wins its ALT when that is waiting and open. *)
Definition timed_out (s : St T) (g : loc) : St T :=
  match guard_of g s with
  | Some (al, a, p, w) =>
      if decide (p_state w = PROC_ALTWAIT) then
        if a_is_accepted a then s
        else ready_all [p] (set_alts <[al := a_set_accepted true (Some g) a]> s)
      else s
  | None => s
  end.

(** No process that waits in an ALT is in the ready queue. *)
Definition altwait_unqueued (s : St T) : Prop :=
  ∀ p w, procs s !! p = Some w → p_state w = PROC_ALTWAIT → p ∉ s_readyQ (sched s).

(** [l] with the ones up to [now] first. *)
Definition due (key : loc → Z) (now : Z) (l : list loc) : list loc :=
  filter (λ x, (key x ≤ now)%Z) l.
Definition not_due (key : loc → Z) (now : Z) (l : list loc) : list loc :=
  filter (λ x, ¬ (key x ≤ now)%Z) l.

Lemma due_split key now l :
  key_sorted key l → l = due key now l ++ not_due key now l.
Proof.
  unfold due, not_due. induction l as [|x l IH]; [done|].
  intros [Hl Hx]%key_sorted_cons. destruct (decide (key x ≤ now)%Z).
  - rewrite filter_cons_True, filter_cons_False by naive_solver. simpl. f_equal. by apply IH.
  - rewrite (filter_cons_False (λ y, key y ≤ now)%Z), filter_cons_True by done.
    rewrite (IH Hl) at 1.
    assert (filter (λ y, (key y ≤ now)%Z) l = []) as ->; [|done].
    apply elem_of_nil_inv. intros y [Hy1 Hy2]%list_elem_of_filter. specialize (Hx y Hy2). lia.
Qed.

Lemma u64_sub n k : u64 (u64 (n + -1) - k) = u64 (n - (k + 1)).
Proof. unfold u64. rewrite Zminus_mod_idemp_l. f_equal. lia. Qed.

Lemma u64_sub_0 n : (0 ≤ n < U64)%Z → u64 (n - 0) = n.
Proof. intros. rewrite Z.sub_0_r. by apply Z.mod_small. Qed.

Lemma u64_range z : (0 ≤ u64 z < U64)%Z.
Proof. by apply Z.mod_pos_bound. Qed.

#[local] Opaque u64.

(** ** Sleeping processes *)

Lemma on_sleep_min l s (Q : option loc → St T → Prop) :
  sleepers s l → Q (head l) s → wp (on_sleep (λ _, st_min)) Q s.
Proof.
  intros Hs HQ. eapply wp_on_sleep; [by apply (st_min_ok (sleep_key s))|].
  intros o t [-> ->]. by rewrite set_sleep_same.
Qed.

Lemma on_altsleep_min l s (Q : option loc → St T → Prop) :
  altsleepers s l → Q (head l) s → wp (on_altsleep (λ _, st_min)) Q s.
Proof.
  intros Hs HQ. eapply wp_on_altsleep; [by apply (st_min_ok (altsleep_key s))|].
  intros o t [-> ->]. by rewrite set_altsleep_same.
Qed.

Lemma SL_remove_head (key : loc → Z) (x : loc) l : key_sorted key (x :: l) → SL.remove x (x :: l) = l.
Proof.
  intros Hs. apply key_sorted_nodup, NoDup_cons in Hs as [Hx _].
  by apply Q_without_head.
Qed.

Lemma sleep_key_ready ps s x : sleep_key (ready_all ps s) x = sleep_key s x.
Proof.
  unfold sleep_key, ready_all. simpl. generalize (procs s).
  induction ps as [|p ps IH]; intros m; simpl; [done|]. rewrite IH.
  destruct (decide (p = x)) as [->|]; [|by rewrite lookup_alter_ne].
  rewrite lookup_alter_eq. by destruct (m !! x) as [[]|].
Qed.

Lemma sleepers_slept_out n t ps s l :
  st_rep (sleep_key s) t l → sleepers (slept_out n t (ready_all ps s)) l.
Proof. intros H. eapply st_ext; [|exact H]. intros x _. apply (sleep_key_ready ps s x). Qed.

Lemma slept_out_step p d t1 t n s :
  slept_out n t (ready_all d (ready_all [p]
    (set_sched (λ c, s_set_sleep (u64 (s_sleep_num c + -1)) t1 c) s))) =
  slept_out (S n) t (ready_all (p :: d) s).
Proof.
  rewrite (ready_all_app [p] d s : ready_all (p :: d) s = _).
  apply St_eq; try reflexivity.
  unfold slept_out. cbn [sched ready_all set_sched set_procs]. unfold s_set_sleep, s_set_readyQ.
  cbn [s_stack_size s_page_size s_is_exit s_main_proc s_curr_proc s_totalQ s_readyQ
    s_sleep_num s_sleep_RB s_altsleep_num s_altsleep_RB].
  rewrite u64_sub, Nat2Z.inj_succ, <-Z.add_1_r. reflexivity.
Qed.

Lemma wakeup_sleepers_ok now : ∀ d r fuel s,
  sleepers s (d ++ r) → Forall (λ x, sleep_key s x ≤ now)%Z d →
  Forall (λ x, ¬ sleep_key s x ≤ now)%Z r →
  Forall (λ x, is_Some (procs s !! x)) (d ++ r) → can_ready d s →
  (0 ≤ s_sleep_num (sched s) < U64)%Z → length d < fuel →
  wp (wakeup_sleepers fuel now) (λ _ s', ∃ t,
    s' = slept_out (length d) t (ready_all d s) ∧ sleepers s' r) s.
Proof.
  induction d as [|p d IH]; intros r [|fuel] s Hs Hd Hr Hlive Hc Hnum Hf; simpl in Hf; try lia;
    simpl wakeup_sleepers; apply wp_bind; eapply on_sleep_min; try exact Hs; simpl head.
  - assert (∃ t, s = slept_out 0 t (ready_all [] s) ∧ sleepers s r) as Hres.
    { exists (s_sleep_RB (sched s)). split; [|done]. rewrite ready_all_nil. unfold slept_out.
      destruct s as [?????? []]; simpl in *. unfold set_sched. simpl.
      unfold s_set_sleep. simpl. by rewrite u64_sub_0. }
    destruct r as [|x r]; simpl; [by apply wp_ret|].
    apply Forall_cons in Hlive as [[v Hv] _]. apply Forall_cons in Hr as [Hx _].
    unfold sleep_key in Hx. rewrite Hv in Hx. simpl in Hx.
    steps. rewrite (proj2 (Z.ltb_lt _ _)) by lia. by apply wp_ret.
  - change ((p :: d) ++ r) with (p :: (d ++ r)) in *.
    apply Forall_cons in Hlive as [[v Hv] Hlive]. apply Forall_cons in Hd as [Hp Hd].
    assert (sleep_key s p = p_sleep_us v) as Hkey by (unfold sleep_key; by rewrite Hv).
    cbn [app head]. steps. rewrite (proj2 (Z.ltb_ge _ _)) by lia. steps.
    eapply wp_mono; [by eapply remsleep_ok; [exact Hs|left|]|].
    intros [] ? (t1 & -> & Hs1). rewrite (SL_remove_head (sleep_key s)) in Hs1 by by eapply st_sorted.
    apply (can_ready_app [p]) in Hc as [Hc1 Hc2]. steps.
    eapply wp_mono; [by apply addready_all|]. intros [] ? ->.
    match goal with |- wp _ _ ?s2 =>
      assert (∀ x, sleep_key s2 x = sleep_key s x) as Hk end.
    { intros x. etrans; [apply (sleep_key_ready [p])|done]. }
    eapply wp_mono; [apply (IH r fuel)|].
    + eapply st_ext; [|exact Hs1]. intros x _. apply Hk.
    + eapply Forall_impl; [exact Hd|]. intros x. simpl. by rewrite Hk.
    + eapply Forall_impl; [exact Hr|]. intros x. simpl. by rewrite Hk.
    + eapply Forall_impl; [exact Hlive|]. intros x Hx. simpl. by apply lookup_alter_is_Some.
    + exact Hc2.
    + apply u64_range.
    + lia.
    + intros [] s' (t & -> & Hs'). exists t. split; [|exact Hs'].
      apply slept_out_step.
Qed.

(** ** Timed-out guards *)

Definition guard_ok (s : St T) (g : loc) : Prop := is_Some (guard_of g s).

Definition altsched_ok (s : St T) : Prop := altwait_unqueued s ∧ ready_live s.

Lemma guard_of_inv g s al a p w :
  guard_of g s = Some (al, a, p, w) →
  ∃ v, guards s !! g = Some v ∧ g_alt v = Some al ∧ alts s !! al = Some a ∧
    a_proc a = Some p ∧ procs s !! p = Some w.
Proof.
  unfold guard_of. intros (v & Hv & (al' & Hal & (a' & Ha & (p' & Hp & (w' & Hw & ?)
    %bind_Some)%bind_Some)%bind_Some)%bind_Some)%bind_Some.
  simplify_eq. eauto 10.
Qed.

Lemma guard_proc_ok g s al a p w Q :
  guard_of g s = Some (al, a, p, w) → Q p s → wp (guard_proc g) Q s.
Proof. intros (v & Hv & Hal & Ha & Hp & Hw)%guard_of_inv HQ. unfold guard_proc. by steps. Qed.

(** [timed_out] keeps every guard, and the ALT and process of each. *)
Lemma timed_out_guards s g : guards (timed_out s g) = guards s.
Proof. unfold timed_out. by repeat case_match. Qed.

Lemma timed_out_procs s g x :
  is_Some (procs s !! x) → is_Some (procs (timed_out s g) !! x).
Proof.
  intros Hx. unfold timed_out. repeat case_match; try done. simpl.
  by apply lookup_alter_is_Some.
Qed.

Lemma timed_out_alts s g al a :
  alts s !! al = Some a → ∃ a', alts (timed_out s g) !! al = Some a' ∧ a_proc a' = a_proc a.
Proof.
  intros Ha. unfold timed_out. destruct (guard_of g s) as [[[[al' a'] p] w]|] eqn:Hg; [|by eauto].
  apply guard_of_inv in Hg as (v & _ & _ & Ha' & _ & _).
  repeat case_match; eauto. simpl. destruct (decide (al = al')) as [->|].
  - rewrite lookup_insert_eq. eexists; split; [done|]. simpl. congruence.
  - rewrite lookup_insert_ne by done. eauto.
Qed.

Lemma timed_out_guard_ok s g g' : guard_ok s g' → guard_ok (timed_out s g) g'.
Proof.
  intros [[[[al a] p] w] (v & Hv & Hal & Ha & Hp & Hw)%guard_of_inv].
  destruct (timed_out_alts s g al a Ha) as (a' & Ha' & Hap).
  destruct (timed_out_procs s g p ltac:(by eexists)) as [w' Hw'].
  exists (al, a', p, w'). unfold guard_of. rewrite timed_out_guards, Hv. simpl.
  rewrite Hal. simpl. rewrite Ha'. simpl. rewrite Hap, Hp. simpl. by rewrite Hw'.
Qed.

Lemma timed_out_ok s g : altsched_ok s → altsched_ok (timed_out s g).
Proof.
  intros [Hu Hl]. unfold timed_out.
  destruct (guard_of g s) as [[[[al a] p] w]|] eqn:Hg; [|done].
  apply guard_of_inv in Hg as (v & _ & _ & _ & _ & Hw).
  case_decide as Hst; [|done]. case_match; [done|]. split.
  - intros q u Hq Hqs. simpl in *. destruct (decide (q = p)) as [->|].
    + rewrite lookup_alter_eq, Hw in Hq. simplify_eq/=.
    + rewrite lookup_alter_ne in Hq by done. specialize (Hu _ _ Hq Hqs). set_solver.
  - unfold ready_live in *. simpl. apply Forall_app; split.
    + eapply Forall_impl; [exact Hl|]. intros x Hx. by apply lookup_alter_is_Some.
    + constructor; [|done]. rewrite lookup_alter_eq, Hw. by eexists.
Qed.

(** The store with another tree of timed guards. *)
Definition with_alttree (n : Z) (t : T) (s : St T) : St T :=
  set_sched (λ c, s_set_altsleep n t c) s.

Lemma guard_of_tree g n t s : guard_of g (with_alttree n t s) = guard_of g s.
Proof. done. Qed.

Lemma timed_out_tree g n t s :
  timed_out (with_alttree n t s) g = with_alttree n t (timed_out s g).
Proof.
  unfold timed_out. rewrite guard_of_tree.
  destruct (guard_of g s) as [[[[? ?] ?] ?]|]; [|done]. by repeat case_match.
Qed.

Lemma guard_timeout_ok g l s :
  altsleepers s l → g ∈ l → guard_ok s g → altsched_ok s →
  wp (guard_timeout g) (λ _ s', ∃ t,
    s' = with_alttree (u64 (s_altsleep_num (sched s) + -1)) t (timed_out s g) ∧
    st_rep (altsleep_key s) t (SL.remove g l)) s.
Proof.
  intros Hs Hg [[[[al a] p] w] Hok] [Hu Hl]. unfold guard_timeout, scheduler_remaltsleep.
  step. step. step. step. eapply guard_proc_ok; [exact Hok|]. step.
  eapply wp_on_altsleep; [by apply st_remove_ok|]. intros o t [-> Ht]. apply wp_mods.
  destruct (guard_of_inv _ _ _ _ _ _ Hok) as (v & Hv & Hal & Ha & Hp & Hw).
  step. eapply (guard_proc_ok _ _ al a p w); [exact Hok|]. steps.
  unfold timed_out. rewrite Hok. destruct (decide (p_state w = PROC_ALTWAIT)) as [Hst|].
  - unfold alt_accept. steps. destruct (a_is_accepted a).
    + steps. by exists t.
    + steps. eapply wp_mono; [apply addready_all|].
      { split_and!; [apply NoDup_singleton| |exact Hl].
        constructor; [|done]. split; [by eexists|]. by eapply Hu. }
      intros [] ? ->. by exists t.
  - steps. by exists t.
Qed.

Lemma wakeup_guards_ok now : ∀ d r fuel s,
  altsleepers s (d ++ r) → Forall (λ x, altsleep_key s x ≤ now)%Z d →
  Forall (λ x, ¬ altsleep_key s x ≤ now)%Z r →
  Forall (guard_ok s) (d ++ r) → altsched_ok s → length d < fuel →
  wp (wakeup_guards fuel now) (λ _ s', ∃ n t,
    s' = with_alttree n t (foldl timed_out s d) ∧ altsleepers s' r) s.
Proof.
  induction d as [|g d IH]; intros r [|fuel] s Hs Hd Hr Hok Hinv Hf; simpl in Hf; try lia;
    simpl wakeup_guards; apply wp_bind; eapply on_altsleep_min; try exact Hs.
  - assert (∃ n t, s = with_alttree n t s ∧ altsleepers s r) as Hres.
    { exists (s_altsleep_num (sched s)), (s_altsleep_RB (sched s)). split; [|done].
      by destruct s as [?????? []]. }
    destruct r as [|x r]; simpl; [by apply wp_ret|].
    apply Forall_cons in Hok as [[[[[al a] p] w] (v & Hv & _)%guard_of_inv] _].
    apply Forall_cons in Hr as [Hx _].
    unfold altsleep_key in Hx. rewrite Hv in Hx. simpl in Hx.
    steps. rewrite (proj2 (Z.ltb_lt _ _)) by lia. by apply wp_ret.
  - change ((g :: d) ++ r) with (g :: (d ++ r)) in *. cbn [head].
    apply Forall_cons in Hok as [Hg Hok]. apply Forall_cons in Hd as [Hgk Hd].
    pose proof Hg as [[[[al a] p] w] (v & Hv & _)%guard_of_inv].
    assert (altsleep_key s g = g_usec v) as Hkey by (unfold altsleep_key; by rewrite Hv).
    steps. rewrite (proj2 (Z.ltb_ge _ _)) by lia. step.
    eapply wp_mono; [eapply guard_timeout_ok; [exact Hs|by left|done|done]|].
    intros [] ? (t & -> & Ht). rewrite (SL_remove_head (altsleep_key s)) in Ht by by eapply st_sorted.
    set (s1 := with_alttree _ t (timed_out s g)).
    assert (∀ x, altsleep_key s1 x = altsleep_key s x) as Hk.
    { intros x. unfold altsleep_key, s1. simpl. by rewrite timed_out_guards. }
    eapply wp_mono; [apply (IH r fuel)|].
    + eapply st_ext; [|exact Ht]. intros x _. apply Hk.
    + eapply Forall_impl; [exact Hd|]. intros x. simpl. by rewrite Hk.
    + eapply Forall_impl; [exact Hr|]. intros x. simpl. by rewrite Hk.
    + eapply Forall_impl; [exact Hok|]. intros x Hx. by apply timed_out_guard_ok.
    + by apply timed_out_ok.
    + lia.
    + intros [] s' (n' & t' & -> & Hs'). exists n', t'. split; [|done]. simpl. unfold s1.
      generalize (timed_out s g). clear. induction d as [|x d IH]; intros s2; simpl; [done|].
      rewrite timed_out_tree. apply IH.
Qed.

(** ** The whole wake-up *)

(** The k-th time stamp. *)
Definition clock (k : nat) : Z :=
  let '(sec, usec) := timeofday k in u64 (u64 (u64 sec * 1000000) + u64 usec).

Definition tick (s : St T) : St T :=
  set_counts (S (n_time s)) (n_rand s) (n_malloc s) (n_switch s) s.

Lemma wp_gettimestamp (Q : Z → St T → Prop) s :
  Q (clock (n_time s)) (tick s) → wp gettimestamp Q s.
Proof.
  intros HQ. unfold gettimestamp, clock in *. step. apply wp_get. step. apply wp_modify.
  destruct (timeofday (n_time s)). by apply wp_ret.
Qed.

(** What the scheduler relies on between two context switches. *)
Record sched_ok (l gl : list loc) (s : St T) : Prop := {
  so_sleep : sleepers s l;
  so_altsleep : altsleepers s gl;
  so_num : (0 ≤ s_sleep_num (sched s) < U64)%Z;
  so_live : Forall (λ x, is_Some (procs s !! x)) l;
  so_unqueued : Forall (λ x, x ∉ s_readyQ (sched s)) l;
  so_guards : Forall (guard_ok s) gl;
  so_alt : altsched_ok s
}.

(** The store after the wake-up at time [now]; the two trees are described by
    [sleepers] and [altsleepers]. *)
Definition woken (now : Z) (l gl : list loc) (s : St T) : St T :=
  foldl timed_out (ready_all (due (sleep_key s) now l) s) (due (altsleep_key s) now gl).

Definition with_trees (n : Z) (t : T) (n' : Z) (t' : T) (s : St T) : St T :=
  set_sched (λ c, s_set_altsleep n' t' (s_set_sleep n t c)) s.

Lemma foldl_alter_lookup ps p : ∀ pm : gmap loc Proc,
  foldl (λ qm p, alter (p_set_state PROC_READY) p qm) pm ps !! p =
  (if decide (p ∈ ps) then p_set_state PROC_READY <$> (pm !! p) else pm !! p).
Proof.
  induction ps as [|q ps IH]; intros pm; simpl; [done|]. rewrite IH.
  destruct (decide (p = q)) as [->|].
  - rewrite lookup_alter_eq, (decide_True (P := q ∈ q :: ps)) by by left.
    case_decide; [|done]. by destruct (pm !! q).
  - rewrite lookup_alter_ne by done.
    destruct (decide (p ∈ ps)); [rewrite decide_True by by right|rewrite decide_False by set_solver]; done.
Qed.

Lemma altsched_ready_all ps s : can_ready ps s → altsched_ok s → altsched_ok (ready_all ps s).
Proof.
  intros Hc [Hu _]. split.
  - intros p w Hp Hst Hin. simpl in Hp, Hin. rewrite foldl_alter_lookup in Hp. case_decide.
    + apply fmap_Some in Hp as (? & _ & ->). done.
    + apply elem_of_app in Hin as [Hin|]; [|done]. by eapply Hu.
  - rewrite <-(app_nil_r ps) in Hc. apply can_ready_app in Hc as [_ (_ & _ & ?)]. done.
Qed.

Lemma guard_ok_ready_all ps s g : guard_ok s g → guard_ok (ready_all ps s) g.
Proof.
  intros [[[[al a] p] w] (v & Hv & Hal & Ha & Hap & Hp)%guard_of_inv].
  assert (is_Some (procs (ready_all ps s) !! p)) as [w' Hw'].
  { simpl. apply foldl_alter_is_Some. by eexists. }
  exists (al, a, p, w'). unfold guard_of.
  change (guards (ready_all ps s)) with (guards s). rewrite Hv. simpl. rewrite Hal. simpl.
  rewrite Ha. simpl. rewrite Hap. simpl in Hw' |- *. by rewrite Hw'.
Qed.

Lemma due_le key now l : Forall (λ x, key x ≤ now)%Z (due key now l).
Proof. apply Forall_forall. by intros x [? _]%list_elem_of_filter. Qed.
Lemma not_due_gt key now l : Forall (λ x, ¬ key x ≤ now)%Z (not_due key now l).
Proof. apply Forall_forall. by intros x [? _]%list_elem_of_filter. Qed.
Lemma due_sub key now l x : x ∈ due key now l → x ∈ l.
Proof. by intros [_ ?]%list_elem_of_filter. Qed.

Lemma due_can_ready l gl s now :
  sched_ok l gl s → can_ready (due (sleep_key s) now l) s.
Proof.
  intros [Hs _ _ Hlive Hunq _ [_ Hl]]. split_and!; [| |done].
  - apply NoDup_filter. by eapply key_sorted_nodup, st_sorted.
  - rewrite Forall_forall in *. intros x Hx%due_sub. auto.
Qed.

Lemma foldl_timed_out_sched ds : ∀ s,
  s_sleep_RB (sched (foldl timed_out s ds)) = s_sleep_RB (sched s) ∧
  guards (foldl timed_out s ds) = guards s ∧
  s_sleep_num (sched (foldl timed_out s ds)) = s_sleep_num (sched s).
Proof.
  induction ds as [|g ds IH]; intros s; simpl; [done|].
  destruct (IH (timed_out s g)) as (-> & -> & ->). rewrite timed_out_guards.
  split; [|split; [done|]]; unfold timed_out; by repeat case_match.
Qed.

Lemma foldl_timed_out_key ds x : ∀ s, sleep_key (foldl timed_out s ds) x = sleep_key s x.
Proof.
  induction ds as [|g ds IH]; intros s; simpl; [done|]. rewrite IH.
  unfold timed_out. repeat case_match; try done.
  etrans; [apply (sleep_key_ready [_])|done].
Qed.

Lemma foldl_timed_out_tree ds n t : ∀ s,
  foldl timed_out (with_alttree n t s) ds = with_alttree n t (foldl timed_out s ds).
Proof. induction ds as [|g ds IH]; intros s; simpl; [done|]. by rewrite timed_out_tree. Qed.

(** The same wake-up with the store's clock and sleep tree replaced. *)
Lemma timed_out_frame f s g :
  (∀ s, guard_of g (f s) = guard_of g s) →
  (∀ ps al a s, ready_all ps (set_alts <[al := a]> (f s)) = f (ready_all ps (set_alts <[al := a]> s))) →
  timed_out (f s) g = f (timed_out s g).
Proof.
  intros Hg Hf. unfold timed_out. rewrite Hg.
  destruct (guard_of g s) as [[[[? ?] ?] ?]|]; [|done]. repeat case_match; [done|apply Hf|done].
Qed.

Lemma foldl_timed_out_slept ds n t : ∀ s,
  foldl timed_out (slept_out n t (tick s)) ds = slept_out n t (tick (foldl timed_out s ds)).
Proof.
  induction ds as [|g ds IH]; intros s; simpl; [done|].
  rewrite (timed_out_frame (λ s, slept_out n t (tick s))) by done. apply IH.
Qed.

Definition set_time (k : nat) (s : St T) : St T :=
  set_counts k (n_rand s) (n_malloc s) (n_switch s) s.

(** [s'] is [s] after a wake-up at [now], which has left [l] and [gl] for later. *)
Definition woke (now : Z) (l gl : list loc) (s s' : St T) : Prop :=
  (∃ k n t n' t', s' = with_trees n t n' t' (set_time k (woken now l gl s))) ∧
  sleepers s' (not_due (sleep_key s) now l) ∧
  altsleepers s' (not_due (altsleep_key s) now gl) ∧
  (0 ≤ s_sleep_num (sched s') < U64)%Z.

Lemma due_length (key : loc → Z) now l {V} (m : gmap loc V) :
  key_sorted key l → Forall (λ x, is_Some (m !! x)) l → length (due key now l) < S (size m).
Proof.
  intros Hs Hl. apply Nat.lt_succ_r, nodes_size.
  - by apply NoDup_filter, key_sorted_nodup with key.
  - intros x Hx%due_sub. rewrite Forall_forall in Hl. auto.
Qed.

(** The two loops, when some tree is not empty. *)
Lemma wakeup_loops_ok l gl s :
  sched_ok l gl s →
  wp (now_us ← gettimestamp; n ← get (λ s, S (size (procs s))); wakeup_sleepers n now_us ;;
      m ← get (λ s, S (size (guards s))); wakeup_guards m now_us)
    (λ _ s', woke (clock (n_time s)) l gl s s') s.
Proof.
  intros Hok. pose proof Hok as [Hs Hgs Hnum Hlive Hunq Hgo Hinv]. set (now := clock (n_time s)).
  apply wp_bind. apply wp_gettimestamp. step. apply wp_get. step.
  assert (sched_ok l gl (tick s)) as Hok' by (by constructor).
  pose proof (st_sorted _ _ _ Hs) as Hsort. pose proof (st_sorted _ _ _ Hgs) as Hgsort.
  eapply wp_mono.
  { apply (wakeup_sleepers_ok now (due (sleep_key s) now l) (not_due (sleep_key s) now l));
      [by rewrite <-due_split|apply due_le|apply not_due_gt|by rewrite <-due_split|
       exact (due_can_ready l gl (tick s) now Hok')|done|by apply due_length]. }
  intros [] s1 (t & -> & Hs1). step. apply wp_get.
  set (dl := due (sleep_key s) now l) in *. set (s1 := slept_out _ _ _).
  eapply wp_mono.
  { apply (wakeup_guards_ok now (due (altsleep_key s) now gl) (not_due (altsleep_key s) now gl));
      [by rewrite <-due_split|apply due_le|apply not_due_gt|..].
    - rewrite <-due_split by done. eapply Forall_impl; [exact Hgo|].
      intros g Hg. by apply (guard_ok_ready_all dl s g).
    - apply (altsched_ready_all dl (tick s)); [exact (due_can_ready l gl (tick s) now Hok')|exact Hinv].
    - apply due_length; [done|]. eapply Forall_impl; [exact Hgo|].
      intros g [[[[al a] p] w] (v & Hv & _)%guard_of_inv]. simpl. by eexists. }
  intros [] s2 (n & t2 & -> & Hs2). split; [|split; [|split; [exact Hs2|]]].
  - set (w := woken now l gl s).
    exists (S (n_time w)), (u64 (s_sleep_num (sched w) - Z.of_nat (length dl))), t, n, t2.
    unfold s1. rewrite (foldl_timed_out_slept _ _ _ (ready_all dl s) :
      foldl timed_out (slept_out _ _ (ready_all dl (tick s))) _ = _). reflexivity.
  - unfold sleepers. cbn [with_alttree set_sched sched s_set_altsleep s_sleep_RB].
    destruct (foldl_timed_out_sched (due (altsleep_key s) now gl) s1) as (-> & _).
    eapply st_ext; [|exact Hs1]. intros x _.
    apply (foldl_timed_out_key (due (altsleep_key s) now gl) x s1).
  - cbn [with_alttree set_sched sched s_set_altsleep s_sleep_num].
    destruct (foldl_timed_out_sched (due (altsleep_key s) now gl) s1) as (_ & _ & ->). apply u64_range.
Qed.

Lemma wakeup_ok l gl s :
  sched_ok l gl s →
  wp _scheduler_wakeup (λ _ s', woke (clock (n_time s)) l gl s s') s.
Proof.
  intros Hok. pose proof (wakeup_loops_ok _ _ _ Hok) as Hmain. destruct Hok as [Hs Hgs Hnum _ _ _ _].
  unfold _scheduler_wakeup.
  apply wp_bind. eapply on_sleep_min; [exact Hs|]. apply wp_bind. eapply on_altsleep_min; [exact Hgs|].
  destruct l as [|p l]; [|exact Hmain]. destruct gl as [|g gl]; [|exact Hmain].
  apply wp_ret. split; [|split; [exact Hs|split; [exact Hgs|exact Hnum]]].
  exists (n_time s), (s_sleep_num (sched s)), (s_sleep_RB (sched s)),
    (s_altsleep_num (sched s)), (s_altsleep_RB (sched s)).
  unfold woken. simpl. rewrite ready_all_nil. by destruct s as [?????? []].
Qed.

Lemma timed_out_cases s g :
  timed_out s g = s ∨
  ∃ al a p w, guard_of g s = Some (al, a, p, w) ∧ p_state w = PROC_ALTWAIT ∧
    a_is_accepted a = false ∧
    timed_out s g = ready_all [p] (set_alts <[al := a_set_accepted true (Some g) a]> s).
Proof.
  unfold timed_out. destruct (guard_of g s) as [[[[al a] p] w]|] eqn:Hg; [|by left].
  case_decide; [|by left]. destruct (a_is_accepted a) eqn:Ha; [by left|].
  right. exists al, a, p, w. done.
Qed.

Lemma foldl_timed_out_readyQ ds : ∀ s,
  ∃ ps, s_readyQ (sched (foldl timed_out s ds)) = s_readyQ (sched s) ++ ps.
Proof.
  induction ds as [|g ds IH]; intros s; simpl; [exists []; by rewrite app_nil_r|].
  destruct (IH (timed_out s g)) as [ps ->].
  destruct (timed_out_cases s g) as [->|(al & a & p & w & _ & _ & _ & ->)]; [by eexists|].
  exists (p :: ps). simpl. by rewrite <-app_assoc.
Qed.

Lemma foldl_timed_out_other ds x v : ∀ s,
  procs s !! x = Some v → p_state v ≠ PROC_ALTWAIT →
  procs (foldl timed_out s ds) !! x = Some v.
Proof.
  induction ds as [|g ds IH]; intros s Hx Hst; simpl; [done|].
  apply IH; [|done]. destruct (timed_out_cases s g) as [->|(al & a & p & w & Hg & Hw & _ & ->)]; [done|].
  simpl. apply guard_of_inv in Hg as (u & _ & _ & _ & _ & Hp).
  rewrite lookup_alter_ne; [done|]. intros ->. congruence.
Qed.

(** ** The alternative of a timed-out guard *)

Section alt_wins.
Context (al : loc) (a : Alt) (p : loc) (w : Proc) (g : loc).

Definition still_open (s : St T) : Prop :=
  alts s !! al = Some a ∧ procs s !! p = Some w ∧ p ∉ s_readyQ (sched s).

Definition won (s : St T) : Prop :=
  alts s !! al = Some (a_set_accepted true (Some g) a) ∧
  (p_state <$> procs s !! p) = Some PROC_READY ∧
  ∃ q1 q2, s_readyQ (sched s) = q1 ++ p :: q2 ∧ p ∉ q1 ∧ p ∉ q2.

Lemma still_open_step s g' :
  still_open s →
  (∀ al' a' p' w', guard_of g' s = Some (al', a', p', w') → al' ≠ al ∧ p' ≠ p) →
  still_open (timed_out s g').
Proof.
  intros (Ha & Hp & Hn) Hother.
  destruct (timed_out_cases s g') as [->|(al' & a' & p' & w' & Hg & _ & _ & ->)]; [done|].
  destruct (Hother _ _ _ _ Hg) as [Hal Hp']. split_and!; simpl.
  - by rewrite lookup_insert_ne.
  - by rewrite lookup_alter_ne.
  - set_solver.
Qed.

Lemma won_step s g' : won s → won (timed_out s g').
Proof.
  intros (Ha & Hp & q1 & q2 & Hq & H1 & H2).
  destruct (timed_out_cases s g') as [->|(al' & a' & p' & w' & Hg & Hw & Hacc & ->)].
  { split_and!; eauto. }
  apply guard_of_inv in Hg as (v & _ & _ & Ha' & _ & Hp').
  assert (al' ≠ al) by (intros ->; rewrite Ha in Ha'; by simplify_eq/=).
  assert (p' ≠ p) by (intros ->; rewrite Hp' in Hp; simplify_eq/=; congruence).
  split_and!; simpl.
  - by rewrite lookup_insert_ne.
  - by rewrite lookup_alter_ne.
  - exists q1, (q2 ++ [p']). rewrite Hq, <-app_assoc. set_solver.
Qed.

Lemma won_now s :
  still_open s → guard_of g s = Some (al, a, p, w) → p_state w = PROC_ALTWAIT →
  a_is_accepted a = false → won (timed_out s g).
Proof.
  intros (Ha & Hp & Hn) Hg Hst Hacc. unfold timed_out. rewrite Hg, decide_True, Hacc by done.
  split_and!; simpl.
  - by rewrite lookup_insert_eq.
  - by rewrite lookup_alter_eq, Hp.
  - exists (s_readyQ (sched s)), []. set_solver.
Qed.

Lemma won_foldl ds : ∀ s, won s → won (foldl timed_out s ds).
Proof. induction ds as [|g' ds IH]; intros s Hw; [done|]. by apply IH, won_step. Qed.

(** The other guards belong to other ALTs of other processes. *)
Definition elsewhere (s : St T) (g' : loc) : Prop :=
  ∃ v al' a' p', guards s !! g' = Some v ∧ g_alt v = Some al' ∧ alts s !! al' = Some a' ∧
    a_proc a' = Some p' ∧ al' ≠ al ∧ p' ≠ p.

Lemma elsewhere_step s g1 g' : elsewhere s g' → elsewhere (timed_out s g1) g'.
Proof.
  intros (v & al' & a' & p' & Hv & Hal & Ha & Hp & ? & ?).
  destruct (timed_out_alts s g1 al' a' Ha) as (a2 & Ha2 & Hp2).
  exists v, al', a2, p'. rewrite timed_out_guards. split_and!; try done. congruence.
Qed.

Lemma open_foldl ds : ∀ s,
  still_open s → Forall (elsewhere s) ds → still_open (foldl timed_out s ds).
Proof.
  induction ds as [|g' ds IH]; intros s Hs Hds; [done|]. simpl.
  apply Forall_cons in Hds as [(v & al1 & a1 & p1 & Hv & Hal & Ha & Hp & ? & ?) Hds].
  apply IH.
  - apply still_open_step; [done|].
    intros al' a' p' w' (v' & ? & ? & ? & ? & ?)%guard_of_inv. simplify_eq. done.
  - eapply Forall_impl; [exact Hds|]. intros x. apply elsewhere_step.
Qed.
End alt_wins.

(** ** Properties *)

(** C11: a wake-up (_scheduler_wakeup) makes ready exactly the sleepers whose
    deadline has passed, earliest deadline first and behind whatever was ready
    before, and leaves the others, processes and guards, in their trees in order. *)
Theorem wakeup_exact l gl s :
  sched_ok l gl s →
  wp _scheduler_wakeup (λ _ s',
    let now := clock (n_time s) in
    sleepers s' (not_due (sleep_key s) now l) ∧
    altsleepers s' (not_due (altsleep_key s) now gl) ∧
    (∃ alts, s_readyQ (sched s') = s_readyQ (sched s) ++ due (sleep_key s) now l ++ alts) ∧
    (∀ p v, procs s !! p = Some v →
       (p ∈ due (sleep_key s) now l → procs s' !! p = Some (p_set_state PROC_READY v)) ∧
       (p ∉ due (sleep_key s) now l → p_state v ≠ PROC_ALTWAIT → procs s' !! p = Some v))) s.
Proof.
  intros Hok. eapply wp_mono; [by eapply wakeup_ok|].
  intros [] s' ((k & n & t & n' & t' & ->) & Hs & Hg & _). cbv zeta. split_and!; [done|done| |].
  - destruct (foldl_timed_out_readyQ (due (altsleep_key s) (clock (n_time s)) gl)
      (ready_all (due (sleep_key s) (clock (n_time s)) l) s)) as [ps Hps].
    exists ps. simpl. unfold woken. rewrite Hps. simpl. by rewrite app_assoc.
  - intros p v Hv. simpl. unfold woken. split.
    + intros Hp. apply foldl_timed_out_other; [|done].
      simpl. by rewrite foldl_alter_lookup, decide_True, Hv.
    + intros Hp Hst. apply foldl_timed_out_other; [|done].
      simpl. by rewrite foldl_alter_lookup, decide_False.
Qed.

(** C12: when guards of an open ALT time out, the one with the earliest deadline wins
    it, and its process is made ready exactly once, whatever else times out. *)
Theorem alt_timeout_first_wins l gl s al a p w g d1 d2 :
  sched_ok l gl s →
  due (altsleep_key s) (clock (n_time s)) gl = d1 ++ g :: d2 →
  guard_of g s = Some (al, a, p, w) → p_state w = PROC_ALTWAIT → a_is_accepted a = false →
  p ∉ l → Forall (elsewhere al p s) d1 →
  wp _scheduler_wakeup (λ _ s',
    alts s' !! al = Some (a_set_accepted true (Some g) a) ∧
    (p_state <$> procs s' !! p) = Some PROC_READY ∧
    ∃ q1 q2, s_readyQ (sched s') = q1 ++ p :: q2 ∧ p ∉ q1 ∧ p ∉ q2) s.
Proof.
  intros Hok Hd Hg Hst Hacc Hpl Hd1. eapply wp_mono; [by eapply wakeup_ok|].
  intros [] s' ((k & n & t & n' & t' & ->) & _ & _). simpl.
  change (won al a p g (woken (clock (n_time s)) l gl s)).
  pose proof (guard_of_inv _ _ _ _ _ _ Hg) as (v & Hv & Hal & Ha & Hap & Hp).
  unfold woken. rewrite Hd, foldl_app. simpl.
  set (ds := due (sleep_key s) (clock (n_time s)) l).
  assert (p ∉ ds) as Hpds by (intros ?%due_sub; done).
  assert (still_open al a p w (ready_all ds s)) as Hopen.
  { destruct Hok as [_ _ _ _ _ _ [Hu _]]. split_and!; [done| |].
    - simpl. by rewrite foldl_alter_lookup, decide_False.
    - simpl. specialize (Hu _ _ Hp Hst). set_solver. }
  assert (still_open al a p w (foldl timed_out (ready_all ds s) d1)) as Hopen'.
  { apply open_foldl; [done|]. exact Hd1. }
  apply won_foldl, (won_now al a p w); [done| |done|done].
  destruct Hopen' as (Ha' & Hp' & _). unfold guard_of.
  destruct (foldl_timed_out_sched d1 (ready_all ds s)) as (_ & -> & _). cbn [guards ready_all set_sched set_procs].
  rewrite Hv. simpl. rewrite Hal. simpl. rewrite Ha'. simpl. rewrite Hap. simpl. by rewrite Hp'.
Qed.

(** ** One turn of the loop *)

Lemma foldl_timed_out_nodup ds : ∀ s,
  altsched_ok s → NoDup (s_readyQ (sched s)) →
  altsched_ok (foldl timed_out s ds) ∧ NoDup (s_readyQ (sched (foldl timed_out s ds))).
Proof.
  induction ds as [|g ds IH]; intros s Hok Hnd; [done|]. simpl.
  apply IH; [by apply timed_out_ok|].
  destruct (timed_out_cases s g) as [->|(al & a & p & w & Hg & Hw & _ & ->)]; [done|].
  apply guard_of_inv in Hg as (v & _ & _ & _ & _ & Hp). simpl.
  apply NoDup_app. split_and!; [done| |apply NoDup_singleton].
  intros x Hx ->%list_elem_of_singleton. destruct Hok as [Hu _]. by eapply Hu.
Qed.

Lemma woken_ready_ok now l gl s :
  sched_ok l gl s → NoDup (s_readyQ (sched s)) →
  altsched_ok (woken now l gl s) ∧ NoDup (s_readyQ (sched (woken now l gl s))).
Proof.
  intros Hok Hnd. unfold woken. pose proof (due_can_ready _ _ _ now Hok) as Hc.
  destruct Hok as [Hs _ _ _ Hunq _ Halt].
  apply foldl_timed_out_nodup; [by apply altsched_ready_all|]. simpl.
  apply NoDup_app. split_and!; [done| |apply Hc].
  intros x Hx Hd%due_sub. rewrite Forall_forall in Hunq. by eapply Hunq.
Qed.

Lemma wp_checkQs_ready s p q (Q : () → St T → Prop) :
  s_readyQ (sched s) = p :: q → Q () s → wp _scheduler_checkQs Q s.
Proof. intros Hq HQ. unfold _scheduler_checkQs. step. step. rewrite Hq. by apply wp_ret. Qed.

(** the ready queue is served first come, first served: the process that has
    been ready the longest runs next, what the wake-up adds goes behind the others,
    and the chosen one is in the queue no more. *)
Theorem pick_round_robin l gl s p q :
  sched_ok l gl s → s_readyQ (sched s) = p :: q → NoDup (p :: q) → is_Some (procs s !! p) →
  wp scheduler_pick (λ o s',
    o = Some p ∧ s_curr_proc (sched s') = Some p ∧
    (p_state <$> procs s' !! p) = Some PROC_RUNNING ∧
    (∃ new, s_readyQ (sched s') = q ++ new) ∧
    NoDup (s_readyQ (sched s')) ∧ p ∉ s_readyQ (sched s')) s.
Proof.
  intros Hok Hq Hnd [v Hv]. unfold scheduler_pick. apply wp_bind.
  eapply wp_checkQs_ready; [done|]. apply wp_bind.
  eapply wp_mono; [by eapply wakeup_ok|].
  intros [] s' ((k & n & t & n' & t' & ->) & _ & _).
  set (w := woken _ l gl s).
  destruct (woken_ready_ok (clock (n_time s)) l gl s Hok) as [[_ Hlive] HndW]; [by rewrite Hq|].
  fold w in Hlive, HndW.
  assert (∃ new, s_readyQ (sched w) = p :: q ++ new) as [new Hnew].
  { destruct (foldl_timed_out_readyQ (due (altsleep_key s) (clock (n_time s)) gl)
      (ready_all (due (sleep_key s) (clock (n_time s)) l) s)) as [ps Hps].
    exists (due (sleep_key s) (clock (n_time s)) l ++ ps). unfold w, woken. rewrite Hps.
    simpl. rewrite Hq. simpl. by rewrite <-app_assoc. }
  rewrite Hnew in HndW. apply NoDup_cons in HndW as [Hpn HndW].
  unfold ready_live in Hlive. rewrite Hnew in Hlive.
  pose proof Hlive as [[u Hu] _]%Forall_cons.
  step. step. cbn [with_trees set_sched sched s_set_altsleep s_set_sleep s_readyQ set_time set_counts].
  rewrite Hnew. step. apply wp_get. step. apply wp_REMOVE; [by left| |].
  { by apply Forall_live. }
  rewrite Q_without_head by done. steps.
  split_and!; [done|done|by simpl; rewrite lookup_insert_eq|by exists new|done|done].
Qed.

(** The first deadline of the two trees; 0 when both are empty. *)
Definition earliest (s : St T) (l gl : list loc) : Z :=
  match head l, head gl with
  | None, None => 0
  | Some p, None => sleep_key s p
  | None, Some g => altsleep_key s g
  | Some p, Some g => Z.min (sleep_key s p) (altsleep_key s g)
  end.

Lemma min_deadline_ok l gl s (Q : Z → St T → Prop) :
  sleepers s l → altsleepers s gl →
  Forall (λ p, is_Some (procs s !! p) ∧ 0 < sleep_key s p)%Z l →
  Forall (λ g, is_Some (guards s !! g) ∧ 0 < altsleep_key s g)%Z gl →
  Q (earliest s l gl) s → wp min_deadline Q s.
Proof.
  intros Hs Hg Hl Hgl HQ. unfold min_deadline, earliest in *.
  apply wp_bind. eapply on_sleep_min; [exact Hs|].
  apply wp_bind. eapply (wp_mono _ (λ m s', m = from_option (sleep_key s) 0%Z (head l) ∧ s' = s)).
  { destruct l as [|p l]; simpl; [by apply wp_ret|].
    apply Forall_cons in Hl as [[[v Hv] _] _]. steps. unfold sleep_key. by rewrite Hv. }
  intros m ? [-> ->]. apply wp_bind. eapply on_altsleep_min; [exact Hg|].
  destruct gl as [|g gl]; simpl; [apply wp_ret; by destruct l|].
  apply Forall_cons in Hgl as [[[v Hv] Hpos] _].
  assert (altsleep_key s g = g_usec v) as Hk by (unfold altsleep_key; by rewrite Hv).
  steps. destruct l as [|p l]; simpl in HQ |- *; rewrite Hk in HQ; [done|].
  apply Forall_cons in Hl as [[_ Hp] _]. rewrite (proj2 (Z.eqb_neq _ _)) by lia. simpl.
  destruct (Z.ltb_spec (g_usec v) (sleep_key s p)); [rewrite Z.min_r in HQ by lia|rewrite Z.min_l in HQ by lia]; done.
Qed.

(** C24: with no process ready, _scheduler_checkQs sleeps until the earliest deadline
    of both trees, and not at all when that has passed or there is none.  (usleep
    takes 32 bits: a longer wait is cut, and the loop comes back.) *)
Theorem idle_sleeps_until_deadline l gl s :
  s_readyQ (sched s) = [] → sleepers s l → altsleepers s gl →
  Forall (λ p, is_Some (procs s !! p) ∧ 0 < sleep_key s p)%Z l →
  Forall (λ g, is_Some (guards s !! g) ∧ 0 < altsleep_key s g)%Z gl →
  wp _scheduler_checkQs (λ _ s',
    let wait := (earliest s l gl - clock (n_time s))%Z in
    if decide (l = [] ∧ gl = []) then s' = s
    else slept s' = slept s ++ (if (0 <? wait)%Z then [(wait `mod` 2 ^ 32)%Z] else []) ∧
         n_time s' = S (n_time s) ∧ sched s' = sched s ∧ procs s' = procs s) s.
Proof.
  intros Hq Hs Hg Hl Hgl. unfold _scheduler_checkQs. step. step. rewrite Hq. step.
  eapply min_deadline_ok; [done..|]. cbv zeta.
  case_decide as Hnil.
  { destruct Hnil as [-> ->]. simpl. by apply wp_ret. }
  assert (0 < earliest s l gl)%Z as Hpos.
  { unfold earliest. destruct l as [|p l], gl as [|g gl]; simpl; [naive_solver|..].
    - by apply Forall_cons in Hgl as [[_ ?] _].
    - by apply Forall_cons in Hl as [[_ ?] _].
    - apply Forall_cons in Hl as [[_ ?] _]. apply Forall_cons in Hgl as [[_ ?] _]. lia. }
  rewrite (proj2 (Z.ltb_lt _ _)) by done. simpl when. step. apply wp_gettimestamp.
  destruct (Z.ltb_spec (clock (n_time s)) (earliest s l gl)).
  - rewrite (proj2 (Z.ltb_lt 0 _)) by lia. apply wp_modify. by split_and!.
  - rewrite (proj2 (Z.ltb_ge 0 _)) by lia. apply wp_ret. rewrite app_nil_r. by split_and!.
Qed.

(** ** After the switch back *)

(** The process did not run off its stack, and madvise does not fail (or its
    assertion is compiled out). *)
Definition stack_fits (v : Proc) (s : St T) : Prop :=
  (0 ≤ stack_depth (n_switch s) ≤ p_stack_size v)%Z ∧
  (madvise_ret (n_switch s) = 0%Z ∨ NDEBUG = true).

Lemma madvise_ok p v s :
  procs s !! p = Some v → stack_fits v s →
  wp (ctx_madvise (Some p)) (λ _ s', ∃ u,
    s' = set_procs <[p := p_set_used u v]>
           (set_counts (n_time s) (n_rand s) (n_malloc s) (S (n_switch s)) s)) s.
Proof.
  intros Hv [Hfit Hret]. unfold ctx_madvise, saved_sp. steps.
  rewrite (proj2 (Z.ltb_ge _ _)) by lia. steps. apply wp_when; intros _.
  - apply wp_ASSERT_ndebug; [destruct Hret as [->|]; auto|]. steps. by eexists.
  - steps. by eexists.
Qed.

(** The build tree of an ended process: the tree before and after its end, what the
    end starts, and the process that waits for the tree. *)
Definition tree_end : Type := btree * btree * list loc * option loc.

(** What the end makes ready: what the tree starts, and when the tree is done the
    process that waits for it. *)
Definition woken_by (e : option tree_end) : list loc :=
  match e with
  | None => []
  | Some (t, t', st, rp) => st ++ if done t' then option_list rp else []
  end.

(** The process [v] at [p] is a running leaf of a started tree, or of none. *)
Definition ends_in (p : loc) (v : Proc) (e : option tree_end) (s : St T) : Prop :=
  match p_proc_build v, e with
  | None, None => True
  | Some b, Some (t, t', st, rp) => CspSpec.running t rp s ∧ complete b t = Some (t', st)
  | _, _ => False
  end ∧ can_ready (woken_by e) s ∧ p ∉ woken_by e.

(** The builders afterwards: a tree that is done is freed, another one has advanced. *)
Definition tree_left (e : option tree_end) (s s' : St T) : Prop :=
  match e with
  | None => builds s' = builds s
  | Some (t, t', _, rp) =>
      if done t' then ∀ x, builds s' !! x = if decide (x ∈ nodes t) then None else builds s !! x
      else CspSpec.running t' rp s' ∧ ∀ x, x ∉ nodes t → builds s' !! x = builds s !! x
  end.

(** What the end of [p] leaves. *)
Definition left_by (p : loc) (e : option tree_end) (s s' : St T) : Prop :=
  procs s' !! p = None ∧
  s_readyQ (sched s') = s_readyQ (sched s) ++ woken_by e ∧
  Forall (λ x, p_state <$> procs s' !! x = Some PROC_READY) (woken_by e) ∧
  s_totalQ (sched s') = Q.without (s_totalQ (sched s)) p ∧
  tree_left e s s'.

Lemma ready_all_left ps p e s s' :
  woken_by e = ps → procs s' = delete p (procs (ready_all ps s)) → p ∉ ps → can_ready ps s →
  s_readyQ (sched s') = s_readyQ (sched s) ++ ps →
  s_totalQ (sched s') = Q.without (s_totalQ (sched s)) p → tree_left e s s' → left_by p e s s'.
Proof.
  intros Hps Hp Hnp (_ & Hl & _) Hq Ht Htr. unfold left_by. rewrite Hp, Hps.
  split; [apply lookup_delete_eq|]. split_and!; try done.
  rewrite Forall_forall in *. intros x Hx. rewrite lookup_delete_ne by (by intros ->).
  simpl. rewrite foldl_alter_lookup, decide_True by done. by destruct (Hl x Hx) as [[v ->] _].
Qed.

Lemma proc_free_left p v e s :
  procs s !! p = Some v → p ∈ s_totalQ (sched s) →
  Forall (λ x, is_Some (procs s !! x)) (s_totalQ (sched s)) → ends_in p v e s →
  wp (proc_free (Some p)) (λ _ s', left_by p e s s' ∧
    s_curr_proc (sched s') = s_curr_proc (sched s) ∧ s_is_exit (sched s') = s_is_exit (sched s)) s.
Proof.
  intros Hv Ht Htl (Htree & Hcan & Hp). unfold proc_free. steps. apply wp_REMOVE; [done|by apply Forall_live|].
  steps. destruct (p_proc_build v) as [b|] eqn:Hb; destruct e as [[[[t t'] st] rp]|]; try done.
  - destruct Htree as [Hrun Hc]. set (s1 := set_sched _ s).
    pose proof (process_end_ok b t t' st rp s1 Hrun Hc Hcan) as Hend. fold (process_end (T := T) b).
    eapply wp_mono; [exact Hend|]. intros [] s2 Hout. unfold tree_outcome in Hout.
    assert (∃ m, s2 = set_builds (λ _, m) (ready_all (woken_by (Some (t, t', st, rp))) s1) ∧
      tree_left (Some (t, t', st, rp)) s (set_procs (delete p) s2)) as (m & -> & Hleft).
    { simpl. destruct (done t') eqn:Hd.
      - by destruct Hout as (m & -> & Hm); exists m.
      - pose proof (running_advanced t t' rp st s1 _ b Hrun Hc Hout) as Hrun'.
        destruct Hout as (m & -> & Hr & Hm). exists m. rewrite app_nil_r. by split. }
    assert (is_Some (procs (ready_all (woken_by (Some (t, t', st, rp))) s1) !! p)) as [w Hw].
    { simpl. apply foldl_alter_is_Some. by eexists. }
    unfold free_stack, free_proc. steps. split; [|done].
    by eapply (ready_all_left (woken_by (Some (t, t', st, rp)))).
  - unfold free_stack, free_proc. steps. split; [|done].
    eapply (ready_all_left []); try done. simpl. by rewrite app_nil_r.
Qed.

(** C23: what becomes of a process that switched back (the second half of the loop of
    scheduler_run) depends on the state it left: a running or ready one goes to the
    end of the ready queue, one that waits (channel, RUN, ALT, sleep) stays out of
    it, and an ended one is freed, taken off totalQ, and ends the program iff it is
    the main process; when it belongs to a started tree the tree advances, what its
    end starts is queued in order, and the last one frees the tree and wakes the
    process in RUN.  (The process has stayed on its stack and madvise succeeds, or
    its assertion is compiled out: otherwise the program stops, C37.) *)
Theorem switched_dispatch p v e s :
  s_curr_proc (sched s) = Some p → procs s !! p = Some v → stack_fits v s →
  p ∉ s_readyQ (sched s) → ready_live s →
  p ∈ s_totalQ (sched s) → Forall (λ x, is_Some (procs s !! x)) (s_totalQ (sched s)) →
  (p_state v = PROC_ENDED → ends_in p v e s) →
  wp scheduler_switched (λ _ s',
    s_curr_proc (sched s') = None ∧
    match p_state v with
    | PROC_RUNNING | PROC_READY =>
        s_readyQ (sched s') = s_readyQ (sched s) ++ [p] ∧
        (p_state <$> procs s' !! p) = Some PROC_READY
    | PROC_ENDED => left_by p e s s' ∧
        s_is_exit (sched s') =
          (s_is_exit (sched s) || bool_decide (s_main_proc (sched s) = Some p))
    | st => s_readyQ (sched s') = s_readyQ (sched s) ∧
        (p_state <$> procs s' !! p) = Some st
    end) s.
Proof.
  intros Hc Hv Hfit Hn Hl Ht Htl Hend. unfold scheduler_switched. step. step. rewrite Hc. step.
  eapply wp_mono; [by eapply madvise_ok|]. intros o ? [u ->]. step.
  eapply wp_deref; [done|]. step. eapply wp_getp; [simpl; by rewrite lookup_insert_eq|].
  set (v1 := p_set_used u v). set (s1 := set_procs _ _).
  assert (procs s1 !! p = Some v1) as Hv1 by (simpl; by rewrite lookup_insert_eq).
  assert (ready_live s1) as Hl1 by (by apply Forall_is_Some_insert).
  assert (wp (scheduler_addready (Some p) ;; mods (s_set_curr None)) (λ _ s',
    s_curr_proc (sched s') = None ∧ s_readyQ (sched s') = s_readyQ (sched s) ++ [p] ∧
    (p_state <$> procs s' !! p) = Some PROC_READY) s1) as Hready.
  { apply wp_bind. eapply wp_mono; [by eapply addready_ok|]. intros [] ? ->. apply wp_mods.
    simpl. by rewrite lookup_insert_eq. }
  assert (∀ st, p_state v = st → wp (mret () ;; mods (s_set_curr None)) (λ _ s',
    s_curr_proc (sched s') = None ∧ s_readyQ (sched s') = s_readyQ (sched s) ∧
    (p_state <$> procs s' !! p) = Some st) s1) as Hwait.
  { intros st Hst. steps. simpl. by rewrite lookup_insert_eq, <-Hst. }
  change (p_state v1) with (p_state v). destruct (p_state v) eqn:Hst; try (by apply Hwait);
    try exact Hready.
  destruct (Hend eq_refl) as (Htree & (Hc1 & Hc2 & Hc3) & Hp).
  step. step. step. eapply wp_mono.
  { eapply (proc_free_left p v1 e); [done|done|by apply Forall_is_Some_insert|].
    split; [exact Htree|]. split; [|exact Hp]. split; [exact Hc1|]. split; [|exact Hl1].
    eapply Forall_impl; [exact Hc2|]. intros x [? ?]. split; [|done]. simpl. by apply is_Some_insert. }
  intros [] s2 (Hleft & _ & Hx). steps. split; [done|]. split; [exact Hleft|].
  simpl. rewrite Hx. simpl. f_equal. apply bool_decide_ext. split; congruence.
Qed.

(** a program in which nothing is ready and nothing sleeps never stops by
    itself: a turn of the scheduler loop changes nothing (a deadlock of processes
    waiting for one another makes scheduler_run spin). *)
Theorem deadlock_spins s :
  s_readyQ (sched s) = [] → sleepers s [] → altsleepers s [] →
  scheduler_pick s = Ok None s.
Proof.
  intros Hq Hs Hg.
  assert (wp scheduler_pick (λ o s', o = None ∧ s' = s) s) as (? & ? & ? & -> & ->)%wp_ok; [|done].
  unfold scheduler_pick, _scheduler_checkQs. step. step. step. rewrite Hq. step.
  eapply (min_deadline_ok [] []); [done|done|constructor|constructor|].
  simpl. apply wp_ret. unfold _scheduler_wakeup. step.
  step. eapply on_sleep_min; [exact Hs|]. step. eapply on_altsleep_min; [exact Hg|].
  simpl. apply wp_ret. step. step. rewrite Hq. by apply wp_ret.
Qed.
End sched_spec.

(** ** Witnesses *)

(** Ready: 1, 2; asleep: 3 until 500, 4 until 5000; process 6 waits in the ALT 9 of
    the time guards 5 (until 900) and 7 (until 950).  The clock stands at 1000. *)
Definition demo_alt : Alt := MkAlt 2 false None None 2 [5; 7]%positive None None (Some 6%positive).

Definition demo_sched : St (list loc) :=
  MkSt
    (<[1%positive := demo_proc PROC_READY]> $ <[2%positive := demo_proc PROC_READY]> $
     <[3%positive := p_set_sleep 500 (demo_proc PROC_SLEEPING)]> $
     <[4%positive := p_set_sleep 5000 (demo_proc PROC_SLEEPING)]> $
     <[6%positive := demo_proc PROC_ALTWAIT]> ∅) ∅ ∅
    (<[5%positive := MkGuard GUARD_TIME 0 (Some 9%positive) 900 None 15 0 0 false]> $
     <[7%positive := MkGuard GUARD_TIME 1 (Some 9%positive) 950 None 17 0 0 false]> ∅)
    (<[9%positive := demo_alt]> ∅) ∅
    (MkSched 8192 4096 false (Some 1%positive) None [1; 2; 3; 4; 6]%positive [1; 2]%positive
       2 [3; 4]%positive 2 [5; 7]%positive)
    ∅ 100 0 0 0 0 [] 0.

Ltac sorted2 :=
  split; [done|]; repeat (apply key_sorted_cons; split);
  [constructor|by intros ? ?%not_elem_of_nil|by intros ? ->%list_elem_of_singleton].

Lemma demo_altwait (q : list loc) :
  forallb (λ kv, negb (bool_decide (p_state kv.2 = PROC_ALTWAIT)) || bool_decide (kv.1 ∉ q))
    (map_to_list (procs demo_sched)) = true →
  ∀ p w, procs demo_sched !! p = Some w → p_state w = PROC_ALTWAIT → p ∉ q.
Proof.
  intros H p w Hp%elem_of_map_to_list%list_elem_of_In Hst.
  pose proof (proj1 (forallb_forall _ _) H _ Hp) as Hx. simpl in Hx.
  rewrite bool_decide_true in Hx by done. by apply bool_decide_eq_true in Hx.
Qed.

Lemma demo_sched_ok : sched_ok [3; 4]%positive [5; 7]%positive demo_sched.
Proof.
  split; [sorted2|sorted2|done|..].
  - repeat constructor; by eexists.
  - by apply (bool_decide_unpack _).
  - repeat constructor; by eexists.
  - split; [|repeat constructor; by eexists].
    intros p w Hp Hst. by eapply demo_altwait.
Qed.

Lemma wakeup_exact_witness :
  wp (_scheduler_wakeup (E := demo_env)) (λ _ s',
    sleepers s' [4%positive] ∧ altsleepers s' [] ∧
    ∃ alts, s_readyQ (sched s') = [1; 2; 3]%positive ++ alts) demo_sched.
Proof.
  eapply wp_mono; [exact (wakeup_exact (E := demo_env) [3; 4]%positive [5; 7]%positive demo_sched demo_sched_ok)|].
  intros [] s' (Hs & Hg & Hq & _). split; [exact Hs|]. split; [exact Hg|]. exact Hq.
Defined.

Lemma alt_timeout_first_wins_witness :
  wp (_scheduler_wakeup (E := demo_env)) (λ _ s',
    alts s' !! 9%positive = Some (a_set_accepted true (Some 5%positive) demo_alt) ∧
    (p_state <$> procs s' !! 6%positive) = Some PROC_READY ∧
    ∃ q1 q2, s_readyQ (sched s') = q1 ++ 6%positive :: q2 ∧ 6%positive ∉ q1 ∧ 6%positive ∉ q2) demo_sched.
Proof.
  apply (alt_timeout_first_wins (E := demo_env) [3; 4]%positive [5; 7]%positive demo_sched
    9 demo_alt 6 (demo_proc PROC_ALTWAIT) 5 [] [7%positive] demo_sched_ok);
    try reflexivity; [by apply (bool_decide_unpack _)|constructor].
Defined.

Lemma pick_round_robin_witness :
  wp (scheduler_pick (E := demo_env)) (λ o s',
    o = Some 1%positive ∧ s_curr_proc (sched s') = Some 1%positive ∧
    (p_state <$> procs s' !! 1%positive) = Some PROC_RUNNING ∧
    (∃ new, s_readyQ (sched s') = [2%positive] ++ new) ∧
    NoDup (s_readyQ (sched s')) ∧ 1%positive ∉ s_readyQ (sched s')) demo_sched.
Proof.
  apply (pick_round_robin (E := demo_env) [3; 4]%positive [5; 7]%positive demo_sched
    1 [2%positive] demo_sched_ok); [reflexivity|by apply (bool_decide_unpack _)|by eexists].
Defined.

(** The same store with nothing ready. *)
Definition demo_idle : St (list loc) := set_sched (s_set_readyQ []) demo_sched.

Lemma idle_sleeps_until_deadline_witness :
  wp (_scheduler_checkQs (E := ndebug_env)) (λ _ s',
    slept s' = [500%Z] ∧ n_time s' = 1 ∧ sched s' = sched demo_idle ∧ procs s' = procs demo_idle)
    demo_idle.
Proof.
  apply (idle_sleeps_until_deadline (E := ndebug_env) [3; 4]%positive [5; 7]%positive demo_idle);
    [reflexivity|sorted2|sorted2|..]; repeat constructor; by eexists.
Defined.

(** Process 1 of SEQ(PROC 1, PAR(PROC 2, PROC 3)) has ended; process 4 waits in RUN. *)
Definition demo_switched : St rb_tree :=
  set_sched (s_set_totalQ [1; 2; 3; 4]%positive)
    (set_procs <[1%positive := p_set_build (Some 11%positive) (demo_proc PROC_ENDED)]>
       (demo_state demo_procs demo_builds (Some 1%positive))).

Definition demo_end : tree_end :=
  (demo_tree, Seq 10 [Leaf 11 1 true; Par 12 [Leaf 13 2 false; Leaf 14 3 false]],
   [2; 3]%positive, Some 4%positive).

Lemma switched_dispatch_witness :
  wp (scheduler_switched (E := demo_env)) (λ _ s',
    s_curr_proc (sched s') = None ∧ left_by 1 (Some demo_end) demo_switched s' ∧
    s_is_exit (sched s') = false) demo_switched.
Proof.
  apply (switched_dispatch (E := demo_env) 1 (p_set_build (Some 11%positive) (demo_proc PROC_ENDED))
    (Some demo_end) demo_switched); try reflexivity; try (by apply (bool_decide_unpack _));
    [repeat constructor; by eexists..|].
  intros _. split; [split; [apply demo_tree_running|reflexivity]|].
  split; [split; [by apply (bool_decide_unpack _)|split; [|constructor]]|by apply (bool_decide_unpack _)].
  repeat constructor; first [by eexists|by apply (bool_decide_unpack _)].
Defined.

Definition demo_procs0 : gmap loc Proc := <[1%positive := demo_proc PROC_CHANWAIT]> ∅.

Lemma deadlock_spins_witness :
  scheduler_pick (E := demo_env) (demo_state demo_procs0 ∅ None) = Ok None (demo_state demo_procs0 ∅ None).
Proof.
  apply (deadlock_spins (E := demo_env)); [reflexivity|apply (@st_init_ok rb_tree rb_SleepTree)..].
Defined.
