(* ===== verification/Proxc.v ===== *)
(** * The public interface: proxc.c and the macros of proxc.h *)
From stdpp Require Import base tactics list gmap.
From Stdlib Require Import ZArith Lia.
From S2P Require Import Prelude Tailq Rbtree RbInsert RbSpec State SchedOps Csp Proc.
From S2P Require Import AltCore Chan Alt Context Sched.

(** The durations of proxc.h, in microseconds: [USEC(usec)], [MSEC(msec)], [SEC(sec)]. *)
Definition USEC (usec : Z) : Z := u64 usec.
Definition MSEC (msec : Z) : Z := USEC (1000 * u64 msec).
Definition SEC (sec : Z) : Z := MSEC (1000 * u64 sec).

(** The variadic macros append PROXC_NULL. *)
Definition PROC_args (args : list Z) : list Z := args ++ [PROXC_NULL].
Definition with_sentinel (l : list varg) : list varg := l ++ [VSentinel].

Section proxc.
Context {T : Type} {TT : SleepTree T} {E : Env}.
Abbreviation M := (M (St T)).

(** proc_create when scheduler_create has failed: no scheduler is found under the
    key, and proxc_start goes on with an uninitialised [proc] when it returns. *)
Definition start_unscheduled (fxn : Z) : M () :=
  ASSERT (negb (fxn =? 0)%Z) ;;
  o ← malloc;
  match o with
  | None => undef
  | Some _ => ASSERT false ;; undef
  end.

(** The set-up of proxc_start, before scheduler_run. *)
Definition proxc_start (fxn : Z) : M () :=
  ret ← scheduler_create;
  if negb (ret =? 0)%Z then start_unscheduled fxn else
  r ← proc_create fxn;
  p ← deref (snd r);
  mods (s_set_main (Some p)) ;;
  scheduler_addready (Some p).

Definition proxc_exit : M (ctl Z) :=
  mods (s_set_exit true) ;;
  c ← gets s_curr_proc;
  proc_yield c KExit.

Definition proxc_yield : M (ctl Z) := proc_yield None KYield.

Definition proxc_sleep (usec : Z) : M (ctl Z) :=
  p ← proc_self;
  when (0 <? usec)%Z
    (now ← gettimestamp;
     modp p (p_set_sleep (u64 (now + usec))) ;;
     scheduler_addsleep (Some p)) ;;
  proc_yield (Some p) (KSleep p).

Definition proxc_sleep_end (p : loc) : M (ctl Z) :=
  modp p (p_set_sleep 0) ;; mret (CRet 0%Z).

Definition proxc_proc (fxn : Z) (args : list Z) : M (option loc) :=
  ASSERT (negb (fxn =? 0)%Z) ;;
  '(ret, o) ← proc_create fxn;
  ASSERT (ret =? 0)%Z ;;
  b ← csp_create PROC_BUILD;
  match b with
  | None => p ← deref o; proc_free (Some p) ;; mret None
  | Some b =>
      p ← deref o;
      ret ← proc_setargs p args;
      ASSERT (ret =? 0)%Z ;;
      modb b (b_set_body (ProcBuild (Some p))) ;;
      modp p (p_set_build (Some b)) ;;
      mret (Some b)
  end.

Definition proxc_par (vargs : list varg) : M (option loc) :=
  o ← csp_create PAR_BUILD;
  match o with
  | None => mret None
  | Some b =>
      modb b (b_set_body (ParBuild 0 [])) ;;
      ret ← csp_insertchilds b vargs;
      ASSERT (ret =? 0)%Z ;;
      mret (Some b)
  end.

Definition seq_start (b : Builder) : Builder :=
  match b_body b with
  | SeqBuild n _ q => b_set_body (SeqBuild n (head q) q) b
  | _ => b
  end.

Definition proxc_seq (vargs : list varg) : M (option loc) :=
  o ← csp_create SEQ_BUILD;
  match o with
  | None => mret None
  | Some b =>
      modb b (b_set_body (SeqBuild 0 None [])) ;;
      ret ← csp_insertchilds b vargs;
      ASSERT (ret =? 0)%Z ;;
      modb b seq_start ;;
      mret (Some b)
  end.

Definition proxc_go (root : option loc) : M Z :=
  b ← notnull root;
  modb b (b_set_root true None) ;;
  fuel ← build_fuel;
  csp_runbuild fuel (Some b) ;;
  mret 0%Z.

Definition proxc_run (root : option loc) : M (ctl Z) :=
  b ← notnull root;
  curr ← gets s_curr_proc;
  modb b (b_set_root true curr) ;;
  fuel ← build_fuel;
  csp_runbuild fuel (Some b) ;;
  c ← deref curr;
  modp c (p_set_state PROC_RUNWAIT) ;;
  proc_yield (Some c) KRun.

Definition proxc_guardchan (cond : bool) (chan : option loc) (out size : Z) : M (option loc) :=
  if cond then alt_guardcreate GUARD_CHAN 0 chan out size else mret None.

Definition proxc_guardtime (cond : bool) (usec : Z) : M (option loc) :=
  if cond && (0 <? usec)%Z then
    now ← gettimestamp; alt_guardcreate GUARD_TIME (u64 (usec + now)) None 0 0
  else if cond then alt_guardcreate GUARD_SKIP 0 None 0 0
  else mret None.

Definition proxc_guardskip (cond : bool) : M (option loc) :=
  if cond then alt_guardcreate GUARD_SKIP 0 None 0 0 else mret None.

Fixpoint addguards (alt : loc) (vargs : list varg) : M () :=
  match vargs with
  | [] => undef
  | VSentinel :: _ => mret ()
  | VNull :: vargs => alt_addguard alt None ;; addguards alt vargs
  | VPtr g :: vargs => alt_addguard alt (Some g) ;; addguards alt vargs
  end.

(** alt_cleanup, and the [struct Alt] on the stack goes at the return. *)
Definition alt_finish (alt : loc) (r : ctl Z) : M (ctl Z) :=
  match r with
  | CRet key => alt_cleanup alt ;; modify (set_alts (delete alt)) ;; mret (CRet key)
  | CYield k => mret (CYield k)
  end.

Definition proxc_alt (vargs : list varg) : M (ctl Z) :=
  alt ← stack_alloc;
  alt_init alt ;;
  addguards alt vargs ;;
  r ← alt_select alt;
  alt_finish alt r.

Definition proxc_chopen (size : Z) : M (option loc) := chan_create size.
Definition proxc_chclose (chan : option loc) : M () := chan_free chan.
Definition proxc_chwrite (chan : option loc) (data size : Z) : M (ctl Z) :=
  chan_write chan data size.
Definition proxc_chread (chan : option loc) (data size : Z) : M (ctl Z) :=
  chan_read chan data size.

(** What a call does after the switch back. *)
Definition resume (k : frame) : M (ctl Z) :=
  match k with
  | KYield | KRun | KExit => mret (CRet 0%Z)
  | KSleep p => proxc_sleep_end p
  | KChan e => r ← chan_resume e; mret (CRet r)
  | KAltChoose a => r ← alt_selected a; alt_finish a r
  | KAltComplete a => r ← alt_return a; alt_finish a r
  | KMain => _trampoline
  end.
End proxc.
