(* ===== verification/ProxcSpec.v ===== *)
(** * The interface of proxc.c: building and running trees, sleeping

    PAR and SEQ build the trees of [BuildTree]; RUN on such a tree gives the
    caller back when every process has ended; SLEEP files the caller. *)
From stdpp Require Import base tactics list gmap.
From Stdlib Require Import ZArith Lia.
From S2P Require Import Prelude Tailq Rbtree RbInsert RbSpec State SchedOps Exec SleepSpec.
From S2P Require Import Csp BuildTree CspSpec Proc AltCore Chan Alt Context Sched SchedSpec Proxc.

Section proxc_spec.
Context {T : Type} {TT : SleepTree T} {E : Env}.
Implicit Types (s : St T) (t : btree).

(** ** Trees whose parts are disjoint *)

Lemma nodes_unique ts x : ∀ t u,
  NoDup (flat_map nodes ts) → t ∈ ts → u ∈ ts → x ∈ nodes t → x ∈ nodes u → t = u.
Proof.
  induction ts as [|v ts IH]; simpl; intros t u Hnd Ht Hu Hxt Hxu; [set_solver|].
  apply NoDup_app in Hnd as (_ & Hd & Hnd).
  apply elem_of_cons in Ht as [->|Ht], Hu as [->|Hu]; [done|..|by apply (IH t u)].
  - destruct (Hd x Hxt). by eapply elem_of_nodes.
  - destruct (Hd x Hxu). by eapply elem_of_nodes.
Qed.

Lemma roots_NoDup ts : NoDup (flat_map nodes ts) → NoDup (root <$> ts).
Proof.
  induction ts as [|t ts IH]; simpl; [constructor|]. intros (_ & Hd & Hnd)%NoDup_app.
  apply NoDup_cons. split; [|by apply IH]. intros (u & Hu & Hin)%list_elem_of_fmap.
  apply (Hd (root t) (root_nodes t)). rewrite Hu. by eapply elem_of_nodes; [|apply root_nodes].
Qed.

Lemma roots_in_nodes ts x : x ∈ root <$> ts → x ∈ flat_map nodes ts.
Proof. intros (t & -> & Ht)%list_elem_of_fmap. by eapply elem_of_nodes; [|apply root_nodes]. Qed.

Lemma unfinished_all ts :
  forallb wf ts = true → forallb fresh ts = true → unfinished ts = length ts.
Proof.
  unfold unfinished. induction ts as [|t ts IH]; [done|]. simpl. intros. split_andb.
  rewrite filter_cons_True by (by apply fresh_not_done). simpl. by rewrite IH.
Qed.

(** ** PAR and SEQ *)

Inductive joint := PAR | SEQ.

Definition proxc_join (j : joint) : list varg → M (St T) (option loc) :=
  match j with PAR => proxc_par | SEQ => proxc_seq end.

Definition Join (j : joint) : loc → list btree → btree :=
  match j with PAR => Par | SEQ => Seq end.

(** The builder of a new node with the children [q]. *)
Definition join_body (j : joint) (q : list loc) : Build :=
  match j with
  | PAR => ParBuild (Z.of_nat (length q)) q
  | SEQ => SeqBuild (Z.of_nat (length q)) (head q) q
  end.

(** A tree that has been built and neither started nor put in another one. *)
Definition built (m : gmap loc Builder) t : Prop :=
  brep m None false None t ∧ wf t = true ∧ fresh t = true.

Lemma adopted_children b m m' v ts :
  Forall (brep m None false None) ts → NoDup (b :: flat_map nodes ts) →
  adopted b v (root <$> ts) m m' → Forall (brep m' (Some b) false None) ts.
Proof.
  intros Hr [Hb Hnd]%NoDup_cons (_ & Hc & Hm). rewrite Forall_forall in *. intros t Ht.
  assert (NoDup (nodes t)) as Hnt.
  { apply list_elem_of_split in Ht as (l & r & ->). rewrite flat_map_app in Hnd. simpl in Hnd.
    apply NoDup_app in Hnd as (_ & _ & Hnd). by apply NoDup_app in Hnd as (? & _). }
  eapply brep_reparent; [by apply Hr|done| |].
  - apply Hc, list_elem_of_fmap. eauto.
  - intros x Hx Hne. pose proof (elem_of_nodes _ _ _ Ht Hx) as Hin. apply Hm; [by intros ->|].
    intros (u & -> & Hu)%list_elem_of_fmap. apply Hne.
    by rewrite (nodes_unique ts (root u) t u Hnd Ht Hu Hx (root_nodes u)).
Qed.

Lemma join_brep j b ts (m : gmap loc Builder) :
  forallb wf ts = true → forallb fresh ts = true →
  m !! b = Some (MkBuilder None false None (join_body j (root <$> ts))) →
  Forall (brep m (Some b) false None) ts → brep m None false None (Join j b ts).
Proof.
  intros Hw Hf Hb Hts. destruct j; simpl in *; constructor; try done;
    rewrite Hb, unfinished_all, length_fmap by done; [done|].
  destruct ts as [|t ts]; [done|]. simpl in Hw, Hf. split_andb. by rewrite current_fresh.
Qed.

Lemma join_wf j b ts :
  ts ≠ [] → forallb wf ts = true → forallb fresh ts = true →
  wf (Join j b ts) = true ∧ fresh (Join j b ts) = true.
Proof.
  intros Hne Hw Hf. pose proof (fresh_seq_ok _ Hf Hw) as Hs.
  destruct ts; [done|]. destruct j; simpl in *; by rewrite ?Hw, ?Hf, ?Hs.
Qed.

(** The rest of the store, with [l] the next address. *)
Definition unmoved (l : loc) s s' : Prop :=
  chans s' = chans s ∧ ends s' = ends s ∧ mem s' = mem s ∧ fresh_loc s' = l.

(** The children of a new builder, with any body that has no children yet. *)
Lemma new_insertchilds b stop rest cs body (m0 : gmap loc Builder) s :
  is_ptr stop = false → m0 !! b = None → NoDup (b :: cs) → (Z.of_nat (length cs) < U64)%Z →
  Forall (λ c, ∃ w, m0 !! c = Some w ∧ b_parent w = None) cs →
  builds s = <[b := MkBuilder None false None body]> m0 →
  childs_of (MkBuilder None false None body) = Some (0%Z, []) →
  wp (csp_insertchilds b ((VPtr <$> cs) ++ stop :: rest)) (λ r s', r = 0%Z ∧
    adopted b (with_childs (Z.of_nat (length cs)) cs (MkBuilder None false None body)) cs m0 (builds s') ∧
    procs s' = procs s ∧ sched s' = sched s ∧ unmoved (fresh_loc s) s s') s.
Proof.
  intros Hstop Hb Hnd Hlen Hcs Hb1 Hbody. set (v := MkBuilder None false None body) in *.
  assert (∀ x, x ≠ b → <[b:=v]> m0 !! x = m0 !! x) as Hne by (intros; by apply lookup_insert_ne).
  eapply wp_mono.
  { eapply (insertchilds_ok b stop rest cs s v 0 []); try done; [by rewrite Hb1, lookup_insert_eq|].
    rewrite Hb1. rewrite Forall_forall in *. intros c Hc. destruct (Hcs c Hc) as (w & Hw & ?).
    exists w. split; [|done]. rewrite Hne; [done|]. intros ->. by rewrite Hb in Hw. }
  intros r s2 (-> & m & -> & Hm1 & Hm2 & Hm3). split; [done|].
  split; [|by destruct stop; split_and!]. rewrite Hb1 in *.
  assert (builds (stop_errno stop (set_builds (λ _, m) s)) = m) as -> by by destruct stop.
  apply NoDup_cons in Hnd as [Hbc _]. split_and!; [done| |].
  - intros c Hc. rewrite Hm2, Hne; [done|by intros ->|done].
  - intros x Hx Hxc. by rewrite Hm3, Hne.
Qed.

(** What the calls do to the store, before it is read as a tree. *)
Lemma proxc_join_stores j stop rest cs s :
  is_ptr stop = false → malloc_ok (n_malloc s) = true → builds s !! fresh_loc s = None →
  NoDup (fresh_loc s :: cs) → (Z.of_nat (length cs) < U64)%Z →
  Forall (λ c, ∃ w, builds s !! c = Some w ∧ b_parent w = None) cs →
  wp (proxc_join j ((VPtr <$> cs) ++ stop :: rest)) (λ r s',
    r = Some (fresh_loc s) ∧
    adopted (fresh_loc s) (MkBuilder None false None (join_body j cs)) cs (builds s) (builds s') ∧
    procs s' = procs s ∧ sched s' = sched s ∧ unmoved (Pos.succ (fresh_loc s)) s s') s.
Proof.
  intros Hstop Hok Hb Hnd Hlen Hcs.
  destruct j; unfold proxc_join, proxc_par, proxc_seq, csp_create, malloc; steps; rewrite Hok;
    simpl; steps; simpl; (eapply wp_mono;
      [eapply (new_insertchilds _ stop rest cs _ (builds s)); try done; [by apply insert_insert_eq|reflexivity]|]);
    intros r s' (-> & Had & Hp & Hs & Hu); step; apply wp_ASSERT; try done.
  step. destruct Had as (Hb' & Hc & Hm). eapply wp_modb; [exact Hb'|]. apply wp_ret.
  apply NoDup_cons in Hnd as [Hn _]. split; [done|]. split; [|done]. simpl. split_and!.
  - by rewrite lookup_insert_eq.
  - intros c Hin. rewrite lookup_insert_ne by (by intros <-). by apply Hc.
  - intros x Hx Hxc. rewrite lookup_insert_ne by done. by apply Hm.
Qed.

Lemma built_children ts s :
  Forall (built (builds s)) ts → builds s !! fresh_loc s = None → NoDup (flat_map nodes ts) →
  NoDup (fresh_loc s :: flat_map nodes ts) ∧ NoDup (fresh_loc s :: (root <$> ts)) ∧
  Forall (λ c, ∃ w, builds s !! c = Some w ∧ b_parent w = None) (root <$> ts) ∧
  Forall (brep (builds s) None false None) ts ∧ forallb wf ts = true ∧ forallb fresh ts = true.
Proof.
  intros Hts Hb Hnd. assert (fresh_loc s ∉ flat_map nodes ts) as Hn.
  { intros (u & Hu & Hx)%elem_of_nodes_inv. rewrite Forall_forall in Hts.
    destruct (Hts u Hu) as [Hr _]. destruct (brep_nodes _ _ _ _ _ _ Hr Hx). congruence. }
  split_and!; try (apply NoDup_cons; split; [|by try apply roots_NoDup]); try done.
  - intros Hin. by apply Hn, roots_in_nodes.
  - apply Forall_fmap. eapply Forall_impl; [exact Hts|]. intros t [Hr _].
    destruct (brep_root _ _ _ _ _ Hr) as (w & Hw & ? & _). by exists w.
  - eapply Forall_impl; [exact Hts|]. by intros t [? _].
  - apply forallb_forall. intros t Ht%list_elem_of_In. rewrite Forall_forall in Hts. by apply Hts.
  - apply forallb_forall. intros t Ht%list_elem_of_In. rewrite Forall_forall in Hts. by apply Hts.
Qed.

Lemma join_parts j stop rest ts s :
  is_ptr stop = false → malloc_ok (n_malloc s) = true → builds s !! fresh_loc s = None →
  Forall (built (builds s)) ts → NoDup (flat_map nodes ts) → (Z.of_nat (length ts) < U64)%Z →
  wp (proxc_join j ((VPtr <$> (root <$> ts)) ++ stop :: rest)) (λ r s',
    r = Some (fresh_loc s) ∧ brep (builds s') None false None (Join j (fresh_loc s) ts) ∧
    (∀ x, x ≠ fresh_loc s → x ∉ root <$> ts → builds s' !! x = builds s !! x) ∧
    procs s' = procs s ∧ sched s' = sched s ∧ unmoved (Pos.succ (fresh_loc s)) s s') s.
Proof.
  intros Hstop Hok Hb Hts Hnd Hlen.
  destruct (built_children _ _ Hts Hb Hnd) as (Hnd1 & Hnd2 & Hcs & Hrs & Hw & Hf).
  eapply wp_mono; [apply proxc_join_stores; try done; by rewrite length_fmap|].
  intros r s' (-> & Had & Hp & Hs & Hu). split; [done|].
  split; [|split; [apply Had|by split]].
  apply join_brep; [done|done|apply Had|]. by eapply adopted_children.
Qed.

(** ** RUN *)

Lemma set_root_brep (m : gmap loc Builder) t rp b v :
  brep m None false None t → NoDup (nodes t) → b = root t → m !! b = Some v →
  brep (<[b := b_set_root true rp v]> m) None true rp t.
Proof.
  intros Hr Hnd -> Hv.
  assert (∀ ts, nodes t = root t :: flat_map nodes ts →
    Forall (brep m (Some (root t)) false None) ts →
    Forall (brep (<[root t := b_set_root true rp v]> m) (Some (root t)) false None) ts) as Hch.
  { intros ts Hn Hf. rewrite Hn in Hnd. apply NoDup_cons in Hnd as [Hb _].
    rewrite Forall_forall in *. intros u Hu. eapply brep_ext; [|by apply Hf].
    intros x Hx. apply lookup_insert_ne. intros <-. apply Hb. by eapply elem_of_nodes. }
  inversion Hr as [????? ? Hb|????? Hb Hf|????? Hb Hf]; subst; simpl in *; rewrite Hb in Hv;
    simplify_eq; constructor; try (by rewrite lookup_insert_eq); by apply Hch.
Qed.

(** The state in which RUN has started the tree and waits. *)
Definition waiting (c : loc) (w : Proc) t s s' : Prop := ∃ m,
  s' = set_procs <[c := p_set_state PROC_RUNWAIT w]> (set_builds (λ _, m) (ready_all (active t) s)) ∧
  running t (Some c) s' ∧ ∀ x, x ∉ nodes t → m !! x = builds s !! x.

Lemma proxc_run_waits t c w s :
  built (builds s) t → NoDup (nodes t) → (Z.of_nat (length (nodes t)) < U64)%Z →
  s_curr_proc (sched s) = Some c → procs s !! c = Some w → c ∉ active t → can_ready (active t) s →
  wp (proxc_run (Some (root t))) (λ r s', r = CYield KRun ∧ waiting c w t s s') s.
Proof.
  intros (Hr & Hwf & Hf) Hnd Hsz Hcur Hw Hc Hcan. destruct (brep_root _ _ _ _ _ Hr) as (v & Hv & _). unfold proxc_run. steps. rewrite Hcur.
  pose proof (set_root_brep _ _ (Some c) _ _ Hr Hnd eq_refl Hv) as Hr'.
  set (m := <[root t := _]> (builds s)) in *. apply wp_get. cbv beta. step. eapply wp_mono.
  { eapply runbuild_fresh; [exact Hr'|done..| |exact Hcan].
    pose proof (height_size _ _ _ _ _ Hr' Hnd). simpl. unfold m in *. lia. }
  intros [] ? ->. step. step. step. eapply wp_modp.
  { simpl. rewrite foldl_alter_lookup by apply Hcan. by rewrite decide_False. }
  unfold proc_yield. step. step. eapply wp_getp; [apply lookup_insert_eq|]. steps.
  split; [done|].
  exists m. split; [done|]. split; [by split_and!|].
  intros x Hx. apply lookup_insert_ne. intros <-. by apply Hx, root_nodes.
Qed.

(** ** Properties *)

(** C16: PAR and SEQ compose trees: from children that are themselves complete
    trees, neither started nor used elsewhere, none of them NULL, the call returns
    a new builder that represents the tree with exactly these children in argument
    order, ready to be run if there is a child, and nothing else changes; without
    memory it returns NULL and changes no tree. *)
Theorem proxc_join_builds j ts s :
  builds s !! fresh_loc s = None →
  Forall (built (builds s)) ts → NoDup (flat_map nodes ts) → (Z.of_nat (length ts) < U64)%Z →
  wp (proxc_join j (with_sentinel (VPtr <$> (root <$> ts)))) (λ r s',
    if malloc_ok (n_malloc s) then
      r = Some (fresh_loc s) ∧ brep (builds s') None false None (Join j (fresh_loc s) ts) ∧
      (ts ≠ [] → built (builds s') (Join j (fresh_loc s) ts)) ∧
      (∀ x, x ≠ fresh_loc s → x ∉ root <$> ts → builds s' !! x = builds s !! x) ∧
      procs s' = procs s ∧ sched s' = sched s
    else r = None ∧ errno s' = ENOMEM ∧ builds s' = builds s ∧ procs s' = procs s ∧ sched s' = sched s) s.
Proof.
  intros Hb Hts Hnd Hlen. unfold with_sentinel. destruct (malloc_ok (n_malloc s)) eqn:Hok.
  - eapply wp_mono; [by apply (join_parts j VSentinel [])|]. intros r s' (-> & Hr & Hm & Hp & Hs & _).
    destruct (built_children _ _ Hts Hb Hnd) as (_ & _ & _ & _ & Hw & Hf).
    split_and!; try done. intros Hne. split; [done|]. by apply join_wf.
  - destruct j; unfold proxc_join, proxc_par, proxc_seq, csp_create, malloc; steps; rewrite Hok;
      simpl; steps; by split_and!.
Qed.

(** C5: RUN is a join.  The caller starts the tree and waits; in whatever order
    the processes of the tree end, every process of the tree is made ready exactly
    once, the caller is made ready exactly once, after all of them, and every
    builder of the tree is freed. *)
Theorem proxc_run_joins bs t t' st c w s :
  built (builds s) t → NoDup (nodes t) → (Z.of_nat (length (nodes t)) < U64)%Z →
  s_curr_proc (sched s) = Some c → procs s !! c = Some w →
  complete_all bs t = Some (t', st) → done t' = true → can_ready (active t ++ st ++ [c]) s →
  active t ++ st ≡ₚ leaves t ∧
  wp (r ← proxc_run (Some (root t)); for_each process_end bs ;; mret r) (λ r s',
    r = CYield KRun ∧
    s_readyQ (sched s') = s_readyQ (sched s) ++ active t ++ st ++ [c] ∧
    (p_state <$> procs s' !! c) = Some PROC_READY ∧
    ∀ x, builds s' !! x = if decide (x ∈ nodes t) then None else builds s !! x) s.
Proof.
  intros (Hr & Hwf & Hf) Hnd Hsz Hcur Hw Hc Hd Hcan. split; [by eapply started_once|].
  destruct (can_ready_app _ _ _ Hcan) as [Hca Hcb].
  assert (c ∉ active t) as Hct.
  { destruct Hcan as [(_ & Hdisj & _)%NoDup_app _]. intros Hin. apply (Hdisj c Hin). set_solver. }
  step. eapply wp_mono; [by eapply proxc_run_waits|].
  intros r s1 (-> & m & -> & Hrun & Hm). step. eapply wp_mono.
  { eapply process_ends_ok; [exact Hrun|by apply fresh_not_done|exact Hc|]. rewrite Hd.
    destruct Hcb as (H1 & H2 & H3). split_and!; [done| |].
    - eapply Forall_impl; [exact H2|]. intros x [??]. split; [|done]. simpl. by apply is_Some_insert.
    - unfold ready_live in *. simpl in *. by apply Forall_is_Some_insert. }
  intros [] s2. unfold tree_outcome. rewrite Hd. intros (m2 & -> & Hm2). apply wp_ret.
  split; [done|]. simpl. rewrite <-app_assoc. split_and!; [done| |].
  - rewrite foldl_alter_lookup, decide_True by set_solver. by rewrite lookup_insert_eq.
  - intros x. rewrite Hm2. simpl. case_decide; [done|]. by apply Hm.
Qed.

(** ** SLEEP *)

(** proxc_sleep(0) only yields.  proxc_sleep(usec) files the caller in the
    sleep tree under the clock plus usec, or at most MAX_TRIES microseconds later
    when those deadlines are taken, never earlier, and yields without being in the
    ready queue.  Fewer than MAX_TRIES sleepers always leave a free deadline. *)
Lemma proxc_sleep_outcome usec c w l s :
  s_curr_proc (sched s) = Some c → procs s !! c = Some w → sleepers s l → c ∉ l →
  let k := (clock (n_time s) + usec)%Z in
  (0 ≤ usec)%Z → (0 < k)%Z → (k + MAX_TRIES < U64)%Z →
  ¬ taken (sleep_key s) l k MAX_TRIES →
  wp (proxc_sleep usec) (λ r s',
    r = CYield (KSleep c) ∧ s_readyQ (sched s') = s_readyQ (sched s) ∧
    if decide (usec = 0)%Z then s' = s else
    ∃ n, (0 ≤ n < MAX_TRIES)%Z ∧ taken (sleep_key s) l k n ∧ SL.lookup (sleep_key s) (k + n) l = None ∧
      procs s' !! c = Some (p_set_sleep (k + n) (p_set_state PROC_SLEEPING w)) ∧
      sleepers s' (SL.insert (sleep_key s') c l)) s.
Proof.
  intros Hcur Hw Hs Hc k Hus Hk HU Hnt. unfold proxc_sleep. steps. apply wp_when.
  - intros Hpos%Z.ltb_lt. destruct (decide (usec = 0)%Z) as [|_]; [lia|]. step. apply wp_gettimestamp. steps. fold k.
    assert (u64 k = k)%Z as -> by (apply Z.mod_small; unfold MAX_TRIES in *; lia).
    set (v1 := p_set_sleep k w). set (s1 := set_procs <[c := v1]> (tick s)).
    assert (∀ i, SL.lookup (sleep_key s1) i l = SL.lookup (sleep_key s) i l) as Hext.
    { intros i. apply SL_lookup_ext. intros x Hx. apply (sleep_key_other c v1 (tick s)). by intros ->. }
    destruct (first_free (sleep_key s) l k MAX_TRIES) as [?|(n & Hn & Ht & Hfree)]; [done|done|].
    eapply wp_mono.
    { eapply (addsleep_files c l v1 n s1); try done; simpl; [..|by left|lia].
      - by apply (sleepers_bump c v1 (tick s)).
      - unfold s1. simpl. by rewrite lookup_insert_eq.
      - intros i Hi. rewrite Hext. by apply Ht.
      - by rewrite Hext. }
    intros [] s2 (t' & -> & Hs2). unfold proc_yield. steps.
    split; [done|]. split; [done|]. exists n. split_and!; try done; [lia..|].
    simpl. by rewrite lookup_insert_eq.
  - intros Hz%Z.ltb_ge. destruct (decide (usec = 0)%Z); [|lia]. unfold proc_yield. by steps.
Qed.

(** A wake-up, as one sleeper sees it. *)
Lemma wakeup_sleeper l gl c v s :
  sched_ok l gl s → c ∈ l → procs s !! c = Some v → p_state v = PROC_SLEEPING →
  let now := clock (n_time s) in
  wp _scheduler_wakeup (λ _ s',
    if decide (now < p_sleep_us v)%Z
    then procs s' !! c = Some v ∧ sleepers s' (not_due (sleep_key s) now l) ∧
         c ∈ not_due (sleep_key s) now l
    else procs s' !! c = Some (p_set_state PROC_READY v) ∧
         sleepers s' (not_due (sleep_key s) now l) ∧ c ∉ not_due (sleep_key s) now l ∧
         ∃ q1 q2, s_readyQ (sched s') = s_readyQ (sched s) ++ q1 ++ c :: q2 ∧
           Forall (λ x, sleep_key s x < p_sleep_us v)%Z q1) s.
Proof.
  intros Hok Hc Hv Hst now. eapply wp_mono; [by eapply wakeup_ok|].
  intros [] s' ((k & n & t & n' & t' & ->) & Hs & _). fold now in Hs |- *.
  assert (sleep_key s c = p_sleep_us v) as Hkey by (unfold sleep_key; by rewrite Hv).
  pose proof (st_sorted _ _ _ (so_sleep _ _ _ Hok)) as Hsort. simpl. unfold woken.
  case_decide as Hnow.
  - split_and!; [|exact Hs|apply list_elem_of_filter; split; [lia|done]].
    apply foldl_timed_out_other; [|by rewrite Hst]. simpl.
    rewrite foldl_alter_lookup, decide_False; [done|]. intros [Hd _]%list_elem_of_filter. lia.
  - assert (c ∈ due (sleep_key s) now l) as Hdue by (apply list_elem_of_filter; split; [lia|done]).
    split_and!; [|exact Hs|intros [Hd _]%list_elem_of_filter; lia|].
    + apply foldl_timed_out_other; [|done]. simpl. by rewrite foldl_alter_lookup, decide_True, Hv.
    + destruct (foldl_timed_out_readyQ (due (altsleep_key s) now gl)
        (ready_all (due (sleep_key s) now l) s)) as [ps ->].
      rewrite (due_split _ now _ Hsort) in Hsort.
      apply list_elem_of_split in Hdue as (q1 & q2 & Hq). rewrite Hq in Hsort |- *.
      exists q1, (q2 ++ ps). simpl. split; [by rewrite <-!app_assoc|].
      rewrite <-app_assoc in Hsort. apply key_sorted_app in Hsort as (_ & _ & Hlt).
      apply Forall_forall. intros x Hx. rewrite <-Hkey. apply Hlt; [done|by left].
Qed.

(** C25: SLEEP, from the call to the return.  The caller is filed in the sleep tree
    under the first deadline, from the clock plus usec on, that no other sleeper has
    (one of the next MAX_TRIES is free).  As long as it is left there, a wake-up
    before the deadline leaves it asleep, and the first one at or after the
    deadline takes it out of the tree and puts it behind the ready processes and
    the sleepers with earlier deadlines; when it is then switched back to,
    proxc_sleep clears its deadline and returns. *)
Theorem proxc_sleep_whole usec c w l s :
  s_curr_proc (sched s) = Some c → procs s !! c = Some w → sleepers s l → c ∉ l →
  let k := (clock (n_time s) + usec)%Z in
  (0 < usec)%Z → (0 < k)%Z → (k + MAX_TRIES < U64)%Z → ¬ taken (sleep_key s) l k MAX_TRIES →
  wp (proxc_sleep usec) (λ r s1, r = CYield (KSleep c) ∧ ∃ v,
    procs s1 !! c = Some v ∧ p_state v = PROC_SLEEPING ∧ (k ≤ p_sleep_us v < k + MAX_TRIES)%Z ∧
    taken (sleep_key s) l k (p_sleep_us v - k) ∧ SL.lookup (sleep_key s) (p_sleep_us v) l = None ∧
    sleepers s1 (SL.insert (sleep_key s1) c l) ∧ s_readyQ (sched s1) = s_readyQ (sched s) ∧
    ∀ l2 gl2 s2, sched_ok l2 gl2 s2 → c ∈ l2 → procs s2 !! c = Some v →
      let now := clock (n_time s2) in
      wp _scheduler_wakeup (λ _ s3,
        if decide (now < p_sleep_us v)%Z
        then procs s3 !! c = Some v ∧ sleepers s3 (not_due (sleep_key s2) now l2) ∧
             c ∈ not_due (sleep_key s2) now l2
        else sleepers s3 (not_due (sleep_key s2) now l2) ∧ c ∉ not_due (sleep_key s2) now l2 ∧
             (∃ q1 q2, s_readyQ (sched s3) = s_readyQ (sched s2) ++ q1 ++ c :: q2 ∧
                Forall (λ x, sleep_key s2 x < p_sleep_us v)%Z q1) ∧
             wp (resume (KSleep c)) (λ r s4, r = CRet 0%Z ∧
               procs s4 !! c = Some (p_set_sleep 0 (p_set_state PROC_READY v))) s3) s2) s.
Proof.
  intros Hcur Hw Hs Hc k Hus Hk HU Hnt.
  eapply wp_mono; [apply (proxc_sleep_outcome usec c w l s); try done; lia|].
  intros r s1 (-> & Hq & Hfiled). rewrite decide_False in Hfiled by lia.
  destruct Hfiled as (n & Hn & Ht & Hfree & Hv & Hs1). fold k in Ht, Hfree, Hv. split; [done|].
  eexists. split; [exact Hv|]. split; [done|]. cbn [p_sleep_us p_set_sleep]. split; [lia|].
  replace (k + n - k)%Z with n by lia. split; [done|]. split; [done|]. split; [exact Hs1|]. split; [done|].
  intros l2 gl2 s2 Hok Hc2 Hv2. eapply wp_mono; [by eapply wakeup_sleeper|].
  intros [] s3. simpl. case_decide; [done|]. intros (Hv3 & Hs3 & Hc3 & Hq3).
  split; [done|]. split; [done|]. split; [done|]. unfold proxc_sleep_end. steps.
  split; [done|]. simpl. by rewrite lookup_insert_eq.
Qed.
End proxc_spec.

(** ** Witnesses *)

#[local] Existing Instance demo_env.

Definition demo_parts : St rb_tree := demo_state demo_procs demo_orphans None.

Lemma demo_parts_built : Forall (built (builds demo_parts)) [Leaf 11 1 false; Leaf 12 2 false].
Proof. repeat constructor. Qed.

Lemma proxc_join_builds_witness :
  wp (proxc_seq (with_sentinel [VPtr 11; VPtr 12])) (λ r s',
    r = Some 100%positive ∧
    brep (builds s') None false None (Seq 100 [Leaf 11 1 false; Leaf 12 2 false]) ∧
    ([Leaf 11 1 false; Leaf 12 2 false] ≠ [] →
       built (builds s') (Seq 100 [Leaf 11 1 false; Leaf 12 2 false])) ∧
    (∀ x, x ≠ 100%positive → x ∉ [11; 12]%positive → builds s' !! x = builds demo_parts !! x) ∧
    procs s' = procs demo_parts ∧ sched s' = sched demo_parts) demo_parts.
Proof.
  refine (proxc_join_builds SEQ [Leaf 11 1 false; Leaf 12 2 false] demo_parts _ _ _ _);
    [done|apply demo_parts_built|by apply (bool_decide_unpack _)|done].
Defined.

(** SEQ(PROC 1, PAR(PROC 2, PROC 3)) of [CspSpec], not started yet; process 4 is current. *)
Definition demo_unstarted : St rb_tree :=
  demo_state demo_procs (<[10%positive := MkBuilder None false None (SeqBuild 2 (Some 11%positive) [11; 12]%positive)]> demo_builds)
    (Some 4%positive).

Lemma demo_unstarted_built : built (builds demo_unstarted) demo_tree.
Proof. split; [|done]. repeat first [constructor | reflexivity]. Qed.

Lemma proxc_run_joins_witness :
  active demo_tree ++ [2; 3]%positive ≡ₚ leaves demo_tree ∧
  wp (r ← proxc_run (Some 10%positive); for_each process_end [11; 14; 13]%positive ;; mret r) (λ r s',
    r = CYield KRun ∧
    s_readyQ (sched s') = [1; 2; 3; 4]%positive ∧
    (p_state <$> procs s' !! 4%positive) = Some PROC_READY ∧
    ∀ x, builds s' !! x = if decide (x ∈ nodes demo_tree) then None else builds demo_unstarted !! x) demo_unstarted.
Proof.
  refine (proxc_run_joins [11; 14; 13]%positive demo_tree
    (Seq 10 [Leaf 11 1 true; Par 12 [Leaf 13 2 true; Leaf 14 3 true]]) [2; 3]%positive
    4 (demo_proc PROC_RUNWAIT) demo_unstarted _ _ _ _ _ _ _ _);
    [apply demo_unstarted_built|by apply (bool_decide_unpack _)|done..|by apply demo_can_ready].
Defined.

(** Process 1 alone, on a sleep tree that is a list; asleep after SLEEP(500). *)
Definition demo_awake : St (list loc) :=
  MkSt {[ 1%positive := demo_proc PROC_RUNNING ]} ∅ ∅ ∅ ∅ ∅
    (MkSched 8192 4096 false None (Some 1%positive) [1%positive] [] 0 [] 0 []) ∅ 100 0 0 0 0 [] 0.

Definition demo_nap : St (list loc) :=
  match proxc_sleep 500 demo_awake with Ok _ s => s | _ => demo_awake end.

Lemma demo_nap_ok k : sched_ok [1%positive] [] (set_time k demo_nap).
Proof.
  split.
  - split; [done|]. apply key_sorted_cons. split; [constructor|]. by intros ? ?%not_elem_of_nil.
  - split; [done|constructor].
  - by vm_compute.
  - repeat constructor; by eexists.
  - repeat constructor. by intros ?%not_elem_of_nil.
  - constructor.
  - split; [|constructor]. intros p w _ _. by intros ?%not_elem_of_nil.
Qed.

(** A wake-up 10 microseconds after the call leaves it asleep, one after 2000
    wakes it. *)
Lemma proxc_sleep_whole_witness : ∃ v,
  proxc_sleep 500 demo_awake = Ok (CYield (KSleep 1)) demo_nap ∧
  procs demo_nap !! 1%positive = Some v ∧ (1500 ≤ p_sleep_us v < 2500)%Z ∧
  wp _scheduler_wakeup (λ _ s, procs s !! 1%positive = Some v) (set_time 1 demo_nap) ∧
  wp _scheduler_wakeup (λ _ s, 1%positive ∈ s_readyQ (sched s) ∧
    wp (resume (KSleep 1)) (λ r _, r = CRet 0%Z) s) (set_time 200 demo_nap).
Proof.
  assert (wp (proxc_sleep 500) (λ r s1, r = CYield (KSleep 1) ∧ ∃ v, procs s1 !! 1%positive = Some v ∧
    (1500 ≤ p_sleep_us v < 2500)%Z ∧
    ∀ l gl s2, sched_ok l gl s2 → 1%positive ∈ l → procs s2 !! 1%positive = Some v →
      wp _scheduler_wakeup (λ _ s3, if decide (clock (n_time s2) < p_sleep_us v)%Z
        then procs s3 !! 1%positive = Some v
        else 1%positive ∈ s_readyQ (sched s3) ∧ wp (resume (KSleep 1)) (λ r _, r = CRet 0%Z) s3) s2) demo_awake)
    as Hw.
  { eapply wp_mono.
    { apply (proxc_sleep_whole 500 1 (demo_proc PROC_RUNNING) []); try done.
      - split; [done|constructor].
      - apply not_elem_of_nil.
      - intros H. destruct (H 0%Z) as [x Hx]; [done|]. by vm_compute in Hx. }
    intros r s1 (-> & v & Hv & _ & Hd & _ & _ & _ & _ & Hwake). split; [done|]. exists v. split; [done|].
    split; [exact Hd|]. intros l gl s2 Hok Hl Hv2. eapply wp_mono; [by apply (Hwake l gl)|].
    intros [] s3. case_decide; [by intros (? & _)|].
    intros (_ & _ & (q1 & q2 & -> & _) & Hr). split; [set_solver|].
    eapply wp_mono; [exact Hr|]. by intros ? ? [-> _]. }
  apply wp_ok in Hw as (r & s1 & Hrun & -> & v & Hv & Hd & Hwake). exists v.
  assert (s1 = demo_nap) as -> by (unfold demo_nap; by rewrite Hrun).
  split; [done|]. split; [done|]. split; [done|]. split.
  - eapply wp_mono; [apply (Hwake [1%positive] []); [apply demo_nap_ok|by left|done]|].
    intros [] s3. rewrite decide_True; [done|]. change (clock _) with 1010%Z. lia.
  - eapply wp_mono; [apply (Hwake [1%positive] []); [apply demo_nap_ok|by left|done]|].
    intros [] s3. rewrite decide_False; [done|]. change (clock _) with 3000%Z. lia.
Defined.

