(* ===== verification/System.v ===== *)
(** * The whole program: the scheduler and its processes

    A process body is client code: a parameter, given as a transition function
    from its local state to its next call.  [sys_step] interleaves bodies,
    calls and the scheduler the way scheduler_run does. *)
From stdpp Require Import base tactics list gmap.
From Stdlib Require Import ZArith Lia.
From S2P Require Import Prelude Tailq Rbtree RbInsert RbSpec State SchedOps Csp Proc.
From S2P Require Import AltCore Chan Alt Context Sched Proxc.

(** The calls a body can make; [CallLoad]/[CallStore] are its own accesses to memory. *)
Inductive call :=
| CallExit
| CallArgn (n : Z)
| CallYield
| CallSleep (usec : Z)
| CallProc (fxn : Z) (args : list Z)
| CallPar (childs : list varg)
| CallSeq (childs : list varg)
| CallGo (root : option loc)
| CallRun (root : option loc)
| CallGuardChan (cond : bool) (chan : option loc) (out size : Z)
| CallGuardTime (cond : bool) (usec : Z)
| CallGuardSkip (cond : bool)
| CallAlt (guards : list varg)
| CallChopen (size : Z)
| CallChclose (chan : option loc)
| CallChwrite (chan : option loc) (data size : Z)
| CallChread (chan : option loc) (data size : Z)
| CallLoad (a : Z)
| CallStore (a v : Z).

(** What a call returns: an integer or a pointer. *)
Inductive reply := RInt (z : Z) | RPtr (o : option loc).

Definition varg_of (o : option loc) : varg :=
  match o with Some l => VPtr l | None => VNull end.

(** The code of the bodies: the state of a function called by its address, and
    the next call of a state ([None]: the function returns). *)
Class Client (P : Type) := {
  client_start : Z → P;
  client_next : P → option (call * (reply → P));
}.

(** What the CPU is doing, and the frames of the processes that switched out. *)
Inductive mode (P : Type) := Scheduling | Running (p : loc) (s : P) | Halted.
Arguments Scheduling {P}.
Arguments Running {P}.
Arguments Halted {P}.

Record cpu (P : Type) := Cpu { cpu_mode : mode P; conts : gmap loc (frame * (reply → P)) }.
Arguments Cpu {P}.
Arguments cpu_mode {P}.
Arguments conts {P}.

Section system.
Context {T : Type} {TT : SleepTree T} {E : Env} {P : Type} {CL : Client P}.
Abbreviation M := (M (St T)).

Definition returns {A} (f : A → reply) (m : M A) : M (ctl reply) :=
  a ← m; mret (CRet (f a)).

Definition int_ctl (r : ctl Z) : ctl reply :=
  match r with CRet z => CRet (RInt z) | CYield k => CYield k end.

Definition do_call (c : call) : M (ctl reply) :=
  match c with
  | CallExit => r ← proxc_exit; mret (int_ctl r)
  | CallArgn n => returns RInt (proxc_argn n)
  | CallYield => r ← proxc_yield; mret (int_ctl r)
  | CallSleep us => r ← proxc_sleep us; mret (int_ctl r)
  | CallProc f args => returns RPtr (proxc_proc f (PROC_args args))
  | CallPar l => returns RPtr (proxc_par (with_sentinel l))
  | CallSeq l => returns RPtr (proxc_seq (with_sentinel l))
  | CallGo b => returns RInt (proxc_go b)
  | CallRun b => r ← proxc_run b; mret (int_ctl r)
  | CallGuardChan cond c out size => returns RPtr (proxc_guardchan cond c out size)
  | CallGuardTime cond us => returns RPtr (proxc_guardtime cond us)
  | CallGuardSkip cond => returns RPtr (proxc_guardskip cond)
  | CallAlt l => r ← proxc_alt (with_sentinel l); mret (int_ctl r)
  | CallChopen size => returns RPtr (proxc_chopen size)
  | CallChclose c => returns (λ _, RInt 0) (proxc_chclose c)
  | CallChwrite c data size => r ← proxc_chwrite c data size; mret (int_ctl r)
  | CallChread c data size => r ← proxc_chread c data size; mret (int_ctl r)
  | CallLoad a => returns RInt (load_uint 1 a)
  | CallStore a v => returns (λ _, RInt 0) (store_uint 1 a v)
  end.

(** The end of a slice of [p]: back to its body, or to the scheduler. *)
Definition after_call (p : loc) (x : cpu P) (k : reply → P) (r : ctl reply) : M (cpu P) :=
  match r with
  | CRet v => mret (Cpu (Running p (k v)) (conts x))
  | CYield f => scheduler_switched ;; mret (Cpu Scheduling (<[p := (f, k)]> (conts x)))
  end.

(** Switching to [p]: a new process enters proc_mainfxn. *)
Definition switch_to (p : loc) (x : cpu P) : M (cpu P) :=
  match conts x !! p with
  | Some (f, k) =>
      r ← resume f;
      after_call p (Cpu (cpu_mode x) (delete p (conts x))) k (int_ctl r)
  | None =>
      v ← getp p;
      ASSERT (negb (p_fxn v =? 0)%Z) ;;
      mret (Cpu (Running p (client_start (p_fxn v))) (conts x))
  end.

Definition sys_step (x : cpu P) : M (cpu P) :=
  match cpu_mode x with
  | Halted => mret x
  | Scheduling =>
      go ← _scheduler_running;
      if go : bool then
        o ← scheduler_pick;
        match o with
        | None => mret x
        | Some p => switch_to p x
        end
      else scheduler_free ;; mret (Cpu Halted (conts x))
  | Running p s =>
      match client_next s with
      | Some (c, k) => r ← do_call c; after_call p x k r
      | None => r ← proc_mainfxn_end p; after_call p x (λ _, s) (int_ctl r)
      end
  end.

Fixpoint sys_run (n : nat) (x : cpu P) : M (cpu P) :=
  match n with
  | O => mret x
  | S n => x' ← sys_step x; sys_run n x'
  end.

(** proxc_start: set up, then the loop. *)
Definition sys_start (fxn : Z) : M (cpu P) :=
  proxc_start fxn ;; mret (Cpu Scheduling ∅).
End system.
