(* ===== verification/AltGuards.v ===== *)
(** * The guards of an ALT: acceptance and release

    Acceptance happens once.  The clean-up frees a guard before it reads its link, and
    a guard that has timed out is removed from its tree twice. *)
From stdpp Require Import base tactics list gmap.
From Stdlib Require Import ZArith Lia.
From S2P Require Import Prelude Tailq Rbtree RbInsert RbSpec State SchedOps Exec Csp SleepSpec.
From S2P Require Import AltCore Chan CopySpec ChanSpec Alt AltSpec AltSelect Proxc System.

(** ** Runs into undefined behaviour *)

Lemma undef_bind {S A B} (m : M S A) (k : A → M S B) s :
  wp m (λ a s', k a s' = Undef) s → (m ≫= k) s = Undef.
Proof. unfold wp, mbind, M_bind. by destruct (m s). Qed.

Lemma undef_first {S A B} (m : M S A) (k : A → M S B) s : m s = Undef → (m ≫= k) s = Undef.
Proof. unfold mbind, M_bind. by intros ->. Qed.

Section alt_guards.
Context {T : Type} {TT : SleepTree T} {E : Env}.
Implicit Types s : St T.

(** ** Acceptance *)

Lemma accept_closed al a gs : ∀ s,
  alts s !! al = Some a → a_is_accepted a = true →
  (∀ g, g ∈ gs → ∃ v, guards s !! g = Some v ∧ g_alt v = Some al) →
  wp (mapM (λ g, alt_accept (Some g)) gs) (λ rs s', rs = replicate (length gs) false ∧ s' = s) s.
Proof.
  induction gs as [|g gs IH]; intros s Ha Hacc Hgs; simpl; [by step|].
  destruct (Hgs g) as (v & Hv & Hal); [by left|].
  step. unfold alt_accept. steps. rewrite Hacc. steps.
  eapply wp_mono; [apply (IH s); auto; intros; apply Hgs; by right|]. intros rs s' [-> ->]. by steps.
Qed.

(** an ALT has one winner.  Of all the attempts to accept guards of an open
    ALT, by writers or by time-outs and in any order, the first succeeds and is
    recorded, and every later one fails and changes nothing. *)
Theorem alt_accept_once al a g gs s :
  alts s !! al = Some a → a_is_accepted a = false →
  (∀ x, x ∈ g :: gs → ∃ v, guards s !! x = Some v ∧ g_alt v = Some al) →
  wp (mapM (λ x, alt_accept (Some x)) (g :: gs)) (λ rs s',
    rs = true :: replicate (length gs) false ∧
    s' = set_alts <[al := a_set_accepted true (Some g) a]> s) s.
Proof.
  intros Ha Hacc Hgs. destruct (Hgs g) as (v & Hv & Hal); [by left|]. simpl.
  step. unfold alt_accept at 1. steps. rewrite Hacc. steps.
  eapply wp_mono; [apply (accept_closed al (a_set_accepted true (Some g) a))|].
  - simpl. by rewrite lookup_insert_eq.
  - done.
  - intros x Hx. apply Hgs. by right.
  - intros rs s' [-> ->]. by steps.
Qed.

(** ** Release *)

Lemma alt_guardfree_gone g s :
  is_Some (guards s !! g) → wp (alt_guardfree (Some g)) (λ _ s1, guards s1 !! g = None) s.
Proof. intros [v Hv]. unfold alt_guardfree. steps. apply lookup_delete_eq. Qed.

(** The second turn of the loop needs the link of the guard that the first has freed. *)
Lemma alt_cleanup_undef al a s : alts s !! al = Some a → a_guardsQ a ≠ [] → alt_cleanup al s = Undef.
Proof.
  intros Ha Hne. unfold alt_cleanup. apply undef_bind. step. apply undef_first.
  destruct (a_guardsQ a) as [|g gs]; [done|]. simpl. destruct (guards s !! g) as [v|] eqn:Hv.
  - apply undef_bind. eapply wp_mono; [apply alt_guardfree_gone; by eexists|]. intros [] s1 Hnone.
    unfold guard_next, getg, mbind, M_bind, get. by rewrite Hnone.
  - unfold alt_guardfree, getg, mbind, M_bind, get. by rewrite Hv.
Qed.

(** C38: [alt_cleanup] frees the first guard of the ALT and then reads its link,
    to find the second: with any guard at all its behaviour is undefined.  An ALT
    without guards only loses its array of ready guards. *)
Theorem alt_cleanup_reads_freed al a s :
  alts s !! al = Some a →
  match a_guardsQ a with
  | [] => alt_cleanup al s = Ok () (match a_ready a with
      | Some _ => set_alts <[al := a_set_ready None a]> s | None => s end)
  | g :: _ =>
      (is_Some (guards s !! g) → wp (alt_guardfree (Some g)) (λ _ s1, guards s1 !! g = None) s) ∧
      alt_cleanup al s = Undef
  end.
Proof.
  intros Ha. destruct (a_guardsQ a) as [|g gs] eqn:Hq.
  - set (s1 := match a_ready a with Some _ => _ | None => s end).
    assert (wp (alt_cleanup al) (λ _ s', s' = s1) s) as ([] & s' & -> & ->)%wp_ok; [|done].
    unfold alt_cleanup, s1. step. step. rewrite Hq. simpl. step. step. destruct (a_ready a); simpl; by steps.
  - split; [apply alt_guardfree_gone|]. apply (alt_cleanup_undef _ a); [done|]. by rewrite Hq.
Qed.
End alt_guards.

Section alt_stale.
Context {E : Env}.
Implicit Types s : St rb_tree.

(** C40: after a time-out the guard is no longer in the tree, but [alt_disable]
    removes it again.  On the red-black trees, when the guard was alone in the
    tree at its time-out, the second removal empties the tree: every ALT that
    waits for a time-out by then ([l]) has lost it. *)
Theorem disable_stale_timer g v al a p w l c s :
  guards s !! g = Some v → g_type v = GUARD_TIME → g_alt v = Some al → alts s !! al = Some a →
  a_proc a = Some p → procs s !! p = Some w →
  altsleepers s l → g ∉ l →
  rb_nodes (s_altsleep_RB (sched s)) !! g = Some (RbEntry None None None c) →
  wp (alt_disable g) (λ _ s', altsleepers s' [] ∧
    s_altsleep_num (sched s') = u64 (s_altsleep_num (sched s) + -1)) s.
Proof.
  intros Hv Hty Hal Ha Hp Hw Hl Hg Hn.
  destruct (rb_remove_stale (altsleep_key s) _ l g c Hl Hg Hn) as (t' & Hrm & Hrep).
  unfold alt_disable. step. step. rewrite Hty. unfold scheduler_remaltsleep, guard_proc. steps.
  eapply (wp_on_altsleep _ (λ _ t, t = t')); [by eapply wp_intro|].
  intros x t ->. apply wp_mods. split; [exact Hrep|done].
Qed.
End alt_stale.

(** ** The claims at concrete inputs *)

Section examples.
#[local] Existing Instance demo_env.

Lemma alt_accept_once_witness :
  wp (mapM (λ x, alt_accept (Some x)) [72; 71; 72]%positive) (λ rs s',
    rs = [true; false; false] ∧
    s' = set_alts <[70%positive := a_set_accepted true (Some 72%positive) sel_alt]> (sel_state [])) (sel_state []).
Proof.
  apply (alt_accept_once 70 sel_alt 72 [71; 72]%positive); try done.
  intros x Hx. rewrite !elem_of_cons, elem_of_nil in Hx.
  by destruct Hx as [->|[->|[->|[]]]]; eexists.
Defined.

Lemma alt_cleanup_reads_freed_witness :
  wp (alt_guardfree (Some 71%positive)) (λ _ s1, guards s1 !! 71%positive = None) (sel_state []) ∧
  alt_cleanup 70%positive (sel_state []) = Undef.
Proof.
  destruct (alt_cleanup_reads_freed (T := rb_tree) 70 sel_alt (sel_state [])) as [Hfree Hundef]; [done|].
  split; [apply Hfree; by eexists|exact Hundef].
Defined.

(** Guard 72 was alone in the tree and has timed out; guard 75 of another ALT
    waits until 900 by now. *)
Definition stale_base : St rb_tree :=
  set_guards <[75%positive := MkGuard GUARD_TIME 0 (Some 74%positive) 900 None 65 0 0 false]> (sel_state []).

Definition stale_tree : rb_tree :=
  match RB_INSERT (altsleep_key stale_base) 75 (rb_calloc 75 (rb_calloc 72 rb_init)) with Ok _ t => t | _ => rb_init end.

Definition stale_state : St rb_tree := set_sched (s_set_altsleep 1 stale_tree) stale_base.

Lemma stale_rep : altsleepers stale_state [75%positive].
Proof.
  assert (wp (st_insert (altsleep_key stale_base) 75%positive)
    (λ o t, st_rep (altsleep_key stale_base) t [75%positive]) (rb_calloc 75 (rb_calloc 72 rb_init))) as H.
  { eapply wp_mono; [apply (st_insert_ok (T := rb_tree) _ _ [])|].
    - apply (@st_calloc_ok rb_tree rb_SleepTree); [|apply not_elem_of_nil].
      apply (@st_calloc_ok rb_tree rb_SleepTree); [|apply not_elem_of_nil].
      exact (@st_init_ok rb_tree rb_SleepTree _).
    - apply not_elem_of_nil.
    - intros o t [-> Ht]. exact Ht. }
  exact H.
Qed.

Lemma disable_stale_timer_witness :
  wp (alt_disable 72%positive) (λ _ s', altsleepers s' [] ∧ s_altsleep_num (sched s') = 0%Z) stale_state.
Proof.
  apply (disable_stale_timer 72 sel_time 70 sel_alt 1 (demo_proc PROC_RUNNING) [75%positive] RB_BLACK); try done.
  - exact stale_rep.
  - by apply (bool_decide_unpack _).
Defined.
End examples.
