(* ===== verification/AltAdd.v ===== *)
(** * The set-up of an ALT: alt_init and alt_addguard on every argument

    What the arguments become is a function on lists, [gather]; the store follows
    it step by step, also when a time guard replaces an earlier one, which is
    freed and stays in the queue. *)
From stdpp Require Import base tactics list gmap.
From Stdlib Require Import ZArith Lia.
From S2P Require Import Prelude Tailq Rbtree RbInsert RbSpec State SchedOps Exec Csp.
From S2P Require Import AltCore Alt AltSpec AltSelect Proxc System AltGuards.

(** ** What the arguments become *)

(** The queue with the keys, the time guard kept so far, and the guards freed. *)
Record gathered := Gathered {
  ga_queue : list (loc * Z);
  ga_time : option loc;
  ga_freed : list loc
}.

Definition nothing : gathered := Gathered [] None [].

(** The queue does not end in a freed guard. *)
Definition end_live (q : list (loc * Z)) (freed : list loc) : bool :=
  match last q with Some (t, _) => bool_decide (t ∉ freed) | None => true end.

(** Guard [g] goes to the end of the queue; [None] when that writes to a freed guard. *)
Definition gather_put (g : loc) (key : Z) (q : list (loc * Z)) (time : option loc) (freed : list loc) :
    option gathered :=
  if end_live q freed then Some (Gathered (q ++ [(g, key)]) time freed) else None.

(** One argument: of the time guards the one with the lowest deadline is kept, and
    one that a later argument beats is freed. *)
Definition gather1 (gm : gmap loc Guard) (key : Z) (o : option loc) (x : gathered) : option gathered :=
  let '(Gathered q time freed) := x in
  match o with
  | None => Some x
  | Some g =>
      v ← gm !! g;
      if decide (g_type v = GUARD_TIME) then
        match time with
        | None => gather_put g key q (Some g) freed
        | Some t =>
            w ← gm !! t;
            if (g_usec w <=? g_usec v)%Z then Some x
            else gather_put g key q (Some g) (freed ++ [t])
        end
      else gather_put g key q time freed
  end.

Fixpoint gather (gm : gmap loc Guard) (key : Z) (l : list (option loc)) (x : gathered) : option gathered :=
  match l with
  | [] => Some x
  | o :: l => x' ← gather1 gm key o x; gather gm (key + 1) l x'
  end.

(** What holds of the arguments [pre] read so far. *)
Record gather_ok (gm : gmap loc Guard) (pre : list (option loc)) (x : gathered) : Prop := {
  go_nodup : NoDup (ga_queue x).*1;
  go_position g k : (g, k) ∈ ga_queue x → (0 ≤ k)%Z ∧ pre !! Z.to_nat k = Some (Some g);
  go_complete i g : pre !! i = Some (Some g) → ¬ is_timer gm g → (g, Z.of_nat i) ∈ ga_queue x;
  go_time t : ga_time x = Some t → t ∈ (ga_queue x).*1 ∧ t ∉ ga_freed x ∧ is_timer gm t;
  go_freed t : t ∈ ga_freed x → t ∈ (ga_queue x).*1 ∧ is_timer gm t;
  go_kept t : t ∈ (ga_queue x).*1 → is_timer gm t → ga_time x = Some t ∨ t ∈ ga_freed x;
  go_lowest g v : Some g ∈ pre → gm !! g = Some v → g_type v = GUARD_TIME →
    ∃ t w, ga_time x = Some t ∧ gm !! t = Some w ∧ (g_usec w ≤ g_usec v)%Z
}.

Lemma gather_ok_nothing gm : gather_ok gm [] nothing.
Proof. split; simpl; [constructor|..]; intros *; rewrite ?elem_of_nil; try done. Qed.

Lemma queue_elem (q : list (loc * Z)) g : g ∈ q.*1 ↔ ∃ k, (g, k) ∈ q.
Proof.
  rewrite list_elem_of_fmap. split; [intros ([? k] & -> & ?); by exists k|intros [k ?]; by exists (g, k)].
Qed.

Lemma go_in gm pre x g : gather_ok gm pre x → g ∈ (ga_queue x).*1 → Some g ∈ pre.
Proof. intros Hok [k Hk]%queue_elem. apply (go_position _ _ _ Hok) in Hk as [_ Hk]. by eapply list_elem_of_lookup_2. Qed.

Lemma is_timer_Some gm g v : gm !! g = Some v → is_timer gm g ↔ g_type v = GUARD_TIME.
Proof. intros Hv. unfold is_timer. rewrite Hv. simpl. split; congruence. Qed.

(** An argument that is not kept. *)
Lemma gather_ok_skip gm pre o x :
  gather_ok gm pre x →
  match o with
  | Some g => is_timer gm g ∧ ∀ v, gm !! g = Some v → ∃ t w, ga_time x = Some t ∧ gm !! t = Some w ∧ (g_usec w ≤ g_usec v)%Z
  | None => True
  end → gather_ok gm (pre ++ [o]) x.
Proof.
  intros [] Ho. split; try done.
  - intros g k Hk. destruct (go_position0 g k Hk) as [? Hp]. split; [done|]. by apply lookup_app_l_Some.
  - intros i g [Hi|[Hi Hg]]%lookup_app_Some Ht; [by apply go_complete0|]. exfalso.
    destruct (i - length pre); simpl in Hg; [|done]. simplify_eq. by destruct Ho.
  - intros g v [Hg| <-%list_elem_of_singleton]%elem_of_app Hv Hty; [by eapply go_lowest0|].
    destruct Ho as [_ Ho]. by apply Ho.
Qed.

(** A kept argument; [time] and [freed] tell whether it is a time guard, and the best. *)
Lemma gather_ok_put gm pre g v q time freed time' freed' :
  gather_ok gm pre (Gathered q time freed) → Some g ∉ pre → gm !! g = Some v →
  (if decide (g_type v = GUARD_TIME) then time' = Some g ∧
     match time with
     | None => freed' = freed
     | Some t => freed' = freed ++ [t] ∧ ∃ w, gm !! t = Some w ∧ (g_usec v < g_usec w)%Z
     end
   else time' = time ∧ freed' = freed) →
  gather_ok gm (pre ++ [Some g]) (Gathered (q ++ [(g, Z.of_nat (length pre))]) time' freed').
Proof.
  intros Hok Hg Hv Hcase. pose proof (go_in _ _ _ g Hok) as Hgq. pose proof (is_timer_Some _ _ _ Hv) as Htv.
  destruct Hok as [H1 H2 H3 H4 H5 H6 H7]. cbn [ga_queue ga_time ga_freed] in *.
  assert (∀ x, x ∈ q.*1 → x ≠ g) as Hne by (intros x Hx ->; auto).
  assert (∀ t, t ∈ (q ++ [(g, Z.of_nat (length pre))]).*1 ↔ t ∈ q.*1 ∨ t = g) as Hq'.
  { intros t. rewrite fmap_app, elem_of_app. simpl. by rewrite list_elem_of_singleton. }
  assert (∀ t, t ∈ freed' → t ∈ q.*1 ∧ is_timer gm t ∧ (t ∈ freed ∨ time = Some t ∧ time' = Some g)) as Hfr.
  { intros t Ht. destruct (decide (g_type v = GUARD_TIME)); [|destruct Hcase as [_ ->]; destruct (H5 t Ht); auto].
    destruct Hcase as [-> Hcase], time as [t0|]; [destruct Hcase as [-> _]|subst; destruct (H5 t Ht); auto].
    apply elem_of_app in Ht as [Ht| ->%list_elem_of_singleton]; [destruct (H5 t Ht); auto|].
    destruct (H4 t0) as (? & ? & ?); auto 6. }
  split; cbn [ga_queue ga_time ga_freed].
  - rewrite fmap_app. apply NoDup_app. split; [done|]. split; [|apply NoDup_singleton].
    intros x Hx%Hne ->%list_elem_of_singleton. done.
  - intros x k [Hk|[= -> ->]%list_elem_of_singleton]%elem_of_app.
    + destruct (H2 x k Hk) as [? ?]. split; [done|]. by apply lookup_app_l_Some.
    + split; [lia|]. rewrite Nat2Z.id. by apply list_lookup_middle.
  - intros i x [Hi|[Hi Hx]]%lookup_app_Some Ht; [apply elem_of_app; left; by apply H3|].
    destruct (i - length pre) eqn:Hlen; simpl in Hx; [|done]. injection Hx as <-. apply elem_of_app. right.
    replace i with (length pre) by lia. by apply list_elem_of_singleton.
  - intros t Ht. rewrite Hq'. destruct (decide (g_type v = GUARD_TIME)) as [Hty|Hty].
    + destruct Hcase as [-> _]. injection Ht as <-. split; [by right|]. split; [|by apply Htv].
      intros Hin. destruct (Hfr g Hin) as [Hin' _]. by apply Hne in Hin'.
    + destruct Hcase as [-> ->]. destruct (H4 t Ht) as (? & ? & ?). auto.
  - intros t Ht. rewrite Hq'. destruct (Hfr t Ht) as (? & ? & _). auto.
  - intros t [Ht| ->]%Hq' Htim.
    + destruct (H6 t Ht Htim) as [->|Hin].
      * destruct (decide (g_type v = GUARD_TIME)); destruct Hcase as [-> Hcase]; [|by left].
        destruct Hcase as [-> _]. right. set_solver.
      * right. destruct (decide (g_type v = GUARD_TIME)); [|by destruct Hcase as [_ ->]].
        destruct Hcase as [_ Hcase], time as [t0|]; [destruct Hcase as [-> _]; set_solver|by subst].
    + left. apply Htv in Htim. rewrite decide_True in Hcase by done. by destruct Hcase.
  - intros x u [Hx|[= ->]%list_elem_of_singleton]%elem_of_app Hu Hty.
    + destruct (H7 x u Hx Hu Hty) as (t & w & -> & Hw & Hle).
      destruct (decide (g_type v = GUARD_TIME)); destruct Hcase as [-> Hcase]; [|by exists t, w].
      destruct Hcase as (_ & w' & Hw' & Hlt). exists g, v. split_and!; [done|done|]. assert (w' = w) as -> by congruence. lia.
    + assert (u = v) as -> by congruence. rewrite decide_True in Hcase by done.
      destruct Hcase as [-> _]. by exists g, v.
Qed.

Lemma gather1_ok gm pre o x x' :
  gather_ok gm pre x → (∀ g, o = Some g → Some g ∉ pre) →
  gather1 gm (Z.of_nat (length pre)) o x = Some x' → gather_ok gm (pre ++ [o]) x'.
Proof.
  intros Hok Hnew Hx. destruct x as [q time freed]. destruct o as [g|]; simpl in Hx; [|injection Hx as <-; by apply gather_ok_skip].
  apply bind_Some in Hx as (v & Hv & Hx). specialize (Hnew g eq_refl).
  assert (∀ time' freed', gather_put g (Z.of_nat (length pre)) q time' freed' = Some x' →
    x' = Gathered (q ++ [(g, Z.of_nat (length pre))]) time' freed') as Hput.
  { intros ? ? Hput. unfold gather_put in Hput. by destruct (end_live _ _); simplify_eq. }
  destruct (decide (g_type v = GUARD_TIME)) as [Hty|Hty].
  - destruct time as [t|].
    + apply bind_Some in Hx as (w & Hw & Hx). destruct (Z.leb_spec (g_usec w) (g_usec v)).
      * injection Hx as <-. apply gather_ok_skip; [done|]. split; [by apply (is_timer_Some _ _ v)|].
        intros v' Hv'. assert (v' = v) as -> by congruence. by exists t, w.
      * apply Hput in Hx as ->. eapply gather_ok_put; [done..|]. rewrite decide_True by done.
        split; [done|]. split; [done|]. by exists w.
    + apply Hput in Hx as ->. eapply gather_ok_put; [done..|]. by rewrite decide_True by done.
  - apply Hput in Hx as ->. eapply gather_ok_put; [done..|]. by rewrite decide_False by done.
Qed.

Lemma gather_all_ok gm l : ∀ pre x x',
  gather_ok gm pre x → NoDup (omap id (pre ++ l)) →
  gather gm (Z.of_nat (length pre)) l x = Some x' → gather_ok gm (pre ++ l) x'.
Proof.
  induction l as [|o l IH]; intros pre x x' Hok Hnd Hx; simpl in Hx.
  - simplify_eq. by rewrite app_nil_r.
  - apply bind_Some in Hx as (x1 & H1 & Hx). change (o :: l) with ([o] ++ l) in Hnd |- *. rewrite app_assoc in Hnd |- *.
    apply (IH _ x1); [|done|].
    + eapply gather1_ok; [done| |done]. intros g ->. rewrite !omap_app in Hnd. simpl in Hnd.
      apply NoDup_app in Hnd as (Hnd & _ & _). apply NoDup_app in Hnd as (_ & Hd & _).
      intros Hin. apply (Hd g); [apply list_elem_of_omap; by exists (Some g)|by left].
    + rewrite length_app, Nat2Z.inj_add. done.
Qed.

(** ** A computation that returns, or is undefined *)

(** [m] returns with [Q x], or is undefined, as [o] says. *)
Definition follows {S A X} (o : option X) (m : M S A) (Q : X → A → S → Prop) (s : S) : Prop :=
  match o with Some x => wp m (Q x) s | None => m s = Undef end.

Lemma follows_bind {S A B X} (o : option X) (m : M S A) (k : A → M S B) Q s :
  wp m (λ a s', follows o (k a) Q s') s → follows o (m ≫= k) Q s.
Proof. destruct o; [apply wp_bind|apply undef_bind]. Qed.

Lemma follows_first {S A B X} (o : option X) (m : M S A) (k : A → M S B) Q s :
  follows o m (λ x a s', wp (k a) (Q x) s') s → follows o (m ≫= k) Q s.
Proof. destruct o; [apply wp_bind|apply undef_first]. Qed.

Lemma follows_mono {S A X} (o : option X) (m : M S A) (Q Q' : X → A → S → Prop) s :
  follows o m Q s → (∀ x a s', o = Some x → Q x a s' → Q' x a s') → follows o m Q' s.
Proof. destruct o; simpl; [|done]. intros. eapply wp_mono; [done|]. auto. Qed.

Section alt_add.
Context {T : Type} {TT : SleepTree T} {E : Env}.
Implicit Types s : St T.

(** ** The store after some arguments *)

(** From [s0] to [s]: the guards [q] were queued by the ALT [al] of process [p],
    with their keys, and those in [freed] have been freed. *)
Record gathered_in (al p : loc) (q : list (loc * Z)) (freed : list loc) s0 s : Prop := {
  gi_freed g : g ∈ freed → guards s !! g = None;
  gi_kept g k : (g, k) ∈ q → g ∉ freed → guards s !! g = g_set_key_alt k (Some al) <$> guards s0 !! g;
  gi_other g : g ∉ q.*1 → guards s !! g = guards s0 !! g;
  gi_end g v ce : g ∈ q.*1 → g ∉ freed → guards s0 !! g = Some v → ends s0 !! g_ch_end v = Some ce →
    ends s !! g_ch_end v = Some (ce_set_proc (Some p) ce);
  gi_ends e : (∀ g v, g ∈ q.*1 → guards s0 !! g = Some v → g_ch_end v ≠ e) → ends s !! e = ends s0 !! e;
  gi_same : procs s = procs s0 ∧ chans s = chans s0 ∧ mem s = mem s0 ∧ n_malloc s = n_malloc s0;
  gi_sched : ∃ t, sched s = s_set_altsleep (s_altsleep_num (sched s0)) t (sched s0) ∧
    (freed = [] → t = s_altsleep_RB (sched s0))
}.

Lemma gathered_in_nil al p s0 : gathered_in al p [] [] s0 s0.
Proof.
  split; intros *; rewrite ?elem_of_nil; try done.
  exists (s_altsleep_RB (sched s0)). split; [by destruct (sched s0)|done].
Qed.

Lemma gathered_in_alts al p q freed s0 s f :
  gathered_in al p q freed s0 s → gathered_in al p q freed s0 (set_alts f s).
Proof. by intros []. Qed.

(** The guards of the arguments have ends of their own. *)
Definition apart (args : list (option loc)) s0 : Prop :=
  ∀ g1 g2 v1 v2, Some g1 ∈ args → Some g2 ∈ args → guards s0 !! g1 = Some v1 →
    guards s0 !! g2 = Some v2 → g_ch_end v1 = g_ch_end v2 → g1 = g2.

Lemma free_gathered al p q freed s0 s args t k v0 :
  gathered_in al p q freed s0 s → apart args s0 → (∀ g, g ∈ q.*1 → Some g ∈ args) →
  (t, k) ∈ q → t ∉ freed → guards s0 !! t = Some v0 →
  wp (alt_guardfree (Some t)) (λ _ s', gathered_in al p q (freed ++ [t]) s0 s' ∧ alts s' = alts s) s.
Proof.
  intros [Hf Hk Ho He Hes Hs (tr & Hsch & Hnil)] Hap Hq Ht Htf Hv0. pose proof (Hk t k Ht Htf) as Hv.
  rewrite Hv0 in Hv. simpl in Hv. assert (t ∈ q.*1) as Htq by (apply queue_elem; by exists k).
  unfold alt_guardfree. steps. split; [|done]. split; simpl; try done.
  - intros g [Hg| ->%list_elem_of_singleton]%elem_of_app; [|apply lookup_delete_eq].
    destruct (decide (g = t)) as [->|]; [apply lookup_delete_eq|]. rewrite lookup_delete_ne by done. by apply Hf.
  - intros g k' Hg [Hgf Hgt%not_elem_of_cons]%not_elem_of_app. rewrite lookup_delete_ne by naive_solver. by apply Hk.
  - intros g Hg. rewrite lookup_delete_ne by (by intros ->). by apply Ho.
  - intros g v ce Hg [Hgf Hgt%not_elem_of_cons]%not_elem_of_app Hgv Hce. rewrite lookup_delete_ne; [by eapply He|].
    intros Heq. destruct Hgt as [Hgt _]. apply Hgt. symmetry.
    by apply (Hap t g v0 v); [apply Hq..|done|done|exact Heq].
  - intros e Hne. rewrite lookup_delete_ne; [by apply Hes|]. by apply (Hne t v0).
  - exists (st_free t (s_altsleep_RB (sched s))). split; [by rewrite Hsch|]. by intros [_ ?]%app_nil.
Qed.

(** ** One argument *)

(** The end of alt_addguard. *)
Definition put_guard (al g : loc) (key : Z) (a : Alt) : M (St T) () :=
  modg g (g_set_key_alt key (Some al)) ;;
  w ← getg g;
  ce ← gete (g_ch_end w);
  pute (g_ch_end w) (ce_set_proc (a_proc a) ce) ;;
  a ← geta al;
  live ← live_guards;
  q' ← TQ_INSERT_TAIL live (a_guardsQ a) g;
  puta al (a_set_guards (u64 (a_guards_num a + 1)) q' a).

Lemma last_live al p q freed s0 s g u :
  gathered_in al p q freed s0 s → (∀ g, g ∈ q.*1 → is_Some (guards s0 !! g)) → g ∉ q.*1 →
  from_option (live_in (<[g := u]> (guards s))) true (last q.*1) = end_live q freed.
Proof.
  intros [Hf Hk _ _ _ _ _] Hlive Hg. unfold end_live. rewrite fmap_last. destruct (last q) as [[t k]|] eqn:Hl; [|done].
  simpl. assert ((t, k) ∈ q) as Ht by (apply last_Some in Hl as [l ->]; set_solver).
  assert (t ∈ q.*1) as Htq by (apply queue_elem; by exists k).
  unfold live_in. rewrite lookup_insert_ne by (by intros ->). apply bool_decide_ext. split.
  - intros [w Hw] Hin. by rewrite (Hf t Hin) in Hw.
  - intros Hn. rewrite (Hk t k Ht Hn). apply fmap_is_Some. by apply Hlive.
Qed.

Lemma put_gathered al p q time freed s0 s args g v ce a a1 key :
  gathered_in al p q freed s0 s → apart args s0 → (∀ g, g ∈ q.*1 → Some g ∈ args) → Some g ∈ args →
  (∀ g, g ∈ q.*1 → is_Some (guards s0 !! g)) → g ∉ q.*1 → g ∉ freed → (∀ t, t ∈ freed → t ∈ q.*1) →
  guards s0 !! g = Some v → ends s0 !! g_ch_end v = Some ce →
  a_proc a1 = Some p → alts s !! al = Some a → a_guardsQ a = q.*1 →
  follows (gather_put g key q time freed) (put_guard al g key a1) (λ x' _ s',
    gathered_in al p (ga_queue x') (ga_freed x') s0 s' ∧ x' = Gathered (q ++ [(g, key)]) time freed ∧
    alts s' !! al = Some (a_set_guards (u64 (a_guards_num a + 1)) (ga_queue x').*1 a)) s.
Proof.
  intros Hin Hap Hq Hga Hlive Hg Hgf Hfq Hv Hce Hp Ha Haq. pose proof (last_live _ _ _ _ _ _ g
    (g_set_key_alt key (Some al) v) Hin Hlive Hg) as Hlast.
  destruct Hin as [Hf Hk Ho He Hes Hs Hsch]. pose proof Hv as Hvs. rewrite <-Ho in Hvs by done.
  assert (∀ x w, x ∈ q.*1 → guards s0 !! x = Some w → g_ch_end w ≠ g_ch_end v) as Hne.
  { intros x w Hx Hw Heq. apply Hg. assert (x = g) as -> by (eapply Hap; eauto). done. }
  pose proof Hce as Hces. rewrite <-Hes in Hces by done.
  unfold put_guard. apply follows_bind. step. apply follows_bind. eapply wp_getg; [by apply lookup_insert_eq|].
  apply follows_bind. eapply wp_gete; [exact Hces|]. apply follows_bind. step. apply follows_bind. step.
  apply follows_bind. apply wp_get. apply follows_first. unfold TQ_INSERT_TAIL, Q.insert_tail. cbn [guards set_ends set_guards].
  rewrite Haq, Hlast, bool_decide_true by done.
  assert (live_in (<[g := g_set_key_alt key (Some al) v]> (guards s)) g = true) as ->
    by (apply live_in_Some; eexists; apply lookup_insert_eq).
  unfold gather_put. destruct (end_live q freed); simpl; [|done]. step. split; [|split; [done|]]; simpl.
  2: { rewrite lookup_insert_eq, fmap_app. done. }
  assert (∀ x, x ∈ (q ++ [(g, key)]).*1 ↔ x ∈ q.*1 ∨ x = g) as Hq'.
  { intros x. rewrite fmap_app, elem_of_app. simpl. by rewrite list_elem_of_singleton. }
  split; simpl.
  - intros x Hx. rewrite lookup_insert_ne by (intros ->; auto). by apply Hf.
  - intros x k [Hx|[= -> ->]%list_elem_of_singleton]%elem_of_app Hn.
    + rewrite lookup_insert_ne; [by apply Hk|]. intros ->. apply Hg, queue_elem. by exists k.
    + by rewrite lookup_insert_eq, Hv.
  - intros x Hx. rewrite Hq' in Hx. rewrite lookup_insert_ne by naive_solver. apply Ho. naive_solver.
  - intros x w ce' [Hx| ->]%Hq' Hn Hw Hce'.
    + rewrite lookup_insert_ne by (intros Heq; by eapply Hne). by eapply He.
    + assert (w = v) as -> by congruence. rewrite lookup_insert_eq, Hp. congruence.
  - intros e Hn. rewrite lookup_insert_ne; [apply Hes|]; [|apply (Hn g v); [apply Hq'; by right|done]].
    intros x w Hx. apply Hn, Hq'. by left.
  - exact Hs.
  - exact Hsch.
Qed.

(** The ALT after the arguments [pre]. *)
Definition filled (a0 : Alt) (pre : list (option loc)) (x : gathered) : Alt :=
  a_set_guard_time (ga_time x) (a_set_guards (Z.of_nat (length (ga_queue x))) (ga_queue x).*1
    (a_set_key_count (Z.of_nat (length pre)) a0)).

Definition filling (al p : loc) (a0 : Alt) (pre : list (option loc)) (x : gathered) s0 s : Prop :=
  gathered_in al p (ga_queue x) (ga_freed x) s0 s ∧ alts s !! al = Some (filled a0 pre x).

(** The arguments: live guards with live ends, no guard twice, and no more than an int can count. *)
Record good_args (args : list (option loc)) s0 : Prop := {
  ag_nodup : NoDup (omap id args);
  ag_len : (Z.of_nat (length args) ≤ INT_MAX)%Z;
  ag_live g : Some g ∈ args → ∃ v ce, guards s0 !! g = Some v ∧ ends s0 !! g_ch_end v = Some ce;
  ag_apart : apart args s0
}.

Lemma good_old args pre rest s0 g : good_args args s0 → args = pre ++ rest → Some g ∈ pre → Some g ∈ args.
Proof. intros _ -> ?. apply elem_of_app. by left. Qed.

Lemma good_new args pre g rest s0 : good_args args s0 → args = pre ++ Some g :: rest → Some g ∉ pre.
Proof.
  intros [Hnd _ _ _] -> Hin. rewrite omap_app in Hnd. apply NoDup_app in Hnd as (_ & Hd & _).
  apply (Hd g); [apply list_elem_of_omap; by exists (Some g)|by left].
Qed.

Lemma queue_short gm pre x : gather_ok gm pre x → length (ga_queue x) ≤ length pre.
Proof.
  intros Hok. transitivity (length (omap id pre)).
  - rewrite <-(length_fmap fst). apply submseteq_length, NoDup_submseteq; [apply Hok|].
    intros g Hg. apply list_elem_of_omap. exists (Some g). split; [|done]. by eapply go_in.
  - clear. induction pre as [|[g|] pre IH]; [done|apply le_n_S, IH|apply le_S, IH].
Qed.

(** The argument [g] goes into the queue. *)
Lemma put_filling al p a0 a1 pre g rest x s0 s args time' freed' :
  args = pre ++ Some g :: rest → good_args args s0 → gather_ok (guards s0) pre x →
  a_proc a0 = Some p → a_proc a1 = Some p →
  gathered_in al p (ga_queue x) freed' s0 s → (∀ t, t ∈ freed' → t ∈ (ga_queue x).*1) →
  alts s !! al = Some (a_set_guard_time time' (a_set_key_count (Z.of_nat (length pre) + 1) (filled a0 pre x))) →
  follows (gather_put g (Z.of_nat (length pre)) (ga_queue x) time' freed')
    (put_guard al g (Z.of_nat (length pre)) a1) (λ x' _, filling al p a0 (pre ++ [Some g]) x' s0) s.
Proof.
  intros Hargs Hgood Hok Hp0 Hp1 Hin Hfq Ha. pose proof (good_new _ _ _ _ _ Hgood Hargs) as Hnew.
  assert (Some g ∈ args) as Hga by (rewrite Hargs; set_solver).
  destruct (ag_live _ _ Hgood g Hga) as (v & ce & Hv & Hce).
  assert (∀ x', x' ∈ (ga_queue x).*1 → Some x' ∈ args) as Hq.
  { intros y Hy. eapply good_old; [done..|]. by eapply go_in. }
  assert (g ∉ (ga_queue x).*1) as Hgq by (intros Hy; apply Hnew; by eapply go_in).
  eapply follows_mono.
  { eapply (put_gathered al p _ time'); [exact Hin|apply Hgood|exact Hq|done| |done| |done|exact Hv|exact Hce|done|exact Ha|done].
    - intros y Hy. destruct (ag_live _ _ Hgood y) as (w & _ & ? & _); [by apply Hq|by exists w].
    - intros Hy. by apply Hgq, Hfq. }
  intros x' [] s' _ (Hin' & -> & Ha'). split; [done|]. rewrite Ha'. f_equal.
  unfold filled, a_set_guards, a_set_guard_time. simpl.
  pose proof (queue_short _ _ _ Hok) as Hshort. pose proof (ag_len _ _ Hgood) as Hlen.
  rewrite Hargs, length_app in Hlen. simpl in Hlen. unfold INT_MAX in Hlen. rewrite !length_app. simpl.
  f_equal; [lia|]. unfold u64. rewrite Z.mod_small; unfold U64; lia.
Qed.

(** alt_addguard follows [gather1]. *)
Lemma add_gathered al p a0 pre o rest x s0 s args :
  args = pre ++ o :: rest → good_args args s0 → gather_ok (guards s0) pre x → a_proc a0 = Some p →
  filling al p a0 pre x s0 s →
  follows (gather1 (guards s0) (Z.of_nat (length pre)) o x) (alt_addguard al o)
    (λ x' _, filling al p a0 (pre ++ [o]) x' s0) s.
Proof.
  intros Hargs Hgood Hok Hp [Hin Ha]. pose proof (ag_len _ _ Hgood) as Hlen.
  rewrite Hargs, length_app in Hlen. simpl in Hlen.
  assert ((INT_MAX <=? Z.of_nat (length pre))%Z = false) as Hcount by (apply Z.leb_gt; lia).
  set (a := filled a0 pre x) in *. set (s1 := set_alts <[al := a_set_key_count (Z.of_nat (length pre) + 1) a]> s).
  assert (gathered_in al p (ga_queue x) (ga_freed x) s0 s1) as Hin1 by by apply gathered_in_alts.
  assert (alts s1 !! al = Some (a_set_key_count (Z.of_nat (length pre) + 1) a)) as Ha1 by apply lookup_insert_eq.
  assert (filling al p a0 (pre ++ [o]) x s0 s1) as Hskip.
  { split; [done|]. rewrite Ha1. unfold filled, a, a_set_guards, a_set_guard_time, a_set_key_count. simpl.
    rewrite length_app. simpl. do 2 f_equal. lia. }
  destruct x as [q time freed]. cbn [ga_queue ga_time ga_freed] in *.
  unfold alt_addguard. apply follows_bind. step. cbn [a_key_count filled a_set_guard_time a_set_guards a_set_key_count a].
  rewrite Hcount. apply follows_bind. step. destruct o as [g|]; [|simpl; by step].
  pose proof (good_new _ _ _ _ _ Hgood Hargs) as Hnew.
  assert (g ∉ q.*1) as Hgq by (intros Hy; apply Hnew; by eapply (go_in _ _ _ _ Hok)).
  destruct (ag_live _ _ Hgood g) as (v & ce & Hv & Hce); [rewrite Hargs; set_solver|].
  assert (∀ time' freed' s2, gathered_in al p q freed' s0 s2 → (∀ t, t ∈ freed' → t ∈ q.*1) →
    alts s2 !! al = Some (a_set_guard_time time' (a_set_key_count (Z.of_nat (length pre) + 1) a)) →
    follows (gather_put g (Z.of_nat (length pre)) q time' freed') (put_guard al g (Z.of_nat (length pre)) a)
      (λ x' _, filling al p a0 (pre ++ [Some g]) x' s0) s2) as Hput.
  { intros time' freed' s2 H1 H2 H3. by apply (put_filling al p a0 a pre g rest (Gathered q time freed) s0 s2 args). }
  assert (∀ t, t ∈ freed → t ∈ q.*1) as Hfq by (intros t Ht; by apply (go_freed _ _ _ Hok)).
  pose proof (go_time _ _ _ Hok) as Htime. cbn [ga_queue ga_time ga_freed] in *.
  pose proof Hv as Hvs. rewrite <-(gi_other _ _ _ _ _ _ Hin1 g Hgq) in Hvs.
  apply follows_bind. eapply wp_getg; [exact Hvs|]. apply follows_bind.
  unfold time_guard_loses, guard_time_usec. simpl. rewrite Hv. simpl.
  destruct (decide (g_type v = GUARD_TIME)) as [Hty|Hty].
  - rewrite Hty. destruct time as [t|].
    + destruct (Htime t eq_refl) as (Htq & Htf & [w [Hw Hwt]]%fmap_Some). apply queue_elem in Htq as [k Htk].
      rewrite Hw. cbn [mbind option_bind]. step. step.
      pose proof (gi_kept _ _ _ _ _ _ Hin1 t k Htk Htf) as Hts. rewrite Hw in Hts.
      eapply wp_getg; [exact Hts|]. step. step. simpl.
      destruct (Z.leb_spec (g_usec w) (g_usec v)); [simpl; by step|].
      apply follows_bind. step. eapply wp_mono.
      { eapply free_gathered; [exact Hin1|apply Hgood| |exact Htk|exact Htf|exact Hw].
        intros y Hy. eapply good_old; [done..|]. by eapply (go_in _ _ _ _ Hok). }
      intros [] s2 [Hin2 Hal2]. eapply wp_moda; [by rewrite Hal2|].
      apply Hput; [by apply gathered_in_alts| |by apply lookup_insert_eq].
      intros y [Hy| ->%list_elem_of_singleton]%elem_of_app; [by apply Hfq|]. apply queue_elem. by exists k.
    + step. step. step. apply follows_bind. rewrite bool_decide_true by done. simpl. step. step. step.
      apply Hput; [by apply gathered_in_alts|done|by apply lookup_insert_eq].
  - eapply (wp_mono _ (λ b s', b = false ∧ s' = s1)); [by destruct (g_type v); [step|done|step]|].
    intros b ? [-> ->]. apply follows_bind. rewrite bool_decide_false by done. simpl. step.
    apply Hput; [done..|exact Ha1].
Qed.

(** alt_addguard on all the arguments. *)
Lemma addguards_gathered al p a0 s0 args l : ∀ pre x s,
  args = pre ++ l → good_args args s0 → gather_ok (guards s0) pre x → a_proc a0 = Some p →
  filling al p a0 pre x s0 s →
  follows (gather (guards s0) (Z.of_nat (length pre)) l x) (addguards al (with_sentinel (varg_of <$> l)))
    (λ x' _, filling al p a0 args x' s0) s.
Proof.
  induction l as [|o l IH]; intros pre x s Hargs Hgood Hok Hp Hfill.
  { rewrite app_nil_r in Hargs. subst args. simpl. by step. }
  pose proof (add_gathered al p a0 pre o l x s0 s args Hargs Hgood Hok Hp Hfill) as Hadd.
  assert (∀ x', gather1 (guards s0) (Z.of_nat (length pre)) o x = Some x' → gather_ok (guards s0) (pre ++ [o]) x') as Hok'.
  { intros x' Hx'. eapply gather1_ok; [exact Hok| |exact Hx']. intros g ->. by eapply good_new. }
  assert (addguards al (with_sentinel (varg_of <$> o :: l)) =
    (alt_addguard al o ;; addguards al (with_sentinel (varg_of <$> l)))) as -> by by destruct o.
  cbn [gather]. destruct (gather1 _ _ o x) as [x1|]; simpl in Hadd |- *; [|by apply undef_first].
  apply follows_bind. eapply wp_mono; [exact Hadd|]. intros [] s1 Hfill1.
  replace (Z.of_nat (length pre) + 1)%Z with (Z.of_nat (length (pre ++ [o]))) by (rewrite length_app; simpl; lia).
  apply IH; auto. by rewrite <-app_assoc.
Qed.

(** The ALT as [alt_init] makes it. *)
Definition blank_alt (p : loc) : Alt := MkAlt 0 false None None 0 [] None None (Some p).

Lemma alt_init_ok al p s :
  s_curr_proc (sched s) = Some p →
  wp (alt_init al) (λ _ s', s' = set_alts <[al := blank_alt p]> s) s.
Proof. intros Hcurr. unfold alt_init, proc_self. by steps. Qed.

(** The set-up of an ALT follows [gather]. *)
Lemma alt_set_up al p l s :
  s_curr_proc (sched s) = Some p → good_args l s →
  follows (gather (guards s) 0 l nothing) (alt_init al ;; addguards al (with_sentinel (varg_of <$> l)))
    (λ x _ s', filling al p (blank_alt p) l x s s' ∧ gather_ok (guards s) l x) s.
Proof.
  intros Hcurr Hgood. apply follows_bind. eapply wp_mono; [by apply (alt_init_ok al p)|]. intros [] ? ->.
  eapply follows_mono; [eapply (addguards_gathered al p (blank_alt p) s l l [] nothing)|]; try done.
  - apply gather_ok_nothing.
  - split; [|by apply lookup_insert_eq]. apply gathered_in_alts, gathered_in_nil.
  - intros x [] s' Hx Hfill. split; [done|]. apply (gather_all_ok _ l [] nothing); [apply gather_ok_nothing| |done].
    apply (ag_nodup _ _ Hgood).
Qed.

(** C27: the set-up of an ALT, whatever its arguments.  After [alt_init] and
    [alt_addguard] on every argument, [guards.Q] holds, in order, the active guards
    with their positions among all the arguments (inactive ones counted) as keys;
    all of them belong to this ALT and its process.  Of the time guards the one with
    the lowest deadline is kept; one that comes when an earlier or equal deadline is
    there is dropped; and one that a later argument beats is freed but stays in the
    queue.  When that one is the last of the queue at that moment, the insertion of
    the later guard writes to it: the behaviour is undefined, and only then. *)
Theorem alt_keys al p l s :
  s_curr_proc (sched s) = Some p → good_args l s →
  match gather (guards s) 0 l nothing with
  | None => (alt_init al ;; addguards al (with_sentinel (varg_of <$> l))) s = Undef
  | Some (Gathered q time freed) =>
      wp (alt_init al ;; addguards al (with_sentinel (varg_of <$> l))) (λ _ s', ∃ a',
        alts s' !! al = Some a' ∧ a_key_count a' = Z.of_nat (length l) ∧ a_guardsQ a' = q.*1 ∧
        a_guards_num a' = Z.of_nat (length q) ∧ a_is_accepted a' = false ∧ a_proc a' = Some p ∧
        a_guard_time a' = time ∧
        (∀ g k, (g, k) ∈ q → l !! Z.to_nat k = Some (Some g) ∧
           if decide (g ∈ freed) then guards s' !! g = None
           else ∃ v, guards s !! g = Some v ∧ guards s' !! g = Some (g_set_key_alt k (Some al) v) ∧
             ce_proc <$> ends s' !! g_ch_end v = Some (Some p)) ∧
        (∀ g v, Some g ∈ l → guards s !! g = Some v → g_type v ≠ GUARD_TIME → g ∈ q.*1 ∧ g ∉ freed) ∧
        (∀ g v, Some g ∈ l → guards s !! g = Some v → g_type v = GUARD_TIME → ∃ t w,
           time = Some t ∧ t ∈ q.*1 ∧ t ∉ freed ∧ guards s !! t = Some w ∧ (g_usec w ≤ g_usec v)%Z) ∧
        (∀ t, t ∈ q.*1 → is_timer (guards s) t → time = Some t ∨ t ∈ freed)) s
  end.
Proof.
  intros Hcurr Hgood. pose proof (alt_set_up al p l s Hcurr Hgood) as H.
  destruct (gather _ _ _ _) as [[q time freed]|]; [|exact H]. eapply wp_mono; [exact H|].
  intros [] s' ((Hin & Ha) & Hok). exists (filled (blank_alt p) l (Gathered q time freed)).
  pose proof (go_freed _ _ _ Hok) as Hfr. pose proof (go_time _ _ _ Hok) as Htime. cbn [ga_queue ga_time ga_freed] in *.
  split_and!; try done.
  - intros g k Hg. destruct (go_position _ _ _ Hok g k Hg) as [_ Hl]. split; [done|].
    assert (g ∈ q.*1) as Hgq by (apply queue_elem; by exists k).
    destruct (ag_live _ _ Hgood g) as (v & ce & Hv & Hce); [by eapply list_elem_of_lookup_2|].
    destruct (decide (g ∈ freed)) as [Hf|Hf]; [by apply (gi_freed _ _ _ _ _ _ Hin)|]. exists v. split; [done|].
    rewrite (gi_kept _ _ _ _ _ _ Hin g k), (gi_end _ _ _ _ _ _ Hin g v ce), Hv by done. done.
  - intros g v [i Hi]%list_elem_of_lookup_1 Hv Hty. split.
    + apply queue_elem. exists (Z.of_nat i). apply (go_complete _ _ _ Hok); [done|]. by rewrite (is_timer_Some _ _ v).
    + intros [_ Ht]%Hfr. by apply (is_timer_Some _ _ v) in Ht.
  - intros g v Hg Hv Hty. destruct (go_lowest _ _ _ Hok g v Hg Hv Hty) as (t & w & Ht & Hw & Hle).
    destruct (Htime t Ht) as (? & ? & _). by exists t, w.
  - intros t Ht Htim. by apply (go_kept _ _ _ Hok).
Qed.
End alt_add.

(** ** The claim at concrete inputs *)

Section examples.
#[local] Existing Instance demo_env.

(** A second time guard, 73, with an earlier deadline than 72. *)
Definition two_timers : St rb_tree :=
  set_guards <[73%positive := MkGuard GUARD_TIME (-1) None 400 None 63 0 0 false]>
    (set_ends <[63%positive := MkEnd CHAN_WRITER 0 None None None]> (sel_state [])).

Lemma two_timers_good l :
  l = [Some 72; None; Some 71; Some 73]%positive ∨ l = [Some 72; Some 73]%positive → good_args l two_timers.
Proof.
  intros Hl. assert (∀ g, Some g ∈ l → ∃ v ce, guards two_timers !! g = Some v ∧ ends two_timers !! g_ch_end v = Some ce ∧
    g_ch_end v = (if decide (g = 71%positive) then 61 else if decide (g = 72%positive) then 62 else 63)%positive ∧
    g ∈ [71; 72; 73]%positive) as Hlive.
  { intros g Hg. assert (g ∈ [72; 71; 73]%positive) as Hin.
    { destruct Hl as [-> | ->]; rewrite !elem_of_cons, elem_of_nil in Hg; set_solver. }
    rewrite !elem_of_cons, elem_of_nil in Hin. destruct Hin as [->|[->|[->|[]]]]; do 2 eexists;
      (split; [reflexivity|]); (split; [reflexivity|]); (split; [reflexivity|set_solver]). }
  split.
  - destruct Hl as [-> | ->]; by apply (bool_decide_unpack _).
  - destruct Hl as [-> | ->]; done.
  - intros g Hg. destruct (Hlive g Hg) as (v & ce & ? & ? & _). by exists v, ce.
  - intros g1 g2 v1 v2 H1 H2 Hv1 Hv2 Heq.
    destruct (Hlive g1 H1) as (w1 & _ & Hw1 & _ & He1 & Hin1). destruct (Hlive g2 H2) as (w2 & _ & Hw2 & _ & He2 & Hin2).
    assert (w1 = v1) as -> by congruence. assert (w2 = v2) as -> by congruence. rewrite Heq, He2 in He1.
    rewrite !elem_of_cons, elem_of_nil in Hin1, Hin2.
    destruct Hin1 as [->|[->|[->|[]]]], Hin2 as [->|[->|[->|[]]]]; by vm_compute in He1.
Qed.

Lemma gather_replaces : gather (guards two_timers) 0 [Some 72; None; Some 71; Some 73]%positive nothing =
  Some (Gathered [(72, 0%Z); (71, 2%Z); (73, 3%Z)]%positive (Some 73%positive) [72%positive]).
Proof. by vm_compute. Qed.

Lemma gather_dangles : gather (guards two_timers) 0 [Some 72; Some 73]%positive nothing = None.
Proof. by vm_compute. Qed.

(** Guard 73 replaces 72, which stays in the queue; right behind it that is undefined. *)
Lemma alt_keys_witness :
  wp (alt_init 80%positive ;; addguards 80%positive
        (with_sentinel (varg_of <$> [Some 72; None; Some 71; Some 73]%positive))) (λ _ s', ∃ a',
    alts s' !! 80%positive = Some a' ∧ a_key_count a' = 4%Z ∧ a_guardsQ a' = [72; 71; 73]%positive ∧
    guards s' !! 72%positive = None ∧ g_key <$> guards s' !! 73%positive = Some 3%Z) two_timers ∧
  (alt_init 80%positive ;; addguards 80%positive
        (with_sentinel (varg_of <$> [Some 72; Some 73]%positive))) two_timers = Undef.
Proof.
  pose proof (alt_keys (E := demo_env) 80 1 [Some 72; None; Some 71; Some 73]%positive two_timers eq_refl
    (two_timers_good _ (or_introl eq_refl))) as H1. rewrite gather_replaces in H1.
  pose proof (alt_keys (E := demo_env) 80 1 [Some 72; Some 73]%positive two_timers eq_refl
    (two_timers_good _ (or_intror eq_refl))) as H2. rewrite gather_dangles in H2.
  split; [|exact H2]. eapply wp_mono; [exact H1|].
  intros _ s' (a' & Ha & Hc & Hq & _ & _ & _ & _ & Hk & _). exists a'. split_and!; try done.
  - destruct (Hk 72%positive 0%Z) as [_ H]; [by left|]. by rewrite decide_True in H by by left.
  - destruct (Hk 73%positive 3%Z) as [_ H]; [right; right; by left|].
    rewrite decide_False in H by (by intros ?%list_elem_of_singleton). by destruct H as (v & _ & -> & _).
Defined.
End examples.
