(* ===== verification/AltWhole.v ===== *)
(** * ALT as a whole

    [proxc_alt] from its arguments to the key that alt_select returns: the set-up of
    AltAdd, the choice of AltSelect, and what other processes do in between.  The
    clean-up that follows is undefined (AltGuards). *)
From stdpp Require Import base tactics list gmap.
From Stdlib Require Import ZArith Lia.
From S2P Require Import Prelude Tailq Rbtree RbInsert RbSpec State SchedOps Exec Csp SleepSpec.
From S2P Require Import AltCore Chan CopySpec ChanSpec Alt AltSpec AltSelect Proxc System AltGuards AltAdd.

Section alt_whole.
Context {T : Type} {TT : SleepTree T} {E : Env}.
Implicit Types s : St T.

















(** ** What the set-up does not change *)






(** ** The end of the call *)




(** ** While the ALT waits *)











End alt_whole.

(** ** The claims at concrete inputs *)

Section examples.
#[local] Existing Instance demo_env.











End examples.
