(* ===== verification/Keeps.v ===== *)
(** * What every call preserves

    A relation between stores is [Stable] when it is a preorder that ignores
    everything but the ready queue, totalQ, which processes exist, and the
    channels and their ends, and admits appending to the ready queue.  Every
    operation of the library, followed by its structure, then relates its two
    stores ([keeps]).  What touches channels and ends is a second interface,
    [Channels], creating and freeing processes a third, [Lifecycle]; a relation
    that does not look at channels is [Blind], and has the second for free. *)
From stdpp Require Import base tactics list gmap.
From Stdlib Require Import ZArith Lia.
From S2P Require Import Prelude Tailq Rbtree RbInsert RbSpec State SchedOps Exec Csp Proc.
From S2P Require Import AltCore Chan Alt Context Sched Proxc System.

Section keeps.
Context {T : Type}.
Implicit Types s : St T.

Definition ready (s : St T) : list loc := s_readyQ (sched s).
Definition total (s : St T) : list loc := s_totalQ (sched s).

(** The stores agree on the queues of processes and on which processes exist. *)
Definition same_core s s' : Prop :=
  ready s' = ready s ∧ total s' = total s ∧ dom (procs s') = dom (procs s).

(** They also agree on channels, ends and the next address. *)
Definition same_chans s s' : Prop :=
  chans s' = chans s ∧ ends s' = ends s ∧ fresh_loc s' = fresh_loc s.

Class Stable (R : relation (St T)) : Prop := {
  stable_trans :: Transitive R;
  stable_frame s s' : same_core s s' → same_chans s s' → R s s';
  stable_ready p s s' :
    p ∉ ready s → p ∈ dom (procs s) →
    ready s' = ready s ++ [p] → total s' = total s → dom (procs s') = dom (procs s) →
    same_chans s s' → R s s'
}.

Class Blind (R : relation (St T)) : Prop := {
  blind_trans :: Transitive R;
  blind_frame s s' : same_core s s' → R s s';
  blind_ready p s s' :
    p ∉ ready s → p ∈ dom (procs s) →
    ready s' = ready s ++ [p] → total s' = total s → dom (procs s') = dom (procs s) → R s s'
}.

#[export] Instance blind_stable R : Blind R → Stable R.
Proof.
  intros HB. split; [apply _| |].
  - intros s s' H _. by apply blind_frame.
  - intros p s s' ????? _. by eapply (blind_ready p).
Qed.

Definition keeps (R : relation (St T)) {A} (m : M (St T) A) : Prop :=
  ∀ s a s', m s = Ok a s' → R s s'.
End keeps.

(** The operations on channels and ends, and a fresh address. *)
Class Channels {T} {TT : SleepTree T} {E : Env} (R : relation (St T)) : Prop := {
  chn_fresh s : R s (set_fresh (Pos.succ (fresh_loc s)) s);
  chn_create n : keeps R (chan_create n);
  chn_free c : keeps R (chan_free c);
  chn_remove c e : keeps R (endQ_remove c e);
  chn_write c d n : keeps R (chan_write c d n);
  chn_read c d n : keeps R (chan_read c d n);
  chn_altenable c g : keeps R (chan_altenable c g);
  chn_altdisable c g : keeps R (chan_altdisable c g);
  chn_guard ty u c d n : keeps R (alt_guardcreate ty u c d n);
  chn_drop s m : m ⊆ ends s → R s (set_ends (λ _, m) s);
  chn_proc e ce p s : ends s !! e = Some ce → R s (set_ends <[e := ce_set_proc p ce]> s)
}.

(** ** What the accesses return *)

Section accesses.
Context {T : Type} {E : Env}.
Implicit Types s : St T.

Lemma getp_inv p s v s' : getp p s = Ok v s' → s' = s ∧ procs s !! p = Some v.
Proof.
  unfold getp, mbind, M_bind, get, deref. destruct (procs s !! p) as [w|]; [|done].
  unfold mret, M_ret. by intros [= <- <-].
Qed.

Lemma notnull_inv {A} (o : option A) s a s' : notnull o s = Ok a s' → o = Some a ∧ s' = s.
Proof.
  unfold notnull. intros ([] & s1 & Ha & Hx)%bind_inv. destruct o as [b|]; [|done].
  unfold ASSERT in Ha. rewrite bool_decide_true in Ha by done.
  unfold deref, mret, M_ret in *. by simplify_eq.
Qed.

Lemma insert_tail_inv live (q : list loc) e q' : Q.insert_tail live q e = Some q' → e ∉ q ∧ q' = q ++ [e].
Proof.
  unfold Q.insert_tail. destruct (bool_decide (e ∉ q)) eqn:He; [|done].
  apply bool_decide_eq_true in He. simpl. destruct (_ && _); intros; by simplify_eq.
Qed.

(** An update of a process that exists. *)
Lemma same_core_put p v w s : procs s !! p = Some v → same_core s (set_procs <[p := w]> s).
Proof.
  intros Hp. split_and!; [done..|]. simpl. rewrite dom_insert_L.
  apply elem_of_dom_2 in Hp. set_solver.
Qed.
End accesses.

Section rules.
Context {T : Type} {TT : SleepTree T} {E : Env} {R : relation (St T)} {HR : Stable R}.
Implicit Types s : St T.

(** ** The rules *)

Lemma keeps_frame {A} (m : M (St T) A) :
  (∀ s a s', m s = Ok a s' → same_core s s' ∧ same_chans s s') → keeps R m.
Proof. intros H s a s' Hm. by apply stable_frame; eapply H. Qed.

Lemma keeps_ret {A} (a : A) : keeps R (mret a).
Proof. apply keeps_frame. by intros s a' s' [= <- <-]. Qed.

Lemma keeps_bind {A B} (m : M (St T) A) (k : A → M (St T) B) :
  keeps R m → (∀ a, keeps R (k a)) → keeps R (m ≫= k).
Proof. intros Hm Hk s b s' (a & s1 & H1 & H2)%bind_inv. etrans; [by eapply Hm|by eapply Hk]. Qed.

Lemma keeps_get {A} (f : St T → A) : keeps R (get f).
Proof. apply keeps_frame. by intros s a' s' [= <- <-]. Qed.

Lemma keeps_modify f : (∀ s, same_core s (f s)) → (∀ s, same_chans s (f s)) → keeps R (modify f).
Proof. intros Hf Hc. apply keeps_frame. intros s a' s' [= <- <-]. split; [apply Hf|apply Hc]. Qed.

Lemma keeps_abort {A} : keeps R (@abort (St T) A).
Proof. by intros ???. Qed.
Lemma keeps_undef {A} : keeps R (@undef (St T) A).
Proof. by intros ???. Qed.
Lemma keeps_diverge {A} : keeps R (@diverge (St T) A).
Proof. by intros ???. Qed.

Lemma keeps_deref {A} (o : option A) : keeps R (deref o).
Proof. destruct o; [apply keeps_ret|apply keeps_undef]. Qed.

Lemma keeps_ASSERT b : keeps R (ASSERT b).
Proof. unfold ASSERT. destruct b; [apply keeps_ret|]. destruct NDEBUG; [apply keeps_ret|apply keeps_abort]. Qed.

Lemma keeps_when b (m : M (St T) ()) : keeps R m → keeps R (when b m).
Proof. destruct b; [done|]. intros _. apply keeps_ret. Qed.

Lemma keeps_for_each {A} (body : A → M (St T) ()) l : (∀ x, keeps R (body x)) → keeps R (for_each body l).
Proof.
  intros Hb. induction l as [|x l IH]; simpl; [apply keeps_ret|]. by apply keeps_bind.
Qed.

Lemma keeps_mods f :
  (∀ c, s_readyQ (f c) = s_readyQ c) → (∀ c, s_totalQ (f c) = s_totalQ c) → keeps R (mods f).
Proof.
  intros Hr Ht. apply keeps_modify; intros s; [|done]. split_and!; [apply Hr|apply Ht|done].
Qed.

Lemma keeps_on_sleep {A} (m : (loc → Z) → M T A) : keeps R (on_sleep m).
Proof.
  apply keeps_frame. unfold on_sleep. intros s a s' H. by destruct (m _ _); simplify_eq/=.
Qed.
Lemma keeps_on_altsleep {A} (m : (loc → Z) → M T A) : keeps R (on_altsleep m).
Proof.
  apply keeps_frame. unfold on_altsleep. intros s a s' H. by destruct (m _ _); simplify_eq/=.
Qed.

Lemma keeps_modp p f : keeps R (modp p f).
Proof.
  apply keeps_frame. intros s a s' (v & s1 & [-> Hp]%getp_inv & H)%bind_inv.
  unfold putp, modify in H. simplify_eq. split; [by eapply same_core_put|done].
Qed.

(** The one operation that writes the ready queue appends to it. *)
Lemma keeps_addready p : keeps R (scheduler_addready p).
Proof.
  intros s [] s'. unfold scheduler_addready. intros (x & s1 & Hx & H)%bind_inv.
  apply notnull_inv in Hx as [-> ->].
  apply bind_inv in H as ([] & s2 & Hm & H). unfold modp in Hm.
  apply bind_inv in Hm as (v & s3 & [-> Hp]%getp_inv & Hm). unfold putp, modify in Hm. simplify_eq.
  unfold gets, live_procs, mods, get, modify, mbind, M_bind, TQ_INSERT_TAIL, deref in H.
  destruct (Q.insert_tail _ _ x) as [q'|] eqn:Hq; [|done]. unfold mret, M_ret in H. simplify_eq/=.
  apply insert_tail_inv in Hq as [Hn ->].
  destruct (same_core_put x v (p_set_state PROC_READY v) s Hp) as (_ & _ & Hd).
  eapply (stable_ready x); [done|by eapply elem_of_dom_2|done..].
Qed.
End rules.

Create HintDb keeps.
#[export] Hint Extern 0 (Stable _) => typeclasses eauto : keeps.
#[export] Hint Resolve keeps_ret keeps_get keeps_abort keeps_undef keeps_diverge keeps_deref keeps_ASSERT
  keeps_on_sleep keeps_on_altsleep keeps_addready keeps_modp : keeps.

(** Follows the structure of an operation; what it leaves are the operations
    without a hint. *)
Ltac keep :=
  repeat first
    [ solve [auto with keeps nocore]
    | lazymatch goal with
      | |- keeps _ (_ ≫= _) => apply keeps_bind
      | |- ∀ _, _ => intros ?
      | |- keeps _ (modify _) => apply keeps_modify; intros; (by split_and!)
      | |- keeps _ (mods _) => apply keeps_mods; intros; reflexivity
      | |- keeps _ (when _ _) => apply keeps_when
      | |- keeps _ (for_each _ _) => apply keeps_for_each
      | |- keeps _ (match ?x with _ => _ end) => destruct x
      | |- keeps _ ((match ?x with _ => _ end) _) => destruct x
      | |- keeps _ (let '_ := ?x in _) => destruct x
      end ].

Section operations.
Context {T : Type} {TT : SleepTree T} {E : Env} {R : relation (St T)} {HR : Stable R}.
Abbreviation M := (M (St T)).

(** ** The accesses *)

Lemma keeps_getp p : keeps R (getp p). Proof. unfold getp. keep. Qed.
Lemma keeps_getc c : keeps R (getc c). Proof. unfold getc. keep. Qed.
Lemma keeps_gete e : keeps R (gete e). Proof. unfold gete. keep. Qed.
Lemma keeps_getg g : keeps R (getg g). Proof. unfold getg. keep. Qed.
Lemma keeps_putg g v : keeps R (putg g v). Proof. unfold putg. keep. Qed.
Lemma keeps_modg g f : keeps R (modg g f). Proof. unfold modg, getg, putg. keep. Qed.
Lemma keeps_geta a : keeps R (geta a). Proof. unfold geta. keep. Qed.
Lemma keeps_puta a v : keeps R (puta a v). Proof. unfold puta. keep. Qed.
Lemma keeps_moda a f : keeps R (moda a f). Proof. unfold moda, geta, puta. keep. Qed.
Lemma keeps_getb b : keeps R (getb b). Proof. unfold getb. keep. Qed.
Lemma keeps_putb b v : keeps R (putb b v). Proof. unfold putb. keep. Qed.
Lemma keeps_modb b f : keeps R (modb b f). Proof. unfold modb, getb, putb. keep. Qed.
Lemma keeps_gets {A} (f : Scheduler T → A) : keeps R (gets f). Proof. apply keeps_get. Qed.
Lemma keeps_notnull {A} (o : option A) : keeps R (notnull o). Proof. unfold notnull. keep. Qed.
Lemma keeps_PANIC {A} : keeps R (@PANIC T A). Proof. apply keeps_abort. Qed.
Lemma keeps_TQ_INSERT live q e : keeps R (TQ_INSERT_TAIL live q e). Proof. apply keeps_deref. Qed.
Lemma keeps_TQ_REMOVE live q e : keeps R (TQ_REMOVE live q e). Proof. apply keeps_deref. Qed.
Lemma keeps_alloc_ok : keeps R alloc_ok. Proof. unfold alloc_ok. keep. Qed.
Lemma keeps_gettimestamp : keeps R gettimestamp. Proof. unfold gettimestamp. keep. Qed.
Lemma keeps_rand : keeps R rand. Proof. unfold rand. keep. Qed.
Lemma keeps_usleep us : keeps R (usleep us). Proof. unfold usleep. keep. Qed.
End operations.

#[export] Hint Resolve keeps_getp keeps_getc keeps_gete
  keeps_getg keeps_putg keeps_modg keeps_geta keeps_puta keeps_moda keeps_getb keeps_putb keeps_modb
  keeps_gets keeps_notnull keeps_PANIC keeps_TQ_INSERT keeps_TQ_REMOVE keeps_alloc_ok
  keeps_gettimestamp keeps_rand keeps_usleep : keeps.

(** ** What every relation keeps while it handles channels *)
Section channels.
Context {T : Type} {TT : SleepTree T} {E : Env} {R : relation (St T)} {HR : Stable R}.

Lemma keeps_load n : ∀ a, keeps R (load_bytes n a). Proof. induction n; intros; simpl; keep. Qed.
Lemma keeps_store l : ∀ a, keeps R (store_bytes a l). Proof. induction l; intros; simpl; keep. Qed.
#[local] Hint Resolve keeps_load keeps_store : keeps.
Lemma keeps_load_uint n a : keeps R (load_uint n a). Proof. unfold load_uint. keep. Qed.
Lemma keeps_store_uint n a v : keeps R (store_uint n a v). Proof. unfold store_uint. keep. Qed.
#[local] Hint Resolve keeps_load_uint keeps_store_uint : keeps.
Lemma keeps_copydata d s n : keeps R (_chan_copydata d s n).
Proof. unfold _chan_copydata, copy_uint, memcpy. keep. Qed.
Lemma keeps_alt_accept g : keeps R (alt_accept g). Proof. unfold alt_accept. keep. Qed.
Lemma keeps_first_end c ty : keeps R (first_end_of c ty). Proof. unfold first_end_of. keep. Qed.
#[local] Hint Resolve keeps_alt_accept : keeps.
Lemma keeps_first_alter c : keeps R (accept_first_alter c). Proof. unfold accept_first_alter. keep. Qed.
Lemma keeps_live_ends : keeps R live_ends. Proof. apply keeps_get. Qed.
End channels.

#[export] Hint Resolve keeps_load_uint keeps_store_uint keeps_copydata keeps_alt_accept keeps_first_end
  keeps_first_alter keeps_live_ends : keeps.

(** A relation that does not look at channels is kept by all of it. *)
Section blind.
Context {T : Type} {TT : SleepTree T} {E : Env} {R : relation (St T)} {HB : Blind R}.

Lemma blind_modify f : (∀ s, same_core s (f s)) → keeps R (modify f).
Proof. intros Hf s a s' [= <- <-]. apply blind_frame, Hf. Qed.

Lemma blind_putc c v : keeps R (putc c v). Proof. apply blind_modify. intros; by split_and!. Qed.
Lemma blind_pute e v : keeps R (pute e v). Proof. apply blind_modify. intros; by split_and!. Qed.
Lemma blind_set_chans f : keeps R (modify (set_chans f)). Proof. apply blind_modify. intros; by split_and!. Qed.
Lemma blind_set_fresh l : keeps R (modify (set_fresh l)). Proof. apply blind_modify. intros; by split_and!. Qed.
#[local] Hint Resolve blind_putc blind_pute blind_set_chans blind_set_fresh : keeps.
Lemma blind_malloc : keeps R malloc.
Proof. unfold malloc. apply keeps_bind; [apply keeps_alloc_ok|keep]. Qed.
Lemma blind_stack_alloc : keeps R stack_alloc. Proof. unfold stack_alloc. keep. Qed.
Lemma blind_self : keeps R proc_self. Proof. unfold proc_self. keep. Qed.
Lemma blind_yield {A} p k : keeps R (@proc_yield T A p k). Proof. unfold proc_yield. keep. Qed.
#[local] Hint Resolve blind_malloc blind_stack_alloc blind_self blind_yield : keeps.
Lemma blind_remove c e : keeps R (endQ_remove c e). Proof. unfold endQ_remove. keep. Qed.
Lemma blind_wait c ty d : keeps R (chan_wait c ty d). Proof. unfold chan_wait, endQ_insert_tail. keep. Qed.
#[local] Hint Resolve blind_remove blind_wait : keeps.

#[export] Instance blind_channels : Channels R.
Proof.
  split; intros;
    try (unfold chan_create, chan_free, chan_write, chan_read, chan_altenable, chan_altdisable,
      alt_guardcreate; keep; fail).
  - by apply blind_frame.
  - by apply blind_frame.
  - by apply blind_frame.
Qed.
End blind.

#[export] Hint Extern 0 (Channels _) => typeclasses eauto : keeps.
#[export] Hint Extern 0 (keeps _ (chan_create _)) => apply chn_create : keeps.
#[export] Hint Extern 0 (keeps _ (chan_free _)) => apply chn_free : keeps.
#[export] Hint Extern 0 (keeps _ (endQ_remove _ _)) => apply chn_remove : keeps.
#[export] Hint Extern 0 (keeps _ (chan_write _ _ _)) => apply chn_write : keeps.
#[export] Hint Extern 0 (keeps _ (chan_read _ _ _)) => apply chn_read : keeps.
#[export] Hint Extern 0 (keeps _ (chan_altenable _ _)) => apply chn_altenable : keeps.
#[export] Hint Extern 0 (keeps _ (chan_altdisable _ _)) => apply chn_altdisable : keeps.
#[export] Hint Extern 0 (keeps _ (alt_guardcreate _ _ _ _ _)) => apply chn_guard : keeps.

Section calls.
Context {T : Type} {TT : SleepTree T} {E : Env} {R : relation (St T)} {HR : Stable R} {HC : Channels R}.
Abbreviation M := (M (St T)).

(** ** Addresses and ends *)

Lemma keeps_set_fresh : keeps R (l ← get fresh_loc; modify (set_fresh (Pos.succ l)) ;; mret l).
Proof. intros s a s' [= <- <-]. apply chn_fresh. Qed.

Lemma keeps_stack_alloc : keeps R stack_alloc. Proof. exact keeps_set_fresh. Qed.

Lemma keeps_malloc : keeps R malloc.
Proof.
  unfold malloc. apply keeps_bind; [apply keeps_alloc_ok|]. intros [|]; [|keep].
  intros s a s' [= <- <-]. apply chn_fresh.
Qed.

Lemma keeps_drop_end e : keeps R (modify (set_ends (delete e))).
Proof. intros s a s' [= <- <-]. apply (chn_drop s (delete e (ends s))), delete_subseteq. Qed.

Lemma keeps_free_stack p : keeps R (free_stack p).
Proof.
  unfold free_stack. apply keeps_bind; [|keep]. intros s a s' [= <- <-].
  apply (chn_drop s (filter _ (ends s))), map_filter_subseteq.
Qed.

Lemma keeps_end_proc {A} e p (k : M A) : keeps R k → keeps R (ce ← gete e; pute e (ce_set_proc p ce) ;; k).
Proof.
  intros Hk s a s' H. unfold gete, get, deref, mbind, M_bind in H.
  destruct (ends s !! e) as [ce|] eqn:He; [|done]. unfold pute, modify, mret, M_ret in H.
  etrans; [|by eapply Hk]. by apply chn_proc.
Qed.
#[local] Hint Resolve keeps_stack_alloc keeps_malloc keeps_drop_end keeps_free_stack : keeps.

(** ** scheduler.c and proc.c *)

Lemma keeps_live_procs : keeps R live_procs. Proof. apply keeps_get. Qed.
Lemma keeps_proc_self : keeps R proc_self. Proof. unfold proc_self. keep. Qed.
Lemma keeps_proc_yield {A} p k : keeps R (@proc_yield T A p k).
Proof. unfold proc_yield. keep. Qed.
Lemma keeps_sleep_num d : keeps R (sleep_num_add d). Proof. unfold sleep_num_add. keep. Qed.
Lemma keeps_altsleep_num d : keeps R (altsleep_num_add d). Proof. unfold altsleep_num_add. keep. Qed.
#[local] Hint Resolve keeps_live_procs keeps_proc_self keeps_proc_yield keeps_sleep_num keeps_altsleep_num : keeps.

Lemma keeps_addsleep_loop fuel : ∀ p n, keeps R (addsleep_loop fuel p n).
Proof. induction fuel; intros; simpl; keep. Qed.
Lemma keeps_addaltsleep_loop fuel : ∀ p n, keeps R (addaltsleep_loop fuel p n).
Proof. induction fuel; intros; simpl; keep. Qed.
Lemma keeps_guard_proc g : keeps R (guard_proc g). Proof. unfold guard_proc. keep. Qed.
#[local] Hint Resolve keeps_addsleep_loop keeps_addaltsleep_loop keeps_guard_proc : keeps.

Lemma keeps_addsleep p : keeps R (scheduler_addsleep p). Proof. unfold scheduler_addsleep. keep. Qed.
Lemma keeps_remsleep p : keeps R (scheduler_remsleep p). Proof. unfold scheduler_remsleep. keep. Qed.
Lemma keeps_addaltsleep p : keeps R (scheduler_addaltsleep p). Proof. unfold scheduler_addaltsleep. keep. Qed.
Lemma keeps_remaltsleep p : keeps R (scheduler_remaltsleep p). Proof. unfold scheduler_remaltsleep. keep. Qed.
#[local] Hint Resolve keeps_addsleep keeps_remsleep keeps_addaltsleep keeps_remaltsleep : keeps.

(** ** csp.c *)

Lemma keeps_csp_create ty : keeps R (csp_create ty). Proof. unfold csp_create. keep. Qed.
Lemma keeps_csp_free b : keeps R (csp_free b). Proof. unfold csp_free. keep. Qed.
Lemma keeps_insertchilds b l : keeps R (csp_insertchilds b l).
Proof. induction l as [|[]]; simpl; unfold live_builds; keep. Qed.
Lemma keeps_runbuild fuel : ∀ b, keeps R (csp_runbuild fuel b).
Proof. induction fuel; intros; simpl; keep. Qed.
Lemma keeps_cleanup_childs n cl b : (∀ c, keeps R (cl c)) → keeps R (cleanup_childs n cl b).
Proof. intros Hcl. induction n; simpl; unfold live_builds; keep. Qed.
#[local] Hint Resolve keeps_csp_create keeps_csp_free keeps_insertchilds keeps_runbuild keeps_cleanup_childs : keeps.
Lemma keeps_cleanupbuild fuel : ∀ b, keeps R (csp_cleanupbuild fuel b).
Proof. induction fuel; intros; cbn [csp_cleanupbuild]; keep. Qed.
Lemma keeps_build_fuel : keeps R build_fuel. Proof. apply keeps_get. Qed.
#[local] Hint Resolve keeps_cleanupbuild keeps_build_fuel : keeps.
Lemma keeps_parsebuild fuel : ∀ b, keeps R (csp_parsebuild fuel b).
Proof. induction fuel; intros; simpl; unfold csp_child_done, csp_finish_root; keep. Qed.
#[local] Hint Resolve keeps_parsebuild : keeps.

Lemma keeps_argn n : keeps R (proxc_argn n). Proof. unfold proxc_argn. keep. Qed.
End calls.

#[export] Hint Extern 0 (keeps _ (modify (set_ends (delete _)))) => apply keeps_drop_end : keeps.
#[export] Hint Extern 0 (keeps _ stack_alloc) => apply keeps_stack_alloc : keeps.
#[export] Hint Extern 0 (keeps _ malloc) => apply keeps_malloc : keeps.
#[export] Hint Extern 0 (keeps _ (csp_create _)) => apply keeps_csp_create : keeps.
#[export] Hint Extern 0 (keeps _ (free_stack _)) => apply keeps_free_stack : keeps.
#[export] Hint Resolve keeps_live_procs keeps_proc_self keeps_proc_yield keeps_guard_proc
  keeps_addsleep keeps_remsleep keeps_addaltsleep keeps_remaltsleep
  keeps_insertchilds keeps_runbuild keeps_build_fuel
  keeps_parsebuild keeps_argn : keeps.

(** ** Processes come and go

    What a relation has to admit besides: registering a process, freeing one, and
    the arguments of a process (whose failure frees it). *)
Class Lifecycle {T} {TT : SleepTree T} {E : Env} (R : relation (St T)) : Prop := {
  life_create f : keeps R (proc_create f);
  life_free p : keeps R (proc_free p);
  life_setargs p l : keeps R (proc_setargs p l)
}.
#[export] Hint Extern 0 (Lifecycle _) => typeclasses eauto : keeps.
#[export] Hint Extern 0 (keeps _ (proc_create _)) => apply life_create : keeps.
#[export] Hint Extern 0 (keeps _ (proc_free _)) => apply life_free : keeps.
#[export] Hint Extern 0 (keeps _ (proc_setargs _ _)) => apply life_setargs : keeps.

(** As [keep], with the update of the process of an end. *)
Ltac keep_ends :=
  repeat (lazymatch goal with
    | |- keeps _ (gete _ ≫= λ ce, pute _ (ce_set_proc _ ce) ≫= _) => apply keeps_end_proc
    | |- keeps _ (_ ≫= _) => apply keeps_bind; [keep|intros ?]
    | |- keeps _ (match ?x with _ => _ end) => destruct x
    end); keep.

Section api.
Context {T : Type} {TT : SleepTree T} {E : Env} {R : relation (St T)}.
Context {HR : Stable R} {HC : Channels R} {HL : Lifecycle R}.
Abbreviation M := (M (St T)).

Lemma keeps_altread c g n : keeps R (chan_altread c g n). Proof. unfold chan_altread. keep. Qed.
#[local] Hint Resolve keeps_altread : keeps.

(** ** alt.c *)

Lemma keeps_guardfree g : keeps R (alt_guardfree g). Proof. unfold alt_guardfree. keep. Qed.
#[local] Hint Resolve keeps_guardfree : keeps.
Lemma keeps_alt_init a : keeps R (alt_init a). Proof. unfold alt_init. keep. Qed.
Lemma keeps_cleanup_loop fuel a : ∀ g, keeps R (cleanup_loop fuel a g).
Proof. induction fuel; intros [g|]; simpl; unfold guard_next; keep. Qed.
#[local] Hint Resolve keeps_cleanup_loop : keeps.
Lemma keeps_alt_cleanup a : keeps R (alt_cleanup a). Proof. unfold alt_cleanup. keep. Qed.
Lemma keeps_addguard a g : keeps R (alt_addguard a g).
Proof. unfold alt_addguard, time_guard_loses, guard_time_usec, live_guards. keep_ends. Qed.
Lemma keeps_alt_enable g : keeps R (alt_enable g). Proof. unfold alt_enable. keep. Qed.
Lemma keeps_alt_disable g : keeps R (alt_disable g). Proof. unfold alt_disable. keep. Qed.
Lemma keeps_alt_complete a g : keeps R (alt_complete a g). Proof. unfold alt_complete. keep. Qed.
Lemma keeps_alt_choose a : keeps R (alt_choose a). Proof. unfold alt_choose. keep. Qed.
Lemma keeps_alt_return a : keeps R (alt_return a). Proof. unfold alt_return. keep. Qed.
#[local] Hint Resolve keeps_alt_init keeps_alt_cleanup keeps_addguard keeps_alt_enable keeps_alt_disable
  keeps_alt_complete keeps_alt_choose keeps_alt_return : keeps.
Lemma keeps_enable_guard a g : keeps R (enable_guard a g). Proof. unfold enable_guard, ready_push. keep. Qed.
Lemma keeps_alt_selected a : keeps R (alt_selected a). Proof. unfold alt_selected. keep. Qed.
#[local] Hint Resolve keeps_enable_guard keeps_alt_selected : keeps.
Lemma keeps_alt_select a : keeps R (alt_select a). Proof. unfold alt_select. keep. Qed.
Lemma keeps_addguards a l : keeps R (addguards a l). Proof. induction l as [|[]]; simpl; keep. Qed.
Lemma keeps_alt_finish a r : keeps R (alt_finish a r). Proof. unfold alt_finish. keep. Qed.
#[local] Hint Resolve keeps_alt_select keeps_addguards keeps_alt_finish : keeps.

(** ** Every call, and what it does when it is switched back to *)

Lemma keeps_do_call c : keeps R (do_call c).
Proof.
  destruct c; simpl; unfold returns, proxc_exit, proxc_yield, proxc_sleep, proxc_proc, proxc_par, proxc_seq,
    proxc_go, proxc_run, proxc_guardchan, proxc_guardtime, proxc_guardskip, proxc_alt, proxc_chopen,
    proxc_chclose, proxc_chwrite, proxc_chread; keep.
Qed.

Lemma keeps_resume k : keeps R (resume k).
Proof. destruct k; simpl; unfold proxc_sleep_end, chan_resume, _trampoline; keep. Qed.

Lemma keeps_mainfxn_end p : keeps R (proc_mainfxn_end p).
Proof. unfold proc_mainfxn_end. keep. Qed.

(** ** The scheduler's part of an iteration *)

Lemma when_ASSERT_inv c b (s : St T) u s' : when c (ASSERT b) s = Ok u s' → s' = s.
Proof.
  unfold when, ASSERT, mret, M_ret, abort.
  destruct c; [destruct b; [|destruct NDEBUG]|]; intros; by simplify_eq.
Qed.

Lemma keeps_ctx_madvise p : keeps R (ctx_madvise p).
Proof.
  unfold ctx_madvise. apply keeps_bind; [keep|]. intros c. apply keeps_frame.
  intros s a s' (v & s1 & [-> Hc]%getp_inv & H)%bind_inv.
  unfold saved_sp, get, modify, gets, PANIC, abort in H. unfold mbind at 1 2, M_bind at 1 2 in H. simpl in H.
  destruct (_ <? _)%Z; [done|]. unfold mbind at 1, M_bind at 1 in H.
  apply bind_inv in H as ([] & s2 & ->%when_ASSERT_inv & H).
  unfold putp, modify, mbind, M_bind, mret, M_ret in H. simplify_eq.
  destruct (same_core_put c v (p_set_used (u64 (p_stack_size v - u64 (p_stack_ptr v + p_stack_size v
    - stack_depth (n_switch s) - p_stack_ptr v))) v) s Hc) as (? & ? & ?). by split_and!.
Qed.
#[local] Hint Resolve keeps_do_call keeps_resume keeps_mainfxn_end keeps_ctx_madvise : keeps.
Lemma keeps_switched : keeps R scheduler_switched. Proof. unfold scheduler_switched. keep. Qed.
Lemma keeps_wakeup_sleepers fuel now : keeps R (wakeup_sleepers fuel now).
Proof. induction fuel; simpl; keep. Qed.
Lemma keeps_wakeup_guards fuel now : keeps R (wakeup_guards fuel now).
Proof. induction fuel; simpl; unfold guard_timeout; keep. Qed.
#[local] Hint Resolve keeps_switched keeps_wakeup_sleepers keeps_wakeup_guards : keeps.
Lemma keeps_wakeup : keeps R _scheduler_wakeup. Proof. unfold _scheduler_wakeup. keep. Qed.
Lemma keeps_checkQs : keeps R _scheduler_checkQs. Proof. unfold _scheduler_checkQs, min_deadline. keep. Qed.
Lemma keeps_running : keeps R _scheduler_running. Proof. unfold _scheduler_running. keep. Qed.
Lemma keeps_free_loop n : keeps R (scheduler_free_loop n).
Proof. induction n; cbn [scheduler_free_loop]; keep. Qed.
#[local] Hint Resolve keeps_wakeup keeps_checkQs keeps_running keeps_free_loop : keeps.
Lemma keeps_scheduler_free : keeps R scheduler_free. Proof. unfold scheduler_free. keep. Qed.

Lemma keeps_after_call {P} p (x : cpu P) k r : keeps R (after_call p x k r).
Proof. unfold after_call. keep. Qed.
#[local] Hint Resolve @keeps_after_call : keeps.
Lemma keeps_switch_to {P} {CL : Client P} p (x : cpu P) : keeps R (switch_to p x).
Proof. unfold switch_to. keep. Qed.
#[local] Hint Resolve @keeps_switch_to keeps_scheduler_free keeps_running : keeps.

(** What the choice of a process keeps, every step of the program keeps. *)
Lemma keeps_step {P} {CL : Client P} (x : cpu P) :
  keeps R scheduler_pick → keeps R (sys_step x).
Proof. intros Hp. unfold sys_step. keep. Qed.

Lemma keeps_run {P} {CL : Client P} n (x : cpu P) :
  keeps R scheduler_pick → keeps R (sys_run n x).
Proof.
  intros Hp. revert x. induction n as [|n IH]; intros x; simpl; [keep|].
  apply keeps_bind; [by apply keeps_step|done].
Qed.
End api.

#[export] Hint Resolve keeps_do_call keeps_resume keeps_mainfxn_end keeps_checkQs keeps_wakeup
  keeps_running keeps_switched keeps_scheduler_free keeps_switch_to @keeps_after_call : keeps.

