(* ===== verification/SystemSpec.v ===== *)
(** * Whole runs of the program

    Two relations of [Keeps], and what follows for every run of [sys_step]: the
    ready queue only loses the process the scheduler chooses ([grows]), and
    totalQ lists exactly the processes that exist ([registers]). *)
From stdpp Require Import base tactics list gmap.
From Stdlib Require Import ZArith Lia.
From S2P Require Import Prelude Tailq Rbtree RbInsert RbSpec State SchedOps Exec Csp Proc.
From S2P Require Import AltCore Chan Alt Context Sched Proxc System Keeps.

(** ** The ready queue only grows *)

Section grows.
Context {T : Type} {TT : SleepTree T} {E : Env}.
Implicit Types s : St T.

Definition grows : relation (St T) := λ s s',
  NoDup (ready s) → NoDup (ready s') ∧ ∃ l, ready s' = ready s ++ l.

Lemma grows_same s s' : ready s' = ready s → grows s s'.
Proof. intros H Hnd. rewrite H. split; [done|]. exists []. by rewrite app_nil_r. Qed.

#[global] Instance grows_blind : Blind grows.
Proof.
  split.
  - intros s1 s2 s3 H1 H2 Hnd. destruct (H1 Hnd) as [Hnd2 [l1 Hl1]]. destruct (H2 Hnd2) as [Hnd3 [l2 Hl2]].
    split; [done|]. exists (l1 ++ l2). by rewrite Hl2, Hl1, app_assoc.
  - intros s s' [H _]. by apply grows_same.
  - intros p s s' Hp _ H _ _ Hnd. rewrite H. split; [|by eexists].
    apply NoDup_app. split; [done|]. split; [|apply NoDup_singleton]. set_solver.
Qed.

Lemma grows_modify f : (∀ s, ready (f s) = ready s) → keeps grows (modify f).
Proof. intros H s a s' [= <- <-]. by apply grows_same. Qed.

Lemma grows_copyargs p l : keeps grows (_proc_copyargs p l).
Proof. unfold _proc_copyargs, free_proc. keep; by apply grows_modify. Qed.
#[local] Hint Resolve grows_copyargs : keeps.

Lemma grows_setargs_loop p l : ∀ tmp, keeps grows (setargs_loop p tmp l).
Proof. induction l; intros; cbn [setargs_loop]; keep. Qed.
#[local] Hint Resolve grows_setargs_loop : keeps.

#[global] Instance grows_life : Lifecycle grows.
Proof.
  split; intros.
  - unfold proc_create. keep; by apply grows_modify.
  - unfold proc_free, free_stack, free_proc. keep; by apply grows_modify.
  - unfold proc_setargs. keep.
Qed.
End grows.

(** ** The order in which processes run *)

Section order.
Context {T : Type} {TT : SleepTree T} {E : Env} {P : Type} {CL : Client P}.
Implicit Types s : St T.

(** The process that an iteration started in this state switches to. *)
Definition picked (x : cpu P) s : list loc :=
  match cpu_mode x, (go ← _scheduler_running; if go : bool then scheduler_pick else mret None) s with
  | Scheduling, Ok (Some p) _ => [p]
  | _, _ => []
  end.

(** The processes that [n] steps switch to, in order. *)
Fixpoint schedule (n : nat) (x : cpu P) s : list loc :=
  match n with
  | O => []
  | S n => picked x s ++ match sys_step x s with Ok x' s' => schedule n x' s' | _ => [] end
  end.

(** What [ps] taken from the front and appends make of the queue. *)
Definition served (ps : list loc) s s' : Prop :=
  NoDup (ready s') ∧ ∃ arrived, ready s ++ arrived = ps ++ ready s'.

Lemma served_app ps qs s1 s2 s3 : served ps s1 s2 → served qs s2 s3 → served (ps ++ qs) s1 s3.
Proof.
  intros [_ [l1 H1]] [Hnd [l2 H2]]. split; [done|]. exists (l1 ++ l2).
  by rewrite app_assoc, H1, <-!app_assoc, H2.
Qed.

Lemma grows_served {A} (m : M (St T) A) s a s' :
  keeps grows m → m s = Ok a s' → NoDup (ready s) → served [] s s'.
Proof. intros Hg Hm Hnd. destruct (Hg _ _ _ Hm Hnd) as [Hnd' [l Hl]]. split; [done|]. by exists l. Qed.

Lemma remove_inv live q (p : loc) q' : Q.remove live q p = Some q' → q' = Q.without q p.
Proof. unfold Q.remove. destruct (_ && _); intros; by simplify_eq. Qed.

(** The removal at the head, and what [scheduler_pick] does around it. *)
Lemma take_head_served p v q q' s s' :
  ready s = p :: q → NoDup (ready s) → Q.remove (live_in (procs s)) (ready s) p = Some q' →
  s' = set_procs <[p := v]> (set_sched (s_set_curr (Some p)) (set_sched (s_set_readyQ q') s)) →
  served [p] s s'.
Proof.
  intros Hs Hnd Hq ->. rewrite Hs in Hnd, Hq. apply NoDup_cons in Hnd as [Hp Hnd].
  apply remove_inv in Hq as ->. rewrite Q_without_head by done.
  split; [done|]. exists []. by rewrite Hs, app_nil_r.
Qed.

Lemma pick_served s o s' :
  scheduler_pick s = Ok o s' → NoDup (ready s) → served (match o with Some p => [p] | None => [] end) s s'.
Proof.
  intros H Hnd. unfold scheduler_pick in H.
  apply bind_inv in H as ([] & s1 & H1 & H). apply bind_inv in H as ([] & s2 & H2 & H).
  apply (grows_served _ _ _ _ keeps_checkQs) in H1; [|done].
  apply (grows_served _ _ _ _ keeps_wakeup) in H2; [|apply H1].
  pose proof (served_app _ _ _ _ _ H1 H2) as H12. clear H1 H2.
  unfold gets, get, mbind at 1, M_bind at 1 in H. destruct (s_readyQ (sched s2)) as [|p q] eqn:Hq.
  { unfold mret, M_ret in H. by simplify_eq. }
  unfold live_procs, get, mods, modify, modp, getp, putp, TQ_REMOVE, deref, mret, M_ret, mbind, M_bind in H.
  destruct (Q.remove _ _ p) as [q'|] eqn:Hr; [|done]. simpl in H.
  destruct (procs s2 !! p) as [v|]; [|done]. unfold modify in H. simplify_eq.
  refine (served_app [] [p] _ _ _ H12 _). rewrite <-Hq in Hr. destruct H12 as [Hnd2 _].
  by eapply take_head_served.
Qed.

Lemma step_served x s x' s' :
  sys_step x s = Ok x' s' → NoDup (ready s) → served (picked x s) s s'.
Proof.
  unfold sys_step, picked. intros H Hnd. destruct (cpu_mode x) as [|p st|].
  - apply bind_inv in H as (go & s1 & Hgo & H). rewrite (bind_ok _ _ _ _ _ Hgo).
    apply (grows_served _ _ _ _ keeps_running) in Hgo; [|done].
    destruct go; cycle 1.
    { apply (served_app [] [] _ _ _ Hgo). eapply grows_served; [|exact H|apply Hgo]. keep. }
    apply bind_inv in H as (o & s2 & Ho & H). rewrite Ho.
    pose proof (served_app [] _ _ _ _ Hgo (pick_served _ _ _ Ho (proj1 Hgo))) as Hs2. simpl in Hs2.
    destruct o as [p|]; [|by unfold mret, M_ret in H; simplify_eq].
    refine (served_app [p] [] _ _ _ Hs2 _). eapply grows_served; [apply keeps_switch_to|done|apply Hs2].
  - eapply grows_served; [|done|done]. keep.
  - eapply grows_served; [|done|done]. keep.
Qed.

(** Over any number of steps that return the ready queue is first come, first
    served: the processes switched to are, in order, those that were queued and then
    the arrivals.  (Safety shows when the steps return.) *)
Lemma run_served n : ∀ x s x' s',
  sys_run n x s = Ok x' s' → NoDup (ready s) → served (schedule n x s) s s'.
Proof.
  induction n as [|n IH]; intros x s x' s' H Hnd; simpl in *.
  - unfold mret, M_ret in H. simplify_eq. split; [done|]. exists []. by rewrite app_nil_r.
  - apply bind_inv in H as (x1 & s1 & H1 & H). rewrite H1.
    pose proof (step_served _ _ _ _ H1 Hnd) as Hs1.
    apply (served_app _ _ _ _ _ Hs1). eapply IH; [done|apply Hs1].
Qed.
End order.

(** ** Every process is registered, and freed in the end *)

Section registers.
Context {T : Type} {TT : SleepTree T} {E : Env}.
Implicit Types s : St T.

(** totalQ lists the processes that exist, except those of [X]. *)
Definition registered (X : gset loc) s : Prop :=
  NoDup (total s) ∧ dom (procs s) = list_to_set (total s) ∪ X ∧ ∀ p, p ∈ total s → p ∉ X.

Definition registers (X : gset loc) : relation (St T) := λ s s', registered X s → registered X s'.

Lemma registers_same X s s' :
  total s' = total s → dom (procs s') = dom (procs s) → registers X s s'.
Proof. intros Ht Hd. unfold registers, registered. by rewrite Ht, Hd. Qed.

#[global] Instance registers_blind X : Blind (registers X).
Proof.
  split.
  - intros s1 s2 s3 H1 H2 H. by apply H2, H1.
  - intros s s' (_ & Ht & Hd). by apply registers_same.
  - intros p s s' _ _ _ Ht Hd. by apply registers_same.
Qed.

Lemma registers_modify X f :
  (∀ s, total (f s) = total s) → (∀ s, dom (procs (f s)) = dom (procs s)) → keeps (registers X) (modify f).
Proof. intros Ht Hd s a s' [= <- <-]. by apply registers_same. Qed.

(** The end of proc_create. *)
Lemma registers_new p v :
  keeps (registers ∅)
    (putp p v ;;
     q ← gets s_totalQ; live ← live_procs; q' ← TQ_INSERT_TAIL live q p;
     mods (s_set_totalQ q') ;; mret (0%Z, Some p)).
Proof.
  intros s a s' H (Hnd & Hd & _).
  unfold putp, gets, live_procs, mods, get, modify, mbind, M_bind, TQ_INSERT_TAIL, deref in H. simpl in H.
  destruct (Q.insert_tail _ _ p) as [q'|] eqn:Hq; [|done]. unfold mret, M_ret in H. simplify_eq/=.
  apply insert_tail_inv in Hq as [Hn ->]. unfold registered, total in *. simpl. split_and!.
  - apply NoDup_app. split; [done|]. split; [|apply NoDup_singleton]. set_solver.
  - rewrite dom_insert_L, Hd, list_to_set_app_L. set_solver.
  - set_solver.
Qed.

(** The two ends of proc_free. *)
Lemma registers_leave p v q' s :
  procs s !! p = Some v → Q.remove (live_in (procs s)) (total s) p = Some q' →
  registered ∅ s → registered {[p]} (set_sched (s_set_totalQ q') s).
Proof.
  intros Hp Hq (Hnd & Hd & _). apply elem_of_dom_2 in Hp. rewrite Hd in Hp.
  apply remove_inv in Hq as ->. unfold registered, total in *. simpl. unfold Q.without. split_and!.
  - by apply NoDup_filter.
  - rewrite Hd. apply set_eq. intros x. rewrite !elem_of_union, !elem_of_list_to_set, list_elem_of_filter.
    destruct (decide (x = p)); set_solver.
  - intros x [Hx _]%list_elem_of_filter. set_solver.
Qed.

Lemma registers_gone p s a s' : free_proc p s = Ok a s' → registered {[p]} s → registered ∅ s'.
Proof.
  unfold free_proc, mods, modify, mbind, M_bind. intros H (Hnd & Hd & Hn). simplify_eq/=.
  unfold registered, total in *. simpl. rewrite dom_delete_L, Hd. split_and!; [done| |set_solver].
  apply set_eq. intros x. specialize (Hn x). set_solver.
Qed.

Lemma registers_free p : keeps (registers ∅) (proc_free p).
Proof.
  destruct p as [p|]; [|apply keeps_ret]. intros s a s' H Hreg. unfold proc_free in H.
  apply bind_inv in H as (v & s1 & [-> Hp]%getp_inv & H).
  unfold gets, live_procs, get in H. unfold mbind at 1 2, M_bind at 1 2 in H.
  apply bind_inv in H as (q' & s1 & Hq & H). unfold TQ_REMOVE, deref in Hq.
  destruct (Q.remove _ _ p) as [q''|] eqn:Hr; [|done]. unfold mret, M_ret in Hq. simplify_eq.
  apply bind_inv in H as ([] & s2 & [= <-] & H). apply (registers_leave p v q' _ Hp Hr) in Hreg.
  apply bind_inv in H as ([] & s3 & H3 & H). apply bind_inv in H as ([] & s4 & H4 & H).
  eapply registers_gone; [exact H|].
  assert (keeps (registers {[p]}) (free_stack p)) as Hstack by keep.
  eapply Hstack; [exact H4|]. revert Hreg.
  assert (keeps (registers {[p]}) (match p_proc_build v with
    | Some b => fuel ← build_fuel; csp_parsebuild fuel (Some b) | None => mret () end)) as Hparse by keep.
  by eapply Hparse.
Qed.

(** Nothing comes of a failing realloc: an assertion stops the program, or no
    allocation fails. *)
Definition no_failed_copy : Prop := NDEBUG = false ∨ ∀ k, malloc_ok k = true.

(** A failing realloc frees the process, but the ASSERT on the result stops the program. *)
Lemma registers_copyargs {A} X p buf (k : Z → M (St T) A) :
  no_failed_copy → (∀ r s a s', NDEBUG = false → r ≠ 0%Z → k r s ≠ Ok a s') → (∀ r, keeps (registers X) (k r)) →
  keeps (registers X) (_proc_copyargs p buf ≫= k).
Proof.
  intros Hno Hfail Hk s a s' H. apply bind_inv in H as (r & s1 & H1 & H).
  intros Hreg. eapply Hk; [exact H|]. revert H1. unfold _proc_copyargs.
  intros (v & s2 & [-> Hp]%getp_inv & H1)%bind_inv.
  apply bind_inv in H1 as (ok & s2 & [= <- <-] & H1). destruct (malloc_ok _) eqn:Hmal; simpl in H1.
  - unfold putp, modify, mbind, M_bind, mret, M_ret in H1. simplify_eq.
    destruct (same_core_put p v (p_set_args (p_args v ++ buf) v) s Hp) as (_ & Ht & Hd).
    refine (registers_same X s _ _ _ Hreg); [exact Ht|exact Hd].
  - destruct Hno as [Hdbg|Hno]; [|by rewrite Hno in Hmal]. exfalso.
    apply (Hfail r s1 a s' Hdbg); [|done].
    apply bind_inv in H1 as ([] & s3 & [= <-] & H1). apply bind_inv in H1 as ([] & s4 & Hf & H1).
    unfold free_proc, modify, mods, mbind, M_bind in Hf. unfold get in H1.
    simplify_eq/=. unfold modify in Hf. by simplify_eq/=.
Qed.

Lemma ASSERT_stops {A} (b : bool) (k : () → M (St T) A) s a s' :
  NDEBUG = false → b = false → (ASSERT b ≫= k) s ≠ Ok a s'.
Proof. unfold ASSERT, mbind, M_bind. by intros -> ->. Qed.

Lemma registers_life : no_failed_copy → Lifecycle (registers ∅).
Proof.
  intros Hno.
  assert (∀ A p buf (m : M (St T) A), keeps (registers ∅) m →
    keeps (registers ∅) (r ← _proc_copyargs p buf; ASSERT (r =? 0)%Z ;; m)) as Hcopy.
  { intros A p buf m Hm. apply registers_copyargs; [done| |keep]. intros r s a s' Hdbg Hr.
    apply ASSERT_stops; [done|by apply Z.eqb_neq]. }
  split; intros.
  - unfold proc_create. apply keeps_bind; [keep|]. intros _. apply keeps_bind; [keep|].
    intros [p|]; [|keep]. apply keeps_bind; [keep|]. intros [|]; simpl; [|keep].
    apply keeps_bind; [keep|]. intros size. apply registers_new.
  - apply registers_free.
  - assert (∀ l tmp, keeps (registers ∅) (setargs_loop p tmp l)) as Hloop.
    { clear l. intros l. induction l; intros; cbn [setargs_loop]; keep. }
    unfold proc_setargs. apply keeps_bind; [keep|]. intros tmp. apply keeps_bind; [|keep].
    apply keeps_when. apply registers_copyargs; [done| |keep].
    intros r s a' s' Hdbg Hr. unfold ASSERT. rewrite Hdbg, (proj2 (Z.eqb_neq _ _) Hr). done.
Qed.

Lemma registers_pick X : keeps (registers X) scheduler_pick.
Proof. unfold scheduler_pick. keep. by apply registers_modify. Qed.

Lemma free_loop_empty n : ∀ s a s', scheduler_free_loop n s = Ok a s' → total s' = [].
Proof.
  induction n as [|n IH]; intros s a s' H; cbn [scheduler_free_loop] in H;
    apply bind_inv in H as (q & s1 & [= <- <-] & H); destruct (s_totalQ (sched s)) as [|p l] eqn:Hq.
  - unfold mret, M_ret in H. by simplify_eq.
  - done.
  - unfold mret, M_ret in H. by simplify_eq.
  - apply bind_inv in H as (u & s2 & _ & H). by eapply IH.
Qed.

Lemma registered_empty s : registered ∅ s → total s = [] → procs s = ∅.
Proof. intros (_ & Hd & _) Ht. rewrite Ht in Hd. apply dom_empty_inv_L. set_solver. Qed.
End registers.

Section no_leak.
Context {T : Type} {TT : SleepTree T} {E : Env} {P : Type} {CL : Client P}.
Implicit Types s : St T.

(** Also when the runtime has stopped. *)
Definition clean (x : cpu P) s : Prop :=
  registered ∅ s ∧ (cpu_mode x = Halted → procs s = ∅).

Lemma after_call_mode p (x : cpu P) k r s x' s' : after_call p x k r s = Ok x' s' → cpu_mode x' ≠ Halted.
Proof.
  destruct r; simpl; unfold mret, M_ret; [by intros; simplify_eq|].
  intros (u & s1 & _ & H)%bind_inv. by simplify_eq.
Qed.

Lemma switch_to_mode p (x : cpu P) s x' s' : switch_to p x s = Ok x' s' → cpu_mode x' ≠ Halted.
Proof.
  unfold switch_to. destruct (conts x !! p) as [[f k]|].
  - intros (r & s1 & _ & H)%bind_inv. by eapply after_call_mode.
  - intros (v & s1 & _ & H)%bind_inv. apply bind_inv in H as (u & s2 & _ & H).
    unfold mret, M_ret in H. by simplify_eq.
Qed.

Lemma step_clean (x : cpu P) s x' s' : no_failed_copy → sys_step x s = Ok x' s' → clean x s → clean x' s'.
Proof.
  intros Hno H [Hreg Hhalt]. pose proof (registers_life Hno) as HL.
  assert (registered ∅ s') as Hreg'.
  { revert Hreg. eapply (keeps_step (R := registers ∅)); [apply registers_pick|exact H]. }
  split; [done|]. intros Hm. unfold sys_step in H. destruct (cpu_mode x) as [|p st|] eqn:Hx.
  - apply bind_inv in H as ([] & s1 & _ & H).
    + apply bind_inv in H as ([p|] & s2 & _ & H); [by apply switch_to_mode in H|].
      unfold mret, M_ret in H. simplify_eq. by rewrite Hx in Hm.
    + apply bind_inv in H as ([] & s2 & H & Hh). unfold mret, M_ret in Hh. simplify_eq.
      apply registered_empty; [done|]. apply bind_inv in H as (n & s3 & _ & H).
      by eapply free_loop_empty.
  - destruct (client_next st) as [[c k]|]; apply bind_inv in H as (r & s1 & _ & H);
      by apply after_call_mode in H.
  - unfold mret, M_ret in H. simplify_eq. by apply Hhalt.
Qed.

Lemma run_clean n : ∀ (x : cpu P) s x' s',
  no_failed_copy → sys_run n x s = Ok x' s' → clean x s → clean x' s'.
Proof.
  induction n as [|n IH]; intros x s x' s' Hdbg H Hc; simpl in H.
  - unfold mret, M_ret in H. by simplify_eq.
  - apply bind_inv in H as (x1 & s1 & H1 & H). eapply IH; [done|exact H|]. by eapply step_clean.
Qed.

Lemma create_clean s a s' :
  procs s = ∅ → total s = [] → scheduler_create s = Ok a s' → registered ∅ s'.
Proof.
  intros Hp Ht H. unfold scheduler_create in H. apply bind_inv in H as (ok & s1 & [= <- <-] & H).
  unfold registered. destruct (malloc_ok _); simpl in H; apply bind_inv in H as ([] & s2 & [= <-] & H);
    unfold get, mret, M_ret in H; simplify_eq; unfold total in *; simpl; rewrite ?Ht, Hp;
    (split_and!; [constructor|set_solver|set_solver]).
Qed.

(** C3: no process is lost or leaked.  In a run of the whole program from
    proxc_start, whatever the processes do and as long as no behaviour is undefined,
    totalQ lists exactly the processes that exist, each once, after any number of
    steps; and when scheduler_run has returned and scheduler_free is done, no process
    is left.  This holds of a build with assertions, and of one without when no
    allocation fails: there a failing realloc leaves a freed process in totalQ. *)
Theorem system_no_leak n fxn s (x' : cpu P) s' :
  NDEBUG = false ∨ (∀ k, malloc_ok k = true) → procs s = ∅ → s_totalQ (sched s) = [] →
  (sys_start fxn ≫= sys_run n) s = Ok x' s' →
  NoDup (s_totalQ (sched s')) ∧ (∀ p, p ∈ s_totalQ (sched s') ↔ is_Some (procs s' !! p)) ∧
  (cpu_mode x' = Halted → procs s' = ∅).
Proof.
  intros Hno Hp Ht H. apply bind_inv in H as (x1 & s1 & H1 & H).
  assert (clean x1 s1) as Hc.
  { unfold sys_start in H1. apply bind_inv in H1 as ([] & s2 & H1 & Hx).
    unfold mret, M_ret in Hx. simplify_eq. split; [|done].
    unfold proxc_start in H1. apply bind_inv in H1 as (r & s2 & Hc & H1).
    apply create_clean in Hc; [|done..]. pose proof (registers_life Hno) as HL.
    revert Hc. assert (keeps (registers ∅) (if negb (r =? 0)%Z then start_unscheduled fxn else
      r ← proc_create fxn; p ← deref (snd r);
      mods (s_set_main (Some p)) ;; scheduler_addready (Some p))) as Hk by (unfold start_unscheduled; keep).
    by eapply Hk. }
  destruct (run_clean _ _ _ _ _ Hno H Hc) as [(Hnd & Hd & _) Hhalt]. split_and!; [done| |done].
  intros p. rewrite <-elem_of_dom, Hd. set_solver.
Qed.
End no_leak.

(** ** A program: the main process runs two others in parallel *)

(** Body, program counter, replies so far (the last one first). *)
Definition demo_body : Type := Z * nat * list reply.

Definition reply_arg (r : reply) : varg := match r with RPtr o => varg_of o | RInt _ => VNull end.

Definition demo_next (b : demo_body) : option (call * (reply → demo_body)) :=
  let '(f, pc, rs) := b in
  let c := if (f =? 1)%Z
    then match pc, rs with
      | 0, _ => Some (CallProc 2 [])
      | 1, _ => Some (CallProc 3 [])
      | 2, [r2; r1] => Some (CallPar [reply_arg r1; reply_arg r2])
      | 3, RPtr o :: _ => Some (CallRun o)
      | _, _ => None
      end
    else match pc with 0 => Some (CallSleep (100 * (4 - f))) | 1 => Some CallYield | _ => None end in
  (λ c, (c, λ r, (f, S pc, r :: rs))) <$> c.

#[local] Instance demo_client : Client demo_body :=
  {| client_start f := (f, 0, []); client_next := demo_next |}.
#[local] Existing Instance demo_env.

Definition blank_state : St rb_tree :=
  MkSt ∅ ∅ ∅ ∅ ∅ ∅ (MkSched 0 0 false None None [] [] 0 rb_init 0 rb_init) ∅ 1 0 0 0 0 [] 0.

Definition demo_run (n : nat) : outcome (St rb_tree) (cpu demo_body) :=
  (sys_start 1 ≫= sys_run n) blank_state.

(** The second child wakes first; both end, the main process returns, and the
    runtime stops with nothing left allocated. *)
Example demo_run_ends :
  match demo_run 40 with
  | Ok x s => cpu_mode x = Halted ∧ procs s = ∅ ∧ builds s = ∅ ∧ s_totalQ (sched s) = []
  | _ => False
  end.
Proof. vm_compute. done. Qed.

Lemma system_no_leak_witness : ∃ x' s',
  demo_run 40 = Ok x' s' ∧ cpu_mode x' = Halted ∧
  NoDup (s_totalQ (sched s')) ∧ (∀ p, p ∈ s_totalQ (sched s') ↔ is_Some (procs s' !! p)) ∧
  (cpu_mode x' = Halted → procs s' = ∅).
Proof.
  destruct (demo_run 40) as [x' s'| | |] eqn:H; [|by vm_compute in H..].
  exists x', s'. split; [done|]. split.
  - assert (match demo_run 40 with Ok x _ => cpu_mode x = Halted | _ => False end) as Hx by by vm_compute.
    by rewrite H in Hx.
  - apply (system_no_leak 40 1 blank_state x' s'); [by left|done..].
Defined.
