(* ===== verification/ChanInv.v ===== *)
(** * What the queues of a channel hold, in every run of the program

    A third relation of [Keeps]: [tidy] says of the queue of ends of every
    channel that its live ends belong to the channel and wait in the same
    direction.  It is kept by every step of [sys_step], so it holds in every
    state that a program reaches. *)
From stdpp Require Import base tactics list gmap.
From Stdlib Require Import ZArith Lia.
From S2P Require Import Prelude Tailq Rbtree RbInsert RbSpec State SchedOps Exec Csp Proc.
From S2P Require Import AltCore Chan Alt Context Sched Proxc System Keeps SystemSpec.

Section tidy.
Context {T : Type} {TT : SleepTree T} {E : Env}.
Implicit Types s : St T.

(** A stack end that waits on [c] in the direction [ty]. *)
Definition waits (ty : ChanEndType) (c : loc) (ce : ChanEnd) : Prop :=
  ce_type ce = ty ∧ ce_chan ce = Some c ∧ ce_guard ce = None.

Definition queue_ok s (c : loc) (q : list loc) : Prop :=
  NoDup q ∧ (∀ e, e ∈ q → (e < fresh_loc s)%positive) ∧
  ∃ ty, ty ≠ CHAN_ALTER ∧ ∀ e ce, e ∈ q → ends s !! e = Some ce → waits ty c ce.

(** Every queue is in order, and the ends of [X] are allocated and in none. *)
Definition in_order (X : gset loc) s : Prop :=
  (∀ c ch, chans s !! c = Some ch → queue_ok s c (c_endQ ch)) ∧
  ∀ e, e ∈ X → (e < fresh_loc s)%positive ∧ ∀ c ch, chans s !! c = Some ch → e ∉ c_endQ ch.

Definition tidy (X : gset loc) : relation (St T) := λ s s', in_order X s → in_order X s'.

Lemma queue_ok_mono s s' c q q' :
  queue_ok s c q → q' `sublist_of` q → (fresh_loc s ≤ fresh_loc s')%positive →
  (∀ e ce, e ∈ q' → ends s' !! e = Some ce →
    ∃ ce0, ends s !! e = Some ce0 ∧ ∀ ty, waits ty c ce0 → waits ty c ce) →
  queue_ok s' c q'.
Proof.
  intros (Hnd & Hf & ty & Hty & Hq) Hsub Hle Hends. split_and!.
  - by eapply sublist_NoDup.
  - intros e He. specialize (Hf e (elem_of_sublist _ _ _ He Hsub)). lia.
  - exists ty. split; [done|]. intros e ce He Hce. destruct (Hends _ _ He Hce) as (ce0 & Hce0 & Hw).
    apply Hw. eapply Hq; [|done]. by eapply elem_of_sublist.
Qed.

(** Queues that only lose ends, and ends that keep their place. *)
Lemma in_order_mono X s s' :
  (fresh_loc s ≤ fresh_loc s')%positive →
  (∀ c ch', chans s' !! c = Some ch' → c_endQ ch' = [] ∨
    ∃ ch, chans s !! c = Some ch ∧ c_endQ ch' `sublist_of` c_endQ ch) →
  (∀ c ch e ce, chans s !! c = Some ch → e ∈ c_endQ ch → ends s' !! e = Some ce →
    ∃ ce0, ends s !! e = Some ce0 ∧ ∀ ty c, waits ty c ce0 → waits ty c ce) →
  tidy X s s'.
Proof.
  intros Hle Hc He [HQ HX]. split.
  - intros c ch' Hch'. destruct (Hc _ _ Hch') as [->|(ch & Hch & Hsub)].
    { split_and!; [constructor|by intros ? ?%elem_of_nil|]. exists CHAN_READER. split; [done|].
      by intros ?? ?%elem_of_nil. }
    eapply queue_ok_mono; [by apply HQ|done..|]. intros e ce Hin Hce.
    destruct (He c ch e ce Hch) as (ce0 & Hce0 & Hw); [by eapply elem_of_sublist|done|].
    exists ce0. split; [done|]. intros ty. apply Hw.
  - intros e Hin. destruct (HX e Hin) as [Hlt Hn]. split; [lia|]. intros c ch' Hch' Hq.
    destruct (Hc _ _ Hch') as [H|(ch & Hch & Hsub)]; [rewrite H in Hq; by apply elem_of_nil in Hq|].
    eapply Hn; [done|]. by eapply elem_of_sublist.
Qed.

Lemma tidy_same X s s' : same_chans s s' → tidy X s s'.
Proof.
  intros (Hc & He & Hf). unfold tidy, in_order, queue_ok. by rewrite Hc, He, Hf.
Qed.

#[export] Instance tidy_stable X : Stable (tidy X).
Proof.
  split.
  - intros s1 s2 s3 H1 H2 H. by apply H2, H1.
  - intros s s' _. apply tidy_same.
  - intros p s s' _ _ _ _ _. apply tidy_same.
Qed.

(** ** The updates *)

Lemma tidy_modify X f : (∀ s, same_chans s (f s)) → keeps (tidy X) (modify f).
Proof. intros Hf s a s' [= <- <-]. by apply tidy_same. Qed.

Lemma tidy_fresh X s : tidy X s (set_fresh (Pos.succ (fresh_loc s)) s).
Proof.
  apply in_order_mono; simpl; [lia|by eauto|]. intros c ch e ce _ _ Hce. by exists ce.
Qed.

Lemma tidy_malloc X : keeps (tidy X) malloc.
Proof.
  unfold malloc. apply keeps_bind; [apply keeps_alloc_ok|]. intros [|].
  - intros s a s' [= <- <-]. apply tidy_fresh.
  - apply keeps_bind; [by apply tidy_modify|]. intros. apply keeps_ret.
Qed.

Lemma tidy_ends X m s : m ⊆ ends s → tidy X s (set_ends (λ _, m) s).
Proof.
  intros Hm. apply in_order_mono; simpl; [done|by eauto|]. intros c ch e ce _ _ Hce.
  exists ce. split; [|done]. by eapply lookup_weaken.
Qed.

(** An end in no queue may change. *)
Lemma tidy_pute X e v : e ∈ X → keeps (tidy X) (pute e v).
Proof.
  intros He s [] s' [= <-] Hs. revert Hs. assert (in_order X s → tidy X s (set_ends <[e := v]> s)) as H;
    [|by intros Hs; apply H].
  intros [_ HX]. destruct (HX e He) as [_ Hn]. apply in_order_mono; simpl; [done|by eauto|].
  intros c ch x ce Hch Hx Hce. rewrite lookup_insert_ne in Hce; [by exists ce|].
  intros ->. by eapply Hn.
Qed.

Lemma tidy_proc X e ce p s : ends s !! e = Some ce → tidy X s (set_ends <[e := ce_set_proc p ce]> s).
Proof.
  intros He. apply in_order_mono; simpl; [done|by eauto|]. intros c ch x ce' _ _ Hx.
  destruct (decide (e = x)) as [->|Hne].
  - rewrite lookup_insert_eq in Hx. simplify_eq. by exists ce.
  - rewrite lookup_insert_ne in Hx by done. by exists ce'.
Qed.

(** A channel whose queue of ends loses some. *)
Lemma tidy_putc X c ch ch' s :
  chans s !! c = Some ch → c_endQ ch' `sublist_of` c_endQ ch → tidy X s (set_chans <[c := ch']> s).
Proof.
  intros Hc Hsub. apply in_order_mono; simpl; [done| |by eauto]. intros d x Hx. right.
  destruct (decide (c = d)) as [->|Hne].
  - rewrite lookup_insert_eq in Hx. simplify_eq. by exists ch.
  - rewrite lookup_insert_ne in Hx by done. by exists x.
Qed.

Lemma tidy_new_chan X c n : keeps (tidy X) (modify (set_chans <[c := MkChan n [] []]>)).
Proof.
  intros s [] s' [= <-]. apply in_order_mono; simpl; [done| |by eauto]. intros d x Hx.
  destruct (decide (c = d)) as [->|Hne].
  - rewrite lookup_insert_eq in Hx. simplify_eq. by left.
  - rewrite lookup_insert_ne in Hx by done. right. by exists x.
Qed.

Lemma tidy_del_chan X c : keeps (tidy X) (modify (set_chans (delete c))).
Proof.
  intros s [] s' [= <-]. apply in_order_mono; simpl; [done| |by eauto].
  intros d x [_ Hx]%lookup_delete_Some. right. by exists x.
Qed.

(** The next address is in no queue yet. *)
Lemma in_order_fresh s : in_order ∅ s → in_order {[fresh_loc s]} (set_fresh (Pos.succ (fresh_loc s)) s).
Proof.
  intros Hs. destruct (tidy_fresh ∅ s Hs) as [HQ _]. split; [done|].
  intros e ->%elem_of_singleton. split; [simpl; lia|]. intros c ch Hch Hin. simpl in Hch.
  destruct Hs as [Hs _]. destruct (Hs _ _ Hch) as (_ & Hf & _). specialize (Hf _ Hin). lia.
Qed.

Lemma in_order_weaken X s : in_order X s → in_order ∅ s.
Proof. intros [HQ _]. by split. Qed.

Lemma tidy_stack_alloc {A} (k : loc → M (St T) A) :
  (∀ e, keeps (tidy {[e]}) (k e)) → keeps (tidy ∅) (stack_alloc ≫= k).
Proof.
  intros Hk s a s' (e & s1 & [= <- <-] & H)%bind_inv Hs. eapply in_order_weaken, Hk; [exact H|].
  by apply in_order_fresh.
Qed.

(** ** The operations of chan.c *)

Lemma getc_inv c s ch s' : getc c s = Ok ch s' → s' = s ∧ chans s !! c = Some ch.
Proof.
  unfold getc, mbind, M_bind, get, deref. destruct (chans s !! c) as [w|]; [|done].
  unfold mret, M_ret. by intros [= <- <-].
Qed.

Lemma gete_inv e s ce s' : gete e s = Ok ce s' → s' = s ∧ ends s !! e = Some ce.
Proof.
  unfold gete, mbind, M_bind, get, deref. destruct (ends s !! e) as [w|]; [|done].
  unfold mret, M_ret. by intros [= <- <-].
Qed.

Lemma tidy_remove X c e : keeps (tidy X) (endQ_remove c e).
Proof.
  unfold endQ_remove. intros s [] s' (ch & s1 & [-> Hc]%getc_inv & H)%bind_inv.
  apply bind_inv in H as (live & s1 & [= <- <-] & H). apply bind_inv in H as (q & s1 & Hq & [= <-]).
  unfold TQ_REMOVE, deref in Hq. destruct (Q.remove _ _ e) as [q'|] eqn:Hr; [|done].
  unfold mret, M_ret in Hq. simplify_eq. apply remove_inv in Hr as ->.
  eapply tidy_putc; [done|]. apply sublist_filter.
Qed.

(** The queue of alternatives is another one. *)
Lemma tidy_altQ {A} X c (F : Chan → (loc → bool) → option (list loc)) (k : M (St T) A) :
  keeps (tidy X) k →
  keeps (tidy X) (ch ← getc c; live ← live_ends; q' ← deref (F ch live);
    putc c (c_set_altQ q' ch) ;; k).
Proof.
  intros Hk s a s' (ch & s1 & [-> Hc]%getc_inv & H)%bind_inv.
  apply bind_inv in H as (live & s1 & [= <- <-] & H). destruct (F ch _) as [q'|]; [|done].
  apply bind_inv in H as (q & s1 & [= <- <-] & H). apply bind_inv in H as ([] & s1 & [= <-] & H).
  etrans; [|by eapply Hk]. by eapply tidy_putc.
Qed.

(** What the inspection of the first end has established when it finds none of
    the other side: the queue is empty, or its first end waits in the same direction. *)
Lemma first_end_inv c ty s o s' :
  first_end_of c ty s = Ok o s' →
  s' = s ∧ ∃ ch, chans s !! c = Some ch ∧
  (o = None → c_endQ ch = [] ∨ ∃ e ce, e ∈ c_endQ ch ∧ ends s !! e = Some ce ∧ ce_type ce ≠ ty).
Proof.
  unfold first_end_of. intros (ch & s1 & [-> Hc]%getc_inv & H)%bind_inv.
  destruct (c_endQ ch) as [|e q] eqn:Hq; simpl in H.
  { unfold mret, M_ret in H. simplify_eq. split; [done|]. exists ch. split; [done|]. by left. }
  apply bind_inv in H as (ce & s1 & [-> He]%gete_inv & H). unfold mret, M_ret in H.
  destruct (decide (ce_type ce = ty)); simplify_eq; (split; [done|]); exists ch; (split; [done|]); [done|].
  intros _. right. exists e, ce. rewrite Hq. split; [left|done].
Qed.

(** The two directions of a blocking call. *)
Definition opposite (ty ty' : ChanEndType) : Prop :=
  (ty = CHAN_WRITER ∧ ty' = CHAN_READER) ∨ (ty = CHAN_READER ∧ ty' = CHAN_WRITER).

(** A new end joins a queue whose first end does not wait for it. *)
Lemma queue_ok_snoc s c q e ty other :
  queue_ok s c q → e ∉ q → (e < fresh_loc s)%positive → opposite ty other →
  (∀ ce, ends s !! e = Some ce → waits ty c ce) →
  (q = [] ∨ ∃ x ce, x ∈ q ∧ ends s !! x = Some ce ∧ ce_type ce ≠ other) →
  queue_ok s c (q ++ [e]).
Proof.
  intros (Hnd & Hf & ty' & Hty' & Hq) Hn Hlt Hty He Hdir.
  assert (∀ x ce, x ∈ q → ends s !! x = Some ce → waits ty c ce) as Hq'.
  { destruct Hdir as [->|(x & ce & Hx & Hce & Hxty)]; [by intros ?? ?%elem_of_nil|].
    destruct (Hq _ _ Hx Hce) as [Heq _]. rewrite Heq in Hxty.
    assert (ty' = ty) as -> by (by destruct Hty as [[-> ->]|[-> ->]], ty'). done. }
  split_and!.
  - apply NoDup_app. split; [done|]. split; [set_solver|apply NoDup_singleton].
  - intros x [Hx| ->%list_elem_of_singleton]%elem_of_app; [by apply Hf|done].
  - exists ty. split; [by destruct Hty as [ [-> _] | [-> _] ]|]. intros x ce [Hx| ->%list_elem_of_singleton]%elem_of_app; [by apply Hq'|by apply He].
Qed.

Lemma in_order_insert c ty other ch e ce q' s :
  in_order {[e]} s → chans s !! c = Some ch → opposite ty other →
  ends s !! e = Some ce → waits ty c ce →
  (c_endQ ch = [] ∨ ∃ x ce, x ∈ c_endQ ch ∧ ends s !! x = Some ce ∧ ce_type ce ≠ other) →
  q' = c_endQ ch ++ [e] → in_order ∅ (set_chans <[c := c_set_endQ q' ch]> s).
Proof.
  intros [HQ HX] Hc Hty He Hw Hdir ->. split; [|done]. simpl. intros d x Hx.
  destruct (HX e) as [Hlt Hn]; [set_solver|].
  destruct (decide (c = d)) as [->|Hne].
  - rewrite lookup_insert_eq in Hx. simplify_eq. simpl.
    change (queue_ok s d (c_endQ ch ++ [e])). eapply queue_ok_snoc; [by eapply HQ|by eapply Hn|done..| |done].
    intros ce' Hce'. by simplify_eq.
  - rewrite lookup_insert_ne in Hx by done. by apply HQ in Hx.
Qed.

(** The end that a blocking call puts into the queue. *)
Lemma tidy_insert c ty other d p e ch s s' :
  opposite ty other → chans s !! c = Some ch → in_order {[e]} s →
  (c_endQ ch = [] ∨ ∃ x ce, x ∈ c_endQ ch ∧ ends s !! x = Some ce ∧ ce_type ce ≠ other) →
  (pute e (MkEnd ty d (Some c) (Some p) None) ;; endQ_insert_tail c e) s = Ok () s' → in_order ∅ s'.
Proof.
  intros Hty Hc He Hdir ([] & s1 & H1 & H)%bind_inv.
  pose proof (tidy_pute {[e]} e _ ltac:(set_solver) _ _ _ H1 He) as He1. injection H1 as <-.
  unfold endQ_insert_tail in H. apply bind_inv in H as (ch' & s1 & [-> Hc']%getc_inv & H).
  apply bind_inv in H as (live & s1 & [= <- <-] & H). apply bind_inv in H as (q & s1 & Hq & [= <-]).
  unfold TQ_INSERT_TAIL, deref in Hq. destruct (Q.insert_tail _ _ e) as [q'|] eqn:Hr; [|done].
  unfold mret, M_ret in Hq. simplify_eq. apply insert_tail_inv in Hr as [Hn ->]. simpl in Hc'. simplify_eq.
  eapply in_order_insert; [done|exact Hc|done|apply lookup_insert_eq|done| |done].
  destruct Hdir as [?|(x & ce & Hx & Hce & Hne)]; [by left|]. right. exists x, ce. split_and!; [done| |done].
  simpl. rewrite lookup_insert_ne; [done|]. by intros ->.
Qed.

Lemma self_inv s p s' : proc_self s = Ok p s' → s' = s.
Proof. unfold proc_self, gets. intros (o & s1 & [= <- <-] & [_ H]%notnull_inv)%bind_inv. done. Qed.

Lemma tidy_wait c ty other d ch s a s' :
  opposite ty other → chans s !! c = Some ch →
  (c_endQ ch = [] ∨ ∃ x ce, x ∈ c_endQ ch ∧ ends s !! x = Some ce ∧ ce_type ce ≠ other) →
  chan_wait c ty d s = Ok a s' → tidy ∅ s s'.
Proof.
  intros Hty Hc Hdir. unfold chan_wait. intros (p & s0 & ->%self_inv & H)%bind_inv Hs.
  apply bind_inv in H as (e & s1 & [= <- <-] & H). apply in_order_fresh in Hs.
  apply bind_inv in H as ([] & s2 & H2 & H). apply bind_inv in H as ([] & s3 & H3 & H).
  assert (in_order ∅ s3) as Hs3.
  { eapply (tidy_insert c ty other d p (fresh_loc s) ch); [done| |exact Hs| |];
      [..|by rewrite (bind_ok _ _ _ _ _ H2)]; done. }
  revert Hs3. assert (keeps (tidy ∅) (modp p (p_set_state PROC_CHANWAIT) ;;
    proc_yield (A := Z) (Some p) (KChan (fresh_loc s)))) as Hk by (unfold proc_yield; keep).
  by eapply Hk.
Qed.

(** A call that takes the first end of the other side, or waits. *)
Lemma tidy_meet c ty other d (k : loc → ChanEnd → M (St T) (ctl Z)) :
  opposite ty other → (∀ x v, keeps (tidy ∅) (k x v)) →
  keeps (tidy ∅) (r ← first_end_of c other;
    match r with Some (first, v) => k first v | None => chan_wait c ty d end).
Proof.
  intros Hty Hk s a s' (o & s1 & [-> (ch & Hc & Ho)]%first_end_inv & H)%bind_inv.
  destruct o as [[x v]|]; [by eapply Hk|]. eapply tidy_wait; [done..| |exact H]. by apply Ho.
Qed.

#[local] Hint Resolve tidy_malloc tidy_remove tidy_new_chan tidy_del_chan : keeps.

#[export] Instance tidy_channels : Channels (tidy ∅).
Proof.
  split; intros.
  - apply tidy_fresh.
  - unfold chan_create. keep.
  - unfold chan_free. keep.
  - apply tidy_remove.
  - unfold chan_write. do 4 (apply keeps_bind; [keep|intros ?]). case_match; [keep|].
    eapply tidy_meet; [by left|]. intros. keep.
  - unfold chan_read. do 3 (apply keeps_bind; [keep|intros ?]).
    eapply tidy_meet; [by right|]. intros. keep.
  - unfold chan_altenable. do 3 (apply keeps_bind; [keep|intros ?]). case_match; [keep|].
    apply (tidy_altQ _ _ (λ ch live, Q.insert_tail live (c_altQ ch) _)). keep.
  - unfold chan_altdisable. do 3 (apply keeps_bind; [keep|intros ?]).
    refine (tidy_altQ _ _ (λ ch live, Q.remove live (c_altQ ch) _) (mret ()) _). keep.
  - unfold alt_guardcreate. apply keeps_bind; [keep|]. intros [g|]; [|keep].
    apply tidy_stack_alloc. intros e.
    assert (∀ v, keeps (tidy {[e]}) (pute e v)) by (intros v; apply tidy_pute; set_solver). keep.
  - by apply tidy_ends.
  - by apply tidy_proc.
Qed.

(** ** Processes and the scheduler *)

Lemma tidy_free_proc X p : keeps (tidy X) (free_proc p).
Proof. unfold free_proc. apply keeps_bind; [by apply tidy_modify|]. keep. Qed.
#[local] Hint Resolve tidy_free_proc : keeps.

Lemma tidy_copyargs p l : keeps (tidy ∅) (_proc_copyargs p l).
Proof. unfold _proc_copyargs. keep; by apply tidy_modify. Qed.
#[local] Hint Resolve tidy_copyargs : keeps.

Lemma tidy_setargs_loop p l : ∀ tmp, keeps (tidy ∅) (setargs_loop p tmp l).
Proof. induction l; intros; cbn [setargs_loop]; keep. Qed.
#[local] Hint Resolve tidy_setargs_loop : keeps.

#[export] Instance tidy_life : Lifecycle (tidy ∅).
Proof.
  split; intros.
  - unfold proc_create. keep; by apply tidy_modify.
  - unfold proc_free. keep; by apply tidy_modify.
  - unfold proc_setargs. keep.
Qed.

Lemma tidy_pick : keeps (tidy ∅) scheduler_pick.
Proof. unfold scheduler_pick. keep. by apply tidy_modify. Qed.

Lemma tidy_start {P} fxn : keeps (tidy ∅) (sys_start (P := P) fxn).
Proof.
  unfold sys_start, proxc_start, start_unscheduled, scheduler_create. keep; by apply tidy_modify.
Qed.
End tidy.

Section channels.
Context {T : Type} {TT : SleepTree T} {E : Env} {P : Type} {CL : Client P}.

(** C4: in every state that a run of the whole program reaches (any bodies, any
    interleaving of writes, reads, alternatives, opens, closes and frees), the
    queue of a channel holds each end once, and its live ends all belong to
    that channel, are no alternative's, and wait in the same direction: a
    writer and a reader are never both waiting on one channel.  (A run goes on as
    long as no behaviour is undefined: an ALT, as far as its clean-up.) *)
Theorem system_channel_queues n fxn (s : St T) (x' : cpu P) s' :
  chans s = ∅ → (sys_start fxn ≫= sys_run n) s = Ok x' s' →
  ∀ c ch, chans s' !! c = Some ch →
  NoDup (c_endQ ch) ∧
  ∃ ty, ty ≠ CHAN_ALTER ∧ ∀ e ce, e ∈ c_endQ ch → ends s' !! e = Some ce →
    ce_type ce = ty ∧ ce_chan ce = Some c ∧ ce_guard ce = None.
Proof.
  intros Hc H c ch Hch.
  assert (in_order ∅ s) as Hs by (split; [by rewrite Hc|done]).
  assert (keeps (tidy ∅) (sys_start fxn ≫= sys_run (P := P) n)) as Hk.
  { apply keeps_bind; [apply tidy_start|]. intros x. apply keeps_run, tidy_pick. }
  destruct (Hk _ _ _ H Hs) as [HQ _]. destruct (HQ _ _ Hch) as (Hnd & _ & Hw). by split.
Qed.
End channels.

(** ** A program: two writers meet on a channel before its reader arrives *)

(** The main process opens the channel, hands it to three processes and runs
    them in parallel; 2 writes, 3 yields and reads. *)
Definition meet_next (b : demo_body) : option (call * (reply → demo_body)) :=
  let '(f, pc, rs) := b in
  let chan := match last rs with
    | Some (RPtr o) => o | Some (RInt a) => Some (Z.to_pos a) | None => None end in
  let addr := from_option (λ c, Zpos c) 0%Z chan in
  let c := if (f =? 1)%Z
    then match pc, rs with
      | 0, _ => Some (CallChopen 1)
      | 1, _ | 2, _ => Some (CallProc 2 [addr])
      | 3, _ => Some (CallProc 3 [addr])
      | 4, [r3; r2; r1; _] => Some (CallPar [reply_arg r1; reply_arg r2; reply_arg r3])
      | 5, RPtr o :: _ => Some (CallRun o)
      | _, _ => None
      end
    else match pc with
      | 0 => Some (CallArgn 0)
      | 1 => Some (if (f =? 2)%Z then CallChwrite chan 0 1 else CallYield)
      | 2 => if (f =? 2)%Z then None else Some (CallChread chan 1 1)
      | 3 => if (f =? 2)%Z then None else Some (CallChread chan 2 1)
      | _ => None
      end in
  (λ c, (c, λ r, (f, S pc, r :: rs))) <$> c.

#[local] Instance meet_client : Client demo_body :=
  {| client_start f := (f, 0, []); client_next := meet_next |}.
#[local] Existing Instance demo_env.

Definition meet_state : St rb_tree := set_mem (λ _, {[ 0%Z := 7%Z; 1%Z := 0%Z; 2%Z := 0%Z ]}) blank_state.
Definition meet_run (n : nat) : outcome (St rb_tree) (cpu demo_body) :=
  (sys_start 1 ≫= sys_run n) meet_state.

Definition queues (o : outcome (St rb_tree) (cpu demo_body)) : list (list loc) :=
  match o with Ok _ s => (λ kv, c_endQ kv.2) <$> map_to_list (chans s) | _ => [] end.

(** Both bytes arrive, and nothing is left: no process, channel queue or end. *)
Example meet_run_ends :
  match meet_run 60 with
  | Ok x s => cpu_mode x = Halted ∧ mem s !! 1%Z = Some 7%Z ∧ mem s !! 2%Z = Some 7%Z ∧
      procs s = ∅ ∧ ends s = ∅ ∧ queues (Ok x s) = [[]]
  | _ => False
  end.
Proof. vm_compute. done. Qed.

Lemma system_channel_queues_witness : ∃ x' s',
  meet_run 14 = Ok x' s' ∧ queues (meet_run 14) = [[10; 11]%positive] ∧
  ∀ c ch, chans s' !! c = Some ch →
  NoDup (c_endQ ch) ∧
  ∃ ty, ty ≠ CHAN_ALTER ∧ ∀ e ce, e ∈ c_endQ ch → ends s' !! e = Some ce →
    ce_type ce = ty ∧ ce_chan ce = Some c ∧ ce_guard ce = None.
Proof.
  destruct (meet_run 14) as [x' s'| | |] eqn:H; [|by vm_compute in H..].
  exists x', s'. split; [done|]. split; [rewrite <-H; by vm_compute|].
  by apply (system_channel_queues 14 1 meet_state x' s').
Defined.
