(* ===== verification/World.v ===== *)
(** * The invariant of a running program

    What the runtime's data structures look like between two steps of a program
    whose bodies keep to the interface: every process is in exactly one place
    (running, ready, asleep, blocked on a channel, waiting in RUN, or in a tree
    that has not started it), and the component invariants hold together. *)
From stdpp Require Import base tactics list gmap.
From Stdlib Require Import ZArith Lia.
From S2P Require Import Prelude Tailq Rbtree RbInsert RbSpec State SchedOps Exec SleepSpec.
From S2P Require Import Csp BuildTree CspSpec Proc AltCore Chan CopySpec ChanSpec Alt Context Sched SchedSpec.
From S2P Require Import Proxc ProxcSpec System.

(** ** What a body may do

    A body is judged in a view: the open channels with their message sizes, its
    arguments, and the trees it has built and not yet used.  Memory is fixed:
    [cells] may be accessed, messages are sent from [sends] and received in
    [receives] (address and size). *)
Record view := View { v_chans : gmap loc Z; v_args : list Z; v_trees : list btree }.

Record layout := Layout { cells : Z → Prop; sends : Z → Z → Prop; receives : Z → Z → Prop }.

(** Messages lie in memory, and no buffer to send from overlaps one to receive in. *)
Record layout_ok (L : layout) : Prop := {
  lay_sends a n : sends L a n → (0 ≤ n)%Z ∧ ∀ i, (0 ≤ i < n)%Z → cells L (a + i)%Z;
  lay_receives a n : receives L a n → (0 ≤ n)%Z ∧ ∀ i, (0 ≤ i < n)%Z → cells L (a + i)%Z;
  lay_apart a b n : sends L a n → receives L b n → ranges_overlap b a n = false
}.

Section calls.
Context {P : Type} {CL : Client P} (L : layout) (horizon : Z).
Context (typed : view → P → Prop).

(** The tree that [b] points to, taken out of the view. *)
Definition uses (V : view) (b : loc) (k : view → Prop) : Prop :=
  ∃ t ts, b = root t ∧ v_trees V ≡ₚ t :: ts ∧ k (View (v_chans V) (v_args V) ts).

Definition joins (j : joint) (V : view) (l : list varg) (k : reply → P) : Prop :=
  ∃ ts ts', l = VPtr <$> (root <$> ts) ∧ ts ≠ [] ∧ v_trees V ≡ₚ ts ++ ts' ∧
    ∀ b, typed (View (v_chans V) (v_args V) (Join j b ts :: ts')) (k (RPtr (Some b))).

(** The calls a body may make in a view, and how it must go on. *)
Definition allows (V : view) (c : call) (k : reply → P) : Prop :=
  match c with
  | CallExit | CallYield => typed V (k (RInt 0))
  | CallSleep us => (0 ≤ us)%Z ∧ (horizon + us + MAX_TRIES < U64)%Z ∧ typed V (k (RInt 0))
  | CallArgn n => (0 ≤ n)%Z ∧ typed V (k (RInt (nth (Z.to_nat n) (v_args V) 0%Z)))
  | CallProc f args => f ≠ 0%Z ∧ Forall (λ x, x ≠ PROXC_NULL) args ∧
      typed (View (v_chans V) args []) (client_start f) ∧
      ∀ b p, typed (View (v_chans V) (v_args V) (Leaf b p false :: v_trees V)) (k (RPtr (Some b)))
  | CallPar l => joins PAR V l k
  | CallSeq l => joins SEQ V l k
  | CallGo (Some b) => uses V b (λ V', typed V' (k (RInt 0)))
  | CallRun (Some b) => uses V b (λ V', typed V' (k (RInt 0)))
  | CallChopen n => ∀ c, v_chans V !! c = None →
      typed (View (<[c := n]> (v_chans V)) (v_args V) (v_trees V)) (k (RPtr (Some c)))
  | CallChwrite (Some c) d n => v_chans V !! c = Some n ∧ sends L d n ∧ typed V (k (RInt 1))
  | CallChread (Some c) d n => v_chans V !! c = Some n ∧ receives L d n ∧ typed V (k (RInt 1))
  | CallLoad a => cells L a ∧ ∀ z, typed V (k (RInt z))
  | CallStore a _ => cells L a ∧ typed V (k (RInt 0))
  | _ => False
  end.

(** Bodies that keep to the interface, whatever other channels are opened. *)
Class Discipline : Prop := {
  typed_grow K K' args ts st : K ⊆ K' → typed (View K args ts) st → typed (View K' args ts) st;
  typed_next V st c k : typed V st → client_next st = Some (c, k) → allows V c k
}.
End calls.

(** A channel with the processes blocked on it. *)
Record Room := MkRoom { r_chan : loc; r_size : Z; r_side : ChanEndType; r_waiters : list Waiter }.

Definition blocked (rooms : list Room) : list loc := flat_map (λ r, w_proc <$> r_waiters r) rooms.

(** Started trees, with the process that waits for each in RUN. *)
Abbreviation grove := (list (btree * option loc)).
Definition callers (F : grove) : list loc := flat_map (λ x, option_list x.2) F.
Definition to_start (F : grove) : list loc := flat_map (λ x, unstarted x.1) F.
Definition in_hand (ts : list btree) : list loc := flat_map leaves ts.

(** Where the processes are, besides the ready queue: the running one, the
    sleepers, the channels, the started trees and the ones that only exist. *)
Record places := Places {
  at_cpu : option loc; asleep_l : list loc; rooms : list Room; started : grove; loose : list btree
}.

Definition elsewhere_than_ready (W : places) : list loc :=
  option_list (at_cpu W) ++ asleep_l W ++ blocked (rooms W) ++ callers (started W) ++
  to_start (started W) ++ in_hand (loose W).

Section world.
Context {T : Type} {TT : SleepTree T} {E : Env} {P : Type} {CL : Client P}.
Context (L : layout) (typed : view → P → Prop).
Implicit Types (s : St T) (W : places).

(** Every process is in exactly one place. *)
Definition census W s : Prop :=
  NoDup (s_totalQ (sched s)) ∧
  s_readyQ (sched s) ++ elsewhere_than_ready W ≡ₚ s_totalQ (sched s).

(** A process that is not waiting in an ALT, on a stack that is large enough. *)
Definition stack_safe (size : Z) : Prop :=
  ∀ k, (0 ≤ stack_depth k ≤ size)%Z ∧ (madvise_ret k = 0%Z ∨ NDEBUG = true).
Definition proc_ok (v : Proc) : Prop := p_state v ≠ PROC_ALTWAIT ∧ stack_safe (p_stack_size v).

Definition procs_ok s : Prop :=
  dom (procs s) = list_to_set (s_totalQ (sched s)) ∧ (∀ p v, procs s !! p = Some v → proc_ok v) ∧
  stack_safe (s_stack_size (sched s)).

Definition sleep_ok (l : list loc) s : Prop :=
  sleepers s l ∧ altsleepers s [] ∧ (0 ≤ s_sleep_num (sched s) < U64)%Z ∧
  Forall (λ p, 0 < sleep_key s p)%Z l.

(** The buffer of a waiter has the size of the channel's messages. *)
Definition buffer_ok (r : Room) (w : Waiter) : Prop :=
  match r_side r with
  | CHAN_WRITER => sends L (w_data w) (r_size r)
  | _ => receives L (w_data w) (r_size r)
  end.

Definition room_ok s (r : Room) : Prop :=
  chan_rep s (r_chan r) (r_size r) [] (r_side r) (r_waiters r) ∧ Forall (buffer_ok r) (r_waiters r).

Definition rooms_ok (R : list Room) s : Prop :=
  Forall (room_ok s) R ∧ NoDup (r_chan <$> R) ∧ ∀ c, is_Some (chans s !! c) → c ∈ r_chan <$> R.

Definition trees_of W : list btree := loose W ++ (started W).*1.

Definition trees_ok W s : Prop :=
  Forall (built (builds s)) (loose W) ∧
  Forall (λ x, running x.1 x.2 s ∧ done x.1 = false) (started W) ∧
  NoDup (flat_map nodes (trees_of W)) ∧
  ∀ p v b, procs s !! p = Some v → p_proc_build v = Some b → (b, p) ∈ flat_map open_leaves (trees_of W).

(** No builder is outside the trees, and a leaf that has not ended is known to its
    process; no channel end is left by a process that is gone. *)
Definition whole W s : Prop :=
  (∀ b, is_Some (builds s !! b) → b ∈ flat_map nodes (trees_of W)) ∧
  ∀ b p, (b, p) ∈ flat_map open_leaves (trees_of W) →
    ∃ v, procs s !! p = Some v ∧ p_proc_build v = Some b.

Definition ends_ok s : Prop := ∀ e ce, ends s !! e = Some ce →
  ce_guard ce = None ∧ ∃ p, ce_proc ce = Some p ∧ is_Some (procs s !! p).

(** What each process has built and not used. *)
Definition owners_ok (own : loc → list btree) W s : Prop :=
  flat_map own (s_totalQ (sched s)) ⊆+ loose W.

Definition args_of s (p : loc) : list Z := from_option p_args [] (procs s !! p).
Definition view_of (own : loc → list btree) s (p : loc) : view :=
  View (c_data_size <$> chans s) (args_of s p) (own p).

(** How a process that is switched to goes on. *)
Definition frame_ok s (p : loc) (f : frame) : Prop :=
  match f with
  | KYield | KExit | KRun => True
  | KSleep q => q = p
  | KChan e => (e < fresh_loc s)%positive ∧ ∀ ce, ends s !! e = Some ce → ce_proc ce = Some p
  | _ => False
  end.
Definition frame_reply (f : frame) : Z := match f with KChan _ => 1 | _ => 0 end.

Definition parked (own : loc → list btree) (cont : gmap loc (frame * (reply → P))) s (p : loc) : Prop :=
  match cont !! p with
  | Some (f, k) => frame_ok s p f ∧ typed (view_of own s p) (k (RInt (frame_reply f)))
  | None => ∃ v, procs s !! p = Some v ∧ p_fxn v ≠ 0%Z ∧ typed (view_of own s p) (client_start (p_fxn v))
  end.

Definition parked_ok (own : loc → list btree) cont (r : option loc) s : Prop :=
  ∀ p, p ∈ s_totalQ (sched s) → r ≠ Some p → parked own cont s p.

(** Every address in use is behind the next one. *)
Definition fresh_ok (cont : gmap loc (frame * (reply → P))) s : Prop := ∀ x,
  is_Some (procs s !! x) ∨ is_Some (chans s !! x) ∨ is_Some (ends s !! x) ∨
  is_Some (builds s !! x) ∨ is_Some (cont !! x) → (x < fresh_loc s)%positive.

Definition memory_ok s : Prop := ∀ a, cells L a → ∃ b, mem s !! a = Some b ∧ is_byte b.

Record world (own : loc → list btree) (cont : gmap loc (frame * (reply → P))) W s : Prop := {
  w_census : census W s;
  w_procs : procs_ok s;
  w_sleep : sleep_ok (asleep_l W) s;
  w_rooms : rooms_ok (rooms W) s;
  w_trees : trees_ok W s;
  w_own : owners_ok own W s;
  w_parked : parked_ok own cont (at_cpu W) s;
  w_fresh : fresh_ok cont s;
  w_mem : memory_ok s;
  w_whole : whole W s;
  w_ends : ends_ok s
}.

(** The limits of the model of time and of the collision loop: few enough
    processes for every sleeper to find a free microsecond, and no more builders than
    a counter can count. *)
Definition modest s : Prop :=
  (Z.of_nat (length (s_totalQ (sched s))) ≤ MAX_TRIES)%Z ∧ (Z.of_nat (size (builds s)) < U64)%Z.

(** Only channels are left: CHCLOSE is up to the program. *)
Definition nothing_left s : Prop := procs s = ∅ ∧ builds s = ∅ ∧ ends s = ∅ ∧ s_totalQ (sched s) = [].

(** The state of a whole program. *)
Definition safe (x : cpu P) s : Prop :=
  match cpu_mode x with
  | Halted => nothing_left s
  | Scheduling => ∃ own W, at_cpu W = None ∧ world own (conts x) W s
  | Running p st => ∃ own W, at_cpu W = Some p ∧ world own (conts x) W s ∧
      typed (view_of own s p) st ∧ s_curr_proc (sched s) = Some p ∧
      p_state <$> procs s !! p = Some PROC_RUNNING
  end.

(** ** Small changes *)

(** What a process keeps while it is alive. *)
Definition similar (v v' : Proc) : Prop :=
  p_fxn v' = p_fxn v ∧ p_args v' = p_args v ∧ p_stack_size v' = p_stack_size v ∧
  p_proc_build v' = p_proc_build v ∧ (p_state v' = p_state v ∨ p_state v' ≠ PROC_ALTWAIT).

Definition similars s s' : Prop :=
  s_totalQ (sched s') = s_totalQ (sched s) ∧ s_stack_size (sched s') = s_stack_size (sched s) ∧
  ∀ p, option_Forall2 similar (procs s !! p) (procs s' !! p).

(** Channels and ends may change too, but not those that exist for another
    process: sizes stay, and ends only come at new addresses. *)
Definition mild s s' : Prop :=
  similars s s' ∧ builds s' = builds s ∧ c_data_size <$> chans s' = c_data_size <$> chans s ∧
  (fresh_loc s ≤ fresh_loc s')%positive ∧
  (∀ e, (e < fresh_loc s)%positive → ends s' !! e = ends s !! e) ∧
  ∀ e, is_Some (ends s' !! e) → (e < fresh_loc s')%positive.

(** Nothing but processes, queues and counters changes. *)
Definition tame s s' : Prop :=
  similars s s' ∧ chans s' = chans s ∧ ends s' = ends s ∧ builds s' = builds s ∧ mem s' = mem s ∧
  fresh_loc s' = fresh_loc s.

Lemma similar_refl v : similar v v.
Proof. unfold similar. auto 10. Qed.

Lemma similar_trans v1 v2 v3 : similar v1 v2 → similar v2 v3 → similar v1 v3.
Proof.
  intros (? & ? & ? & ? & Hs1) (? & ? & ? & ? & Hs2). split_and!; try congruence.
  destruct Hs1, Hs2; [left|right..]; congruence.
Qed.

Lemma sims_refl (m : gmap loc Proc) p : option_Forall2 similar (m !! p) (m !! p).
Proof. destruct (m !! p); constructor. apply similar_refl. Qed.

(** The processes are the same ones. *)
Lemma tame_same s s' :
  s_totalQ (sched s') = s_totalQ (sched s) → s_stack_size (sched s') = s_stack_size (sched s) →
  (chans s', ends s', builds s', mem s', fresh_loc s', procs s') =
  (chans s, ends s, builds s, mem s, fresh_loc s, procs s) → tame s s'.
Proof.
  intros Ht Hst [= Hc He Hb Hm Hf Hp]. split_and!; try done. split_and!; try done. intros p. rewrite Hp. apply sims_refl.
Qed.

Lemma similars_trans s1 s2 s3 : similars s1 s2 → similars s2 s3 → similars s1 s3.
Proof.
  intros (H1 & H2 & H3) (I1 & I2 & I3). split_and!; try congruence. intros p. specialize (H3 p). specialize (I3 p).
  inversion H3 as [v1 v2 Hv e1 e2|e1 e2]; rewrite <-e2 in I3; inversion I3; constructor.
  by eapply similar_trans.
Qed.

Lemma tame_trans s1 s2 s3 : tame s1 s2 → tame s2 s3 → tame s1 s3.
Proof.
  intros (Hs1 & ? & ? & ? & ? & ?) (Hs2 & ? & ? & ? & ? & ?).
  split; [by eapply similars_trans|]. split_and!; congruence.
Qed.

Lemma tame_put p v v' s : procs s !! p = Some v → similar v v' → tame s (set_procs <[p := v']> s).
Proof.
  intros Hp Hv. split_and!; try done. split_and!; try done. intros x. simpl. destruct (decide (p = x)) as [->|].
  - rewrite lookup_insert_eq, Hp. by constructor.
  - rewrite lookup_insert_ne by done. apply sims_refl.
Qed.

Lemma tame_ready_all ps s : tame s (ready_all ps s).
Proof.
  split_and!; try done. split_and!; try done. intros x. simpl. rewrite foldl_alter_lookup.
  case_decide; [|apply sims_refl]. destruct (procs s !! x); constructor.
  unfold similar. simpl. auto 10.
Qed.

Lemma sim_lookup s s' p v' :
  similars s s' → procs s' !! p = Some v' → ∃ v, procs s !! p = Some v ∧ similar v v'.
Proof.
  intros (_ & _ & Hp) Hv. specialize (Hp p). rewrite Hv in Hp. inversion Hp. by eexists.
Qed.

Lemma sim_lookup_r s s' p v :
  similars s s' → procs s !! p = Some v → ∃ v', procs s' !! p = Some v' ∧ similar v v'.
Proof.
  intros (_ & _ & Hp) Hv. specialize (Hp p). rewrite Hv in Hp. inversion Hp. by eexists.
Qed.

Lemma sim_dom s s' : similars s s' → dom (procs s') = dom (procs s).
Proof.
  intros H. apply set_eq. intros p. rewrite !elem_of_dom. split.
  - intros [v' Hv]. destruct (sim_lookup _ _ _ _ H Hv) as (v & -> & _). done.
  - intros [v Hv]. destruct (sim_lookup_r _ _ _ _ H Hv) as (v' & -> & _). done.
Qed.

Lemma sim_args s s' p : similars s s' → args_of s' p = args_of s p.
Proof.
  intros (_ & _ & Hp). unfold args_of. specialize (Hp p).
  inversion Hp as [v v' (_ & Ha & _) e1 e2|e1 e2]; simpl; by rewrite ?Ha.
Qed.

Lemma mild_view own s s' p : mild s s' → view_of own s' p = view_of own s p.
Proof. intros (Hs & _ & Hc & _). unfold view_of. by rewrite Hc, (sim_args s s'). Qed.

Lemma mild_parked own cont s s' p : mild s s' → parked own cont s p → parked own cont s' p.
Proof.
  intros H. unfold parked. rewrite (mild_view own s s' p H).
  destruct H as (Hs & _ & _ & Hle & He & _). destruct (cont !! p) as [[f k]|].
  - intros [Hf Hk]. split; [|done]. destruct f; try done. destruct Hf as [Hlt Hce].
    split; [lia|]. by rewrite He.
  - intros (v & Hv & Hx). destruct (sim_lookup_r _ _ _ _ Hs Hv) as (v' & Hv' & (Hfx & _)).
    exists v'. by rewrite Hfx.
Qed.

Lemma tame_mild cont s s' : fresh_ok cont s → tame s s' → mild s s'.
Proof.
  intros Hfr (Hs & Hc & He & Hb & _ & Hf). split; [done|]. rewrite Hb, Hc, He, Hf. split_and!; try done.
  intros e Hin. apply Hfr. eauto.
Qed.

Lemma whole_sim W W' s s' :
  whole W s → similars s s' → builds s' = builds s → trees_of W' = trees_of W → whole W' s'.
Proof.
  intros [Hb Ho] Hs Hbs Ht. unfold whole. rewrite Hbs, Ht. split; [done|]. intros b p Hin.
  destruct (Ho b p Hin) as (v & Hv & Hbv). destruct (sim_lookup_r _ _ _ _ Hs Hv) as (v' & Hv' & (_ & _ & _ & Hbv' & _)).
  exists v'. by rewrite Hbv'.
Qed.

Lemma ends_sim s s' :
  ends_ok s → (∀ e ce, ends s' !! e = Some ce → ends s !! e = Some ce) →
  (∀ p, is_Some (procs s !! p) → is_Some (procs s' !! p)) → ends_ok s'.
Proof.
  intros He Hs Hp e ce Hce. destruct (He e ce) as (Hg & p & Hpr & Hl); [by apply Hs|]. split; [done|]. exists p. auto.
Qed.

Lemma sim_live s s' p : similars s s' → is_Some (procs s !! p) → is_Some (procs s' !! p).
Proof. intros Hs. by rewrite <-!elem_of_dom, (sim_dom _ _ Hs). Qed.

(** New places after such a change, given what depends on it. *)
Lemma world_mild own cont W W' s s' :
  world own cont W s → mild s s' → started W' = started W → loose W' = loose W →
  census W' s' → sleep_ok (asleep_l W') s' → rooms_ok (rooms W') s' → memory_ok s' → ends_ok s' →
  (∀ p, at_cpu W = Some p → at_cpu W' ≠ Some p → parked own cont s' p) → world own cont W' s'.
Proof.
  intros [_ (Hdom & Hproc & Hst) _ _ (Hlo & Hgo & Hnd & Hbu) Hown Hpark Hfr _ Hwh _]
    Hm Hstart Hloose Hcen' Hsl' Hrm' Hmem' Hends' Hp.
  pose proof Hm as (Hs & Hb & Hc & Hle & He & He'). pose proof Hs as (Htq & Hss & _).
  assert (dom (chans s') = dom (chans s)) as Hcd.
  { rewrite <-(dom_fmap_L c_data_size (chans s')), Hc. apply dom_fmap_L. }
  constructor; try done.
  - split_and!; [by rewrite (sim_dom _ _ Hs), Htq| |by rewrite Hss].
    intros p v' Hv'. destruct (sim_lookup _ _ _ _ Hs Hv') as (v & Hv & (_ & _ & Hsz & _ & Hstate)).
    destruct (Hproc p v Hv) as [Hal Hk]. split; [destruct Hstate; congruence|by rewrite Hsz].
  - unfold trees_ok, trees_of, running in *. rewrite Hb, Hstart, Hloose. split_and!; try done.
    intros p v' b Hv' Hbd. destruct (sim_lookup _ _ _ _ Hs Hv') as (v & Hv & (_ & _ & _ & Hbv & _)).
    eapply Hbu; [exact Hv|]. by rewrite <-Hbv.
  - unfold owners_ok in *. by rewrite Hloose, Htq.
  - intros p Hin Hr. rewrite Htq in Hin. destruct (decide (at_cpu W = Some p)) as [Hcpu|]; [by apply Hp|].
    apply (mild_parked own cont s s' p Hm). by apply Hpark.
  - intros x Hx. destruct Hx as [Hx|[Hx|[Hx|Hx]]]; [| |by apply He'|];
      (eapply Pos.lt_le_trans; [apply Hfr|exact Hle]).
    + left. by rewrite <-elem_of_dom, <-(sim_dom _ _ Hs), elem_of_dom.
    + right; left. by rewrite <-elem_of_dom, <-Hcd, elem_of_dom.
    + rewrite Hb in Hx. auto.
  - eapply whole_sim; [exact Hwh|exact Hs|done|]. unfold trees_of. by rewrite Hstart, Hloose.
Qed.

(** The same places but for the processor, the ready queue and the sleepers. *)
Definition moved (r : option loc) (l : list loc) W : places :=
  Places r l (rooms W) (started W) (loose W).

Lemma world_tame own cont W r l s s' :
  world own cont W s → tame s s' → sleep_ok l s' → census (moved r l W) s' →
  (∀ p, at_cpu W = Some p → r ≠ Some p → parked own cont s p) →
  world own cont (moved r l W) s'.
Proof.
  intros H Ht Hsl' Hcen' Hp. pose proof (tame_mild _ _ _ (w_fresh _ _ _ _ H) Ht) as Hm.
  destruct Ht as (Hs & Hc & He & _ & Hmm & _). destruct (w_rooms _ _ _ _ H) as (Hrs & Hrn & Hra).
  eapply world_mild; try done.
  - split_and!; [|done|by rewrite Hc]. eapply Forall_impl; [exact Hrs|].
    intros x [Hrep Hbuf]. split; [|done]. unfold chan_rep, waits in *. by rewrite Hc, He.
  - unfold memory_ok. rewrite Hmm. apply H.
  - eapply ends_sim; [apply H|by rewrite He|]. intros p. by apply sim_live.
  - intros p Hcpu Hr. apply (mild_parked own cont s s' p Hm). by apply Hp.
Qed.

Lemma tame_parked own cont W s s' p : world own cont W s → tame s s' → parked own cont s p → parked own cont s' p.
Proof. intros H Ht. apply mild_parked. eapply tame_mild; [apply H|done]. Qed.

(** ** Where a process is *)

Lemma world_live own cont W s p : world own cont W s → p ∈ s_totalQ (sched s) ↔ is_Some (procs s !! p).
Proof. intros H. destruct (w_procs _ _ _ _ H) as [Hd _]. rewrite <-elem_of_dom, Hd. set_solver. Qed.

Lemma world_all_live own cont W s :
  world own cont W s → Forall (λ p, is_Some (procs s !! p)) (s_totalQ (sched s)).
Proof. intros H. apply Forall_forall. intros p. by apply (world_live _ _ _ _ p H). Qed.

Lemma census_nodup W s : census W s → NoDup (s_readyQ (sched s) ++ elsewhere_than_ready W).
Proof. intros [Hnd Hp]. by rewrite Hp. Qed.

Lemma world_ready_live own cont W s : world own cont W s → ready_live s.
Proof.
  intros H. apply Forall_forall. intros p Hp. apply (world_live _ _ _ _ p H).
  destruct (w_census _ _ _ _ H) as [_ Hperm]. rewrite <-Hperm. set_solver.
Qed.

(** Processes that are not ready, once each, can be made ready. *)
Lemma world_can_ready own cont W s ps rest :
  world own cont W s → elsewhere_than_ready W ≡ₚ ps ++ rest → can_ready ps s.
Proof.
  intros H Hps. pose proof (census_nodup _ _ (w_census _ _ _ _ H)) as Hnd.
  rewrite Hps in Hnd. apply NoDup_app in Hnd as (_ & Hd & (Hn & _)%NoDup_app).
  split_and!; [done| |by eapply world_ready_live].
  apply Forall_forall. intros p Hp. split.
  - apply (world_live _ _ _ _ p H). destruct (w_census _ _ _ _ H) as [_ Hperm].
    rewrite <-Hperm, Hps. set_solver.
  - intros Hin. apply (Hd p Hin). set_solver.
Qed.

(** What the scheduler theorems ask for. *)
Lemma world_sched_ok own cont W s : world own cont W s → sched_ok (asleep_l W) [] s.
Proof.
  intros H. destruct (w_sleep _ _ _ _ H) as (Hs & Ha & Hn & _).
  assert (can_ready (asleep_l W) s) as (_ & Hc & Hl).
  { eapply world_can_ready; [done|]. unfold elsewhere_than_ready.
    rewrite (Permutation_app_comm (option_list _)), <-app_assoc. reflexivity. }
  constructor; try done.
  - eapply Forall_impl; [exact Hc|]. by intros ? [].
  - eapply Forall_impl; [exact Hc|]. by intros ? [].
  - split; [|done]. intros p w Hp Hst. destruct (w_procs _ _ _ _ H) as (_ & Hok & _).
    by destruct (Hok p w Hp).
Qed.
End world.
