(* ===== verification/WorldSched.v ===== *)
(** * The scheduler keeps the invariant of [World] *)
From stdpp Require Import base tactics list gmap.
From Stdlib Require Import ZArith Lia.
From S2P Require Import Prelude Tailq Rbtree RbInsert RbSpec State SchedOps Exec SleepSpec.
From S2P Require Import Csp BuildTree CspSpec Proc AltCore Chan CopySpec ChanSpec Alt Context Sched SchedSpec.
From S2P Require Import Proxc ProxcSpec System World.

Section world_sched.
Context {T : Type} {TT : SleepTree T} {E : Env} {P : Type} {CL : Client P}.
Context (L : layout) (typed : view → P → Prop).
Implicit Types (s : St T) (W : places).
Abbreviation world := (world L typed).
Abbreviation parked := (parked typed).

Lemma moved_id W : moved (at_cpu W) (asleep_l W) W = W.
Proof. by destruct W. Qed.

Lemma sleep_ok_ext l s s' :
  sleep_ok l s → (∀ p, p ∈ l → sleep_key s' p = sleep_key s p) →
  s_sleep_RB (sched s') = s_sleep_RB (sched s) → s_sleep_num (sched s') = s_sleep_num (sched s) →
  s_altsleep_RB (sched s') = s_altsleep_RB (sched s) → sleep_ok l s'.
Proof.
  intros (Hs & Ha & Hn & Hp) Hk Hrb Hnum Harb. unfold sleep_ok, sleepers, altsleepers in *.
  rewrite Hrb, Hnum, Harb. split; [by eapply st_ext|split; [eapply st_ext; [|exact Ha]|split; [done|]]].
  - by intros ? ?%elem_of_nil.
  - rewrite Forall_forall in *. intros p Hin. rewrite Hk by done. by apply Hp.
Qed.

(** The clock, the counters and who is current do not matter. *)
Lemma world_idle own cont W s s' :
  world own cont W s → tame s s' → procs s' = procs s →
  s_readyQ (sched s') = s_readyQ (sched s) → s_sleep_RB (sched s') = s_sleep_RB (sched s) →
  s_sleep_num (sched s') = s_sleep_num (sched s) → s_altsleep_RB (sched s') = s_altsleep_RB (sched s) →
  world own cont W s'.
Proof.
  intros H Ht Hp Hq Hrb Hn Ha. rewrite <-(moved_id W).
  eapply world_tame; [exact H|done| | |by intros].
  - eapply sleep_ok_ext; [apply H|..|done|done|done]. intros p _. unfold sleep_key. by rewrite Hp.
  - pose proof Ht as ((Htq & _) & _). destruct (w_census _ _ _ _ _ _ H) as [Hnd Hc].
    unfold census. rewrite Htq, Hq, moved_id. done.
Qed.

#[local] Ltac idle H := eapply world_idle; [exact H|by apply tame_same|reflexivity..].

(** ** Before the switch *)

Lemma world_checkQs own cont W s :
  world own cont W s → wp _scheduler_checkQs (λ _ s', world own cont W s') s.
Proof.
  intros H. unfold _scheduler_checkQs. step. step. destruct (s_readyQ (sched s)); [|by apply wp_ret].
  destruct (w_sleep _ _ _ _ _ _ H) as (Hs & Ha & _ & Hpos).
  pose proof (so_live _ _ _ (world_sched_ok _ _ _ _ _ _ H)) as Hl.
  step. eapply (min_deadline_ok (asleep_l W) []); [done|done| |by constructor|].
  { rewrite Forall_forall in *. auto. }
  apply wp_when; [|done]. intros _. step. apply wp_gettimestamp. apply wp_when.
  - intros _. apply wp_modify. idle H.
  - intros _. idle H.
Qed.

Lemma sleep_key_ready_all ps s x : sleep_key (ready_all ps s) x = sleep_key s x.
Proof. apply sleep_key_ready. Qed.

Lemma world_wakeup own cont W s :
  world own cont W s → at_cpu W = None →
  wp _scheduler_wakeup (λ _ s', ∃ l, world own cont (moved None l W) s') s.
Proof.
  intros H Hcpu. eapply wp_mono; [apply wakeup_ok; by apply (world_sched_ok _ _ _ _ _ _ H)|].
  intros [] s' ((k & n & t & n' & t' & ->) & Hs & Ha & Hn).
  set (now := clock (n_time s)) in *. set (l := asleep_l W) in *.
  exists (not_due (sleep_key s) now l). destruct (w_sleep _ _ _ _ _ _ H) as (Hs0 & _ & _ & Hpos).
  pose proof (due_split _ now _ (st_sorted _ _ _ Hs0)) as Hsplit. fold l in Hsplit.
  eapply world_tame; [exact H|..].
  - eapply tame_trans; [apply (tame_ready_all (due (sleep_key s) now l))|]. by apply tame_same.
  - split; [exact Hs|split; [exact Ha|split; [exact Hn|]]]. apply Forall_forall. intros p [_ Hp]%list_elem_of_filter.
    rewrite Forall_forall in Hpos. unfold woken. simpl foldl.
    change (0 < sleep_key (ready_all (due (sleep_key s) now l) s) p)%Z.
    rewrite sleep_key_ready_all. by apply Hpos.
  - destruct (w_census _ _ _ _ _ _ H) as [Hnd Hc]. split; [done|]. simpl. rewrite <-Hc.
    unfold elsewhere_than_ready. rewrite Hcpu. simpl. fold l. rewrite Hsplit at 3. solve_Permutation.
  - congruence.
Qed.

(** A choice: the process that has been ready the longest, or none. *)
Lemma world_pick own cont W s :
  world own cont W s → at_cpu W = None →
  wp scheduler_pick (λ o s', ∃ l, world own cont (moved o l W) s' ∧
    match o with
    | Some p => parked own cont s' p ∧ s_curr_proc (sched s') = Some p ∧
        p_state <$> procs s' !! p = Some PROC_RUNNING
    | None => True
    end) s.
Proof.
  intros H Hcpu. unfold scheduler_pick. step. eapply wp_mono; [by apply world_checkQs|].
  intros [] s1 H1. step. eapply wp_mono; [by apply world_wakeup|]. intros [] s2 [l H2].
  step. step. destruct (s_readyQ (sched s2)) as [|p q] eqn:Hq; [apply wp_ret; by exists l|].
  pose proof (world_ready_live _ _ _ _ _ _ H2) as Hl. unfold ready_live in Hl. rewrite Hq in Hl.
  destruct (w_census _ _ _ _ _ _ H2) as [Hnd Hc].
  pose proof (census_nodup _ _ (w_census _ _ _ _ _ _ H2)) as Hnd2. rewrite Hq in Hnd2.
  assert (p ∈ s_totalQ (sched s2)) as Hp by (rewrite <-Hc, Hq; set_solver).
  destruct (proj1 (world_live _ _ _ _ _ _ p H2) Hp) as [v Hv].
  step. apply wp_get. step. apply wp_REMOVE; [by left|by apply Forall_live|].
  rewrite Q_without_head by (apply NoDup_app in Hnd2 as ([? _]%NoDup_cons & _); done).
  steps. exists l. assert (p ∉ l) as Hpl.
  { intros Hin. apply NoDup_app in Hnd2 as (_ & Hd & _). apply (Hd p); [by left|].
    unfold elsewhere_than_ready. set_solver. }
  set (s3 := set_procs _ _). assert (tame s2 s3) as Ht.
  { eapply tame_trans; [|apply (tame_put p v); [exact Hv|]]; [by apply tame_same|].
    split_and!; try done. by right. }
  split; [|split; [|by split; [|simpl; rewrite lookup_insert_eq]]].
  - change (world own cont (moved (Some p) l (moved None l W)) s3).
    eapply world_tame; [exact H2|exact Ht|..|done].
    + eapply sleep_ok_ext; [apply H2|..]; try done. intros x Hx.
      unfold sleep_key. simpl. rewrite lookup_insert_ne; [done|]. by intros ->.
    + split; [done|]. simpl. rewrite <-Hc, Hq. unfold elsewhere_than_ready. simpl. solve_Permutation.
  - eapply tame_parked; [exact H2|exact Ht|]. apply (w_parked _ _ _ _ _ _ H2); [done|]. done.
Qed.

(** ** After the switch back *)

Lemma world_put own cont W s p v v' :
  world own cont W s → procs s !! p = Some v → similar v v' →
  (p ∈ asleep_l W → p_sleep_us v' = p_sleep_us v) → world own cont W (set_procs <[p := v']> s).
Proof.
  intros H Hv Hsim Hk. rewrite <-(moved_id W).
  eapply world_tame; [exact H|by eapply tame_put| | |done].
  - eapply sleep_ok_ext; [apply H|..]; try done. intros x Hx. unfold sleep_key. simpl.
    destruct (decide (p = x)) as [->|Hne]; [|by rewrite lookup_insert_ne].
    rewrite lookup_insert_eq, Hv. simpl. by apply Hk.
  - rewrite moved_id. apply H.
Qed.

(** The context of the running process belongs to it alone. *)
Lemma world_cont own cont W s p fk :
  world own cont W s → at_cpu W = Some p → world own (<[p := fk]> cont) W s.
Proof.
  intros H Hcpu. assert (is_Some (procs s !! p)) as Hp.
  { apply (world_live _ _ _ _ _ _ p H). destruct (w_census _ _ _ _ _ _ H) as [_ <-].
    unfold elsewhere_than_ready. rewrite Hcpu. set_solver. }
  destruct H as [????? Hown Hpark Hfr Hmem ??]. constructor; try done.
  - intros q Hq Hne. unfold World.parked. rewrite lookup_insert_ne by congruence. by apply Hpark.
  - intros x Hx. destruct (decide (p = x)) as [->|Hne]; [apply Hfr; by left|].
    rewrite lookup_insert_ne in Hx by done. by apply Hfr.
Qed.

Lemma world_madvise own cont W s p v :
  world own cont W s → procs s !! p = Some v →
  wp (ctx_madvise (Some p)) (λ _ s', world own cont W s' ∧ tame s s' ∧ sched s' = sched s ∧
    ∃ u, procs s' = <[p := p_set_used u v]> (procs s)) s.
Proof.
  intros H Hv. destruct (w_procs _ _ _ _ _ _ H) as (_ & Hok & _). destruct (Hok p v Hv) as [_ Hst].
  eapply wp_mono; [eapply madvise_ok; [exact Hv|apply Hst]|].
  intros o s' [u ->]. assert (similar v (p_set_used u v)) as Hsim by (unfold similar; simpl; auto 10).
  set (s1 := set_counts _ _ _ _ s). assert (world own cont W s1) as H1 by idle H.
  split; [by eapply world_put|]. split; [|by split; [|exists u]].
  eapply tame_trans; [|by apply (tame_put p v)]. by apply tame_same.
Qed.

Lemma census_leave W s s' p :
  census W s → at_cpu W = Some p → s_totalQ (sched s') = s_totalQ (sched s) →
  s_readyQ (sched s') = s_readyQ (sched s) ++ [p] → census (moved None (asleep_l W) W) s'.
Proof.
  intros [Hnd Hc] Hcpu Ht Hq. split; [by rewrite Ht|]. rewrite Ht, Hq, <-Hc.
  unfold elsewhere_than_ready. rewrite Hcpu. simpl. solve_Permutation.
Qed.

(** A process that gave up the processor is ready again. *)
Lemma world_switched_ready own cont W s p :
  world own cont W s → at_cpu W = Some p → s_curr_proc (sched s) = Some p →
  p_state <$> procs s !! p = Some PROC_RUNNING → parked own cont s p →
  wp scheduler_switched (λ _ s', world own cont (moved None (asleep_l W) W) s') s.
Proof.
  intros H Hcpu Hcur Hst Hpark. apply fmap_Some in Hst as (v & Hv & Hst).
  unfold scheduler_switched. step. step. rewrite Hcur. step.
  eapply wp_mono; [by eapply world_madvise|]. intros o s1 (H1 & Ht & Hs1 & [u Hu]). step.
  eapply wp_deref; [done|]. step. eapply wp_getp; [by rewrite Hu, lookup_insert_eq|]. simpl p_state.
  rewrite <-Hst. step.
  assert (can_ready [p] s1) as Hc.
  { eapply world_can_ready; [exact H1|]. unfold elsewhere_than_ready. by rewrite Hcpu. }
  eapply wp_mono; [by apply addready_all|]. intros [] ? ->. step.
  eapply world_tame; [exact H1| | | |].
  - eapply tame_trans; [apply (tame_ready_all [p])|]. by apply tame_same.
  - eapply sleep_ok_ext; [apply H1|..]; try done. intros x _.
    exact (sleep_key_ready_all [p] s1 x).
  - by eapply census_leave; [apply H1|..].
  - intros q Hq _. rewrite Hcpu in Hq. injection Hq as <-. by eapply tame_parked; [exact H|..].
Qed.

(** One that waits stays where it is. *)
Lemma world_switched_wait own cont W s p st :
  world own cont W s → s_curr_proc (sched s) = Some p → p_state <$> procs s !! p = Some st →
  st ∈ [PROC_SLEEPING; PROC_CHANWAIT; PROC_RUNWAIT] →
  wp scheduler_switched (λ _ s', world own cont W s') s.
Proof.
  intros H Hcur Hst Hin. apply fmap_Some in Hst as (v & Hv & Hst).
  unfold scheduler_switched. step. step. rewrite Hcur. step.
  eapply wp_mono; [by eapply world_madvise|]. intros o s1 (H1 & _ & Hs1 & [u Hu]). step.
  eapply wp_deref; [done|]. step. eapply wp_getp; [by rewrite Hu, lookup_insert_eq|]. simpl p_state.
  rewrite <-Hst. assert (world own cont W (set_sched (s_set_curr None) s1)) as H2 by idle H1.
  repeat (apply elem_of_cons in Hin as [->|Hin]; [by steps|]). by apply elem_of_nil in Hin.
Qed.

(** ** The end of the program *)

Lemma no_ends s (q : list loc) :
  (∀ e ce, ends s !! e = Some ce → ce_guard ce = None ∧ ∃ p, ce_proc ce = Some p ∧ p ∈ q) → q = [] → ends s = ∅.
Proof.
  intros He ->. apply map_empty. intros e. destruct (ends s !! e) as [ce|] eqn:Hce; [|done].
  destruct (He e ce Hce) as (_ & p & _ & Hp). by apply elem_of_nil in Hp.
Qed.

(** When no process belongs to a tree, everything can be freed, in any state. *)
Lemma free_loop_ok n : ∀ s,
  NoDup (s_totalQ (sched s)) → Forall (λ p, ∃ v, procs s !! p = Some v ∧ p_proc_build v = None)
    (s_totalQ (sched s)) → length (s_totalQ (sched s)) ≤ n →
  dom (procs s) = list_to_set (s_totalQ (sched s)) → builds s = ∅ →
  (∀ e ce, ends s !! e = Some ce → ce_guard ce = None ∧ ∃ p, ce_proc ce = Some p ∧ p ∈ s_totalQ (sched s)) →
  wp (scheduler_free_loop n) (λ _ s', nothing_left s') s.
Proof.
  assert (∀ s, s_totalQ (sched s) = [] → dom (procs s) = list_to_set (s_totalQ (sched s)) → builds s = ∅ →
    (∀ e ce, ends s !! e = Some ce → ce_guard ce = None ∧ ∃ p, ce_proc ce = Some p ∧ p ∈ s_totalQ (sched s)) →
    nothing_left s) as Hnil.
  { intros s Hq Hd Hb He. split_and!; [|done|by eapply no_ends|done]. apply dom_empty_inv_L. by rewrite Hd, Hq. }
  induction n as [|n IH]; intros s Hnd Hl Hn Hd Hbs He; cbn [scheduler_free_loop]; step; step;
    destruct (s_totalQ (sched s)) as [|p q] eqn:Hq; try (apply wp_ret, Hnil; rewrite ?Hq; done); simpl in Hn; [lia|].
  pose proof Hl as [(v & Hv & Hb) Hl']%Forall_cons. apply NoDup_cons in Hnd as [Hp Hnd].
  unfold proc_free. steps. apply wp_REMOVE; [rewrite Hq; by left|rewrite Hq|].
  { apply Forall_live. eapply Forall_impl; [exact Hl|]. intros x (w & Hw & _). by exists w. }
  rewrite Hb, Hq, Q_without_head by done. unfold free_stack, free_proc. steps.
  apply IH; simpl; [done| |lia| |done|].
  - rewrite Forall_forall in *. intros x Hx. rewrite lookup_delete_ne by (by intros ->). by apply Hl'.
  - rewrite dom_delete_L, Hd. set_solver.
  - intros e ce [Hce Hne]%map_lookup_filter_Some. destruct (He e ce Hce) as (Hg & x & Hx & Hin).
    split; [done|]. exists x. split; [done|]. apply elem_of_cons in Hin as [->|Hin]; [|done]. simpl in Hne. naive_solver.
Qed.

(** No process is in a tree, so there is none. *)
Lemma world_no_builds own cont W s :
  world own cont W s → (∀ p v, procs s !! p = Some v → p_proc_build v = None) → builds s = ∅.
Proof.
  intros H Hb. destruct (w_whole _ _ _ _ _ _ H) as [Hall Ho]. destruct (w_trees _ _ _ _ _ _ H) as (Hlo & Hgo & _).
  apply map_empty. intros b. destruct (builds s !! b) eqn:He; [|done]. exfalso.
  destruct (proj1 (elem_of_flat_map _ _ _) (Hall b ltac:(by eexists))) as (t & Ht & _).
  assert (done t = false) as (b' & p & Hin)%undone_open.
  { apply elem_of_app in Ht as [Ht|([u r] & -> & Ht)%list_elem_of_fmap].
    - rewrite Forall_forall in Hlo. destruct (Hlo t Ht) as (_ & Hwf & Hf). by apply fresh_not_done.
    - rewrite Forall_forall in Hgo. apply (Hgo _ Ht). }
  destruct (Ho b' p) as (v & Hv & Hbv); [apply elem_of_flat_map; by exists t|].
  by rewrite (Hb p v Hv) in Hbv.
Qed.

Lemma world_free own cont W s :
  world own cont W s → (∀ p v, procs s !! p = Some v → p_proc_build v = None) →
  wp scheduler_free (λ _ s', nothing_left s') s.
Proof.
  intros H Hb. pose proof (λ p, proj2 (world_live _ _ _ _ _ _ p H)) as Hlive.
  unfold scheduler_free. step. step. destruct (w_procs _ _ _ _ _ _ H) as [Hd _].
  apply free_loop_ok; [apply (w_census _ _ _ _ _ _ H)| |done|done|by eapply world_no_builds|].
  - apply Forall_forall. intros p Hp. destruct (proj1 (world_live _ _ _ _ _ _ p H) Hp) as [v Hv]. eauto.
  - intros e ce Hce. destruct (w_ends _ _ _ _ _ _ H e ce Hce) as (Hg & p & Hp & Hl). eauto 10.
Qed.
End world_sched.

Ltac idle H := eapply world_idle; [exact H|by apply tame_same|reflexivity..].
