(* ===== verification/WorldEnd.v ===== *)
(** * The end of a process keeps the invariant of [World] *)
From stdpp Require Import base tactics list gmap.
From Stdlib Require Import ZArith Lia.
From S2P Require Import Prelude Tailq Rbtree RbInsert RbSpec State SchedOps Exec SleepSpec.
From S2P Require Import Csp BuildTree CspSpec Proc AltCore Chan CopySpec ChanSpec Alt Context Sched SchedSpec.
From S2P Require Import Proxc ProxcSpec System World WorldSched.

Lemma flat_map_submseteq {A B} (f : A → list B) l1 l2 : l1 ⊆+ l2 → flat_map f l1 ⊆+ flat_map f l2.
Proof.
  induction 1 as [|x l1 l2 _ IH|x y l|x l1 l2 _ IH|l1 l2 l3 _ IH1 _ IH2]; simpl.
  - done.
  - by apply submseteq_skips_l.
  - rewrite !(assoc_L (++)). apply submseteq_app; [|done]. by rewrite (comm (++)).
  - etrans; [exact IH|]. apply submseteq_inserts_l. done.
  - by etrans.
Qed.

Lemma without_id (q : list loc) p : p ∉ q → Q.without q p = q.
Proof.
  unfold Q.without. induction q as [|x q IH]; intros Hp; [done|].
  rewrite filter_cons_True by set_solver. f_equal. apply IH. set_solver.
Qed.

Lemma without_perm (q : list loc) p : NoDup q → p ∈ q → q ≡ₚ p :: Q.without q p.
Proof.
  intros Hnd (l1 & l2 & ->)%list_elem_of_split. apply NoDup_app in Hnd as (H1 & Hd & (Hp & H2)%NoDup_cons).
  assert (Q.without (l1 ++ p :: l2) p = l1 ++ l2) as ->; [|symmetry; apply Permutation_middle].
  unfold Q.without. rewrite filter_app, filter_cons_False by naive_solver.
  f_equal; [apply without_id; intros Hx; by apply (Hd p Hx); left|by apply without_id].
Qed.

Section world_end.
Context {T : Type} {TT : SleepTree T} {E : Env} {P : Type} {CL : Client P}.
Context (L : layout) (typed : view → P → Prop).
Implicit Types (s : St T) (W : places).
Abbreviation world := (world L typed).

(** ** Freeing a process that no tree waits for *)

Definition removed (p : loc) s : St T :=
  set_sched (λ c, s_set_sleep (s_sleep_num c) (st_free p (s_sleep_RB c))
      (s_set_totalQ (Q.without (s_totalQ c) p) c))
    (set_procs (delete p) (set_alts (filter (λ kv, a_proc kv.2 ≠ Some p))
      (set_ends (filter (λ kv, ¬ (ce_proc kv.2 = Some p ∧ ce_guard kv.2 = None))) s))).

Lemma cpu_unique own cont W s p q :
  world own cont W s → at_cpu W = Some p →
  q ∈ s_readyQ (sched s) ++ asleep_l W ++ blocked (rooms W) ++ callers (started W) ++
    to_start (started W) ++ in_hand (loose W) → q ≠ p.
Proof.
  intros H Hcpu Hq ->. pose proof (census_nodup _ _ (w_census _ _ _ _ _ _ H)) as Hnd.
  unfold elsewhere_than_ready in Hnd. rewrite Hcpu in Hnd. simpl in Hnd.
  rewrite <-Permutation_middle in Hnd. by apply NoDup_cons in Hnd as [? _].
Qed.

Lemma rooms_removed own cont W s p :
  world own cont W s → at_cpu W = Some p → rooms_ok L (rooms W) (removed p s).
Proof.
  intros H Hcpu. destruct (w_rooms _ _ _ _ _ _ H) as (Hr & Hn & Ha). split_and!; [|done|done].
  rewrite Forall_forall in *. intros r Hin. destruct (Hr r Hin) as [(Hc & Hnd & Hw & Hs) Hb].
  split; [|done]. split_and!; [done|done| |done].
  rewrite Forall_forall in *. intros w Hwin. specialize (Hw w Hwin). unfold waits in *. simpl.
  apply map_lookup_filter_Some. split; [done|]. simpl. intros [[= Hp] _].
  eapply (cpu_unique _ _ _ _ p (w_proc w) H Hcpu); [|done].
  rewrite !elem_of_app. right; right; left. apply elem_of_flat_map. exists r. split; [done|].
  apply list_elem_of_fmap. by exists w.
Qed.

Lemma parked_removed own cont W s p q fk :
  world own cont W s → q ≠ p → parked typed own cont s q →
  parked typed own (<[p := fk]> cont) (removed p s) q.
Proof.
  intros H Hne. unfold parked. rewrite lookup_insert_ne by done.
  assert (view_of own (removed p s) q = view_of own s q) as ->.
  { unfold view_of, args_of. simpl. by rewrite lookup_delete_ne. }
  destruct (cont !! q) as [[f k]|].
  - intros [Hf Hk]. split; [|done]. destruct f; try done. destruct Hf as [He Hce]. split; [done|].
    intros ce [Hx _]%map_lookup_filter_Some. by apply Hce.
  - simpl. by rewrite lookup_delete_ne.
Qed.

Lemma world_removed own cont W s p v fk :
  world own cont W s → at_cpu W = Some p → procs s !! p = Some v → p_proc_build v = None →
  world own (<[p := fk]> cont) (moved None (asleep_l W) W) (removed p s).
Proof.
  intros H Hcpu Hv Hb. pose proof (world_live _ _ _ _ _ _ p H) as Hlive.
  assert (p ∈ s_totalQ (sched s)) as Hp by (apply Hlive; by eexists).
  destruct (w_census _ _ _ _ _ _ H) as [Hnd Hcen].
  pose proof (without_perm _ _ Hnd Hp) as Hperm.
  assert (∀ x, x ∈ Q.without (s_totalQ (sched s)) p → x ∈ s_totalQ (sched s) ∧ x ≠ p) as Hin.
  { by intros x [? ?]%list_elem_of_filter. }
  assert (∀ x, x ∈ asleep_l W → x ≠ p) as Hsleep.
  { intros x Hx. apply (cpu_unique _ _ _ _ p x H Hcpu). set_solver. }
  pose proof (rooms_removed _ _ _ _ _ H Hcpu) as Hrooms.
  pose proof H as [_ (Hdom & Hproc & Hst) (Hs & Ha & Hn & Hpos) _ (Hlo & Hgo & Hnn & Hbu) Hown Hpark Hfr Hmem _ _].
  constructor; try done.
  - split; [by apply NoDup_filter|]. simpl. apply (Permutation_cons_inv (a := p)).
    rewrite <-Hperm, <-Hcen. unfold elsewhere_than_ready. rewrite Hcpu. simpl. solve_Permutation.
  - split_and!; [| |done].
    + simpl. rewrite dom_delete_L, Hdom. apply set_eq. intros x.
      rewrite elem_of_difference, !elem_of_list_to_set, elem_of_singleton.
      split; [intros [? ?]; by apply list_elem_of_filter|by intros ?%Hin].
    + intros q w Hq. simpl in Hq. apply lookup_delete_Some in Hq as [_ Hq]. by eapply Hproc.
  - assert (∀ x, x ∈ asleep_l W → sleep_key (removed p s) x = sleep_key s x) as Hk.
    { intros x Hx. unfold sleep_key. simpl. rewrite lookup_delete_ne; [done|]. symmetry. auto. }
    split; [|split; [exact Ha|split; [exact Hn|]]].
    + eapply st_ext; [exact Hk|]. apply st_free_ok; [exact Hs|]. intros Hx. by apply (Hsleep p).
    + rewrite Forall_forall in *. intros x Hx. rewrite Hk by done. by apply Hpos.
  - split_and!; try done. intros q w b Hq. simpl in Hq. apply lookup_delete_Some in Hq as [_ Hq]. by eapply Hbu.
  - unfold owners_ok in *. etrans; [|exact Hown]. simpl. apply flat_map_submseteq.
    apply sublist_submseteq, sublist_filter.
  - intros q [Hq Hne]%Hin _. eapply parked_removed; [exact H|done|]. apply Hpark; [done|]. congruence.
  - intros x. simpl. intros Hx. destruct (decide (x = p)) as [->|Hne]; [apply Hfr; by left; eexists|].
    apply Hfr. rewrite lookup_delete_ne, lookup_insert_ne in Hx by done.
    destruct Hx as [?|[?|[[ce [Hce _]%map_lookup_filter_Some]|?]]]; eauto.
  - destruct (w_whole _ _ _ _ _ _ H) as [Hwb Hwo]. split; [done|]. intros c q Hcq.
    destruct (Hwo c q Hcq) as (w & Hw & Hwb'). exists w. split; [|done]. simpl.
    rewrite lookup_delete_ne; [done|]. intros <-. congruence.
  - intros e ce [Hce Hne]%map_lookup_filter_Some. simpl in Hne.
    destruct (w_ends _ _ _ _ _ _ H e ce Hce) as (Hg & q & Hq & Hql). split; [done|]. exists q.
    split; [done|]. simpl. rewrite lookup_delete_ne; [done|]. intros <-. by apply Hne.
Qed.

(** ** The tree that waits for it *)

(** [t] replaced in the grove by [t'], or gone with its caller when that is done. *)
Definition advance (F1 : grove) t' (rp : option loc) (F2 : grove) : grove :=
  F1 ++ (if done t' then [] else [(t', rp)]) ++ F2.
Definition planted (F : grove) W : places :=
  Places (at_cpu W) (asleep_l W) (rooms W) F (loose W).

Lemma find_tree own cont W s p v b :
  world own cont W s → at_cpu W = Some p → procs s !! p = Some v → p_proc_build v = Some b →
  ∃ F1 t rp F2 t' st, started W = F1 ++ (t, rp) :: F2 ∧ (b, p) ∈ open_leaves t ∧
    complete b t = Some (t', st).
Proof.
  intros H Hcpu Hv Hb. destruct (w_trees _ _ _ _ _ _ H) as (Hlo & Hgo & _ & Hbu).
  specialize (Hbu p v b Hv Hb). apply elem_of_flat_map in Hbu as (t & Ht & Hbt).
  apply elem_of_app in Ht as [Ht|Ht].
  - exfalso. apply (cpu_unique _ _ _ _ p p H Hcpu); [|done].
    rewrite !elem_of_app. do 5 right. apply elem_of_flat_map. exists t.
    split; [done|]. by apply (open_sub b).
  - apply list_elem_of_fmap in Ht as ([t' rp] & -> & Ht). simpl in Hbt.
    rewrite Forall_forall in Hgo. destruct (Hgo _ Ht) as [(_ & Hwf & _) _]. simpl in Hwf.
    destruct (open_complete b p t' Hwf Hbt) as [[t2 st] Hc].
    + intros Hun. apply (cpu_unique _ _ _ _ p p H Hcpu); [|done].
      rewrite !elem_of_app. do 4 right. left. apply elem_of_flat_map. by exists (t', rp).
    + apply list_elem_of_split in Ht as (F1 & F2 & HF). by exists F1, t', rp, F2, t2, st.
Qed.

Lemma advance_census W F1 t rp F2 b t' st :
  started W = F1 ++ (t, rp) :: F2 → wf t = true → complete b t = Some (t', st) →
  elsewhere_than_ready W ≡ₚ
    (st ++ if done t' then option_list rp else []) ++ elsewhere_than_ready (planted (advance F1 t' rp F2) W).
Proof.
  intros HF Hwf Hc. pose proof (complete_unstarted _ _ _ _ Hwf Hc) as Hun.
  unfold elsewhere_than_ready, advance, callers, to_start. simpl. rewrite HF.
  destruct (done t') eqn:Hd; [rewrite (done_unstarted t' Hd) in Hun|]; rewrite !flat_map_app;
    simpl; rewrite ?app_nil_r; rewrite Hun; solve_Permutation.
Qed.

(** What the stored trees become. *)
Definition builds_after (m m' : gmap loc Builder) t t' (rp : option loc) : Prop :=
  (∀ x, x ∉ nodes t → m' !! x = m !! x) ∧
  if done t' then ∀ x, x ∈ nodes t → m' !! x = None else brep m' None true rp t'.

Lemma running_ext t rp s s' :
  running t rp s → (∀ x, x ∈ nodes t → builds s' !! x = builds s !! x) → running t rp s'.
Proof. intros (Hr & ? & ? & ?) Hx. split_and!; try done. by eapply brep_ext. Qed.

(** The trees but [t], before and after. *)
Lemma advance_trees W F1 t rp F2 b t' st :
  started W = F1 ++ (t, rp) :: F2 → complete b t = Some (t', st) →
  let others := loose W ++ F1.*1 ++ F2.*1 in
  flat_map nodes (trees_of W) ≡ₚ nodes t ++ flat_map nodes others ∧
  flat_map open_leaves (trees_of W) ≡ₚ open_leaves t ++ flat_map open_leaves others ∧
  flat_map nodes (trees_of (planted (advance F1 t' rp F2) W)) ≡ₚ
    (if done t' then [] else nodes t) ++ flat_map nodes others ∧
  flat_map open_leaves (trees_of (planted (advance F1 t' rp F2) W)) ≡ₚ
    open_leaves t' ++ flat_map open_leaves others.
Proof.
  intros HF Hc others. destruct (complete_nodes _ _ _ _ Hc) as [Hnt _].
  unfold trees_of, advance, others. simpl. rewrite HF, !fmap_app, !flat_map_app. simpl. split_and!;
    [solve_Permutation..| |]; (destruct (done t') eqn:Hd; [try rewrite (done_open t') by done|]);
    simpl; rewrite ?app_nil_r, ?Hnt; solve_Permutation.
Qed.

Lemma trees_advance W F1 t rp F2 b t' st p v m s s' :
  trees_ok W s → started W = F1 ++ (t, rp) :: F2 → complete b t = Some (t', st) →
  (b, p) ∈ open_leaves t → builds_after (builds s) m t t' rp → builds s' = m →
  procs s' !! p = Some (p_set_build None v) →
  (∀ q w', q ≠ p → procs s' !! q = Some w' → ∃ w, procs s !! q = Some w ∧ similar w w') →
  trees_ok (planted (advance F1 t' rp F2) W) s'.
Proof.
  intros (Hlo & Hgo & Hnd & Hbu) HF Hc Hb [Hout Hin] Hm Hp Hq.
  destruct (advance_trees W F1 t rp F2 b t' st HF Hc) as (Hsplit & Hosplit & Hn' & Ho').
  destruct (complete_nodes _ _ _ _ Hc) as [Hnt _]. destruct (complete_open _ _ _ _ Hc) as [p' Hopen].
  rewrite HF in Hgo.
  assert (p' = p) as ->.
  { eapply (open_unique b _ _ _ Hnd); rewrite Hosplit, elem_of_app; left; [rewrite Hopen; by left|done]. }
  pose proof Hnd as Hnd2. rewrite Hsplit in Hnd2. apply NoDup_app in Hnd2 as (Hn1 & Hd & Hn2).
  assert (∀ u x, u ∈ loose W ++ F1.*1 ++ F2.*1 → x ∈ nodes u → m !! x = builds s !! x) as Hother.
  { intros u x Hu Hx. apply Hout. intros Ht. apply (Hd x Ht). apply elem_of_flat_map. by exists u. }
  assert (Forall (λ x, running x.1 x.2 s' ∧ done x.1 = false) (F1 ++ F2)) as Hrest.
  { apply Forall_app in Hgo as [Hg1 [_ Hg2]%Forall_cons]. pose proof (Forall_app_2 _ _ _ Hg1 Hg2) as Hg.
    rewrite Forall_forall in *. intros [u ru] Hu. destruct (Hg _ Hu) as [Hr Hdn]. split; [|done].
    eapply running_ext; [exact Hr|]. rewrite Hm. intros x. apply (Hother u).
    rewrite <-fmap_app. apply elem_of_app. right. apply list_elem_of_fmap. by exists (u, ru). }
  simpl. split_and!.
  - rewrite Forall_forall in *. intros u Hu. destruct (Hlo u Hu) as (Hr & ? & ?). split_and!; try done.
    eapply brep_ext; [|exact Hr]. rewrite Hm. intros x. apply (Hother u). set_solver.
  - unfold advance. apply Forall_app in Hrest as [Hr1 Hr2]. apply Forall_app; split; [done|].
    apply Forall_app; split; [|done]. destruct (done t') eqn:Hdone; [done|]. constructor; [|done].
    split; [|done]. simpl. apply Forall_app in Hgo as [_ [[(_ & Hwf & _ & Hsz) _] _]%Forall_cons].
    unfold running. rewrite Hm, Hnt. split_and!; try done. by eapply complete_wf.
  - rewrite Hn'. destruct (done t'); [done|]. by rewrite <-Hsplit.
  - intros q w' c Hw' Hbw. destruct (decide (q = p)) as [->|Hne]; [by simplify_eq/=|].
    destruct (Hq q w' Hne Hw') as (w & Hw & (_ & _ & _ & Hbv & _)). rewrite Hbv in Hbw.
    specialize (Hbu q w c Hw Hbw). rewrite Hosplit, Hopen in Hbu.
    rewrite Ho'. by apply elem_of_cons in Hbu as [[= -> ->]|?].
Qed.

Lemma whole_advance W F1 t rp F2 b t' st p v m s s' :
  whole W s → trees_ok W s → started W = F1 ++ (t, rp) :: F2 → complete b t = Some (t', st) →
  (b, p) ∈ open_leaves t → builds_after (builds s) m t t' rp → builds s' = m → procs s !! p = Some v →
  (∀ q w, q ≠ p → procs s !! q = Some w → ∃ w', procs s' !! q = Some w' ∧ similar w w') →
  whole (planted (advance F1 t' rp F2) W) s'.
Proof.
  intros [Hwb Hwo] (_ & _ & Hnd & Hbu) HF Hc Hb [Hout Hin] Hm Hv Hq.
  destruct (advance_trees W F1 t rp F2 b t' st HF Hc) as (Hsplit & Hosplit & Hn' & Ho').
  destruct (complete_open _ _ _ _ Hc) as [p' Hopen]. split.
  - intros c [y Hy]. rewrite Hm in Hy. rewrite Hn'. destruct (decide (c ∈ nodes t)) as [Hct|Hct].
    + destruct (done t'); [by rewrite Hin in Hy|]. apply elem_of_app. by left.
    + rewrite Hout in Hy by done. assert (c ∈ flat_map nodes (trees_of W)) as Hcw by (apply Hwb; by eexists).
      rewrite Hsplit in Hcw. apply elem_of_app in Hcw as [?|?]; [done|]. apply elem_of_app. by right.
  - intros c q Hcq. rewrite Ho' in Hcq.
    assert ((c, q) ∈ flat_map open_leaves (trees_of W) ∧ c ≠ b) as [Hold Hcb].
    { rewrite Hosplit, Hopen. split; [by right|]. intros ->.
      pose proof (open_keys_subs (trees_of W)) as Hk. eapply sublist_NoDup in Hnd; [|exact Hk].
      rewrite Hosplit, Hopen in Hnd. simpl in Hnd. apply NoDup_cons in Hnd as [Hnd _]. apply Hnd.
      apply list_elem_of_fmap. by exists (b, q). }
    destruct (Hwo c q Hold) as (w & Hw & Hwc). assert (q ≠ p) as Hqp.
    { intros ->. rewrite Hv in Hw. injection Hw as <-.
      assert ((b, p) ∈ flat_map open_leaves (trees_of W)) as Hbp by (rewrite Hosplit, elem_of_app; by left).
      destruct (Hwo b p Hbp) as (w & Hw & Hwb'). congruence. }
    destruct (Hq q w Hqp Hw) as (w' & Hw' & (_ & _ & _ & Hbw & _)). exists w'. by rewrite Hbw.
Qed.

Lemma world_advance own cont W s p v b F1 t rp F2 t' st m :
  world own cont W s → at_cpu W = Some p → procs s !! p = Some v →
  started W = F1 ++ (t, rp) :: F2 → complete b t = Some (t', st) → (b, p) ∈ open_leaves t →
  builds_after (builds s) m t t' rp →
  let ps := st ++ if done t' then option_list rp else [] in
  world own cont (planted (advance F1 t' rp F2) W)
    (set_procs <[p := p_set_build None v]> (set_builds (λ _, m) (ready_all ps s))).
Proof.
  intros H Hcpu Hv HF Hc Hb Hm ps. pose proof (w_trees _ _ _ _ _ _ H) as Htr.
  assert (wf t = true) as Hwf.
  { destruct Htr as (_ & Hgo & _). rewrite HF in Hgo. by apply Forall_app in Hgo as [_ [[(_ & ? & _) _] _]%Forall_cons]. }
  pose proof (advance_census W _ _ _ _ _ _ _ HF Hwf Hc) as Hcen. fold ps in Hcen.
  set (s' := set_procs _ _).
  assert (∀ q w', q ≠ p → procs s' !! q = Some w' → ∃ w, procs s !! q = Some w ∧ similar w w') as Hq.
  { intros q w' Hne Hw'. unfold s' in Hw'. simpl in Hw'. rewrite lookup_insert_ne in Hw' by done.
    apply (sim_lookup s (ready_all ps s)); [apply tame_ready_all|exact Hw']. }
  assert (∀ q, q ≠ p → is_Some (procs s' !! q) ↔ is_Some (procs s !! q)) as Hq2.
  { intros q Hne. simpl. rewrite lookup_insert_ne by done. apply foldl_alter_is_Some. }
  assert (procs s' !! p = Some (p_set_build None v)) as Hp by apply lookup_insert_eq.
  assert (∀ q, is_Some (procs s' !! q) ↔ is_Some (procs s !! q)) as Hq3.
  { intros q. destruct (decide (q = p)) as [->|]; [rewrite Hp, Hv; done|by apply Hq2]. }
  pose proof H as [[Hnd Hcs] (Hdom & Hproc & Hst) Hsl Hrm _ Hown Hpark Hfr Hmem Hwh Hends].
  constructor; try done.
  - split; [done|]. simpl. rewrite <-Hcs, Hcen. solve_Permutation.
  - split_and!; [|intros q w' Hw'|done].
    + change (s_totalQ (sched s')) with (s_totalQ (sched s)). rewrite <-Hdom.
      apply set_eq. intros q. rewrite !elem_of_dom. apply Hq3.
    + destruct (decide (q = p)) as [->|Hne].
      * rewrite Hp in Hw'. simplify_eq. by apply (Hproc p v).
      * destruct (Hq q w' Hne Hw') as (w & Hw & (_ & _ & Hsz & _ & Hstate)).
        destruct (Hproc q w Hw) as [Hal Hk]. split; [destruct Hstate; congruence|by rewrite Hsz].
  - eapply sleep_ok_ext; [exact Hsl|..]; try done. intros x Hx.
    assert (x ≠ p) by (apply (cpu_unique _ _ _ _ p x H Hcpu); set_solver).
    unfold sleep_key at 1. simpl. rewrite lookup_insert_ne by done.
    change (sleep_key (ready_all ps s) x = sleep_key s x). apply sleep_key_ready.
  - by eapply trees_advance.
  - intros q Hin Hne. simpl in Hne. rewrite Hcpu in Hne. specialize (Hpark q Hin). rewrite Hcpu in Hpark.
    specialize (Hpark Hne). assert (q ≠ p) as Hqp by congruence.
    apply (tame_parked _ _ _ _ _ _ (ready_all ps s) q H) in Hpark; [|apply tame_ready_all].
    unfold parked, view_of, args_of in *. simpl in *. by rewrite lookup_insert_ne.
  - intros x Hx. apply Hfr. rewrite Hq3 in Hx. destruct Hx as [?|[?|[?|[[y Hy]|?]]]]; eauto.
    simpl in Hy. destruct (decide (x ∈ nodes t)) as [Hin|Hout].
    + right; right; right; left. destruct Htr as (_ & Hgo & _). rewrite HF in Hgo.
      apply Forall_app in Hgo as [_ [[(Hr & _) _] _]%Forall_cons]. by eapply brep_nodes.
    + right; right; right; left. destruct Hm as [Hm _]. rewrite <-Hm by done. by eexists.
  - eapply (whole_advance W F1 t rp F2 b t' st p v m s s'); try done. intros q w Hne Hw. simpl.
    rewrite lookup_insert_ne by done. apply (sim_lookup_r s (ready_all ps s)); [apply tame_ready_all|done].
  - eapply ends_sim; [exact Hends|done|]. intros q. by rewrite Hq3.
Qed.

(** What [process_end] does, in the form of [world_advance]. *)
Lemma process_end_advance b t t' st rp s :
  running t rp s → complete b t = Some (t', st) →
  let ps := st ++ if done t' then option_list rp else [] in
  can_ready ps s →
  wp (process_end b) (λ _ s', ∃ m, s' = set_builds (λ _, m) (ready_all ps s) ∧
    builds_after (builds s) m t t' rp) s.
Proof.
  intros Hrun Hc ps Hcan. eapply wp_mono; [by eapply process_end_ok|].
  intros [] s'. unfold tree_outcome, builds_after, ps. destruct (done t').
  - intros (m & -> & Hm). exists m. split; [done|]. split; intros x Hx; rewrite Hm;
      [by rewrite decide_False|by rewrite decide_True].
  - rewrite app_nil_r. intros (m & -> & Hr & Hm). by exists m.
Qed.

Lemma world_proc_free own cont W s p fk :
  world own cont W s → at_cpu W = Some p →
  wp (proc_free (Some p) ;; mods (s_set_curr None))
    (λ _ s', ∃ W', at_cpu W' = None ∧ world own (<[p := fk]> cont) W' s') s.
Proof.
  intros H Hcpu. assert (p ∈ s_totalQ (sched s)) as Hp.
  { destruct (w_census _ _ _ _ _ _ H) as [_ <-]. unfold elsewhere_than_ready. rewrite Hcpu. set_solver. }
  destruct (proj1 (world_live _ _ _ _ _ _ p H) Hp) as [v Hv].
  pose proof (world_all_live _ _ _ _ _ _ H) as Hl.
  unfold proc_free. step. steps. apply wp_REMOVE; [done|by apply Forall_live|]. step. step. step.
  destruct (p_proc_build v) as [b|] eqn:Hb.
  - destruct (find_tree _ _ _ _ _ _ _ H Hcpu Hv Hb) as (F1 & t & rp & F2 & t' & st & HF & Hbt & Hc).
    destruct (w_trees _ _ _ _ _ _ H) as (_ & Hgo & _). rewrite HF in Hgo.
    apply Forall_app in Hgo as [_ [[Hrun _] _]%Forall_cons]. simpl in Hrun.
    assert (can_ready (st ++ if done t' then option_list rp else []) s) as Hcan.
    { eapply world_can_ready; [exact H|]. eapply advance_census; [exact HF|apply Hrun|exact Hc]. }
    eapply wp_mono; [by apply (process_end_advance b t t' st rp)|].
    intros [] s3 (m & -> & Hm). unfold free_stack, free_proc. steps.
    eexists (moved None _ (planted (advance F1 t' rp F2) W)). split; [done|].
    pose proof (world_advance _ _ _ _ _ _ _ _ _ _ _ _ _ _ H Hcpu Hv HF Hc Hbt Hm) as HA.
    eapply (world_removed _ _ _ _ _ _ fk) in HA; [|done|apply lookup_insert_eq|done].
    eapply world_idle; [exact HA|apply tame_same; try done|..]; try done; simpl; by rewrite ?delete_insert_eq.
  - step. unfold free_stack, free_proc. steps. eexists. split; [|idle (world_removed _ _ _ _ _ _ fk H Hcpu Hv Hb)]. done.
Qed.

Lemma world_switched_end own cont W s p fk :
  world own cont W s → at_cpu W = Some p → s_curr_proc (sched s) = Some p →
  p_state <$> procs s !! p = Some PROC_ENDED →
  wp scheduler_switched (λ _ s', ∃ W', at_cpu W' = None ∧ world own (<[p := fk]> cont) W' s') s.
Proof.
  intros H Hcpu Hcur Hst. apply fmap_Some in Hst as (v & Hv & Hst).
  unfold scheduler_switched. step. step. rewrite Hcur. step.
  eapply wp_mono; [by eapply world_madvise|]. intros o s1 (H1 & _ & Hs1 & [u Hu]). step.
  eapply wp_deref; [done|]. step. eapply wp_getp; [by rewrite Hu, lookup_insert_eq|]. simpl p_state.
  rewrite <-Hst.
  set (s2 := set_sched (λ c, s_set_exit (s_is_exit c || bool_decide (Some p = s_main_proc c)) c) s1).
  assert (world own cont W s2) as H2 by idle H1.
  apply wp_bind. apply wp_bind. apply wp_mods. fold s2.
  pose proof (world_proc_free _ _ _ _ _ fk H2 Hcpu) as Hfree. by apply wp_bind in Hfree.
Qed.
End world_end.
