(* ===== verification/WorldCalls.v ===== *)
(** * The calls of a body keep the invariant of [World] *)
From stdpp Require Import base tactics list gmap.
From Stdlib Require Import ZArith Lia.
From S2P Require Import Prelude Tailq Rbtree RbInsert RbSpec State SchedOps Exec SleepSpec.
From S2P Require Import Csp BuildTree CspSpec Proc AltCore Chan CopySpec ChanSpec Alt Context Sched SchedSpec.
From S2P Require Import Proxc ProxcSpec System World WorldSched WorldEnd.

Lemma SL_insert_perm key e l : SL.insert key e l ≡ₚ e :: l.
Proof.
  induction l as [|x l IH]; simpl; [done|]. case_match; [done|]. rewrite IH. apply Permutation_swap.
Qed.

(** The sleepers under [n] consecutive deadlines are [n] different processes. *)
Lemma taken_length key l k n : (0 ≤ n)%Z → taken key l k n → (n ≤ Z.of_nat (length l))%Z.
Proof.
  intros Hn Ht. assert (∀ m : nat, (Z.of_nat m ≤ n)%Z →
    ∃ q, length q = m ∧ NoDup q ∧ ∀ x, x ∈ q → x ∈ l ∧ (k ≤ key x < k + Z.of_nat m)%Z) as H.
  { induction m as [|m IH]; intros Hm; [exists []; split_and!; [done|constructor|set_solver]|].
    destruct IH as (q & Hq & Hnd & Hx); [lia|]. destruct (Ht (Z.of_nat m)) as [x Hl]; [lia|].
    apply SL_lookup_Some in Hl as [Hin Hk]. exists (x :: q). split_and!; [simpl; by rewrite Hq| |].
    - apply NoDup_cons. split; [|done]. intros Hxq. apply Hx in Hxq as [_ ?]. lia.
    - intros y [->|Hy]%elem_of_cons; [split; [done|lia]|]. apply Hx in Hy as [? ?]. split; [done|lia]. }
  destruct (H (Z.to_nat n)) as (q & Hq & Hnd & Hx); [lia|].
  assert (length q ≤ length l); [|lia]. apply submseteq_length, NoDup_submseteq; [done|].
  intros x Hxq. by apply Hx.
Qed.

Section world_calls.
Context {T : Type} {TT : SleepTree T} {E : Env} {P : Type} {CL : Client P}.
Context (L : layout) (typed : view → P → Prop).
Implicit Types (s : St T) (W : places).
Abbreviation world := (world L typed).
Abbreviation safe := (safe L typed).

(** [p] runs, with the trees [own p]. *)
Record on_cpu (own : loc → list btree) cont W (p : loc) s : Prop := {
  cpu_at : at_cpu W = Some p;
  cpu_world : world own cont W s;
  cpu_curr : s_curr_proc (sched s) = Some p;
  cpu_state : p_state <$> procs s !! p = Some PROC_RUNNING
}.

Lemma on_cpu_live own cont W p s :
  on_cpu own cont W p s → p ∈ s_totalQ (sched s) ∧ ∃ v, procs s !! p = Some v ∧ p_state v = PROC_RUNNING.
Proof.
  intros [Hcpu H _ Hst]. apply fmap_Some in Hst as (v & Hv & Hst). split; [|by eauto].
  apply (world_live _ _ _ _ _ _ p H). by eexists.
Qed.

Lemma on_cpu_idle own cont W p s s' :
  on_cpu own cont W p s → tame s s' → procs s' = procs s →
  s_readyQ (sched s') = s_readyQ (sched s) → s_sleep_RB (sched s') = s_sleep_RB (sched s) →
  s_sleep_num (sched s') = s_sleep_num (sched s) → s_altsleep_RB (sched s') = s_altsleep_RB (sched s) →
  s_curr_proc (sched s') = s_curr_proc (sched s) → on_cpu own cont W p s'.
Proof.
  intros [Hcpu H Hcur Hst] ? Hp ?????. constructor; [done|by eapply world_idle|congruence|by rewrite Hp].
Qed.

(** ** The end of a slice *)

Lemma safe_running own (x : cpu P) W p s st :
  on_cpu own (conts x) W p s → typed (view_of own s p) st → safe (Cpu (Running p st) (conts x)) s.
Proof. intros [Hcpu H Hcur Hst] Ht. by exists own, W. Qed.

Lemma safe_ret own (x : cpu P) W p s k r :
  on_cpu own (conts x) W p s → typed (view_of own s p) (k r) →
  wp (after_call p x k (CRet r)) safe s.
Proof. intros H Ht. apply wp_ret. by eapply safe_running. Qed.

(** Giving up the processor but staying ready. *)
Lemma safe_yield own (x : cpu P) W p s f k :
  on_cpu own (conts x) W p s → frame_ok s p f → typed (view_of own s p) (k (RInt (frame_reply f))) →
  wp (after_call p x k (CYield f)) safe s.
Proof.
  intros [Hcpu H Hcur Hst] Hf Ht. unfold after_call. apply wp_bind. eapply wp_mono.
  { eapply world_switched_ready; [by apply (world_cont _ _ _ _ _ _ p (f, k) H)|done|done|done|].
    unfold parked. by rewrite lookup_insert_eq. }
  intros [] s' H'. apply wp_ret. exists own, (moved None (asleep_l W) W). by split.
Qed.

(** Waiting somewhere else. *)
Lemma safe_wait own (x : cpu P) W p s f k st :
  world own (<[p := (f, k)]> (conts x)) W s → at_cpu W = None → s_curr_proc (sched s) = Some p →
  p_state <$> procs s !! p = Some st → st ∈ [PROC_SLEEPING; PROC_CHANWAIT; PROC_RUNWAIT] →
  wp (after_call p x k (CYield f)) safe s.
Proof.
  intros H Hcpu Hcur Hst Hin. apply wp_bind. eapply wp_mono; [by eapply world_switched_wait|].
  intros [] s' H'. apply wp_ret. by exists own, W.
Qed.

(** The function of the process has returned. *)
Lemma safe_end own (x : cpu P) W p s st :
  on_cpu own (conts x) W p s →
  wp (r ← proc_mainfxn_end p; after_call p x (λ _, st) (int_ctl r)) safe s.
Proof.
  intros H. destruct (on_cpu_live _ _ _ _ _ H) as [Hp (v & Hv & Hst)]. destruct H as [Hcpu H Hcur _].
  unfold proc_mainfxn_end, proc_yield. steps. simpl. apply wp_bind.
  assert (similar v (p_set_state PROC_ENDED v)) as Hsim by (unfold similar; simpl; auto 10).
  eapply wp_mono.
  { eapply (world_switched_end _ _ own (conts x) W _ p (KMain, λ _, st)); [by eapply world_put|done|done|].
    simpl. by rewrite lookup_insert_eq. }
  intros [] s' (W' & HW & H'). apply wp_ret. by exists own, W'.
Qed.

(** ** Calls that return at once, and the ones that only yield *)

Lemma safe_do_yield own (x : cpu P) W p s k :
  on_cpu own (conts x) W p s → typed (view_of own s p) (k (RInt 0)) →
  wp (r ← do_call CallYield; after_call p x k r) safe s.
Proof.
  intros H Ht. destruct (on_cpu_live _ _ _ _ _ H) as [_ (v & Hv & _)]. pose proof (cpu_curr _ _ _ _ _ H) as Hcur.
  unfold do_call, proxc_yield, proc_yield. steps. by eapply safe_yield.
Qed.

Lemma safe_do_exit own (x : cpu P) W p s k :
  on_cpu own (conts x) W p s → typed (view_of own s p) (k (RInt 0)) →
  wp (r ← do_call CallExit; after_call p x k r) safe s.
Proof.
  intros H Ht. destruct (on_cpu_live _ _ _ _ _ H) as [_ (v & Hv & _)]. pose proof (cpu_curr _ _ _ _ _ H) as Hcur.
  unfold do_call, proxc_exit. step. step. step. step. step. step. simpl s_curr_proc. rewrite Hcur.
  unfold proc_yield. steps.
  eapply safe_yield; [eapply on_cpu_idle; [exact H|by apply tame_same|done..]|done|exact Ht].
Qed.

Lemma safe_do_argn own (x : cpu P) W p s n k :
  on_cpu own (conts x) W p s → (0 ≤ n)%Z →
  typed (view_of own s p) (k (RInt (nth (Z.to_nat n) (args_of s p) 0%Z))) →
  wp (r ← do_call (CallArgn n); after_call p x k r) safe s.
Proof.
  intros H Hn Ht. destruct (on_cpu_live _ _ _ _ _ H) as [_ (v & Hv & _)]. pose proof (cpu_curr _ _ _ _ _ H) as Hcur.
  unfold args_of in Ht. rewrite Hv in Ht. simpl in Ht. unfold do_call, returns, proxc_argn. steps.
  destruct (Z.ltb_spec n (Z.of_nat (length (p_args v)))) as [Hlt|Hge].
  - destruct (lookup_lt_is_Some_2 (p_args v) (Z.to_nat n)) as [a Ha]; [lia|].
    eapply wp_deref; [done|]. steps. eapply safe_running; [done|].
    by erewrite nth_lookup_Some in Ht.
  - steps. eapply safe_running; [done|]. rewrite nth_overflow in Ht by lia. done.
Qed.

Lemma memory_mapped s a n :
  memory_ok L s → (∀ i, (0 ≤ i < n)%Z → cells L (a + i)%Z) → mapped (mem s) a n.
Proof. intros Hm Hc i Hi. by apply Hm, Hc. Qed.

(** Memory is a set of bytes: changing some keeps the invariant. *)
Lemma world_mem own cont W s m :
  world own cont W s → memory_ok L (set_mem (λ _, m) s) → world own cont W (set_mem (λ _, m) s).
Proof. intros [] Hm. by constructor. Qed.

Lemma safe_do_load own (x : cpu P) W p s a k :
  on_cpu own (conts x) W p s → cells L a → (∀ z, typed (view_of own s p) (k (RInt z))) →
  wp (r ← do_call (CallLoad a); after_call p x k r) safe s.
Proof.
  intros H Ha Ht. unfold do_call, returns, load_uint. step. step. step. apply load_bytes_ok.
  - apply memory_mapped; [apply (cpu_world _ _ _ _ _ H)|]. intros i Hi. by replace (a + i)%Z with a by lia.
  - steps. by eapply safe_running.
Qed.

Lemma land_byte v : is_byte (Z.land v 255).
Proof. unfold is_byte. change 255%Z with (Z.ones 8). rewrite Z.land_ones by lia. by apply Z.mod_pos_bound. Qed.

Lemma safe_do_store own (x : cpu P) W p s a v k :
  on_cpu own (conts x) W p s → cells L a → typed (view_of own s p) (k (RInt 0)) →
  wp (r ← do_call (CallStore a v); after_call p x k r) safe s.
Proof.
  intros [Hcpu H Hcur Hst] Ha Ht. pose proof (w_mem _ _ _ _ _ _ H) as Hm.
  unfold do_call, returns, store_uint. step. step. cbn [le_split]. apply store_bytes_ok.
  - intros i Hi. destruct (Hm a Ha) as (b & Hb & _). exists b. simpl in Hi. by replace (a + i)%Z with a by lia.
  - steps. eapply safe_running; [|exact Ht]. constructor; try done.
    apply (world_mem _ _ _ s (<[a := Z.land v 255]> (mem s))); [done|]. intros c Hc. simpl.
    destruct (decide (a = c)) as [->|].
    + rewrite lookup_insert_eq. eexists. split; [done|]. apply land_byte.
    + rewrite lookup_insert_ne by done. by apply Hm.
Qed.
End world_calls.
