(* ===== verification/WorldComm.v ===== *)
(** * Sleeping and communicating keep the invariant of [World] *)
From stdpp Require Import base tactics list gmap.
From Stdlib Require Import ZArith Lia.
From S2P Require Import Prelude Tailq Rbtree RbInsert RbSpec State SchedOps Exec SleepSpec.
From S2P Require Import Csp BuildTree CspSpec Proc AltCore Chan CopySpec ChanSpec Alt Context Sched SchedSpec.
From S2P Require Import Proxc ProxcSpec System World WorldSched WorldEnd WorldCalls.

Section world_comm.
Context {T : Type} {TT : SleepTree T} {E : Env} {P : Type} {CL : Client P}.
Context (L : layout) (horizon : Z) (typed : view → P → Prop).
Context (HL : layout_ok L) (Hclock : ∀ k, (clock k ≤ horizon)%Z).
Implicit Types (s : St T) (W : places).
Abbreviation world := (world L typed).
Abbreviation safe := (safe L typed).
Abbreviation on_cpu := (on_cpu L typed).

(** ** Sleeping *)

(** With few processes some deadline of the next MAX_TRIES microseconds is free. *)
Lemma deadline_free own cont W p s k :
  world own cont W s → modest s → at_cpu W = Some p → ¬ taken (sleep_key s) (asleep_l W) k MAX_TRIES.
Proof.
  intros H [Hm _] Hcpu Ht%taken_length; [|done]. destruct (w_census _ _ _ _ _ _ H) as [_ Hc].
  apply Permutation_length in Hc. unfold elsewhere_than_ready in Hc. rewrite Hcpu in Hc.
  rewrite !length_app in Hc. simpl in Hc. lia.
Qed.

Lemma world_asleep own cont W p s v kk t' :
  world own cont W s → at_cpu W = Some p → procs s !! p = Some v → parked typed own cont s p →
  let s' := asleep p kk v t' s in
  (0 < kk)%Z → sleepers s' (SL.insert (sleep_key s') p (asleep_l W)) →
  world own cont (moved None (SL.insert (sleep_key s') p (asleep_l W)) W) s'.
Proof.
  intros H Hcpu Hv Hpark s' Hk Hs. eapply world_tame; [exact H|..].
  - eapply tame_trans; [apply (tame_put p v (p_set_sleep kk (p_set_state PROC_SLEEPING v))); [done|]|by apply tame_same].
    split_and!; try done. by right.
  - destruct (w_sleep _ _ _ _ _ _ H) as (_ & Ha & _ & Hpos).
    split; [exact Hs|split; [exact Ha|split; [by apply Z.mod_pos_bound|]]].
    apply Forall_forall. intros q Hq%SL_insert_elem. unfold sleep_key. simpl.
    destruct (decide (p = q)) as [->|Hne]; [by rewrite lookup_insert_eq|].
    destruct Hq as [->|Hq]; [done|]. rewrite lookup_insert_ne by done. rewrite Forall_forall in Hpos. by apply Hpos.
  - destruct (w_census _ _ _ _ _ _ H) as [Hnd Hc]. split; [done|]. simpl. rewrite <-Hc.
    unfold elsewhere_than_ready. rewrite Hcpu. simpl. by rewrite SL_insert_perm.
  - intros q Hq _. rewrite Hcpu in Hq. by injection Hq as <-.
Qed.

Lemma safe_do_sleep own (x : cpu P) W p s us k :
  on_cpu own (conts x) W p s → modest s → (0 ≤ us)%Z → (horizon + us + MAX_TRIES < U64)%Z →
  typed (view_of own s p) (k (RInt 0)) →
  wp (r ← do_call (CallSleep us); after_call p x k r) safe s.
Proof.
  intros H Hm Hus HU Ht. destruct (on_cpu_live _ _ _ _ _ _ _ H) as [_ (v & Hv & Hst)].
  pose proof H as [Hcpu HW Hcur _]. unfold do_call, proxc_sleep. steps. apply wp_when.
  - intros Hpos%Z.ltb_lt. step. apply wp_gettimestamp. step. step. set (c := clock (n_time s)) in *.
    assert (0 ≤ c ≤ horizon)%Z as Hc. { split; [|apply Hclock]. unfold c, clock. case_match. by apply Z.mod_pos_bound. }
    set (k0 := (c + us)%Z). assert (u64 k0 = k0)%Z as -> by (apply Z.mod_small; unfold MAX_TRIES in *; lia).
    set (v1 := p_set_sleep k0 v). set (s1 := set_procs <[p := v1]> (tick s)).
    assert (p ∉ asleep_l W) as Hp.
    { intros Hin. apply (cpu_unique _ _ _ _ _ _ p p HW Hcpu); [set_solver|done]. }
    assert (world own (<[p := (KSleep p, k)]> (conts x)) W s1) as H1.
    { apply (world_put _ _ _ _ _ (tick s) p v v1); [|done|by unfold similar; auto 10|done].
      idle (world_cont _ _ _ _ _ _ p (KSleep p, k) HW Hcpu). }
    assert (procs s1 !! p = Some v1) as Hv1 by apply lookup_insert_eq.
    destruct (first_free (sleep_key s1) (asleep_l W) k0 MAX_TRIES) as [Hbad|(n & Hn & Htk & Hfree)]; [done| |].
    { exfalso. by eapply deadline_free; [exact H1|exact Hm|exact Hcpu|exact Hbad]. }
    eapply wp_mono.
    { eapply (addsleep_files p _ v1 n s1); try done; [apply (w_sleep _ _ _ _ _ _ H1)|simpl; lia|by left|simpl; lia]. }
    intros [] s2 (t' & -> & Hs2). unfold proc_yield. steps. simpl int_ctl. eapply safe_wait.
    + eapply world_asleep; [exact H1|done|exact Hv1| |simpl; lia|exact Hs2].
      unfold parked. rewrite lookup_insert_eq. split; [done|].
      unfold view_of, args_of in *. rewrite Hv1. by rewrite Hv in Ht.
    + done.
    + exact Hcur.
    + simpl. by rewrite lookup_insert_eq.
    + set_solver.
  - intros _. unfold proc_yield. steps. by eapply safe_yield.
Qed.

(** ** Channels *)

Definition with_rooms (r : option loc) (R : list Room) W : places :=
  Places r (asleep_l W) R (started W) (loose W).

(** The channel [c] among the rooms. *)
Lemma world_room own cont W s c n :
  world own cont W s → (c_data_size <$> chans s) !! c = Some n →
  ∃ R1 ty ws R2, rooms W = R1 ++ MkRoom c n ty ws :: R2 ∧ room_ok L s (MkRoom c n ty ws).
Proof.
  intros H (ch & Hn & Hc)%lookup_fmap_Some. destruct (w_rooms _ _ _ _ _ _ H) as (Hr & _ & Hall).
  destruct (proj1 (list_elem_of_fmap _ _ _) (Hall c ltac:(by eexists))) as ([c' n' ty ws] & -> & Hin).
  rewrite Forall_forall in Hr. pose proof (Hr _ Hin) as [Hrep Hb]. simpl in *.
  destruct Hrep as (Hc' & Hrep). rewrite Hc in Hc'. simplify_eq/=.
  apply list_elem_of_split in Hin as (R1 & R2 & HR). by exists R1, ty, ws, R2.
Qed.

Definition offers (mine : ChanEndType) (data n : Z) : Prop :=
  match mine with CHAN_WRITER => sends L data n | _ => receives L data n end.

Lemma can_call_world own cont W p s c n mine data R1 ty ws R2 :
  on_cpu own cont W p s → rooms W = R1 ++ MkRoom c n ty ws :: R2 → room_ok L s (MkRoom c n ty ws) →
  mine ≠ CHAN_ALTER → offers mine data n → can_call mine s p data n ty ws.
Proof.
  intros H HR [(_ & _ & _ & Hty) Hbuf] Hmine Hoff. destruct (on_cpu_live _ _ _ _ _ _ _ H) as [_ (v & Hv & _)].
  pose proof (cpu_world _ _ _ _ _ _ _ H) as HW. pose proof (w_mem _ _ _ _ _ _ HW) as Hm.
  split; [apply H|]. split; [by eexists|]. split.
  { destruct (ends s !! fresh_loc s) eqn:He; [|done]. exfalso. apply (Pos.lt_irrefl (fresh_loc s)).
    apply (w_fresh _ _ _ _ _ _ HW). eauto. }
  split; [by eapply world_ready_live|]. split.
  - assert (can_ready (w_proc <$> ws) s) as (_ & Hc & _).
    { eapply (world_can_ready _ _ _ _ _ _ _ (option_list (at_cpu W) ++ asleep_l W ++
        (blocked R1 ++ blocked R2) ++ callers (started W) ++ to_start (started W) ++ in_hand (loose W)));
        [exact HW|].
      unfold elsewhere_than_ready. rewrite HR. unfold blocked. rewrite flat_map_app. simpl. solve_Permutation. }
    by apply Forall_fmap in Hc.
  - intros Hne. eapply Forall_impl; [exact Hbuf|]. intros w Hw. unfold buffer_ok, offers in *. simpl in *.
    destruct mine, ty; try done; unfold copy_ok, copyable.
    + destruct (lay_sends _ HL _ _ Hoff) as [Hn Hs], (lay_receives _ HL _ _ Hw) as [_ Hr].
      split_and!; [done|by apply memory_mapped with L|by apply memory_mapped with L|].
      right. by apply (lay_apart _ HL).
    + destruct (lay_sends _ HL _ _ Hw) as [Hn Hs], (lay_receives _ HL _ _ Hoff) as [_ Hr].
      split_and!; [done|by apply memory_mapped with L|by apply memory_mapped with L|].
      right. by apply (lay_apart _ HL).
Qed.

(** One room changes, the others stay. *)
Lemma rooms_ok_update s s' R1 c n ty ws R2 ty' ws' :
  rooms_ok L (R1 ++ MkRoom c n ty ws :: R2) s → room_ok L s' (MkRoom c n ty' ws') →
  (∀ x, x ≠ c → chans s' !! x = chans s !! x) →
  (∀ e, is_Some (ends s !! e) → ends s' !! e = ends s !! e) →
  rooms_ok L (R1 ++ MkRoom c n ty' ws' :: R2) s'.
Proof.
  intros (Hr & Hnd & Hall) Hnew Hc He. rewrite fmap_app in Hnd, Hall. simpl in Hnd, Hall.
  assert (∀ r, r ∈ R1 ++ R2 → r_chan r ≠ c) as Hne.
  { intros r Hin Heq. rewrite <-Permutation_middle in Hnd. apply NoDup_cons in Hnd as [Hnd _].
    apply Hnd. rewrite <-fmap_app. apply list_elem_of_fmap. by exists r. }
  apply Forall_app in Hr as [Hr1 [Hr0 Hr2]%Forall_cons].
  assert (Forall (room_ok L s') (R1 ++ R2)) as [H1 H2]%Forall_app.
  { pose proof (Forall_app_2 _ _ _ Hr1 Hr2) as Hr. rewrite Forall_forall in *. intros r Hin.
    destruct (Hr r Hin) as [(Hch & Hn & Hws & Hal) Hbuf]. split; [|done]. split; [by rewrite Hc by auto|].
    split; [done|]. split; [|done]. eapply Forall_impl; [exact Hws|]. unfold waits. intros w Hw.
    rewrite He; [done|by eexists]. }
  split_and!.
  - apply Forall_app. split; [done|]. by constructor.
  - by rewrite fmap_app.
  - intros x Hx. rewrite fmap_app. simpl. destruct (decide (x = c)) as [->|Hx0]; [set_solver|].
    rewrite Hc in Hx by done. by apply Hall.
Qed.

Lemma data_size_insert (m : gmap loc Chan) c ch n q al :
  m !! c = Some ch → c_data_size ch = n → c_data_size <$> <[c := MkChan n q al]> m = c_data_size <$> m.
Proof.
  intros Hc Hn. rewrite fmap_insert. apply insert_id. rewrite lookup_fmap, Hc. simpl. by rewrite Hn.
Qed.

(** The caller has met [w], which is ready again. *)
Lemma world_met own cont W p s c n mine data R1 ty w ws R2 ws0 :
  world own cont W s → at_cpu W = Some p → rooms W = R1 ++ MkRoom c n ty ws0 :: R2 → ws0 = w :: ws →
  Forall (buffer_ok L (MkRoom c n ty ws0)) ws0 →
  c_data_size <$> chans s !! c = Some n → copy_ok mine w data n (mem s) →
  let s' := met c (MkChan n (w_end <$> ws0) []) w (w_end <$> ws) (copied mine w data n) s in
  chan_rep s' c n [] ty ws →
  world own cont (with_rooms (Some p) (R1 ++ MkRoom c n ty ws :: R2) W) s'.
Proof.
  intros H Hcpu HR Hws Hbuf Hn Hcopy s' Hrep. apply fmap_Some in Hn as (ch & Hch & Hn).
  pose proof (tame_ready_all [w_proc w] (set_mem (copied mine w data n) s)) as (Hs & _).
  eapply world_mild; [exact H|..]; try done.
  - split; [exact Hs|]. split; [done|]. split; [by apply (data_size_insert _ _ ch)|].
    split; [done|]. split; [done|]. intros e He. apply (w_fresh _ _ _ _ _ _ H). eauto.
  - destruct (w_census _ _ _ _ _ _ H) as [Hnd Hc]. split; [done|]. simpl. rewrite <-Hc.
    unfold elsewhere_than_ready, blocked, with_rooms.
    cbn [at_cpu asleep_l rooms started loose option_list app]. rewrite HR, Hcpu, !flat_map_app.
    cbn [flat_map r_waiters option_list app]. rewrite Hws, fmap_cons. cbn [w_proc]. solve_Permutation.
  - eapply sleep_ok_ext; [apply H|..]; try done. intros x _. exact (sleep_key_ready_all [w_proc w] s x).
  - eapply rooms_ok_update; [rewrite <-HR; apply H|split; [exact Hrep|]|..].
    + subst ws0. by apply Forall_cons in Hbuf as [_ Hbuf].
    + intros x Hx. simpl. by rewrite lookup_insert_ne.
    + done.
  - intros a Ha. pose proof (w_mem _ _ _ _ _ _ H) as Hm. simpl.
    assert (mapped (mem s) a 1) as Hma.
    { intros i Hi. replace (a + i)%Z with a by lia. by apply Hm. }
    assert (mapped (copied mine w data n (mem s)) a 1) as Hc.
    { destruct mine; simpl in *; destruct Hcopy as (? & ? & ? & _); by apply mapped_mcopy. }
    destruct (Hc 0%Z) as (b & Hb & ?); [lia|]. rewrite Z.add_0_r in Hb. by exists b.
  - eapply ends_sim; [apply H|done|]. intros q. by apply (sim_live _ _ q Hs).
  - intros q Hq Hne. simpl in Hne. congruence.
Qed.

(** The caller waits in the room, with its end on its stack. *)
Lemma world_waiting own cont W p s c n mine data k R1 ty ws R2 ws' :
  world own cont W s → at_cpu W = Some p → rooms W = R1 ++ MkRoom c n ty ws :: R2 →
  ws' ≡ₚ MkWaiter (fresh_loc s) p data :: ws →
  Forall (buffer_ok L (MkRoom c n mine ws')) ws' → c_data_size <$> chans s !! c = Some n →
  is_Some (procs s !! p) → typed (view_of own s p) (k (RInt 1)) →
  let s' := ChanSpec.waiting c (MkChan n (w_end <$> ws) []) mine p data s in
  chan_rep s' c n [] mine ws' →
  world own (<[p := (KChan (fresh_loc s), k)]> cont) (with_rooms None (R1 ++ MkRoom c n mine ws' :: R2) W) s'.
Proof.
  intros H Hcpu HR Hws Hbuf Hn [v Hv] Ht s' Hrep. apply fmap_Some in Hn as (ch & Hch & Hn).
  pose proof (world_cont _ _ _ _ _ _ p (KChan (fresh_loc s), k) H Hcpu) as HW.
  assert (∀ e, is_Some (ends s !! e) → (e < fresh_loc s)%positive) as Hends.
  { intros e He. apply (w_fresh _ _ _ _ _ _ H). eauto. }
  assert (mild s s') as Hmild.
  { split; [split_and!; [done|done|]|].
    { intros q. simpl. destruct (decide (p = q)) as [->|].
      - rewrite lookup_alter_eq, Hv. constructor. split_and!; try done. by right.
      - rewrite lookup_alter_ne by done. apply sims_refl. }
    split; [done|]. split; [by apply (data_size_insert _ _ ch)|]. simpl. split_and!; [lia| |].
    - intros e He. apply lookup_insert_ne. lia.
    - intros e He. destruct (decide (fresh_loc s = e)) as [->|Hne]; [lia|].
      rewrite lookup_insert_ne in He by done. specialize (Hends e He). lia. }
  eapply world_mild; [exact HW|exact Hmild|done|done|..].
  - destruct (w_census _ _ _ _ _ _ H) as [Hnd Hc]. split; [done|]. simpl. rewrite <-Hc.
    unfold elsewhere_than_ready, blocked, with_rooms.
    cbn [at_cpu asleep_l rooms started loose option_list app]. rewrite HR, Hcpu, !flat_map_app.
    cbn [flat_map r_waiters option_list app]. rewrite Hws, fmap_cons. cbn [w_proc]. solve_Permutation.
  - eapply sleep_ok_ext; [apply H|..]; try done. intros q _. unfold sleep_key. simpl.
    destruct (decide (p = q)) as [->|]; [by rewrite lookup_alter_eq, Hv|by rewrite lookup_alter_ne].
  - eapply rooms_ok_update; [rewrite <-HR; apply H|by split|..].
    + intros x Hx. simpl. by rewrite lookup_insert_ne.
    + intros e He. simpl. specialize (Hends e He). rewrite lookup_insert_ne; [done|lia].
  - apply H.
  - intros e ce He. simpl in He. apply lookup_insert_Some in He as [[<- <-]|[_ He]].
    + split; [done|]. exists p. split; [done|]. apply (sim_live s); [apply Hmild|by eexists].
    + destruct (w_ends _ _ _ _ _ _ H e ce He) as (Hg & q & Hq & Hl). split; [done|]. exists q.
      split; [done|]. apply (sim_live s); [apply Hmild|done].
  - intros q Hq _. rewrite Hcpu in Hq. injection Hq as <-. unfold parked. rewrite lookup_insert_eq.
    split; [|by rewrite (mild_view _ s s')]. split; [simpl; lia|].
    intros ce. simpl. rewrite lookup_insert_eq. by intros [= <-].
Qed.

Lemma safe_call mine own (x : cpu P) W p s c data n k :
  on_cpu own (conts x) W p s → (c_data_size <$> chans s) !! c = Some n → mine ≠ CHAN_ALTER →
  offers mine data n → typed (view_of own s p) (k (RInt 1)) →
  wp (r ← ChanSpec.call mine c data n; after_call p x k (int_ctl r)) safe s.
Proof.
  intros H Hn Hmine Hoff Ht. destruct (on_cpu_live _ _ _ _ _ _ _ H) as [_ (v & Hv & _)].
  pose proof H as [Hcpu HW Hcur Hst].
  destruct (world_room _ _ _ _ _ _ HW Hn) as (R1 & ty & ws & R2 & HR & Hroom).
  pose proof (can_call_world _ _ _ _ _ _ _ _ _ _ _ _ _ H HR Hroom Hmine Hoff) as Hcan.
  pose proof Hroom as [Hrep Hbuf]. simpl in Hrep, Hbuf. rewrite lookup_fmap in Hn.
  step. eapply wp_mono; [by eapply (call_ok mine c n [] ty ws)|]. intros r s'. unfold call_post.
  destruct (rendezvous mine (MkWaiter (fresh_loc s) p data) ty ws) as [[w|] [ty' ws']] eqn:Hren.
  - intros (Hrep' & -> & ->). simpl int_ctl. apply wp_ret.
    destruct ws as [|w0 ws0]; [done|]. simpl in Hren. case_decide as Hty; [done|]. injection Hren as -> -> ->.
    assert (copy_ok mine w data n (mem s)) as Hcopy.
    { destruct Hcan as (_ & _ & _ & _ & _ & Hc). by specialize (Hc Hty) as [Hc _]%Forall_cons. }
    pose proof (census_nodup _ _ (w_census _ _ _ _ _ _ HW)) as Hnd.
    assert (w_proc w ≠ p) as Hwp.
    { apply (cpu_unique _ _ _ _ _ _ p (w_proc w) HW Hcpu). rewrite !elem_of_app. do 2 right. left.
      rewrite HR. unfold blocked. rewrite flat_map_app, elem_of_app. right. simpl. by left. }
    eapply (safe_running _ _ _ _ (with_rooms (Some p) (R1 ++ MkRoom c n ty' ws' :: R2) W)); [constructor|].
    + done.
    + eapply world_met; [exact HW|exact Hcpu|exact HR|done|exact Hbuf|exact Hn|exact Hcopy|exact Hrep'].
    + exact Hcur.
    + simpl. by rewrite lookup_alter_ne.
    + unfold view_of, args_of in *. simpl. rewrite lookup_alter_ne by done.
      apply fmap_Some in Hn as (ch & Hch & Hn). unfold c_set_endQ. simpl. by rewrite (data_size_insert _ _ ch).
  - intros (Hrep' & -> & ->). simpl int_ctl.
    assert (ty' = mine ∧ ws' ≡ₚ MkWaiter (fresh_loc s) p data :: ws ∧ (ws = [] ∨ ty = mine)) as (-> & Hws & Hty).
    { destruct ws as [|w0 ws0]; simpl in Hren; [by simplify_eq; auto|]. case_decide; simplify_eq.
      split; [done|]. split; [by rewrite <-Permutation_cons_append, (Permutation_swap w0)|by right]. }
    eapply safe_wait; [eapply world_waiting; [exact HW|exact Hcpu|exact HR|exact Hws|..]|..]; try done.
    + apply Forall_forall. intros y Hy. rewrite Hws in Hy. apply elem_of_cons in Hy as [->|Hy]; [by destruct mine|].
      destruct Hty as [->| ->]; [by apply elem_of_nil in Hy|]. rewrite Forall_forall in Hbuf. by apply Hbuf.
    + simpl. by rewrite lookup_alter_eq, Hv.
    + set_solver.
Qed.

Lemma safe_do_chwrite own (x : cpu P) W p s c data n k :
  on_cpu own (conts x) W p s → (c_data_size <$> chans s) !! c = Some n → sends L data n →
  typed (view_of own s p) (k (RInt 1)) →
  wp (r ← do_call (CallChwrite (Some c) data n); after_call p x k r) safe s.
Proof.
  intros H Hn Hs Ht. pose proof (safe_call CHAN_WRITER _ _ _ _ _ _ _ _ k H Hn ltac:(done) Hs Ht) as Hc.
  apply wp_bind in Hc. unfold do_call. step. step. eapply wp_mono; [exact Hc|]. intros r s' Hr. by step.
Qed.

Lemma safe_do_chread own (x : cpu P) W p s c data n k :
  on_cpu own (conts x) W p s → (c_data_size <$> chans s) !! c = Some n → receives L data n →
  typed (view_of own s p) (k (RInt 1)) →
  wp (r ← do_call (CallChread (Some c) data n); after_call p x k r) safe s.
Proof.
  intros H Hn Hs Ht. pose proof (safe_call CHAN_READER _ _ _ _ _ _ _ _ k H Hn ltac:(done) Hs Ht) as Hc.
  apply wp_bind in Hc. unfold do_call. step. step. eapply wp_mono; [exact Hc|]. intros r s' Hr. by step.
Qed.
End world_comm.
