(* ===== verification/WorldTrees.v ===== *)
(** * Opening channels, and building and starting trees, keep the invariant of [World] *)
From stdpp Require Import functions base tactics list gmap.
From Stdlib Require Import ZArith Lia.
From S2P Require Import Prelude Tailq Rbtree RbInsert RbSpec State SchedOps Exec SleepSpec.
From S2P Require Import Csp BuildTree CspSpec Proc ProcSpec AltCore Chan CopySpec ChanSpec Alt Context Sched SchedSpec.
From S2P Require Import Proxc ProxcSpec System World WorldSched WorldEnd WorldCalls WorldComm.

(** What one process owns, apart from the others. *)
Lemma own_split {A} (own : loc → list A) l p :
  NoDup l → p ∈ l → ∃ rest, ∀ f, (∀ q, q ≠ p → f q = own q) → flat_map f l ≡ₚ f p ++ rest.
Proof.
  intros Hnd (l1 & l2 & ->)%list_elem_of_split. exists (flat_map own (l1 ++ l2)). intros f Hf.
  assert (∀ l, p ∉ l → flat_map f l = flat_map own l) as Heq.
  { induction l as [|x l IH]; intros Hp; [done|]. apply not_elem_of_cons in Hp as [Hx Hp].
    simpl. by rewrite (Hf x), IH. }
  apply NoDup_app in Hnd as (_ & Hd & (Hp & _)%NoDup_cons).
  assert (p ∉ l1 ++ l2) as Hn by (intros [Hx|]%elem_of_app; [by apply (Hd p Hx); left|done]).
  rewrite <-(Heq _ Hn), !flat_map_app. simpl. solve_Permutation.
Qed.

Lemma built_ext t (m m' : gmap loc Builder) :
  (∀ x, x ∈ nodes t → m' !! x = m !! x) → built m t → built m' t.
Proof. intros Hm (Hr & Hf). split; [by eapply brep_ext|done]. Qed.

Section world_trees.
Context {T : Type} {TT : SleepTree T} {E : Env} {P : Type} {CL : Client P}.
Context (L : layout) (horizon : Z) (typed : view → P → Prop) {D : Discipline L horizon typed}.
Context (Hmalloc : ∀ k, malloc_ok k = true).
Implicit Types (s : St T) (W : places).
Abbreviation world := (world L typed).
Abbreviation safe := (safe L typed).
Abbreviation on_cpu := (on_cpu L typed).

(** Who waits goes on as before when there is more around it. *)
Lemma parked_keep own own' cont s s' q :
  own' q = own q → option_Forall2 similar (procs s !! q) (procs s' !! q) →
  (c_data_size <$> chans s) ⊆ (c_data_size <$> chans s') → ends s' = ends s →
  (fresh_loc s ≤ fresh_loc s')%positive → parked typed own cont s q → parked typed own' cont s' q.
Proof.
  intros Hown Hq Hc He Hle. unfold parked, view_of, args_of. rewrite Hown.
  assert (∀ st, typed (View (c_data_size <$> chans s) (from_option p_args [] (procs s !! q)) (own q)) st →
    typed (View (c_data_size <$> chans s') (from_option p_args [] (procs s' !! q)) (own q)) st) as Ht.
  { intros st Ht. apply (typed_grow L horizon typed _ _ _ _ _ Hc).
    inversion Hq as [v v' (_ & Ha & _) e1 e2|e1 e2]; rewrite <-e1 in Ht; simpl in *; by rewrite ?Ha. }
  destruct (cont !! q) as [[f k]|].
  - intros [Hf Hk]. split; [|by apply Ht]. destruct f; try done. destruct Hf as [Hlt Hce].
    rewrite <-He in Hce. split; [lia|done].
  - intros (v & Hv & Hf & Hst). rewrite Hv in Hq. inversion Hq as [? v' (Hfx & _) e1 e2|]. subst.
    exists v'. rewrite Hfx. split; [done|]. split; [done|]. rewrite e2. by apply Ht.
Qed.

(** The running process has used or joined some of its trees. *)
Lemma world_regrown own own' cont W W' s s' p :
  world own cont W s → at_cpu W = Some p → similars s s' →
  chans s' = chans s → ends s' = ends s → mem s' = mem s → (fresh_loc s ≤ fresh_loc s')%positive →
  (∀ x, is_Some (builds s' !! x) → (x < fresh_loc s')%positive) →
  rooms W' = rooms W → (∀ q, q ≠ p → own' q = own q) → census W' s' → sleep_ok (asleep_l W') s' →
  trees_ok W' s' → whole W' s' → owners_ok own' W' s' → (at_cpu W' ≠ Some p → parked typed own' cont s' p) →
  world own' cont W' s'.
Proof.
  intros H Hcpu Hs Hc He Hm Hle Hb Hrooms Hown Hcen Hsl Htr Hwh Hown' Hp. pose proof Hs as (Htq & Hss & _).
  pose proof H as [_ (Hdom & Hproc & Hst) _ (Hrs & Hrn & Hra) _ _ Hpark Hfr Hmem _ Hends]. constructor; try done.
  - split_and!; [by rewrite (sim_dom _ _ Hs), Htq| |by rewrite Hss]. intros q v' Hv'.
    destruct (sim_lookup _ _ _ _ Hs Hv') as (v & Hv & (_ & _ & Hsz & _ & Hstate)).
    destruct (Hproc q v Hv) as [Hal Hk]. split; [destruct Hstate; congruence|by rewrite Hsz].
  - rewrite Hrooms. split_and!; [|done|by rewrite Hc]. eapply Forall_impl; [exact Hrs|].
    intros r [Hrep Hbuf]. split; [|done]. unfold chan_rep, waits in *. by rewrite Hc, He.
  - intros q Hin Hr. rewrite Htq in Hin. destruct (decide (q = p)) as [->|Hne]; [by apply Hp|].
    eapply parked_keep; [by apply Hown|apply Hs|by rewrite Hc|done|done|]. apply Hpark; [done|congruence].
  - intros x [Hx|[Hx|[Hx|[Hx|Hx]]]]; [..|by apply Hb|]; (eapply Pos.lt_le_trans; [apply Hfr|exact Hle]).
    + left. by rewrite <-elem_of_dom, <-(sim_dom _ _ Hs), elem_of_dom.
    + rewrite Hc in Hx. auto.
    + rewrite He in Hx. auto.
    + auto.
  - unfold memory_ok. by rewrite Hm.
  - eapply ends_sim; [apply H|by rewrite He|]. intros q. by apply sim_live.
Qed.

Lemma world_own own cont W s p :
  world own cont W s → p ∈ s_totalQ (sched s) → ∃ rest, loose W ≡ₚ own p ++ rest ∧
    ∀ ts loose', loose' ≡ₚ ts ++ rest → flat_map (<[p := ts]> own) (s_totalQ (sched s)) ⊆+ loose'.
Proof.
  intros H Hp. destruct (w_census _ _ _ _ _ _ H) as [Hnd _].
  destruct (own_split own _ _ Hnd Hp) as (r & Hr).
  pose proof (w_own _ _ _ _ _ _ H) as Hown. unfold owners_ok in Hown. rewrite (Hr own) in Hown by done.
  apply submseteq_Permutation in Hown as [k Hk]. exists (r ++ k). rewrite app_assoc. split; [done|].
  intros ts loose' ->. rewrite (Hr (<[p := ts]> own)) by (intros; by rewrite fn_lookup_insert_ne).
  rewrite fn_lookup_insert, app_assoc. apply submseteq_inserts_r. done.
Qed.

(** Trees of other nodes stay as they are. *)
Lemma trees_rest W s m r l R ts others (extra : list loc) new :
  trees_ok W s → loose W ≡ₚ ts ++ others →
  (∀ x, x ∉ flat_map nodes ts → x ∉ extra → m !! x = builds s !! x) →
  (∀ x, x ∈ extra → builds s !! x = None) →
  Forall (built m) others ∧
  (∀ s', builds s' = m → Forall (λ y, running y.1 y.2 s' ∧ done y.1 = false) (started W)) ∧
  flat_map nodes (trees_of W) ≡ₚ flat_map nodes ts ++ flat_map nodes (trees_of (Places r l R (started W) others)) ∧
  flat_map open_leaves (trees_of W) ≡ₚ
    flat_map open_leaves ts ++ flat_map open_leaves (trees_of (Places r l R (started W) others)) ∧
  flat_map nodes (trees_of (Places r l R (started W) (new ++ others))) ≡ₚ
    flat_map nodes new ++ flat_map nodes (trees_of (Places r l R (started W) others)) ∧
  flat_map open_leaves (trees_of (Places r l R (started W) (new ++ others))) ≡ₚ
    flat_map open_leaves new ++ flat_map open_leaves (trees_of (Places r l R (started W) others)).
Proof.
  intros (Hlo & Hgo & Hnd & _) Hp Hm Hx. unfold trees_of in *. cbn [loose started].
  assert (flat_map nodes (loose W ++ (started W).*1) ≡ₚ
    flat_map nodes ts ++ flat_map nodes (others ++ (started W).*1)) as Hn.
  { rewrite Hp, !flat_map_app. solve_Permutation. }
  rewrite Hn in Hnd. apply NoDup_app in Hnd as (_ & Hd & _).
  assert (∀ t x, t ∈ others ++ (started W).*1 → is_Some (builds s !! x) → x ∈ nodes t → m !! x = builds s !! x) as Hsame.
  { intros t x Ht Hin Hxt. apply Hm.
    - intros Hts. apply (Hd x Hts). apply elem_of_flat_map. by exists t.
    - intros He. rewrite (Hx x He) in Hin. by destruct Hin. }
  rewrite Hp in Hlo. apply Forall_app in Hlo as [_ Hlo]. split_and!.
  - rewrite Forall_forall in *. intros t Ht. eapply built_ext; [|by apply Hlo].
    intros x Hxt. apply (Hsame t); [set_solver| |done]. destruct (Hlo t Ht) as [Hr _]. by eapply brep_nodes.
  - intros s' Hs'. rewrite Forall_forall in *. intros [t rp] Ht. destruct (Hgo _ Ht) as [Hr Hdone].
    split; [|done]. eapply running_ext; [exact Hr|]. rewrite Hs'. intros x Hxt. apply (Hsame t); [|by eapply brep_nodes; [apply Hr|]|done].
    apply elem_of_app. right. apply list_elem_of_fmap. by exists (t, rp).
  - done.
  - rewrite Hp, !flat_map_app. solve_Permutation.
  - by rewrite !flat_map_app, <-app_assoc.
  - by rewrite !flat_map_app, <-app_assoc.
Qed.

Lemma leaves_Join j b ts : leaves (Join j b ts) = flat_map leaves ts.
Proof. by destruct j. Qed.
Lemma nodes_Join j b ts : nodes (Join j b ts) = b :: flat_map nodes ts.
Proof. by destruct j. Qed.
Lemma open_Join j b ts : open_leaves (Join j b ts) = flat_map open_leaves ts.
Proof. by destruct j. Qed.

Lemma trees_join j b ts others W s s' r l R :
  trees_ok W s → loose W ≡ₚ ts ++ others → builds s !! b = None → ts ≠ [] →
  brep (builds s') None false None (Join j b ts) →
  (∀ x, x ≠ b → x ∉ root <$> ts → builds s' !! x = builds s !! x) → procs s' = procs s →
  trees_ok (Places r l R (started W) (Join j b ts :: others)) s'.
Proof.
  intros H Hp Hb Hne Hr Hm Hps.
  destruct (trees_rest W s (builds s') r l R ts others [b] [Join j b ts] H Hp) as (Hlo & Hgo & Hn & Ho & Hn' & Ho').
  { intros x Hx Hxb. apply Hm; [set_solver|]. intros Hin. by apply Hx, roots_in_nodes. }
  { by intros x ->%list_elem_of_singleton. }
  destruct H as (Hlo0 & Hgo0 & Hnd & Hbu). cbn [app] in Hn', Ho'. split_and!.
  - constructor; [|done]. split; [done|]. rewrite Hp in Hlo0. apply Forall_app in Hlo0 as [Hts _].
    apply join_wf; [done|..]; apply forallb_forall; intros t Ht%list_elem_of_In;
      rewrite Forall_forall in Hts; by apply Hts.
  - by apply Hgo.
  - rewrite Hn'. simpl. rewrite nodes_Join, app_nil_r. simpl. rewrite <-Hn. apply NoDup_cons. split; [|done].
    intros (t & Ht & Hbt)%elem_of_flat_map.
    assert (is_Some (builds s !! b)) as [y Hy]; [|congruence].
    apply elem_of_app in Ht as [Ht|(y & -> & Ht)%list_elem_of_fmap].
    + rewrite Forall_forall in Hlo0. eapply brep_nodes; [by apply (Hlo0 t)|done].
    + rewrite Forall_forall in Hgo0. eapply brep_nodes; [by apply (Hgo0 y)|done].
  - rewrite Hps. intros q v c Hq Hc. rewrite Ho'. simpl. rewrite open_Join, app_nil_r, <-Ho. by eapply Hbu.
Qed.

Lemma whole_join j b ts others W s s' r l R :
  whole W s → trees_ok W s → loose W ≡ₚ ts ++ others → builds s !! b = None →
  (∀ x, x ≠ b → x ∉ root <$> ts → builds s' !! x = builds s !! x) → procs s' = procs s →
  whole (Places r l R (started W) (Join j b ts :: others)) s'.
Proof.
  intros [Hwb Hwo] H Hp Hb Hm Hps.
  destruct (trees_rest W s (builds s') r l R ts others [b] [Join j b ts] H Hp) as (_ & _ & Hn & Ho & Hn' & Ho').
  { intros x Hx Hxb. apply Hm; [set_solver|]. intros Hin. by apply Hx, roots_in_nodes. }
  { by intros x ->%list_elem_of_singleton. }
  cbn [app flat_map] in Hn', Ho'. rewrite nodes_Join, app_nil_r in Hn'. rewrite open_Join, app_nil_r, <-Ho in Ho'.
  cbn [app] in Hn'. rewrite <-Hn in Hn'. split.
  - intros x Hx. rewrite Hn', elem_of_cons. destruct (decide (x = b)) as [|Hxb]; [by left|]. right.
    destruct (decide (x ∈ root <$> ts)) as [Hin|Hout]; [|apply Hwb; by rewrite <-Hm].
    rewrite Hn, elem_of_app. left. by apply roots_in_nodes.
  - intros x q Hx. rewrite Ho' in Hx. rewrite Hps. by apply Hwo.
Qed.

Lemma safe_do_join j own (x : cpu P) W p s l k :
  on_cpu own (conts x) W p s → modest s → joins typed j (view_of own s p) l k →
  wp (r ← returns RPtr (proxc_join j (with_sentinel l)); after_call p x k r) safe s.
Proof.
  intros H Hmod (ts & ts' & -> & Hne & Hown & Ht). destruct (on_cpu_live _ _ _ _ _ _ _ H) as [Hp (v & Hv & _)].
  pose proof H as [Hcpu HW Hcur Hst]. simpl in Hown.
  destruct (world_own _ _ _ _ _ HW Hp) as (rest & Hlo & Hrest). rewrite Hown, <-app_assoc in Hlo.
  pose proof (w_trees _ _ _ _ _ _ HW) as Htr. pose proof Htr as (Hbt & _ & Hnd & _).
  rewrite Hlo in Hbt. apply Forall_app in Hbt as [Hbt _].
  unfold trees_of in Hnd. rewrite Hlo, !flat_map_app in Hnd. apply NoDup_app in Hnd as [(Hnd & _)%NoDup_app _].
  assert (builds s !! fresh_loc s = None) as Hb.
  { destruct (builds s !! fresh_loc s) eqn:He; [|done]. exfalso. apply (Pos.lt_irrefl (fresh_loc s)).
    apply (w_fresh _ _ _ _ _ _ HW). eauto 10. }
  assert (length ts ≤ size (builds s)) as Hlen.
  { etrans; [|eapply (nodes_size (builds s) (root <$> ts)); [by apply roots_NoDup|]].
    - by rewrite length_fmap.
    - intros y (t & -> & Ht')%list_elem_of_fmap. rewrite Forall_forall in Hbt. destruct (Hbt t Ht') as [Hr _].
      eapply brep_nodes; [exact Hr|apply root_nodes]. }
  destruct Hmod as [_ Hsize]. unfold returns, with_sentinel. step. step. eapply wp_mono; [apply (join_parts j VSentinel []); [done|by apply Hmalloc|done|done|done|lia]|].
  intros r s' (-> & Hr & Hm & Hps & Hs & (Hch & Hen & Hme & Hfr)). step. apply wp_ret.
  set (t := Join j (fresh_loc s) ts) in *.
  eapply (safe_running _ _ (<[p := t :: ts']> own) _
    (Places (Some p) (asleep_l W) (rooms W) (started W) (t :: ts' ++ rest))); [constructor|].
  - done.
  - eapply world_regrown; [exact HW|exact Hcpu|..]; try done.
    + split_and!; [by rewrite Hs..|]. intros q. rewrite Hps. apply sims_refl.
    + rewrite Hfr. lia.
    + rewrite Hfr. intros y Hy. destruct (decide (y = fresh_loc s)) as [->|Hy0]; [lia|].
      destruct (decide (y ∈ root <$> ts)) as [Hin|Hout].
      * apply Pos.lt_lt_succ. apply (w_fresh _ _ _ _ _ _ HW). do 3 right. left.
        apply list_elem_of_fmap in Hin as (u & -> & Hu). rewrite Forall_forall in Hbt. destruct (Hbt u Hu) as [Hru _].
        eapply brep_nodes; [exact Hru|apply root_nodes].
      * rewrite Hm in Hy by done. apply Pos.lt_lt_succ. apply (w_fresh _ _ _ _ _ _ HW). auto.
    + intros q Hq. by apply fn_lookup_insert_ne.
    + destruct (w_census _ _ _ _ _ _ HW) as [Hn Hc]. unfold census. rewrite Hs. split; [done|]. rewrite <-Hc.
      unfold elsewhere_than_ready, in_hand. simpl. rewrite Hcpu, Hlo, !flat_map_app. unfold t. rewrite leaves_Join.
      simpl. solve_Permutation.
    + eapply sleep_ok_ext; [apply HW|..]; try (by rewrite Hs). intros y _. unfold sleep_key. by rewrite Hps.
    + by eapply trees_join.
    + eapply whole_join; [apply HW|..]; done.
    + unfold owners_ok. rewrite Hs. by apply Hrest.
  - by rewrite Hs.
  - by rewrite Hps.
  - specialize (Ht (fresh_loc s)). unfold view_of, args_of in *. by rewrite fn_lookup_insert, Hps, Hch.
Qed.

(** ** A new channel *)

Lemma fresh_chan own cont W s : world own cont W s → chans s !! fresh_loc s = None.
Proof.
  intros H. destruct (chans s !! fresh_loc s) eqn:He; [|done]. exfalso. apply (Pos.lt_irrefl (fresh_loc s)).
  apply (w_fresh _ _ _ _ _ _ H). eauto.
Qed.

Lemma sizes_insert (m : gmap loc Chan) c n :
  c_data_size <$> <[c := MkChan n [] []]> m = <[c := n]> (c_data_size <$> m).
Proof. apply fmap_insert. Qed.

Lemma world_opened own cont W s s' n p :
  world own cont W s → at_cpu W = Some p → chans s' = <[fresh_loc s := MkChan n [] []]> (chans s) →
  (procs s', ends s', builds s', mem s', sched s') = (procs s, ends s, builds s, mem s, sched s) →
  fresh_loc s' = Pos.succ (fresh_loc s) →
  world own cont (with_rooms (Some p) (MkRoom (fresh_loc s) n CHAN_WRITER [] :: rooms W) W) s'.
Proof.
  intros H Hcpu Hc [= Hp He Hb Hm Hs] Hf. pose proof (fresh_chan _ _ _ _ H) as Hn.
  pose proof H as [Hcen Hproc Hsl (Hrs & Hrn & Hra) (Hlo & Hgo & Hnd & Hbu) Hown Hpark Hfr Hmem Hwh Hends]. constructor.
  - unfold census. rewrite Hs. destruct Hcen as [? Hcen]. split; [done|]. rewrite <-Hcen.
    unfold elsewhere_than_ready. by rewrite Hcpu.
  - unfold procs_ok. by rewrite Hp, Hs.
  - eapply sleep_ok_ext; [exact Hsl|..]; try (by rewrite Hs). intros y _. unfold sleep_key. by rewrite Hp.
  - assert (∀ r, r ∈ rooms W → r_chan r ≠ fresh_loc s) as Hne.
    { intros r Hr Heq. rewrite Forall_forall in Hrs. destruct (Hrs r Hr) as [(Hch & _) _]. by rewrite Heq, Hn in Hch. }
    split_and!; simpl.
    + constructor.
      * split; [|constructor]. split_and!; [by rewrite Hc, lookup_insert_eq|constructor|constructor|done].
      * rewrite Forall_forall in *. intros r Hr. destruct (Hrs r Hr) as [(Hch & Hrep) Hbuf]. split; [|done].
        unfold chan_rep, waits in *. rewrite He, Hc, lookup_insert_ne; [done|]. symmetry. by apply Hne.
    + apply NoDup_cons. split; [|done]. intros (r & Heq & Hr)%list_elem_of_fmap. by apply (Hne r).
    + intros y. rewrite Hc. intros [?|[_ Hy]]%lookup_insert_is_Some; [subst; by left|]. right. by apply Hra.
  - unfold trees_ok, trees_of, running in *. rewrite Hb, Hp. done.
  - unfold owners_ok. by rewrite Hs.
  - intros q Hq Hne. rewrite Hs in Hq. simpl in Hne. apply (parked_keep own own cont s s' q);
      [done|rewrite Hp; apply sims_refl|..|apply Hpark; [done|congruence]].
    + rewrite Hc, sizes_insert. apply insert_subseteq. by rewrite lookup_fmap, Hn.
    + done.
    + rewrite Hf. lia.
  - intros y. rewrite Hf, Hp, He, Hb, Hc, lookup_insert_is_Some. intros Hy.
    destruct (decide (y = fresh_loc s)) as [->|Hy0]; [lia|]. apply Pos.lt_lt_succ, Hfr. naive_solver.
  - unfold memory_ok. by rewrite Hm.
  - unfold whole. rewrite Hb, Hp. apply H.
  - unfold ends_ok. rewrite He, Hp. apply H.
Qed.

Lemma safe_do_chopen own (x : cpu P) W p s n k :
  on_cpu own (conts x) W p s →
  (∀ c, (c_data_size <$> chans s) !! c = None →
    typed (View (<[c := n]> (c_data_size <$> chans s)) (args_of s p) (own p)) (k (RPtr (Some c)))) →
  wp (r ← do_call (CallChopen n); after_call p x k r) safe s.
Proof.
  intros [Hcpu HW Hcur Hst] Ht. unfold do_call, returns, proxc_chopen, chan_create, malloc. steps.
  rewrite Hmalloc. steps. eapply (safe_running _ _ own _
    (with_rooms (Some p) (MkRoom (fresh_loc s) n CHAN_WRITER [] :: rooms W) W)); [constructor|]; try done.
  - by eapply world_opened.
  - unfold view_of. simpl. rewrite sizes_insert. apply Ht. by rewrite lookup_fmap, (fresh_chan _ _ _ _ HW).
Qed.

(** ** A new process *)

(** What PROC leaves behind: the process [q] and its builder [b]. *)
Record spawned (q b : loc) (v : Proc) s s' : Prop := {
  sp_procs : procs s' = <[q := v]> (procs s);
  sp_builds : builds s' = <[b := MkBuilder None false None (ProcBuild (Some q))]> (builds s);
  sp_total : s_totalQ (sched s') = s_totalQ (sched s) ++ [q];
  sp_sched : s_set_totalQ (s_totalQ (sched s)) (sched s') = sched s;
  sp_rest : (chans s', ends s', mem s') = (chans s, ends s, mem s);
  sp_fresh : q = fresh_loc s ∧ b = Pos.succ q ∧ fresh_loc s' = Pos.succ b;
  sp_new : p_state v = PROC_READY ∧ p_stack_size v = s_stack_size (sched s) ∧ p_proc_build v = Some b
}.

Lemma world_old own cont W s x :
  world own cont W s → (fresh_loc s ≤ x)%positive →
  procs s !! x = None ∧ builds s !! x = None ∧ cont !! x = None ∧ x ∉ s_totalQ (sched s).
Proof.
  intros H Hx. pose proof (w_fresh _ _ _ _ _ _ H x) as Hfr.
  split_and!; [apply eq_None_not_Some; intros Hs; destruct (Pos.lt_irrefl (fresh_loc s));
    eapply Pos.le_lt_trans; [exact Hx|apply Hfr; auto 10]..|].
  rewrite (world_live _ _ _ _ _ _ x H). intros Hs. destruct (Pos.lt_irrefl (fresh_loc s)).
  eapply Pos.le_lt_trans; [exact Hx|apply Hfr; auto].
Qed.

Lemma world_spawned own cont W s s' p q b v :
  world own cont W s → at_cpu W = Some p → p ∈ s_totalQ (sched s) → spawned q b v s s' → p_fxn v ≠ 0%Z →
  typed (View (c_data_size <$> chans s) (p_args v) []) (client_start (p_fxn v)) →
  world (<[q := []]> (<[p := Leaf b q false :: own p]> own)) cont
    (Places (Some p) (asleep_l W) (rooms W) (started W) (Leaf b q false :: loose W)) s'.
Proof.
  intros H Hcpu Hp [Hpr Hbu Htq Hsc [= Hc He Hm] (Hq & Hb & Hf) (Hst & Hsz & Hpb)] Hfx Ht.
  destruct (world_old _ _ _ _ q H) as (Hq1 & _ & Hq3 & Hq4); [lia|].
  destruct (world_old _ _ _ _ b H) as (_ & Hb2 & _ & _); [lia|].
  assert (q ≠ p) as Hqp by (by intros ->).
  pose proof H as [[Hnd Hcen] (Hdom & Hproc & Hss) Hsl (Hrs & Hrn & Hra) Htr Hown Hpark Hfr Hmem Hwh Hends].
  assert (∀ y, y ∈ s_totalQ (sched s) → procs s' !! y = procs s !! y) as Hold.
  { intros y Hy. rewrite Hpr, lookup_insert_ne; [done|]. by intros ->. }
  constructor.
  - unfold census. rewrite Htq. split.
    + apply NoDup_app. split; [done|]. split; [|apply NoDup_singleton]. by intros y Hy ->%list_elem_of_singleton.
    + rewrite <-Hcen, <-Hsc. unfold elsewhere_than_ready. rewrite Hcpu. simpl. solve_Permutation.
  - split_and!.
    + rewrite Hpr, dom_insert_L, Hdom, Htq. rewrite list_to_set_app_L. set_solver.
    + intros y w. rewrite Hpr. intros [[<- <-]|[_ Hw]]%lookup_insert_Some; [|by eapply Hproc].
      split; [congruence|]. by rewrite Hsz.
    + rewrite <-Hsc in Hss. exact Hss.
  - eapply sleep_ok_ext; [exact Hsl|..]; try (by rewrite <-Hsc). intros y Hy.
    unfold sleep_key. rewrite Hold; [done|]. rewrite <-Hcen. unfold elsewhere_than_ready. set_solver.
  - split_and!; [|done|by rewrite Hc]. eapply Forall_impl; [exact Hrs|]. intros r [Hrep Hbuf].
    split; [|done]. unfold chan_rep, waits in *. by rewrite Hc, He.
  - assert (∀ y, y ∉ flat_map nodes [] → y ∉ [b] → builds s' !! y = builds s !! y) as Hsame.
    { intros y _ Hy. rewrite Hbu, lookup_insert_ne; [done|]. set_solver. }
    destruct (trees_rest W s (builds s') (Some p) (asleep_l W) (rooms W) [] (loose W) [b] [Leaf b q false] Htr)
      as (Hlo & Hgo & Hn & Ho & Hn' & Ho'); [done|done|by intros y ->%list_elem_of_singleton|].
    destruct Htr as (Hlo0 & Hgo0 & Hndt & Hbt). cbn [app flat_map] in Hn, Ho, Hn', Ho'. split_and!.
    + constructor; [|done]. split; [|done]. constructor. by rewrite Hbu, lookup_insert_eq.
    + by apply Hgo.
    + rewrite Hn', <-Hn. apply NoDup_cons. split; [|done]. intros (t & Hin & Hbn)%elem_of_flat_map.
      assert (is_Some (builds s !! b)) as [y Hy]; [|congruence].
      apply elem_of_app in Hin as [Hin|(y & -> & Hin)%list_elem_of_fmap].
      * rewrite Forall_forall in Hlo0. eapply brep_nodes; [by apply (Hlo0 t)|done].
      * rewrite Forall_forall in Hgo0. eapply brep_nodes; [by apply (Hgo0 y)|done].
    + intros y w c. rewrite Hpr, Ho', <-Ho. intros [[<- <-]|[_ Hw]]%lookup_insert_Some Hwc.
      * rewrite Hpb in Hwc. injection Hwc as <-. by left.
      * right. by eapply Hbt.
  - unfold owners_ok. rewrite Htq, flat_map_app. simpl. rewrite fn_lookup_insert, !app_nil_r.
    destruct (world_own _ _ _ _ _ H Hp) as (rest & Hlo & Hrest).
    assert (flat_map (<[q := []]> (<[p := Leaf b q false :: own p]> own)) (s_totalQ (sched s)) =
      flat_map (<[p := Leaf b q false :: own p]> own) (s_totalQ (sched s))) as ->.
    { clear -Hq4. induction (s_totalQ (sched s)) as [|y l IH]; [done|]. apply not_elem_of_cons in Hq4 as [Hy Hl].
      cbn [flat_map]. by rewrite IH, fn_lookup_insert_ne. }
    apply Hrest. simpl. by rewrite Hlo.
  - intros y. rewrite Htq, elem_of_app. intros [Hy| ->%list_elem_of_singleton] Hne; simpl in Hne.
    + apply (parked_keep own _ cont s s' y).
      * assert (y ≠ q) by (by intros ->). by rewrite !fn_lookup_insert_ne by congruence.
      * rewrite Hold by done. apply sims_refl.
      * by rewrite Hc.
      * done.
      * lia.
      * apply Hpark; [done|congruence].
    + unfold parked. rewrite Hq3. exists v. rewrite Hpr, lookup_insert_eq. split; [done|]. split; [done|].
      unfold view_of, args_of. by rewrite fn_lookup_insert, Hpr, lookup_insert_eq, Hc.
  - intros y. rewrite Hf, Hpr, Hbu, He, Hc, !lookup_insert_is_Some. intros Hy.
    destruct (decide (y = q)) as [->|]; [lia|]. destruct (decide (y = b)) as [->|]; [lia|].
    assert (y < fresh_loc s)%positive; [|lia]. apply Hfr. naive_solver.
  - unfold memory_ok. by rewrite Hm.
  - destruct Hwh as [Hwb Hwo]. split.
    + intros y. rewrite Hbu. intros [<-|[_ Hy]]%lookup_insert_is_Some; [by left|]. right. by apply Hwb.
    + intros c y Hy. rewrite Hpr. apply elem_of_cons in Hy as [[= -> ->]|Hy]; [rewrite lookup_insert_eq; by eexists|].
      destruct (Hwo c y Hy) as (w & Hw & Hwc). exists w. rewrite lookup_insert_ne; [done|]. intros ->. congruence.
  - eapply ends_sim; [apply H|by rewrite He|]. intros y Hy. rewrite Hpr. by apply is_Some_insert.
Qed.

Lemma proc_spawns own cont W s f args :
  world own cont W s → f ≠ 0%Z → Forall (λ x, x ≠ PROXC_NULL) args →
  wp (proxc_proc f (PROC_args args)) (λ r s', ∃ q b v, r = Some b ∧ spawned q b v s s' ∧
    p_fxn v = f ∧ p_args v = args ∧ s_curr_proc (sched s') = s_curr_proc (sched s)) s.
Proof.
  intros H Hf Ha. destruct (world_old _ _ _ _ (fresh_loc s) H) as (Hq1 & _ & _ & Hq4); [lia|].
  pose proof (world_all_live _ _ _ _ _ _ H) as Hl. apply Z.eqb_neq in Hf as Hf'.
  unfold proxc_proc, proc_create, malloc. rewrite Hf'. step. apply wp_ASSERT; [done|].
  step. step. apply wp_ASSERT; [done|]. steps. rewrite Hmalloc. steps. rewrite Hmalloc. cbn [negb]. steps.
  apply wp_INSERT_TAIL; [done|apply live_in_Some; eexists; apply lookup_insert_eq|
    by apply Forall_live, Forall_is_Some_insert|].
  steps. apply wp_ASSERT; [done|]. unfold csp_create, malloc. steps. rewrite Hmalloc. steps.
  eapply wp_mono; [eapply (setargs_ok (fresh_loc s)); [simpl; apply lookup_insert_eq|done|exact Ha]|].
  intros r s' [-> ->]. steps. apply wp_ASSERT; [done|]. steps.
  eexists _, _, _. split; [reflexivity|]. split.
  - constructor; simpl; rewrite ?insert_insert_eq; try reflexivity; [by destruct (sched s)|by split_and!..].
  - by split_and!.
Qed.

Lemma safe_do_proc own (x : cpu P) W p s f args k :
  on_cpu own (conts x) W p s → f ≠ 0%Z → Forall (λ a, a ≠ PROXC_NULL) args →
  typed (View (c_data_size <$> chans s) args []) (client_start f) →
  (∀ b q, typed (View (c_data_size <$> chans s) (args_of s p) (Leaf b q false :: own p)) (k (RPtr (Some b)))) →
  wp (r ← do_call (CallProc f args); after_call p x k r) safe s.
Proof.
  intros H Hf Ha Hstart Ht. destruct (on_cpu_live _ _ _ _ _ _ _ H) as [Hp (v & Hv & _)].
  pose proof H as [Hcpu HW Hcur Hst]. unfold do_call, returns. step. step.
  eapply wp_mono; [by apply (proc_spawns _ _ _ _ f args HW)|].
  intros r s' (q & b & w & -> & Hsp & <- & <- & Hcur'). step. apply wp_ret.
  pose proof (world_spawned _ _ _ _ _ _ _ _ _ HW Hcpu Hp Hsp Hf Hstart) as HW'.
  destruct Hsp as [Hpr Hbu Htq Hsc [= Hc He Hm] (Hq & Hb & Hfr) _].
  destruct (world_old _ _ _ _ q HW) as (_ & _ & _ & Hq4); [lia|]. assert (q ≠ p) as Hqp by (by intros ->).
  eapply safe_running; [constructor; [|exact HW'|..]|].
  - done.
  - congruence.
  - by rewrite Hpr, lookup_insert_ne.
  - unfold view_of, args_of in *. rewrite fn_lookup_insert_ne by done.
    by rewrite fn_lookup_insert, Hpr, lookup_insert_ne, Hc.
Qed.

(** ** Starting a tree *)

(** A tree in hand may be started. *)
Lemma world_tree own cont W s p t ts :
  world own cont W s → modest s → at_cpu W = Some p → p ∈ s_totalQ (sched s) → own p ≡ₚ t :: ts →
  built (builds s) t ∧ NoDup (nodes t) ∧ (Z.of_nat (length (nodes t)) < U64)%Z ∧
  can_ready (active t) s ∧ p ∉ active t.
Proof.
  intros H [_ Hsz] Hcpu Hp Hown. destruct (world_own _ _ _ _ _ H Hp) as (rest & Hlo & _).
  rewrite Hown in Hlo. destruct (w_trees _ _ _ _ _ _ H) as (Hbt & _ & Hnd & _).
  rewrite Hlo in Hbt. apply Forall_cons in Hbt as [Hb _]. pose proof Hb as (Hr & Hwf & Hf).
  unfold trees_of in Hnd. rewrite Hlo in Hnd. simpl in Hnd. apply NoDup_app in Hnd as (Hnd & _).
  assert (length (nodes t) ≤ size (builds s)).
  { apply nodes_size; [done|]. intros y. by eapply brep_nodes. }
  split; [done|]. split; [done|]. split; [lia|].
  assert (∃ r, in_hand (loose W) ≡ₚ active t ++ r) as [r Hin].
  { exists (unstarted t ++ in_hand (ts ++ rest)). unfold in_hand. rewrite Hlo. simpl.
    rewrite (fresh_leaves t) by done. by rewrite <-app_assoc. }
  split.
  - eapply (world_can_ready _ _ _ _ _ _ _ (option_list (at_cpu W) ++ asleep_l W ++ blocked (rooms W) ++
      callers (started W) ++ to_start (started W) ++ r)); [exact H|].
    unfold elsewhere_than_ready. rewrite Hin. solve_Permutation.
  - intros Hpa. apply (cpu_unique _ _ _ _ _ _ p p H Hcpu); [|done]. rewrite Hin. set_solver.
Qed.

Lemma trees_planted own cont W s s' p t ts rp rest r :
  world own cont W s → own p ≡ₚ t :: ts → loose W ≡ₚ own p ++ rest → similars s s' → running t rp s' →
  wf t = true → fresh t = true → (∀ x, x ∉ nodes t → builds s' !! x = builds s !! x) →
  trees_ok (Places r (asleep_l W) (rooms W) ((t, rp) :: started W) (ts ++ rest)) s'.
Proof.
  intros H Hown Hlo Hs Hrun Hwf Hf Hm. pose proof (w_trees _ _ _ _ _ _ H) as Htr.
  rewrite Hown in Hlo. simpl in Hlo.
  destruct (trees_rest W s (builds s') r (asleep_l W) (rooms W) [t] (ts ++ rest) [] [] Htr)
    as (Hlo' & Hgo' & Hn & Ho & _); [done| |by intros y ?%elem_of_nil|].
  { intros y Hy _. apply Hm. simpl in Hy. set_solver. }
  destruct Htr as (_ & _ & Hnd & Hbu). unfold trees_of in *. cbn [loose started] in *. split_and!.
  - done.
  - constructor; [|by apply Hgo']. split; [done|]. by apply fresh_not_done.
  - rewrite Hn in Hnd. unfold trees_of. cbn [loose started]. rewrite fmap_cons, Permutation_app_comm. cbn [fst app flat_map] in *.
    rewrite app_nil_r in Hnd. rewrite flat_map_app in *. by rewrite (Permutation_app_comm (flat_map nodes (started W).*1)).
  - intros y v' c Hv' Hc. destruct (sim_lookup _ _ _ _ Hs Hv') as (v & Hv & (_ & _ & _ & Hbv & _)).
    rewrite Hbv in Hc. specialize (Hbu y v c Hv Hc). rewrite Ho in Hbu. unfold trees_of. cbn [loose started]. rewrite fmap_cons.
    rewrite !flat_map_app in *. cbn [flat_map fst] in *. set_solver.
Qed.

Lemma whole_planted own cont W s s' p t ts rp rest r :
  world own cont W s → own p ≡ₚ t :: ts → loose W ≡ₚ own p ++ rest → similars s s' →
  (∀ x, x ∉ nodes t → builds s' !! x = builds s !! x) →
  whole (Places r (asleep_l W) (rooms W) ((t, rp) :: started W) (ts ++ rest)) s'.
Proof.
  intros H Hown Hlo Hs Hm. destruct (w_whole _ _ _ _ _ _ H) as [Hwb Hwo].
  rewrite Hown in Hlo. simpl in Hlo.
  assert (trees_of (Places r (asleep_l W) (rooms W) ((t, rp) :: started W) (ts ++ rest)) ≡ₚ trees_of W) as Htr.
  { unfold trees_of. cbn [loose started]. rewrite Hlo, fmap_cons. simpl. solve_Permutation. }
  split.
  - intros x Hx. rewrite Htr. destruct (decide (x ∈ nodes t)) as [Hin|Hout]; [|apply Hwb; by rewrite <-Hm].
    apply elem_of_flat_map. exists t. split; [|done]. unfold trees_of. rewrite Hlo. set_solver.
  - intros x q Hx. rewrite Htr in Hx. destruct (Hwo x q Hx) as (v & Hv & Hbv).
    destruct (sim_lookup_r _ _ _ _ Hs Hv) as (v' & Hv' & (_ & _ & _ & Hbv' & _)). exists v'. by rewrite Hbv'.
Qed.

Lemma world_planted own cont W s s' p t ts rp r :
  world own cont W s → modest s → at_cpu W = Some p → p ∈ s_totalQ (sched s) → own p ≡ₚ t :: ts →
  option_list r ++ option_list rp ≡ₚ [p] → similars s s' →
  (chans s', ends s', mem s', fresh_loc s') = (chans s, ends s, mem s, fresh_loc s) →
  s_readyQ (sched s') = s_readyQ (sched s) ++ active t → sleep_ok (asleep_l W) s' → running t rp s' →
  (∀ x, x ∉ nodes t → builds s' !! x = builds s !! x) →
  (r ≠ Some p → parked typed (<[p := ts]> own) cont s' p) →
  ∃ loose', world (<[p := ts]> own) cont
    (Places r (asleep_l W) (rooms W) ((t, rp) :: started W) loose') s'.
Proof.
  intros H Hmod Hcpu Hp Hown Hrp Hs [= Hc He Hme Hfr] Hq Hsl Hrun Hm Hpark.
  destruct (world_tree _ _ _ _ _ _ _ H Hmod Hcpu Hp Hown) as ((Hr & Hwf & Hf) & _).
  destruct (world_own _ _ _ _ _ H Hp) as (rest & Hlo & Hrest). exists (ts ++ rest).
  pose proof Hs as (Htq & _).
  eapply world_regrown; [exact H|exact Hcpu|exact Hs|..]; try done.
  - by rewrite Hfr.
  - rewrite Hfr. intros y Hy. apply (w_fresh _ _ _ _ _ _ H). do 3 right. left.
    destruct (decide (y ∈ nodes t)) as [Hin|Hout]; [by eapply brep_nodes|]. by rewrite Hm in Hy.
  - intros q Hne. by apply fn_lookup_insert_ne.
  - destruct (w_census _ _ _ _ _ _ H) as [Hnd Hcen]. unfold census. rewrite Htq. split; [done|].
    rewrite <-Hcen, Hq. unfold elsewhere_than_ready, callers, to_start, in_hand.
    cbn [at_cpu asleep_l rooms started loose flat_map fst snd].
    rewrite Hlo, Hown, Hcpu. cbn [app flat_map]. rewrite (fresh_leaves t) by done.
    cbn [option_list]. rewrite <-Hrp. solve_Permutation.
  - by eapply trees_planted.
  - by eapply whole_planted.
  - unfold owners_ok. rewrite Htq. by apply Hrest.
Qed.

Lemma sims_ready_all ps s : similars s (ready_all ps s).
Proof. apply (tame_ready_all ps s). Qed.

(** GO starts the tree and goes on. *)
Lemma safe_do_go own (x : cpu P) W p s b k :
  on_cpu own (conts x) W p s → modest s → uses (view_of own s p) b (λ V', typed V' (k (RInt 0))) →
  wp (r ← do_call (CallGo (Some b)); after_call p x k r) safe s.
Proof.
  intros H Hmod (t & ts & -> & Hown & Ht). destruct (on_cpu_live _ _ _ _ _ _ _ H) as [Hp (v & Hv & Hst)].
  pose proof H as [Hcpu HW Hcur _]. simpl in Hown, Ht.
  destruct (world_tree _ _ _ _ _ _ _ HW Hmod Hcpu Hp Hown) as ((Hr & Hwf & Hf) & Hnd & Hsz & Hcan & Hpt).
  destruct (brep_root _ _ _ _ _ Hr) as (w & Hw & _).
  pose proof (set_root_brep _ _ None _ _ Hr Hnd eq_refl Hw) as Hr'.
  unfold do_call, returns, proxc_go. steps. apply wp_get. cbv beta. step.
  set (m := <[root t := _]> (builds s)) in *.
  assert (can_ready (active t) (set_builds (λ _, m) s)) as Hcan' by exact Hcan.
  eapply wp_mono.
  { eapply runbuild_fresh; [exact Hr'|done..| |exact Hcan'].
    pose proof (height_size _ _ _ _ _ Hr' Hnd). simpl. unfold m in *. lia. }
  intros [] ? ->. steps. set (s' := ready_all (active t) _).
  assert (similars s s') as Hs by exact (sims_ready_all (active t) s).
  destruct (world_planted _ _ _ s s' p t ts None (Some p) HW Hmod Hcpu Hp Hown) as [loose' HW']; try done.
  - eapply sleep_ok_ext; [apply HW|..]; try done. intros y _. exact (sleep_key_ready_all (active t) s y).
  - intros y Hy. apply lookup_insert_ne. intros <-. by apply Hy, root_nodes.
  - eapply safe_running; [constructor; [|exact HW'|..]|]; try done.
    + simpl. rewrite foldl_alter_lookup by apply Hcan. by rewrite decide_False, Hv, <-Hst.
    + unfold view_of in *. rewrite fn_lookup_insert, (sim_args s s') by done. exact Ht.
Qed.

(** RUN starts it and waits. *)
Lemma safe_do_run own (x : cpu P) W p s b k :
  on_cpu own (conts x) W p s → modest s → uses (view_of own s p) b (λ V', typed V' (k (RInt 0))) →
  wp (r ← do_call (CallRun (Some b)); after_call p x k r) safe s.
Proof.
  intros H Hmod (t & ts & -> & Hown & Ht). destruct (on_cpu_live _ _ _ _ _ _ _ H) as [Hp (v & Hv & Hst)].
  pose proof H as [Hcpu HW Hcur _]. simpl in Hown, Ht.
  destruct (world_tree _ _ _ _ _ _ _ HW Hmod Hcpu Hp Hown) as (Hbt & Hnd & Hsz & Hcan & Hpt).
  unfold do_call. step. step. eapply wp_mono; [by eapply proxc_run_waits|].
  intros r s' (-> & m & -> & Hrun & Hm). step. simpl int_ctl. set (s' := set_procs _ _) in *.
  pose proof (world_cont _ _ _ _ _ _ p (KRun, k) HW Hcpu) as HW1.
  assert (∀ q, procs s' !! q = if decide (q = p) then Some (p_set_state PROC_RUNWAIT v)
    else procs (ready_all (active t) s) !! q) as Hps.
  { intros q. simpl. case_decide as Hq; [subst; by rewrite lookup_insert_eq|by rewrite lookup_insert_ne]. }
  assert (similars s s') as Hs.
  { split_and!; [done|done|]. intros q. rewrite Hps. case_decide as Hq.
    - subst. rewrite Hv. constructor. split_and!; try done. by right.
    - apply (sims_ready_all (active t) s). }
  destruct (world_planted _ _ _ s s' p t ts (Some p) None HW1 Hmod Hcpu Hp Hown) as [loose' HW']; try done.
  - eapply sleep_ok_ext; [apply HW|..]; try done. intros y _. unfold sleep_key at 1. rewrite Hps.
    case_decide as Hy; [subst; unfold sleep_key; by rewrite Hv|]. exact (sleep_key_ready_all (active t) s y).
  - intros _. unfold parked. rewrite lookup_insert_eq. split; [done|].
    unfold view_of in *. rewrite fn_lookup_insert, (sim_args s s') by done. exact Ht.
  - eapply safe_wait; [exact HW'|done|exact Hcur| |].
    + rewrite Hps. by rewrite decide_True.
    + set_solver.
Qed.
End world_trees.
