(* ===== verification/Safety.v ===== *)
(** * Programs that keep to the interface never go wrong

    Every step of such a program keeps the invariant of [World], and so succeeds:
    no assertion fails, no loop runs out and no dangling pointer is followed. *)
From stdpp Require Import functions base tactics list gmap.
From Stdlib Require Import ZArith Lia.
From S2P Require Import Prelude Tailq Rbtree RbInsert RbSpec State SchedOps Exec SleepSpec.
From S2P Require Import Csp BuildTree CspSpec Proc ProcSpec AltCore Chan CopySpec ChanSpec Alt Context Sched SchedSpec.
From S2P Require Import Proxc ProxcSpec System Keeps SystemSpec World WorldSched WorldEnd WorldCalls WorldComm WorldTrees.

Section safety.
Context {T : Type} {TT : SleepTree T} {E : Env} {P : Type} {CL : Client P}.
Context (L : layout) (horizon : Z) (typed : view → P → Prop) {D : Discipline L horizon typed}.
Context (HL : layout_ok L) (Hclock : ∀ k, (clock k ≤ horizon)%Z) (Hmalloc : ∀ k, malloc_ok k = true).
Implicit Types (s : St T) (W : places) (x : cpu P).
Abbreviation world := (world L typed).
Abbreviation safe := (safe L typed).
Abbreviation on_cpu := (on_cpu L typed).

(** ** Switching to a process *)





(** ** One step *)





(** ** The start *)







(** ** Runs *)





(** ** The ready queue *)





End safety.

(** ** A program that keeps to the interface

    The main process opens a channel and runs a writer and a reader in parallel; the
    writer sends the byte at address 0, the reader sleeps and receives it at 1.  The
    channel is passed as twice its address, which is never PROXC_NULL. *)
Inductive ping :=
| Main0 | Main1 (c : loc) | Main2 (c w : loc) | Main3 (w r : loc) | Main4 (b : loc)
| Writer | Writing (c : loc) | Reader | Napping (c : loc) | Reading (c : loc) | Finished.

Definition on_ptr (k : loc → ping) (r : reply) : ping :=
  match r with RPtr (Some l) => k l | _ => Finished end.
Definition on_arg (k : loc → ping) (r : reply) : ping :=
  match r with RInt z => k (Z.to_pos (Z.div2 z)) | _ => Finished end.

Definition ping_next (st : ping) : option (call * (reply → ping)) :=
  match st with
  | Main0 => Some (CallChopen 1, on_ptr Main1)
  | Main1 c => Some (CallProc 2 [Zpos c~0], on_ptr (Main2 c))
  | Main2 c w => Some (CallProc 3 [Zpos c~0], on_ptr (Main3 w))
  | Main3 w r => Some (CallPar [VPtr w; VPtr r], on_ptr Main4)
  | Main4 b => Some (CallRun (Some b), λ _, Finished)
  | Writer => Some (CallArgn 0, on_arg Writing)
  | Writing c => Some (CallChwrite (Some c) 0 1, λ _, Finished)
  | Reader => Some (CallArgn 0, on_arg Napping)
  | Napping c => Some (CallSleep 100, λ _, Reading c)
  | Reading c => Some (CallChread (Some c) 1 1, λ _, Finished)
  | Finished => None
  end.

#[local] Instance ping_client : Client ping := {|
  client_start f := if (f =? 1)%Z then Main0 else if (f =? 2)%Z then Writer else Reader;
  client_next := ping_next
|}.

(** Addresses 0 and 1; messages are sent from 0 and received at 1. *)
Definition ping_layout : layout := {|
  cells a := a = 0%Z ∨ a = 1%Z;
  sends a n := a = 0%Z ∧ n = 1%Z;
  receives a n := a = 1%Z ∧ n = 1%Z
|}.

Definition ping_typed (V : view) (st : ping) : Prop :=
  match st with
  | Finished => True
  | Main0 => v_trees V = []
  | Main1 c => v_chans V !! c = Some 1%Z ∧ v_trees V = []
  | Main2 c w => v_chans V !! c = Some 1%Z ∧ ∃ p, v_trees V = [Leaf w p false]
  | Main3 w r => ∃ p q, v_trees V = [Leaf r q false; Leaf w p false]
  | Main4 b => ∃ t ts, root t = b ∧ v_trees V = t :: ts
  | Writer | Reader => ∃ c, v_args V = [Zpos c~0] ∧ v_chans V !! c = Some 1%Z
  | Writing c | Napping c | Reading c => v_chans V !! c = Some 1%Z
  end.

#[local] Instance ping_discipline : Discipline ping_layout 1000000 ping_typed.
Proof.
  split.
  - intros K K' args ts st HK. assert (∀ c, K !! c = Some 1%Z → K' !! c = Some 1%Z) as Hc
      by (intros; by eapply lookup_weaken).
    destruct st; simpl; naive_solver.
  - intros [K args ts] st c k Ht Hn. destruct st; simpl in *; simplify_eq; simpl.
    + intros c _. by rewrite lookup_insert_eq.
    + destruct Ht as [Hc ->]. split; [done|]. split; [by constructor|]. split; [by eexists|]. eauto.
    + destruct Ht as [Hc [p ->]]. split; [done|]. split; [by constructor|]. split; [by eexists|]. eauto.
    + destruct Ht as (p & q & ->). eexists [Leaf w p false; Leaf r q false], []. split; [done|].
      split; [done|]. split; [apply Permutation_swap|]. intros b.
      by exists (Par b [Leaf w p false; Leaf r q false]), [].
    + destruct Ht as (t & ts' & <- & ->). by eexists t, ts'.
    + destruct Ht as (c & -> & Hc). by split.
    + by repeat split.
    + destruct Ht as (c & -> & Hc). by split.
    + repeat split; [lia|]. exact Ht.
    + by repeat split.
Qed.

(** A clock that stops after one second. *)
#[local] Instance ping_env : Env := {|
  NDEBUG := false;
  timeofday k := (0, Z.min (1000 + 10 * Z.of_nat k) 1000000)%Z;
  rand_at k := Z.of_nat k;
  malloc_ok _ := true;
  pagesize := 4096;
  memalign_at p := (1048576 + 8192 * Z.pos p)%Z;
  madvise_ret _ := 0%Z;
  stack_depth _ := 100%Z
|}.

Definition ping_state : St rb_tree := set_mem (λ _, {[ 0%Z := 7%Z; 1%Z := 0%Z ]}) blank_state.
Definition ping_run (n : nat) : outcome (St rb_tree) (cpu ping) := (sys_start 1 ≫= sys_run n) ping_state.


Example ping_run_ends :
  match ping_run 30 with
  | Ok x s => cpu_mode x = Halted ∧ mem s !! 1%Z = Some 7%Z ∧ procs s = ∅ ∧ ends s = ∅
  | _ => False
  end.
Proof. vm_compute. done. Qed.









