(* ===== verification/ExitFault.v ===== *)
(** * Stopping the runtime too early

    The limit that [Safety] puts on the end of a program is needed. *)
From stdpp Require Import base tactics list gmap.
From Stdlib Require Import ZArith Lia.
From S2P Require Import Prelude Tailq Rbtree RbInsert RbSpec State SchedOps Exec Csp Proc.
From S2P Require Import AltCore Chan Alt AltGuards Context Sched Proxc System SystemSpec.

Section exit_fault.
Context {T : Type} {TT : SleepTree T} {E : Env}.
Implicit Types s : St T.

(** proc_free of a process in no tree. *)
Lemma free_loner c q v s :
  s_totalQ (sched s) = c :: q → c ∉ q → Forall (λ x, is_Some (procs s !! x)) (s_totalQ (sched s)) →
  procs s !! c = Some v → p_proc_build v = None →
  wp (proc_free (Some c)) (λ _ s', s_totalQ (sched s') = q ∧ procs s' = delete c (procs s) ∧
    builds s' = builds s) s.
Proof.
  intros Hq Hc Hl Hv Hb. unfold proc_free. steps. apply wp_REMOVE; [rewrite Hq; by left|by apply Forall_live|].
  rewrite Hb. unfold free_stack, free_proc. steps. split; [|done]. simpl. by rewrite Hq, Q_without_head.
Qed.

(** Freeing the last process of a tree whose caller is gone. *)
Lemma free_orphaned c p b q v s :
  s_totalQ (sched s) = p :: q → Forall (λ x, is_Some (procs s !! x)) (p :: q) → procs s !! c = None →
  procs s !! p = Some v → p_proc_build v = Some b →
  builds s !! b = Some (MkBuilder None true (Some c) (ProcBuild (Some p))) →
  proc_free (Some p) s = Undef.
Proof.
  intros Hq Hl Hc Hv Hb Hbb. unfold proc_free.
  unfold getp, gets, live_procs, get, mods, modify. unfold mbind, M_bind. rewrite Hv. simpl. rewrite Hq.
  unfold TQ_REMOVE. rewrite Q_remove_ok by (first [by left|by apply Forall_live]). simpl. rewrite Hb.
  unfold build_fuel, get. simpl. unfold getb, get, mbind, M_bind. simpl. rewrite Hbb. simpl.
  unfold csp_finish_root. simpl. unfold scheduler_addready, notnull, modp, getp, get, mbind, M_bind. simpl.
  by rewrite Hc.
Qed.

(** C39: stopping the runtime while a process waits in RUN is a use after free.
    scheduler_free frees the processes in the order of totalQ; when the caller [c]
    of a RUN comes before the process [p] that it runs, freeing [p] ends the tree,
    and csp_parsebuild makes ready the caller that is gone. *)
Theorem exit_frees_caller {P} {CL : Client P} (x : cpu P) c p b q vc vp s :
  cpu_mode x = Scheduling → s_is_exit (sched s) = true →
  s_totalQ (sched s) = c :: p :: q → c ∉ p :: q →
  Forall (λ y, is_Some (procs s !! y)) (s_totalQ (sched s)) →
  procs s !! c = Some vc → p_proc_build vc = None → procs s !! p = Some vp → p_proc_build vp = Some b →
  builds s !! b = Some (MkBuilder None true (Some c) (ProcBuild (Some p))) →
  sys_step x s = Undef.
Proof.
  intros Hx He Hq Hc Hl Hvc Hbc Hvp Hbp Hb. unfold sys_step. rewrite Hx.
  apply undef_bind. unfold _scheduler_running. steps. unfold id. rewrite He. apply undef_first.
  unfold scheduler_free. apply undef_bind. step. rewrite Hq. cbn [length scheduler_free_loop].
  apply undef_bind. step. rewrite Hq. apply undef_bind.
  eapply wp_mono; [by eapply free_loner|]. intros [] s1 (Hq1 & Hp1 & Hb1).
  apply undef_bind. step. rewrite Hq1. apply undef_first.
  rewrite Hq in Hl. apply Forall_cons in Hl as [_ Hl].
  eapply (free_orphaned c p b q vp); rewrite ?Hp1, ?Hb1; try done.
  - rewrite Forall_forall in *. intros y Hy. rewrite lookup_delete_ne by (by intros ->). by apply Hl.
  - by apply lookup_delete_eq.
  - rewrite lookup_delete_ne; [done|]. intros ->. apply Hc. by left.
Qed.
End exit_fault.

(** ** A program: the main process runs a child, which calls EXIT *)
Definition quit_next (b : demo_body) : option (call * (reply → demo_body)) :=
  let '(f, pc, rs) := b in
  let c := if (f =? 1)%Z
    then match pc, rs with
      | 0, _ => Some (CallProc 2 [])
      | 1, RPtr o :: _ => Some (CallRun o)
      | _, _ => None
      end
    else match pc with 0 => Some CallExit | _ => None end in
  (λ c, (c, λ r, (f, S pc, r :: rs))) <$> c.

#[local] Instance quit_client : Client demo_body :=
  {| client_start f := (f, 0, []); client_next := quit_next |}.
#[local] Existing Instance demo_env.

Definition quit_run (n : nat) : outcome (St rb_tree) (cpu demo_body) :=
  (sys_start 1 ≫= sys_run n) blank_state.

Definition quit_s : St rb_tree := match quit_run 5 with Ok _ s => s | _ => blank_state end.
Definition quit_x : cpu demo_body := match quit_run 5 with Ok x _ => x | _ => Cpu Halted ∅ end.
Definition quit_proc (p : loc) : Proc := default (demo_proc PROC_ERROR) (procs quit_s !! p).

Lemma exit_frees_caller_witness : quit_run 5 = Ok quit_x quit_s ∧ sys_step quit_x quit_s = Undef.
Proof.
  split; [by vm_compute|].
  apply (exit_frees_caller quit_x 1 2 3 [] (quit_proc 1) (quit_proc 2)); try by vm_compute.
  - by apply (bool_decide_unpack _).
  - apply (bool_decide_unpack _). by vm_compute.
Defined.
